(* ===== verification/_CoqProject ===== *)
-Q . S2P
Prelude.v
TimeVal.v
Lists.v
Kfifo.v
Sort.v
Pool.v
Caching.v
Clist.v
Timer.v
Udp.v
Socket.v
Delivery.v
Links.v
Receive.v
Process.v
MsgQueue.v
Strings.v
Rbtree.v
Thread.v
Signal.v
Idr.v
IdrAlloc.v
IdrMap.v
Log.v
