(* ===== verification/Prelude.v ===== *)
(** * utils-modules: a verification development

    utils-modules is a collection of C modules for server programs: data
    structures, memory pools, timers, threads, logging and a reliable transport
    over UDP.  The development models the modules function by function and proves
    what makes each of them correct.  Where the code does not do what it means
    to, the theorem says what it does.  This file holds what the models share.

    ** The parts

    The files and the sources they model, below src/, in the order in which they
    are compiled:

    - Prelude: outcomes of C code, the state monad and its logic, C integers,
      the structure [timeval].
    - TimeVal: the operations on [struct timeval] of module_common.h.
    - Lists: datastruct/list.h, doubly linked lists in a heap of nodes.
    - Kfifo: datastruct/kfifo.h and kfifo.c, the byte queue.
    - Sort: datastruct/sort.c, the three sorts of arrays.
    - Pool: pool/pool.h and pool.c, memory pools, over the class [BlockPolicy].
    - Caching: pool/policy.c, the instance of [BlockPolicy] over [Malloc], and
      pool/caching.c, the factory that recycles pools.
    - Clist: the class of the list library (clist.h, not in the repository) that
      the next two modules call, with its laws; Lists is an instance.
    - Timer: timer/module_timer.h and module_timer.c, over [Clist].
    - Udp, Socket: udp/ex_udp.h and ex_udp.c, over [Clist].  Udp has the packet
      formats and the operations on one connection, Socket the table of
      connections, the bodies of the threads and the interface.
    - Delivery: the protocol of Udp, between two endpoints over a network.
    - Links: the table of Socket.  Receive: its receiving thread against
      arbitrary peers.  Process: the sockets of a process and [exSocket].
    - MsgQueue: the message queue that ex_udp.c brings along for WIN32.
    - Strings: datastruct/string.c and module_string.c.
    - Rbtree: datastruct/rbtree.h and rbtree.c, red-black trees.
    - Thread: thread/thread.h and thread.c: threads and their registry, mutexes,
      atomics, semaphores, thread-local storage.
    - Signal: signal/module_sig.c.
    - Idr, IdrAlloc, IdrMap: datastruct/idr.h and idr.c, ids for pointers.  Idr
      has the program and its invariant, IdrAlloc the allocation, IdrMap the
      interface.
    - Log: log/log.h and log.c.

    The modules call each other as the C code does: pools keep their blocks, the
    factory its pools, and the thread registry its threads on the lists of Lists,
    each through its own instance of [NodeHeap]; the factory creates pools with
    the functions of Pool, which call back into the policy of the factory; a
    socket that Process opens is a state of Socket and Links.  Locks
    and log messages inside the other modules are left out, except where a model
    says it keeps a lock as a flag (Kfifo, Timer, Thread).

    ** How C is modelled

    A function is a computation of type [M S A]: the state [S] is a record of
    what the module's code can reach (static variables, the heap as finite maps
    from addresses to structures, what was sent or written), and the outcome is a
    value, undefined behaviour ([Fault]: an access outside an object or after a
    free, signed overflow where it is checked), a failed assertion, a call of
    [exit], or a wait that never ends.  Guards, early returns and the order of
    effects are the code's.  Unsigned arithmetic wraps at the width of its type
    ([u8], [u16], [u32], [u64]) and conversions to signed types go through [s8],
    [s32] and [s64]; pointers are 64 bits wide (LP64) where a layout matters.

    Loops whose bound is not structural are [loop] or recursion over fuel, and
    running out of fuel is an outcome of its own.  Every theorem about a result
    excludes it: the theorems are total ([wp], or an equation [f s = Ret ...]),
    and say how much fuel is enough, in terms of the state: more than the length
    of a list or string for a walk along it, the size of the array for the
    sorts, twice the logarithm of the size for the walks in a red-black tree,
    [24] for an id tree, whose height is at most six, and for the network of
    Delivery and the chains of Links the numbers of packets and ids (4096), which
    the code bounds.

    Concurrent code is a relation of steps: one producer and one consumer in
    Kfifo, any interleaving of the calls of any threads in Thread ([run]), two
    endpoints and a network that loses, repeats and reorders in Delivery
    ([nstep], where a call of [exSend] or [exRecv] that waits is cut into turns,
    between which the other threads of its end run), and any number of threads in MsgQueue whose calls are interleaved
    statement by statement.  The threads of Timer, Socket and Signal are the
    bodies of their loops, one iteration at a time.

    Code outside of the repository is a parameter: a class for the functions and
    a class for the laws the code relies on ([Clist], [Malloc], [LinkMalloc],
    [Kernel] in Idr, [LogEnv]), each with an instance in the examples, or an
    argument ([tolower], what [snprintf] gives, the handle of a semaphore).  The
    system's answers (the clock, [sendto], [recvfrom], [msgsnd], [bind],
    [pthread_create]) are streams of the state, or arguments.  The clock of the
    UDP module reads below 2^62 seconds.

    ** What is proved

    - Lists: every operation implements its effect on a family of disjoint
      lists, for any aliasing of the nodes ([list_ops_refine]).  A module that
      embeds list nodes gets this for its own heap.
    - Kfifo: a sequence of locked calls is a FIFO queue of the given capacity,
      also when the indices wrap ([kfifo_refines_queue]); without the lock a
      reader beside a writer makes the writer run over the buffer.
    - Sort: each sort ends within the arrays, with a sorted permutation.
    - Pool, Caching: an allocation is aligned, inside a live block and apart from
      every earlier one, also when the pool grows ([pool_alloc_safe]); the factory
      reuses pools of the same class; the default policy keeps the promise of
      [BlockPolicy]; resetting a pool that has grown and destroying a factory that
      holds a pool are undefined.
    - Timer: once a timer was set, every operation keeps each id in exactly one
      of the lists and the running timers in the order of their deadlines; before,
      the operations that take the lock block ([timer_ops_invariant]); what setting a timer and one round of the thread do; a timer with a count
      of [k] fires [k] times.
    - Links: [get_link] and [del_list] keep the table of connections consistent
      and do what they are for; with no free id, and for port 65535, they do not.
    - Delivery: after the set-up of a connection, what the reader gets is a prefix
      of what the writer sent, with at most 509 packets under way, over a network
      that loses, repeats and reorders, whatever the wait times of the two
      ([udp_delivery]).  No datagram may arrive after more than 1023 further
      packets were sent, since the sequence numbers wrap at 2044, and no request
      of the set-up may arrive once more, since it makes the receiver read old
      packets again ([old_request_rereads]).
    - Receive: the fields of every connection keep their ranges and the receiving
      thread never faults, exits or waits for a lock, whatever [recvfrom] gives,
      within the limits that the code has: ports below 65535, at most 4096 peers
      that open connections, no message queue, no time in a report whose
      difference to the clock overflows ([thread_recv_total]).  Process: [exSocket] enters sockets that this
      theorem applies to ([exSocket_spec]).
    - MsgQueue: in every interleaving the messages come out in the order in which
      they went in, and the ring is never overrun ([msgqueue_fifo]); threads all
      wait only when there is nothing to do for them ([msgqueue_no_lost_wakeup]).
    - Strings: moves and copies, bounded copies, searches and tokens against
      functions on lists; further theorems on comparisons.
    - Rbtree: insertion and removal keep the tree balanced and in order in
      logarithmic time ([rb_insert_spec], [rb_erase_spec]); the traversal
      functions are the neighbours in that order.
    - Thread: a mutex that was locked is never released unless somebody destroys
      it or makes another one at its address, a thread created
      suspended never starts and no operation of an atomic returns, because the
      functions that should unlock lock; a semaphore keeps its count over every
      interleaving.
    - Signal: what is blocked and handled; the thread that takes signals outlives
      the set it waits for ([signal_thread_spec]).
    - IdrAlloc, IdrMap: the interface implements a finite map from ids to
      pointers that allocates the first free id from a given one on, within two
      limits: the search may not carry out of a full block, and ids stay below
      [2 ^ 30].  Theorems show what happens beyond them.
    - Log: a message reaches the writer once, after its decorations, cut to the
      buffer, which is never written outside, as long as the text is not longer
      than INT_MAX; level 0 silences everything.

    ** What is not modelled, and why

    - datastruct/module_array.c and module_list.c are written against pool
      interfaces ([mdl_palloc], the macro [mdl_test_null], fields [last] and
      [end] of a pool, module_include.h) that the repository does not have.
    - Tests, shell scripts, Makefiles and the archives in object/.
    - Output for people: [print] and [main] of sort.c and its timings, the log
      lines of the modules, the traces of ex_udp.c.
    - Code that is not compiled: the parts under HAS_THREADS, which nothing
      defines, the WIN32 branches of ex_udp.c but the message queue, the signatures
      of sigature.h. *)
From stdpp Require Import base tactics list numbers gmap fin_maps.
From Stdlib Require Export ZArith Lia.

#[export] Set Default Goal Selector "!".
#[export] Set Warnings "-clear-no-such-hyp,-unused-intro-pattern".

(** ** Outcomes of C code

    [Ret] is a normal return.  [Fault] is undefined behaviour (a load or store
    through an invalid pointer, an index outside an object).  [AssertFailed] is
    a failed [assert()], [Exited] a call of [exit()], [Blocked] a wait that
    nobody ends, and [OutOfFuel] means that the bound the model puts on an
    unbounded loop was too small (every theorem about a result excludes it). *)
Inductive outcome (A : Type) : Type :=
| Ret (a : A)
| Fault
| AssertFailed
| Exited (code : Z)
| Blocked
| OutOfFuel.
Arguments Ret {A} a.
Arguments Fault {A}.
Arguments AssertFailed {A}.
Arguments Exited {A} code.
Arguments Blocked {A}.
Arguments OutOfFuel {A}.

#[global] Instance outcome_eq_dec {A} `{EqDecision A} : EqDecision (outcome A).
Proof. solve_decision. Defined.

(** The computations of the model: a store is threaded, an outcome is returned. *)
Definition M (S A : Type) : Type := S → outcome (A * S).

#[global] Instance M_ret {S} : MRet (M S) := λ A a s, Ret (a, s).
#[global] Instance M_bind {S} : MBind (M S) := λ A B f m s,
  match m s with
  | Ret (a, s') => f a s'
  | Fault => Fault
  | AssertFailed => AssertFailed
  | Exited c => Exited c
  | Blocked => Blocked
  | OutOfFuel => OutOfFuel
  end.

Definition fault {S A} : M S A := λ _, Fault.
Definition blocked {S A} : M S A := λ _, Blocked.
Definition exits {S A} (c : Z) : M S A := λ _, Exited c.
Definition gets {S A} (f : S → A) : M S A := λ s, Ret (f s, s).
Definition modify {S} (f : S → S) : M S unit := λ s, Ret (tt, f s).
(** [assert(b)] of <assert.h>, compiled without NDEBUG. *)
Definition c_assert {S} (b : bool) : M S unit :=
  λ s, if b then Ret (tt, s) else AssertFailed.
(** A partial read of the store: no value means undefined behaviour. *)
Definition gets_opt {S A} (f : S → option A) : M S A :=
  λ s, match f s with Some a => Ret (a, s) | None => Fault end.
(** A partial write of the store. *)
Definition modify_opt {S} (f : S → option S) : M S unit :=
  λ s, match f s with Some s' => Ret (tt, s') | None => Fault end.

(** A C loop whose local variables are [l]; the body either continues with new
    locals ([inl]) or leaves the loop ([inr]). *)
Fixpoint loop {S L R} (fuel : nat) (body : L → M S (L + R)) (l : L) : M S R :=
  match fuel with
  | O => λ _, OutOfFuel
  | Datatypes.S fuel =>
      r ← body l;
      match r with
      | inl l' => loop fuel body l'
      | inr r => mret r
      end
  end.

(** ** Total correctness *)

(** [wp m Q s]: run from [s], [m] returns, and the value and store satisfy [Q]. *)
Definition wp {S A} (m : M S A) (Q : A → S → Prop) (s : S) : Prop :=
  match m s with Ret (a, s') => Q a s' | _ => False end.

Section wp.
Context {S : Type}.
Implicit Types s : S.

Lemma wp_ret {A} (a : A) (Q : A → S → Prop) s : Q a s → wp (mret a) Q s.
Proof. done. Qed.

Lemma wp_bind {A B} (m : M S A) (f : A → M S B) Q s :
  wp m (λ a, wp (f a) Q) s → wp (m ≫= f) Q s.
Proof.
  unfold wp, mbind, M_bind. destruct (m s) as [[a s']| | | | |]; done.
Qed.

Lemma wp_mono {A} (m : M S A) (P Q : A → S → Prop) s :
  wp m P s → (∀ a s', P a s' → Q a s') → wp m Q s.
Proof. unfold wp. destruct (m s) as [[a s']| | | | |]; auto. Qed.

Lemma wp_gets {A} (f : S → A) Q s : Q (f s) s → wp (gets f) Q s.
Proof. done. Qed.

Lemma wp_modify (f : S → S) Q s : Q tt (f s) → wp (modify f) Q s.
Proof. done. Qed.

Lemma wp_assert (b : bool) Q s : b = true → Q tt s → wp (c_assert b) Q s.
Proof. unfold wp, c_assert. by intros ->. Qed.

Lemma wp_gets_opt {A} (f : S → option A) a Q s :
  f s = Some a → Q a s → wp (gets_opt f) Q s.
Proof. unfold wp, gets_opt. by intros ->. Qed.

Lemma wp_modify_opt (f : S → option S) s' Q s :
  f s = Some s' → Q tt s' → wp (modify_opt f) Q s.
Proof. unfold wp, modify_opt. by intros ->. Qed.

Lemma wp_if {A} (b : bool) (m1 m2 : M S A) Q s :
  (b = true → wp m1 Q s) → (b = false → wp m2 Q s) → wp (if b then m1 else m2) Q s.
Proof. destruct b; auto. Qed.

Lemma wp_run {A} (m : M S A) Q s : wp m Q s ↔ ∃ a s', m s = Ret (a, s') ∧ Q a s'.
Proof.
  unfold wp. destruct (m s) as [[a s']| | | | |]; (split; [|intros (?&?&[=]&?)]); subst; eauto; done.
Qed.

(** Stepping through a computation towards an outcome that is no return. *)
Lemma bind_outcome {A B} (m : M S A) (f : A → M S B) o s :
  wp m (λ a s', f a s' = o) s → (m ≫= f) s = o.
Proof. unfold wp, mbind, M_bind. by destruct (m s) as [[a s']| | | | |]. Qed.
Lemma bind_ret {A B} (m : M S A) (f : A → M S B) s a s' : m s = Ret (a, s') → (m ≫= f) s = f a s'.
Proof. unfold mbind, M_bind. by intros ->. Qed.
Lemma bind_blocked {A B} (m : M S A) (f : A → M S B) s : m s = Blocked → (m ≫= f) s = Blocked.
Proof. unfold mbind, M_bind. by intros ->. Qed.
Lemma bind_fault {A B} (m : M S A) (f : A → M S B) s : m s = Fault → (m ≫= f) s = Fault.
Proof. unfold mbind, M_bind. by intros ->. Qed.
(** Taking a bind that returned apart. *)
Lemma bind_inv {A B} (m : M S A) (f : A → M S B) s b s' :
  (m ≫= f) s = Ret (b, s') → ∃ a s1, m s = Ret (a, s1) ∧ f a s1 = Ret (b, s').
Proof. unfold mbind, M_bind. destruct (m s) as [[a s1]| | | | |]; try done. eauto. Qed.

(** Loops: an invariant [I n l s] on the locals and the store, indexed by a
    bound [n] on the iterations left. *)
Lemma wp_loop {L R} (body : L → M S (L + R)) (I : nat → L → S → Prop) Q :
  (∀ n l s, I n l s →
    wp (body l) (λ r s', match r with
                         | inl l' => ∃ n', n' < n ∧ I n' l' s'
                         | inr r => Q r s'
                         end) s) →
  ∀ fuel n l s, I n l s → n < fuel → wp (loop fuel body l) Q s.
Proof.
  intros Hbody fuel. induction fuel as [|fuel IH]; intros n l s HI Hn; [lia|].
  simpl. apply wp_bind. eapply wp_mono; [by apply (Hbody n)|].
  intros [l'|r] s'; simpl; [|done].
  intros (n'&?&HI'). apply (IH n'); [done|lia].
Qed.

(** An iteration that goes on, and one that leaves the loop. *)
Lemma loop_next {L R} fuel (body : L → M S (L + R)) l l' s s' :
  body l s = Ret (inl l', s') →
  loop (Datatypes.S fuel) body l s = loop fuel body l' s'.
Proof. intros E. simpl. unfold mbind at 1, M_bind at 1. by rewrite E. Qed.
Lemma loop_leave {L R} fuel (body : L → M S (L + R)) l r s s' :
  body l s = Ret (inr r, s') →
  loop (Datatypes.S fuel) body l s = Ret (r, s').
Proof. intros E. simpl. unfold mbind at 1, M_bind at 1. by rewrite E. Qed.
Lemma bind_loop_next {L R A} fuel (body : L → M S (L + R)) (f : R → M S A) l l' s s' :
  body l s = Ret (inl l', s') →
  (loop (Datatypes.S fuel) body l ≫= f) s = (loop fuel body l' ≫= f) s'.
Proof. intros E. unfold mbind, M_bind. by rewrite (loop_next _ _ _ _ _ _ E). Qed.
End wp.

(** [wp_step] pushes [wp] through the head of the computation. *)
Ltac wp_step :=
  lazymatch goal with
  | |- wp (mbind _ _) _ _ => apply wp_bind
  | |- wp (mret _) _ _ => apply wp_ret
  | |- wp (gets _) _ _ => apply wp_gets
  | |- wp (modify _) _ _ => apply wp_modify
  end; cbv beta.
Ltac wp_steps := repeat wp_step.

(** ** Machine integers *)

Definition u8 (x : Z) : Z := x mod 2 ^ 8.
Definition u16 (x : Z) : Z := x mod 2 ^ 16.
Definition u32 (x : Z) : Z := x mod 2 ^ 32.
Definition u64 (x : Z) : Z := x mod 2 ^ 64.
(** Conversion to a signed [w]-bit type (two's complement). *)
Definition swrap (w x : Z) : Z := (x + 2 ^ (w - 1)) mod 2 ^ w - 2 ^ (w - 1).
Definition s8 (x : Z) : Z := swrap 8 x.
Definition s32 (x : Z) : Z := swrap 32 x.
Definition s64 (x : Z) : Z := swrap 64 x.

Definition INT_MAX : Z := 2 ^ 31 - 1.

Lemma u32_range x : (0 ≤ u32 x < 2 ^ 32)%Z.
Proof. unfold u32. apply Z.mod_pos_bound. lia. Qed.
Lemma u32_small x : (0 ≤ x < 2 ^ 32)%Z → u32 x = x.
Proof. intros. by apply Z.mod_small. Qed.
Lemma u64_range x : (0 ≤ u64 x < 2 ^ 64)%Z.
Proof. unfold u64. apply Z.mod_pos_bound. lia. Qed.
Lemma u64_small x : (0 ≤ x < 2 ^ 64)%Z → u64 x = x.
Proof. intros. by apply Z.mod_small. Qed.
Lemma u8_range x : (0 ≤ u8 x < 2 ^ 8)%Z.
Proof. unfold u8. apply Z.mod_pos_bound. lia. Qed.
Lemma u16_range x : (0 ≤ u16 x < 2 ^ 16)%Z.
Proof. unfold u16. apply Z.mod_pos_bound. lia. Qed.
Lemma u16_small x : (0 ≤ x < 2 ^ 16)%Z → u16 x = x.
Proof. intros. by apply Z.mod_small. Qed.

Lemma swrap_small w x :
  (0 < w → - 2 ^ (w - 1) ≤ x < 2 ^ (w - 1) → swrap w x = x)%Z.
Proof.
  intros Hw Hx. unfold swrap.
  assert (2 ^ w = 2 * 2 ^ (w - 1))%Z as E.
  { rewrite <- (Z.pow_succ_r 2 (w - 1)); [f_equal; lia|lia]. }
  rewrite Z.mod_small; lia.
Qed.
Lemma s32_small x : (- 2 ^ 31 ≤ x < 2 ^ 31)%Z → s32 x = x.
Proof. intros. apply swrap_small; lia. Qed.

(** [x & (2^k - 1)] is [x mod 2^k]. *)
Lemma land_pow2_mask x k : (0 ≤ k → Z.land x (2 ^ k - 1) = x mod 2 ^ k)%Z.
Proof.
  intros Hk. rewrite <- Z.land_ones by done. f_equal.
  rewrite Z.ones_equiv. lia.
Qed.

(** [lia] with the equations of division and remainder. *)
Ltac dlia := Z.div_mod_to_equations; lia.

(** ** Time *)

(** [struct timeval]. *)
Record timeval := TV { tv_sec : Z; tv_usec : Z }.

(** ** Lengths

    [lengths] pushes [length] through the list constructors; [len] is [lia] after it. *)
Create Rewrite HintDb lengths.
#[export] Hint Rewrite @length_app @length_cons @length_nil @length_take @length_drop
  @length_fmap @length_replicate @length_insert @length_seq @length_rev : lengths.
Ltac len := autorewrite with lengths in *; lia.
(** [app_norm] brings appends to right-nested form. *)
Ltac app_norm := repeat (progress (simpl; rewrite <- ?app_assoc, ?app_nil_r)).
