(* ===== verification/TimeVal.v ===== *)
(** * TimeVal: the operations on [struct timeval] of module_common.h

    The macros as functions; those that assign to their first argument return it.
    [tv_total] is the time in microseconds.  Seconds and microseconds are taken
    as integers without a bound. *)
From stdpp Require Import base tactics numbers.
From S2P Require Import Prelude.
Local Open Scope Z_scope.

Definition TIME_VAL_MSEC (t : timeval) : Z := tv_sec t * 1000 + Z.quot (tv_usec t) 1000.

Definition TIME_VAL_EQ (t1 t2 : timeval) : bool := (tv_sec t1 =? tv_sec t2) && (tv_usec t1 =? tv_usec t2).
Definition TIME_VAL_GT (t1 t2 : timeval) : bool :=
  (tv_sec t2 <? tv_sec t1) || ((tv_sec t1 =? tv_sec t2) && (tv_usec t2 <? tv_usec t1)).
Definition TIME_VAL_GTE (t1 t2 : timeval) : bool := TIME_VAL_GT t1 t2 || TIME_VAL_EQ t1 t2.
Definition TIME_VAL_LT (t1 t2 : timeval) : bool := negb (TIME_VAL_GTE t1 t2).
Definition TIME_VAL_LTE (t1 t2 : timeval) : bool := negb (TIME_VAL_GT t1 t2).

Definition TIME_VAL_ADD (t1 t2 : timeval) : timeval := TV (tv_sec t1 + tv_sec t2) (tv_usec t1 + tv_usec t2).
Definition TIME_VAL_SUB (t1 t2 : timeval) : timeval :=
  let t1 := if tv_usec t1 <? tv_usec t2 then TV (tv_sec t1 - 1) (tv_usec t1 + 1000000) else t1 in
  TV (tv_sec t1 - tv_sec t2) (tv_usec t1 - tv_usec t2).

Definition tv_total (t : timeval) : Z := tv_sec t * 1000000 + tv_usec t.
(** What [gettimeofday] returns. *)
Definition tv_normal (t : timeval) : Prop := 0 ≤ tv_usec t < 1000000.

Ltac tv_cases :=
  repeat match goal with
  | |- context [?a <? ?b] => destruct (Z.ltb_spec a b)
  | |- context [?a =? ?b] => destruct (Z.eqb_spec a b)
  end; simpl; try reflexivity; try lia.

(** On normal times the comparisons are those of the microseconds. *)
Lemma time_val_order t1 t2 : tv_normal t1 → tv_normal t2 →
  TIME_VAL_GT t1 t2 = (tv_total t2 <? tv_total t1) ∧ TIME_VAL_EQ t1 t2 = (tv_total t1 =? tv_total t2) ∧
  TIME_VAL_GTE t1 t2 = (tv_total t2 <=? tv_total t1) ∧ TIME_VAL_LT t1 t2 = (tv_total t1 <? tv_total t2) ∧
  TIME_VAL_LTE t1 t2 = (tv_total t1 <=? tv_total t2).
Proof.
  unfold tv_normal, TIME_VAL_LT, TIME_VAL_LTE, TIME_VAL_GTE, TIME_VAL_GT, TIME_VAL_EQ, tv_total. intros H1 H2.
  rewrite !Z.leb_antisym. split_and!; tv_cases.
Qed.

(** Sums and differences are exact; a difference of normal times is normal. *)
Lemma time_val_arith t1 t2 :
  tv_total (TIME_VAL_ADD t1 t2) = tv_total t1 + tv_total t2 ∧
  tv_total (TIME_VAL_SUB t1 t2) = tv_total t1 - tv_total t2 ∧
  (tv_normal t1 → tv_normal t2 → tv_normal (TIME_VAL_SUB t1 t2)).
Proof. unfold tv_normal, TIME_VAL_ADD, TIME_VAL_SUB, tv_total. split_and!; simpl; [lia|tv_cases|tv_cases]. Qed.

Lemma time_val_add_sub t1 t2 : 0 ≤ tv_usec t1 → TIME_VAL_SUB (TIME_VAL_ADD t1 t2) t2 = t1.
Proof.
  intros H. unfold TIME_VAL_SUB, TIME_VAL_ADD. simpl. rewrite (proj2 (Z.ltb_ge _ _)) by lia.
  destruct t1 as [s u]. simpl. f_equal; lia.
Qed.

(** A sum need not be normal, and then the order is wrong: two times of 0.6
    seconds each make more than one second, but not according to [TIME_VAL_GT]. *)
Example time_val_add_order :
  let sum := TIME_VAL_ADD (TV 0 600000) (TV 0 600000) in
  TIME_VAL_GT sum (TV 1 0) = false ∧ tv_total (TV 1 0) < tv_total sum.
Proof. by vm_compute. Qed.
