(* ===== verification/Lists.v ===== *)
(** * Lists: the doubly linked list of src/datastruct/list.h

    Nodes live in a heap (address to [list_head]); list heads and entries are
    addresses, as in the C code, so that aliasing (an empty list whose head is
    its own neighbour, a moved entry) is the aliasing of the pointers.  The
    operations run in any state that contains such a heap ([NodeHeap]): the
    components that embed [struct list_head] in their structures are instances. *)
From stdpp Require Import base tactics list numbers gmap fin_maps.
From S2P Require Import Prelude.

Record list_head := Node { next : Z; prev : Z }.

#[global] Instance list_head_eq_dec : EqDecision list_head.
Proof. solve_decision. Defined.

Definition NULL : Z := 0.

(** What a state must offer to embed list nodes. *)
Class NodeHeap (T : Type) := {
  nodes : T → gmap Z list_head;
  with_nodes : gmap Z list_head → T → T;
  nodes_with h t : nodes (with_nodes h t) = h;
  with_nodes_with h h' t : with_nodes h (with_nodes h' t) = with_nodes h t;
  with_nodes_id t : with_nodes (nodes t) t = t;
}.

(** The heap alone is such a state. *)
#[export] Program Instance heap_NodeHeap : NodeHeap (gmap Z list_head) :=
  {| nodes h := h; with_nodes h _ := h |}.
Solve Obligations with done.

Section ops.
Context {T : Type} `{NodeHeap T}.

(** [p->next], [p->prev] as values, and as assignment targets. *)
Definition get_next (p : Z) : M T Z := gets_opt (λ t, next <$> nodes t !! p).
Definition get_prev (p : Z) : M T Z := gets_opt (λ t, prev <$> nodes t !! p).
Definition set_next (p v : Z) : M T unit :=
  modify_opt (λ t, (λ n, with_nodes (<[p := Node v (prev n)]> (nodes t)) t) <$> nodes t !! p).
Definition set_prev (p v : Z) : M T unit :=
  modify_opt (λ t, (λ n, with_nodes (<[p := Node (next n) v]> (nodes t)) t) <$> nodes t !! p).

Definition INIT_LIST_HEAD (ptr : Z) : M T unit :=
  set_next ptr ptr;; set_prev ptr ptr.

Definition __list_add (new prv nxt : Z) : M T unit :=
  set_prev nxt new;;
  set_next new nxt;;
  set_prev new prv;;
  set_next prv new.

Definition list_add (new head : Z) : M T unit :=
  nxt ← get_next head;
  __list_add new head nxt.

Definition list_add_tail (new head : Z) : M T unit :=
  prv ← get_prev head;
  __list_add new prv head.

Definition __list_del (prv nxt : Z) : M T unit :=
  set_prev nxt prv;;
  set_next prv nxt.

Definition list_del (entry : Z) : M T unit :=
  prv ← get_prev entry;
  nxt ← get_next entry;
  __list_del prv nxt;;
  set_next entry NULL;;
  set_prev entry NULL.

Definition list_del_init (entry : Z) : M T unit :=
  prv ← get_prev entry;
  nxt ← get_next entry;
  __list_del prv nxt;;
  INIT_LIST_HEAD entry.

Definition list_move (list head : Z) : M T unit :=
  prv ← get_prev list;
  nxt ← get_next list;
  __list_del prv nxt;;
  list_add list head.

Definition list_move_tail (list head : Z) : M T unit :=
  prv ← get_prev list;
  nxt ← get_next list;
  __list_del prv nxt;;
  list_add_tail list head.

Definition list_empty (head : Z) : M T bool :=
  nxt ← get_next head;
  mret (nxt =? head)%Z.

Definition __list_splice (list head : Z) : M T unit :=
  first ← get_next list;
  last ← get_prev list;
  at_ ← get_next head;
  set_prev first head;;
  set_next head first;;
  set_next last at_;;
  set_prev at_ last.

Definition list_splice (list head : Z) : M T unit :=
  e ← list_empty list;
  if negb e then __list_splice list head else mret tt.

Definition list_splice_init (list head : Z) : M T unit :=
  e ← list_empty list;
  if negb e then __list_splice list head;; INIT_LIST_HEAD list else mret tt.

(** The iteration macros.  [body pos a] is the loop body; [inr r] leaves the
    loop ([break] or [return]) and [inl a] goes on with accumulator [a].  The
    successor of [pos] is read after the body, from the current heap. *)
Definition list_for_each {A R} (fuel : nat) (head : Z)
    (body : Z → A → M T (A + R)) (done : A → M T R) (a : A) : M T R :=
  pos ← get_next head;
  loop fuel (λ '(pos, a),
    if (pos =? head)%Z then r ← done a; mret (inr r)
    else
      x ← body pos a;
      match x with
      | inl a' => nxt ← get_next pos; mret (inl (nxt, a'))
      | inr r => mret (inr r)
      end) (pos, a).

Definition list_for_each_prev {A R} (fuel : nat) (head : Z)
    (body : Z → A → M T (A + R)) (done : A → M T R) (a : A) : M T R :=
  pos ← get_prev head;
  loop fuel (λ '(pos, a),
    if (pos =? head)%Z then r ← done a; mret (inr r)
    else
      x ← body pos a;
      match x with
      | inl a' => prv ← get_prev pos; mret (inl (prv, a'))
      | inr r => mret (inr r)
      end) (pos, a).

(** [list_for_each_safe] reads the successor before the body runs. *)
Definition list_for_each_safe {A R} (fuel : nat) (head : Z)
    (body : Z → A → M T (A + R)) (done : A → M T R) (a : A) : M T R :=
  pos ← get_next head;
  n ← get_next pos;
  loop fuel (λ '(pos, n, a),
    if (pos =? head)%Z then r ← done a; mret (inr r)
    else
      x ← body pos a;
      match x with
      | inl a' => n' ← get_next n; mret (inl (n, n', a'))
      | inr r => mret (inr r)
      end) (pos, n, a).
End ops.

(** ** The well-formed list *)

Implicit Types h : gmap Z list_head.

Definition nextof h (a : Z) : option Z := next <$> h !! a.
Definition prevof h (a : Z) : option Z := prev <$> h !! a.
Definition linked h (a b : Z) : Prop := nextof h a = Some b ∧ prevof h b = Some a.

(** [seg h a l b]: from [a] through [l] to [b], linked in both directions. *)
Fixpoint seg h (a : Z) (l : list Z) (b : Z) : Prop :=
  match l with
  | [] => linked h a b
  | x :: l => linked h a x ∧ seg h x l b
  end.

(** [dlist h hd xs]: the circular list of head [hd] holds the entries [xs]. *)
Definition dlist h (hd : Z) (xs : list Z) : Prop :=
  NoDup (hd :: xs) ∧ seg h hd xs hd.

Lemma seg_app h a l1 x l2 b : seg h a (l1 ++ x :: l2) b ↔ seg h a l1 x ∧ seg h x l2 b.
Proof.
  revert a. induction l1 as [|y l1 IH]; intros a; simpl; [done|].
  rewrite IH. tauto.
Qed.

(** Only the successors of [a :: l] and the predecessors of [l ++ [b]] matter. *)
Lemma seg_ext h h' a l b :
  (∀ x, x ∈ a :: l → nextof h' x = nextof h x) →
  (∀ x, x ∈ l ++ [b] → prevof h' x = prevof h x) →
  seg h a l b → seg h' a l b.
Proof.
  revert a. induction l as [|y l IH]; intros a Hn Hp; simpl; unfold linked.
  - intros [H1 H2]. rewrite Hn, Hp by set_solver. done.
  - intros [[H1 H2] Hs]. rewrite Hn, Hp by set_solver. split; [done|].
    apply IH; [| |done]; intros z Hz; [apply Hn|apply Hp]; set_solver.
Qed.

Lemma dlist_frame h h' hd xs :
  (∀ x, x ∈ hd :: xs → h' !! x = h !! x) → dlist h hd xs → dlist h' hd xs.
Proof.
  intros Hx [Hnd Hs]. split; [done|].
  revert Hs. apply seg_ext; intros x Hin; unfold nextof, prevof;
    rewrite Hx by set_solver; done.
Qed.

(** A circular list can be read from any of its nodes. *)
Lemma dlist_rotate h hd xs a ys : dlist h hd (xs ++ a :: ys) → dlist h a (ys ++ hd :: xs).
Proof.
  intros [Hnd Hs]. split.
  - assert (hd :: xs ++ a :: ys ≡ₚ a :: ys ++ hd :: xs) as E by solve_Permutation.
    by rewrite <- E.
  - apply seg_app in Hs as [H1 H2]. by apply seg_app.
Qed.

Lemma dlist_head_ne h hd xs x : dlist h hd xs → x ∈ xs → x ≠ hd.
Proof. intros [Hnd _] Hx ->. by apply NoDup_cons in Hnd as [? _]. Qed.

Lemma seg_next h a l b : seg h a l b → nextof h a = Some (default b (head l)).
Proof. destruct l; simpl; unfold linked; naive_solver. Qed.

Lemma seg_prev h a l b : seg h a l b → prevof h b = Some (default a (last l)).
Proof.
  destruct l as [|x l] using rev_ind; simpl.
  - unfold linked. naive_solver.
  - rewrite last_snoc, seg_app. simpl. unfold linked. naive_solver.
Qed.

Lemma dlist_next h hd xs : dlist h hd xs → nextof h hd = Some (default hd (head xs)).
Proof. intros [_ Hs]. by apply seg_next. Qed.
Lemma dlist_prev h hd xs : dlist h hd xs → prevof h hd = Some (default hd (last xs)).
Proof. intros [_ Hs]. by apply seg_prev. Qed.

(** The neighbours of an entry. *)
Lemma dlist_next_entry h hd xs a ys :
  dlist h hd (xs ++ a :: ys) → nextof h a = Some (default hd (head ys)).
Proof. intros Hd%dlist_rotate%dlist_next. rewrite Hd. by destruct ys. Qed.
Lemma dlist_prev_entry h hd xs a ys :
  dlist h hd (xs ++ a :: ys) → prevof h a = Some (default hd (last xs)).
Proof.
  intros Hd%dlist_rotate%dlist_prev. rewrite Hd, last_app_cons.
  destruct xs using rev_ind; [done|]. by rewrite app_comm_cons, !last_snoc.
Qed.

Lemma seg_is_Some h a l b x : seg h a l b → x ∈ a :: l → is_Some (h !! x).
Proof.
  revert a. induction l as [|y l IH]; intros a; simpl.
  - intros [H1 _] ->%list_elem_of_singleton. unfold nextof in H1.
    by destruct (h !! a).
  - intros [[H1 _] Hs] [->|Hx]%elem_of_cons; [|by eapply IH].
    unfold nextof in H1. by destruct (h !! a).
Qed.
Lemma dlist_is_Some h hd xs x : dlist h hd xs → x ∈ hd :: xs → is_Some (h !! x).
Proof. intros [_ Hs]. by eapply seg_is_Some. Qed.

(** ** Heap updates as functions *)

Definition upd_next (p v : Z) h : gmap Z list_head := alter (λ n, Node v (prev n)) p h.
Definition upd_prev (p v : Z) h : gmap Z list_head := alter (λ n, Node (next n) v) p h.

Lemma nextof_upd_next p v h x :
  nextof (upd_next p v h) x = if decide (p = x) then (λ _, v) <$> h !! p else nextof h x.
Proof.
  unfold nextof, upd_next. rewrite lookup_alter. case_decide; subst; [|done].
  by destruct (h !! x).
Qed.
Lemma nextof_upd_prev p v h x : nextof (upd_prev p v h) x = nextof h x.
Proof.
  unfold nextof, upd_prev. rewrite lookup_alter. case_decide; subst; [|done].
  by destruct (h !! x).
Qed.
Lemma prevof_upd_prev p v h x :
  prevof (upd_prev p v h) x = if decide (p = x) then (λ _, v) <$> h !! p else prevof h x.
Proof.
  unfold prevof, upd_prev. rewrite lookup_alter. case_decide; subst; [|done].
  by destruct (h !! x).
Qed.
Lemma prevof_upd_next p v h x : prevof (upd_next p v h) x = prevof h x.
Proof.
  unfold prevof, upd_next. rewrite lookup_alter. case_decide; subst; [|done].
  by destruct (h !! x).
Qed.
Lemma is_Some_upd_next p v h x : is_Some (upd_next p v h !! x) ↔ is_Some (h !! x).
Proof. unfold upd_next. rewrite lookup_alter. case_decide; subst; [|done]. by rewrite fmap_is_Some. Qed.
Lemma is_Some_upd_prev p v h x : is_Some (upd_prev p v h !! x) ↔ is_Some (h !! x).
Proof. unfold upd_prev. rewrite lookup_alter. case_decide; subst; [|done]. by rewrite fmap_is_Some. Qed.
Lemma lookup_upd_next_ne p v h x : p ≠ x → upd_next p v h !! x = h !! x.
Proof. intros. unfold upd_next. by rewrite lookup_alter_ne. Qed.
Lemma lookup_upd_prev_ne p v h x : p ≠ x → upd_prev p v h !! x = h !! x.
Proof. intros. unfold upd_prev. by rewrite lookup_alter_ne. Qed.

Create HintDb links discriminated.
Create Rewrite HintDb heap.
Create Rewrite HintDb heap_dom.
#[export] Hint Rewrite nextof_upd_next nextof_upd_prev prevof_upd_prev prevof_upd_next
  : heap.
#[export] Hint Rewrite is_Some_upd_next is_Some_upd_prev : heap_dom.

Lemma alter_lookup_insert {A} (f : A → A) (m : gmap Z A) i x :
  m !! i = Some x → alter f i m = <[i := f x]> m.
Proof.
  intros Hx. apply map_eq. intros j. rewrite lookup_alter, lookup_insert.
  case_decide; subst; [by rewrite Hx|done].
Qed.

Section wp.
Context {T : Type} `{NodeHeap T}.
Implicit Types t : T.

Lemma wp_get_next p v Q t : nextof (nodes t) p = Some v → Q v t → wp (get_next p) Q t.
Proof. intros Hv HQ. eapply wp_gets_opt; [exact Hv|exact HQ]. Qed.
Lemma wp_get_prev p v Q t : prevof (nodes t) p = Some v → Q v t → wp (get_prev p) Q t.
Proof. intros Hv HQ. eapply wp_gets_opt; [exact Hv|exact HQ]. Qed.
Lemma wp_set_next p v Q t :
  is_Some (nodes t !! p) → Q tt (with_nodes (upd_next p v (nodes t)) t) →
  wp (set_next p v) Q t.
Proof.
  intros [n Hn] HQ. eapply wp_modify_opt; [rewrite Hn; done|].
  unfold upd_next in HQ. by rewrite (alter_lookup_insert _ _ _ _ Hn) in HQ.
Qed.
Lemma wp_set_prev p v Q t :
  is_Some (nodes t !! p) → Q tt (with_nodes (upd_prev p v (nodes t)) t) →
  wp (set_prev p v) Q t.
Proof.
  intros [n Hn] HQ. eapply wp_modify_opt; [rewrite Hn; done|].
  unfold upd_prev in HQ. by rewrite (alter_lookup_insert _ _ _ _ Hn) in HQ.
Qed.
End wp.

(** The net effect of [__list_add], [__list_del] and [__list_splice]. *)
Definition ins (n a b : Z) h := upd_next a n (upd_prev n a (upd_next n b (upd_prev b n h))).
Definition del (a b : Z) h := upd_next a b (upd_prev b a h).
Definition spl (hd f l at_ : Z) h :=
  upd_prev at_ l (upd_next l at_ (upd_next hd f (upd_prev f hd h))).

(** Case analysis on the address comparisons that the updates introduce. *)
Ltac heap_case :=
  autorewrite with heap; repeat (case_decide; subst; try done; try congruence).

Lemma fmap_const_Some {A B} (v : B) (o : option A) : is_Some o → (λ _, v) <$> o = Some v.
Proof. by intros [x ->]. Qed.
Lemma nextof_is_Some h x v : nextof h x = Some v → is_Some (h !! x).
Proof. unfold nextof. by destruct (h !! x). Qed.
Lemma prevof_is_Some h x v : prevof h x = Some v → is_Some (h !! x).
Proof. unfold prevof. by destruct (h !! x). Qed.
#[export] Hint Resolve nextof_is_Some prevof_is_Some : links.

Lemma ins_frame n a b h x : x ∉ [n; a; b] → ins n a b h !! x = h !! x.
Proof.
  intros Hx. unfold ins.
  rewrite lookup_upd_next_ne, lookup_upd_prev_ne, lookup_upd_next_ne, lookup_upd_prev_ne;
    set_solver.
Qed.
Lemma del_frame a b h x : x ∉ [a; b] → del a b h !! x = h !! x.
Proof.
  intros Hx. unfold del. rewrite lookup_upd_next_ne, lookup_upd_prev_ne; set_solver.
Qed.
Lemma spl_frame hd f l at_ h x : x ∉ [hd; f; l; at_] → spl hd f l at_ h !! x = h !! x.
Proof.
  intros Hx. unfold spl.
  rewrite lookup_upd_prev_ne, lookup_upd_next_ne, lookup_upd_next_ne, lookup_upd_prev_ne;
    set_solver.
Qed.

Lemma dlist_ins h hd xs n :
  dlist h hd xs → n ∉ hd :: xs → is_Some (h !! n) →
  dlist (ins n hd (default hd (head xs)) h) hd (n :: xs).
Proof.
  intros [Hnd Hs] Hn Hi. apply NoDup_cons in Hnd as [Hhd Hnd].
  split; [apply NoDup_cons; split; [set_solver|apply NoDup_cons; set_solver]|].
  assert (is_Some (h !! hd)) as Hhs by (eapply seg_is_Some; [done|set_solver]).
  unfold ins. destruct xs as [|y ys]; simpl in *; unfold linked in *.
  - autorewrite with heap.
    rewrite !fmap_const_Some by (autorewrite with heap_dom; done).
    repeat case_decide; subst; try done; set_solver.
  - destruct Hs as [[H1 H2] Hs].
    assert (y ≠ hd ∧ n ≠ hd ∧ n ≠ y) as (?&?&?) by set_solver.
    split_and!.
    all: try (autorewrite with heap;
      rewrite ?fmap_const_Some by (autorewrite with heap_dom; eauto with links);
      repeat case_decide; subst; congruence).
    revert Hs. apply seg_ext; intros x Hx; autorewrite with heap;
      repeat case_decide; subst; try done; exfalso.
    all: apply NoDup_cons in Hnd as [? ?]; set_solver.
Qed.

Lemma dlist_del h hd xs n :
  dlist h hd (n :: xs) → dlist (del hd (default hd (head xs)) h) hd xs.
Proof.
  intros [Hnd Hs]. apply NoDup_cons in Hnd as [Hhd Hnd].
  split; [apply NoDup_cons; split; [set_solver|by apply NoDup_cons in Hnd as [??]]|].
  assert (is_Some (h !! hd)) as Hhs by (eapply seg_is_Some; [done|set_solver]).
  apply NoDup_cons in Hnd as [Hn Hnd].
  unfold del. destruct xs as [|y ys]; simpl in *; unfold linked in *.
  - autorewrite with heap.
    rewrite !fmap_const_Some by (autorewrite with heap_dom; done).
    repeat case_decide; subst; done.
  - destruct Hs as (_&[H1 H2]&Hs).
    assert (y ≠ hd ∧ y ≠ n) as (?&?) by set_solver.
    split_and!.
    all: try (autorewrite with heap;
      rewrite ?fmap_const_Some by (autorewrite with heap_dom; eauto with links);
      repeat case_decide; subst; congruence).
    revert Hs. apply seg_ext; intros x Hx; autorewrite with heap;
      repeat case_decide; subst; try done; exfalso.
    all: apply NoDup_cons in Hnd as [? ?]; set_solver.
Qed.

(** Redirecting the last link of a segment. *)
Lemma seg_retarget h h' a l b b' :
  seg h a l b →
  NoDup (a :: l) →
  (∀ x, x ∈ a :: l → x ≠ default a (last l) → nextof h' x = nextof h x) →
  (∀ x, x ∈ l → prevof h' x = prevof h x) →
  nextof h' (default a (last l)) = Some b' →
  prevof h' b' = Some (default a (last l)) →
  seg h' a l b'.
Proof.
  destruct l as [|z l _] using rev_ind; simpl; [by intros; split|].
  rewrite last_snoc. simpl. intros Hs Hnd Hn Hp Hl Hb.
  apply seg_app in Hs as [Hs _]. apply seg_app. split; [|by split].
  revert Hs. apply seg_ext; [|done].
  intros x Hx. apply Hn; [set_solver|]. intros ->.
  rewrite app_comm_cons in Hnd. apply NoDup_app in Hnd as (_&Hnd&_).
  eapply Hnd; [done|set_solver].
Qed.

Lemma dlist_spl h L f zs hd ys :
  dlist h L (f :: zs) → dlist h hd ys → (L :: f :: zs) ## (hd :: ys) →
  dlist (spl hd f (default f (last zs)) (default hd (head ys)) h) hd (f :: zs ++ ys).
Proof.
  intros [HndL HsL] [Hnd Hs] Hdis.
  remember (default f (last zs)) as l eqn:El.
  assert (l ∈ f :: zs) as Hl.
  { rewrite El. destruct (last zs) eqn:E; [|set_solver].
    apply last_Some in E as [? ->]. set_solver. }
  assert (is_Some (h !! hd)) as Hhs by (eapply seg_is_Some; [done|set_solver]).
  assert (is_Some (h !! f)) as Hfs by (eapply seg_is_Some; [exact HsL|set_solver]).
  assert (is_Some (h !! l)) as Hls by (eapply seg_is_Some; [exact HsL|set_solver]).
  assert (is_Some (h !! default hd (head ys))) as Has.
  { eapply seg_is_Some; [exact Hs|]. destruct ys; set_solver. }
  apply NoDup_cons in HndL as [HL HndL].
  assert (hd ∉ f :: zs) as Hhd by set_solver.
  assert (∀ x, x ∈ f :: zs → x ∉ ys) as Hys by set_solver.
  assert (seg (spl hd f l (default hd (head ys)) h) f zs (default hd (head ys))) as Hfz.
  { destruct HsL as [_ HsL]. revert HsL HndL.
    unfold spl.
    intros HsL HndL. eapply (seg_retarget h); [done|done|..]; rewrite <- ?El.
    - intros x Hx Hxl. autorewrite with heap.
      repeat case_decide; subst; done || set_solver.
    - intros x Hx. autorewrite with heap.
      repeat case_decide; subst; try done.
      + destruct ys; set_solver.
      + by apply NoDup_cons in HndL as [? _].
    - autorewrite with heap. rewrite fmap_const_Some by (autorewrite with heap_dom; done).
      by repeat case_decide.
    - autorewrite with heap. rewrite fmap_const_Some by (autorewrite with heap_dom; done).
      by repeat case_decide. }
  split.
  { apply NoDup_cons in Hnd as [Hnh Hnd]. rewrite app_comm_cons.
    apply NoDup_cons. split; [set_solver|]. apply NoDup_app. done. }
  simpl. split.
  { unfold linked, spl. autorewrite with heap.
    rewrite !fmap_const_Some by (autorewrite with heap_dom; done).
    repeat case_decide; subst; try done; exfalso; destruct ys; set_solver. }
  destruct ys as [|y ys]; simpl in *; [by rewrite app_nil_r|].
  apply seg_app. split; [done|]. destruct Hs as [_ Hs]. revert Hs.
  apply seg_ext; intros x Hx; unfold spl; autorewrite with heap.
  - repeat case_decide; subst; try done; exfalso.
    + set_solver.
    + apply NoDup_cons in Hnd as [? ?]. set_solver.
  - repeat case_decide; subst; try done; exfalso; [|set_solver].
    apply NoDup_cons in Hnd as [? [? ?]%NoDup_cons]. set_solver.
Qed.

(** The two heaps agree outside the addresses of [l]. *)
Definition same_outside (l : list Z) h h' : Prop := ∀ x, x ∉ l → h' !! x = h !! x.

Lemma same_outside_dlist l h h' hd xs :
  same_outside l h h' → l ## hd :: xs → dlist h hd xs → dlist h' hd xs.
Proof. intros Hs Hd. apply dlist_frame. intros x Hx. apply Hs. set_solver. Qed.

Lemma same_outside_trans l l1 l2 h1 h2 h3 :
  same_outside l1 h1 h2 → same_outside l2 h2 h3 → l1 ⊆ l → l2 ⊆ l → same_outside l h1 h3.
Proof. intros H1 H2 ?? x Hx. rewrite H2, H1; set_solver. Qed.

Lemma dlist_entry_fresh h hd xs e ys : dlist h hd (xs ++ e :: ys) → e ∉ hd :: xs ++ ys.
Proof.
  intros [Hnd _]. rewrite app_comm_cons in Hnd |- *.
  apply NoDup_app in Hnd as (?&?&[??]%NoDup_cons). set_solver.
Qed.

(** ** Specifications of the operations *)

Section specs.
Context {T : Type} `{NodeHeap T}.
Implicit Types t : T.

Lemma wp_init_list_head p Q t :
  is_Some (nodes t !! p) →
  (∀ h', dlist h' p [] → same_outside [p] (nodes t) h' → Q tt (with_nodes h' t)) →
  wp (INIT_LIST_HEAD p) Q t.
Proof.
  intros Hp HQ. unfold INIT_LIST_HEAD. wp_steps. apply wp_set_next; [done|].
  apply wp_set_prev; rewrite !nodes_with; [by rewrite is_Some_upd_next|].
  rewrite with_nodes_with. apply HQ.
  - split; [apply NoDup_singleton|]. simpl. unfold linked. autorewrite with heap.
    rewrite !fmap_const_Some by (autorewrite with heap_dom; done).
    by rewrite !decide_True.
  - intros x Hx. rewrite lookup_upd_prev_ne, lookup_upd_next_ne; set_solver.
Qed.

Lemma wp___list_add n a b Q t :
  is_Some (nodes t !! n) → is_Some (nodes t !! a) → is_Some (nodes t !! b) →
  Q tt (with_nodes (ins n a b (nodes t)) t) →
  wp (__list_add n a b) Q t.
Proof.
  intros Hn Ha Hb HQ. unfold __list_add. wp_steps. apply wp_set_prev; [done|].
  wp_steps. apply wp_set_next; rewrite !nodes_with; [by autorewrite with heap_dom|].
  wp_steps. rewrite with_nodes_with.
  apply wp_set_prev; rewrite !nodes_with; [by autorewrite with heap_dom|].
  rewrite with_nodes_with.
  apply wp_set_next; rewrite !nodes_with; [by autorewrite with heap_dom|].
  by rewrite with_nodes_with.
Qed.

Lemma wp___list_del a b Q t :
  is_Some (nodes t !! a) → is_Some (nodes t !! b) →
  Q tt (with_nodes (del a b (nodes t)) t) →
  wp (__list_del a b) Q t.
Proof.
  intros Ha Hb HQ. unfold __list_del. wp_steps. apply wp_set_prev; [done|].
  apply wp_set_next; rewrite !nodes_with; [by autorewrite with heap_dom|].
  by rewrite with_nodes_with.
Qed.

Lemma head_in hd (xs : list Z) : default hd (head xs) ∈ hd :: xs.
Proof. destruct xs; set_solver. Qed.
Lemma last_in hd (xs : list Z) : default hd (last xs) ∈ hd :: xs.
Proof.
  destruct (last xs) eqn:E; [|set_solver]. apply last_Some in E as [? ->]. set_solver.
Qed.

Lemma wp_list_add hd xs n Q t :
  dlist (nodes t) hd xs → n ∉ hd :: xs → is_Some (nodes t !! n) →
  (∀ h', dlist h' hd (n :: xs) → same_outside (n :: hd :: xs) (nodes t) h' →
    Q tt (with_nodes h' t)) →
  wp (list_add n hd) Q t.
Proof.
  intros Hd Hn Hi HQ. unfold list_add. wp_steps.
  eapply wp_get_next; [by apply dlist_next|].
  pose proof (head_in hd xs).
  apply wp___list_add; [done|eapply dlist_is_Some; [done|set_solver]..|].
  apply HQ; [by apply dlist_ins|]. intros x Hx. apply ins_frame. set_solver.
Qed.

Lemma wp_list_add_tail hd xs n Q t :
  dlist (nodes t) hd xs → n ∉ hd :: xs → is_Some (nodes t !! n) →
  (∀ h', dlist h' hd (xs ++ [n]) → same_outside (n :: hd :: xs) (nodes t) h' →
    Q tt (with_nodes h' t)) →
  wp (list_add_tail n hd) Q t.
Proof.
  intros Hd Hn Hi HQ. unfold list_add_tail. wp_steps.
  eapply wp_get_prev; [by apply dlist_prev|].
  pose proof (last_in hd xs).
  apply wp___list_add; [done|eapply dlist_is_Some; [done|set_solver]..|].
  apply HQ; [|intros x Hx; apply ins_frame; set_solver].
  destruct xs as [|a xs _] using rev_ind; simpl.
  - apply (dlist_ins _ hd []); done.
  - rewrite last_snoc. simpl. apply dlist_rotate in Hd. simpl in Hd.
    eapply (dlist_ins _ a (hd :: xs) n) in Hd; [|set_solver|done]. simpl in Hd.
    apply (dlist_rotate _ a [n] hd xs) in Hd.
    by rewrite <- app_assoc.
Qed.

(** Unlinking the entry [e] of a list (shared by [list_del] and the moves). *)
Lemma wp_unlink hd xs e ys (k : Z → Z → M T unit) Q t :
  dlist (nodes t) hd (xs ++ e :: ys) →
  (∀ h' p n, dlist h' hd (xs ++ ys) → same_outside (hd :: xs ++ ys) (nodes t) h' →
    wp (k p n) Q (with_nodes h' t)) →
  wp (prv ← get_prev e; nxt ← get_next e; __list_del prv nxt;; k prv nxt) Q t.
Proof.
  intros Hd HQ. wp_steps.
  eapply wp_get_prev; [by eapply dlist_prev_entry|]. wp_steps.
  eapply wp_get_next; [by eapply dlist_next_entry|]. wp_steps.
  pose proof (last_in hd xs) as Hl. pose proof (head_in hd ys) as Hh.
  apply wp___list_del;
    [eapply dlist_is_Some; [done|set_solver]..|].
  apply HQ; [|intros x Hx; apply del_frame; set_solver].
  destruct xs as [|a xs _] using rev_ind; simpl; [by apply (dlist_del _ _ _ e)|].
  rewrite last_snoc. simpl.
  rewrite <- app_assoc in Hd. apply dlist_rotate in Hd. simpl in Hd.
  apply dlist_del in Hd.
  rewrite <- app_assoc. simpl. apply (dlist_rotate _ a ys hd xs).
  destruct ys; exact Hd.
Qed.

Lemma wp_list_del hd xs e ys Q t :
  dlist (nodes t) hd (xs ++ e :: ys) →
  (∀ h', dlist h' hd (xs ++ ys) → h' !! e = Some (Node NULL NULL) →
    same_outside (hd :: xs ++ e :: ys) (nodes t) h' → Q tt (with_nodes h' t)) →
  wp (list_del e) Q t.
Proof.
  intros Hd HQ. unfold list_del. eapply wp_unlink; [done|].
  intros h' p n Hd' Hf.
  assert (is_Some (nodes t !! e)) as He by (eapply dlist_is_Some; [done|set_solver]).
  pose proof (dlist_entry_fresh _ _ _ _ _ Hd) as Hne.
  wp_steps. apply wp_set_next; rewrite nodes_with; [by rewrite Hf|].
  apply wp_set_prev; rewrite !nodes_with; [by rewrite is_Some_upd_next, Hf|].
  rewrite !with_nodes_with. apply HQ.
  - revert Hd'. apply dlist_frame. intros x Hx.
    rewrite lookup_upd_prev_ne, lookup_upd_next_ne; set_solver.
  - unfold upd_prev, upd_next. rewrite lookup_alter_eq, lookup_alter_eq, Hf by done.
    by destruct He as [[??] ->].
  - intros x Hx. rewrite lookup_upd_prev_ne, lookup_upd_next_ne by set_solver.
    apply Hf. set_solver.
Qed.

Lemma wp_list_del_init hd xs e ys Q t :
  dlist (nodes t) hd (xs ++ e :: ys) →
  (∀ h', dlist h' hd (xs ++ ys) → dlist h' e [] →
    same_outside (hd :: xs ++ e :: ys) (nodes t) h' → Q tt (with_nodes h' t)) →
  wp (list_del_init e) Q t.
Proof.
  intros Hd HQ. unfold list_del_init. eapply wp_unlink; [done|].
  intros h' p n Hd' Hf. pose proof (dlist_entry_fresh _ _ _ _ _ Hd) as Hne.
  assert (is_Some (nodes t !! e)) as He by (eapply dlist_is_Some; [done|set_solver]).
  apply wp_init_list_head; rewrite nodes_with; [by rewrite Hf|].
  intros h'' He' Hf'. rewrite with_nodes_with. apply HQ; [|done|].
  - revert Hd'. apply dlist_frame. intros x Hx. apply Hf'. set_solver.
  - eapply same_outside_trans; [done..| |]; set_solver.
Qed.

Lemma wp_list_empty hd xs Q t :
  dlist (nodes t) hd xs → Q (bool_decide (xs = [])) t → wp (list_empty hd) Q t.
Proof.
  intros Hd HQ. unfold list_empty. wp_steps.
  eapply wp_get_next; [by apply dlist_next|]. wp_steps.
  destruct xs as [|x xs]; simpl in *; [by rewrite Z.eqb_refl|].
  assert (x ≠ hd) by (eapply dlist_head_ne; [done|set_solver]).
  by rewrite (proj2 (Z.eqb_neq _ _)).
Qed.

Lemma wp___list_splice L f zs hd ys Q t :
  dlist (nodes t) L (f :: zs) → dlist (nodes t) hd ys → (L :: f :: zs) ## (hd :: ys) →
  (∀ h', dlist h' hd (f :: zs ++ ys) → h' !! L = nodes t !! L →
    same_outside (hd :: f :: zs ++ ys) (nodes t) h' → Q tt (with_nodes h' t)) →
  wp (__list_splice L hd) Q t.
Proof.
  intros HL Hd Hdis HQ. unfold __list_splice. wp_steps.
  eapply wp_get_next; [by apply dlist_next|]. wp_steps.
  eapply wp_get_prev; [by apply dlist_prev|]. wp_steps.
  eapply wp_get_next; [by apply dlist_next|]. wp_steps.
  assert (default L (last (f :: zs)) = default f (last zs)) as ->
    by (rewrite last_cons; by destruct (last zs)). simpl.
  assert (∀ x, x ∈ L :: f :: zs ++ hd :: ys → is_Some (nodes t !! x)) as Hi.
  { intros x Hx. rewrite app_comm_cons, app_comm_cons, elem_of_app in Hx.
    destruct Hx; [by eapply (dlist_is_Some _ L)|by eapply (dlist_is_Some _ hd)]. }
  pose proof (last_in f zs) as Hl. pose proof (head_in hd ys) as Hh.
  apply wp_set_prev; [apply Hi; set_solver|]. wp_steps.
  apply wp_set_next; rewrite !nodes_with; [autorewrite with heap_dom; apply Hi; set_solver|].
  rewrite with_nodes_with. wp_steps.
  apply wp_set_next; rewrite !nodes_with; [autorewrite with heap_dom; apply Hi; set_solver|].
  rewrite with_nodes_with. wp_steps.
  apply wp_set_prev; rewrite !nodes_with; [autorewrite with heap_dom; apply Hi; set_solver|].
  rewrite with_nodes_with.
  apply HQ; [by eapply dlist_spl|..].
  - apply spl_frame. destruct HL as [[HL _]%NoDup_cons _]. set_solver.
  - intros x Hx. apply spl_frame. set_solver.
Qed.

(** Iterating over a list whose links the body leaves alone: the body sees the
    entries in list order, and the loop ends. *)
Lemma wp_list_for_each {A R} hd xs (I : list Z → A → T → Prop)
    (body : Z → A → M T (A + R)) (fin : A → M T R) fuel a Q t :
  length xs < fuel →
  I [] a t →
  (∀ pre a t, I pre a t → dlist (nodes t) hd xs) →
  (∀ pre x post a t, xs = pre ++ x :: post → I pre a t →
    wp (body x a) (λ r t', match r with inl a' => I (pre ++ [x]) a' t' | inr r => Q r t' end) t) →
  (∀ a t, I xs a t → wp (fin a) Q t) →
  wp (list_for_each fuel hd body fin a) Q t.
Proof.
  intros Hfuel HI Hd Hbody Hfin. unfold list_for_each. wp_steps.
  eapply wp_get_next; [eapply dlist_next, Hd, HI|].
  eapply (wp_loop _ (λ n '(pos, a) t, ∃ pre post, xs = pre ++ post ∧
      pos = default hd (head post) ∧ n = length post ∧ I pre a t));
    [|by exists [], xs|done].
  clear a t HI Hfuel. intros n [pos a] t (pre&post&Hxs&->&->&HI).
  pose proof (Hd _ _ _ HI) as Hd'. destruct post as [|x post]; simpl.
  - rewrite Z.eqb_refl. wp_steps. rewrite app_nil_r in Hxs. subst pre.
    eapply wp_mono; [by apply Hfin|]. simpl. intros r t' HQ. by wp_steps.
  - assert (x ≠ hd) by (eapply dlist_head_ne; [done|set_solver]).
    rewrite (proj2 (Z.eqb_neq _ _)) by done. wp_steps.
    eapply wp_mono; [by eapply Hbody|]. intros [a'|r] t' Ht'; [|by wp_steps].
    pose proof (Hd _ _ _ Ht') as Hd2. rewrite Hxs in Hd2. wp_steps.
    eapply wp_get_next; [by eapply dlist_next_entry|]. wp_steps.
    exists (length post). split; [lia|]. exists (pre ++ [x]), post.
    rewrite <- app_assoc. done.
Qed.

(** [list_for_each_safe]: the body may unlink the entry it is given, since the
    successor was read before; [I rest a t] speaks about the entries left. *)
Lemma wp_list_for_each_safe {A R} hd xs (I : list Z → A → T → Prop)
    (body : Z → A → M T (A + R)) (fin : A → M T R) fuel a Q t :
  length xs < fuel →
  I xs a t →
  (∀ rest a t, I rest a t → seg (nodes t) hd rest hd ∧ hd ∉ rest) →
  (∀ x rest a t, I (x :: rest) a t →
    wp (body x a) (λ r t', match r with
      | inl a' => I rest a' t'
      | inr r => Q r t'
      end) t) →
  (∀ a t, I [] a t → wp (fin a) Q t) →
  wp (list_for_each_safe fuel hd body fin a) Q t.
Proof.
  intros Hfuel HI Hd Hbody Hfin. unfold list_for_each_safe. wp_steps.
  destruct (Hd _ _ _ HI) as [Hs _].
  eapply wp_get_next; [by eapply seg_next|]. wp_steps.
  assert (∃ v, nextof (nodes t) (default hd (head xs)) = Some v ∧
    (∀ x rest, xs = x :: rest → v = default hd (head rest))) as (v&Hv&Hv').
  { destruct xs as [|x xs]; simpl in *; [by eexists; split; [apply Hs|]|].
    eexists. split; [eapply seg_next, Hs|]. naive_solver. }
  eapply wp_get_next; [done|].
  eapply (wp_loop _ (λ n '(pos, nx, a) t, ∃ rest, pos = default hd (head rest) ∧
      (∀ x rest', rest = x :: rest' → nx = default hd (head rest')) ∧
      n = length rest ∧ I rest a t)); [|by exists xs|done].
  clear a t HI Hfuel Hs Hv Hv' v. intros n [[pos nx] a] t (rest&->&Hnx&->&HI).
  destruct (Hd _ _ _ HI) as [Hs Hhd]. destruct rest as [|x rest]; simpl.
  - rewrite Z.eqb_refl. wp_steps.
    eapply wp_mono; [by apply Hfin|]. simpl. intros r t' HQ. by wp_steps.
  - rewrite (proj2 (Z.eqb_neq _ _)) by set_solver. wp_steps.
    eapply wp_mono; [by eapply Hbody|]. intros [a'|r] t' Ht'; [|by wp_steps].
    destruct (Hd _ _ _ Ht') as [Hs' Hhd']. rewrite (Hnx _ _ eq_refl).
    assert (∃ v, nextof (nodes t') (default hd (head rest)) = Some v ∧
      (∀ y rest', rest = y :: rest' → v = default hd (head rest'))) as (v&Hv&Hv').
    { destruct rest as [|y rest]; simpl in *; [by eexists; split; [apply Hs'|]|].
      eexists. split; [eapply seg_next, Hs'|]. naive_solver. }
    wp_steps. eapply wp_get_next; [done|]. wp_steps.
    exists (length rest). split; [lia|]. by exists rest.
Qed.
End specs.

(** ** Many lists in one heap

    The abstract state maps every list head to its entries.  [represents h A]
    says that the heap [h] implements [A], all lists being disjoint. *)

Definition represents h (A : gmap Z (list Z)) : Prop :=
  (∀ hd xs, A !! hd = Some xs → dlist h hd xs) ∧
  (∀ hd1 xs1 hd2 xs2, A !! hd1 = Some xs1 → A !! hd2 = Some xs2 → hd1 ≠ hd2 →
    (hd1 :: xs1) ## (hd2 :: xs2)).

(** On concrete heaps these are decided by evaluation. *)
#[export] Instance linked_dec h a b : Decision (linked h a b).
Proof. unfold linked. apply _. Defined.
#[export] Instance seg_dec h a l b : Decision (seg h a l b).
Proof. revert a. induction l as [|x l IH]; intros a; simpl; apply _. Defined.
#[export] Instance dlist_dec h hd xs : Decision (dlist h hd xs).
Proof. unfold dlist. apply _. Defined.

Lemma represents_check h (A : gmap Z (list Z)) :
  bool_decide (map_Forall (λ hd1 xs1, dlist h hd1 xs1 ∧
    map_Forall (λ hd2 xs2, hd1 = hd2 ∨ Forall (λ x, x ∉ hd2 :: xs2) (hd1 :: xs1)) A) A) = true →
  represents h A.
Proof.
  intros HA%bool_decide_eq_true. split.
  - intros hd xs Hhd. by destruct (HA _ _ Hhd).
  - intros hd1 xs1 hd2 xs2 H1 H2 Hne. destruct (HA _ _ H1) as [_ HB].
    destruct (HB _ _ H2) as [|HF]; [done|]. rewrite Forall_forall in HF.
    intros x Hx1 Hx2. by eapply HF.
Qed.

(** The node [n] is allocated and in no list. *)
Definition free_node h (A : gmap Z (list Z)) (n : Z) : Prop :=
  is_Some (h !! n) ∧ ∀ hd xs, A !! hd = Some xs → n ∉ hd :: xs.

Inductive list_op :=
| OpInit (p : Z)
| OpAdd (new head : Z)
| OpAddTail (new head : Z)
| OpDel (entry : Z)
| OpDelInit (entry : Z)
| OpMove (list head : Z)
| OpMoveTail (list head : Z)
| OpSplice (list head : Z)
| OpSpliceInit (list head : Z).

Definition run_op {T} `{NodeHeap T} (o : list_op) : M T unit :=
  match o with
  | OpInit p => INIT_LIST_HEAD p
  | OpAdd n hd => list_add n hd
  | OpAddTail n hd => list_add_tail n hd
  | OpDel e => list_del e
  | OpDelInit e => list_del_init e
  | OpMove l hd => list_move l hd
  | OpMoveTail l hd => list_move_tail l hd
  | OpSplice l hd => list_splice l hd
  | OpSpliceInit l hd => list_splice_init l hd
  end.

(** What each operation promises about the lists. *)
Inductive abs_op h (A : gmap Z (list Z)) : list_op → gmap Z (list Z) → Prop :=
| abs_init p : free_node h A p → abs_op h A (OpInit p) (<[p := []]> A)
| abs_add n hd xs : A !! hd = Some xs → free_node h A n →
    abs_op h A (OpAdd n hd) (<[hd := n :: xs]> A)
| abs_add_tail n hd xs : A !! hd = Some xs → free_node h A n →
    abs_op h A (OpAddTail n hd) (<[hd := xs ++ [n]]> A)
| abs_del e hd xs ys : A !! hd = Some (xs ++ e :: ys) →
    abs_op h A (OpDel e) (<[hd := xs ++ ys]> A)
| abs_del_init e hd xs ys : A !! hd = Some (xs ++ e :: ys) →
    abs_op h A (OpDelInit e) (<[e := []]> (<[hd := xs ++ ys]> A))
| abs_move e hd xs ys hd' zs : A !! hd = Some (xs ++ e :: ys) →
    <[hd := xs ++ ys]> A !! hd' = Some zs →
    abs_op h A (OpMove e hd') (<[hd' := e :: zs]> (<[hd := xs ++ ys]> A))
| abs_move_tail e hd xs ys hd' zs : A !! hd = Some (xs ++ e :: ys) →
    <[hd := xs ++ ys]> A !! hd' = Some zs →
    abs_op h A (OpMoveTail e hd') (<[hd' := zs ++ [e]]> (<[hd := xs ++ ys]> A))
| abs_splice L xs hd ys : A !! L = Some xs → A !! hd = Some ys → L ≠ hd →
    abs_op h A (OpSplice L hd)
      (if decide (xs = []) then A else <[hd := xs ++ ys]> (delete L A))
| abs_splice_init L xs hd ys : A !! L = Some xs → A !! hd = Some ys → L ≠ hd →
    abs_op h A (OpSpliceInit L hd) (<[L := []]> (<[hd := xs ++ ys]> A)).

(** Replacing the entries of one list. *)
Lemma represents_update h h' A hd xs ys l :
  represents h A → A !! hd = Some xs →
  dlist h' hd ys → same_outside l h h' →
  (∀ hd' xs', A !! hd' = Some xs' → hd' ≠ hd → l ## hd' :: xs') →
  (∀ hd' xs', A !! hd' = Some xs' → hd' ≠ hd → hd :: ys ## hd' :: xs') →
  represents h' (<[hd := ys]> A).
Proof.
  intros [Hd Hdis] Hhd Hd' Hs Hl Hys. split.
  - intros hd1 xs1 [[<- <-]|[? H1]]%lookup_insert_Some; [done|].
    eapply same_outside_dlist; [done|by eapply Hl|by apply Hd].
  - intros hd1 xs1 hd2 xs2 [[<- <-]|[? H1]]%lookup_insert_Some
      [[<- <-]|[? H2]]%lookup_insert_Some Hne; try done.
    + by eapply Hys.
    + intros z Hz1 Hz2. by eapply (Hys _ _ H1).
    + by eapply Hdis.
Qed.

(** Registering a new, empty list. *)
Lemma represents_new h h' A p :
  represents h A → (∀ hd xs, A !! hd = Some xs → p ∉ hd :: xs) →
  dlist h' p [] → same_outside [p] h h' → represents h' (<[p := []]> A).
Proof.
  intros [Hd Hdis] Hp Hd' Hs. split.
  - intros hd1 xs1 [[<- <-]|[? H1]]%lookup_insert_Some; [done|].
    eapply same_outside_dlist; [done| |by apply Hd]. pose proof (Hp _ _ H1). set_solver.
  - intros hd1 xs1 hd2 xs2 [[<- <-]|[? H1]]%lookup_insert_Some
      [[<- <-]|[? H2]]%lookup_insert_Some Hne; try done.
    + pose proof (Hp _ _ H2). set_solver.
    + pose proof (Hp _ _ H1). set_solver.
    + by eapply Hdis.
Qed.

Lemma represents_delete h A hd : represents h A → represents h (delete hd A).
Proof.
  intros [Hd Hdis]. split.
  - intros ?? [? ?]%lookup_delete_Some. by apply Hd.
  - intros ???? [? ?]%lookup_delete_Some [? ?]%lookup_delete_Some. by apply Hdis.
Qed.

Section refinement.
Context {T : Type} `{NodeHeap T}.
Implicit Types t : T.

(** Adding [e] to the list [hd] of a represented state ([list_add] and
    [list_add_tail], alone and inside the moves). *)
Lemma represents_add t A hd xs e ys :
  represents (nodes t) A → A !! hd = Some xs → ys ≡ₚ e :: xs →
  (∀ hd xs, A !! hd = Some xs → e ∉ hd :: xs) →
  ∀ h', dlist h' hd ys → same_outside (e :: hd :: xs) (nodes t) h' →
  represents h' (<[hd := ys]> A).
Proof.
  intros HR Hhd Hp He h' Hd' Hs. eapply represents_update; [done..| |];
    intros hd' xs' H1 Hne; pose proof (He _ _ H1);
    pose proof (proj2 HR _ _ _ _ Hhd H1 (not_eq_sym Hne)) as Hdis; [set_solver|].
  intros x Hx. rewrite Hp in Hx. set_solver.
Qed.

Lemma wp_add_op t A hd xs e (tail : bool) :
  represents (nodes t) A → A !! hd = Some xs → is_Some (nodes t !! e) →
  (∀ hd xs, A !! hd = Some xs → e ∉ hd :: xs) →
  wp (if tail then list_add_tail e hd else list_add e hd)
    (λ _ t', represents (nodes t') (<[hd := if tail then xs ++ [e] else e :: xs]> A)) t.
Proof.
  intros HR Hhd Hi He. destruct tail.
  - eapply wp_list_add_tail; [by apply HR|by eapply He|done|].
    intros h' Hd' Hs. rewrite nodes_with. eapply represents_add; [done..| |done|done|done].
    solve_Permutation.
  - eapply wp_list_add; [by apply HR|by eapply He|done|].
    intros h' Hd' Hs. rewrite nodes_with. by eapply represents_add.
Qed.

Lemma represents_unlink t A hd xs e ys :
  represents (nodes t) A → A !! hd = Some (xs ++ e :: ys) →
  ∀ h', dlist h' hd (xs ++ ys) → same_outside (hd :: xs ++ e :: ys) (nodes t) h' →
  represents h' (<[hd := xs ++ ys]> A) ∧
  (∀ hd' xs', <[hd := xs ++ ys]> A !! hd' = Some xs' → e ∉ hd' :: xs').
Proof.
  intros HR Hhd h' Hd' Hs. split.
  - eapply represents_update; [done..| |]; intros hd' xs' H1 Hne;
      pose proof (proj2 HR _ _ _ _ Hhd H1 (not_eq_sym Hne)); set_solver.
  - intros hd' xs' [[<- <-]|[? H1]]%lookup_insert_Some.
    + eapply dlist_entry_fresh, HR, Hhd.
    + pose proof (proj2 HR _ _ _ _ Hhd H1 ltac:(done)). set_solver.
Qed.

(** Clients that keep a represented family use these two. *)
Lemma wp_list_del_repr t A hd xs e ys Q :
  represents (nodes t) A → A !! hd = Some (xs ++ e :: ys) →
  (∀ h', represents h' (<[hd := xs ++ ys]> A) → free_node h' (<[hd := xs ++ ys]> A) e →
    Q tt (with_nodes h' t)) →
  wp (list_del e) Q t.
Proof.
  intros HR Hhd HQ. eapply wp_list_del; [by apply HR|]. intros h' Hd He Hs.
  edestruct (represents_unlink t) as [HR' He']; [done..|].
  apply HQ; [done|]. split; [by rewrite He|done].
Qed.

Lemma wp_list_add_repr t A hd xs e Q :
  represents (nodes t) A → A !! hd = Some xs → free_node (nodes t) A e →
  (∀ h', represents h' (<[hd := e :: xs]> A) → Q tt (with_nodes h' t)) →
  wp (list_add e hd) Q t.
Proof.
  intros HR Hhd [Hi He] HQ. eapply wp_list_add; [by apply HR|by eapply He|done|].
  intros h' Hd' Hs. apply HQ. by eapply represents_add.
Qed.

Lemma same_outside_mono l l' h h' : same_outside l h h' → l ⊆ l' → same_outside l' h h'.
Proof. intros Hs ? x Hx. apply Hs. set_solver. Qed.

(** [list_move] and [list_move_tail]: unlink, then add. *)
Lemma wp_move_op t A hd xs e ys hd' zs (tail : bool) :
  represents (nodes t) A → A !! hd = Some (xs ++ e :: ys) →
  <[hd := xs ++ ys]> A !! hd' = Some zs →
  wp (if tail then list_move_tail e hd' else list_move e hd')
    (λ _ t', represents (nodes t')
      (<[hd' := if tail then zs ++ [e] else e :: zs]> (<[hd := xs ++ ys]> A))) t.
Proof.
  intros HR Hhd Hhd'. pose proof (proj1 HR _ _ Hhd) as Hd.
  assert (is_Some (nodes t !! e)) as Hi by (eapply dlist_is_Some; [done|set_solver]).
  pose proof (dlist_entry_fresh _ _ _ _ _ Hd) as He.
  destruct tail; (eapply wp_unlink; [done|]); intros h' _ _ Hd' Hs;
    (edestruct (represents_unlink t) as [HR' He']; [done..|
      eapply same_outside_mono; [done|set_solver]|]).
  - eapply (wp_add_op _ _ _ _ _ true); rewrite ?nodes_with; [done..| |done].
    by rewrite Hs.
  - eapply (wp_add_op _ _ _ _ _ false); rewrite ?nodes_with; [done..| |done].
    by rewrite Hs.
Qed.

(** [__list_splice] joins two represented lists; the head [L] is left behind. *)
Lemma wp_splice_op t A L f zs hd ys :
  represents (nodes t) A → A !! L = Some (f :: zs) → A !! hd = Some ys → L ≠ hd →
  wp (__list_splice L hd)
    (λ _ t', represents (nodes t') (<[hd := f :: zs ++ ys]> (delete L A)) ∧
      is_Some (nodes t' !! L) ∧
      ∀ hd' xs', <[hd := f :: zs ++ ys]> (delete L A) !! hd' = Some xs' → L ∉ hd' :: xs') t.
Proof.
  intros HR HL Hhd Hne. pose proof (proj2 HR _ _ _ _ HL Hhd Hne) as Hdis.
  eapply wp___list_splice; [by apply HR..|done|].
  intros h' Hd' HLn Hs. rewrite nodes_with. split_and!.
  - eapply represents_update; [by apply represents_delete|by rewrite lookup_delete_ne|done..| |].
    all: intros hd' xs' [? H1]%lookup_delete_Some Hne';
      pose proof (proj2 HR _ _ _ _ HL H1 ltac:(done));
      pose proof (proj2 HR _ _ _ _ Hhd H1 ltac:(done)); set_solver.
  - rewrite HLn. apply (dlist_is_Some _ L (f :: zs)); [by apply HR|set_solver].
  - pose proof (proj1 HR _ _ HL) as [[? ?]%NoDup_cons _].
    intros hd' xs' [[<- <-]|[? [? Hx]%lookup_delete_Some]]%lookup_insert_Some;
      [set_solver|].
    pose proof (proj2 HR _ _ _ _ HL Hx ltac:(done)). set_solver.
Qed.
End refinement.

(** ** Properties *)

(** C6: the list operations of list.h implement operations on a family of
    disjoint lists.  In any state whose heap represents the lists [A], every
    operation applied within its contract (a new node is in no list, an entry is
    in some list) terminates without an invalid access, whatever the aliasing of
    the neighbours (empty lists, last entries, a move inside one list), and the
    new heap represents the lists the operation promises. *)
Theorem list_ops_refine {T} `{NodeHeap T} (t : T) (A A' : gmap Z (list Z)) (o : list_op) :
  represents (nodes t) A → abs_op (nodes t) A o A' →
  wp (run_op o) (λ _ t', represents (nodes t') A') t.
Proof.
  intros HR Ho.
  destruct Ho as [p [Hi Hf]|n hd xs Hhd [Hi Hf]|n hd xs Hhd [Hi Hf]| | | | |
    L xs hd ys|L xs hd ys]; simpl.
  - apply wp_init_list_head; [done|]. intros h' Hd Hs. rewrite nodes_with.
    by eapply represents_new.
  - eapply (wp_add_op _ _ _ _ _ false); done.
  - eapply (wp_add_op _ _ _ _ _ true); done.
  - eapply wp_list_del; [by apply HR|]. intros h' Hd _ Hs. rewrite nodes_with.
    by eapply represents_unlink.
  - eapply wp_list_del_init; [by apply HR|]. intros h' Hd Hd' Hs. rewrite nodes_with.
    edestruct (represents_unlink t) as [HR' He]; [done..|].
    eapply represents_new; [done..|]. by intros x Hx.
  - by eapply (wp_move_op _ _ _ _ _ _ _ _ false).
  - by eapply (wp_move_op _ _ _ _ _ _ _ _ true).
  - unfold list_splice. wp_steps. eapply wp_list_empty; [by apply HR|].
    destruct xs as [|f zs]; simpl; [by wp_steps|].
    eapply wp_mono; [by eapply wp_splice_op|]. naive_solver.
  - unfold list_splice_init. wp_steps. eapply wp_list_empty; [by apply HR|].
    destruct xs as [|f zs]; simpl.
    + wp_steps. rewrite (insert_id A hd ys), (insert_id A L []); done.
    + wp_steps. eapply wp_mono; [by eapply wp_splice_op|].
      intros _ t' (HR'&Hi&HL). apply wp_init_list_head; [done|].
      intros h' Hd' Hs. rewrite nodes_with.
      assert (<[L:=[]]> (<[hd:=f :: zs ++ ys]> A)
        = <[L:=[]]> (<[hd:=f :: zs ++ ys]> (delete L A))) as ->.
      { apply map_eq. intros i. rewrite !lookup_insert, lookup_delete.
        repeat case_decide; congruence. }
      by eapply represents_new.
Qed.

Definition ex_heap : gmap Z list_head :=
  {[ 100 := Node 1 2; 1 := Node 2 100; 2 := Node 100 1; 200 := Node 200 200 ]}%Z.

Lemma list_ops_refine_witness :
  represents ex_heap {[ 100 := [1; 2]; 200 := [] ]}%Z ∧
  wp (run_op (OpMoveTail 1 200))
    (λ _ h, represents h (<[200 := [1]]> (<[100 := [2]]> {[ 100 := [1; 2]; 200 := [] ]})))%Z
    ex_heap.
Proof.
  assert (represents ex_heap {[ 100 := [1; 2]; 200 := [] ]}%Z) as HR.
  { split.
    - intros hd xs [[<- <-]|[? [<- <-]%lookup_singleton_Some]]%lookup_insert_Some.
      all: split; [apply (bool_decide_unpack _); by vm_compute|by vm_compute].
    - intros ?? ?? [[<- <-]|[? [<- <-]%lookup_singleton_Some]]%lookup_insert_Some
        [[<- <-]|[? [<- <-]%lookup_singleton_Some]]%lookup_insert_Some ?; set_solver. }
  split; [exact HR|].
  pose proof (list_ops_refine (T := gmap Z list_head) ex_heap {[ 100 := [1; 2]; 200 := [] ]}%Z _
    (OpMoveTail 1 200) HR
    (abs_move_tail _ {[ 100 := [1; 2]; 200 := [] ]}%Z 1%Z 100%Z [] [2%Z] 200%Z [] eq_refl eq_refl)) as Hwp.
  exact Hwp.
Defined.

(** Deleting every entry inside [list_for_each_safe] is safe: the loop ends
    after one pass, with no invalid access, and leaves the empty list. *)
Theorem list_for_each_safe_del_all {T} `{NodeHeap T} (t : T) hd xs fuel :
  dlist (nodes t) hd xs → length xs < fuel →
  wp (list_for_each_safe fuel hd
        (λ pos _, list_del pos;; mret (inl tt)) (λ _, mret tt) tt)
     (λ _ t', dlist (nodes t') hd []) t.
Proof.
  intros Hd Hf.
  eapply (wp_list_for_each_safe _ _ (λ rest _ t, dlist (nodes t) hd rest)); [done..| | |].
  - intros rest _ t' [[? ?]%NoDup_cons ?]. done.
  - intros x rest _ t' Hd'. wp_steps. eapply (wp_list_del _ []); [done|].
    intros h' Hd'' _ _. wp_steps. by rewrite nodes_with.
  - intros _ t' Hd'. by wp_steps.
Qed.

Lemma list_for_each_safe_del_all_witness :
  dlist ex_heap 100 [1; 2]%Z ∧
  wp (list_for_each_safe 3 100
        (λ pos _, list_del pos;; mret (inl tt)) (λ _, mret tt) tt)
     (λ _ h, dlist h 100 []) ex_heap.
Proof.
  assert (dlist ex_heap 100 [1; 2]%Z) as Hd.
  { split; [apply (bool_decide_unpack _); by vm_compute|by vm_compute]. }
  split; [exact Hd|].
  exact (list_for_each_safe_del_all (T := gmap Z list_head) ex_heap 100%Z [1; 2]%Z 3 Hd
    ltac:(simpl; lia)).
Defined.
