(* ===== verification/Kfifo.v ===== *)
(** * Kfifo: the byte queue of src/datastruct/kfifo.{h,c}

    A ring buffer of [size] bytes whose 32-bit indices [in] and [out] only grow
    (and wrap); a byte of index [i] lives at [i & (size - 1)].  The model keeps
    the indices at their width and copies with bounds-checked [memcpy], so that a
    theorem about a result is also one about memory safety. *)
From stdpp Require Import base tactics list numbers relations.
From S2P Require Import Prelude.

Open Scope Z_scope.

(** ** Data *)

Record kfifo := Kfifo {
  buffer : list Z;   (* the storage *)
  size : Z;
  kin : Z;           (* fifo->in *)
  kout : Z;          (* fifo->out *)
  lock : bool;       (* the mutex, held or not *)
}.

#[global] Instance kfifo_eq_dec : EqDecision kfifo.
Proof. solve_decision. Defined.

Definition with_buffer (b : list Z) (f : kfifo) : kfifo :=
  Kfifo b (size f) (kin f) (kout f) (lock f).
Definition with_in (i : Z) (f : kfifo) : kfifo :=
  Kfifo (buffer f) (size f) i (kout f) (lock f).
Definition with_out (o : Z) (f : kfifo) : kfifo :=
  Kfifo (buffer f) (size f) (kin f) o (lock f).
Definition with_lock (l : bool) (f : kfifo) : kfifo :=
  Kfifo (buffer f) (size f) (kin f) (kout f) l.

(** [memcpy(dst + d, src + s, n)] between two distinct objects. *)
Definition memcpy (dst : list Z) (d : Z) (src : list Z) (s n : Z) : option (list Z) :=
  if decide (0 ≤ d ∧ 0 ≤ s ∧ 0 ≤ n ∧
             d + n ≤ Z.of_nat (length dst) ∧ s + n ≤ Z.of_nat (length src))
  then Some (take (Z.to_nat d) dst ++ take (Z.to_nat n) (drop (Z.to_nat s) src)
             ++ drop (Z.to_nat (d + n)) dst)
  else None.

(** The macro [min(x, y)]. *)
Definition min (x y : Z) : Z := if x <? y then x else y.

(** ** Sizes *)

(** One stage of [generic_fls]: if none of the bits of [mask] is set, shift the
    [int] left by [k] and lower the count. *)
Definition fls_stage (mask k : Z) (xr : Z * Z) : Z * Z :=
  let (x, r) := xr in
  if Z.land (u32 x) mask =? 0 then (s32 (Z.shiftl x k), r - k) else (x, r).

Definition generic_fls (x : Z) : Z :=
  let r := 32 in
  if x =? 0 then 0
  else
    (fls_stage 0x80000000 1
      (fls_stage 0xc0000000 2
        (fls_stage 0xf0000000 4
          (fls_stage 0xff000000 8
            (fls_stage 0xffff0000 16 (x, r)))))).2.

Definition roundup_pow_of_two (x : Z) : Z :=
  u64 (Z.shiftl 1 (generic_fls (s32 (u64 (x - 1))))).

(** ** Construction

    [ndebug] tells whether [assert] is compiled out, [malloc] is the allocator's
    answer for a request of so many bytes: [None], or storage of that length. *)
Definition assert_ (ndebug b : bool) : outcome unit :=
  if ndebug || b then Ret tt else AssertFailed.

Definition kfifo_init (ndebug : bool) (malloc_fifo : bool)
    (buffer : list Z) (size : Z) (lock : bool) : outcome (option kfifo) :=
  match assert_ ndebug (negb (Z.land size (u32 (size - 1)) =? 0)) with
  | Ret _ => if malloc_fifo then Ret (Some (Kfifo buffer size 0 0 lock)) else Ret None
  | _ => AssertFailed
  end.

Definition kfifo_alloc (ndebug : bool) (malloc : Z → option (list Z)) (malloc_fifo : bool)
    (size : Z) (lock : bool) : outcome (option kfifo) :=
  let r := if negb (Z.land size (u32 (size - 1)) =? 0)
           then match assert_ ndebug (0x80000000 <? size) with
                | Ret _ => Ret (u32 (roundup_pow_of_two size))
                | _ => AssertFailed
                end
           else Ret size in
  match r with
  | Ret size =>
      match malloc size with
      | None => Ret None
      | Some buffer => kfifo_init ndebug malloc_fifo buffer size lock
      end
  | _ => AssertFailed
  end.

(** ** Operations without locking *)

Definition __kfifo_reset : M kfifo unit := modify (λ f, with_in 0 (with_out 0 f)).

Definition __kfifo_len : M kfifo Z := gets (λ f, u32 (kin f - kout f)).

(** [ubuf] is the caller's buffer; [kfifo_copy_in d s n] is
    [memcpy(fifo->buffer + d, buffer + s, n)]. *)
Definition kfifo_copy_in (ubuf : list Z) (d s n : Z) : M kfifo unit :=
  modify_opt (λ f, (λ b, with_buffer b f) <$> memcpy (buffer f) d ubuf s n).

Definition __kfifo_put (ubuf : list Z) (len : Z) : M kfifo Z :=
  f ← gets id;
  let len := min len (u32 (size f - kin f + kout f)) in
  let off := Z.land (kin f) (u32 (size f - 1)) in
  let l := min len (u32 (size f - off)) in
  kfifo_copy_in ubuf off 0 l;;
  kfifo_copy_in ubuf 0 l (u32 (len - l));;
  modify (λ f, with_in (u32 (kin f + len)) f);;
  mret len.

(** The result is the caller's buffer after the call and the number of bytes. *)
Definition kfifo_copy_out (ubuf : list Z) (d s n : Z) : M kfifo (list Z) :=
  gets_opt (λ f, memcpy ubuf d (buffer f) s n).

Definition __kfifo_get (ubuf : list Z) (len : Z) : M kfifo (list Z * Z) :=
  f ← gets id;
  let len := min len (u32 (kin f - kout f)) in
  let off := Z.land (kout f) (u32 (size f - 1)) in
  let l := min len (u32 (size f - off)) in
  ubuf ← kfifo_copy_out ubuf 0 off l;
  ubuf ← kfifo_copy_out ubuf l 0 (u32 (len - l));
  modify (λ f, with_out (u32 (kout f + len)) f);;
  mret (ubuf, len).

(** ** Locked operations *)

Definition pthread_mutex_lock : M kfifo unit :=
  λ f, if lock f then Blocked else Ret (tt, with_lock true f).
Definition pthread_mutex_unlock : M kfifo unit := modify (with_lock false).

Definition kfifo_reset : M kfifo unit :=
  pthread_mutex_lock;;
  __kfifo_reset;;
  pthread_mutex_unlock.

Definition kfifo_put (ubuf : list Z) (len : Z) : M kfifo Z :=
  pthread_mutex_lock;;
  ret ← __kfifo_put ubuf len;
  pthread_mutex_unlock;;
  mret ret.

Definition kfifo_get (ubuf : list Z) (len : Z) : M kfifo (list Z * Z) :=
  pthread_mutex_lock;;
  ret ← __kfifo_get ubuf len;
  modify (λ f, if kin f =? kout f then with_in 0 (with_out 0 f) else f);;
  pthread_mutex_unlock;;
  mret ret.

Definition kfifo_len : M kfifo Z :=
  pthread_mutex_lock;;
  ret ← __kfifo_len;
  pthread_mutex_unlock;;
  mret ret.

(** ** The queue a ring buffer represents *)

Notation "b !z i" := (b !!! Z.to_nat i) (at level 20, i at level 9) : Z_scope.

Record kfifo_wf (f : kfifo) : Prop := {
  wf_size : ∃ k, 0 ≤ k ≤ 31 ∧ size f = 2 ^ k;
  wf_buffer : Z.of_nat (length (buffer f)) = size f;
  wf_in : 0 ≤ kin f < 2 ^ 32;
  wf_out : 0 ≤ kout f < 2 ^ 32;
  wf_len : u32 (kin f - kout f) ≤ size f;
}.

(** The [n] bytes of the ring [b] from index [o] on. *)
Definition ring (b : list Z) (sz o : Z) (n : nat) : list Z :=
  (λ j : nat, b !z ((o + Z.of_nat j) mod sz)) <$> seq 0 n.

(** The bytes in the queue, oldest first. *)
Definition contents (f : kfifo) : list Z :=
  ring (buffer f) (size f) (kout f) (Z.to_nat (u32 (kin f - kout f))).

Lemma memcpy_spec dst d src s n :
  0 ≤ d → 0 ≤ s → 0 ≤ n →
  d + n ≤ Z.of_nat (length dst) → s + n ≤ Z.of_nat (length src) →
  ∃ r, memcpy dst d src s n = Some r ∧ length r = length dst ∧
    ∀ p, 0 ≤ p < Z.of_nat (length dst) →
      r !z p = if decide (d ≤ p < d + n) then src !z (s + (p - d)) else dst !z p.
Proof.
  intros. unfold memcpy. rewrite decide_True by done. eexists. split; [done|]. split.
  { rewrite !length_app, !length_take, !length_drop. lia. }
  intros p Hp. rewrite !list_lookup_total_alt.
  destruct (decide (p < d)).
  { rewrite lookup_app_l by (rewrite length_take; lia).
    rewrite lookup_take_lt by lia. rewrite decide_False by lia. done. }
  rewrite lookup_app_r by (rewrite length_take; lia). rewrite length_take.
  destruct (decide (p < d + n)).
  - rewrite decide_True by lia.
    rewrite lookup_app_l by (rewrite length_take, length_drop; lia).
    rewrite lookup_take_lt, lookup_drop by lia. do 2 f_equal. lia.
  - rewrite decide_False by lia.
    rewrite lookup_app_r by (rewrite length_take, length_drop; lia).
    rewrite length_take, length_drop, lookup_drop. do 2 f_equal. lia.
Qed.

(** Indices taken modulo the 32-bit width and then modulo the size. *)
Lemma u32_mod_size x k : 0 ≤ k ≤ 31 → u32 x mod 2 ^ k = x mod 2 ^ k.
Proof.
  intros. unfold u32. apply Z.mod_mod_divide.
  exists (2 ^ (32 - k)). rewrite <- Z.pow_add_r by lia. f_equal. lia.
Qed.

Lemma pow2_range k : 0 ≤ k ≤ 31 → 1 ≤ 2 ^ k ≤ 2 ^ 31.
Proof.
  intros. split; [change 1 with (2 ^ 0)|]; apply Z.pow_le_mono_r; lia.
Qed.

Lemma mod_add_lt x y m : 0 < m → 0 ≤ y < m →
  (x + y) mod m = if decide (x mod m + y < m) then x mod m + y else x mod m + y - m.
Proof.
  intros Hm Hy. pose proof (Z.mod_pos_bound x m Hm).
  rewrite <- Zplus_mod_idemp_l. case_decide.
  - apply Z.mod_small. lia.
  - symmetry. apply (Z.mod_unique_pos _ _ 1); lia.
Qed.

Lemma mod_sub_lt x y m : 0 < m → 0 ≤ x < m → 0 ≤ y < m →
  (x - y) mod m = if decide (y ≤ x) then x - y else x - y + m.
Proof.
  intros Hm Hx Hy. case_decide.
  - apply Z.mod_small. lia.
  - symmetry. apply (Z.mod_unique_pos _ _ (-1)); lia.
Qed.

(** The two-part copy into the ring, seen pointwise. *)
Lemma ring_write b sz i ubuf len :
  0 < sz → Z.of_nat (length b) = sz → 0 ≤ len ≤ sz → len ≤ Z.of_nat (length ubuf) →
  let off := i mod sz in
  let l := min len (sz - off) in
  ∃ b1 b2, memcpy b off ubuf 0 l = Some b1 ∧ memcpy b1 0 ubuf l (len - l) = Some b2 ∧
    length b2 = length b ∧
    ∀ q, 0 ≤ q < sz → b2 !z q =
      if decide ((q - i) mod sz < len) then ubuf !z ((q - i) mod sz) else b !z q.
Proof.
  intros Hsz Hb Hlen Hu off l. pose proof (Z.mod_pos_bound i sz Hsz) as Hoff. fold off in Hoff.
  assert (0 ≤ l ≤ len ∧ off + l ≤ sz ∧ (l = len ∨ off + l = sz)) as (Hl&Hl2&Hl3).
  { unfold l, min. destruct (Z.ltb_spec len (sz - off)); lia. }
  destruct (memcpy_spec b off ubuf 0 l) as (b1&->&Hb1&H1); [lia..|].
  destruct (memcpy_spec b1 0 ubuf l (len - l)) as (b2&H2'&Hb2&H2); [lia..|].
  exists b1, b2. split_and!; [done|done|congruence|].
  intros q Hq. rewrite H2, H1 by lia.
  rewrite <- Zminus_mod_idemp_r. fold off. rewrite mod_sub_lt by lia.
  repeat case_decide; try (exfalso; lia); try done; do 2 f_equal; lia.
Qed.

(** The two-part copy out of the ring, seen pointwise. *)
Lemma ring_read b sz o ubuf len :
  0 < sz → Z.of_nat (length b) = sz → 0 ≤ len ≤ sz → len ≤ Z.of_nat (length ubuf) →
  let off := o mod sz in
  let l := min len (sz - off) in
  ∃ u1 u2, memcpy ubuf 0 b off l = Some u1 ∧ memcpy u1 l b 0 (len - l) = Some u2 ∧
    length u2 = length ubuf ∧
    ∀ q, 0 ≤ q < Z.of_nat (length ubuf) → u2 !z q =
      if decide (q < len) then b !z ((o + q) mod sz) else ubuf !z q.
Proof.
  intros Hsz Hb Hlen Hu off l. pose proof (Z.mod_pos_bound o sz Hsz) as Hoff. fold off in Hoff.
  assert (0 ≤ l ≤ len ∧ off + l ≤ sz ∧ (l = len ∨ off + l = sz)) as (Hl&Hl2&Hl3).
  { unfold l, min. destruct (Z.ltb_spec len (sz - off)); lia. }
  destruct (memcpy_spec ubuf 0 b off l) as (u1&->&Hu1&H1); [lia..|].
  destruct (memcpy_spec u1 l b 0 (len - l)) as (u2&H2'&Hu2&H2); [lia..|].
  exists u1, u2. split_and!; [done|done|congruence|].
  intros q Hq. rewrite H2, H1 by lia.
  destruct (decide (q < len)); [|repeat case_decide; try (exfalso; lia); done].
  rewrite mod_add_lt by lia. fold off.
  repeat case_decide; try (exfalso; lia); do 2 f_equal; lia.
Qed.

Lemma length_ring b sz o n : length (ring b sz o n) = n.
Proof. unfold ring. by rewrite length_fmap, length_seq. Qed.

Lemma lookup_ring b sz o n j :
  (j < n)%nat → ring b sz o n !! j = Some (b !z ((o + Z.of_nat j) mod sz)).
Proof. intros. unfold ring. rewrite list_lookup_fmap, lookup_seq_lt by done. done. Qed.

Lemma ring_ext b b' sz sz' o o' n :
  (∀ j, (j < n)%nat → b !z ((o + Z.of_nat j) mod sz) = b' !z ((o' + Z.of_nat j) mod sz')) →
  ring b sz o n = ring b' sz' o' n.
Proof.
  intros Hb. unfold ring. apply list_fmap_ext. intros i j [-> ?]%lookup_seq.
  apply Hb. lia.
Qed.

Lemma ring_add b sz o n m :
  ring b sz o (n + m) = ring b sz o n ++ ring b sz (o + Z.of_nat n) m.
Proof.
  unfold ring. rewrite seq_app, fmap_app. f_equal. simpl.
  replace (seq n m) with (Nat.add n <$> seq 0 m) by (rewrite fmap_add_seq; f_equal; lia).
  rewrite <- list_fmap_compose. apply list_fmap_ext.
  intros i j _. simpl. do 3 f_equal. lia.
Qed.

Lemma ring_mod b sz o o' n : o mod sz = o' mod sz → ring b sz o n = ring b sz o' n.
Proof.
  intros Ho. apply ring_ext. intros j _.
  by rewrite <- Zplus_mod_idemp_l, Ho, Zplus_mod_idemp_l.
Qed.

(** A list read by index from 0 is its prefix. *)
Lemma index_take (u : list Z) (n : nat) :
  (n ≤ length u)%nat → (λ j : nat, u !z (Z.of_nat j)) <$> seq 0 n = take n u.
Proof.
  intros Hn. apply list_eq. intros i. rewrite list_lookup_fmap.
  destruct (decide (i < n)%nat).
  - rewrite lookup_seq_lt, lookup_take_lt by done. simpl. rewrite Nat2Z.id.
    rewrite list_lookup_total_alt. destruct (lookup_lt_is_Some_2 u i) as [x ->]; [lia|done].
  - rewrite lookup_seq_ge, lookup_take_ge by lia. done.
Qed.

(** The arithmetic of a well-formed queue: [n] bytes used, the rest free. *)
Lemma wf_arith f : kfifo_wf f →
  0 < size f ≤ 2 ^ 31 ∧
  (∀ x, Z.land x (u32 (size f - 1)) = x mod size f) ∧
  (∀ x, u32 x mod size f = x mod size f) ∧
  u32 (size f - kin f + kout f) = size f - u32 (kin f - kout f).
Proof.
  intros [(k&Hk&Hs) Hb Hi Ho Hl]. pose proof (pow2_range k Hk).
  rewrite Hs in *. split_and!; [lia..| | |].
  - intros x. rewrite u32_small by lia. apply land_pow2_mask. lia.
  - intros x. by apply u32_mod_size.
  - pose proof (u32_range (kin f - kout f)). unfold u32 in *.
    rewrite <- (Z.mod_small (2 ^ k - (kin f - kout f) mod 2 ^ 32) (2 ^ 32)) by lia.
    rewrite Zminus_mod_idemp_r. f_equal. lia.
Qed.

Lemma min_spec x y : min x y = Z.min x y.
Proof. unfold min. destruct (Z.ltb_spec x y); lia. Qed.

Lemma wf_contents_length f :
  Z.of_nat (length (contents f)) = u32 (kin f - kout f).
Proof. unfold contents. rewrite length_ring. pose proof (u32_range (kin f - kout f)). lia. Qed.

Lemma wp_kfifo_put ubuf len Q f :
  kfifo_wf f → 0 ≤ len < 2 ^ 32 → len ≤ Z.of_nat (length ubuf) →
  (∀ f', let r := Z.min len (size f - Z.of_nat (length (contents f))) in
    kfifo_wf f' → size f' = size f → lock f' = lock f →
    contents f' = contents f ++ take (Z.to_nat r) ubuf → Q r f') →
  wp (__kfifo_put ubuf len) Q f.
Proof.
  intros Hwf Hlen Hu HQ. destruct (wf_arith f Hwf) as (Hs&Hland&Hmod&Hfree).
  rewrite wf_contents_length in HQ.
  destruct Hwf as [Hk Hb Hi Ho Hn]. set (n := u32 (kin f - kout f)) in *.
  assert (0 ≤ n) as Hn0 by apply u32_range.
  unfold __kfifo_put. wp_steps. simpl. rewrite Hfree, Hland, (min_spec len).
  set (r := Z.min len (size f - n)) in *.
  pose proof (Z.mod_pos_bound (kin f) (size f) ltac:(lia)) as Hoff.
  rewrite (u32_small (size f - kin f `mod` size f)) by lia.
  rewrite u32_small by (rewrite min_spec; lia).
  destruct (ring_write (buffer f) (size f) (kin f) ubuf r) as (b1&b2&H1&H2&Hlb&Hr);
    [lia..|]. simpl in H1, H2.
  unfold kfifo_copy_in. eapply wp_modify_opt; [cbv beta; by rewrite H1|]. wp_steps.
  eapply wp_modify_opt; [cbv beta; simpl buffer; by rewrite H2|]. wp_steps. simpl.
  assert (u32 (u32 (kin f + r) - kout f) = n + r) as Hn'.
  { unfold u32 in *. rewrite Zminus_mod_idemp_l.
    rewrite <- (Z.mod_small (n + r) (2 ^ 32)) by lia. unfold n.
    rewrite Zplus_mod_idemp_l. f_equal. lia. }
  apply HQ; simpl; try done.
  - split; simpl; [done|lia|apply u32_range|done|]. rewrite Hn'. lia.
  - unfold contents. simpl. rewrite Hn'. fold n. rewrite Z2Nat.inj_add, ring_add by lia.
    f_equal.
    + apply ring_ext. intros j Hj. rewrite Hr by (apply Z.mod_pos_bound; lia).
      rewrite Zminus_mod_idemp_l, decide_False; [done|].
      assert ((kout f + Z.of_nat j - kin f) mod size f = size f - n + Z.of_nat j) as ->; [|lia].
      rewrite <- Hmod. unfold u32.
      replace (kout f + Z.of_nat j - kin f) with (Z.of_nat j - (kin f - kout f)) by lia.
      rewrite <- Zminus_mod_idemp_r. fold (u32 (kin f - kout f)). fold n.
      symmetry. rewrite <- (Z.mod_small (size f - n + Z.of_nat j) (size f)) by lia.
      change ((_ - n) mod 2 ^ 32) with (u32 (Z.of_nat j - n)). rewrite Hmod.
      replace (size f - n + Z.of_nat j) with (Z.of_nat j - n + 1 * size f) by lia.
      by rewrite Z_mod_plus_full.
    + rewrite <- index_take by lia. unfold ring. apply list_fmap_ext.
      intros i j [-> ?]%lookup_seq. simpl. rewrite Hr by (apply Z.mod_pos_bound; lia).
      assert ((kout f + Z.of_nat (Z.to_nat n) + Z.of_nat i) mod size f
        = (kin f + Z.of_nat i) mod size f) as ->.
      { rewrite Z2Nat.id by lia. rewrite <- Zplus_mod_idemp_l.
        rewrite <- (Zplus_mod_idemp_l (kin f)). f_equal. f_equal.
        unfold n. rewrite <- Zplus_mod_idemp_r, Hmod, Zplus_mod_idemp_r. f_equal. lia. }
      rewrite Zminus_mod_idemp_l.
      replace (kin f + Z.of_nat i - kin f) with (Z.of_nat i) by lia.
      rewrite Z.mod_small, decide_True by lia. done.
Qed.

Lemma wp_kfifo_get ubuf len Q f :
  kfifo_wf f → 0 ≤ len < 2 ^ 32 → len ≤ Z.of_nat (length ubuf) →
  (∀ f' ubuf', let r := Z.min len (Z.of_nat (length (contents f))) in
    kfifo_wf f' → size f' = size f → lock f' = lock f →
    contents f' = drop (Z.to_nat r) (contents f) →
    ubuf' = take (Z.to_nat r) (contents f) ++ drop (Z.to_nat r) ubuf →
    Q (ubuf', r) f') →
  wp (__kfifo_get ubuf len) Q f.
Proof.
  intros Hwf Hlen Hu HQ. destruct (wf_arith f Hwf) as (Hs&Hland&Hmod&_).
  rewrite wf_contents_length in HQ.
  destruct Hwf as [Hk Hb Hi Ho Hn]. unfold contents in HQ at 2 3.
  set (n := u32 (kin f - kout f)) in *.
  assert (0 ≤ n) as Hn0 by apply u32_range.
  unfold __kfifo_get. wp_steps. simpl. fold n. rewrite Hland, (min_spec len).
  set (r := Z.min len n) in *.
  pose proof (Z.mod_pos_bound (kout f) (size f) ltac:(lia)) as Hoff.
  rewrite (u32_small (size f - kout f `mod` size f)) by lia.
  rewrite u32_small by (rewrite min_spec; lia).
  destruct (ring_read (buffer f) (size f) (kout f) ubuf r) as (u1&u2&H1&H2&Hlu&Hr);
    [lia..|]. simpl in H1, H2.
  unfold kfifo_copy_out. eapply wp_gets_opt; [exact H1|]. wp_steps.
  eapply wp_gets_opt; [exact H2|]. wp_steps. simpl.
  assert (u32 (kin f - u32 (kout f + r)) = n - r) as Hn'.
  { unfold u32 in *. rewrite Zminus_mod_idemp_r.
    rewrite <- (Z.mod_small (n - r) (2 ^ 32)) by lia. unfold n.
    rewrite Zminus_mod_idemp_l. f_equal. lia. }
  replace (Z.to_nat n) with (Z.to_nat r + Z.to_nat (n - r))%nat in HQ by lia.
  rewrite ring_add in HQ. apply HQ; simpl; try done.
  - split; simpl; [done|lia|done|apply u32_range|]. rewrite Hn'. lia.
  - rewrite drop_app_length' by (by rewrite length_ring).
    unfold contents. simpl. rewrite Hn'. apply ring_mod.
    rewrite Hmod. f_equal. lia.
  - rewrite take_app_length' by (by rewrite length_ring).
    apply list_eq. intros i. destruct (decide (i < length ubuf)%nat).
    + rewrite list_lookup_lookup_total_lt by lia.
      rewrite <- (Nat2Z.id i) at 1. rewrite Hr by lia. case_decide.
      * rewrite lookup_app_l by (rewrite length_ring; lia).
        rewrite lookup_ring by lia. done.
      * rewrite lookup_app_r by (rewrite length_ring; lia).
        rewrite length_ring, lookup_drop, Nat2Z.id.
        rewrite <- list_lookup_lookup_total_lt by lia. f_equal. lia.
    + rewrite !lookup_ge_None_2; [done| |lia].
      rewrite length_app, length_ring, length_drop. lia.
Qed.

(** ** The abstract queue *)

(** The calls on a queue; [OpPut] and [OpGet] carry the caller's buffer. *)
Inductive fifo_op :=
| OpPut (ubuf : list Z) (len : Z)
| OpGet (ubuf : list Z) (len : Z)
| OpLen
| OpReset.

Definition fifo_res : Type := list Z * Z.

Definition run_fifo (o : fifo_op) : M kfifo fifo_res :=
  match o with
  | OpPut ubuf len => r ← kfifo_put ubuf len; mret (ubuf, r)
  | OpGet ubuf len => kfifo_get ubuf len
  | OpLen => r ← kfifo_len; mret ([], r)
  | OpReset => kfifo_reset;; mret ([], 0)
  end.

Fixpoint run_fifos (os : list fifo_op) : M kfifo (list fifo_res) :=
  match os with
  | [] => mret []
  | o :: os => r ← run_fifo o; rs ← run_fifos os; mret (r :: rs)
  end.

(** A queue of capacity [cap]: puts append what fits, gets take from the front. *)
Definition spec_fifo (cap : Z) (q : list Z) (o : fifo_op) : list Z * fifo_res :=
  match o with
  | OpPut ubuf len =>
      let r := Z.min len (cap - Z.of_nat (length q)) in
      (q ++ take (Z.to_nat r) ubuf, (ubuf, r))
  | OpGet ubuf len =>
      let r := Z.min len (Z.of_nat (length q)) in
      (drop (Z.to_nat r) q, (take (Z.to_nat r) q ++ drop (Z.to_nat r) ubuf, r))
  | OpLen => (q, ([], Z.of_nat (length q)))
  | OpReset => ([], ([], 0))
  end.

Fixpoint spec_fifos (cap : Z) (q : list Z) (os : list fifo_op) : list Z * list fifo_res :=
  match os with
  | [] => (q, [])
  | o :: os =>
      let '(q, r) := spec_fifo cap q o in
      let '(q, rs) := spec_fifos cap q os in (q, r :: rs)
  end.

(** The caller's contract: the buffer holds [len] bytes, [len] is an unsigned int. *)
Definition fifo_op_ok (o : fifo_op) : Prop :=
  match o with
  | OpPut ubuf len | OpGet ubuf len => 0 ≤ len < 2 ^ 32 ∧ len ≤ Z.of_nat (length ubuf)
  | _ => True
  end.

(** A well-formed queue that nobody has locked. *)
Definition fifo_rel (cap : Z) (q : list Z) (f : kfifo) : Prop :=
  kfifo_wf f ∧ lock f = false ∧ size f = cap ∧ contents f = q.

Lemma wf_reset f : kfifo_wf f → kfifo_wf (with_in 0 (with_out 0 f)).
Proof.
  intros [Hk Hb Hi Ho Hn]. split; simpl; try done.
  destruct Hk as (k&Hk&->). pose proof (pow2_range k Hk). change (u32 (0 - 0)) with 0. lia.
Qed.

Lemma wf_with_lock l f : kfifo_wf f → kfifo_wf (with_lock l f).
Proof. by intros [Hk Hb Hi Ho Hn]. Qed.

Lemma contents_nil f : kfifo_wf f → kin f = kout f → contents f = [].
Proof. intros Hwf Hio. unfold contents. by rewrite Hio, Z.sub_diag. Qed.

Lemma run_fifo_spec cap q o f :
  fifo_rel cap q f → fifo_op_ok o →
  wp (run_fifo o) (λ r f', r = (spec_fifo cap q o).2 ∧
    fifo_rel cap (spec_fifo cap q o).1 f') f.
Proof.
  intros (Hwf&Hlk&<-&<-) Hok.
  assert (pthread_mutex_lock f = Ret (tt, with_lock true f)) as Hlock
    by (unfold pthread_mutex_lock; by rewrite Hlk).
  pose proof (wf_with_lock true f Hwf) as Hwf'.
  destruct o as [ubuf len|ubuf len| |]; simpl in *.
  - unfold kfifo_put. wp_steps. unfold wp at 1. rewrite Hlock. wp_steps.
    apply wp_kfifo_put; [done|lia|lia|].
    intros f' r Hf' Hs _ Hc. unfold pthread_mutex_unlock. wp_steps. simpl.
    split; [done|]. split_and!; [by apply wf_with_lock|done|done|exact Hc].
  - unfold kfifo_get. wp_steps. unfold wp at 1. rewrite Hlock. wp_steps.
    apply wp_kfifo_get; [done|lia|lia|].
    intros f' ubuf' r Hf' Hs _ Hc Hb. unfold pthread_mutex_unlock. wp_steps. simpl.
    split; [by rewrite Hb|]. destruct (Z.eqb_spec (kin f') (kout f')) as [E|E].
    + split_and!; [by apply wf_with_lock, wf_reset|done|done|].
      transitivity (contents f'); [|exact Hc].
      rewrite (contents_nil f') by done. by apply contents_nil; [apply wf_with_lock, wf_reset|].
    + split_and!; [by apply wf_with_lock|done|done|exact Hc].
  - unfold kfifo_len, __kfifo_len. wp_steps. unfold wp at 1. rewrite Hlock. wp_steps.
    unfold pthread_mutex_unlock. wp_steps. simpl. rewrite wf_contents_length.
    split; [done|]. split_and!; [by apply wf_with_lock|done..].
  - unfold kfifo_reset, __kfifo_reset. wp_steps. unfold wp at 1. rewrite Hlock. wp_steps.
    unfold pthread_mutex_unlock. wp_steps. split; [done|].
    split_and!; [by apply wf_with_lock, wf_reset|done|done|].
    apply contents_nil; [by apply wf_with_lock, wf_reset|done].
Qed.

(** C7: every sequence of locked calls on a kfifo behaves as the FIFO queue of
    capacity [size]: bytes come out in the order they went in, a put accepts
    what fits and a get what is there, across every wrap-around of the 32-bit
    indices and of the buffer; no call reads or writes out of bounds, none
    blocks, and the mutex is free after each. *)
Theorem kfifo_refines_queue cap q os f :
  fifo_rel cap q f → Forall fifo_op_ok os →
  wp (run_fifos os) (λ rs f', rs = (spec_fifos cap q os).2 ∧
    fifo_rel cap (spec_fifos cap q os).1 f') f.
Proof.
  intros Hf Hos. revert q f Hf. induction Hos as [|o os Ho Hos IH]; intros q f Hf; simpl.
  - by wp_steps.
  - wp_steps. eapply wp_mono; [by apply run_fifo_spec|].
    intros r f' [-> Hf']. destruct (spec_fifo cap q o) as [q' r'] eqn:E. simpl in *.
    wp_steps. eapply wp_mono; [by apply IH|].
    intros rs f'' [-> Hf'']. wp_steps.
    destruct (spec_fifos cap q' os) as [q'' rs']. by split.
Qed.

(** A queue of four bytes whose indices are about to wrap, holding 7 and 8. *)
Definition ex_fifo : kfifo := Kfifo [5; 6; 7; 8] 4 0 (2 ^ 32 - 2) false.

Lemma kfifo_refines_queue_witness :
  fifo_rel 4 [7; 8] ex_fifo ∧
  wp (run_fifos [OpPut [1; 2; 3] 3; OpGet [0; 0; 0] 3])
    (λ rs f', rs = [([1; 2; 3], 2); ([7; 8; 1], 3)] ∧ fifo_rel 4 [2] f') ex_fifo.
Proof.
  assert (fifo_rel 4 [7; 8] ex_fifo) as Hf.
  { split_and!; [|by vm_compute..]. split; simpl; try by vm_compute.
    exists 2. split; [lia|by vm_compute]. }
  split; [exact Hf|].
  apply (kfifo_refines_queue 4 [7; 8] [OpPut [1; 2; 3] 3; OpGet [0; 0; 0] 3] ex_fifo Hf).
  repeat constructor; simpl; lia.
Defined.

(** ** Sizes and construction *)

Lemma u32_s32 x : u32 (s32 x) = u32 x.
Proof.
  unfold u32, s32, swrap. rewrite Zminus_mod, Zmod_mod, <- Zminus_mod. f_equal. lia.
Qed.

Lemma u32_mul x k : 0 ≤ k → 0 ≤ u32 x * 2 ^ k < 2 ^ 32 → u32 (Z.shiftl x k) = u32 x * 2 ^ k.
Proof.
  intros Hk Hx. rewrite Z.shiftl_mul_pow2 by done. rewrite <- (u32_small (u32 x * 2 ^ k)) by done.
  unfold u32. by rewrite Zmult_mod_idemp_l.
Qed.

(** No bit of the top [k] of 32 is set exactly below [2 ^ (32 - k)]. *)
Lemma land_top_bits p k : 0 < k < 32 → 0 ≤ p < 2 ^ 32 →
  Z.land p (Z.shiftl (Z.ones k) (32 - k)) = 0 ↔ p < 2 ^ (32 - k).
Proof.
  intros Hk Hp. split; intros H.
  - apply Z.lt_nge. intros Hge. assert (0 < p) by (pose proof (Z.pow_pos_nonneg 2 (32 - k)); lia).
    assert (32 - k ≤ Z.log2 p) by (apply Z.log2_le_pow2; lia).
    assert (Z.log2 p < 32) by (apply Z.log2_lt_pow2; lia).
    assert (Z.testbit (Z.land p (Z.shiftl (Z.ones k) (32 - k))) (Z.log2 p) = true) as Ht;
      [|by rewrite H, Z.bits_0 in Ht].
    rewrite Z.land_spec, Z.bit_log2, Z.shiftl_spec by lia.
    rewrite Z.ones_spec_low by lia. done.
  - apply Z.bits_inj'. intros i Hi. rewrite Z.land_spec, Z.bits_0, Z.shiftl_spec by done.
    destruct (decide (i < 32 - k)).
    + rewrite (Z.testbit_neg_r (Z.ones k)) by lia. apply andb_false_r.
    + destruct (decide (p = 0)) as [->|]; [by rewrite Z.bits_0|].
      rewrite Z.bits_above_log2; [done|lia|].
      apply Z.log2_lt_pow2; [lia|]. pose proof (Z.pow_le_mono_r 2 (32 - k) i). lia.
Qed.

(** A stage keeps [r + log2 x] and brings the highest bit into the top [k]. *)
Lemma fls_stage_spec mask k x r x' r' :
  fls_stage mask k (x, r) = (x', r') →
  0 < k ≤ 16 → mask = Z.shiftl (Z.ones k) (32 - k) → 0 < u32 x → 2 ^ (32 - 2 * k) ≤ u32 x →
  0 < u32 x' ∧ 2 ^ (32 - k) ≤ u32 x' ∧ r' + Z.log2 (u32 x') = r + Z.log2 (u32 x).
Proof.
  unfold fls_stage. intros Heq Hk -> Hx Hx2. pose proof (u32_range x).
  destruct (Z.eqb_spec (Z.land (u32 x) (Z.shiftl (Z.ones k) (32 - k))) 0) as [E|E];
    injection Heq as <- <-.
  - apply land_top_bits in E; [|lia..]. rewrite u32_s32.
    assert (2 ^ 32 = 2 ^ (32 - k) * 2 ^ k) as E32.
    { rewrite <- Z.pow_add_r by lia. f_equal. lia. }
    assert (0 < 2 ^ k) by (apply Z.pow_pos_nonneg; lia).
    rewrite u32_mul by nia. rewrite Z.log2_mul_pow2 by lia. split_and!; [nia| |lia].
    transitivity (2 ^ (32 - 2 * k) * 2 ^ k); [|nia].
    rewrite <- Z.pow_add_r by lia. apply Z.pow_le_mono_r; lia.
  - split; [done|]. split; [|done]. apply Z.le_ngt. intros Hlt. apply E.
    apply land_top_bits; lia.
Qed.

(** [generic_fls] finds the highest set bit of the 32-bit pattern. *)
Lemma generic_fls_log2 x : x ≠ 0 → 0 < u32 x → generic_fls x = Z.log2 (u32 x) + 1.
Proof.
  intros Hx Hu. unfold generic_fls. rewrite (proj2 (Z.eqb_neq _ _)) by done.
  destruct (fls_stage 0xffff0000 16 (x, 32)) as [x1 r1] eqn:H1.
  apply fls_stage_spec in H1 as (Ha1&Hb1&Hc1);
    [|lia|done|lia|change (2 ^ (32 - 2 * 16)) with 1; lia].
  destruct (fls_stage 0xff000000 8 (x1, r1)) as [x2 r2] eqn:H2.
  apply fls_stage_spec in H2 as (Ha2&Hb2&Hc2); [|lia|done|lia|exact Hb1].
  destruct (fls_stage 0xf0000000 4 (x2, r2)) as [x3 r3] eqn:H3.
  apply fls_stage_spec in H3 as (Ha3&Hb3&Hc3); [|lia|done|lia|exact Hb2].
  destruct (fls_stage 0xc0000000 2 (x3, r3)) as [x4 r4] eqn:H4.
  apply fls_stage_spec in H4 as (Ha4&Hb4&Hc4); [|lia|done|lia|exact Hb3].
  destruct (fls_stage 0x80000000 1 (x4, r4)) as [x5 r5] eqn:H5.
  apply fls_stage_spec in H5 as (Ha5&Hb5&Hc5); [|lia|done|lia|exact Hb4].
  simpl.
  pose proof (u32_range x5).
  assert (Z.log2 (u32 x5) = 31); [|lia].
  apply Z.log2_unique; [lia|]. change (2 ^ (32 - 1)) with (2 ^ 31) in Hb5. lia.
Qed.

Lemma roundup_spec x :
  2 ≤ x < 2 ^ 32 → roundup_pow_of_two x = 2 ^ Z.log2_up x ∧ 1 ≤ Z.log2_up x ≤ 32.
Proof.
  intros Hx. assert (1 ≤ Z.log2_up x ≤ 32) as Hl.
  { split; [pose proof (Z.log2_up_pos x ltac:(lia)); lia|]. apply Z.log2_up_le_pow2; lia. }
  split; [|done]. unfold roundup_pow_of_two. rewrite (u64_small (x - 1)) by lia.
  assert (u32 (s32 (x - 1)) = x - 1) as Hu by (rewrite u32_s32, u32_small; lia).
  rewrite generic_fls_log2, Hu; [|intros Hz; rewrite Hz in Hu; change (u32 0) with 0 in Hu; lia|lia].
  rewrite Z.shiftl_mul_pow2, Z.mul_1_l by (pose proof (Z.log2_nonneg (x - 1)); lia).
  assert (Z.log2 (x - 1) + 1 = Z.log2_up x) as ->
    by (rewrite Z.log2_up_eqn by lia; f_equal; f_equal; lia).
  apply u64_small. split; [lia|]. apply Z.pow_lt_mono_r; lia.
Qed.

Lemma land_pred_pow2 x : 0 < x < 2 ^ 32 → Z.land x (u32 (x - 1)) = 0 → x = 2 ^ Z.log2 x.
Proof.
  intros Hx. rewrite u32_small by lia. intros Hl.
  destruct (Z.log2_spec x) as [H1 H2]; [lia|].
  destruct (decide (x = 2 ^ Z.log2 x)) as [|Hne]; [done|exfalso].
  assert (Z.log2 (x - 1) = Z.log2 x) as E.
  { apply Z.log2_unique; [apply Z.log2_nonneg|]. lia. }
  assert (1 < x) by (pose proof (Z.pow_le_mono_r 2 0 (Z.log2 x)); pose proof (Z.log2_nonneg x); lia).
  assert (Z.testbit (Z.land x (x - 1)) (Z.log2 x) = true) as Ht; [|by rewrite Hl, Z.bits_0 in Ht].
  rewrite Z.land_spec, Z.bit_log2, <- E, Z.bit_log2 by lia. done.
Qed.

Lemma pow2_land_pred k : 0 ≤ k ≤ 31 → Z.land (2 ^ k) (u32 (2 ^ k - 1)) = 0.
Proof.
  intros Hk. pose proof (pow2_range k Hk). rewrite u32_small by lia.
  rewrite land_pow2_mask by lia. apply Z_mod_same_full.
Qed.

(** Without assertions, [kfifo_alloc] of 1 to 2^31 bytes returns an empty,
    unlocked, well-formed queue whose capacity is the least power of two that is
    not below the request. *)
Theorem kfifo_alloc_ndebug malloc size' :
  (∀ n b, malloc n = Some b → Z.of_nat (length b) = n) →
  is_Some (malloc (2 ^ Z.log2_up size')) →
  1 ≤ size' ≤ 2 ^ 31 →
  ∃ f, kfifo_alloc true malloc true size' false = Ret (Some f) ∧
    fifo_rel (2 ^ Z.log2_up size') [] f ∧ size' ≤ size f < 2 * size'.
Proof.
  intros Hm [b Hmb] Hs. unfold kfifo_alloc, assert_. simpl.
  assert (0 ≤ Z.log2_up size' ≤ 31) as Hl.
  { split; [apply Z.log2_up_nonneg|]. apply Z.log2_up_le_pow2; lia. }
  assert (size' ≤ 2 ^ Z.log2_up size' < 2 * size') as Hb.
  { destruct (decide (size' = 1)) as [->|]; [done|].
    destruct (Z.log2_up_spec size') as [H1 H2]; [lia|].
    replace (Z.log2_up size') with (Z.succ (Z.pred (Z.log2_up size'))) at 2 by lia.
    rewrite Z.pow_succ_r by (pose proof (Z.log2_up_pos size' ltac:(lia)); lia). lia. }
  pose proof (pow2_range _ Hl) as Hp.
  assert (∃ r, (if negb (Z.land size' (u32 (size' - 1)) =? 0)
     then Ret (u32 (roundup_pow_of_two size')) else Ret size') = (Ret r : outcome Z)
     ∧ r = 2 ^ Z.log2_up size') as (r&->&->).
  { destruct (Z.eqb_spec (Z.land size' (u32 (size' - 1))) 0) as [E|E]; simpl.
    - eexists. split; [done|]. apply land_pred_pow2 in E; [|lia].
      rewrite E at 2. by rewrite Z.log2_up_pow2 by apply Z.log2_nonneg.
    - eexists. split; [done|]. destruct (decide (size' = 1)) as [->|]; [by destruct E|].
      destruct (roundup_spec size') as [-> _]; [lia|]. by rewrite u32_small by lia. }
  rewrite Hmb. unfold kfifo_init. simpl.
  eexists. split; [done|]. split; [|done]. split_and!; try done.
  split; simpl; [by eexists|by apply Hm|done|done|]. change (u32 (0 - 0)) with 0. lia.
Qed.

(** An allocator that has eight bytes to give. *)
Definition ex_malloc (n : Z) : option (list Z) :=
  if n =? 8 then Some (replicate 8 0) else None.

Lemma ex_malloc_length n b : ex_malloc n = Some b → Z.of_nat (length b) = n.
Proof. unfold ex_malloc. destruct (Z.eqb_spec n 8) as [->|]; [|done]. by intros [= <-]. Qed.

Lemma kfifo_alloc_ndebug_witness :
  is_Some (ex_malloc (2 ^ Z.log2_up 5)) ∧ 1 ≤ 5 ≤ 2 ^ 31 ∧
  ∃ f, kfifo_alloc true ex_malloc true 5 false = Ret (Some f) ∧
    fifo_rel (2 ^ Z.log2_up 5) [] f ∧ 5 ≤ size f < 2 * 5.
Proof.
  assert (is_Some (ex_malloc (2 ^ Z.log2_up 5))) as Hm by (by eexists).
  split; [exact Hm|]. split; [lia|].
  exact (kfifo_alloc_ndebug ex_malloc 5 ex_malloc_length Hm ltac:(lia)).
Defined.

(** With assertions enabled the constructors are unusable.  [kfifo_init]
    aborts on every power of two, the only sizes its comment allows, because
    [assert(size & (size - 1))] lost the negation of the original BUG_ON; and
    [kfifo_alloc] never returns a queue, for any size and any allocator. *)
Theorem kfifo_construction_aborts (malloc : Z → option (list Z)) (mf lk : bool) (b : list Z) :
  (∀ k, 0 ≤ k ≤ 31 → kfifo_init false mf b (2 ^ k) lk = AssertFailed) ∧
  (∀ size' f, 0 ≤ size' < 2 ^ 32 → kfifo_alloc false malloc mf size' lk ≠ Ret (Some f)).
Proof.
  split.
  - intros k Hk. unfold kfifo_init, assert_. simpl. by rewrite pow2_land_pred.
  - intros size' f Hs. unfold kfifo_alloc.
    destruct (Z.eqb_spec (Z.land size' (u32 (size' - 1))) 0) as [E|E]; simpl.
    + destruct (malloc size'); [|done]. unfold kfifo_init, assert_. simpl. by rewrite E.
    + unfold assert_ at 1. simpl. destruct (Z.ltb_spec 2147483648 size'); [|done].
      destruct (roundup_spec size') as [Hr _]; [lia|].
      assert (Z.log2_up size' = 32) as Hl by (apply Z.log2_up_unique; lia).
      rewrite Hr, Hl. change (u32 (2 ^ 32)) with 0.
      destruct (malloc 0); [|done]. done.
Qed.

(** ** One producer and one consumer without a lock

    The comments of [__kfifo_put] and [__kfifo_get] promise that one concurrent
    reader and one concurrent writer need no lock.  The steps below are the loads
    and stores of the two functions on the shared structure; [min] is the macro
    of kfifo.c, which evaluates the free (or used) space once for the comparison
    and once more for the result. *)
Inductive prod :=
| PStart (ubuf : list Z) (len : Z)
| PCompared (ubuf : list Z) (len : Z) (lt : bool)
| PLen (ubuf : list Z) (len : Z)
| PCopied (len : Z)
| PDone (len : Z).

Definition pstep (p : prod) : M kfifo prod :=
  match p with
  | PStart ubuf len =>
      f ← gets id; mret (PCompared ubuf len (len <? u32 (size f - kin f + kout f)))
  | PCompared ubuf len lt =>
      f ← gets id; mret (PLen ubuf (if lt then len else u32 (size f - kin f + kout f)))
  | PLen ubuf len =>
      f ← gets id;
      let off := Z.land (kin f) (u32 (size f - 1)) in
      let l := min len (u32 (size f - off)) in
      kfifo_copy_in ubuf off 0 l;;
      kfifo_copy_in ubuf 0 l (u32 (len - l));;
      mret (PCopied len)
  | PCopied len => modify (λ f, with_in (u32 (kin f + len)) f);; mret (PDone len)
  | PDone len => mret (PDone len)
  end.

(** The consumer gets [len] bytes; its buffer is as long as asked for. *)
Inductive cons :=
| CStart (ubuf : list Z) (len : Z)
| CCompared (ubuf : list Z) (len : Z) (lt : bool)
| CLen (ubuf : list Z) (len : Z)
| CCopied (ubuf : list Z) (len : Z)
| CDone (ubuf : list Z) (len : Z).

Definition cstep (c : cons) : M kfifo cons :=
  match c with
  | CStart ubuf len =>
      f ← gets id; mret (CCompared ubuf len (len <? u32 (kin f - kout f)))
  | CCompared ubuf len lt =>
      f ← gets id; mret (CLen ubuf (if lt then len else u32 (kin f - kout f)))
  | CLen ubuf len =>
      f ← gets id;
      let off := Z.land (kout f) (u32 (size f - 1)) in
      let l := min len (u32 (size f - off)) in
      ubuf ← kfifo_copy_out ubuf 0 off l;
      ubuf ← kfifo_copy_out ubuf l 0 (u32 (len - l));
      mret (CCopied ubuf len)
  | CCopied ubuf len => modify (λ f, with_out (u32 (kout f + len)) f);; mret (CDone ubuf len)
  | CDone ubuf len => mret (CDone ubuf len)
  end.

(** The steps are the functions: run alone, four of them are [__kfifo_put], and
    four of the other kind are [__kfifo_get]. *)
Lemma producer_alone ubuf len f :
  (p1 ← pstep (PStart ubuf len); p2 ← pstep p1; p3 ← pstep p2; pstep p3) f
  = (r ← __kfifo_put ubuf len; mret (PDone r)) f.
Proof.
  unfold __kfifo_put, pstep, cstep, min, modify, mbind, M_bind, gets, mret, M_ret.
  cbv beta iota zeta. unfold id.
  destruct (kfifo_copy_in _ _ _ _ f) as [[[] f1]| | | | |]; try done.
  by destruct (kfifo_copy_in _ _ _ _ f1) as [[[] f2]| | | | |].
Qed.
Lemma consumer_alone ubuf len f :
  (c1 ← cstep (CStart ubuf len); c2 ← cstep c1; c3 ← cstep c2; cstep c3) f
  = (r ← __kfifo_get ubuf len; mret (CDone r.1 r.2)) f.
Proof.
  unfold __kfifo_get, pstep, cstep, min, modify, mbind, M_bind, gets, mret, M_ret.
  cbv beta iota zeta. unfold id.
  destruct (kfifo_copy_out _ _ _ _ f) as [[u1 f1]| | | | |]; try done.
  by destruct (kfifo_copy_out _ _ _ _ f1) as [[u2 f2]| | | | |].
Qed.

(** Interleavings. *)
Inductive spsc_step : kfifo * prod * cons → kfifo * prod * cons → Prop :=
| spsc_prod f p c p' f' : pstep p f = Ret (p', f') → spsc_step (f, p, c) (f', p', c)
| spsc_cons f p c c' f' : cstep c f = Ret (c', f') → spsc_step (f, p, c) (f', p, c').

(** C13: the promise fails.  From a well-formed (full) queue, with one producer
    that puts one byte and one consumer that gets three, an interleaving makes
    the producer settle on a length greater than the one it was given, and its
    next step reads beyond the end of the caller's buffer. *)
Theorem kfifo_unlocked_overread :
  ∃ f0 ubuf len rbuf rlen f n c,
    fifo_rel 4 [5; 6; 7; 8] f0 ∧
    fifo_op_ok (OpPut ubuf len) ∧ fifo_op_ok (OpGet rbuf rlen) ∧
    rtc spsc_step (f0, PStart ubuf len, CStart rbuf rlen) (f, PLen ubuf n, c) ∧
    len < n ∧ Z.of_nat (length ubuf) < n ∧ pstep (PLen ubuf n) f = Fault.
Proof.
  exists (Kfifo [5; 6; 7; 8] 4 4 0 false), [1], 1, [0; 0; 0], 3,
    (Kfifo [5; 6; 7; 8] 4 4 3 false), 3, (CDone [5; 6; 7] 3).
  split_and!; try by vm_compute.
  - split; [|by vm_compute]. split; simpl; try by vm_compute. exists 2. split; [lia|by vm_compute].
  - eapply rtc_l; [by apply spsc_prod|].
    do 4 (eapply rtc_l; [eapply spsc_cons; vm_compute; reflexivity|]).
    eapply rtc_l; [eapply spsc_prod; vm_compute; reflexivity|]. by vm_compute.
Qed.
