(* ===== verification/Sort.v ===== *)
(** * Sort: the array sorts of src/datastruct/sort.c

    The store holds the array and the scratch buffer; loads and stores are
    bounds-checked, and the addition in [(first + last) / 2] is checked for
    signed overflow.  The timing calls and the [printf]s are not modelled. *)
From stdpp Require Import base tactics sets list numbers sorting.
From S2P Require Import Prelude.

Open Scope Z_scope.

Record arrays := Arrays { arr : list Z; tmp : list Z }.

Definition znth (l : list Z) (i : Z) : option Z := if i <? 0 then None else l !! Z.to_nat i.
Definition zset (l : list Z) (i v : Z) : option (list Z) :=
  if (0 <=? i) && (i <? Z.of_nat (length l)) then Some (<[Z.to_nat i := v]> l) else None.

Definition a_get (i : Z) : M arrays Z := gets_opt (λ s, znth (arr s) i).
Definition a_set (i v : Z) : M arrays unit :=
  modify_opt (λ s, (λ a, Arrays a (tmp s)) <$> zset (arr s) i v).
Definition t_get (i : Z) : M arrays Z := gets_opt (λ s, znth (tmp s) i).
Definition t_set (i v : Z) : M arrays unit :=
  modify_opt (λ s, (λ t, Arrays (arr s) t) <$> zset (tmp s) i v).

(** [x + y] on int; signed overflow is undefined behaviour. *)
Definition int_add {S} (x y : Z) : M S Z :=
  if (- 2 ^ 31 <=? x + y) && (x + y <? 2 ^ 31) then mret (x + y) else fault.

(** ** Quick sort *)

Definition adjust_array (fuel : nat) (left right : Z) : M arrays Z :=
  tmp ← a_get left;
  ij ← loop fuel (λ '(i, j),
    if i <? j then
      j ← loop fuel (λ j,
        if i <? j then
          x ← a_get j;
          if tmp <=? x then mret (inl (j - 1)) else mret (inr j)
        else mret (inr j)) j;
      i ← (if i <? j then x ← a_get j; a_set i x;; mret (i + 1) else mret i);
      i ← loop fuel (λ i,
        if i <? j then
          x ← a_get i;
          if x <? tmp then mret (inl (i + 1)) else mret (inr i)
        else mret (inr i)) i;
      j ← (if i <? j then x ← a_get i; a_set j x;; mret (j - 1) else mret j);
      mret (inl (i, j))
    else mret (inr (i, j))) (left, right);
  let '(i, j) := ij in
  a_set i tmp;;
  mret i.

Fixpoint _quick_sort (fuel : nat) (left right : Z) : M arrays unit :=
  match fuel with
  | O => λ _, OutOfFuel
  | S fuel' =>
      if left <? right then
        i ← adjust_array fuel left right;
        _quick_sort fuel' left (i - 1);;
        _quick_sort fuel' (i + 1) right
      else mret tt
  end.

Definition quick_sort (fuel : nat) (n : Z) : M arrays unit := _quick_sort fuel 0 (n - 1).

(** ** Merge sort *)

(** Copy the rest of a run: [while (i <= m) temp[k++] = a[i++]]. *)
Definition copy_run (fuel : nat) (m : Z) (ik : Z * Z) : M arrays (Z * Z) :=
  loop fuel (λ '(i, k),
    if i <=? m then x ← a_get i; t_set k x;; mret (inl (i + 1, k + 1))
    else mret (inr (i, k))) ik.

Definition mergearray (fuel : nat) (first mid last : Z) : M arrays unit :=
  let i := first in let j := mid + 1 in
  let m := mid in let n := last in
  ijk ← loop fuel (λ '(i, j, k),
    if (i <=? m) && (j <=? n) then
      x ← a_get i;
      y ← a_get j;
      if x <=? y then
        x ← a_get i; t_set k x;; mret (inl (i + 1, j, k + 1))
      else
        y ← a_get j; t_set k y;; mret (inl (i, j + 1, k + 1))
    else mret (inr (i, j, k))) (i, j, 0);
  let '(i, j, k) := ijk in
  ik ← copy_run fuel m (i, k);
  let '(i, k) := ik in
  jk ← copy_run fuel n (j, k);
  let '(j, k) := jk in
  loop fuel (λ i,
    if i <? k then
      x ← t_get i;
      a_set (first + i) x;;
      mret (inl (i + 1))
    else mret (inr tt)) 0.

Fixpoint _merge_sort (fuel : nat) (first last : Z) : M arrays unit :=
  match fuel with
  | O => λ _, OutOfFuel
  | S fuel' =>
      if first <? last then
        s ← int_add first last;
        let mid := Z.quot s 2 in
        _merge_sort fuel' first mid;;
        _merge_sort fuel' (mid + 1) last;;
        mergearray fuel first mid last
      else mret tt
  end.

(** The buffer that [malloc] returns is [res], with indeterminate contents; the
    function returns it. *)
Definition merge_sort (fuel : nat) (res : list Z) (n : Z) : M (list Z) (list Z) :=
  λ a, match _merge_sort fuel 0 (n - 1) (Arrays a res) with
       | Ret (_, s) => Ret (tmp s, arr s)
       | Fault => Fault
       | AssertFailed => AssertFailed
       | Exited c => Exited c
       | Blocked => Blocked
       | OutOfFuel => OutOfFuel
       end.

(** The merge of two arrays into a third, which is the state; nothing calls it. *)
Definition c_set (k v : Z) : M (list Z) unit := modify_opt (λ c, zset c k v).
Definition c_copy (fuel : nat) (a : list Z) (m : Z) (ik : Z * Z) : M (list Z) (Z * Z) :=
  loop fuel (λ '(i, k),
    if i <? m then x ← gets_opt (λ _, znth a i); c_set k x;; mret (inl (i + 1, k + 1))
    else mret (inr (i, k))) ik.

Definition merge_array (fuel : nat) (a : list Z) (m : Z) (b : list Z) (n : Z) : M (list Z) unit :=
  ijk ← loop fuel (λ '(i, j, k),
    if (i <? m) && (j <? n) then
      x ← gets_opt (λ _, znth a i);
      y ← gets_opt (λ _, znth b j);
      if x <? y then c_set k x;; mret (inl (i + 1, j, k + 1))
      else c_set k y;; mret (inl (i, j + 1, k + 1))
    else mret (inr (i, j, k))) (0, 0, 0);
  let '(i, j, k) := ijk in
  ik ← c_copy fuel a m (i, k);
  let '(i, k) := ik in
  c_copy fuel b n (j, k);;
  mret tt.

(** ** Bubble sort *)

Definition bubble_sort (fuel : nat) (n : Z) : M arrays unit :=
  loop fuel (λ i,
    if i <? n - 1 then
      loop fuel (λ j,
        if j <? n - 1 - i then
          x ← a_get (j + 1);
          y ← a_get j;
          (if x <? y then
             tmp ← a_get j;
             z ← a_get (j + 1);
             a_set j z;;
             a_set (j + 1) tmp
           else mret tt);;
          mret (inl (j + 1))
        else mret (inr tt)) 0;;
      mret (inl (i + 1))
    else mret (inr tt)) 0.

(** ** Accesses to a decomposed array *)

Lemma znth_app p x q i : i = Z.of_nat (length p) → znth (p ++ x :: q) i = Some x.
Proof.
  intros ->. unfold znth. rewrite (proj2 (Z.ltb_ge _ _)) by lia.
  rewrite Nat2Z.id. by apply list_lookup_middle.
Qed.

Lemma zset_app p x q i v : i = Z.of_nat (length p) → zset (p ++ x :: q) i v = Some (p ++ v :: q).
Proof.
  intros ->. unfold zset. rewrite length_app. simpl.
  rewrite (proj2 (Z.leb_le _ _)), (proj2 (Z.ltb_lt _ _)) by lia. simpl.
  rewrite Nat2Z.id. f_equal. replace (length p) with (length p + 0)%nat by lia.
  by rewrite insert_app_r.
Qed.

Lemma wp_a_get p x q i Q s :
  arr s = p ++ x :: q → i = Z.of_nat (length p) → Q x s → wp (a_get i) Q s.
Proof. intros Ha Hi HQ. eapply wp_gets_opt; [rewrite Ha; by apply znth_app|done]. Qed.
Lemma wp_t_get p x q i Q s :
  tmp s = p ++ x :: q → i = Z.of_nat (length p) → Q x s → wp (t_get i) Q s.
Proof. intros Ha Hi HQ. eapply wp_gets_opt; [rewrite Ha; by apply znth_app|done]. Qed.
Lemma wp_a_set p x q i v Q s :
  arr s = p ++ x :: q → i = Z.of_nat (length p) →
  Q tt (Arrays (p ++ v :: q) (tmp s)) → wp (a_set i v) Q s.
Proof.
  intros Ha Hi HQ. eapply wp_modify_opt; [|exact HQ]. cbv beta. by rewrite Ha, (zset_app _ _ _ _ _ Hi).
Qed.
Lemma wp_t_set p x q i v Q s :
  tmp s = p ++ x :: q → i = Z.of_nat (length p) →
  Q tt (Arrays (arr s) (p ++ v :: q)) → wp (t_set i v) Q s.
Proof.
  intros Ha Hi HQ. eapply wp_modify_opt; [|exact HQ]. cbv beta. by rewrite Ha, (zset_app _ _ _ _ _ Hi).
Qed.

Ltac zcase :=
  match goal with
  | |- context [?x <? ?y] => destruct (Z.ltb_spec x y)
  | |- context [?x <=? ?y] => destruct (Z.leb_spec x y)
  end.

(** ** Quick sort is a sort *)

(** Moving [j] down over elements that are not below the pivot. *)
Lemma wp_scan_down p M (x : Z) q s fuel i j Q :
  arr s = p ++ M ++ q → i = Z.of_nat (length p) - 1 → j = i + Z.of_nat (length M) →
  (length M < fuel)%nat →
  (∀ M1 M2, M = M1 ++ M2 → Forall (λ y, x ≤ y) M2 →
    (∀ M1' y, M1 = M1' ++ [y] → y < x) → Q (i + Z.of_nat (length M1)) s) →
  wp (loop fuel (λ j,
        if i <? j then
          y ← a_get j;
          if x <=? y then mret (inl (j - 1)) else mret (inr j)
        else mret (inr j)) j) Q s.
Proof.
  intros Ha Hi Hj Hfuel HQ.
  apply (wp_loop _ (λ n j s', s' = s ∧ ∃ M1 M2, M = M1 ++ M2 ∧ Forall (λ y, x ≤ y) M2 ∧
    n = length M1 ∧ j = i + Z.of_nat (length M1))) with (n := length M); [|split; [done|]|done].
  2: { exists M, []. by rewrite app_nil_r. }
  clear j Hj Hfuel. intros n j s' (->&M1&M2&HM&HF&->&->).
  zcase.
  - destruct M1 as [|y M1 _] using rev_ind; [simpl in *; lia|].
    wp_steps. apply (wp_a_get (p ++ M1) y (M2 ++ q)).
    { rewrite Ha, HM. by rewrite <- !app_assoc. }
    { len. }
    zcase; wp_steps.
    + exists (length M1). split; [len|]. split; [done|]. exists M1, (y :: M2).
      split_and!; [by rewrite HM, <- app_assoc|by constructor|done|len].
    + eapply HQ; [done|done|]. intros M1' y' [_ [= ->]]%app_inj_2; done.
  - wp_steps. eapply HQ; [done|done|]. intros M1' y ->. len.
Qed.

(** Moving [i] up over elements below the pivot. *)
Lemma wp_scan_up p M (x : Z) q s fuel i j Q :
  arr s = p ++ M ++ q → i = Z.of_nat (length p) → j = i + Z.of_nat (length M) →
  (length M < fuel)%nat →
  (∀ M1 M2, M = M1 ++ M2 → Forall (λ y, y < x) M1 →
    (∀ y M2', M2 = y :: M2' → x ≤ y) → Q (i + Z.of_nat (length M1)) s) →
  wp (loop fuel (λ i,
        if i <? j then
          y ← a_get i;
          if y <? x then mret (inl (i + 1)) else mret (inr i)
        else mret (inr i)) i) Q s.
Proof.
  intros Ha Hi Hj Hfuel HQ.
  apply (wp_loop _ (λ n i' s', s' = s ∧ ∃ M1 M2, M = M1 ++ M2 ∧ Forall (λ y, y < x) M1 ∧
    n = length M2 ∧ i' = i + Z.of_nat (length M1))) with (n := length M); [|split; [done|]|done].
  2: { exists [], M. simpl. split_and!; [done|done|done|lia]. }
  intros n i' s' (->&M1&M2&HM&HF&->&->).
  zcase.
  - destruct M2 as [|y M2]; [rewrite app_nil_r in HM; subst; lia|].
    wp_steps. apply (wp_a_get (p ++ M1) y (M2 ++ q)).
    { rewrite Ha, HM. by rewrite <- !app_assoc. }
    { len. }
    zcase; wp_steps.
    + exists (length M2). split; [len|]. split; [done|]. exists (M1 ++ [y]), M2.
      split_and!; [by rewrite HM, <- app_assoc|by apply Forall_app; auto|done|len].
    + eapply HQ; [done|done|]. intros y' M2' [= -> ->]. done.
  - wp_steps. eapply HQ; [done|done|]. intros y M2' ->. rewrite HM in Hj. len.
Qed.

Lemma wp_adjust_array pre x rest post t fuel left right Q :
  left = Z.of_nat (length pre) → right = left + Z.of_nat (length rest) →
  (length rest < fuel)%nat →
  (∀ l r, Forall (λ y, y < x) l → Forall (λ y, x ≤ y) r → l ++ x :: r ≡ₚ x :: rest →
    Q (left + Z.of_nat (length l)) (Arrays (pre ++ l ++ x :: r ++ post) t)) →
  wp (adjust_array fuel left right) Q (Arrays (pre ++ x :: rest ++ post) t).
Proof.
  intros Hl Hr Hfuel HQ. unfold adjust_array. wp_steps.
  eapply (wp_a_get pre x); [done|done|]. wp_steps.
  eapply (wp_loop _ (λ n '(i, j) s, ∃ l h M r,
    s = Arrays (pre ++ l ++ h :: M ++ r ++ post) t ∧
    i = left + Z.of_nat (length l) ∧ j = i + Z.of_nat (length M) ∧ n = length M ∧
    (length M < fuel)%nat ∧
    Forall (λ y, y < x) l ∧ Forall (λ y, x ≤ y) r ∧ l ++ x :: M ++ r ≡ₚ x :: rest))
    with (n := length rest); [| |done].
  2: { exists [], x, rest, []. rewrite app_nil_r. simpl. split_and!; try done. lia. }
  intros n [i j] s (l&h&M&r&->&Hi&Hj&->&Hfu&HFl&HFr&HP).
  zcase.
  2: { destruct M; [|len]. wp_steps. simpl in *.
       eapply (wp_a_set (pre ++ l) h (r ++ post)); [by rewrite <- app_assoc|len|].
       wp_steps. rewrite <- app_assoc. simpl. subst i. by apply HQ. }
  wp_steps. apply (wp_scan_down (pre ++ l ++ [h]) M x (r ++ post)); simpl.
  { by rewrite <- !app_assoc. } { len. } { done. } { done. }
  intros M1 M2 -> HF2 Hlast.
  destruct M1 as [|y M1 _] using rev_ind.
  { rewrite (proj2 (Z.ltb_ge i (i + _))) by len. wp_steps.
    destruct fuel as [|fuel]; [lia|]. simpl loop.
    rewrite (proj2 (Z.ltb_ge i (i + _))) by len. wp_steps.
    rewrite (proj2 (Z.ltb_ge i (i + _))) by len. wp_steps.
    exists 0%nat. split; [len|]. exists l, h, [], (M2 ++ r). simpl.
    split_and!; [by rewrite <- !app_assoc|done|len|done|len|done|by apply Forall_app|done]. }
  specialize (Hlast _ _ eq_refl).
  rewrite (proj2 (Z.ltb_lt i (i + _))) by len. wp_steps.
  apply (wp_a_get (pre ++ l ++ h :: M1) y (M2 ++ r ++ post)).
  { simpl. by rewrite <- !app_assoc. } { len. }
  wp_steps. apply (wp_a_set (pre ++ l) h (M1 ++ y :: M2 ++ r ++ post)).
  { simpl. by rewrite <- !app_assoc. } { len. }
  simpl. wp_steps.
  apply (wp_scan_up (pre ++ l ++ [y]) M1 x (y :: M2 ++ r ++ post)); simpl.
  { by rewrite <- !app_assoc. } { len. } { len. } { len. }
  intros N1 N2 -> HF1 Hfirst. destruct N2 as [|z N2].
  { rewrite app_nil_r in *. rewrite (proj2 (Z.ltb_ge _ _)) by len. wp_steps.
    exists 0%nat. split; [len|]. exists (l ++ y :: N1), y, [], (M2 ++ r). simpl.
    split_and!; [by rewrite <- !app_assoc|len|len|done|len|apply Forall_app; by auto
      |by apply Forall_app|].
    rewrite <- HP, <- !app_assoc. simpl. solve_Permutation. }
  specialize (Hfirst _ _ eq_refl).
  rewrite (proj2 (Z.ltb_lt _ _)) by len. wp_steps.
  apply (wp_a_get (pre ++ l ++ y :: N1) z (N2 ++ y :: M2 ++ r ++ post)).
  { simpl. by rewrite <- !app_assoc. } { len. }
  wp_steps. apply (wp_a_set (pre ++ l ++ y :: N1 ++ z :: N2) y (M2 ++ r ++ post)).
  { simpl. rewrite <- !app_assoc. simpl. by rewrite <- !app_assoc. } { len. }
  simpl. wp_steps.
  exists (length N2). split; [len|]. exists (l ++ y :: N1), z, N2, (z :: M2 ++ r).
  split_and!; [|len|len|done|len|apply Forall_app; by auto
    |constructor; [done|by apply Forall_app]|].
  - by app_norm.
  - rewrite <- HP. app_norm. solve_Permutation.
Qed.

Lemma sorted_pivot l x r :
  StronglySorted Z.le l → StronglySorted Z.le r →
  Forall (λ y, y < x) l → Forall (λ y, x ≤ y) r → StronglySorted Z.le (l ++ x :: r).
Proof.
  rewrite !Forall_forall. intros Hl Hr Hlx Hrx. apply StronglySorted_app_2; [|done|].
  - intros y z Hy [->|Hz]%elem_of_cons; [specialize (Hlx _ Hy); lia|].
    specialize (Hlx _ Hy). specialize (Hrx _ Hz). lia.
  - constructor; [done|]. by apply Forall_forall.
Qed.

Lemma Forall_Permutation_iff {A} (P : A → Prop) l l' : l ≡ₚ l' → Forall P l → Forall P l'.
Proof. intros Hp. by rewrite Hp. Qed.

Lemma wp__quick_sort fuel pre seg post t left right Q :
  left = Z.of_nat (length pre) → right = left + Z.of_nat (length seg) - 1 →
  (length seg < fuel)%nat →
  (∀ seg', StronglySorted Z.le seg' → seg' ≡ₚ seg → Q tt (Arrays (pre ++ seg' ++ post) t)) →
  wp (_quick_sort fuel left right) Q (Arrays (pre ++ seg ++ post) t).
Proof.
  revert pre seg post left right Q.
  induction fuel as [|fuel IH]; intros pre seg post left right Q Hl Hr Hf HQ; [lia|].
  cbn [_quick_sort]. zcase.
  2: { wp_steps. apply HQ; [|done]. destruct seg as [|x [|y seg]].
       - constructor.
       - repeat constructor.
       - len. }
  destruct seg as [|x rest]; [len|]. wp_steps.
  eapply wp_adjust_array; [done|len|len|]. intros l r Hlx Hrx Hp. wp_steps.
  pose proof (Permutation_length Hp) as Hlen.
  eapply (IH pre l (x :: r ++ post)); [done|len|len|]. intros l' Hsl Hpl. wp_steps.
  pose proof (Permutation_length Hpl) as Hlen'.
  replace (pre ++ l' ++ x :: r ++ post) with ((pre ++ l' ++ [x]) ++ r ++ post) by by app_norm.
  eapply IH; [len|len|len|]. intros r' Hsr Hpr.
  replace ((pre ++ l' ++ [x]) ++ r' ++ post) with (pre ++ (l' ++ x :: r') ++ post) by by app_norm.
  apply HQ.
  - apply sorted_pivot; [done|done|by eapply Forall_Permutation_iff|by eapply Forall_Permutation_iff].
  - by rewrite <- Hp, Hpl, Hpr.
Qed.

(** C14: quick sort.  For every array (of any length, with repetitions), the
    in-place partition recursion ends, stays inside the array, and leaves a
    sorted permutation of it. *)
Theorem quick_sort_sorts a t fuel :
  (length a < fuel)%nat →
  wp (quick_sort fuel (Z.of_nat (length a)))
    (λ _ s, Sorted Z.le (arr s) ∧ arr s ≡ₚ a ∧ tmp s = t) (Arrays a t).
Proof.
  intros Hf. pose proof (wp__quick_sort fuel [] a [] t) as H.
  rewrite app_nil_r in H. apply H; [done|lia|done|].
  intros a' Hs Hp. simpl. rewrite app_nil_r. split_and!; [|done|done].
  by apply StronglySorted_Sorted.
Qed.

Lemma quick_sort_sorts_witness :
  (length [3; 1; 2; 3; 0] < 6)%nat ∧
  wp (quick_sort 6 5) (λ _ s, Sorted Z.le (arr s) ∧ arr s ≡ₚ [3; 1; 2; 3; 0] ∧ tmp s = [])
    (Arrays [3; 1; 2; 3; 0] []).
Proof. split; [simpl; lia|]. apply (quick_sort_sorts [3; 1; 2; 3; 0] [] 6). simpl; lia. Defined.

(** ** Merge sort *)

Abbreviation merged := (list_merge Z.le).

(** The first loop: [temp] receives the merge of the two runs until one is used up. *)
Lemma wp_merge_loop pre A B post fuel t i j m n Q :
  i = Z.of_nat (length pre) → j = i + Z.of_nat (length A) →
  m = j - 1 → n = j + Z.of_nat (length B) - 1 →
  (length A + length B < fuel)%nat → (length A + length B ≤ length t)%nat →
  (∀ A1 A2 B1 B2 T R, A = A1 ++ A2 → B = B1 ++ B2 → A2 = [] ∨ B2 = [] →
     merged A B = T ++ A2 ++ B2 → length T = (length A1 + length B1)%nat →
     length (T ++ R) = length t → R = drop (length T) t →
     Q (i + Z.of_nat (length A1), j + Z.of_nat (length B1), Z.of_nat (length T))
       (Arrays (pre ++ A ++ B ++ post) (T ++ R))) →
  wp (loop fuel (λ '(i, j, k),
        if (i <=? m) && (j <=? n) then
          x ← a_get i;
          y ← a_get j;
          if x <=? y then
            x ← a_get i; t_set k x;; mret (inl (i + 1, j, k + 1))
          else
            y ← a_get j; t_set k y;; mret (inl (i, j + 1, k + 1))
        else mret (inr (i, j, k))) (i, j, 0)) Q (Arrays (pre ++ A ++ B ++ post) t).
Proof.
  intros Hi Hj Hm Hn Hf Ht HQ.
  apply (wp_loop _ (λ n '(i', j', k) s, ∃ A1 A2 B1 B2 T R,
    s = Arrays (pre ++ A ++ B ++ post) (T ++ R) ∧ A = A1 ++ A2 ∧ B = B1 ++ B2 ∧
    i' = i + Z.of_nat (length A1) ∧ j' = j + Z.of_nat (length B1) ∧ k = Z.of_nat (length T) ∧
    n = (length A2 + length B2)%nat ∧ merged A B = T ++ merged A2 B2 ∧
    length T = (length A1 + length B1)%nat ∧ length (T ++ R) = length t ∧ R = drop (length T) t))
    with (n := (length A + length B)%nat); [| |done].
  2: { exists [], A, [], B, [], t. simpl. split_and!; try done; lia. }
  intros n' [[i' j'] k] s (A1&A2&B1&B2&T&R&->&HA&HB&->&->&->&->&HM&HT&HTR&HR).
  destruct A2 as [|x A2].
  { rewrite (proj2 (Z.leb_gt _ m)) by (rewrite HA in *; len). simpl. wp_steps.
    rewrite list_merge_nil_l in HM. eapply HQ; [done|done|by left|done|done|done|done]. }
  destruct B2 as [|y B2].
  { rewrite (proj2 (Z.leb_gt _ n)) by (rewrite HB in *; len). rewrite andb_false_r. wp_steps.
    rewrite list_merge_nil_r in HM. eapply HQ; [done|done|by right|by rewrite app_nil_r|done..]. }
  rewrite !(proj2 (Z.leb_le _ _)) by (rewrite HA, HB in *; len). simpl. wp_steps.
  eapply (wp_a_get (pre ++ A1) x (A2 ++ B ++ post)); [rewrite HA; by app_norm|len|]. wp_steps.
  eapply (wp_a_get (pre ++ A ++ B1) y (B2 ++ post)); [rewrite HB; by app_norm|len|].
  destruct R as [|r R]; [rewrite HA, HB in *; len|].
  assert (R = drop (S (length T)) t) as HR'.
  { replace (S (length T)) with (length T + 1)%nat by lia. by rewrite <- drop_drop, <- HR. }
  rewrite list_merge_cons in HM. zcase.
  - rewrite decide_True in HM by done. wp_steps.
    eapply (wp_a_get (pre ++ A1) x (A2 ++ B ++ post)); [rewrite HA; by app_norm|len|]. wp_steps.
    eapply (wp_t_set T r R); [done|len|]. wp_steps. simpl.
    exists (length A2 + S (length B2))%nat. split; [len|].
    exists (A1 ++ [x]), A2, B1, (y :: B2), (T ++ [x]), R.
    split_and!; [by app_norm|rewrite HA; by app_norm|done|len|len|len|len|rewrite HM; by app_norm|len|len|].
    rewrite HR'. f_equal. len.
  - rewrite decide_False in HM by lia. wp_steps.
    eapply (wp_a_get (pre ++ A ++ B1) y (B2 ++ post)); [rewrite HB; by app_norm|len|]. wp_steps.
    eapply (wp_t_set T r R); [done|len|]. wp_steps. simpl.
    exists (S (length A2) + length B2)%nat. split; [len|].
    exists A1, (x :: A2), (B1 ++ [y]), B2, (T ++ [y]), R.
    split_and!; [by app_norm|done|rewrite HB; by app_norm|len|len|len|len|rewrite HM; by app_norm|len|len|].
    rewrite HR'. f_equal. len.
Qed.

Lemma wp_copy_run pre A post T R m i k fuel Q s :
  s = Arrays (pre ++ A ++ post) (T ++ R) →
  i = Z.of_nat (length pre) → k = Z.of_nat (length T) → m = i + Z.of_nat (length A) - 1 →
  (length A < fuel)%nat → (length A ≤ length R)%nat →
  Q (i + Z.of_nat (length A), k + Z.of_nat (length A))
    (Arrays (pre ++ A ++ post) (T ++ A ++ drop (length A) R)) →
  wp (copy_run fuel m (i, k)) Q s.
Proof.
  intros -> Hi Hk Hm Hf HR HQ. unfold copy_run.
  apply (wp_loop _ (λ n '(i', k') s, ∃ A1 A2, A = A1 ++ A2 ∧ n = length A2 ∧
    i' = i + Z.of_nat (length A1) ∧ k' = k + Z.of_nat (length A1) ∧
    s = Arrays (pre ++ A ++ post) (T ++ A1 ++ drop (length A1) R))) with (n := length A);
    [|exists [], A|done].
  2: { simpl. rewrite drop_0. split_and!; done || lia. }
  intros n [i' k'] s (A1&A2&HA&->&->&->&->). destruct A2 as [|x A2].
  - rewrite app_nil_r in HA. subst A1. rewrite (proj2 (Z.leb_gt _ _)) by lia. by wp_steps.
  - rewrite (proj2 (Z.leb_le _ _)) by (rewrite HA in *; len). wp_steps.
    eapply (wp_a_get (pre ++ A1) x (A2 ++ post)); [rewrite HA; by app_norm|len|]. wp_steps.
    destruct (drop (length A1) R) as [|r R'] eqn:E.
    { apply (f_equal length) in E. rewrite HA in *. len. }
    eapply (wp_t_set (T ++ A1) r R'); [by app_norm|len|]. wp_steps.
    exists (length A2). split; [len|]. exists (A1 ++ [x]), A2.
    split_and!; [rewrite HA; by app_norm|done|len|len|]. simpl. f_equal. app_norm.
    rewrite length_app, <- drop_drop, E. done.
Qed.

Lemma wp_copy_back pre X post Y R fuel first k Q s :
  s = Arrays (pre ++ X ++ post) (Y ++ R) → length X = length Y →
  first = Z.of_nat (length pre) → k = Z.of_nat (length Y) → (length Y < fuel)%nat →
  Q tt (Arrays (pre ++ Y ++ post) (Y ++ R)) →
  wp (loop fuel (λ i,
    if i <? k then
      x ← t_get i;
      a_set (first + i) x;;
      mret (inl (i + 1))
    else mret (inr tt)) 0) Q s.
Proof.
  intros -> Hlen Hfirst Hk Hf HQ.
  apply (wp_loop _ (λ n i s, ∃ Y1 Y2 X2, Y = Y1 ++ Y2 ∧ length X2 = length Y2 ∧
    n = length Y2 ∧ i = Z.of_nat (length Y1) ∧
    s = Arrays (pre ++ Y1 ++ X2 ++ post) (Y ++ R))) with (n := length Y);
    [|by exists [], Y, X|done].
  intros n i s (Y1&Y2&X2&HY&HX&->&->&->). destruct Y2 as [|y Y2].
  - rewrite app_nil_r in HY. subst Y1. rewrite (proj2 (Z.ltb_ge _ _)) by lia. wp_steps.
    by destruct X2.
  - rewrite (proj2 (Z.ltb_lt _ _)) by (rewrite HY in *; len). wp_steps.
    eapply (wp_t_get Y1 y (Y2 ++ R)); [rewrite HY; by app_norm|done|]. wp_steps.
    destruct X2 as [|x X2]; [done|].
    eapply (wp_a_set (pre ++ Y1) x (X2 ++ post)); [by app_norm|len|]. wp_steps.
    exists (length Y2). split; [len|]. exists (Y1 ++ [y]), Y2, X2.
    split_and!; [rewrite HY; by app_norm|simpl in HX; lia|done|len|by app_norm].
Qed.

(** [mergearray] computes the merge of the two adjacent runs, in place, and
    leaves it at the front of [temp] too. *)
Lemma wp_mergearray pre A B post t fuel first mid last Q :
  first = Z.of_nat (length pre) → mid = first + Z.of_nat (length A) - 1 →
  last = mid + Z.of_nat (length B) →
  (length A + length B < fuel)%nat → (length A + length B ≤ length t)%nat →
  Q tt (Arrays (pre ++ merged A B ++ post) (merged A B ++ drop (length A + length B) t)) →
  wp (mergearray fuel first mid last) Q (Arrays (pre ++ A ++ B ++ post) t).
Proof.
  intros Hfirst Hmid Hlast Hf Ht HQ. unfold mergearray. wp_steps.
  apply (wp_merge_loop pre A B post); [done|lia|lia|lia|done|done|].
  intros A1 A2 B1 B2 T R HA HB Hor HM HT HTR HR. wp_steps.
  assert (length R = length t - length T)%nat as HlR by (rewrite HR; len).
  assert (length (merged A B) = length A + length B)%nat as HlM.
  { rewrite merge_Permutation. len. }
  assert (drop (length A + length B) t = drop (length (A2 ++ B2)) R) as Hdrop.
  { rewrite HR, drop_drop. f_equal. rewrite HA, HB. len. }
  eapply (wp_copy_run (pre ++ A1) A2 (B ++ post) T R);
    [f_equal; rewrite HA; by app_norm|len|done|rewrite HA in *; len|rewrite HA in *; len|rewrite HA, HB in *; len|].
  wp_steps.
  eapply (wp_copy_run (pre ++ A ++ B1) B2 post (T ++ A2) (drop (length A2) R));
    [f_equal; [rewrite HA, HB; by app_norm|by app_norm]|rewrite HA in *; len|len|rewrite HB in *; len
    |rewrite HB in *; len|rewrite HA, HB in *; len|].
  wp_steps.
  eapply (wp_copy_back pre (A ++ B) post (merged A B) (drop (length A + length B) t));
    [|len|done| |lia|exact HQ].
  - f_equal; [rewrite HB; by app_norm|]. rewrite HM, Hdrop, length_app, drop_drop. by app_norm.
  - rewrite HlM, HA, HB. len.
Qed.

(** ** The merge into a third array *)

Lemma wp_c_set p x q k v Q c : c = p ++ x :: q → k = Z.of_nat (length p) → Q tt (p ++ v :: q) → wp (c_set k v) Q c.
Proof. intros -> Hk HQ. eapply wp_modify_opt; [by apply zset_app|done]. Qed.

Lemma wp_c_copy fuel A1 A2 T R Q : (length A2 < fuel)%nat → (length A2 ≤ length R)%nat →
  Q (Z.of_nat (length (A1 ++ A2)), Z.of_nat (length (T ++ A2))) ((T ++ A2) ++ drop (length A2) R) →
  wp (c_copy fuel (A1 ++ A2) (Z.of_nat (length (A1 ++ A2))) (Z.of_nat (length A1), Z.of_nat (length T))) Q (T ++ R).
Proof.
  revert A1 T R fuel. induction A2 as [|x A2 IH]; intros A1 T R fuel Hf HR HQ; (destruct fuel as [|fuel]; [simpl in *; lia|]).
  - rewrite app_nil_r in *. unfold c_copy. simpl. rewrite Z.ltb_irrefl. wp_steps. by rewrite app_nil_r in HQ.
  - unfold c_copy. simpl loop. rewrite (proj2 (Z.ltb_lt _ _)) by len. destruct R as [|r R]; [simpl in HR; lia|].
    apply wp_bind, wp_bind. eapply wp_gets_opt; [by apply znth_app|]. apply wp_bind. eapply wp_c_set; [done|done|]. wp_steps.
    specialize (IH (A1 ++ [x]) (T ++ [x]) R fuel). rewrite <- !app_assoc in IH. simpl in IH.
    replace (Z.of_nat (length A1) + 1) with (Z.of_nat (length (A1 ++ [x]))) by len.
    replace (Z.of_nat (length T) + 1) with (Z.of_nat (length (T ++ [x]))) by len.
    apply IH; [simpl in Hf; lia|simpl in HR; lia|]. simpl in HQ. by rewrite <- app_assoc in HQ.
Qed.

Lemma wp_copy_both fuel A1 A2 B1 B2 T R Q :
  (length A2 + length B2 < fuel)%nat → (length A2 + length B2 ≤ length R)%nat →
  Q tt ((T ++ A2 ++ B2) ++ drop (length A2 + length B2) R) →
  wp (ik ← c_copy fuel (A1 ++ A2) (Z.of_nat (length (A1 ++ A2))) (Z.of_nat (length A1), Z.of_nat (length T));
      let '(i, k) := ik in
      c_copy fuel (B1 ++ B2) (Z.of_nat (length (B1 ++ B2))) (Z.of_nat (length B1), k);;
      mret tt) Q (T ++ R).
Proof.
  intros Hf HR HQ. wp_steps. apply wp_c_copy; [lia|lia|]. cbv beta iota. wp_steps.
  apply wp_c_copy; [lia|rewrite length_drop; lia|]. wp_steps. by rewrite drop_drop, <- !app_assoc in *.
Qed.

(** [merge_array] puts the merge of its arrays at the start of the third; of two
    elements that are equal, the one of the second array comes first. *)
Lemma merge_array_spec fuel A B c : (length A + length B < fuel)%nat → (length A + length B ≤ length c)%nat →
  wp (merge_array fuel A (Z.of_nat (length A)) B (Z.of_nat (length B)))
    (λ _ c', c' = merged B A ++ drop (length A + length B) c) c.
Proof.
  intros Hf Hc. unfold merge_array. apply wp_bind.
  eapply (wp_loop _ (λ n '(i, j, k) s, ∃ A1 A2 B1 B2 T R,
    s = T ++ R ∧ A = A1 ++ A2 ∧ B = B1 ++ B2 ∧ i = Z.of_nat (length A1) ∧ j = Z.of_nat (length B1) ∧
    k = Z.of_nat (length T) ∧ (n = length A2 + length B2)%nat ∧ merged B A = T ++ merged B2 A2 ∧
    (length A2 + length B2 ≤ length R)%nat ∧ drop (length A2 + length B2) R = drop (length A + length B) c))
    with (n := (length A + length B)%nat); [| |done].
  2: { exists [], A, [], B, [], c. split_and!; done. }
  intros n [[i j] k] s (A1&A2&B1&B2&T&R&->&->&->&->&->&->&->&HM&HR&HD).
  destruct (decide (A2 = [] ∨ B2 = [])) as [Hnil|Hnil].
  { replace ((Z.of_nat (length A1) <? Z.of_nat (length (A1 ++ A2))) && (Z.of_nat (length B1) <? Z.of_nat (length (B1 ++ B2)))) with false.
    2: { symmetry. apply andb_false_iff. rewrite !Z.ltb_ge. destruct Hnil as [-> | ->]; [left|right]; len. }
    apply wp_ret. cbv beta iota. rewrite HM, <- HD. replace (merged B2 A2) with (A2 ++ B2).
    - apply wp_copy_both; [len|done|done].
    - destruct Hnil as [-> | ->]; [by rewrite list_merge_nil_r|by rewrite list_merge_nil_l, app_nil_r]. }
  destruct A2 as [|x A2]; [by destruct Hnil; left|]. destruct B2 as [|y B2]; [by destruct Hnil; right|].
  rewrite !(proj2 (Z.ltb_lt _ _)) by len. simpl. destruct R as [|r R]; [simpl in HR; lia|].
  apply wp_bind. eapply wp_gets_opt; [by apply znth_app|].
  apply wp_bind. eapply wp_gets_opt; [by apply znth_app|].
  rewrite list_merge_cons in HM. simpl in HR, HD. rewrite Nat.add_succ_r in HD. destruct (Z.ltb_spec x y) as [Hxy|Hxy].
  - rewrite decide_False in HM by lia. apply wp_bind. eapply wp_c_set; [done|done|]. wp_steps.
    exists (length A2 + S (length B2))%nat. split; [simpl; lia|]. exists (A1 ++ [x]), A2, B1, (y :: B2), (T ++ [x]), R.
    rewrite <- !app_assoc. simpl. rewrite Nat.add_succ_r. split_and!; done || len.
  - rewrite decide_True in HM by done. apply wp_bind. eapply wp_c_set; [done|done|]. wp_steps.
    exists (S (length A2) + length B2)%nat. split; [simpl; lia|]. exists A1, (x :: A2), (B1 ++ [y]), B2, (T ++ [y]), R.
    rewrite <- !app_assoc. simpl. split_and!; done || len.
Qed.

Lemma list_merge_sorted A B :
  StronglySorted Z.le A → StronglySorted Z.le B → StronglySorted Z.le (merged A B).
Proof.
  intros HA%StronglySorted_Sorted HB%StronglySorted_Sorted.
  apply (Sorted_StronglySorted _). apply (Sorted_list_merge _); done.
Qed.

Lemma drop_mono {A} (k n : nat) (l l' : list A) :
  drop k l = drop k l' → (k ≤ n)%nat → drop n l = drop n l'.
Proof.
  intros Hd Hk. replace n with (k + (n - k))%nat by lia. by rewrite <- !drop_drop, Hd.
Qed.

Lemma wp__merge_sort fuel pre seg post t first last Q :
  first = Z.of_nat (length pre) → last = first + Z.of_nat (length seg) - 1 →
  (length seg < fuel)%nat → (length seg ≤ length t)%nat →
  Z.of_nat (length pre + length seg) ≤ 2 ^ 30 →
  (∀ seg' t', StronglySorted Z.le seg' → seg' ≡ₚ seg → length t' = length t →
    drop (length seg) t' = drop (length seg) t →
    ((2 ≤ length seg)%nat → take (length seg) t' = seg') →
    Q tt (Arrays (pre ++ seg' ++ post) t')) →
  wp (_merge_sort fuel first last) Q (Arrays (pre ++ seg ++ post) t).
Proof.
  revert pre seg post t first last Q.
  induction fuel as [|fuel IH]; intros pre seg post t first last Q Hfi Hla Hf Ht Hmax HQ; [lia|].
  cbn [_merge_sort]. zcase.
  2: { wp_steps. apply HQ; [|done|done|done|lia]. destruct seg as [|x [|y seg]].
       - constructor.
       - repeat constructor.
       - len. }
  unfold int_add. rewrite (proj2 (Z.leb_le _ _)), (proj2 (Z.ltb_lt _ _)) by lia. simpl.
  wp_steps. rewrite Z.quot_div_nonneg by lia.
  assert (first ≤ (first + last) / 2 < last) as Hmid.
  { split; [apply Z.div_le_lower_bound; lia|apply Z.div_lt_upper_bound; lia]. }
  set (mid := (first + last) / 2) in *.
  set (na := Z.to_nat (mid - first + 1)).
  rewrite <- (take_drop na seg). set (A := take na seg). set (B := drop na seg).
  assert (length A = na ∧ length B = length seg - na)%nat as [HA HB] by (unfold A, B; len).
  assert (A ++ B = seg) as HAB by (unfold A, B; by rewrite take_drop).
  rewrite <- (app_assoc A B post).
  eapply (IH pre A (B ++ post)); [done|lia|lia|lia|lia|].
  intros A' t1 HsA HpA Hl1 Hd1 _. pose proof (Permutation_length HpA). wp_steps.
  rewrite (app_assoc pre A').
  eapply IH; [len|lia|lia|lia|len|].
  intros B' t2 HsB HpB Hl2 Hd2 _. pose proof (Permutation_length HpB).
  rewrite <- (app_assoc pre A').
  eapply wp_mergearray; [done|lia|lia|lia|lia|].
  assert (length (merged A' B') = length seg)%nat as HlM
    by (rewrite merge_Permutation; len).
  replace (length A' + length B')%nat with (length seg) by lia.
  apply HQ.
  - by apply list_merge_sorted.
  - by rewrite merge_Permutation, HpA, HpB, HAB.
  - len.
  - rewrite drop_app_length' by done.
    rewrite (drop_mono (length B) _ t2 t1), (drop_mono (length A) _ t1 t); done || lia.
  - intros _. by rewrite take_app_length'.
Qed.

(** C15: merge sort.  For every array of at most 2^30 elements the recursion ends
    with no access out of bounds and no signed overflow in the midpoint, the
    array holds a sorted permutation of its contents, and, from two elements on,
    the returned buffer holds the same sorted sequence. *)
Theorem merge_sort_sorts a res fuel :
  Z.of_nat (length a) ≤ 2 ^ 30 → length res = length a → (length a < fuel)%nat →
  wp (merge_sort fuel res (Z.of_nat (length a)))
    (λ r a', Sorted Z.le a' ∧ a' ≡ₚ a ∧ length r = length a ∧
      ((2 ≤ length a)%nat → r = a')) a.
Proof.
  intros Hmax Hres Hf.
  pose proof (wp__merge_sort fuel [] a [] res 0 (Z.of_nat (length a) - 1)
    (λ _ s, Sorted Z.le (arr s) ∧ arr s ≡ₚ a ∧ length (tmp s) = length a ∧
      ((2 ≤ length a)%nat → tmp s = arr s))) as H.
  rewrite app_nil_r in H. unfold wp, merge_sort in *.
  destruct (_merge_sort _ _ _ _) as [[[] s]| | | | |]; apply H; try done; try lia.
  all: intros seg' t' Hs Hp Hl Hd Ht; rewrite app_nil_r; simpl.
  all: split_and!; [by apply StronglySorted_Sorted|done|lia|].
  all: intros H2; specialize (Ht H2); rewrite <- Ht; symmetry; apply take_ge; lia.
Qed.

Lemma merge_sort_sorts_witness :
  Z.of_nat (length [3; 1; 2; 3; 0]) ≤ 2 ^ 30 ∧
  wp (merge_sort 6 [9; 9; 9; 9; 9] 5)
    (λ r a', Sorted Z.le a' ∧ a' ≡ₚ [3; 1; 2; 3; 0] ∧ length r = 5%nat ∧
      ((2 ≤ 5)%nat → r = a')) [3; 1; 2; 3; 0].
Proof.
  split; [simpl; lia|].
  apply (merge_sort_sorts [3; 1; 2; 3; 0] [9; 9; 9; 9; 9] 6); [simpl; lia|done|simpl; lia].
Defined.

(** ** Bubble sort *)

(** One pass carries the greatest element of the unsorted prefix to its end. *)
Lemma wp_bubble_pass x P S t fuel b Q :
  b = Z.of_nat (length P) → (length P < fuel)%nat →
  (∀ L m, L ++ [m] ≡ₚ x :: P → Forall (λ y, y ≤ m) L → Q tt (Arrays (L ++ m :: S) t)) →
  wp (loop fuel (λ j,
        if j <? b then
          x ← a_get (j + 1);
          y ← a_get j;
          (if x <? y then
             tmp ← a_get j;
             z ← a_get (j + 1);
             a_set j z;;
             a_set (j + 1) tmp
           else mret tt);;
          mret (inl (j + 1))
        else mret (inr tt)) 0) Q (Arrays (x :: P ++ S) t).
Proof.
  intros Hb Hf HQ.
  apply (wp_loop _ (λ n j s, ∃ L m R, s = Arrays (L ++ m :: R ++ S) t ∧
    j = Z.of_nat (length L) ∧ n = length R ∧ L ++ m :: R ≡ₚ x :: P ∧
    Forall (λ y, y ≤ m) L)) with (n := length P); [|by exists [], x, P|done].
  intros n j s (L&m&R&->&->&->&HP&HL). pose proof (Permutation_length HP) as Hlen.
  destruct R as [|y R].
  { rewrite (proj2 (Z.ltb_ge _ _)) by len. wp_steps. by apply HQ. }
  rewrite (proj2 (Z.ltb_lt _ _)) by len. wp_steps.
  eapply (wp_a_get (L ++ [m]) y (R ++ S)); [by app_norm|len|]. wp_steps.
  eapply (wp_a_get L m); [done|done|]. wp_steps.
  destruct (Z.ltb_spec y m); wp_steps.
  - eapply (wp_a_get L m); [done|done|]. wp_steps.
    eapply (wp_a_get (L ++ [m]) y (R ++ S)); [by app_norm|len|]. wp_steps.
    eapply (wp_a_set L m); [done|done|]. simpl.
    eapply (wp_a_set (L ++ [y]) y (R ++ S)); [by app_norm|len|]. wp_steps. simpl.
    exists (length R). split; [len|]. exists (L ++ [y]), m, R.
    split_and!; [by app_norm|len|done| |].
    + rewrite <- HP. app_norm. solve_Permutation.
    + apply Forall_app. split; [done|]. constructor; [lia|done].
  - exists (length R). split; [len|]. exists (L ++ [m]), y, R.
    split_and!; [by app_norm|len|done|by rewrite <- HP, <- app_assoc|].
    apply Forall_app. split; [|by constructor].
    eapply Forall_impl; [done|]. simpl. lia.
Qed.

(** C16: bubble sort.  It ends after at most n - 1 passes, stays inside the
    array, and leaves a sorted permutation of it. *)
Theorem bubble_sort_sorts a t fuel :
  (length a < fuel)%nat →
  wp (bubble_sort fuel (Z.of_nat (length a)))
    (λ _ s, Sorted Z.le (arr s) ∧ arr s ≡ₚ a ∧ tmp s = t) (Arrays a t).
Proof.
  intros Hf. unfold bubble_sort.
  apply (wp_loop _ (λ n i s, ∃ P S, s = Arrays (P ++ S) t ∧ i = Z.of_nat (length S) ∧
    n = length P ∧ P ++ S ≡ₚ a ∧ StronglySorted Z.le S ∧
    ∀ x y, x ∈ P → y ∈ S → x ≤ y)) with (n := length a); [| |done].
  2: { exists a, []. rewrite app_nil_r. split_and!; try done; [constructor|set_solver]. }
  intros n i s (P&S&->&->&->&HP&HS&HPS). pose proof (Permutation_length HP) as Hlen.
  zcase.
  - destruct P as [|x P]; [len|]. wp_steps.
    apply wp_bubble_pass; [len|len|]. intros L m HL HLm.
    pose proof (Permutation_length HL) as Hlen2. wp_steps.
    exists (length L). split; [len|]. exists L, (m :: S).
    assert (∀ z, z ∈ L ++ [m] → z ∈ x :: P) as Hin by (intros z; by rewrite HL).
    split_and!; [done|len|done| | |].
    + rewrite <- HP, <- HL. by app_norm.
    + constructor; [done|]. apply Forall_forall. intros y Hy. apply HPS; [|done].
      apply Hin. set_solver.
    + intros z y Hz [->|Hy]%elem_of_cons; [by eapply (proj1 (Forall_forall _ _) HLm)|].
      apply HPS; [|done]. apply Hin. set_solver.
  - wp_steps. simpl. split_and!; [|done|done]. apply StronglySorted_Sorted.
    destruct P as [|x [|x' P]]; simpl; [done| |len].
    constructor; [done|]. apply Forall_forall. intros y Hy. apply HPS; set_solver.
Qed.

Lemma bubble_sort_sorts_witness :
  (length [3; 1; 2; 3; 0] < 6)%nat ∧
  wp (bubble_sort 6 5) (λ _ s, Sorted Z.le (arr s) ∧ arr s ≡ₚ [3; 1; 2; 3; 0] ∧ tmp s = [])
    (Arrays [3; 1; 2; 3; 0] []).
Proof. split; [simpl; lia|]. apply (bubble_sort_sorts [3; 1; 2; 3; 0] [] 6). simpl; lia. Defined.
