(* ===== verification/Pool.v ===== *)
(** * Pool: the memory pool of src/pool/pool.c and pool.h

    A pool is a chain of blocks obtained from the block allocator of its
    factory; the pool structure itself lives at the start of its first block.
    Addresses are those of the LP64 layout of the structures, so that the casts
    of the code (a pool is its buffer, a node is its block) are equalities of
    addresses.  The state holds the live objects of the C heap, the list nodes
    ([Lists]), and the remaining fields of the pools, blocks and caching pools
    by address; freeing an object removes everything inside it, so that a use
    after free is an invalid access.

    The block allocator is an interface ([BlockPolicy]): Caching.v implements it
    with the default policy of policy.c. *)
From stdpp Require Import base tactics list numbers gmap fin_maps strings.
From S2P Require Import Prelude Lists.
Local Open Scope Z_scope.

(** ** Data *)

Definition sizeof_mdl_pool_block_t : Z := 40.
Definition sizeof_mdl_pool_t : Z := 104.
Definition POOL_ALIGNMENT : Z := 4.
Definition MAX_OBJ_NAME : nat := 32.

(** [&pool->block_head_list]. *)
Definition block_head_list (pool : Z) : Z := pool + 80.

(** A [mdl_pool_callback] by address (0 is NULL); what a user's callback does
    besides returning is not modelled: a call is an event of the state. *)
Definition mdl_pool_callback : Type := Z.

Record mdl_pool_factory_s := Factory {
  policy_block_free : bool;      (* policy.block_free is not NULL *)
  policy_callback : mdl_pool_callback;
  f_on_block_alloc : bool;       (* the slot holds cpool_on_block_alloc, not NULL *)
  f_on_block_free : bool;
  f_create_pool : bool;
  f_release_pool : bool;
}.

(** The fields of [mdl_pool_s] other than its two list nodes. *)
Record mdl_pool_s := Pool {
  pl_name : string;
  pl_capacity : Z;
  pl_increment_size : Z;
  pl_factory : Z;
  pl_data_factory : Z;
  pl_callback : mdl_pool_callback;
}.

(** The fields of [mdl_pool_block_s] other than [block_node_list]. *)
Record mdl_pool_block_s := Block { b_start : Z; b_current : Z; b_end : Z }.

(** The fields of [mdl_caching_pool_s] other than its list heads. *)
Record mdl_caching_pool_s := Cpool {
  cp_factory : mdl_pool_factory_s;
  cp_capacity : Z;
  cp_max_capacity : Z;
  cp_used_count : Z;
  cp_used_size : Z;
  cp_peak_used_size : Z;
  cp_locked : bool;
}.

(** The state: live objects (base address to size), list nodes, structures. *)
Record pool_state := PS {
  ps_objs : gmap Z Z;
  ps_nodes : gmap Z list_head;
  ps_pools : gmap Z mdl_pool_s;
  ps_blocks : gmap Z mdl_pool_block_s;
  ps_cpools : gmap Z mdl_caching_pool_s;
  ps_called : list (mdl_pool_callback * Z * Z);
}.

#[export] Program Instance pool_state_NodeHeap : NodeHeap pool_state := {|
  nodes := ps_nodes;
  with_nodes h t := PS (ps_objs t) h (ps_pools t) (ps_blocks t) (ps_cpools t) (ps_called t)
|}.
Solve Obligations with (intros; by repeat match goal with t : pool_state |- _ => destruct t end).

Definition with_pools f t :=
  PS (ps_objs t) (ps_nodes t) (f (ps_pools t)) (ps_blocks t) (ps_cpools t) (ps_called t).
Definition with_blocks f t :=
  PS (ps_objs t) (ps_nodes t) (ps_pools t) (f (ps_blocks t)) (ps_cpools t) (ps_called t).
Definition with_cpools f t :=
  PS (ps_objs t) (ps_nodes t) (ps_pools t) (ps_blocks t) (f (ps_cpools t)) (ps_called t).
Definition with_objs o t :=
  PS o (ps_nodes t) (ps_pools t) (ps_blocks t) (ps_cpools t) (ps_called t).

(** Field access: reading or writing a structure that is not there is undefined. *)
Definition pool_at (p : Z) : M pool_state mdl_pool_s := gets_opt (λ t, ps_pools t !! p).
Definition block_at (b : Z) : M pool_state mdl_pool_block_s := gets_opt (λ t, ps_blocks t !! b).
Definition cpool_at (c : Z) : M pool_state mdl_caching_pool_s := gets_opt (λ t, ps_cpools t !! c).
Definition pool_set (p : Z) (g : mdl_pool_s → mdl_pool_s) : M pool_state unit :=
  modify_opt (λ t, (λ P, with_pools (insert p (g P)) t) <$> ps_pools t !! p).
Definition block_set (b : Z) (g : mdl_pool_block_s → mdl_pool_block_s) : M pool_state unit :=
  modify_opt (λ t, (λ B, with_blocks (insert b (g B)) t) <$> ps_blocks t !! b).
Definition cpool_set (c : Z) (g : mdl_caching_pool_s → mdl_caching_pool_s) : M pool_state unit :=
  modify_opt (λ t, (λ C, with_cpools (insert c (g C)) t) <$> ps_cpools t !! c).

Definition set_capacity v P := Pool (pl_name P) v (pl_increment_size P) (pl_factory P) (pl_data_factory P) (pl_callback P).
Definition set_name v P := Pool v (pl_capacity P) (pl_increment_size P) (pl_factory P) (pl_data_factory P) (pl_callback P).
Definition set_increment v P := Pool (pl_name P) (pl_capacity P) v (pl_factory P) (pl_data_factory P) (pl_callback P).
Definition set_factory v P := Pool (pl_name P) (pl_capacity P) (pl_increment_size P) v (pl_data_factory P) (pl_callback P).
Definition set_data_factory v P := Pool (pl_name P) (pl_capacity P) (pl_increment_size P) (pl_factory P) v (pl_callback P).
Definition set_callback v P := Pool (pl_name P) (pl_capacity P) (pl_increment_size P) (pl_factory P) (pl_data_factory P) v.
Definition set_current v B := Block (b_start B) v (b_end B).

(** The region [a, a + n) lies in one live object. *)
Definition covered (objs : gmap Z Z) (a n : Z) : Prop :=
  map_Exists (λ o sz, o ≤ a ∧ a + n ≤ o + sz) objs.

(** Using live memory as a structure for the first time; its list node and
    fields have no meaningful value before they are assigned. *)
Definition cast_block (b : Z) : M pool_state unit :=
  modify_opt (λ t,
    if decide (covered (ps_objs t) b sizeof_mdl_pool_block_t)
    then Some (with_blocks (insert b (Block 0 0 0)) (with_nodes (<[b := Node 0 0]> (nodes t)) t))
    else None).
Definition cast_pool (p : Z) : M pool_state unit :=
  modify_opt (λ t,
    if decide (covered (ps_objs t) p sizeof_mdl_pool_t)
    then Some (with_pools (insert p (Pool "" 0 0 0 0 0))
      (with_nodes (<[p := Node 0 0]> (<[block_head_list p := Node 0 0]> (nodes t))) t))
    else None).

(** [free(mem)]: everything inside the object is gone. *)
Definition outside {A} (a n : Z) (m : gmap Z A) : gmap Z A :=
  filter (λ kv, ¬ (a ≤ kv.1 < a + n)) m.
Definition free_obj (mem : Z) : M pool_state unit :=
  modify_opt (λ t, (λ sz,
    PS (delete mem (ps_objs t)) (outside mem sz (ps_nodes t)) (outside mem sz (ps_pools t))
       (outside mem sz (ps_blocks t)) (ps_cpools t) (ps_called t)) <$> ps_objs t !! mem).

(** Calling a callback through a NULL pointer is undefined. *)
Definition call_callback (cb : mdl_pool_callback) (pool size : Z) : M pool_state unit :=
  modify_opt (λ t, if cb =? 0 then None else
    Some (PS (ps_objs t) (ps_nodes t) (ps_pools t) (ps_blocks t) (ps_cpools t)
             (ps_called t ++ [(cb, pool, size)]))).

(** ** The factory's block policy

    What pool.c relies on: [policy.block_alloc] returns NULL, or a live object
    of the requested size that overlaps no other and is aligned for any type;
    it leaves the pools alone.  [policy.block_free] frees an object. *)
Class BlockPolicy := {
  block_alloc : Z → Z → M pool_state Z;
  block_free : Z → Z → Z → M pool_state unit;
}.

(** [a, a + n) and [b, b + m) do not meet. *)
Definition apart (a n b m : Z) : Prop := a + n ≤ b ∨ b + m ≤ a.

(** The block [p] of [size] bytes is new in [t]. *)
Definition fresh_object (t : pool_state) (p size : Z) : Prop :=
  0 < p ∧ p mod 16 = 0 ∧ p + size < 2 ^ 63 ∧
  ∀ o sz, ps_objs t !! o = Some sz → apart p size o sz.

(** The fields the block policy may not touch. *)
Definition same_pools (t t' : pool_state) : Prop :=
  nodes t' = nodes t ∧ ps_pools t' = ps_pools t ∧ ps_blocks t' = ps_blocks t ∧
  ps_called t' = ps_called t.

Class BlockPolicyLaws `{BlockPolicy} := {
  (** What the policy needs of the state to serve the factory [f]. *)
  policy_ok : Z → pool_state → Prop;
  policy_ok_stable f t t' :
    ps_objs t' = ps_objs t → ps_cpools t' = ps_cpools t → policy_ok f t → policy_ok f t';
  block_alloc_spec f size t :
    policy_ok f t → 0 < size < 2 ^ 63 →
    wp (block_alloc f size)
      (λ p t', same_pools t t' ∧ policy_ok f t' ∧
        (p = 0 ∧ ps_objs t' = ps_objs t ∨
         fresh_object t p size ∧ ps_objs t' = <[p := size]> (ps_objs t))) t;
  block_free_spec f mem size t :
    policy_ok f t → ps_objs t !! mem = Some size →
    wp (block_free f mem size)
      (λ _ t', policy_ok f t' ∧
        ps_objs t' = delete mem (ps_objs t) ∧ nodes t' = outside mem size (nodes t) ∧
        ps_pools t' = outside mem size (ps_pools t) ∧
        ps_blocks t' = outside mem size (ps_blocks t) ∧ ps_called t' = ps_called t) t;
  (** Freeing a non-NULL address that is no live object is undefined. *)
  block_free_invalid f mem size t :
    policy_ok f t → mem ≠ 0 → ps_objs t !! mem = None → block_free f mem size t = Fault;
}.

Section ops.
Context `{BlockPolicy}.

Definition ALIGN_PTR (PTR ALIGNMENT : Z) : Z := PTR + Z.land (- PTR) (ALIGNMENT - 1).

Definition mdl_pool_alloc_from_block (block size : Z) : M pool_state Z :=
  let size :=
    if negb (Z.land size (POOL_ALIGNMENT - 1) =? 0)
    then Z.land (u64 (size + POOL_ALIGNMENT)) (u64 (Z.lnot (POOL_ALIGNMENT - 1)))
    else size in
  B ← block_at block;
  if size <=? u64 (b_end B - b_current B) then
    let ptr := b_current B in
    block_set block (set_current (ptr + size));;
    mret ptr
  else mret NULL.

Definition mdl_pool_create_block (pool size : Z) : M pool_state Z :=
  c_assert (sizeof_mdl_pool_block_t <=? size);;
  P ← pool_at pool;
  block ← block_alloc (pl_factory P) size;
  if block =? NULL then
    P ← pool_at pool;
    call_callback (pl_callback P) pool size;;
    mret NULL
  else
    pool_set pool (λ P, set_capacity (u64 (pl_capacity P + size)) P);;
    cast_block block;;
    let start := block + sizeof_mdl_pool_block_t in
    block_set block (λ _, Block start (ALIGN_PTR start POOL_ALIGNMENT) (block + size));;
    list_add block (block_head_list pool);;
    mret block.

Definition mdl_pool_allocate_find (fuel : nat) (pool size : Z) : M pool_state Z :=
  list_for_each fuel (block_head_list pool)
    (λ node _,
      p ← mdl_pool_alloc_from_block node size;
      if negb (p =? NULL) then mret (inr p) else mret (inl tt))
    (λ _,
      P ← pool_at pool;
      if pl_increment_size P =? 0 then
        call_callback (pl_callback P) pool size;; mret NULL
      else
        let inc := pl_increment_size P in
        let block_size :=
          if inc <? u64 (size + sizeof_mdl_pool_block_t + POOL_ALIGNMENT) then
            let count := u64 (size + inc + sizeof_mdl_pool_block_t + POOL_ALIGNMENT) / inc in
            u64 (count * inc)
          else inc in
        block ← mdl_pool_create_block pool block_size;
        if block =? NULL then mret NULL
        else
          p ← mdl_pool_alloc_from_block block size;
          c_assert (negb (p =? NULL));;
          mret p)
    tt.

Definition mdl_pool_alloc (fuel : nat) (pool size : Z) : M pool_state Z :=
  block ← get_next (block_head_list pool);
  ptr ← mdl_pool_alloc_from_block block size;
  if ptr =? NULL then mdl_pool_allocate_find fuel pool size else mret ptr.

(** [bzero] on the returned memory changes no field of the model: the memory
    handed out holds user data. *)
Definition mdl_pool_calloc (fuel : nat) (pool count size : Z) : M pool_state Z :=
  mdl_pool_alloc fuel pool (u64 (size * count)).

Definition mdl_pool_zalloc (fuel : nat) (pool size : Z) : M pool_state Z :=
  mdl_pool_calloc fuel pool 1 size.

(** [strncpy] into the 32 byte array and the terminator after it. *)
Definition mdl_pool_init_int (pool : Z) (name : option string) (increment_size : Z)
    (callback : mdl_pool_callback) : M pool_state unit :=
  pool_set pool (set_increment increment_size);;
  pool_set pool (set_callback callback);;
  match name with
  | Some name => pool_set pool (set_name (String.substring 0 (MAX_OBJ_NAME - 1) name))
  | None => pool_set pool (set_name "")
  end.

Definition mdl_pool_create_int (f : Z) (name : option string) (initial_size increment_size : Z)
    (callback : mdl_pool_callback) : M pool_state Z :=
  c_assert (u64 (sizeof_mdl_pool_t + sizeof_mdl_pool_block_t) <=? initial_size);;
  callback ← (if callback =? 0
              then F ← cpool_at f; mret (policy_callback (cp_factory F))
              else mret callback);
  buffer ← block_alloc f initial_size;
  if buffer =? NULL then mret NULL
  else
    let pool := buffer in
    cast_pool pool;;
    INIT_LIST_HEAD (block_head_list pool);;
    pool_set pool (set_factory f);;
    let block := buffer + sizeof_mdl_pool_t in
    cast_block block;;
    let start := block + sizeof_mdl_pool_block_t in
    block_set block (λ _, Block start (ALIGN_PTR start POOL_ALIGNMENT) (buffer + initial_size));;
    list_add block (block_head_list pool);;
    mdl_pool_init_int pool name increment_size callback;;
    pool_set pool (set_capacity initial_size);;
    mret pool.

(** The loop leaves with [block] at the entry it stopped at. *)
Definition reset_pool (fuel : nat) (pool : Z) : M pool_state unit :=
  e ← list_empty (block_head_list pool);
  if (e : bool) then mret tt
  else
    block ← list_for_each_prev fuel (block_head_list pool)
      (λ node _,
        prv ← get_prev node;
        if prv =? block_head_list pool then mret (inr node)
        else
          list_del node;;
          P ← pool_at pool;
          B ← block_at node;
          block_free (pl_factory P) node (u64 (b_end B - node));;
          mret (inl node))
      mret NULL;
    B ← block_at block;
    block_set block (set_current (ALIGN_PTR (b_start B) POOL_ALIGNMENT));;
    pool_set pool (set_capacity (u64 (b_end B - pool))).

Definition mdl_pool_reset (fuel : nat) (pool : Z) : M pool_state unit := reset_pool fuel pool.

Definition mdl_pool_destroy_int (fuel : nat) (pool : Z) : M pool_state unit :=
  block ← get_next (block_head_list pool);
  reset_pool fuel pool;;
  B ← block_at block;
  let initial_size := u64 (b_end B - pool) in
  P ← pool_at pool;
  F ← cpool_at (pl_factory P);
  if policy_block_free (cp_factory F)
  then block_free (pl_factory P) pool initial_size
  else mret tt.

Definition mdl_pool_get_capacity (pool : Z) : M pool_state Z :=
  P ← pool_at pool; mret (pl_capacity P).

Definition mdl_pool_get_used_size (fuel : nat) (pool : Z) : M pool_state Z :=
  list_for_each fuel (block_head_list pool)
    (λ node used_size,
      B ← block_at node;
      mret (inl (u64 (used_size + u64 (b_current B - b_start B + sizeof_mdl_pool_block_t)))))
    mret sizeof_mdl_pool_t.

Definition mdl_pool_getobjname (pool : Z) : M pool_state string :=
  P ← pool_at pool; mret (pl_name P).
End ops.

(** ** The abstract pool

    A block by its address, its bump pointer and its end; a pool is the list of
    its blocks, newest first, and [L] the allocations served so far. *)
Record ablock := Ablk { a_b : Z; a_cur : Z; a_end : Z }.
#[export] Instance ablock_eq_dec : EqDecision ablock.
Proof. solve_decision. Defined.

(** The first block lies behind the pool structure, in the same object. *)
Definition owner (pool : Z) (a : ablock) : Z :=
  if a_b a =? pool + sizeof_mdl_pool_t then pool else a_b a.
Definition bsize (pool : Z) (a : ablock) : Z := a_end a - owner pool a.

Definition objects_apart (objs : gmap Z Z) : Prop :=
  (∀ o n, objs !! o = Some n → 0 < n) ∧
  ∀ o1 n1 o2 n2, objs !! o1 = Some n1 → objs !! o2 = Some n2 → o1 ≠ o2 → apart o1 n1 o2 n2.

Definition block_ok (t : pool_state) (pool : Z) (a : ablock) : Prop :=
  ps_blocks t !! a_b a = Some (Block (a_b a + sizeof_mdl_pool_block_t) (a_cur a) (a_end a)) ∧
  (0 < a_b a ∧ a_b a mod POOL_ALIGNMENT = 0) ∧ a_b a ≠ pool ∧
  a_b a + sizeof_mdl_pool_block_t ≤ a_cur a ≤ a_end a ∧ a_end a < 2 ^ 63 ∧
  a_cur a mod POOL_ALIGNMENT = 0 ∧
  ps_objs t !! owner pool a = Some (bsize pool a).

Record pool_inv (t : pool_state) (pool : Z) (P : mdl_pool_s) (ab : list ablock)
    (L : list (Z * Z)) : Prop := {
  pi_pool : ps_pools t !! pool = Some P;
  pi_cap : pl_capacity P = u64 (foldr (λ a n, bsize pool a + n) 0 ab);
  pi_list : dlist (nodes t) (block_head_list pool) (a_b <$> ab);
  pi_last : a_b <$> last ab = Some (pool + sizeof_mdl_pool_t);
  pi_blocks : ∀ a, a ∈ ab → block_ok t pool a;
  pi_heap : objects_apart (ps_objs t);
  pi_pos : 0 < pool;
  pi_allocs : ∀ p n, (p, n) ∈ L → 0 ≤ n ∧ p mod POOL_ALIGNMENT = 0 ∧
    ∃ a, a ∈ ab ∧ a_b a + sizeof_mdl_pool_block_t ≤ p ∧ p + n ≤ a_cur a;
  pi_apart : ForallOrdPairs (λ x y, apart x.1 x.2 y.1 y.2) L;
}.

(** [size] rounded up to the alignment. *)
Definition round4 (size : Z) : Z := (size + 3) / 4 * 4.

Lemma round4_bounds size : size ≤ round4 size < size + 4 ∧ round4 size mod 4 = 0.
Proof. unfold round4. rewrite Z.mod_mul by done. split; [|done]. dlia. Qed.

Lemma land3 x : Z.land x 3 = x mod 4.
Proof. apply (land_pow2_mask x 2). lia. Qed.

(** The bit arithmetic of mdl_pool_alloc_from_block, for sizes that do not wrap. *)
Lemma round4_bits size :
  0 ≤ size < 2 ^ 64 - 4 →
  (if negb (Z.land size (POOL_ALIGNMENT - 1) =? 0)
   then Z.land (u64 (size + POOL_ALIGNMENT)) (u64 (Z.lnot (POOL_ALIGNMENT - 1)))
   else size) = round4 size.
Proof.
  intros Hs. unfold POOL_ALIGNMENT. change (4 - 1) with 3 at 1. rewrite land3. unfold round4.
  destruct (size mod 4 =? 0) eqn:E; simpl; [dlia|].
  rewrite (u64_small (size + 4)) by lia.
  change (u64 (Z.lnot (4 - 1))) with (Z.ldiff (Z.ones 64) 3).
  assert (Z.land (size + 4) (Z.ldiff (Z.ones 64) 3) = Z.ldiff (size + 4) 3) as ->.
  { apply Z.bits_inj'. intros n Hn. rewrite Z.land_spec, !Z.ldiff_spec.
    destruct (decide (n < 64)).
    - rewrite Z.ones_spec_low by lia. done.
    - assert (Z.testbit (size + 4) n = false) as ->; [|done].
      apply Z.bits_above_log2; [lia|]. apply Z.log2_lt_pow2; [lia|].
      apply Z.lt_le_trans with (2 ^ 64); [lia|]. apply Z.pow_le_mono_r; lia. }
  change 3 with (Z.ones 2) at 1. rewrite Z.ldiff_ones_r by lia.
  rewrite Z.shiftr_div_pow2, Z.shiftl_mul_pow2 by lia.
  replace (2 ^ 2) with 4 by done. dlia.
Qed.

Lemma align_ptr_mod p : p mod 4 = 0 → ALIGN_PTR p POOL_ALIGNMENT = p.
Proof. intros Hp. unfold ALIGN_PTR, POOL_ALIGNMENT. change (4 - 1) with 3. rewrite land3. dlia. Qed.

Section wp.
Context `{BlockPolicy}.
Implicit Types (t : pool_state) (pool : Z).

Lemma wp_pool_at p P Q t : ps_pools t !! p = Some P → Q P t → wp (pool_at p) Q t.
Proof. intros HP HQ. by eapply wp_gets_opt. Qed.
Lemma wp_block_at b B Q t : ps_blocks t !! b = Some B → Q B t → wp (block_at b) Q t.
Proof. intros HB HQ. by eapply wp_gets_opt. Qed.
Lemma wp_cpool_at c C Q t : ps_cpools t !! c = Some C → Q C t → wp (cpool_at c) Q t.
Proof. intros HB HQ. by eapply wp_gets_opt. Qed.
Lemma wp_pool_set p P g Q t :
  ps_pools t !! p = Some P → Q tt (with_pools (insert p (g P)) t) → wp (pool_set p g) Q t.
Proof. intros HP HQ. eapply wp_modify_opt; [cbv beta; rewrite HP; done|done]. Qed.
Lemma wp_block_set b B g Q t :
  ps_blocks t !! b = Some B → Q tt (with_blocks (insert b (g B)) t) → wp (block_set b g) Q t.
Proof. intros HP HQ. eapply wp_modify_opt; [cbv beta; rewrite HP; done|done]. Qed.
Lemma wp_cpool_set c C g Q t :
  ps_cpools t !! c = Some C → Q tt (with_cpools (insert c (g C)) t) → wp (cpool_set c g) Q t.
Proof. intros HP HQ. eapply wp_modify_opt; [cbv beta; rewrite HP; done|done]. Qed.

Lemma wp_call_callback cb p n Q t :
  cb ≠ 0 →
  Q tt (PS (ps_objs t) (ps_nodes t) (ps_pools t) (ps_blocks t) (ps_cpools t)
          (ps_called t ++ [(cb, p, n)])) →
  wp (call_callback cb p n) Q t.
Proof.
  intros Hc HQ. eapply wp_modify_opt; [|done].
  cbv beta. by rewrite (proj2 (Z.eqb_neq _ _)).
Qed.

Lemma wp_cast_block b o sz Q t :
  ps_objs t !! o = Some sz → o ≤ b → b + sizeof_mdl_pool_block_t ≤ o + sz →
  Q tt (with_blocks (insert b (Block 0 0 0)) (with_nodes (<[b := Node 0 0]> (nodes t)) t)) →
  wp (cast_block b) Q t.
Proof.
  intros Ho H1 H2 HQ. eapply wp_modify_opt; [|done]. cbv beta.
  rewrite decide_True; [done|]. by exists o, sz.
Qed.
Lemma wp_cast_pool p sz Q t :
  ps_objs t !! p = Some sz → sizeof_mdl_pool_t ≤ sz →
  Q tt (with_pools (insert p (Pool "" 0 0 0 0 0))
      (with_nodes (<[p := Node 0 0]> (<[block_head_list p := Node 0 0]> (nodes t))) t)) →
  wp (cast_pool p) Q t.
Proof.
  intros Ho H1 HQ. eapply wp_modify_opt; [|done]. cbv beta.
  rewrite decide_True; [done|]. exists p, sz. split; [done|lia].
Qed.

(** The bump allocator: the exact result, for sizes that do not wrap. *)
Lemma wp_alloc_from_block b s c e size Q t :
  ps_blocks t !! b = Some (Block s c e) → 0 ≤ c ≤ e → e < 2 ^ 63 → 0 ≤ size < 2 ^ 64 - 4 →
  (round4 size ≤ e - c → Q c (with_blocks (insert b (Block s (c + round4 size) e)) t)) →
  (e - c < round4 size → Q 0 t) →
  wp (mdl_pool_alloc_from_block b size) Q t.
Proof.
  intros HB Hc He Hs H1 H2. unfold mdl_pool_alloc_from_block. cbv zeta.
  rewrite round4_bits by done. wp_steps. eapply wp_block_at; [done|]. simpl.
  rewrite u64_small by lia. apply wp_if; intros E.
  - wp_steps. eapply wp_block_set; [done|]. wp_steps. apply H1. lia.
  - wp_steps. apply H2. lia.
Qed.
End wp.

(** ** The invariant is preserved *)

Section inv.
Implicit Types (t : pool_state) (pool : Z) (a : ablock) (ab : list ablock).

Lemma owner_bump pool a c : owner pool (Ablk (a_b a) c (a_end a)) = owner pool a.
Proof. done. Qed.

Lemma pi_nodup t pool P ab L : pool_inv t pool P ab L → NoDup (a_b <$> ab).
Proof. intros HI. destruct (pi_list _ _ _ _ _ HI) as [Hnd _]. by apply NoDup_cons in Hnd as [_ ?]. Qed.

(** An element of [ab] is determined by its address. *)
Lemma pi_same_block t pool P ab L a1 a2 :
  pool_inv t pool P ab L → a1 ∈ ab → a2 ∈ ab → a_b a1 = a_b a2 → a1 = a2.
Proof.
  intros HI H1 H2 E.
  destruct (pi_blocks _ _ _ _ _ HI _ H1) as (E1&_). destruct (pi_blocks _ _ _ _ _ HI _ H2) as (E2&_).
  destruct a1, a2; simpl in *. subst. congruence.
Qed.

(** Distinct blocks do not overlap. *)
Lemma pi_blocks_apart t pool P ab L a1 a2 :
  pool_inv t pool P ab L → a1 ∈ ab → a2 ∈ ab → a1 ≠ a2 →
  a_end a1 ≤ a_b a2 ∨ a_end a2 ≤ a_b a1.
Proof.
  intros HI H1 H2 Hne.
  assert (a_b a1 ≠ a_b a2) as Hb by (intros E; by eapply Hne, pi_same_block).
  destruct (pi_blocks _ _ _ _ _ HI _ H1) as (_&?&?&?&?&_&O1).
  destruct (pi_blocks _ _ _ _ _ HI _ H2) as (_&?&?&?&?&_&O2).
  pose proof (proj2 (pi_heap _ _ _ _ _ HI) _ _ _ _ O1 O2) as Hap.
  unfold apart, bsize, owner, sizeof_mdl_pool_t in *.
  destruct (Z.eqb_spec (a_b a1) (pool + 104)), (Z.eqb_spec (a_b a2) (pool + 104)); lia.
Qed.

Lemma block_ok_ext t t' pool a :
  ps_blocks t' !! a_b a = ps_blocks t !! a_b a → ps_objs t' = ps_objs t →
  block_ok t pool a → block_ok t' pool a.
Proof. unfold block_ok. by intros -> ->. Qed.

Lemma pool_inv_bump t pool P pre a post L size :
  pool_inv t pool P (pre ++ a :: post) L → 0 ≤ size → round4 size ≤ a_end a - a_cur a →
  pool_inv
    (with_blocks (insert (a_b a)
      (Block (a_b a + sizeof_mdl_pool_block_t) (a_cur a + round4 size) (a_end a))) t)
    pool P (pre ++ Ablk (a_b a) (a_cur a + round4 size) (a_end a) :: post)
    ((a_cur a, size) :: L).
Proof.
  intros HI Hs Hr. pose proof (round4_bounds size) as [Hb Hm].
  assert (a ∈ pre ++ a :: post) as Ha by set_solver.
  destruct (pi_blocks _ _ _ _ _ HI _ Ha) as (E1&E2&E3&E4&E5&E6&E7).
  assert (∀ a', a' ∈ pre ++ post → a' ∈ pre ++ a :: post ∧ a' ≠ a ∧ a_b a' ≠ a_b a) as Hrest.
  { intros a' Ha'. assert (a' ∈ pre ++ a :: post) as Hin by set_solver.
    assert (a_b a' ≠ a_b a) as Hne; [|split_and!; [done|congruence|done]].
    pose proof (pi_nodup _ _ _ _ _ HI) as Hnd. rewrite fmap_app, fmap_cons in Hnd.
    intros E. apply NoDup_app in Hnd as (_&H1&[H2 _]%NoDup_cons).
    apply elem_of_app in Ha' as [Ha'|Ha']; eapply (list_elem_of_fmap_2 a_b) in Ha';
      rewrite E in Ha'; [eapply H1; [done|set_solver]|done]. }
  destruct HI as [I1 I2 I3 I4 I5 I6 I7 I8 I9].
  split; try done.
  - rewrite I2. f_equal. rewrite !foldr_app. done.
  - rewrite fmap_app in *. done.
  - destruct post as [|x post] using rev_ind; [by rewrite last_snoc in *|].
    rewrite !app_comm_cons, !app_assoc, !last_snoc in *. done.
  - intros a' Ha'. rewrite elem_of_app, elem_of_cons in Ha'.
    destruct Ha' as [Ha'|[->|Ha']].
    2: { unfold block_ok. simpl. rewrite lookup_insert_eq.
         unfold POOL_ALIGNMENT in *. rewrite <- Zplus_mod_idemp_l, E6.
         split_and!; try done; lia. }
    all: destruct (Hrest a' ltac:(set_solver)) as (Hin&_&Hne).
    all: eapply block_ok_ext; [..|by apply I5]; [|done]; simpl; by rewrite lookup_insert_ne.
  - intros p n [[= -> ->]|Hin]%elem_of_cons.
    + split_and!; [done|done|]. eexists. split; [apply elem_of_app; right; left|simpl; lia].
    + destruct (I8 _ _ Hin) as (?&?&a'&Ha'&?&?). split_and!; [done..|].
      destruct (decide (a' = a)) as [->|Hne].
      * eexists. split; [apply elem_of_app; right; left|simpl; lia].
      * exists a'. set_solver.
  - constructor; [|done]. apply Forall_forall. intros [p n] Hin. simpl.
    destruct (I8 _ _ Hin) as (?&?&a'&Ha'&?&?). unfold apart, sizeof_mdl_pool_block_t in *.
    destruct (decide (a' = a)) as [->|Hne]; [lia|].
    assert (pool_inv t pool P (pre ++ a :: post) L) as HI by by split.
    pose proof (pi_blocks_apart _ _ _ _ _ _ _ HI Ha' Ha Hne).
    destruct (I5 _ Ha') as (_&?&?&?&?&_). lia.
Qed.

(** States that agree on the pools and the objects satisfy the same invariants. *)
Lemma pool_inv_frame t t' pool P ab L :
  nodes t' = nodes t → ps_pools t' = ps_pools t → ps_blocks t' = ps_blocks t →
  ps_objs t' = ps_objs t → pool_inv t pool P ab L → pool_inv t' pool P ab L.
Proof.
  intros E1 E2 E3 E4 [I1 I2 I3 I4 I5 I6 I7 I8 I9].
  split; rewrite ?E1, ?E2, ?E4; try done.
  intros a Ha. eapply block_ok_ext; [by rewrite E3|done|by apply I5].
Qed.

(** Objects of a state and a fresh one. *)
Lemma fresh_ne t p size o n : fresh_object t p size → 0 < size → ps_objs t !! o = Some n →
  ∀ x, o ≤ x < o + n → x ≠ p.
Proof. intros (_&_&_&Hf) Hs Ho x Hx ->. specialize (Hf _ _ Ho). unfold apart in Hf. lia. Qed.

Lemma objects_apart_insert t p size :
  objects_apart (ps_objs t) → fresh_object t p size → 0 < size →
  objects_apart (<[p := size]> (ps_objs t)).
Proof.
  intros [Hp Hh] (_&_&_&Hf) Hs. split.
  { intros o n [[<- <-]|[? H1]]%lookup_insert_Some; [done|by eapply Hp]. }
  intros o1 n1 o2 n2.
  intros [[<- <-]|[? H1]]%lookup_insert_Some [[<- <-]|[? H2]]%lookup_insert_Some Hne; try done.
  - by apply Hf.
  - apply Hf in H1. unfold apart in *. lia.
  - by eapply Hh.
Qed.

(** The object of the pool contains the pool structure and its first block. *)
Lemma pi_object t pool P ab L :
  pool_inv t pool P ab L → ∃ sz, ps_objs t !! pool = Some sz ∧
    sizeof_mdl_pool_t + sizeof_mdl_pool_block_t ≤ sz.
Proof.
  intros HI. pose proof (pi_last _ _ _ _ _ HI) as Hl.
  destruct (last ab) as [a|] eqn:E; [|done]. injection Hl as Hl.
  apply last_Some in E as [ab' ->].
  destruct (pi_blocks _ _ _ _ _ HI a ltac:(set_solver)) as (_&_&_&Hb&_&_&Ho).
  unfold bsize, owner in *. rewrite Hl, Z.eqb_refl in Ho.
  eexists. split; [done|]. unfold sizeof_mdl_pool_t in *. lia.
Qed.

(** A fresh object is no block of the pool and contains none of its nodes. *)
Lemma pi_fresh t pool P ab L b size :
  pool_inv t pool P ab L → fresh_object t b size → 0 < size →
  b ≠ pool ∧ b ≠ pool + sizeof_mdl_pool_t ∧ b ∉ block_head_list pool :: (a_b <$> ab).
Proof.
  intros HI Hf Hs. destruct (pi_object _ _ _ _ _ HI) as (sz&Ho&Hsz).
  pose proof (fresh_ne _ _ _ _ _ Hf Hs Ho) as Hne.
  unfold sizeof_mdl_pool_t, sizeof_mdl_pool_block_t, block_head_list in *.
  split_and!; [apply not_eq_sym, Hne; lia..|].
  intros [->|(a&->&Ha)%list_elem_of_fmap]%elem_of_cons; [by eapply (Hne (pool + 80)); [lia|]|].
  destruct (pi_blocks _ _ _ _ _ HI a Ha) as (_&?&?&Hb&_&_&Ho').
  eapply (fresh_ne _ _ _ _ _ Hf Hs Ho' (a_b a)); [|done].
  unfold bsize, owner, sizeof_mdl_pool_block_t, sizeof_mdl_pool_t in *.
  destruct (Z.eqb_spec (a_b a) (pool + 104)); lia.
Qed.
End inv.

Section create_block.
Context `{BlockPolicyLaws}.
Implicit Types (t : pool_state) (pool : Z).

(** Chaining a fresh block in front of a pool. *)
Lemma pool_inv_new_block t pool P ab L b size h :
  pool_inv t pool P ab L → fresh_object t b size → sizeof_mdl_pool_block_t ≤ size →
  dlist h (block_head_list pool) (b :: (a_b <$> ab)) →
  pool_inv
    (PS (<[b := size]> (ps_objs t)) h
        (<[pool := set_capacity (u64 (pl_capacity P + size)) P]> (ps_pools t))
        (<[b := Block (b + 40) (b + 40) (b + size)]> (ps_blocks t)) (ps_cpools t) (ps_called t))
    pool (set_capacity (u64 (pl_capacity P + size)) P) (Ablk b (b + 40) (b + size) :: ab) L.
Proof.
  intros HI Hf Hs Hd. unfold sizeof_mdl_pool_block_t in Hs.
  destruct (pi_fresh _ _ _ _ _ _ _ HI Hf ltac:(lia)) as (Hn1&Hn2&Hn3).
  pose proof (objects_apart_insert _ _ _ (pi_heap _ _ _ _ _ HI) Hf ltac:(lia)) as Hh.
  destruct HI as [I1 I2 I3 I4 I5 I6 I7 I8 I9]. destruct Hf as (Hp&Hm&Hmax&Hf).
  split; simpl; try done.
  - by rewrite lookup_insert_eq.
  - rewrite I2. unfold bsize at 2, owner. simpl. rewrite (proj2 (Z.eqb_neq _ _)) by done.
    unfold u64. rewrite Zplus_mod_idemp_l. f_equal. lia.
  - rewrite last_cons. by destruct (last ab).
  - intros a [->|Ha]%elem_of_cons.
    + unfold block_ok, bsize, owner, POOL_ALIGNMENT, sizeof_mdl_pool_block_t. simpl.
      rewrite (proj2 (Z.eqb_neq b _)) by done. rewrite !lookup_insert_eq.
      split_and!; try done; try dlia. f_equal. lia.
    + destruct (I5 a Ha) as (E1&E2&E3&E4&E5&E6&E7).
      assert (a_b a ≠ b) as Hne.
      { intros <-. apply Hn3. right. by apply list_elem_of_fmap_2. }
      assert (owner pool a ≠ b) by (unfold owner; case_match; congruence).
      unfold block_ok. simpl. rewrite !lookup_insert_ne by done. done.
  - intros p n Hin. destruct (I8 _ _ Hin) as (?&?&a&?&?&?). split_and!; [done..|].
    exists a. set_solver.
Qed.

Lemma wp_create_block t pool P ab L size :
  pool_inv t pool P ab L → policy_ok (pl_factory P) t → pl_callback P ≠ 0 →
  sizeof_mdl_pool_block_t ≤ size < 2 ^ 63 →
  wp (mdl_pool_create_block pool size) (λ b t', policy_ok (pl_factory P) t' ∧
    (b = 0 ∧ pool_inv t' pool P ab L ∧
       ps_called t' = ps_called t ++ [(pl_callback P, pool, size)] ∨
     b ≠ 0 ∧ ps_called t' = ps_called t ∧
       pool_inv t' pool (set_capacity (u64 (pl_capacity P + size)) P)
         (Ablk b (b + 40) (b + size) :: ab) L)) t.
Proof.
  intros HI Hok Hcb Hs. unfold mdl_pool_create_block, sizeof_mdl_pool_block_t in *. wp_steps.
  apply wp_assert; [lia|]. wp_steps. eapply wp_pool_at; [by eapply pi_pool|]. wp_steps.
  eapply wp_mono; [apply block_alloc_spec; [done|lia]|].
  intros b t1 ((En&Ep&Eb&Ec)&Hok1&[[-> Eo]|[Hf Eo]]).
  - simpl. wp_steps. eapply wp_pool_at; [rewrite Ep; by eapply pi_pool|]. wp_steps.
    apply wp_call_callback; [done|]. wp_steps.
    split; [by apply (policy_ok_stable _ t1)|]. left.
    rewrite Ec. split_and!; [done| |done]. by apply (pool_inv_frame t).
  - assert (b ≠ 0) as Hb by (destruct Hf; lia).
    rewrite (proj2 (Z.eqb_neq _ _)) by done. wp_steps.
    eapply wp_pool_set; [rewrite Ep; by eapply pi_pool|]. wp_steps.
    eapply (wp_cast_block b b size); [simpl; by rewrite Eo, lookup_insert_eq|lia|
      unfold sizeof_mdl_pool_block_t; lia|]. wp_steps.
    eapply wp_block_set; [apply lookup_insert_eq|]. wp_steps.
    destruct (pi_fresh _ _ _ _ _ _ _ HI Hf ltac:(lia)) as (Hn1&Hn2&Hn3).
    eapply wp_list_add; simpl.
    + eapply (dlist_frame (nodes t)); [|by eapply pi_list]. intros x Hx. simpl.
      rewrite lookup_insert_ne by set_solver. exact (f_equal (lookup x) En).
    + done.
    + rewrite lookup_insert_eq. done.
    + intros h' Hd' _. wp_steps. simpl.
      split; [by apply (policy_ok_stable _ t1)|]. right.
      split_and!; [done|by rewrite Ec|].
      rewrite align_ptr_mod by (destruct Hf as (_&?&_); dlia).
      assert (sizeof_mdl_pool_block_t ≤ size) as Hs' by (unfold sizeof_mdl_pool_block_t; lia).
      pose proof (pool_inv_new_block t _ _ _ _ _ _ _ HI Hf Hs' Hd') as HI'.
      revert HI'. apply pool_inv_frame; simpl;
        rewrite ?Eo, ?Ep, ?Eb, ?insert_insert_eq; done.
Qed.
End create_block.

(** ** Allocation *)

Section alloc.
Context `{BlockPolicyLaws}.
Implicit Types (t : pool_state) (pool : Z).

(** What an allocation of [size] bytes does to a pool whose blocks are [ab]. *)
Definition alloc_result (t : pool_state) (pool : Z) (P : mdl_pool_s) (ab : list ablock)
    (L : list (Z * Z)) (size p : Z) (t' : pool_state) : Prop :=
  policy_ok (pl_factory P) t' ∧
  (p = 0 ∧ pool_inv t' pool P ab L ∧
     Forall (λ a, a_end a - a_cur a < round4 size) ab ∧
     (∃ n, ps_called t' = ps_called t ++ [(pl_callback P, pool, n)]) ∨
   p ≠ 0 ∧ ps_called t' = ps_called t ∧
     ∃ cap ab', pool_inv t' pool (set_capacity cap P) ab' ((p, size) :: L)).

Lemma set_capacity_id P : set_capacity (pl_capacity P) P = P.
Proof. by destruct P. Qed.

(** The size of a new block leaves room for the request. *)
Lemma new_block_size size inc :
  0 ≤ size → 0 < inc → size + 2 * inc + 88 < 2 ^ 63 →
  let block_size :=
    if inc <? u64 (size + sizeof_mdl_pool_block_t + POOL_ALIGNMENT)
    then u64 (u64 (size + inc + sizeof_mdl_pool_block_t + POOL_ALIGNMENT) / inc * inc)
    else inc in
  size + 44 ≤ block_size < 2 ^ 63.
Proof.
  intros Hs Hi Hm. unfold sizeof_mdl_pool_block_t, POOL_ALIGNMENT.
  rewrite (u64_small (size + 40 + 4)), (u64_small (size + inc + 40 + 4)) by lia.
  assert ((size + inc + 40 + 4) / inc * inc ≤ size + inc + 44 ∧
    size + 44 < (size + inc + 40 + 4) / inc * inc) as [??].
  { pose proof (Z.div_mod (size + inc + 40 + 4) inc ltac:(lia)).
    pose proof (Z.mod_pos_bound (size + inc + 40 + 4) inc ltac:(lia)). lia. }
  rewrite u64_small by lia. cbv zeta. destruct (Z.ltb_spec inc (size + 40 + 4)); lia.
Qed.

(** Serving the request from one of the blocks. *)
Lemma wp_alloc_step t pool P pre a post L size Q :
  pool_inv t pool P (pre ++ a :: post) L → 0 ≤ size < 2 ^ 63 →
  policy_ok (pl_factory P) t →
  (∀ p t', p ≠ 0 → alloc_result t pool P (pre ++ a :: post) L size p t' → Q p t') →
  (a_end a - a_cur a < round4 size → Q 0 t) →
  wp (mdl_pool_alloc_from_block (a_b a) size) Q t.
Proof.
  intros HI Hs Hok H1 H2.
  destruct (pi_blocks _ _ _ _ _ HI a ltac:(set_solver)) as (E1&E2&E3&E4&E5&_).
  unfold sizeof_mdl_pool_block_t in *.
  eapply wp_alloc_from_block; [done|lia|lia|lia| |done].
  intros Hr. apply H1; [lia|]. split; [by apply (policy_ok_stable _ t)|].
  right. split_and!; [lia|done|].
  exists (pl_capacity P). eexists. rewrite set_capacity_id.
  apply pool_inv_bump; [done|lia|done].
Qed.

(** A pool with its first block in one fresh object. *)
Lemma pool_inv_first t p initial h P P' cs called :
  objects_apart (ps_objs t) → fresh_object t p initial → 144 ≤ initial →
  pl_capacity P = initial → dlist h (block_head_list p) [p + 104] →
  pool_inv
    (PS (<[p := initial]> (ps_objs t)) h (<[p := P]> (<[p := P']> (ps_pools t)))
        (<[p + 104 := Block (p + 144) (p + 144) (p + initial)]> (ps_blocks t)) cs called)
    p P [Ablk (p + 104) (p + 144) (p + initial)] [].
Proof.
  intros Hh Hf Hi HP Hd. pose proof (objects_apart_insert _ _ _ Hh Hf ltac:(lia)).
  destruct Hf as (Hp&Hm&Hmax&_).
  split; simpl; try done.
  - by rewrite lookup_insert_eq.
  - rewrite HP. unfold bsize, owner, sizeof_mdl_pool_t. simpl. rewrite Z.eqb_refl.
    rewrite u64_small; lia.
  - intros a ->%list_elem_of_singleton.
    unfold block_ok, bsize, owner, POOL_ALIGNMENT, sizeof_mdl_pool_block_t, sizeof_mdl_pool_t.
    simpl. rewrite Z.eqb_refl, !lookup_insert_eq.
    split_and!; try done; try dlia; do 2 f_equal; lia.
  - intros ? ? ?%elem_of_nil. done.
  - constructor.
Qed.

(** The whole of [mdl_pool_create_int], once the block is there. *)
Lemma wp_create_int f name initial inc cb t :
  policy_ok f t → objects_apart (ps_objs t) → cb ≠ 0 →
  sizeof_mdl_pool_t + sizeof_mdl_pool_block_t ≤ initial < 2 ^ 63 →
  wp (mdl_pool_create_int f name initial inc cb) (λ p t', policy_ok f t' ∧
    (p = 0 ∧ ps_objs t' = ps_objs t ∧ same_pools t t' ∨
     ps_objs t' = <[p := initial]> (ps_objs t) ∧ fresh_object t p initial ∧
     (∀ x, x ∉ [p; p + 80; p + 104] → nodes t' !! x = nodes t !! x) ∧
     (∀ x, x ≠ p → ps_pools t' !! x = ps_pools t !! x) ∧
     (∀ x, x ≠ p + 104 → ps_blocks t' !! x = ps_blocks t !! x) ∧
     is_Some (nodes t' !! p) ∧ ps_called t' = ps_called t ∧
     pool_inv t' p
       (Pool (default "" (String.substring 0 (MAX_OBJ_NAME - 1) <$> name)) initial inc f 0 cb)
       [Ablk (p + 104) (p + 144) (p + initial)] [])) t.
Proof.
  intros Hok Hh Hcb Hs. unfold mdl_pool_create_int, sizeof_mdl_pool_t, sizeof_mdl_pool_block_t in *.
  wp_steps. apply wp_assert; [rewrite u64_small; lia|]. wp_steps.
  rewrite (proj2 (Z.eqb_neq cb _)) by done. wp_steps.
  eapply wp_mono; [apply block_alloc_spec; [done|lia]|].
  intros p t1 (Hsame&Hok1&[[-> Eo]|[Hf Eo]]).
  { simpl. wp_steps. split; [done|]. by left. }
  pose proof Hf as (Hp&Hm&Hmax&_).
  rewrite (proj2 (Z.eqb_neq _ _)) by (unfold NULL; lia). wp_steps.
  eapply wp_cast_pool; [by rewrite Eo, lookup_insert_eq|unfold sizeof_mdl_pool_t; lia|]. wp_steps.
  apply wp_init_list_head; simpl.
  { rewrite lookup_insert_ne by (unfold block_head_list; lia). by rewrite lookup_insert_eq. }
  intros h1 Hd1 Hs1. wp_steps. eapply wp_pool_set; [apply lookup_insert_eq|]. wp_steps.
  eapply (wp_cast_block _ p initial); [simpl; by rewrite Eo, lookup_insert_eq|lia|
    unfold sizeof_mdl_pool_block_t; lia|]. wp_steps.
  eapply wp_block_set; [apply lookup_insert_eq|]. wp_steps.
  assert (p + 104 ≠ block_head_list p) as Hne by (unfold block_head_list; lia).
  eapply (wp_list_add _ []); simpl.
  - eapply dlist_frame; [|exact Hd1]. intros x ->%list_elem_of_singleton.
    by rewrite lookup_insert_ne.
  - set_solver.
  - by rewrite lookup_insert_eq.
  - intros h2 Hd2 Hs2. unfold mdl_pool_init_int. wp_steps.
    eapply wp_pool_set; [apply lookup_insert_eq|]. simpl. wp_steps.
    eapply wp_pool_set; [apply lookup_insert_eq|]. simpl. wp_steps.
    apply (wp_mono _ (λ _ t', t' =
      PS (<[p := initial]> (ps_objs t)) h2
        (<[p := Pool (default "" (String.substring 0 (MAX_OBJ_NAME - 1) <$> name)) 0 inc f 0 cb]> (ps_pools t))
        (<[p + 104 := Block (p + 144) (p + 144) (p + initial)]> (ps_blocks t))
        (ps_cpools t1) (ps_called t))).
    { destruct Hsame as (En&Ep&Eb&Ec).
      assert (ALIGN_PTR (p + 104 + 40) POOL_ALIGNMENT = p + 104 + 40) as Ea
        by (apply align_ptr_mod; dlia).
      replace (p + 144) with (p + 104 + 40) by lia.
      destruct name as [name|]; (eapply wp_pool_set; [apply lookup_insert_eq|]);
        unfold with_pools, set_name, set_callback, set_increment, set_factory; simpl;
        by rewrite Ea, !insert_insert_eq, Eo, Ep, Eb, Ec. }
    intros _ t' ->. wp_steps. eapply wp_pool_set; [apply lookup_insert_eq|]. wp_steps.
    assert (∀ x, x ∉ [p; p + 80; p + 104] → h2 !! x = nodes t !! x) as Hout.
    { intros x Hx. unfold block_head_list in *.
      rewrite Hs2, lookup_insert_ne, Hs1, !lookup_insert_ne by set_solver.
      exact (f_equal (lookup x) (proj1 Hsame)). }
    assert (is_Some (h2 !! p)) as Hpn.
    { unfold block_head_list in *.
      rewrite Hs2 by (rewrite !not_elem_of_cons; split_and!; [lia|lia|set_solver]).
      rewrite lookup_insert_ne by lia. rewrite Hs1 by (rewrite list_elem_of_singleton; lia).
      by rewrite lookup_insert_eq. }
    split; [by apply (policy_ok_stable _ t1)|]. right. simpl.
    split_and!; try done; try (intros x Hx; by rewrite !lookup_insert_ne).
    unfold set_capacity. simpl. apply pool_inv_first; [done|done|lia|done|done].
Qed.

Lemma wp_allocate_find t pool P ab L size fuel :
  pool_inv t pool P ab L → policy_ok (pl_factory P) t → pl_callback P ≠ 0 →
  0 ≤ size → 0 ≤ pl_increment_size P → size + 2 * pl_increment_size P + 88 < 2 ^ 63 →
  (length ab < fuel)%nat →
  wp (mdl_pool_allocate_find fuel pool size) (alloc_result t pool P ab L size) t.
Proof.
  intros HI Hok Hcb Hs Hi Hm Hf. unfold mdl_pool_allocate_find.
  pose (full := λ a, a_end a - a_cur a < round4 size).
  eapply (wp_list_for_each _ (a_b <$> ab) (λ pre _ t', t' = t ∧
    ∃ pre' post, ab = pre' ++ post ∧ pre = a_b <$> pre' ∧ Forall full pre')).
  - by rewrite length_fmap.
  - split; [done|]. by exists [], ab.
  - intros pre _ t' [-> _]. by eapply pi_list.
  - intros pre x post _ t' Hab [-> (pre'&post'&->&->&Hfull)]. wp_steps.
    rewrite fmap_app in Hab. apply app_inv_head in Hab.
    destruct post' as [|a post']; [done|]. injection Hab as <- _.
    eapply wp_alloc_step; [done|lia|done| |]; cbv beta.
    + intros p t' Hp HQ. rewrite (proj2 (Z.eqb_neq _ _)) by done. by wp_steps.
    + intros Hr. simpl. wp_steps. split; [done|]. exists (pre' ++ [a]), post'.
      rewrite <- app_assoc, fmap_app. split_and!; [done..|].
      apply Forall_app. split; [done|]. by constructor.
  - intros _ t' [-> (pre'&post'&->&Hab&Hfull)].
    rewrite fmap_app in Hab. apply (f_equal length) in Hab. rewrite length_app in Hab.
    destruct post'; simpl in *; [|lia]. rewrite app_nil_r in *.
    wp_steps. eapply wp_pool_at; [by eapply pi_pool|]. wp_steps.
    destruct (Z.eqb_spec (pl_increment_size P) 0) as [Hz|Hz].
    + wp_steps. apply wp_call_callback; [done|]. wp_steps.
      split; [by apply (policy_ok_stable _ t)|]. left. simpl.
      split_and!; [done|by apply (pool_inv_frame t)|done|by eexists].
    + pose proof (new_block_size size (pl_increment_size P) ltac:(done) ltac:(lia) ltac:(done)) as Hbs.
      cbv zeta in *. revert Hbs. generalize (if pl_increment_size P <? u64 (size + sizeof_mdl_pool_block_t + POOL_ALIGNMENT)
        then u64 (u64 (size + pl_increment_size P + sizeof_mdl_pool_block_t + POOL_ALIGNMENT) / pl_increment_size P * pl_increment_size P)
        else pl_increment_size P). intros n Hn. wp_steps.
      eapply wp_mono; [eapply wp_create_block; [done..|unfold sizeof_mdl_pool_block_t; lia]|].
      intros b t1 [Hok1 [(->&HI1&Hc)|(Hb&Hc&HI1)]].
      * simpl. wp_steps. split; [done|]. left. split_and!; [done..|by eexists].
      * rewrite (proj2 (Z.eqb_neq _ _)) by done. wp_steps.
        pose proof (round4_bounds size).
        eapply (wp_alloc_step _ _ _ [] _ _ _ _ _ HI1); [lia|done| |simpl; lia].
        intros p t' Hp [Hok' [(?&_)|(_&Hc'&cap&ab'&HI')]]; [done|].
        rewrite (proj2 (Z.eqb_neq _ _)) by done. wp_steps. apply wp_assert; [done|]. wp_steps.
        split; [done|]. right. split_and!; [done|by rewrite Hc'|]. by exists cap, ab'.
Qed.

(** ** Reset, destruction and accounting *)

Lemma wp_reset_single t pool P a L fuel :
  pool_inv t pool P [a] L →
  wp (mdl_pool_reset (S fuel) pool)
    (λ _ t', pool_inv t' pool P [Ablk (a_b a) (a_b a + sizeof_mdl_pool_block_t) (a_end a)] [] ∧
       ps_objs t' = ps_objs t ∧ nodes t' = nodes t ∧ ps_cpools t' = ps_cpools t) t.
Proof.
  intros HI. unfold mdl_pool_reset, reset_pool, list_for_each_prev. wp_steps.
  eapply wp_list_empty; [by eapply pi_list|]. simpl. wp_steps.
  eapply wp_get_prev; [by eapply dlist_prev, pi_list|]. simpl. wp_steps.
  pose proof (pi_list _ _ _ _ _ HI) as Hd.
  destruct HI as [I1 I2 I3 I4 I5 I6 I7 I8 I9]. simpl in I4. injection I4 as I4.
  destruct (I5 a ltac:(set_solver)) as (E1&E2&E3&E4&E5&E6&E7).
  unfold bsize, owner, sizeof_mdl_pool_block_t, sizeof_mdl_pool_t, POOL_ALIGNMENT in *.
  rewrite I4, Z.eqb_refl in E7.
  rewrite (proj2 (Z.eqb_neq _ _)) by (unfold block_head_list; lia). wp_steps.
  eapply wp_get_prev; [exact (dlist_prev_entry _ _ [] _ [] Hd)|]. simpl.
  rewrite Z.eqb_refl. wp_steps. eapply wp_block_at; [done|]. wp_steps.
  eapply wp_block_set; [done|]. wp_steps. eapply wp_pool_set; [done|]. simpl.
  assert (u64 (a_end a - pool) = pl_capacity P) as ->.
  { rewrite I2. simpl. rewrite I4, Z.eqb_refl. f_equal. lia. }
  rewrite set_capacity_id. split_and!; [|done..]. unfold set_current. simpl.
  unfold ALIGN_PTR, POOL_ALIGNMENT. change (4 - 1) with 3. rewrite land3.
  split; simpl; try done.
  - by rewrite insert_id.
  - by rewrite I4.
  - intros a' ->%list_elem_of_singleton.
    unfold block_ok, bsize, owner, sizeof_mdl_pool_block_t, sizeof_mdl_pool_t, POOL_ALIGNMENT.
    simpl. rewrite lookup_insert_eq, I4, Z.eqb_refl. rewrite <- I4.
    split_and!; try done; try dlia. f_equal; f_equal; dlia.
  - intros ?? []%elem_of_nil.
  - constructor.
Qed.

(** Once the pool has grown, the block that the loop frees first is the first
    block, which is no object of its own. *)
Lemma reset_grown_faults t pool P a b ab L fuel :
  pool_inv t pool P (a :: b :: ab) L → policy_ok (pl_factory P) t →
  mdl_pool_reset (S fuel) pool t = Fault.
Proof.
  intros HI Hok. pose proof (pi_list _ _ _ _ _ HI) as Hd.
  pose proof (pi_last _ _ _ _ _ HI) as Hl. pose proof (pi_object _ _ _ _ _ HI) as (sz&Ho&Hsz).
  assert (∃ pre y z, a :: b :: ab = pre ++ [y; z]) as (pre&y&z&Hab).
  { destruct (exists_last (l := a :: b :: ab) ltac:(done)) as (l&z&El); rewrite El.
    destruct l as [|y pre _] using rev_ind; [done|]. exists pre, y, z. by rewrite <- app_assoc. }
  rewrite Hab in *. clear Hab a b ab.
  replace (pre ++ [y; z]) with ((pre ++ [y]) ++ [z]) in * by (rewrite <- (app_assoc pre); done).
  rewrite last_snoc in Hl. injection Hl as Hz. rewrite fmap_app in Hd. simpl in Hd.
  destruct (pi_blocks _ _ _ _ _ HI z ltac:(set_solver)) as (EB&_&_&Hc&_).
  unfold mdl_pool_reset, reset_pool, list_for_each_prev.
  apply bind_outcome. eapply wp_list_empty; [done|].
  rewrite bool_decide_eq_false_2 by (by destruct (a_b <$> pre ++ [y])).
  apply bind_fault, bind_outcome.
  eapply wp_get_prev; [by eapply dlist_prev|]. rewrite last_snoc. simpl.
  rewrite (proj2 (Z.eqb_neq _ _)) by (rewrite Hz; unfold block_head_list, sizeof_mdl_pool_t; lia).
  apply bind_fault, bind_fault, bind_outcome.
  eapply wp_get_prev; [by eapply dlist_prev_entry|]. rewrite fmap_app. simpl. rewrite last_snoc. simpl.
  rewrite (proj2 (Z.eqb_neq _ _)).
  2: { rewrite fmap_app in Hd. eapply dlist_head_ne; [done|set_solver]. }
  apply bind_outcome. eapply wp_list_del; [done|]. intros h' _ _ _.
  apply bind_outcome. eapply wp_pool_at; [exact (pi_pool _ _ _ _ _ HI)|].
  apply bind_outcome. eapply wp_block_at; [exact EB|].
  pose proof (pi_pos _ _ _ _ _ HI).
  apply bind_fault, block_free_invalid; [by apply (policy_ok_stable _ t)|
    unfold sizeof_mdl_pool_t in *; lia|].
  rewrite Hz. simpl. apply eq_None_not_Some. intros [n Hn].
  destruct (pi_heap _ _ _ _ _ HI) as [Hpos Hap].
  pose proof (Hpos _ _ Hn). pose proof (Hap _ _ _ _ Ho Hn) as Hx.
  unfold apart, sizeof_mdl_pool_t, sizeof_mdl_pool_block_t in *. lia.
Qed.

(** The accounting: the pool structure, and for every block its header and the
    memory it has served. *)
Lemma wp_get_used_size t pool P ab L fuel :
  pool_inv t pool P ab L → (length ab < fuel)%nat →
  wp (mdl_pool_get_used_size fuel pool)
    (λ n t', t' = t ∧
      n = u64 (sizeof_mdl_pool_t + foldr (λ a n, a_cur a - a_b a + n) 0 ab)) t.
Proof.
  intros HI Hf. unfold mdl_pool_get_used_size.
  eapply (wp_list_for_each _ (a_b <$> ab) (λ pre n t', t' = t ∧
    ∃ pre' post, ab = pre' ++ post ∧ pre = a_b <$> pre' ∧
      n = u64 (sizeof_mdl_pool_t + foldr (λ a n, a_cur a - a_b a + n) 0 pre'))).
  - by rewrite length_fmap.
  - split; [done|]. by exists [], ab.
  - intros pre _ t' [-> _]. by eapply pi_list.
  - intros pre x post n t' Hab [-> (pre'&post'&->&->&->)].
    rewrite fmap_app in Hab. apply app_inv_head in Hab.
    destruct post' as [|a post']; [done|]. injection Hab as <- _.
    destruct (pi_blocks _ _ _ _ _ HI a ltac:(set_solver)) as (EB&_&_&Hc&?&_).
    wp_steps. eapply wp_block_at; [done|]. wp_steps. split; [done|].
    exists (pre' ++ [a]), post'. rewrite <- app_assoc, fmap_app. split_and!; [done..|].
    simpl. unfold u64. rewrite <- Zplus_mod. f_equal.
    assert (∀ l x, foldr (λ a n, a_cur a - a_b a + n) x l =
      foldr (λ a n, a_cur a - a_b a + n) 0 l + x) as Hfold.
    { induction l as [|y l IH]; intros z; simpl; [done|]. rewrite IH. lia. }
    rewrite foldr_app. simpl. rewrite (Hfold pre' (a_cur a - a_b a + 0)).
    unfold sizeof_mdl_pool_block_t. lia.
  - intros n t' [-> (pre'&post'&->&Hab&->)]. wp_steps. split; [done|].
    rewrite fmap_app in Hab. apply (f_equal length) in Hab. rewrite length_app in Hab.
    destruct post'; simpl in *; [|lia]. by rewrite app_nil_r.
Qed.

Lemma wp_destroy_single t pool P a L C fuel :
  pool_inv t pool P [a] L → policy_ok (pl_factory P) t →
  ps_cpools t !! pl_factory P = Some C → policy_block_free (cp_factory C) = true →
  wp (mdl_pool_destroy_int (S fuel) pool)
    (λ _ t', policy_ok (pl_factory P) t' ∧ ps_objs t' = delete pool (ps_objs t) ∧
       nodes t' = outside pool (bsize pool a) (nodes t)) t.
Proof.
  intros HI Hok HC Hfree. unfold mdl_pool_destroy_int. wp_steps.
  eapply wp_get_next; [by eapply dlist_next, pi_list|]. simpl. wp_steps.
  eapply wp_mono; [by apply (wp_reset_single _ _ _ _ _ _ HI)|]. intros _ t1 (HI1&Eo&En&Ec).
  pose proof (pi_blocks _ _ _ _ _ HI1 _ (list_elem_of_here _ _)) as (EB1&_).
  wp_steps. eapply wp_block_at; [exact EB1|].
  wp_steps. eapply wp_pool_at; [by eapply pi_pool|]. wp_steps.
  eapply wp_cpool_at; [by rewrite Ec|]. rewrite Hfree. simpl.
  destruct (pi_blocks _ _ _ _ _ HI a ltac:(set_solver)) as (E1&E2&E3&E4&E5&E6&E7).
  pose proof (pi_last _ _ _ _ _ HI) as [= Hl].
  unfold bsize, owner in *. rewrite Hl, Z.eqb_refl in *.
  unfold sizeof_mdl_pool_t, sizeof_mdl_pool_block_t in *. rewrite u64_small by lia.
  eapply wp_mono; [apply block_free_spec; [by apply (policy_ok_stable _ t)|by rewrite Eo]|].
  intros _ t2 (Hok2&Eo2&En2&_). split_and!; [done|by rewrite Eo2, Eo|].
  etrans; [exact En2|]. by rewrite En.
Qed.
End alloc.

(** ** Properties *)

(** C10: [mdl_pool_alloc] never hands out memory twice and never out of bounds.
    From a pool that satisfies the invariant, for sizes whose rounding does not
    overflow, the call terminates without an invalid access and its assertion
    holds; it returns NULL only when no block has room, after calling the
    callback, and leaves the pool alone; otherwise the result is aligned, lies
    in the data area of a live block and overlaps no allocation served before
    (the invariant of [(p, size) :: L]), whichever block served it and whether
    or not the pool had to grow. *)
Theorem pool_alloc_safe `{BlockPolicyLaws} t pool P ab L size fuel :
  pool_inv t pool P ab L → policy_ok (pl_factory P) t → pl_callback P ≠ 0 →
  0 ≤ size → 0 ≤ pl_increment_size P → size + 2 * pl_increment_size P + 88 < 2 ^ 63 →
  (length ab < fuel)%nat →
  wp (mdl_pool_alloc fuel pool size) (alloc_result t pool P ab L size) t.
Proof.
  intros HI Hok Hcb Hs Hi Hm Hf. unfold mdl_pool_alloc. wp_steps.
  pose proof (pi_last _ _ _ _ _ HI) as Hl. destruct ab as [|a ab]; [done|].
  eapply wp_get_next; [by eapply dlist_next, pi_list|]. wp_steps. simpl.
  eapply (wp_alloc_step _ _ _ []); [done|lia|done| |].
  - intros p t' Hp HQ. rewrite (proj2 (Z.eqb_neq _ _)) by done. by wp_steps.
  - intros _. simpl. by apply wp_allocate_find.
Qed.

(** [mdl_pool_create_int] aborts below the size of its own structures, and
    otherwise returns NULL with nothing changed, or a pool in one fresh object,
    with an empty aligned first block behind the pool structure, whose name is
    the request's, cut to 31 characters, and which satisfies the invariant with
    nothing served. *)
Theorem pool_create_int_spec `{BlockPolicyLaws} f name initial inc cb t :
  policy_ok f t → objects_apart (ps_objs t) → cb ≠ 0 → 0 ≤ initial < 2 ^ 63 →
  if initial <? sizeof_mdl_pool_t + sizeof_mdl_pool_block_t
  then mdl_pool_create_int f name initial inc cb t = AssertFailed
  else wp (mdl_pool_create_int f name initial inc cb) (λ p t',
    p = 0 ∧ ps_objs t' = ps_objs t ∧ same_pools t t' ∨
    fresh_object t p initial ∧ ps_objs t' = <[p := initial]> (ps_objs t) ∧
    pool_inv t' p
      (Pool (default "" (String.substring 0 (MAX_OBJ_NAME - 1) <$> name)) initial inc f 0 cb)
      [Ablk (p + sizeof_mdl_pool_t) (p + sizeof_mdl_pool_t + sizeof_mdl_pool_block_t) (p + initial)]
      []) t.
Proof.
  intros Hok Hh Hcb Hi. destruct (Z.ltb_spec initial (sizeof_mdl_pool_t + sizeof_mdl_pool_block_t)).
  - unfold mdl_pool_create_int, sizeof_mdl_pool_t, sizeof_mdl_pool_block_t in *.
    rewrite (u64_small (104 + 40)) by lia.
    unfold mbind, M_bind at 1, c_assert. by rewrite (proj2 (Z.leb_gt _ _)).
  - eapply wp_mono; [apply wp_create_int; [done..|lia]|].
    intros p t' (_&[(->&?&?)|(?&?&_&_&_&_&_&HI)]); [by left|]. right.
    unfold sizeof_mdl_pool_t, sizeof_mdl_pool_block_t.
    replace (p + 104 + 40) with (p + 144) by lia. done.
Qed.

(** C18: [mdl_pool_reset] works exactly on pools that never grew: with one block
    it empties the pool in place; with two or more, the loop takes the first
    block, the one inside the pool's own object, for the oldest one to free,
    and the program is undefined. *)
Theorem pool_reset_behaviour `{BlockPolicyLaws} t pool P ab L fuel :
  pool_inv t pool P ab L → policy_ok (pl_factory P) t →
  match ab with
  | [a] => wp (mdl_pool_reset (S fuel) pool)
      (λ _ t', pool_inv t' pool P
         [Ablk (a_b a) (a_b a + sizeof_mdl_pool_block_t) (a_end a)] []) t
  | _ => mdl_pool_reset (S fuel) pool t = Fault
  end.
Proof.
  intros HI Hok. pose proof (pi_last _ _ _ _ _ HI) as Hl.
  destruct ab as [|a [|b ab]]; [done| |by eapply reset_grown_faults].
  eapply wp_mono; [by eapply wp_reset_single|]. by intros _ t' (?&_).
Qed.

(** The rounding of [mdl_pool_alloc_from_block] is unchecked: a request of
    one of the last three sizes of [size_t] rounds to zero and is served, with
    a valid pointer to no memory at all. *)
Theorem pool_alloc_size_wraps `{BlockPolicy} t b s c e size :
  ps_blocks t !! b = Some (Block s c e) → 0 ≤ c ≤ e → e < 2 ^ 63 →
  2 ^ 64 - 4 < size < 2 ^ 64 →
  mdl_pool_alloc_from_block b size t = Ret (c, t).
Proof.
  intros HB Hc He Hs. unfold mdl_pool_alloc_from_block, POOL_ALIGNMENT. cbv zeta.
  change (4 - 1) with 3. rewrite land3, (proj2 (Z.eqb_neq (size mod 4) 0)) by dlia. cbn [negb].
  assert (Z.land (u64 (size + 4)) (u64 (Z.lnot 3)) = 0) as ->.
  { assert (size = 2 ^ 64 - 3 ∨ size = 2 ^ 64 - 2 ∨ size = 2 ^ 64 - 1) as [->|[->| ->]] by lia;
      reflexivity. }
  apply bind_outcome. eapply wp_block_at; [done|]. simpl.
  rewrite u64_small, (proj2 (Z.leb_le _ _)) by lia.
  apply bind_outcome. eapply wp_block_set; [done|].
  unfold set_current, with_blocks. simpl. rewrite Z.add_0_r, insert_id by done. by destruct t.
Qed.
