(* ===== verification/Caching.v ===== *)
(** * Caching: the default block policy (src/pool/policy.c) and the caching pool
    factory (src/pool/caching.c)

    The default policy implements the interface [BlockPolicy] that pool.c is
    proved against, on top of [malloc], which is a parameter with its documented
    contract.  The factory recycles released pools through sixteen free lists,
    one per size class. *)
From stdpp Require Import base tactics list numbers gmap fin_maps strings.
From S2P Require Import Prelude Lists Pool.
Local Open Scope Z_scope.

(** [malloc] chooses an address from the live objects and the size; NULL is 0. *)
Class Malloc := malloc : gmap Z Z → Z → Z.

Class MallocLaws `{Malloc} := malloc_spec live size :
  0 < size → malloc live size ≠ 0 →
  0 < malloc live size ∧ malloc live size mod 16 = 0 ∧ malloc live size + size < 2 ^ 63 ∧
  ∀ o n, live !! o = Some n → apart (malloc live size) size o n.

(** ** policy.c *)

(** The address of [default_pool_callback]; the function only returns ENOMEM. *)
Definition default_pool_callback : mdl_pool_callback := 1.

(** Signatures are compiled out (SAFE_POOL is 0). *)
Definition SIG_SIZE : Z := 0.

Definition set_cp_used (used peak : Z) (C : mdl_caching_pool_s) : mdl_caching_pool_s :=
  Cpool (cp_factory C) (cp_capacity C) (cp_max_capacity C) (cp_used_count C) used peak (cp_locked C).
Definition set_cp_capacity (v : Z) (C : mdl_caching_pool_s) : mdl_caching_pool_s :=
  Cpool (cp_factory C) v (cp_max_capacity C) (cp_used_count C) (cp_used_size C) (cp_peak_used_size C) (cp_locked C).
Definition set_cp_count (v : Z) (C : mdl_caching_pool_s) : mdl_caching_pool_s :=
  Cpool (cp_factory C) (cp_capacity C) (cp_max_capacity C) v (cp_used_size C) (cp_peak_used_size C) (cp_locked C).
Definition set_cp_locked (v : bool) (C : mdl_caching_pool_s) : mdl_caching_pool_s :=
  Cpool (cp_factory C) (cp_capacity C) (cp_max_capacity C) (cp_used_count C) (cp_used_size C) (cp_peak_used_size C) v.

Definition cpool_on_block_alloc (f sz : Z) : M pool_state Z :=
  cpool_set f (λ C,
    let used := u64 (cp_used_size C + sz) in
    set_cp_used used (if cp_peak_used_size C <? used then used else cp_peak_used_size C) C);;
  mret 1.

Definition cpool_on_block_free (f sz : Z) : M pool_state unit :=
  cpool_set f (λ C, set_cp_used (u64 (cp_used_size C - sz)) (cp_peak_used_size C) C).

Section policy.
Context `{Malloc}.

Definition c_malloc (size : Z) : M pool_state Z :=
  p ← gets (λ t, malloc (ps_objs t) size);
  if p =? NULL then mret NULL
  else modify (λ t, with_objs (<[p := size]> (ps_objs t)) t);; mret p.

Definition default_block_alloc (factory size : Z) : M pool_state Z :=
  F ← cpool_at factory;
  rc ← (if f_on_block_alloc (cp_factory F) then cpool_on_block_alloc factory size else mret 1);
  if rc =? 0 then mret NULL
  else
    p ← c_malloc (u64 (size + Z.shiftl SIG_SIZE 1));
    if p =? NULL then
      (if f_on_block_free (cp_factory F) then cpool_on_block_free factory size else mret tt);;
      mret p
    else mret p.

Definition default_block_free (factory mem size : Z) : M pool_state unit :=
  F ← cpool_at factory;
  (if f_on_block_free (cp_factory F) then cpool_on_block_free factory size else mret tt);;
  if mem =? NULL then mret tt else free_obj mem.
End policy.

#[export] Instance default_policy `{Malloc} : BlockPolicy :=
  {| block_alloc := default_block_alloc; block_free := default_block_free |}.

(** ** caching.c *)

Definition free_list (cp i : Z) : Z := cp + 112 + 16 * i.
Definition used_list (cp : Z) : Z := cp + 368.
Definition sizeof_mdl_caching_pool_t : Z := 936.
Definition CACHING_POOL_ARRAY_SIZE : nat := 16.
Definition START_SIZE : nat := 5.

Definition pool_sizes : list Z :=
  [256; 512; 1024; 2048; 4096; 8192; 12288; 16384;
   20480; 24576; 28672; 32768; 40960; 49152; 57344; 65536].
Definition pool_size (i : nat) : Z := default 0 (pool_sizes !! i).

(** The two scans of [cpool_create_pool] for the size class. *)
Fixpoint scan_down (k : nat) (initial_size : Z) : nat :=
  match k with
  | O => O
  | S idx => if initial_size <=? pool_size idx then scan_down idx initial_size else S idx
  end.
Fixpoint scan_up (fuel idx : nat) (initial_size : Z) : nat :=
  match fuel with
  | O => idx
  | S fuel =>
      if (idx <? CACHING_POOL_ARRAY_SIZE)%nat && (pool_size idx <? initial_size)
      then scan_up fuel (S idx) initial_size else idx
  end.
Definition size_class (initial_size : Z) : nat :=
  if initial_size <=? pool_size START_SIZE
  then scan_down START_SIZE initial_size
  else scan_up CACHING_POOL_ARRAY_SIZE (S START_SIZE) initial_size.

Section caching.
Context `{Malloc}.

(** The lock is a default (non-recursive) mutex: taking it twice blocks. *)
Definition cp_lock (cp : Z) : M pool_state unit :=
  C ← cpool_at cp;
  if cp_locked C then blocked else cpool_set cp (set_cp_locked true).
Definition cp_unlock (cp : Z) : M pool_state unit := cpool_set cp (set_cp_locked false).

Definition cpool_create_pool (pf : Z) (name : option string) (initial_size increment_sz : Z)
    (callback : mdl_pool_callback) : M pool_state Z :=
  let cp := pf in
  cp_lock cp;;
  C ← cpool_at pf;
  let callback := if callback =? 0 then policy_callback (cp_factory C) else callback in
  let idx := size_class initial_size in
  none ← (if (idx =? CACHING_POOL_ARRAY_SIZE)%nat then mret true
          else list_empty (free_list cp (Z.of_nat idx)));
  pool ← (if (none : bool) then
      let initial_size :=
        if (idx <? CACHING_POOL_ARRAY_SIZE)%nat then pool_size idx else initial_size in
      mdl_pool_create_int cp name initial_size increment_sz callback
    else
      pool ← get_next (free_list cp (Z.of_nat idx));
      list_del pool;;
      mdl_pool_init_int pool name increment_sz callback;;
      cap ← mdl_pool_get_capacity pool;
      cpool_set cp (λ C, set_cp_capacity
        (if cap <? cp_capacity C then u64 (cp_capacity C - cap) else 0) C);;
      mret pool);
  if pool =? NULL then cp_unlock cp;; mret NULL
  else
    list_add pool (used_list cp);;
    pool_set pool (set_data_factory (Z.of_nat idx));;
    cpool_set cp (λ C, set_cp_count (u64 (cp_used_count C + 1)) C);;
    cp_unlock cp;;
    mret pool.

Definition cpool_release_pool (fuel : nat) (pf pool : Z) : M pool_state unit :=
  let cp := pf in
  cp_lock cp;;
  list_del pool;;
  cpool_set cp (λ C, set_cp_count (u64 (cp_used_count C - 1)) C);;
  pool_capacity ← mdl_pool_get_capacity pool;
  C ← cpool_at cp;
  if (pool_size (CACHING_POOL_ARRAY_SIZE - 1) <? pool_capacity) ||
     (cp_max_capacity C <? u64 (cp_capacity C + pool_capacity)) then
    mdl_pool_destroy_int fuel pool;;
    cp_unlock cp
  else
    mdl_pool_reset fuel pool;;
    pool_capacity ← mdl_pool_get_capacity pool;
    P ← pool_at pool;
    let i := u32 (pl_data_factory P) in
    c_assert (i <? Z.of_nat CACHING_POOL_ARRAY_SIZE);;
    list_add pool (free_list cp i);;
    cpool_set cp (λ C, set_cp_capacity (u64 (cp_capacity C + pool_capacity)) C);;
    cp_unlock cp.

(** [used * 100 / capacity] on [size_t]. *)
Definition percent_used (used capacity : Z) : M pool_state Z :=
  if capacity =? 0 then fault else mret (u64 (used * 100) / capacity).

(** A line for each pool in use: used size, capacity, percentage; and the line of
    the totals. *)
Definition cpool_dump_status (fuel : nat) (factory : Z) (detail : bool) :
    M pool_state (list (Z * Z * Z) * option (Z * Z * Z)) :=
  let cp := factory in
  cp_lock cp;;
  lines ← (if detail then
    list_for_each fuel (used_list cp)
      (λ pool '(lines, total_used, total_capacity),
        pool_capacity ← mdl_pool_get_capacity pool;
        used ← mdl_pool_get_used_size fuel pool;
        pct ← percent_used used pool_capacity;
        mret (inl (lines ++ [(used, pool_capacity, pct)],
          u64 (total_used + used), u64 (total_capacity + pool_capacity))))
      (λ '(lines, total_used, total_capacity),
        if total_capacity =? 0 then mret (lines, None)
        else
          pct ← percent_used total_used total_capacity;
          mret (lines, Some (total_used, total_capacity, pct)))
      ([], 0, 0)
  else mret ([], None));
  cp_unlock cp;;
  mret lines.

(** The caller's memory becomes a caching pool: [bzero(cp, sizeof *cp)]. *)
Definition cast_cpool (cp : Z) : M pool_state unit :=
  modify_opt (λ t,
    if decide (covered (ps_objs t) cp sizeof_mdl_caching_pool_t)
    then Some (with_cpools (insert cp (Cpool (Factory false 0 false false false false) 0 0 0 0 0 false))
      (with_nodes (foldr (λ i h, <[free_list cp (Z.of_nat i) := Node 0 0]> h)
        (<[used_list cp := Node 0 0]> (nodes t)) (seq 0 CACHING_POOL_ARRAY_SIZE)) t))
    else None).

(** [policy] by its [block_free != NULL] and its callback; its [block_alloc] is
    the instance's. *)
Definition mdl_caching_pool_init (cp : Z) (policy : option (bool * mdl_pool_callback))
    (max_capacity : Z) : M pool_state unit :=
  cast_cpool cp;;
  cpool_set cp (λ C, Cpool (cp_factory C) (cp_capacity C) max_capacity (cp_used_count C)
                       (cp_used_size C) (cp_peak_used_size C) (cp_locked C));;
  INIT_LIST_HEAD (used_list cp);;
  foldr (λ i k, INIT_LIST_HEAD (free_list cp (Z.of_nat i));; k) (mret tt)
    (seq 0 CACHING_POOL_ARRAY_SIZE);;
  let pol := default (true, default_pool_callback) policy in
  cpool_set cp (λ C, Cpool (Factory pol.1 pol.2 true true true true) (cp_capacity C)
    (cp_max_capacity C) (cp_used_count C) (cp_used_size C) (cp_peak_used_size C) false).

(** Both loops unlink and destroy the entry under [list_for_each]. *)
Definition destroy_list (fuel : nat) (head : Z) : M pool_state unit :=
  list_for_each fuel head
    (λ node _, list_del node;; mdl_pool_destroy_int fuel node;; mret (inl tt)) mret tt.

Definition mdl_caching_pool_destroy (fuel : nat) (cp : Z) : M pool_state unit :=
  foldr (λ i k, destroy_list fuel (free_list cp (Z.of_nat i));; k) (mret tt)
    (seq 0 CACHING_POOL_ARRAY_SIZE);;
  destroy_list fuel (used_list cp).

(** [mdl_pool_create] and [mdl_pool_release] of pool.c, through the function
    pointers that [mdl_caching_pool_init] stores. *)
Definition mdl_pool_create (f : Z) (name : option string) (initial_size increment_size : Z)
    (callback : mdl_pool_callback) : M pool_state Z :=
  C ← cpool_at f;
  if f_create_pool (cp_factory C)
  then cpool_create_pool f name initial_size increment_size callback else fault.
Definition mdl_pool_release (fuel : nat) (pool : Z) : M pool_state unit :=
  P ← pool_at pool;
  C ← cpool_at (pl_factory P);
  if f_release_pool (cp_factory C) then cpool_release_pool fuel (pl_factory P) pool else mret tt.
End caching.

(** ** The default policy keeps the promise of the interface *)

Section policy_laws.
Context `{MallocLaws}.

(** The factory is there, and NULL is no object. *)
Definition factory_ok (f : Z) (t : pool_state) : Prop :=
  is_Some (ps_cpools t !! f) ∧ ps_objs t !! 0 = None.

(** The accounting hooks change nothing but the factory's own counters. *)
Definition same_but_factory (f : Z) (t t' : pool_state) : Prop :=
  same_pools t t' ∧ ps_objs t' = ps_objs t ∧ factory_ok f t'.

Lemma same_but_factory_set f C' t : factory_ok f t →
  same_but_factory f t (with_cpools (insert f C') t).
Proof.
  intros [_ HN]. split_and!; try done. split; [|done]. simpl. by rewrite lookup_insert_eq.
Qed.
Lemma same_but_factory_refl f t : factory_ok f t → same_but_factory f t t.
Proof. by intros. Qed.

Lemma wp_alloc_hook (b : bool) f sz t :
  factory_ok f t →
  wp (if b then cpool_on_block_alloc f sz else mret 1)
    (λ rc t', rc = 1 ∧ same_but_factory f t t') t.
Proof.
  intros Hf. destruct b; [|by wp_steps]. pose proof Hf as [[C HC] _].
  unfold cpool_on_block_alloc. wp_steps. eapply wp_cpool_set; [done|]. wp_steps.
  split; [done|by apply same_but_factory_set].
Qed.
Lemma wp_free_hook (b : bool) f sz t :
  factory_ok f t →
  wp (if b then cpool_on_block_free f sz else mret tt) (λ _ t', same_but_factory f t t') t.
Proof.
  intros Hf. destruct b; [|by wp_steps]. pose proof Hf as [[C HC] _].
  eapply wp_cpool_set; [done|]. by apply same_but_factory_set.
Qed.

Lemma default_block_alloc_ok f size t :
  factory_ok f t → 0 < size < 2 ^ 63 →
  wp (default_block_alloc f size)
    (λ p t', same_pools t t' ∧ factory_ok f t' ∧
      (p = 0 ∧ ps_objs t' = ps_objs t ∨
       fresh_object t p size ∧ ps_objs t' = <[p := size]> (ps_objs t))) t.
Proof.
  intros Hf Hs. pose proof Hf as [[C HC] _]. unfold default_block_alloc.
  wp_steps. eapply wp_cpool_at; [done|].
  assert (u64 (size + Z.shiftl SIG_SIZE 1) = size) as ->
    by (unfold SIG_SIZE; rewrite Z.shiftl_0_l, Z.add_0_r; apply u64_small; lia).
  wp_steps. eapply wp_mono; [by apply wp_alloc_hook|].
  intros rc t1 (->&Hsame&Ho&Hf1). simpl. unfold c_malloc. wp_steps. rewrite Ho.
  destruct (Z.eqb_spec (malloc (ps_objs t) size) NULL) as [E|E]; wp_steps; simpl.
  - wp_steps. eapply wp_mono; [by apply wp_free_hook|].
    intros _ t2 (Hsame2&Ho2&Hf2). wp_steps. split_and!; [|done|left; by rewrite Ho2].
    destruct Hsame as (E1&E2&E3&E4), Hsame2 as (?&?&?&?). split_and!; congruence.
  - rewrite (proj2 (Z.eqb_neq _ _)) by done. wp_steps.
    pose proof (malloc_spec (ps_objs t) size ltac:(lia) E) as Hm.
    split_and!; [done| |by right; rewrite Ho].
    destruct Hf1 as [? ?]. split; [done|]. simpl. rewrite lookup_insert_ne; [done|]. lia.
Qed.

#[export] Program Instance default_policy_laws : BlockPolicyLaws := {| policy_ok := factory_ok |}.
Next Obligation. intros f t t' E1 E2. unfold factory_ok. by rewrite E1, E2. Qed.
Next Obligation. intros f size t. apply default_block_alloc_ok. Qed.
Next Obligation.
  intros f mem size t Hf Hm. simpl. unfold default_block_free. pose proof Hf as [[C HC] H0'].
  wp_steps. eapply wp_cpool_at; [done|]. wp_steps.
  eapply wp_mono; [by apply wp_free_hook|]. intros _ t1 ((E1&E2&E3&E4)&Ho&Hf1).
  rewrite (proj2 (Z.eqb_neq _ _)) by (unfold NULL; congruence).
  unfold free_obj. eapply wp_modify_opt; [cbv beta; rewrite Ho, Hm; done|].
  simpl in *. rewrite E1, E2, E3, E4. split_and!; try done.
  split; [apply Hf1|]. simpl. apply lookup_delete_None. by right.
Qed.
Next Obligation.
  intros f mem size t Hf Hnz Hm. simpl. unfold default_block_free. pose proof Hf as [[C HC] _].
  apply bind_outcome. eapply wp_cpool_at; [done|]. apply bind_outcome.
  eapply wp_mono; [by apply wp_free_hook|]. intros _ t1 (_&Ho&_).
  rewrite (proj2 (Z.eqb_neq _ _)) by done. unfold free_obj, modify_opt. by rewrite Ho, Hm.
Qed.
End policy_laws.

(** ** A concrete allocator and state, for the examples *)

(** Objects are laid out one after the other, 16-aligned. *)
Definition bump_top (live : gmap Z Z) : Z := map_fold (λ o n top, Z.max top (o + n)) 16 live.
Definition bump_malloc : Malloc := λ live size,
  let p := (bump_top live + 15) / 16 * 16 in
  if p + size <? 2 ^ 63 then p else NULL.

Lemma bump_top_ge live : 16 ≤ bump_top live ∧ ∀ o n, live !! o = Some n → o + n ≤ bump_top live.
Proof.
  unfold bump_top. apply (map_fold_weak_ind (λ top live, 16 ≤ top ∧ ∀ o n, live !! o = Some n → o + n ≤ top)).
  - split; [done|]. intros o n. by rewrite lookup_empty.
  - intros o n m top _ [H1 H2]. split; [lia|].
    intros o' n' [[<- <-]|[_ Ho']]%lookup_insert_Some; [lia|]. apply H2 in Ho'. lia.
Qed.

Lemma bump_malloc_laws : @MallocLaws bump_malloc.
Proof.
  intros live size Hs Hn. unfold malloc in *. unfold bump_malloc in *. cbv zeta in *.
  destruct (bump_top_ge live) as [H1 H2].
  destruct (Z.ltb_spec ((bump_top live + 15) / 16 * 16 + size) (2 ^ 63)); [|done].
  rewrite Z.mod_mul by done. split_and!; [dlia|done|done|].
  intros o n Ho. right. apply H2 in Ho. dlia.
Qed.

(** A caching pool at 16 and a pool of 256 bytes at 960, with one block. *)
Definition ex_pool : mdl_pool_s := Pool "pool" 256 512 16 0 default_pool_callback.
Definition ex_state : pool_state := PS
  {[ 16 := 936; 960 := 256 ]}
  {[ 384 := Node 960 960; 960 := Node 384 384; 128 := Node 128 128;
     1040 := Node 1064 1064; 1064 := Node 1040 1040 ]}
  {[ 960 := ex_pool ]}
  {[ 1064 := Block 1104 1104 1216 ]}
  {[ 16 := Cpool (Factory true default_pool_callback true true true true) 0 65536 1 256 256 false ]}
  [].

Lemma objects_apart_check (objs : gmap Z Z) :
  bool_decide (map_Forall (λ o1 n1, 0 < n1 ∧ map_Forall (λ o2 n2, o1 = o2 ∨
    (o1 + n1 ≤ o2 ∨ o2 + n2 ≤ o1)) objs) objs) = true → objects_apart objs.
Proof.
  intros HA%bool_decide_eq_true. split.
  - intros o n Ho. by apply (HA o n Ho).
  - intros o1 n1 o2 n2 Ho1 Ho2 Hne. destruct (HA o1 n1 Ho1) as [_ HB].
    by destruct (HB o2 n2 Ho2).
Qed.

Lemma ex_pool_inv : pool_inv ex_state 960 ex_pool [Ablk 1064 1104 1216] [].
Proof.
  split; try done.
  - split; [apply (bool_decide_unpack _); by vm_compute|by vm_compute].
  - intros a ->%list_elem_of_singleton. unfold block_ok. split_and!; by vm_compute.
  - apply objects_apart_check. by vm_compute.
  - intros ? ? ?%elem_of_nil. done.
  - constructor.
Qed.

Lemma ex_factory_ok : factory_ok 16 ex_state.
Proof. split; [by eexists|done]. Qed.

#[local] Existing Instance bump_malloc.
#[local] Existing Instance bump_malloc_laws.

(** 300 bytes do not fit the first block: the pool grows. *)
Lemma pool_alloc_safe_witness :
  pool_inv ex_state 960 ex_pool [Ablk 1064 1104 1216] [] ∧
  wp (mdl_pool_alloc 2 960 300)
    (alloc_result ex_state 960 ex_pool [Ablk 1064 1104 1216] [] 300) ex_state.
Proof.
  split; [exact ex_pool_inv|].
  apply (pool_alloc_safe ex_state 960 ex_pool [Ablk 1064 1104 1216] [] 300 2 ex_pool_inv);
    first [exact ex_factory_ok|vm_compute; congruence|simpl; lia].
Defined.

Lemma pool_create_int_spec_witness :
  wp (mdl_pool_create_int 16 (Some "second") 1024 512 default_pool_callback) (λ p t',
    p = 0 ∧ ps_objs t' = ps_objs ex_state ∧ same_pools ex_state t' ∨
    fresh_object ex_state p 1024 ∧ ps_objs t' = <[p := 1024]> (ps_objs ex_state) ∧
    pool_inv t' p (Pool "second" 1024 512 16 0 default_pool_callback)
      [Ablk (p + 104) (p + 104 + 40) (p + 1024)] []) ex_state.
Proof.
  pose proof (pool_create_int_spec 16 (Some "second"%string) 1024 512 default_pool_callback ex_state
    ex_factory_ok (pi_heap _ _ _ _ _ ex_pool_inv) ltac:(done) ltac:(lia)) as Hwp.
  exact Hwp.
Defined.

Lemma pool_reset_behaviour_witness :
  pool_inv ex_state 960 ex_pool [Ablk 1064 1104 1216] [] ∧
  wp (mdl_pool_reset 1 960)
    (λ _ t', pool_inv t' 960 ex_pool [Ablk 1064 1104 1216] []) ex_state.
Proof.
  split; [exact ex_pool_inv|].
  exact (pool_reset_behaviour ex_state 960 ex_pool [Ablk 1064 1104 1216] [] 0
    ex_pool_inv ex_factory_ok).
Defined.

Lemma pool_alloc_size_wraps_witness :
  mdl_pool_alloc_from_block 1064 (2 ^ 64 - 1) ex_state = Ret (1104, ex_state).
Proof.
  exact (pool_alloc_size_wraps ex_state 1064 1104 1104 1216 (2 ^ 64 - 1) eq_refl
    ltac:(lia) ltac:(lia) ltac:(lia)).
Defined.

(** ** Recycling *)

Section recycle.
Context `{MallocLaws}.

(** One pool [p] with one block, the factory [cp] with record [C], and the
    family [A] of all lists, in a heap of objects [O]. *)
Record recycling (O : gmap Z Z) (cp : Z) (C : mdl_caching_pool_s) (A : gmap Z (list Z))
    (p : Z) (P : mdl_pool_s) (a : ablock) (L : list (Z * Z)) (t : pool_state) : Prop := {
  rc_objs : ps_objs t = O;
  rc_cp : ps_cpools t !! cp = Some C;
  rc_repr : represents (nodes t) A;
  rc_blocks : A !! block_head_list p = Some [a_b a];
  rc_pool : pool_inv t p P [a] L;
  rc_node : is_Some (nodes t !! p);
}.

Lemma pool_inv_nodes t h p P ab L :
  pool_inv t p P ab L → dlist h (block_head_list p) (a_b <$> ab) →
  pool_inv (with_nodes h t) p P ab L.
Proof. intros [I1 I2 I3 I4 I5 I6 I7 I8 I9] Hd. by split. Qed.

Lemma pool_inv_fields t p P P' ab L :
  pool_inv t p P ab L → pl_capacity P' = pl_capacity P →
  pool_inv (with_pools (insert p P') t) p P' ab L.
Proof.
  intros [I1 I2 I3 I4 I5 I6 I7 I8 I9] Hc. split; try done; simpl.
  - by rewrite lookup_insert_eq.
  - by rewrite Hc.
Qed.

Section steps.
Context (O : gmap Z Z) (cp p : Z) (a : ablock).
Implicit Types (t : pool_state) (C : mdl_caching_pool_s) (P : mdl_pool_s).

Lemma rc_cpool_set C A P L g t :
  recycling O cp C A p P a L t → wp (cpool_set cp g) (λ _, recycling O cp (g C) A p P a L) t.
Proof.
  intros [R1 R2 R3 R4 R5 R6]. eapply wp_cpool_set; [done|]. split; simpl; try done.
  - by rewrite lookup_insert_eq.
  - by apply (pool_inv_frame t).
Qed.

Lemma rc_pool_set C A P L g t :
  recycling O cp C A p P a L t → pl_capacity (g P) = pl_capacity P →
  wp (pool_set p g) (λ _, recycling O cp C A p (g P) a L) t.
Proof.
  intros [R1 R2 R3 R4 R5 R6] Hg. eapply wp_pool_set; [by eapply pi_pool|]. split; simpl; try done.
  by apply (pool_inv_fields t p P).
Qed.

(** [p] is in no list of [A]. *)
Definition unlisted (A : gmap Z (list Z)) : Prop := ∀ hd xs, A !! hd = Some xs → p ∉ hd :: xs.

Lemma rc_list_del C A P L hd xs ys t :
  recycling O cp C A p P a L t → A !! hd = Some (xs ++ p :: ys) → hd ≠ block_head_list p →
  wp (list_del p) (λ _ t', recycling O cp C (<[hd := xs ++ ys]> A) p P a L t' ∧
    unlisted (<[hd := xs ++ ys]> A)) t.
Proof.
  intros [R1 R2 R3 R4 R5 R6] Hhd Hne. eapply wp_list_del_repr; [done..|].
  intros h' HR' [Hi Hf]. split; [|done]. split; simpl; try done.
  - by rewrite lookup_insert_ne.
  - apply pool_inv_nodes; [done|]. apply HR'. by rewrite lookup_insert_ne.
Qed.

Lemma rc_list_add C A P L hd xs t :
  recycling O cp C A p P a L t → A !! hd = Some xs → hd ≠ block_head_list p → unlisted A →
  wp (list_add p hd) (λ _, recycling O cp C (<[hd := p :: xs]> A) p P a L) t.
Proof.
  intros [R1 R2 R3 R4 R5 R6] Hhd Hne Hf. eapply wp_list_add_repr; [done..|].
  intros h' HR'. split; simpl; try done.
  - by rewrite lookup_insert_ne.
  - apply pool_inv_nodes; [done|]. apply HR'. by rewrite lookup_insert_ne.
  - eapply dlist_is_Some; [apply HR', lookup_insert_eq|set_solver].
Qed.

Lemma rc_lock C A P L t :
  recycling O cp C A p P a L t → cp_locked C = false →
  wp (cp_lock cp) (λ _, recycling O cp (set_cp_locked true C) A p P a L) t.
Proof.
  intros HR HC. unfold cp_lock. wp_steps. eapply wp_cpool_at; [by apply HR|].
  rewrite HC. by apply rc_cpool_set.
Qed.

Lemma rc_capacity C A P L t :
  recycling O cp C A p P a L t →
  wp (mdl_pool_get_capacity p) (λ c t', c = pl_capacity P ∧ t' = t) t.
Proof.
  intros HR. unfold mdl_pool_get_capacity. wp_steps.
  eapply wp_pool_at; [by eapply pi_pool, rc_pool|]. by wp_steps.
Qed.

Lemma rc_reset C A P L fuel t :
  recycling O cp C A p P a L t →
  wp (mdl_pool_reset (S fuel) p) (λ _, recycling O cp C A p P
    (Ablk (a_b a) (a_b a + sizeof_mdl_pool_block_t) (a_end a)) []) t.
Proof.
  intros [R1 R2 R3 R4 R5 R6]. eapply wp_mono; [by eapply wp_reset_single|].
  intros _ t' (HI&Eo&En&Ec). split; try done.
  - by rewrite Eo.
  - by rewrite Ec.
  - by rewrite En.
  - by rewrite En.
Qed.
End steps.

(** What the dump shows of a pool. *)
Definition dump_line (l : mdl_pool_s * list ablock) : Z * Z * Z :=
  let used := u64 (sizeof_mdl_pool_t + foldr (λ a n, a_cur a - a_b a + n) 0 l.2) in
  (used, pl_capacity l.1, u64 (used * 100) / pl_capacity l.1).

(** The dump reads the pools in use, the last one created first, and changes
    nothing. *)
Lemma cpool_dump_status_spec t cp C us (info : Z → mdl_pool_s * list ablock) fuel :
  ps_cpools t !! cp = Some C → cp_locked C = false → dlist (nodes t) (used_list cp) us →
  (length us < fuel)%nat →
  (∀ p, p ∈ us → (∃ L, pool_inv t p (info p).1 (info p).2 L) ∧ pl_capacity (info p).1 ≠ 0 ∧
    (length (info p).2 < fuel)%nat) →
  wp (cpool_dump_status fuel cp true) (λ r t', t' = t ∧ r.1 = dump_line ∘ info <$> us) t.
Proof.
  intros HC HL Hus Hf Hps. unfold cpool_dump_status, cp_lock. wp_steps. eapply wp_cpool_at; [done|]. rewrite HL.
  eapply wp_cpool_set; [done|]. wp_steps. set (t1 := with_cpools _ t).
  eapply (wp_list_for_each _ us (λ pre a t', t' = t1 ∧ a.1.1 = dump_line ∘ info <$> pre)); [done|done| | |].
  - by intros pre a t' [-> _].
  - intros pre p post [[lines tu] tc] t' Hsplit [-> Hlines]. simpl in Hlines. subst lines.
    destruct (Hps p) as ([L HI]&Hne&Hab); [rewrite Hsplit; set_solver|].
    assert (pool_inv t1 p (info p).1 (info p).2 L) as HI1 by (by apply (pool_inv_frame t)).
    unfold mdl_pool_get_capacity. wp_steps. eapply wp_pool_at; [by eapply pi_pool|]. wp_steps.
    eapply wp_mono; [by eapply wp_get_used_size|]. intros used t' [-> ->]. unfold percent_used.
    rewrite (proj2 (Z.eqb_neq _ _)) by done. wp_steps. split; [done|]. simpl. by rewrite fmap_app.
  - intros [[lines tu] tc] t' [-> Hlines]. simpl in Hlines. subst lines.
    assert (∀ Q : unit → pool_state → Prop, Q tt t → wp (cp_unlock cp) Q t1) as Hun.
    { intros Q HQ. unfold cp_unlock. eapply wp_cpool_set; [apply lookup_insert_eq|].
      replace (with_cpools _ t1) with t; [done|]. unfold t1, with_cpools. simpl. rewrite insert_insert_eq.
      destruct t as [o n p b c k], C. simpl in *. subst. by rewrite insert_id. }
    unfold percent_used. destruct (tc =? 0); wp_steps; apply Hun; by wp_steps.
Qed.

(** Releasing a pool that the factory keeps: it moves from the used list to the
    free list of its size class, emptied. *)
Lemma wp_release_recycle O cp C A p P a L xs ys fs i fuel t :
  recycling O cp C A p P a L t → cp_locked C = false →
  A !! used_list cp = Some (xs ++ p :: ys) → A !! free_list cp i = Some fs →
  used_list cp ≠ block_head_list p → free_list cp i ≠ block_head_list p →
  pl_data_factory P = i → 0 ≤ i < 16 →
  0 ≤ cp_capacity C → 0 ≤ pl_capacity P ≤ 65536 →
  cp_capacity C + pl_capacity P ≤ cp_max_capacity C < 2 ^ 64 →
  wp (cpool_release_pool (S fuel) cp p) (λ _, recycling O cp
      (set_cp_locked false (set_cp_capacity (cp_capacity C + pl_capacity P)
        (set_cp_count (u64 (cp_used_count C - 1)) (set_cp_locked true C))))
      (<[free_list cp i := p :: fs]> (<[used_list cp := xs ++ ys]> A)) p P
      (Ablk (a_b a) (a_b a + sizeof_mdl_pool_block_t) (a_end a)) []) t.
Proof.
  intros HR Hl Hu Hf Hnu Hnf Hi Hir HC HP Hm. unfold cpool_release_pool. cbv zeta.
  wp_step. eapply wp_mono; [by apply rc_lock|]. clear HR t. intros [] t HR.
  wp_step. eapply wp_mono; [by eapply rc_list_del|]. clear HR t. intros [] t [HR Hun].
  wp_step. eapply wp_mono; [by apply rc_cpool_set|]. clear HR t. intros [] t HR.
  wp_step. eapply wp_mono; [by eapply rc_capacity|]. intros c ? [-> ->].
  wp_step. eapply wp_cpool_at; [by apply HR|].
  change (pool_size (CACHING_POOL_ARRAY_SIZE - 1)) with 65536. simpl.
  rewrite u64_small by lia.
  rewrite (proj2 (Z.ltb_ge 65536 _)), (proj2 (Z.ltb_ge (cp_max_capacity C) _)) by lia. simpl.
  wp_step. eapply wp_mono; [by eapply rc_reset|]. clear HR t. intros [] t HR.
  wp_step. eapply wp_mono; [by eapply rc_capacity|]. intros c ? [-> ->].
  wp_step. eapply wp_pool_at; [by eapply pi_pool, rc_pool|].
  assert (u32 (pl_data_factory P) = i) as -> by (rewrite Hi; apply u32_small; lia).
  wp_step. apply wp_assert; [apply Z.ltb_lt; unfold CACHING_POOL_ARRAY_SIZE; lia|].
  wp_step. eapply wp_mono; [eapply rc_list_add; [done| |done|done]|].
  { rewrite lookup_insert_ne; [done|]. unfold used_list, free_list. lia. }
  clear HR t. intros [] t HR.
  wp_step. eapply wp_mono; [by apply rc_cpool_set|]. clear HR t. intros [] t HR.
  eapply wp_mono; [by apply rc_cpool_set|]. clear HR t. intros [] t HR.
  cbv beta in HR. simpl in HR. by rewrite u64_small in HR by lia.
Qed.

(** Creating a pool in a size class that has a free pool: no memory is
    allocated, the pool is taken from the list and renamed. *)
Lemma wp_create_reuse O cp C A p P a us fs i name initial inc cb t :
  recycling O cp C A p P a [] t → cp_locked C = false →
  A !! used_list cp = Some us → A !! free_list cp i = Some (p :: fs) →
  used_list cp ≠ block_head_list p → free_list cp i ≠ block_head_list p →
  i = Z.of_nat (size_class initial) → (size_class initial < 16)%nat →
  cb ≠ 0 → 0 ≤ pl_capacity P ≤ cp_capacity C → cp_capacity C < 2 ^ 64 →
  wp (cpool_create_pool cp name initial inc cb) (λ q t', q = p ∧ recycling O cp
      (set_cp_locked false (set_cp_count (u64 (cp_used_count C + 1))
        (set_cp_capacity (cp_capacity C - pl_capacity P) (set_cp_locked true C))))
      (<[used_list cp := p :: us]> (<[free_list cp i := fs]> A)) p
      (Pool (default "" (String.substring 0 (MAX_OBJ_NAME - 1) <$> name))
         (pl_capacity P) inc (pl_factory P) i cb) a [] t') t.
Proof.
  intros HR Hl Hu Hf Hnu Hnf Hi Hir Hcb HP Hm. unfold cpool_create_pool. cbv zeta.
  rewrite <- Hi, (proj2 (Z.eqb_neq _ _)), (proj2 (Nat.eqb_neq _ _))
    by (unfold CACHING_POOL_ARRAY_SIZE; lia).
  wp_step. eapply wp_mono; [by apply rc_lock|]. clear HR t. intros [] t HR.
  wp_step. eapply wp_cpool_at; [by apply HR|].
  wp_step. eapply wp_list_empty; [by apply (rc_repr _ _ _ _ _ _ _ _ _ HR)|]. simpl.
  wp_step. wp_step. eapply wp_get_next; [by eapply dlist_next, (rc_repr _ _ _ _ _ _ _ _ _ HR)|].
  simpl. wp_step. eapply wp_mono; [exact (rc_list_del _ _ _ _ _ _ _ _ _ [] fs _ HR Hf Hnf)|].
  clear HR t. intros [] t [HR Hun]. unfold mdl_pool_init_int.
  wp_steps. eapply wp_mono; [by apply rc_pool_set|]. clear HR t. intros [] t HR.
  wp_steps. eapply wp_mono; [by apply rc_pool_set|]. clear HR t. intros [] t HR.
  apply (wp_mono _ (λ _, recycling O cp (set_cp_locked true C)
    (<[free_list cp i := [] ++ fs]> A) p
    (Pool (default "" (String.substring 0 (MAX_OBJ_NAME - 1) <$> name))
         (pl_capacity P) inc (pl_factory P) (pl_data_factory P) cb) a [])).
  { destruct name as [name|]; (eapply wp_mono; [by apply rc_pool_set|]); by intros. }
  clear HR t. intros [] t HR.
  wp_steps. eapply wp_mono; [by eapply rc_capacity|]. intros c ? [-> ->].
  wp_steps. eapply wp_mono; [by apply rc_cpool_set|]. clear HR t. intros [] t HR.
  wp_steps. pose proof (pi_pos _ _ _ _ _ (rc_pool _ _ _ _ _ _ _ _ _ HR)).
  rewrite (proj2 (Z.eqb_neq p _)) by (unfold NULL; lia).
  wp_steps. eapply wp_mono; [eapply rc_list_add; [done| |done|done]|].
  { rewrite lookup_insert_ne; [done|]. unfold used_list, free_list. lia. }
  clear HR t. intros [] t HR.
  wp_steps. eapply wp_mono; [by apply rc_pool_set|]. clear HR t. intros [] t HR.
  wp_steps. eapply wp_mono; [by apply rc_cpool_set|]. clear HR t. intros [] t HR.
  wp_steps. eapply wp_mono; [by apply rc_cpool_set|]. clear HR t. intros [] t HR.
  wp_steps. split; [done|]. revert HR. unfold set_data_factory. simpl.
  assert ((if pl_capacity P <? cp_capacity C then u64 (cp_capacity C - pl_capacity P) else 0)
    = cp_capacity C - pl_capacity P) as ->; [|done].
  destruct (Z.ltb_spec (pl_capacity P) (cp_capacity C)); [apply u64_small; lia|lia].
Qed.

(** A non-empty list of the factory cannot be destroyed: the successor of the
    first entry is read from the pool that was just freed. *)
Lemma destroy_list_faults t hd p ps A P ab L C fuel :
  represents (nodes t) A → A !! hd = Some (p :: ps) →
  A !! block_head_list p = Some (a_b <$> ab) → hd ≠ block_head_list p →
  pool_inv t p P ab L → factory_ok (pl_factory P) t →
  ps_cpools t !! pl_factory P = Some C → policy_block_free (cp_factory C) = true →
  destroy_list (S fuel) hd t = Fault.
Proof.
  intros HR Hhd Hb Hne HI Hok HC Hfree. unfold destroy_list, list_for_each.
  pose proof (proj1 HR _ _ Hhd) as Hd.
  apply bind_outcome. eapply wp_get_next; [by eapply dlist_next|]. simpl.
  rewrite (proj2 (Z.eqb_neq _ _)) by (eapply dlist_head_ne; [done|set_solver]).
  assert (∀ h', represents h' (<[hd := ps]> A) → pool_inv (with_nodes h' t) p P ab L) as HI'.
  { intros h' HR'. apply pool_inv_nodes; [done|]. apply HR'. by rewrite lookup_insert_ne. }
  pose proof (pi_last _ _ _ _ _ HI) as Hl.
  destruct ab as [|a [|b ab]]; [done|clear Hl|].
  - apply bind_fault, bind_outcome. wp_step. eapply (wp_list_del_repr _ _ _ []); [done..|].
    intros h' HR' _. wp_step. eapply wp_mono; [by eapply wp_destroy_single; [apply HI'|..]|].
    intros _ t2 (_&_&En). wp_step. apply bind_fault. unfold get_next, gets_opt. rewrite En.
    assert (outside p (bsize p a) (nodes (with_nodes h' t)) !! p = None) as ->; [|done].
    apply map_lookup_filter_None_2. right. intros n _. simpl.
    destruct (pi_object _ _ _ _ _ HI) as (sz&Ho&Hsz).
    destruct (pi_blocks _ _ _ _ _ HI a ltac:(set_solver)) as (_&_&_&Hc&_&_&Ho').
    pose proof (pi_last _ _ _ _ _ HI) as [= Hl].
    unfold bsize, owner, sizeof_mdl_pool_t, sizeof_mdl_pool_block_t in *.
    rewrite Hl, Z.eqb_refl in *. intros Hx. apply Hx. lia.
  - apply bind_fault, bind_fault, bind_outcome. eapply (wp_list_del_repr _ _ _ []); [done..|].
    intros h' HR' _. apply bind_fault, bind_outcome.
    eapply wp_get_next; [eapply dlist_next, pi_list, HI', HR'|].
    apply bind_fault. by eapply reset_grown_faults; [apply HI'|].
Qed.
End recycle.

(** ** Properties *)

(** [cpool_create_pool] picks the least size class that fits the request:
    the two scans of the size table end within it, every smaller class is too
    small, and the class past the end is chosen only above 65536 bytes. *)
Theorem size_class_spec (n : Z) :
  (size_class n ≤ CACHING_POOL_ARRAY_SIZE)%nat ∧
  (if (size_class n <? CACHING_POOL_ARRAY_SIZE)%nat
   then n ≤ pool_size (size_class n) else 65536 < n) ∧
  ∀ j, (j < size_class n)%nat → pool_size j < n.
Proof.
  unfold size_class, START_SIZE, CACHING_POOL_ARRAY_SIZE, pool_size.
  cbn [scan_down scan_up]. unfold CACHING_POOL_ARRAY_SIZE, pool_size. simpl.
  repeat match goal with
    | |- context [Z.leb ?a ?b] => destruct (Z.leb_spec a b)
    | |- context [Z.ltb ?a ?b] => destruct (Z.ltb_spec a b)
    end; cbn -[Z.lt Z.le lookup] in *; (split_and!; [lia|simpl; lia|]); intros j Hj;
    do 16 (destruct j as [|j]; [simpl in *; lia|]); lia.
Qed.

(** C17: recycling.  Releasing a pool that never grew, when the factory keeps
    it, and creating a pool of its size class again terminates without invalid
    access or deadlock, allocates nothing, and returns the same pool, now empty,
    with the new name, increment and callback; the factory's record is what it
    was, the pool is back on the used list, and every other list is untouched. *)
Theorem caching_pool_recycles `{MallocLaws} O cp C A p P a L xs ys fs i fuel name initial inc cb t :
  recycling O cp C A p P a L t → cp_locked C = false → 0 ≤ cp_used_count C < 2 ^ 64 →
  A !! used_list cp = Some (xs ++ p :: ys) → A !! free_list cp i = Some fs →
  used_list cp ≠ block_head_list p → free_list cp i ≠ block_head_list p →
  pl_data_factory P = i → i = Z.of_nat (size_class initial) → (size_class initial < 16)%nat →
  0 ≤ cp_capacity C → 0 ≤ pl_capacity P ≤ 65536 →
  cp_capacity C + pl_capacity P ≤ cp_max_capacity C < 2 ^ 64 → cb ≠ 0 →
  wp (cpool_release_pool (S fuel) cp p;; cpool_create_pool cp name initial inc cb)
    (λ q t', q = p ∧ recycling O cp C (<[used_list cp := p :: xs ++ ys]> A) p
      (Pool (default "" (String.substring 0 (MAX_OBJ_NAME - 1) <$> name))
         (pl_capacity P) inc (pl_factory P) i cb)
      (Ablk (a_b a) (a_b a + sizeof_mdl_pool_block_t) (a_end a)) [] t') t.
Proof.
  intros HR Hl Hcnt Hu Hf Hnu Hnf Hd Hi Hir HC HP Hm Hcb.
  assert (used_list cp ≠ free_list cp i) as Hneq by (unfold used_list, free_list; lia).
  wp_step. eapply wp_mono; [eapply wp_release_recycle; try done; lia|].
  intros [] t1 HR1. eapply wp_mono; [eapply wp_create_reuse; try done; simpl; try lia|].
  - by rewrite lookup_insert_ne, lookup_insert_eq.
  - by rewrite lookup_insert_eq.
  - intros q t2 [-> HR2]. split; [done|]. revert HR2. simpl.
    assert (<[used_list cp:=p :: xs ++ ys]> (<[free_list cp i:=fs]>
      (<[free_list cp i:=p :: fs]> (<[used_list cp:=xs ++ ys]> A)))
      = <[used_list cp:=p :: xs ++ ys]> A) as ->.
    { apply map_eq. intros k. rewrite !lookup_insert. repeat case_decide; congruence. }
    assert (u64 (u64 (cp_used_count C - 1) + 1) = cp_used_count C) as ->.
    { unfold u64. rewrite Zplus_mod_idemp_l, Z.sub_add. by apply Z.mod_small. }
    replace (cp_capacity C + pl_capacity P - pl_capacity P) with (cp_capacity C) by lia.
    destruct C. simpl in *. by subst.
Qed.

(** [mdl_caching_pool_destroy] is undefined as soon as the factory holds a
    pool: [list_for_each] reads the successor from the entry that its body has
    unlinked and freed.  Shown for a factory whose used list is not empty. *)
Theorem caching_pool_destroy_faults `{MallocLaws} t cp C A p ps P ab L fuel :
  represents (nodes t) A → (∀ i, (i < 16)%nat → A !! free_list cp (Z.of_nat i) = Some []) →
  A !! used_list cp = Some (p :: ps) →
  A !! block_head_list p = Some (a_b <$> ab) → used_list cp ≠ block_head_list p →
  pool_inv t p P ab L → pl_factory P = cp → factory_ok cp t →
  ps_cpools t !! cp = Some C → policy_block_free (cp_factory C) = true →
  mdl_caching_pool_destroy (S fuel) cp t = Fault.
Proof.
  intros HR Hfree Hu Hb Hne HI HP Hok HC Hbf. unfold mdl_caching_pool_destroy.
  apply bind_outcome. apply (wp_mono _ (λ _ t', t' = t)).
  2: { intros _ ? ->. by eapply destroy_list_faults; rewrite ?HP. }
  assert (∀ n k, (k + n ≤ 16)%nat →
    wp (foldr (λ i k, destroy_list (S fuel) (free_list cp (Z.of_nat i));; k) (mret tt) (seq k n))
      (λ _ t', t' = t) t) as Hall; [|by apply (Hall 16%nat 0%nat)].
  induction n as [|n IH]; intros k Hk; simpl; [done|]. wp_step.
  unfold destroy_list, list_for_each. wp_step.
  eapply wp_get_next; [eapply dlist_next, HR, Hfree; lia|]. simpl.
  rewrite Z.eqb_refl. wp_steps. apply IH. lia.
Qed.

(** The lists of the example state: one pool in use, sixteen empty free lists. *)
Definition ex_lists : gmap Z (list Z) :=
  foldr (λ i A, <[free_list 16 (Z.of_nat i) := []]> A) {[ 384 := [960]; 1040 := [1064] ]} (seq 0 16).
Definition ex_nodes : gmap Z list_head :=
  foldr (λ i h, <[free_list 16 (Z.of_nat i) := Node (free_list 16 (Z.of_nat i)) (free_list 16 (Z.of_nat i))]> h)
    (nodes ex_state) (seq 0 16).
Definition ex_state' : pool_state := with_nodes ex_nodes ex_state.
Definition ex_cpool : mdl_caching_pool_s :=
  Cpool (Factory true default_pool_callback true true true true) 0 65536 1 256 256 false.

Lemma ex_represents : represents (nodes ex_state') ex_lists.
Proof. apply represents_check. by vm_compute. Qed.
Lemma ex_pool_inv' : pool_inv ex_state' 960 ex_pool [Ablk 1064 1104 1216] [].
Proof.
  apply pool_inv_nodes; [exact ex_pool_inv|]. by apply (proj1 ex_represents).
Qed.
Lemma ex_recycling :
  recycling (ps_objs ex_state) 16 ex_cpool ex_lists 960 ex_pool (Ablk 1064 1104 1216) [] ex_state'.
Proof.
  split; try done; first [exact ex_represents|exact ex_pool_inv'|by eexists].
Qed.

#[local] Existing Instance bump_malloc.
#[local] Existing Instance bump_malloc_laws.

Lemma caching_pool_recycles_witness :
  wp (cpool_release_pool 1 16 960;; cpool_create_pool 16 (Some "again"%string) 200 1024 default_pool_callback)
    (λ q t', q = 960 ∧ recycling (ps_objs ex_state) 16 ex_cpool
      (<[384 := [960]]> ex_lists) 960 (Pool "again" 256 1024 16 0 default_pool_callback)
      (Ablk 1064 1104 1216) [] t') ex_state'.
Proof.
  pose proof (caching_pool_recycles (ps_objs ex_state) 16 ex_cpool ex_lists 960 ex_pool
    (Ablk 1064 1104 1216) [] [] [] [] 0 0 (Some "again"%string) 200 1024 default_pool_callback ex_state'
    ex_recycling eq_refl ltac:(simpl; lia) eq_refl eq_refl ltac:(done) ltac:(done) eq_refl eq_refl
    ltac:(vm_compute; lia) ltac:(simpl; lia) ltac:(simpl; lia) ltac:(simpl; lia) ltac:(done)) as Hwp.
  exact Hwp.
Defined.

Lemma caching_pool_destroy_faults_witness :
  mdl_caching_pool_destroy 1 16 ex_state' = Fault.
Proof.
  apply (caching_pool_destroy_faults ex_state' 16 ex_cpool ex_lists 960 [] ex_pool
    [Ablk 1064 1104 1216] [] 0 ex_represents);
    try first [exact ex_pool_inv'|exact ex_factory_ok|reflexivity|done].
  intros i Hi. do 16 (destruct i as [|i]; [reflexivity|]). lia.
Defined.

Lemma size_class_spec_witness : size_class 10000 = 6%nat ∧ 10000 ≤ pool_size 6.
Proof.
  split; [reflexivity|]. exact (proj1 (proj2 (size_class_spec 10000))).
Defined.
