(* ===== verification/Clist.v ===== *)
(** * Clist: the list library of the UDP and timer modules, as an interface

    ex_udp.h and module_timer.h include a [clist.h] that is not in the
    repository.  The modules use the operations of this class, on circular lists
    with a head; [ClistLaws] states what the code relies on.  A state [l] of the
    list memory represents a family [A] of disjoint lists.  A node that was
    initialised or erased is its own empty list, so that [list_empty] of a node
    says whether it is unlinked.  The operations of Lists.v are an instance. *)
From stdpp Require Import base tactics list numbers gmap fin_maps.
From S2P Require Import Prelude Lists.
Local Open Scope Z_scope.

Class Clist (L : Type) := {
  list_init : Z → L → L;
  clist_empty : Z → L → bool;
  list_push_back : Z → Z → L → L;
  list_push_front : Z → Z → L → L;
  list_insert : Z → Z → L → L;     (* before the position *)
  list_erase : Z → L → L;
  list_pop_front : Z → L → L;
  list_begin : Z → L → Z;
  clist_next : Z → L → Z;          (* the field [next] *)
}.

(** [list_end(head)] is the head. *)
Definition list_end (head : Z) : Z := head.

(** [n] is in no list but possibly its own, empty one. *)
Definition unlinked (A : gmap Z (list Z)) (n : Z) : Prop :=
  ∀ hd xs, A !! hd = Some xs → n ∈ hd :: xs → hd = n ∧ xs = [].

Class ClistLaws (L : Type) `{Clist L} := {
  clist_rep : L → gmap Z (list Z) → Prop;
  clist_init_spec l A p :
    clist_rep l A → unlinked A p → clist_rep (list_init p l) (<[p := []]> A);
  clist_empty_spec l A hd xs :
    clist_rep l A → A !! hd = Some xs → clist_empty hd l = bool_decide (xs = []);
  clist_linked_spec l A hd xs n :
    clist_rep l A → A !! hd = Some xs → n ∈ xs → clist_empty n l = false;
  clist_push_back_spec l A hd xs n :
    clist_rep l A → A !! hd = Some xs → unlinked A n → n ≠ hd →
    clist_rep (list_push_back hd n l) (<[hd := xs ++ [n]]> (delete n A));
  clist_push_front_spec l A hd xs n :
    clist_rep l A → A !! hd = Some xs → unlinked A n → n ≠ hd →
    clist_rep (list_push_front hd n l) (<[hd := n :: xs]> (delete n A));
  clist_insert_spec l A hd xs p ys n :
    clist_rep l A → A !! hd = Some (xs ++ p :: ys) → unlinked A n →
    clist_rep (list_insert p n l) (<[hd := xs ++ n :: p :: ys]> (delete n A));
  clist_erase_spec l A hd xs n ys :
    clist_rep l A → A !! hd = Some (xs ++ n :: ys) →
    clist_rep (list_erase n l) (<[n := []]> (<[hd := xs ++ ys]> A));
  clist_pop_front_spec l A hd n ys :
    clist_rep l A → A !! hd = Some (n :: ys) →
    clist_rep (list_pop_front hd l) (<[n := []]> (<[hd := ys]> A));
  clist_begin_spec l A hd xs :
    clist_rep l A → A !! hd = Some xs → list_begin hd l = default hd (head xs);
  clist_next_spec l A hd xs n ys :
    clist_rep l A → A !! hd = Some (xs ++ n :: ys) →
    clist_next n l = default hd (head ys);
  (** Lists do not share nodes. *)
  clist_nodup l A hd xs : clist_rep l A → A !! hd = Some xs → NoDup (hd :: xs);
  clist_disjoint l A hd1 xs1 hd2 xs2 :
    clist_rep l A → A !! hd1 = Some xs1 → A !! hd2 = Some xs2 → hd1 ≠ hd2 →
    hd1 :: xs1 ## hd2 :: xs2;
}.

Section unlinked.
Context {L : Type} `{ClistLaws L}.
Implicit Types A : gmap Z (list Z).

(** A node that was erased is free. *)
Lemma unlinked_rep (lists : L) A n : clist_rep lists A → A !! n = Some [] → unlinked A n.
Proof.
  intros HR Hn hd xs Hhd Hin. destruct (decide (hd = n)) as [->|Hne].
  - split; [done|]. congruence.
  - exfalso. eapply (clist_disjoint _ _ hd xs n []); [done..|set_solver].
Qed.
Lemma unlinked_low A n hd ys :
  unlinked A n → n ≠ hd → A !! hd = Some ys → n ∉ hd :: ys.
Proof. intros Hu Hne Hhd Hin. by destruct (Hu _ _ Hhd Hin) as [-> _]. Qed.
Lemma unlinked_insert A n k xs :
  unlinked A n → n ∉ k :: xs → unlinked (<[k := xs]> A) n.
Proof.
  intros Hu Hn hd ys. destruct (decide (hd = k)) as [->|].
  - rewrite lookup_insert_eq. intros [= ->] Hin. done.
  - rewrite lookup_insert_ne by done. apply Hu.
Qed.
Lemma unlinked_del A n k : unlinked A n → unlinked (delete k A) n.
Proof. intros Hu hd ys [_ Hl]%lookup_delete_Some. by apply Hu. Qed.
End unlinked.

(** ** The instance: list.h *)

(** Running an operation; a node without memory gets some. *)
Definition exec (m : M (gmap Z list_head) unit) (l : gmap Z list_head) : gmap Z list_head :=
  match m l with Ret (_, l') => l' | _ => l end.
Definition with_node (n : Z) (l : gmap Z list_head) : gmap Z list_head :=
  match l !! n with Some _ => l | None => <[n := Node 0 0]> l end.

#[export] Instance heap_Clist : Clist (gmap Z list_head) := {|
  list_init p l := exec (INIT_LIST_HEAD p) (with_node p l);
  clist_empty p l := match list_empty p l with Ret (b, _) => b | _ => false end;
  list_push_back hd n l := exec (list_add_tail n hd) (with_node n l);
  list_push_front hd n l := exec (list_add n hd) (with_node n l);
  list_insert p n l := exec (list_add_tail n p) (with_node n l);
  list_erase n l := exec (list_del_init n) l;
  list_pop_front hd l := exec (n ← get_next hd; list_del_init n) l;
  list_begin hd l := default 0 (nextof l hd);
  clist_next n l := default 0 (nextof l n);
|}.

Lemma exec_spec (m : M (gmap Z list_head) unit) l (Q : gmap Z list_head → Prop) :
  wp m (λ _, Q) l → Q (exec m l).
Proof. unfold wp, exec. by destruct (m l) as [[[] l']| | | | |]. Qed.

Lemma with_node_same n l x : x ≠ n → with_node n l !! x = l !! x.
Proof. intros Hx. unfold with_node. case_match; [done|]. by rewrite lookup_insert_ne. Qed.
Lemma with_node_there n l : is_Some (with_node n l !! n).
Proof.
  unfold with_node. case_match eqn:E; [by rewrite E|]. by rewrite lookup_insert_eq.
Qed.
Lemma with_node_Some n l x : is_Some (l !! x) → with_node n l !! x = l !! x.
Proof.
  intros [v Hv]. unfold with_node. case_match eqn:E; [done|].
  rewrite lookup_insert_ne; [done|]. congruence.
Qed.

(** Dropping a node's own empty list makes it a free node. *)
Lemma unlinked_delete (A : gmap Z (list Z)) n :
  unlinked A n → ∀ hd xs, delete n A !! hd = Some xs → n ∉ hd :: xs.
Proof. intros Hu hd xs [Hne Hx]%lookup_delete_Some Hin. by destruct (Hu _ _ Hx Hin) as [-> _]. Qed.

Lemma represents_with_node l A n :
  represents l A → unlinked A n → represents (with_node n l) (delete n A) ∧
    free_node (with_node n l) (delete n A) n.
Proof.
  intros HR Hu. pose proof (unlinked_delete _ _ Hu) as Hn. split.
  - destruct (represents_delete _ _ n HR) as [Hd Hdis]. split; [|done].
    intros hd xs Hx. eapply dlist_frame; [|by apply Hd].
    intros x Hin. apply with_node_same. intros ->. by eapply Hn.
  - split; [apply with_node_there|done].
Qed.

Lemma represents_entry l A hd xs n ys :
  represents l A → A !! hd = Some (xs ++ n :: ys) →
  (∀ hd' xs', A !! hd' = Some xs' → hd' ≠ hd → n ∉ hd' :: xs').
Proof.
  intros HR Hhd hd' xs' Hx Hne Hin. eapply (proj2 HR _ _ _ _ Hhd Hx); [done| |exact Hin]. set_solver.
Qed.

Lemma heap_push_spec (tail : bool) l A hd xs n :
  represents l A → A !! hd = Some xs → unlinked A n → n ≠ hd →
  represents (exec (if tail then list_add_tail n hd else list_add n hd) (with_node n l))
    (<[hd := if tail then xs ++ [n] else n :: xs]> (delete n A)).
Proof.
  intros HR Hhd Hu Hne. destruct (represents_with_node _ _ _ HR Hu) as [HR' [Hi Hf]].
  assert (delete n A !! hd = Some xs) as Hhd' by (by rewrite lookup_delete_ne).
  apply exec_spec. exact (wp_add_op (T := gmap Z list_head) _ _ _ _ _ tail HR' Hhd' Hi Hf).
Qed.

(** Inserting before an entry is appending to the list read from that entry. *)
Lemma heap_insert_spec l A hd xs p ys n :
  represents l A → A !! hd = Some (xs ++ p :: ys) → unlinked A n →
  represents (exec (list_add_tail n p) (with_node n l)) (<[hd := xs ++ n :: p :: ys]> (delete n A)).
Proof.
  intros HR Hhd Hu. destruct (represents_with_node _ _ _ HR Hu) as [HR' [Hi Hf]].
  assert (n ≠ hd) as Hne by (intros ->; destruct (Hu _ _ Hhd ltac:(set_solver)); by destruct xs).
  assert (delete n A !! hd = Some (xs ++ p :: ys)) as Hhd' by (by rewrite lookup_delete_ne).
  pose proof (proj1 HR' _ _ Hhd') as Hd.
  apply exec_spec. eapply (wp_list_add_tail (T := gmap Z list_head)).
  - by apply dlist_rotate.
  - pose proof (Hf _ _ Hhd'). set_solver.
  - done.
  - intros h' Hd' Hs. simpl in *. rewrite <- app_assoc in Hd'. simpl in Hd'.
    apply dlist_rotate in Hd'. rewrite <- app_assoc in Hd'. simpl in Hd'.
    eapply (represents_add (T := gmap Z list_head)); [exact HR'|done| |exact Hf|done|].
    + solve_Permutation.
    + intros x Hx. apply Hs. set_solver.
Qed.

Lemma heap_erase_spec l A hd xs n ys :
  represents l A → A !! hd = Some (xs ++ n :: ys) →
  represents (exec (list_del_init n) l) (<[n := []]> (<[hd := xs ++ ys]> A)).
Proof.
  intros HR Hhd. apply exec_spec. eapply (wp_list_del_init (T := gmap Z list_head)); [by apply HR|].
  intros h' Hd Hd' Hs. simpl in *.
  edestruct (represents_unlink (T := gmap Z list_head) l) as [HR' He]; [done..|].
  eapply represents_new; [done..|]. by intros x Hx.
Qed.

#[export] Program Instance heap_ClistLaws : ClistLaws (gmap Z list_head) := {| clist_rep := represents |}.
Next Obligation.
  intros l A p HR Hu. destruct (represents_with_node _ _ _ HR Hu) as [HR' [Hi Hf]].
  rewrite <- insert_delete_eq. simpl. apply (exec_spec (INIT_LIST_HEAD p)).
  apply (wp_init_list_head (T := gmap Z list_head)); [done|].
  intros h' Hd Hs. by eapply represents_new.
Qed.
Next Obligation.
  intros l A hd xs HR Hhd. simpl.
  pose proof (wp_list_empty (T := gmap Z list_head) hd xs (λ b _, b = bool_decide (xs = [])) l
    (proj1 HR _ _ Hhd) eq_refl) as Hwp.
  unfold wp in Hwp. by destruct (list_empty hd l) as [[b l']| | | | |].
Qed.
Next Obligation.
  intros l A hd xs n HR Hhd Hn. apply list_elem_of_split in Hn as (xs1&xs2&->). simpl.
  pose proof (dlist_rotate _ _ _ _ _ (proj1 HR _ _ Hhd)) as Hd.
  pose proof (wp_list_empty (T := gmap Z list_head) n (xs2 ++ hd :: xs1) (λ b _, b = false) l Hd) as Hwp.
  rewrite bool_decide_eq_false_2 in Hwp by (by destruct xs2). specialize (Hwp eq_refl).
  unfold wp in Hwp. by destruct (list_empty n l) as [[b l']| | | | |].
Qed.
Next Obligation. intros l A hd xs n. apply (heap_push_spec true). Qed.
Next Obligation. intros l A hd xs n. apply (heap_push_spec false). Qed.
Next Obligation. intros l A hd xs p ys n. apply heap_insert_spec. Qed.
Next Obligation. intros l A hd xs n ys. apply heap_erase_spec. Qed.
Next Obligation.
  intros l A hd n ys HR Hhd. pose proof (heap_erase_spec _ _ _ [] _ _ HR Hhd) as HE.
  simpl. revert HE. unfold exec. simpl.
  pose proof (dlist_next _ _ _ (proj1 HR _ _ Hhd)) as Hn. simpl in Hn.
  unfold mbind, M_bind, get_next, gets_opt. simpl. unfold nextof in Hn. by rewrite Hn.
Qed.
Next Obligation.
  intros l A hd xs HR Hhd. simpl. by rewrite (dlist_next _ _ _ (proj1 HR _ _ Hhd)).
Qed.
Next Obligation.
  intros l A hd xs n ys HR Hhd. simpl. by rewrite (dlist_next_entry _ _ _ _ _ (proj1 HR _ _ Hhd)).
Qed.
Next Obligation. intros l A hd xs HR Hhd. by destruct (proj1 HR _ _ Hhd). Qed.
Next Obligation. intros l A hd1 xs1 hd2 xs2 HR. by apply HR. Qed.
