(* ===== verification/Timer.v ===== *)
(** * Timer: src/timer/module_timer.c

    Timers by id in a static array; the running ones are on a list ordered by
    deadline, the others on a free list, both through the interface of Clist.v.
    The thread is its loop body [thread_timer]: it ends where the thread sleeps.
    A callback is recorded as an event and assumed not to call the module; so is
    a message.  [time_t] and [long] are not bounded; logging, [test] (a debugging
    aid) and failures of [sem_init] and [pthread_create] are left out. *)
From stdpp Require Import base tactics list sorting numbers gmap fin_maps.
From S2P Require Import Prelude Lists Clist.
Local Open Scope Z_scope.

Definition TIMER_ERROR : Z := -1.
Definition TIMER_OK : Z := 1.
Definition MAX_TIMER_NUMBER : Z := 0xFFF.

(** Function pointers are addresses, 0 for [NULL]. *)
Record st_timer := Timer {
  state : Z;
  times : Z;
  msgid : Z;
  tid : Z;
  tv : timeval;
  interval : timeval;
  func : Z;
  parameter : Z;
}.

(** The addresses of the two heads and of the [list] member of each timer. *)
Definition g_listTimerWork : Z := 1.
Definition g_listTimerFree : Z := 2.
Definition timer_node (id : Z) : Z := 0x1000 + id.

(** The indices of [g_timerArray]. *)
Definition timer_ids : list Z := Z.of_nat <$> seq 0 (Z.to_nat MAX_TIMER_NUMBER).

Inductive timer_event := Called (f p : Z) | Sent (msgid id : Z).

Record timers (L : Type) := Timers {
  g_timerArray : gmap Z st_timer;  (* the entries 0 to MAX_TIMER_NUMBER - 1 *)
  t_lists : L;
  g_sem : Z;
  g_sem_new : Z;
  t_init : bool;  (* the static [b] of [timerInit] *)
  t_clock : nat → timeval;
  t_tick : nat;
  t_events : list timer_event;
}.
Arguments Timers {L}. Arguments g_timerArray {L}. Arguments t_lists {L}. Arguments g_sem {L}.
Arguments g_sem_new {L}. Arguments t_init {L}. Arguments t_clock {L}. Arguments t_tick {L}.
Arguments t_events {L}.

Definition set_array {L} (v : gmap Z st_timer) (t : timers L) : timers L :=
  Timers v (t_lists t) (g_sem t) (g_sem_new t) (t_init t) (t_clock t) (t_tick t) (t_events t).
Definition set_lists {L} (v : L) (t : timers L) : timers L :=
  Timers (g_timerArray t) v (g_sem t) (g_sem_new t) (t_init t) (t_clock t) (t_tick t) (t_events t).
Definition set_sem {L} (v : Z) (t : timers L) : timers L :=
  Timers (g_timerArray t) (t_lists t) v (g_sem_new t) (t_init t) (t_clock t) (t_tick t) (t_events t).
Definition set_sem_new {L} (v : Z) (t : timers L) : timers L :=
  Timers (g_timerArray t) (t_lists t) (g_sem t) v (t_init t) (t_clock t) (t_tick t) (t_events t).
Definition set_init {L} (v : bool) (t : timers L) : timers L :=
  Timers (g_timerArray t) (t_lists t) (g_sem t) (g_sem_new t) v (t_clock t) (t_tick t) (t_events t).
Definition set_tick {L} (v : nat) (t : timers L) : timers L :=
  Timers (g_timerArray t) (t_lists t) (g_sem t) (g_sem_new t) (t_init t) (t_clock t) v (t_events t).
Definition set_events {L} (v : list timer_event) (t : timers L) : timers L :=
  Timers (g_timerArray t) (t_lists t) (g_sem t) (g_sem_new t) (t_init t) (t_clock t) (t_tick t) v.

(** [srctv >= dsttv] *)
Definition cmptime (srctv dsttv : timeval) : bool :=
  (tv_sec dsttv <? tv_sec srctv)
  || ((tv_sec srctv =? tv_sec dsttv) && (tv_usec dsttv <=? tv_usec srctv)).

(** The interval of so many milliseconds, and a time after it. *)
Definition interval_of (timeInterval : Z) : timeval :=
  TV (Z.quot timeInterval 1000) (Z.rem timeInterval 1000 * 1000).
Definition after (tv iv : timeval) : timeval :=
  TV (tv_sec tv + tv_sec iv + Z.quot (tv_usec tv + tv_usec iv) 1000000)
     (Z.rem (tv_usec tv + tv_usec iv) 1000000).

Section ops.
Context {L : Type} `{Clist L}.

Definition timer_at (id : Z) : M (timers L) st_timer := gets_opt (λ t, g_timerArray t !! id).
Definition timer_set (id : Z) (f : st_timer → st_timer) : M (timers L) unit :=
  modify_opt (λ t, (λ x, set_array (<[id := f x]> (g_timerArray t)) t) <$> g_timerArray t !! id).
Definition lists_do (f : L → L) : M (timers L) unit := modify (λ t, set_lists (f (t_lists t)) t).
Definition lock : M (timers L) unit :=
  n ← gets g_sem; if n <=? 0 then blocked else modify (set_sem (n - 1)).
Definition unlock : M (timers L) unit := modify (λ t, set_sem (g_sem t + 1) t).
Definition post_new : M (timers L) unit := modify (λ t, set_sem_new (g_sem_new t + 1) t).
Definition now : M (timers L) timeval := λ t, Ret (t_clock t (t_tick t), set_tick (S (t_tick t)) t).
Definition emit (e : timer_event) : M (timers L) unit :=
  modify (λ t, set_events (t_events t ++ [e]) t).
(** The timer that embeds a list node. *)
Definition timer_of (node : Z) : Z := node - timer_node 0.

(** The result says where the timer went: 1 empty list, 2 before a later one, 3 last. *)
Definition insertTimer (fuel : nat) (id : Z) : M (timers L) Z :=
  lists ← gets t_lists;
  let list_t := list_begin g_listTimerWork lists in
  if clist_empty g_listTimerWork lists then
    lists_do (list_push_front g_listTimerWork (timer_node id));; mret 1
  else
    loop fuel (λ list_t,
      if list_end g_listTimerWork =? list_t then
        lists_do (list_push_back g_listTimerWork (timer_node id));; mret (inr 3)
      else
        timer_t ← timer_at (timer_of list_t);
        TimerVal ← timer_at id;
        if cmptime (tv timer_t) (tv TimerVal) then
          lists_do (list_insert list_t (timer_node id));; mret (inr 2)
        else lists ← gets t_lists; mret (inl (clist_next list_t lists))) list_t.

(** Where an iteration of the thread leaves it. *)
Inductive sleep := Again | WaitNew | WaitUntil (tn : timeval).

Definition set_state (v : Z) (x : st_timer) : st_timer :=
  Timer v (times x) (msgid x) (tid x) (tv x) (interval x) (func x) (parameter x).
Definition set_times (v : Z) (x : st_timer) : st_timer :=
  Timer (state x) v (msgid x) (tid x) (tv x) (interval x) (func x) (parameter x).
Definition set_tv (v : timeval) (x : st_timer) : st_timer :=
  Timer (state x) (times x) (msgid x) (tid x) v (interval x) (func x) (parameter x).
Definition set_interval (v : timeval) (x : st_timer) : st_timer :=
  Timer (state x) (times x) (msgid x) (tid x) (tv x) v (func x) (parameter x).

(** Putting a timer on the free list. *)
Definition push_free (p : Z) : M (timers L) unit :=
  lists_do (list_push_back g_listTimerFree (timer_node p)).

(** The due timer [p] was taken off the list: its callback or its message. *)
Definition fire (fuel : nat) (p : Z) : M (timers L) unit :=
  timer_t ← timer_at p;
  if negb (func timer_t =? 0) then
    insertTimer fuel (tid timer_t);;
    unlock;;
    emit (Called (func timer_t) (parameter timer_t))
  else if 0 <=? msgid timer_t then
    emit (Sent (msgid timer_t) (tid timer_t));;
    (if 0 <? times timer_t then timer_set p (λ x, set_times (times x - 1) x) else mret tt);;
    timer_t' ← timer_at p;
    if (0 <? times timer_t) && (times timer_t' <=? 0) then
      timer_set p (set_state 0);;
      push_free p;;
      unlock
    else insertTimer fuel (tid timer_t);; unlock
  else
    timer_set p (set_state 0);;
    push_free p;;
    unlock.

Definition thread_timer (fuel : nat) : M (timers L) sleep :=
  lock;;
  lists ← gets t_lists;
  if list_end g_listTimerWork =? list_begin g_listTimerWork lists then unlock;; mret WaitNew
  else
    let p := timer_of (list_begin g_listTimerWork lists) in
    timer_t ← timer_at p;
    tv_now ← now;
    if state timer_t =? 0 then
      lists_do (list_pop_front g_listTimerWork);; push_free p;; unlock;; mret Again
    else if cmptime tv_now (tv timer_t) then
      timer_set p (λ x, set_tv (after (tv x) (interval x)) x);;
      lists_do (list_pop_front g_listTimerWork);;
      fire fuel p;;
      mret Again
    else unlock;; mret (WaitUntil (tv timer_t)).

Definition timerInit : M (timers L) unit :=
  b ← gets t_init;
  if (b : bool) then mret tt
  else
    let zero := TV 0 0 in
    modify (set_init true);;
    modify (set_array (list_to_map ((λ b, (b, Timer 0 0 0 b zero zero 0 0)) <$> timer_ids)));;
    lists_do (list_init g_listTimerWork);;
    lists_do (list_init g_listTimerFree);;
    lists_do (λ lists, foldl (λ lists b, list_push_back g_listTimerFree (timer_node b) lists) lists timer_ids);;
    modify (set_sem 1);;
    modify (set_sem_new 0).

Definition GetTimerID : M (timers L) Z :=
  lists ← gets t_lists;
  let pTimer := timer_of (list_begin g_listTimerFree lists) in
  if clist_empty g_listTimerFree lists then mret TIMER_ERROR
  else
    lists_do (list_pop_front g_listTimerFree);;
    timer_t ← timer_at pTimer;
    mret (tid timer_t).

(** The part that the two kinds of timers share: [fill] sets their own fields. *)
Definition start_timer (fuel : nat) (timeInterval : Z) (fill : st_timer → st_timer) : M (timers L) Z :=
  timerInit;;
  lock;;
  id ← GetTimerID;
  if id =? TIMER_ERROR then unlock;; mret TIMER_ERROR
  else
    tv_now ← now;
    timer_set id (λ x, fill (Timer 1 (times x) (msgid x) id
      (after tv_now (interval_of timeInterval)) (interval_of timeInterval) (func x) (parameter x)));;
    insertTimer fuel id;;
    post_new;;
    unlock;;
    mret id.

Definition SetTimer (fuel : nat) (timeInterval pFunc param : Z) : M (timers L) Z :=
  if (timeInterval <=? 0) || (pFunc =? 0) then mret TIMER_ERROR
  else start_timer fuel timeInterval (λ x,
    Timer (state x) (times x) (-1) (tid x) (tv x) (interval x) pFunc param).

Definition SetMsgTimer (fuel : nat) (timeInterval msg n : Z) : M (timers L) Z :=
  if (timeInterval <=? 0) || (msg <? 0) then mret TIMER_ERROR
  else start_timer fuel timeInterval (λ x,
    Timer (state x) n msg (tid x) (tv x) (interval x) (func x) (parameter x)).

Definition KillTimer (id : Z) : M (timers L) unit :=
  if MAX_TIMER_NUMBER <=? id then mret tt
  else
    lock;;
    x ← timer_at id;
    if state x =? 0 then unlock
    else
      lists_do (list_erase (timer_node id));;
      timer_set id (set_state 0);;
      push_free id;;
      unlock.

Definition ChangeTimerTime (fuel : nat) (id timeInterval : Z) : M (timers L) Z :=
  if (MAX_TIMER_NUMBER <=? id) || (timeInterval <=? 0) then mret TIMER_ERROR
  else
    lock;;
    x ← timer_at id;
    if state x =? 0 then unlock;; mret TIMER_ERROR
    else
      tv_now ← now;
      timer_set id (λ x, set_tv (after tv_now (interval_of timeInterval))
        (set_interval (interval_of timeInterval) x));;
      lists_do (list_erase (timer_node id));;
      insertTimer fuel id;;
      unlock;;
      mret TIMER_OK.

Definition GetTimerTime (id : Z) : M (timers L) Z :=
  if MAX_TIMER_NUMBER <=? id then mret 0
  else
    x ← timer_at id;
    if state x =? 0 then mret 0
    else mret (tv_sec (interval x) * 1000 + Z.quot (tv_usec (interval x)) 1000).
End ops.

(** ** The order of deadlines *)

Definition tv_le (a b : timeval) : Prop := cmptime b a = true.
#[export] Instance tv_le_dec a b : Decision (tv_le a b) := decide (cmptime b a = true).

Lemma cmptime_spec a b : cmptime a b = true ↔
  tv_sec b < tv_sec a ∨ tv_sec a = tv_sec b ∧ tv_usec b ≤ tv_usec a.
Proof. unfold cmptime. rewrite orb_true_iff, andb_true_iff. lia. Qed.
#[export] Instance tv_le_trans : Transitive tv_le.
Proof. intros a b c. unfold tv_le. rewrite !cmptime_spec. lia. Qed.
#[export] Instance tv_le_total : Total tv_le.
Proof. intros a b. unfold tv_le. rewrite !cmptime_spec. lia. Qed.
Lemma tv_lt_le a b : cmptime b a = false → tv_le b a.
Proof. intros E. destruct (total tv_le b a) as [|Hl]; [done|]. unfold tv_le in Hl. congruence. Qed.

(** Where [insertTimer] puts a timer: before the first one that is not earlier. *)
Fixpoint tinsert (later : Z → bool) (id : Z) (ws : list Z) : list Z :=
  match ws with
  | [] => [id]
  | w :: ws => if later w then id :: w :: ws else w :: tinsert later id ws
  end.

Lemma tinsert_perm later id ws : tinsert later id ws ≡ₚ id :: ws.
Proof.
  induction ws as [|w ws IH]; simpl; [done|]. case_match; [done|]. rewrite IH. apply Permutation_swap.
Qed.
Lemma tinsert_sorted (dl : Z → timeval) id ws :
  StronglySorted tv_le (dl <$> ws) →
  StronglySorted tv_le (dl <$> tinsert (λ w, cmptime (dl w) (dl id)) id ws).
Proof.
  induction ws as [|w ws IH]; simpl; intros Hs; [repeat constructor|].
  apply StronglySorted_inv in Hs as [Hs Hw]. destruct (cmptime (dl w) (dl id)) eqn:E; simpl.
  - constructor; [by constructor|]. constructor; [done|].
    eapply Forall_impl; [exact Hw|]. intros x. by apply (tv_le_trans (dl id) (dl w) x).
  - constructor; [by apply IH|]. apply Forall_fmap, Forall_forall. intros x Hx.
    apply (elem_of_Permutation_proper _ _ _ (tinsert_perm _ _ _)) in Hx.
    apply elem_of_cons in Hx as [->|Hx]; [by apply tv_lt_le|].
    rewrite Forall_fmap, Forall_forall in Hw. by apply Hw.
Qed.

Lemma sorted_remove (xs : list timeval) y zs :
  StronglySorted tv_le (xs ++ y :: zs) → StronglySorted tv_le (xs ++ zs).
Proof.
  induction xs as [|x xs IH]; simpl; intros [Hs Hx]%StronglySorted_inv; [done|].
  constructor; [by apply IH|]. rewrite Forall_app, Forall_cons in Hx. apply Forall_app. tauto.
Qed.

(** ** The invariant *)

Lemma elem_of_timer_ids id : id ∈ timer_ids ↔ 0 ≤ id < MAX_TIMER_NUMBER.
Proof.
  unfold timer_ids. rewrite list_elem_of_fmap. split.
  - intros (n&->&Hn%elem_of_seq). unfold MAX_TIMER_NUMBER in *. lia.
  - intros Hid. exists (Z.to_nat id). split; [lia|]. apply elem_of_seq. unfold MAX_TIMER_NUMBER in *. lia.
Qed.
Lemma timer_ids_NoDup : NoDup timer_ids.
Proof. apply NoDup_fmap, NoDup_seq. intros ??. lia. Qed.

Definition deadline (arr : gmap Z st_timer) (id : Z) : timeval :=
  default (TV 0 0) (tv <$> arr !! id).

Section invariant.
Context {L : Type} `{!Clist L, !ClistLaws L}.
Implicit Types (t : timers L) (arr : gmap Z st_timer) (ws fs out : list Z).

(** The running timers in order, the free ones, and those that an operation has
    in its hands. *)
Record holds arr (lists : L) ws fs out : Prop := {
  hd_rep : ∃ A, clist_rep lists A ∧ A !! g_listTimerWork = Some (timer_node <$> ws) ∧
    A !! g_listTimerFree = Some (timer_node <$> fs) ∧ ∀ id, id ∈ out → unlinked A (timer_node id);
  hd_ids : ws ++ fs ++ out ≡ₚ timer_ids;
  hd_arr id : id ∈ timer_ids → ∃ x, arr !! id = Some x ∧ tid x = id;
  hd_work id : id ∈ ws → state <$> arr !! id = Some 1;
  hd_free id : id ∈ fs → state <$> arr !! id = Some 0;
  hd_sorted : StronglySorted tv_le (deadline arr <$> ws);
}.

(** Between operations: initialised, unlocked, nothing in anybody's hands. *)
Definition timers_ok t ws fs : Prop :=
  t_init t = true ∧ g_sem t = 1 ∧ holds (g_timerArray t) (t_lists t) ws fs [].

Lemma node_inj id1 id2 : timer_node id1 = timer_node id2 → id1 = id2.
Proof. unfold timer_node. lia. Qed.
#[local] Instance node_Inj : Inj (=) (=) timer_node := node_inj.
Lemma timer_of_node id : timer_of (timer_node id) = id.
Proof. unfold timer_of, timer_node. lia. Qed.

Lemma holds_in arr lists ws fs out id : holds arr lists ws fs out →
  id ∈ ws ++ fs ++ out → 0 ≤ id < MAX_TIMER_NUMBER ∧ ∃ x, arr !! id = Some x ∧ tid x = id.
Proof.
  intros HI Hid. rewrite (hd_ids _ _ _ _ _ HI) in Hid.
  split; [by apply elem_of_timer_ids|by apply (hd_arr _ _ _ _ _ HI)].
Qed.
Lemma node_ne_heads id : 0 ≤ id → timer_node id ≠ g_listTimerWork ∧ timer_node id ≠ g_listTimerFree.
Proof. unfold timer_node, g_listTimerWork, g_listTimerFree. lia. Qed.

(** Taking a timer off a list. *)
Lemma holds_pop_work arr lists id ws fs :
  holds arr lists (id :: ws) fs [] → holds arr (list_pop_front g_listTimerWork lists) ws fs [id].
Proof.
  intros HI. destruct (holds_in _ _ _ _ _ id HI) as [Hid _]; [set_solver|].
  destruct HI as [(A&HR&HW&HF&_) Hids Ha Hw Hf Hs]. destruct (node_ne_heads id) as [N1 N2]; [lia|].
  pose proof (clist_pop_front_spec _ _ _ _ _ HR HW) as HR'. split; try done.
  - eexists. split; [exact HR'|]. split_and!.
    + by rewrite lookup_insert_ne, lookup_insert_eq.
    + by rewrite !lookup_insert_ne.
    + intros i ->%list_elem_of_singleton. apply (unlinked_rep _ _ _ HR'), lookup_insert_eq.
  - rewrite <- Hids. simpl. rewrite app_nil_r. solve_Permutation.
  - intros i Hi. apply Hw. by right.
  - by apply StronglySorted_inv in Hs as [? _].
Qed.
Lemma holds_pop_free arr lists ws id fs :
  holds arr lists ws (id :: fs) [] → holds arr (list_pop_front g_listTimerFree lists) ws fs [id].
Proof.
  intros HI. destruct (holds_in _ _ _ _ _ id HI) as [Hid _]; [set_solver|].
  destruct HI as [(A&HR&HW&HF&_) Hids Ha Hw Hf Hs]. destruct (node_ne_heads id) as [N1 N2]; [lia|].
  pose proof (clist_pop_front_spec _ _ _ _ _ HR HF) as HR'. split; try done.
  - eexists. split; [exact HR'|]. split_and!.
    + by rewrite !lookup_insert_ne.
    + by rewrite lookup_insert_ne, lookup_insert_eq.
    + intros i ->%list_elem_of_singleton. apply (unlinked_rep _ _ _ HR'), lookup_insert_eq.
  - rewrite <- Hids. simpl. rewrite app_nil_r. solve_Permutation.
  - intros i Hi. apply Hf. by right.
Qed.
Lemma holds_erase arr lists ws1 id ws2 fs :
  holds arr lists (ws1 ++ id :: ws2) fs [] → holds arr (list_erase (timer_node id) lists) (ws1 ++ ws2) fs [id].
Proof.
  intros HI. destruct (holds_in _ _ _ _ _ id HI) as [Hid _]; [set_solver|].
  destruct HI as [(A&HR&HW&HF&_) Hids Ha Hw Hf Hs]. destruct (node_ne_heads id) as [N1 N2]; [lia|].
  rewrite fmap_app, fmap_cons in HW.
  pose proof (clist_erase_spec _ _ _ _ _ _ HR HW) as HR'. split; try done.
  - eexists. split; [exact HR'|]. split_and!.
    + by rewrite lookup_insert_ne, lookup_insert_eq, fmap_app.
    + by rewrite !lookup_insert_ne.
    + intros i ->%list_elem_of_singleton. apply (unlinked_rep _ _ _ HR'), lookup_insert_eq.
  - rewrite <- Hids. rewrite app_nil_r. solve_Permutation.
  - intros i Hi. apply Hw. set_solver.
  - rewrite fmap_app, fmap_cons in Hs. rewrite fmap_app. by eapply sorted_remove.
Qed.

(** Changing the timer in hand. *)
Lemma holds_set arr lists ws fs id x x' :
  holds arr lists ws fs [id] → arr !! id = Some x → tid x' = id →
  holds (<[id := x']> arr) lists ws fs [id].
Proof.
  intros [HR Hids Ha Hw Hf Hs] Hx Hx'.
  assert (Hnd : NoDup (ws ++ fs ++ [id])) by (rewrite Hids; apply timer_ids_NoDup).
  assert ((id ∉ ws) ∧ (id ∉ fs)) as [H1 H2].
  { rewrite app_assoc in Hnd. apply NoDup_app in Hnd as (_&Hd&_). split; intros Hi; apply (Hd id); set_solver. }
  split; try done.
  - intros i Hi. destruct (decide (i = id)) as [->|]; [exists x'; by rewrite lookup_insert_eq|].
    rewrite lookup_insert_ne by done. by apply Ha.
  - intros i Hi. rewrite lookup_insert_ne by congruence. by apply Hw.
  - intros i Hi. rewrite lookup_insert_ne by congruence. by apply Hf.
  - replace (deadline (<[id := x']> arr) <$> ws) with (deadline arr <$> ws); [done|].
    apply list_fmap_ext. intros k i Hi. unfold deadline. rewrite lookup_insert_ne; [done|].
    intros ->. apply H1. by eapply list_elem_of_lookup_2.
Qed.

(** Putting the timer in hand on a list. *)
Lemma holds_push_free arr lists ws fs id :
  holds arr lists ws fs [id] → state <$> arr !! id = Some 0 →
  holds arr (list_push_back g_listTimerFree (timer_node id) lists) ws (fs ++ [id]) [].
Proof.
  intros HI Hst. destruct (holds_in _ _ _ _ _ id HI) as [Hid _]; [set_solver|].
  destruct HI as [(A&HR&HW&HF&HU) Hids Ha Hw Hf Hs]. destruct (node_ne_heads id) as [N1 N2]; [lia|].
  split; try done.
  - eexists. split; [apply (clist_push_back_spec _ _ _ _ (timer_node id) HR HF); [apply HU; set_solver|done]|].
    split_and!.
    + by rewrite lookup_insert_ne, lookup_delete_ne.
    + by rewrite lookup_insert_eq, fmap_app.
    + set_solver.
  - by rewrite app_nil_r.
  - intros i [Hi| ->%list_elem_of_singleton]%elem_of_app; [by apply Hf|done].
Qed.
Lemma holds_insert arr lists lists' ws fs id :
  holds arr lists ws fs [id] → state <$> arr !! id = Some 1 →
  (∀ A, clist_rep lists A → A !! g_listTimerWork = Some (timer_node <$> ws) → unlinked A (timer_node id) →
    clist_rep lists' (<[g_listTimerWork := timer_node <$>
      tinsert (λ w, cmptime (deadline arr w) (deadline arr id)) id ws]> (delete (timer_node id) A))) →
  holds arr lists' (tinsert (λ w, cmptime (deadline arr w) (deadline arr id)) id ws) fs [].
Proof.
  intros HI Hst HR'. destruct (holds_in _ _ _ _ _ id HI) as [Hid _]; [set_solver|].
  destruct HI as [(A&HR&HW&HF&HU) Hids Ha Hw Hf Hs]. destruct (node_ne_heads id) as [N1 N2]; [lia|].
  split; try done.
  - eexists. split; [apply (HR' A); [done|done|apply HU; set_solver]|]. split_and!.
    + apply lookup_insert_eq.
    + by rewrite lookup_insert_ne, lookup_delete_ne.
    + set_solver.
  - rewrite tinsert_perm, app_nil_r, <- Hids. solve_Permutation.
  - intros i. rewrite (elem_of_Permutation_proper _ _ _ (tinsert_perm _ _ _)).
    intros [->|Hi]%elem_of_cons; [done|by apply Hw].
  - by apply tinsert_sorted.
Qed.
End invariant.

(** ** The operations keep it *)

Section operations.
Context {L : Type} `{!Clist L, !ClistLaws L}.
Implicit Types (t : timers L) (arr : gmap Z st_timer) (ws fs out : list Z).

(** What an operation leaves alone besides the array and the lists. *)
Definition same_rest t t' : Prop :=
  g_sem t' = g_sem t ∧ g_sem_new t' = g_sem_new t ∧ t_init t' = t_init t ∧ t_clock t' = t_clock t ∧
  t_tick t' = t_tick t ∧ t_events t' = t_events t.

Lemma wp_timer_at id x Q t : g_timerArray t !! id = Some x → Q x t → wp (timer_at id) Q t.
Proof. intros Hx HQ. by eapply wp_gets_opt. Qed.
Lemma wp_timer_set id f x Q t : g_timerArray t !! id = Some x →
  Q tt (set_array (<[id := f x]> (g_timerArray t)) t) → wp (timer_set id f) Q t.
Proof. intros Hx HQ. eapply wp_modify_opt; [cbv beta; by rewrite Hx|done]. Qed.
Lemma wp_lock Q t : g_sem t = 1 → Q tt (set_sem 0 t) → wp lock Q t.
Proof. intros Hs HQ. unfold lock. wp_steps. rewrite Hs. simpl. by wp_steps. Qed.

Local Abbreviation insert_from id := (λ list_t,
      if list_end g_listTimerWork =? list_t then
        lists_do (list_push_back g_listTimerWork (timer_node id));; mret (inr 3)
      else
        timer_t ← timer_at (timer_of list_t);
        TimerVal ← timer_at id;
        if cmptime (tv timer_t) (tv TimerVal) then
          lists_do (list_insert list_t (timer_node id));; mret (inr 2)
        else lists ← gets t_lists; mret (inl (clist_next list_t lists))).

(** The walk from the suffix [ws2] of the list. *)
Lemma insert_walk fuel id t A ws1 ws2 :
  clist_rep (t_lists t) A → A !! g_listTimerWork = Some (timer_node <$> ws1 ++ ws2) →
  unlinked A (timer_node id) → 0 ≤ id → (∀ i, i ∈ id :: ws2 → 0 ≤ i ∧ is_Some (g_timerArray t !! i)) →
  (length ws2 < fuel)%nat →
  let later w := cmptime (deadline (g_timerArray t) w) (deadline (g_timerArray t) id) in
  wp (loop fuel (insert_from id) (default g_listTimerWork (head (timer_node <$> ws2))))
    (λ _ t', ∃ lists', t' = set_lists lists' t ∧
      clist_rep lists' (<[g_listTimerWork := timer_node <$> ws1 ++ tinsert later id ws2]>
        (delete (timer_node id) A))) t.
Proof.
  intros HR HW HU Hid Hin Hf later. destruct (node_ne_heads id Hid) as [N1 _].
  revert ws1 ws2 HW Hin Hf. induction fuel as [|fuel IH]; intros ws1 ws2 HW Hin Hf; [lia|].
  destruct ws2 as [|w ws2]; cbn [loop]; change (list_end g_listTimerWork) with g_listTimerWork.
  - change (default _ _) with g_listTimerWork. wp_steps. rewrite Z.eqb_refl. unfold lists_do. wp_steps. eexists. split; [done|].
    rewrite app_nil_r in HW. rewrite fmap_app. by apply clist_push_back_spec.
  - destruct (Hin w) as [Hw0 [x Hx]]; [set_solver|]. destruct (Hin id) as [_ [y Hy]]; [set_solver|].
    destruct (node_ne_heads w Hw0) as [W1 _]. rewrite fmap_app, fmap_cons in HW.
    change (default _ _) with (timer_node w). wp_steps.
    rewrite (proj2 (Z.eqb_neq _ _)), timer_of_node by done. wp_steps. eapply wp_timer_at; [done|]. wp_steps. eapply wp_timer_at; [done|].
    assert (later w = cmptime (tv x) (tv y)) as El by (unfold later, deadline; by rewrite Hx, Hy).
    simpl. rewrite El. destruct (cmptime (tv x) (tv y)); unfold lists_do; wp_steps.
    + eexists. split; [done|]. rewrite fmap_app, !fmap_cons. by apply clist_insert_spec.
    + rewrite (clist_next_spec _ _ _ _ _ _ HR HW).
      rewrite (cons_middle w ws1), app_assoc. apply IH.
      * by rewrite HW, <- app_assoc, fmap_app.
      * intros i Hi. apply Hin. set_solver.
      * simpl in Hf. lia.
Qed.

Lemma wp_insertTimer fuel id t ws fs :
  holds (g_timerArray t) (t_lists t) ws fs [id] → state <$> g_timerArray t !! id = Some 1 →
  (length ws < fuel)%nat →
  wp (insertTimer fuel id) (λ _ t', same_rest t t' ∧ g_timerArray t' = g_timerArray t ∧
    holds (g_timerArray t) (t_lists t')
      (tinsert (λ w, cmptime (deadline (g_timerArray t) w) (deadline (g_timerArray t) id)) id ws) fs []) t.
Proof.
  intros HI Hst Hf. destruct (holds_in _ _ _ _ _ id HI) as [Hid [x [Hx _]]]; [set_solver|].
  assert (Hwp : ∀ m : M (timers L) Z,
    (∀ A, clist_rep (t_lists t) A → A !! g_listTimerWork = Some (timer_node <$> ws) →
      unlinked A (timer_node id) → wp m (λ _ t', ∃ lists', t' = set_lists lists' t ∧
        clist_rep lists' (<[g_listTimerWork := timer_node <$>
          tinsert (λ w, cmptime (deadline (g_timerArray t) w) (deadline (g_timerArray t) id)) id ws]>
            (delete (timer_node id) A))) t) →
    wp m (λ _ t', same_rest t t' ∧ g_timerArray t' = g_timerArray t ∧ holds (g_timerArray t) (t_lists t')
      (tinsert (λ w, cmptime (deadline (g_timerArray t) w) (deadline (g_timerArray t) id)) id ws) fs []) t).
  { intros m Hm. apply wp_run.
    pose proof HI as [(A&HR&HW&_&HU) _ _ _ _ _].
    destruct (proj1 (wp_run _ _ _) (Hm A HR HW (HU id ltac:(set_solver)))) as (r&t'&Hr&lists'&->&HL).
    exists r, (set_lists lists' t). split; [done|]. split_and!; [done|done|]. simpl.
    eapply holds_insert; [done|done|]. intros A' HR' HW' HU'.
    destruct (proj1 (wp_run _ _ _) (Hm A' HR' HW' HU')) as (r2&t2&Hr2&lists2&->&HL2).
    rewrite Hr in Hr2. injection Hr2 as _ ->. done. }
  apply Hwp. intros A HR HW HU. unfold insertTimer. wp_steps.
  rewrite (clist_empty_spec _ _ _ _ HR HW), (clist_begin_spec _ _ _ _ HR HW).
  destruct ws as [|w ws].
  - rewrite bool_decide_eq_true_2 by done. unfold lists_do. wp_steps. eexists. split; [done|].
    simpl. apply (clist_push_front_spec _ _ _ []); [done..|]. apply node_ne_heads. lia.
  - rewrite bool_decide_eq_false_2 by done.
    apply (insert_walk fuel id t A [] (w :: ws)); [done..|lia| |done].
    intros i Hi. destruct (holds_in _ _ _ _ _ i HI) as [? (y&?&_)]; [set_solver|].
    split; [lia|by eexists].
Qed.

Lemma wp_push_free id t ws fs Q :
  holds (g_timerArray t) (t_lists t) ws fs [id] → state <$> g_timerArray t !! id = Some 0 →
  (∀ t', same_rest t t' → g_timerArray t' = g_timerArray t →
    holds (g_timerArray t) (t_lists t') ws (fs ++ [id]) [] → Q tt t') →
  wp (push_free id) Q t.
Proof.
  intros HI Hst HQ. unfold push_free, lists_do. wp_steps. apply HQ; [done|done|]. by apply holds_push_free.
Qed.

Lemma timer_ids_error id : id ∈ timer_ids → (id =? TIMER_ERROR) = false.
Proof. intros Hid%elem_of_timer_ids. apply Z.eqb_neq. unfold TIMER_ERROR. lia. Qed.

(** [fill] only sets a timer's own fields. *)
Definition fills (fill : st_timer → st_timer) : Prop :=
  ∀ x, tid (fill x) = tid x ∧ state (fill x) = state x.

Definition queue_of arr id ws : list Z :=
  tinsert (λ w, cmptime (deadline arr w) (deadline arr id)) id ws.

Lemma wp_start_full fuel ms fill t ws :
  timers_ok t ws [] →
  wp (start_timer fuel ms fill) (λ r t', r = TIMER_ERROR ∧ timers_ok t' ws [] ∧
    g_timerArray t' = g_timerArray t ∧ t_events t' = t_events t) t.
Proof.
  intros (Hi&Hs&HI). unfold start_timer, timerInit, GetTimerID. wp_steps. rewrite Hi. wp_steps.
  apply wp_lock; [done|]. wp_steps. simpl.
  destruct (hd_rep _ _ _ _ _ HI) as (A&HR&_&HF&_).
  rewrite (clist_empty_spec _ _ _ _ HR HF), bool_decide_eq_true_2 by done. wp_steps.
  simpl. unfold unlock. wp_steps. by split_and!.
Qed.

Lemma wp_start fuel ms fill t ws id fs :
  timers_ok t ws (id :: fs) → fills fill → (length ws < fuel)%nat →
  let old := default (Timer 0 0 0 0 (TV 0 0) (TV 0 0) 0 0) (g_timerArray t !! id) in
  let x := fill (Timer 1 (times old) (msgid old) id
    (after (t_clock t (t_tick t)) (interval_of ms)) (interval_of ms) (func old) (parameter old)) in
  let arr' := <[id := x]> (g_timerArray t) in
  wp (start_timer fuel ms fill) (λ r t', r = id ∧ timers_ok t' (queue_of arr' id ws) fs ∧
    g_timerArray t' = arr' ∧ g_sem_new t' = g_sem_new t + 1 ∧ t_events t' = t_events t ∧
    t_clock t' = t_clock t ∧ t_tick t' = S (t_tick t)) t.
Proof.
  intros (Hi&Hs&HI) Hfill Hf. destruct (holds_in _ _ _ _ _ id HI) as [Hid (y&Hy&Hty)]; [set_solver|].
  rewrite Hy. intros old x arr'.
  simpl in old. unfold start_timer, timerInit, GetTimerID. wp_steps. rewrite Hi. wp_steps.
  apply wp_lock; [done|]. wp_steps. simpl.
  destruct (hd_rep _ _ _ _ _ HI) as (A&HR&_&HF&_).
  rewrite (clist_empty_spec _ _ _ _ HR HF), (clist_begin_spec _ _ _ _ HR HF).
  rewrite bool_decide_eq_false_2 by done. unfold lists_do. wp_steps. simpl. rewrite timer_of_node.
  eapply wp_timer_at; [exact Hy|]. wp_steps. rewrite Hty, timer_ids_error by (by apply elem_of_timer_ids).
  wp_steps. unfold now, wp at 1. wp_steps. eapply wp_timer_set; [exact Hy|]. wp_steps. simpl. fold x arr'.
  eapply wp_mono.
  { apply (wp_insertTimer _ _ _ ws fs); [|simpl|done].
    - simpl. eapply holds_set; [by apply holds_pop_free|done|]. by rewrite (proj1 (Hfill _)).
    - rewrite lookup_insert_eq. simpl. unfold x. by rewrite (proj2 (Hfill _)). }
  intros r t' ((E1&E2&E3&E4&E5&E6)&Ha&HI'). simpl in *. unfold post_new, unlock. wp_steps. simpl.
  split_and!; try done; [|lia].
  split; [simpl; by rewrite E3|]. split; [simpl; lia|]. simpl. by rewrite Ha.
Qed.

Lemma wp_KillTimer t ws fs id :
  timers_ok t ws fs → 0 ≤ id →
  wp (KillTimer id) (λ _ t', t_events t' = t_events t ∧
    ((id ∉ ws) ∧ timers_ok t' ws fs ∧ g_timerArray t' = g_timerArray t ∨
     ∃ ws1 ws2, ws = ws1 ++ id :: ws2 ∧ timers_ok t' (ws1 ++ ws2) (fs ++ [id]) ∧
       delete id (g_timerArray t') = delete id (g_timerArray t))) t.
Proof.
  intros (Hi&Hs&HI) Hid. unfold KillTimer. destruct (Z.leb_spec MAX_TIMER_NUMBER id) as [Hm|Hm].
  - wp_steps. split; [done|]. left. split_and!; try done. intros Hin.
    destruct (holds_in _ _ _ _ _ id HI) as [? _]; [set_solver|lia].
  - destruct (hd_arr _ _ _ _ _ HI id) as (x&Hx&Hix); [by apply elem_of_timer_ids|].
    wp_steps. apply wp_lock; [done|]. wp_steps. eapply wp_timer_at; [exact Hx|].
    assert (id ∈ ws ∨ id ∈ fs) as Hin.
    { assert (id ∈ ws ++ fs ++ []) as Hin; [|set_solver].
      rewrite (hd_ids _ _ _ _ _ HI). by apply elem_of_timer_ids. }
    destruct (Z.eqb_spec (state x) 0) as [E|E].
    + unfold unlock. wp_steps. split; [done|]. left. split_and!; try done.
      intros Hw. apply (hd_work _ _ _ _ _ HI) in Hw. rewrite Hx in Hw. simpl in Hw. congruence.
    + destruct Hin as [Hin|Hin]; [|apply (hd_free _ _ _ _ _ HI) in Hin; rewrite Hx in Hin; simpl in Hin; congruence].
      apply list_elem_of_split in Hin as (ws1&ws2&->). unfold lists_do. wp_steps.
      eapply wp_timer_set; [exact Hx|]. wp_steps.
      eapply (wp_push_free _ _ (ws1 ++ ws2) fs).
      * simpl. eapply holds_set; [by apply holds_erase|exact Hx|by destruct x].
      * simpl. by rewrite lookup_insert_eq.
      * intros t' (E1&E2&E3&E4&E5&E6) Ha HI'. simpl in *. unfold unlock. wp_steps. simpl.
        split; [done|]. right. exists ws1, ws2. split; [done|].
        split; [split_and!; simpl; [congruence|lia|by rewrite Ha]|].
        by rewrite Ha, delete_insert_eq.
Qed.

Lemma wp_ChangeTimerTime fuel t ws fs id ms :
  timers_ok t ws fs → 0 ≤ id → (length ws < fuel)%nat →
  wp (ChangeTimerTime fuel id ms) (λ r t', t_events t' = t_events t ∧
    (r = TIMER_ERROR ∧ (id ∉ ws ∨ ms ≤ 0) ∧ timers_ok t' ws fs ∧ g_timerArray t' = g_timerArray t ∨
     r = TIMER_OK ∧ 0 < ms ∧ ∃ ws1 ws2 x, ws = ws1 ++ id :: ws2 ∧ g_timerArray t !! id = Some x ∧
       let x' := set_tv (after (t_clock t (t_tick t)) (interval_of ms)) (set_interval (interval_of ms) x) in
       let arr' := <[id := x']> (g_timerArray t) in
       g_timerArray t' = arr' ∧ timers_ok t' (queue_of arr' id (ws1 ++ ws2)) fs)) t.
Proof.
  intros (Hi&Hs&HI) Hid Hf. unfold ChangeTimerTime.
  destruct (Z.leb_spec MAX_TIMER_NUMBER id) as [Hm|Hm]; simpl.
  { wp_steps. split; [done|]. left. split_and!; try done. left. intros Hin.
    destruct (holds_in _ _ _ _ _ id HI) as [? _]; [set_solver|lia]. }
  destruct (Z.leb_spec ms 0) as [Hms|Hms].
  { wp_steps. split; [done|]. left. split_and!; try done. by right. }
  destruct (hd_arr _ _ _ _ _ HI id) as (x&Hx&Hix); [by apply elem_of_timer_ids|].
  wp_steps. apply wp_lock; [done|]. wp_steps. eapply wp_timer_at; [exact Hx|].
  assert (id ∈ ws ∨ id ∈ fs) as Hin.
  { assert (id ∈ ws ++ fs ++ []) as Hin; [|set_solver].
    rewrite (hd_ids _ _ _ _ _ HI). by apply elem_of_timer_ids. }
  destruct (Z.eqb_spec (state x) 0) as [E|E].
  - unfold unlock. wp_steps. split; [done|]. left. split_and!; try done.
    left. intros Hw. apply (hd_work _ _ _ _ _ HI) in Hw. rewrite Hx in Hw. simpl in Hw. congruence.
  - destruct Hin as [Hin|Hin]; [|apply (hd_free _ _ _ _ _ HI) in Hin; rewrite Hx in Hin; simpl in Hin; congruence].
    assert (Hx1 : state x = 1).
    { apply (hd_work _ _ _ _ _ HI) in Hin. rewrite Hx in Hin. simpl in Hin. congruence. }
    apply list_elem_of_split in Hin as (ws1&ws2&->). unfold lists_do. wp_steps.
    unfold now, wp at 1. wp_steps. eapply wp_timer_set; [exact Hx|]. wp_steps. eapply wp_mono.
    { apply (wp_insertTimer _ _ _ (ws1 ++ ws2) fs); simpl.
      - eapply holds_set; [by apply holds_erase|exact Hx|by destruct x].
      - by rewrite lookup_insert_eq; simpl; rewrite Hx1.
      - rewrite length_app in *. simpl in Hf. lia. }
    intros r t' ((E1&E2&E3&E4&E5&E6)&Ha&HI'). simpl in *. unfold unlock. wp_steps. simpl.
    split; [done|]. right. split_and!; [done|done|]. exists ws1, ws2, x. split_and!; [done|done|done|].
    split_and!; simpl; [congruence|lia|by rewrite Ha].
Qed.
End operations.

(** ** The thread *)

Section thread.
Context {L : Type} `{!Clist L, !ClistLaws L}.
Implicit Types (t : timers L) (arr : gmap Z st_timer) (ws fs out : list Z).

(** What firing timer [x] (already rescheduled) does: the event, and the timer
    afterwards, which goes back to the queue when its state is not 0. *)
Definition fired (id : Z) (x : st_timer) : list timer_event * st_timer :=
  if negb (func x =? 0) then ([Called (func x) (parameter x)], x)
  else if 0 <=? msgid x then
    ([Sent (msgid x) id],
     if 0 <? times x then
       let x := set_times (times x - 1) x in if times x =? 0 then set_state 0 x else x
     else x)
  else ([], set_state 0 x).

(** The queues after timer [id], in hand, fired. *)
Definition refiled (arr : gmap Z st_timer) (id : Z) (x : st_timer) ws fs : list Z * list Z :=
  if state x =? 0 then (ws, fs ++ [id]) else (queue_of arr id ws, fs).

Lemma wp_fire fuel id t ws fs x :
  t_init t = true → g_sem t = 0 → holds (g_timerArray t) (t_lists t) ws fs [id] →
  g_timerArray t !! id = Some x → state x = 1 → (length ws < fuel)%nat →
  let '(ev, x') := fired id x in
  let arr' := <[id := x']> (g_timerArray t) in
  wp (fire fuel id) (λ _ t', t_events t' = t_events t ++ ev ∧ t_clock t' = t_clock t ∧
    t_tick t' = t_tick t ∧ g_timerArray t' = arr' ∧
    timers_ok t' (refiled arr' id x' ws fs).1 (refiled arr' id x' ws fs).2) t.
Proof.
  intros Hi Hs HI Hx Hst Hf. destruct (fired id x) as [ev x'] eqn:EF. intros arr'.
  pose proof (holds_in _ _ _ _ _ id HI ltac:(set_solver)) as [Hid (y&Hy&Hty)].
  assert (y = x) as -> by congruence. clear Hy.
  assert (Hins : ∀ t1 z (Q : Z → timers L → Prop), g_timerArray t1 = <[id := z]> (g_timerArray t) →
    t_lists t1 = t_lists t → tid z = id → state z = 1 →
    (∀ r t', same_rest t1 t' → g_timerArray t' = <[id := z]> (g_timerArray t) →
      holds (<[id := z]> (g_timerArray t)) (t_lists t') (queue_of (<[id := z]> (g_timerArray t)) id ws) fs [] → Q r t') →
    wp (insertTimer fuel id) Q t1).
  { intros t1 z Q E1 E2 Hz1 Hz2 HQ. eapply wp_mono.
    - apply (wp_insertTimer _ _ _ ws fs); [|rewrite E1, lookup_insert_eq; simpl; by rewrite Hz2|done].
      rewrite E1, E2. by eapply holds_set.
    - rewrite E1. intros r t' (?&?&?). by apply HQ. }
  unfold fired in EF. unfold fire. wp_steps. eapply wp_timer_at; [exact Hx|].
  destruct (func x =? 0) eqn:E1; simpl in *; [|injection EF as <- <-].
  - destruct (0 <=? msgid x) eqn:E2; [injection EF as <- <-|injection EF as <- <-].
    + unfold emit. wp_steps. rewrite ?Hty. destruct (0 <? times x) eqn:E3.
      * wp_steps. eapply wp_timer_set; [exact Hx|]. wp_steps.
        eapply wp_timer_at; [simpl; apply lookup_insert_eq|]. simpl.
        destruct (Z.eqb_spec (times x - 1) 0) as [E4|E4].
        -- rewrite (proj2 (Z.leb_le _ _)) by lia. wp_steps.
           eapply wp_timer_set; [simpl; apply lookup_insert_eq|]. wp_steps. simpl.
           rewrite insert_insert_eq. eapply (wp_push_free _ _ ws fs).
           ++ simpl. by eapply holds_set.
           ++ simpl. by rewrite lookup_insert_eq.
           ++ intros t' (F1&F2&F3&F4&F5&F6) Ha HI'. unfold unlock. wp_steps. simpl in *.
              unfold refiled, timers_ok. simpl. rewrite Ha. split_and!; congruence || done || lia.
        -- rewrite (proj2 (Z.leb_gt _ _)) by lia. wp_steps. rewrite ?Hty.
           eapply (Hins _ (set_times (times x - 1) x)); [done..|].
           intros r t' (F1&F2&F3&F4&F5&F6) Ha HI'. unfold unlock. wp_steps. simpl in *.
           unfold refiled, timers_ok. simpl. rewrite Ha, Hst. split_and!; congruence || done || lia.
      * simpl. wp_steps. eapply wp_timer_at; [done|]. wp_steps. rewrite ?Hty.
        eapply (Hins _ x); [by rewrite insert_id|done..|].
        intros r t' (F1&F2&F3&F4&F5&F6) Ha HI'. unfold unlock. wp_steps. simpl in *.
        unfold refiled, timers_ok. simpl. rewrite Ha, Hst. split_and!; congruence || done || lia.
    + wp_steps. eapply wp_timer_set; [exact Hx|]. wp_steps. eapply (wp_push_free _ _ ws fs).
      * simpl. by eapply holds_set.
      * simpl. by rewrite lookup_insert_eq.
      * intros t' (F1&F2&F3&F4&F5&F6) Ha HI'. unfold unlock. wp_steps. simpl in *.
        unfold refiled, timers_ok. simpl. rewrite Ha, app_nil_r. split_and!; congruence || done || lia.
  - wp_steps. rewrite ?Hty. eapply (Hins _ x); [by rewrite insert_id|done..|].
    intros r t' (F1&F2&F3&F4&F5&F6) Ha HI'. unfold unlock, emit. wp_steps. simpl in *.
    unfold refiled, timers_ok. simpl. rewrite Ha, Hst. split_and!; congruence || done || lia.
Qed.

(** One iteration: it sleeps when nothing runs, or until the first deadline; or
    the first timer is due, is rescheduled and fires. *)
Definition thread_post t ws fs (r : sleep) t' : Prop :=
  match ws with
  | [] => r = WaitNew ∧ timers_ok t' [] fs ∧ g_timerArray t' = g_timerArray t ∧ t_events t' = t_events t
  | id :: ws => ∃ x, g_timerArray t !! id = Some x ∧
      if cmptime (t_clock t (t_tick t)) (tv x) then
        let '(ev, x') := fired id (set_tv (after (tv x) (interval x)) x) in
        let arr' := <[id := x']> (g_timerArray t) in
        r = Again ∧ t_events t' = t_events t ++ ev ∧ t_clock t' = t_clock t ∧
        t_tick t' = S (t_tick t) ∧ g_timerArray t' = arr' ∧
        timers_ok t' (refiled arr' id x' ws fs).1 (refiled arr' id x' ws fs).2
      else
        r = WaitUntil (tv x) ∧ timers_ok t' (id :: ws) fs ∧
        g_timerArray t' = g_timerArray t ∧ t_events t' = t_events t
  end.

Lemma wp_thread fuel t ws fs :
  timers_ok t ws fs → (length ws ≤ fuel)%nat → wp (thread_timer fuel) (thread_post t ws fs) t.
Proof.
  intros (Hi&Hs&HI) Hf. unfold thread_timer. wp_steps. apply wp_lock; [done|]. wp_steps.
  change (t_lists (set_sem 0 t)) with (t_lists t).
  destruct (hd_rep _ _ _ _ _ HI) as (A&HR&HW&_&_). rewrite (clist_begin_spec _ _ _ _ HR HW).
  change (list_end g_listTimerWork) with g_listTimerWork. destruct ws as [|id ws].
  - change (default _ _) with g_listTimerWork. rewrite Z.eqb_refl. unfold unlock. wp_steps. by split_and!.
  - change (default _ _) with (timer_node id).
    destruct (holds_in _ _ _ _ _ id HI) as [Hid (x&Hx&Htx)]; [set_solver|].
    destruct (node_ne_heads id) as [N1 N2]; [lia|].
    assert (Hst : state x = 1).
    { pose proof (hd_work _ _ _ _ _ HI id ltac:(set_solver)) as Hst. rewrite Hx in Hst. simpl in Hst. congruence. }
    rewrite (proj2 (Z.eqb_neq _ _)), timer_of_node by done. wp_steps.
    eapply wp_timer_at; [exact Hx|]. wp_steps. unfold now, wp at 1. simpl. rewrite Hst. simpl.
    destruct (cmptime _ (tv x)) eqn:Ec.
    + unfold lists_do. wp_steps. eapply wp_timer_set; [exact Hx|]. wp_steps.
      set (x1 := set_tv (after (tv x) (interval x)) x).
      pose proof (wp_fire fuel id (set_lists (list_pop_front g_listTimerWork (t_lists t))
        (set_array (<[id := x1]> (g_timerArray t)) (set_tick (S (t_tick t)) (set_sem 0 t)))) ws fs x1) as HF.
      simpl in HF. destruct (fired id x1) as [ev x'] eqn:EF.
      eapply wp_mono; [apply HF; try done|].
      * eapply holds_set; [by apply holds_pop_work|exact Hx|done].
      * apply lookup_insert_eq.
      * intros r t' (E1&E0&Et&E2&E3). rewrite insert_insert_eq in E2, E3. wp_steps.
        exists x. rewrite Ec. fold x1. rewrite EF. by split_and!.
    + unfold unlock. wp_steps. exists x. rewrite Ec. by split_and!.
Qed.
End thread.

(** ** Initialisation *)

Section init.
Context {L : Type} `{!Clist L, !ClistLaws L}.
Implicit Types (t : timers L) (arr : gmap Z st_timer) (ws fs : list Z).

(** The module before its first use: static storage. *)
Record fresh_module t : Prop := {
  fm_init : t_init t = false;
  fm_lists : clist_rep (t_lists t) {[g_listTimerWork := []; g_listTimerFree := []]};
  fm_sem : g_sem t = 0;
  fm_arr id : id ∈ timer_ids → ∃ x, g_timerArray t !! id = Some x ∧ state x = 0;
}.

Definition init_lists (ids : list Z) : gmap Z (list Z) :=
  {[g_listTimerWork := []; g_listTimerFree := timer_node <$> ids]}.

Lemma init_lists_unlinked ids n :
  n ≠ g_listTimerWork → n ≠ g_listTimerFree → n ∉ timer_node <$> ids → unlinked (init_lists ids) n.
Proof.
  intros H1 H2 Hn hd xs. unfold init_lists. rewrite lookup_insert_Some, lookup_singleton_Some.
  intros [[<- <-]|[_ [<- <-]]]; set_solver.
Qed.

Lemma init_lists_push (lists : L) ids ns :
  clist_rep lists (init_lists ids) → NoDup (ids ++ ns) → Forall (Z.le 0) ns →
  clist_rep (foldl (λ lists b, list_push_back g_listTimerFree (timer_node b) lists) lists ns)
    (init_lists (ids ++ ns)).
Proof.
  revert lists ids. induction ns as [|n ns IH]; intros lists ids HR Hnd Hns; [by rewrite app_nil_r|].
  simpl. apply Forall_cons in Hns as [Hn Hns]. destruct (node_ne_heads n Hn) as [N1 N2].
  rewrite (cons_middle n ids ns), app_assoc in Hnd |- *. apply IH; [|done|done].
  assert (Hin : n ∉ ids).
  { apply NoDup_app in Hnd as [(_&Hd&_)%NoDup_app _]. intros Hi. by apply (Hd n Hi), list_elem_of_singleton. }
  assert (init_lists (ids ++ [n]) = <[g_listTimerFree := (timer_node <$> ids) ++ [timer_node n]]>
    (delete (timer_node n) (init_lists ids))) as ->.
  { unfold init_lists. rewrite fmap_app, delete_id.
    - rewrite insert_insert_ne, insert_singleton_eq by done. done.
    - by rewrite lookup_insert_ne, lookup_singleton_ne. }
  apply clist_push_back_spec; [done| | |done].
  - unfold init_lists. by rewrite lookup_insert_ne, lookup_singleton_eq.
  - apply init_lists_unlinked; [done|done|]. intros (i&Hi%node_inj&?)%list_elem_of_fmap. congruence.
Qed.

Lemma zero_array id (ids : list Z) (z : Z → st_timer) : NoDup ids → id ∈ ids →
  (list_to_map ((λ b, (b, z b)) <$> ids) : gmap Z st_timer) !! id = Some (z id).
Proof.
  intros Hnd Hid. apply elem_of_list_to_map.
  - rewrite <- list_fmap_compose. simpl. by rewrite list_fmap_id.
  - apply list_elem_of_fmap. by exists id.
Qed.

#[local] Opaque timer_ids.
Lemma wp_timerInit t : fresh_module t →
  wp timerInit (λ _ t', timers_ok t' [] timer_ids ∧ t_clock t' = t_clock t ∧ t_tick t' = t_tick t ∧
    t_events t' = t_events t ∧ g_sem_new t' = 0 ∧
    ∀ id, id ∈ timer_ids → g_timerArray t' !! id = Some (Timer 0 0 0 id (TV 0 0) (TV 0 0) 0 0)) t.
Proof.
  intros [Hi HL _ _]. unfold timerInit, lists_do. wp_steps. rewrite Hi. wp_steps.
  cbn [t_clock t_tick t_events g_sem_new set_sem set_sem_new set_lists set_array set_init].
  split; [|split; [done|split; [done|split; [done|split; [done|]]]]; intros id Hid;
    apply (zero_array id _ (λ b, Timer 0 0 0 b (TV 0 0) (TV 0 0) 0 0)); [apply timer_ids_NoDup|exact Hid]].
  split; [done|]. split; [done|].
  cbn [g_timerArray t_lists set_sem set_sem_new set_lists set_array set_init].
  pose proof timer_ids_NoDup as Hnd. pose proof elem_of_timer_ids as Hin. split.
  - exists (init_lists timer_ids). split_and!.
    + apply (init_lists_push _ []); [|done|].
      * rewrite <- insert_id with (m := init_lists []) (i := g_listTimerFree) (x := []) by done.
        apply clist_init_spec.
        -- rewrite <- insert_id with (m := init_lists []) (i := g_listTimerWork) (x := []) by done.
           apply clist_init_spec; [done|]. intros hd xs. unfold init_lists.
           rewrite lookup_insert_Some, lookup_singleton_Some. intros [[<- <-]|[_ [<- <-]]] ?; set_solver.
        -- intros hd xs. unfold init_lists.
           rewrite lookup_insert_Some, lookup_singleton_Some. intros [[<- <-]|[_ [<- <-]]] ?; set_solver.
      * apply Forall_forall. intros id Hid%Hin. lia.
    + reflexivity.
    + reflexivity.
    + intros id Hid. by apply elem_of_nil in Hid.
  - by rewrite app_nil_r.
  - intros id Hid. eexists. split; [by apply (zero_array id _ (λ b, Timer 0 0 0 b (TV 0 0) (TV 0 0) 0 0))|done].
  - intros id Hid. by apply elem_of_nil in Hid.
  - intros id Hid. by rewrite (zero_array id _ (λ b, Timer 0 0 0 b (TV 0 0) (TV 0 0) 0 0)).
  - constructor.
Qed.
End init.

(** ** Properties *)

Section properties.
Context {L : Type} `{!Clist L, !ClistLaws L}.
Implicit Types (t : timers L) (ws fs : list Z).

Inductive timer_op :=
| OpSetTimer (ms f p : Z) | OpSetMsgTimer (ms msg n : Z) | OpKill (id : Z)
| OpChange (id ms : Z) | OpGet (id : Z) | OpThread.
Definition run_op (o : timer_op) : M (timers L) unit :=
  let fuel := Z.to_nat (MAX_TIMER_NUMBER + 1) in
  match o with
  | OpSetTimer ms f p => SetTimer fuel ms f p;; mret tt
  | OpSetMsgTimer ms msg n => SetMsgTimer fuel ms msg n;; mret tt
  | OpKill id => KillTimer id
  | OpChange id ms => ChangeTimerTime fuel id ms;; mret tt
  | OpGet id => GetTimerTime id;; mret tt
  | OpThread => thread_timer fuel;; mret tt
  end.
(** Ids are of type [USHORT]. *)
Definition op_id_ok (o : timer_op) : Prop :=
  match o with OpKill id | OpChange id _ | OpGet id => 0 ≤ id | _ => True end.

(** The operations that start a timer, and those that take the lock of the
    module without initialising it: valid arguments only. *)
Definition starts (o : timer_op) : bool :=
  match o with
  | OpSetTimer ms f _ => negb ((ms <=? 0) || (f =? 0))
  | OpSetMsgTimer ms msg _ => negb ((ms <=? 0) || (msg <? 0))
  | _ => false
  end.
Definition locks (o : timer_op) : bool :=
  match o with
  | OpKill id => negb (MAX_TIMER_NUMBER <=? id)
  | OpChange id ms => negb ((MAX_TIMER_NUMBER <=? id) || (ms <=? 0))
  | OpThread => true
  | _ => false
  end.

(** Some timers run and the others are free. *)
Definition timers_inv t : Prop := ∃ ws fs, timers_ok t ws fs.

Lemma work_bound t ws fs : timers_ok t ws fs → (length ws < Z.to_nat (MAX_TIMER_NUMBER + 1))%nat.
Proof.
  intros (_&_&HI). pose proof (Permutation_length (hd_ids _ _ _ _ _ HI)) as Hl.
  unfold timer_ids in Hl. autorewrite with lengths in Hl. unfold MAX_TIMER_NUMBER in *. lia.
Qed.

Lemma fills_call f p : fills (λ x, Timer (state x) (times x) (-1) (tid x) (tv x) (interval x) f p).
Proof. done. Qed.
Lemma fills_msg msg n : fills (λ x, Timer (state x) n msg (tid x) (tv x) (interval x) (func x) (parameter x)).
Proof. done. Qed.

Lemma start_timer_init fuel ms fill t : fresh_module t →
  ∃ t1, timers_ok t1 [] timer_ids ∧ start_timer fuel ms fill t = start_timer fuel ms fill t1.
Proof.
  intros HF. destruct (proj1 (wp_run _ _ _) (wp_timerInit t HF)) as ([]&t1&Hr&HO&_).
  exists t1. split; [done|]. unfold start_timer. rewrite (bind_ret _ _ _ _ _ Hr).
  rewrite (bind_ret timerInit _ t1 tt t1); [done|]. destruct HO as (Hi&_). unfold timerInit. rewrite (bind_ret (gets t_init) _ t1 (t_init t1) t1) by done. by rewrite Hi.
Qed.

Lemma lock_blocked t : fresh_module t → lock t = Blocked.
Proof. intros HF. unfold lock. rewrite (bind_ret (gets g_sem) _ t (g_sem t) t) by done. by rewrite (fm_sem _ HF). Qed.

Lemma start_timer_ok fuel ms fill t ws fs : timers_ok t ws fs → fills fill → (length ws < fuel)%nat →
  wp (start_timer fuel ms fill) (λ _ t', ∃ ws' fs', timers_ok t' ws' fs') t.
Proof.
  intros HO Hfill Hf. destruct fs as [|id fs].
  - eapply wp_mono; [by apply (wp_start_full fuel ms fill t ws)|]. intros r t' (_&HO'&_). eauto.
  - eapply wp_mono; [by apply (wp_start fuel ms fill t ws id fs)|]. intros r t' (_&HO'&_). eauto.
Qed.
Lemma start_timer_inv ms fill t : fresh_module t ∨ timers_inv t → fills fill →
  wp (start_timer (Z.to_nat (MAX_TIMER_NUMBER + 1)) ms fill) (λ _ t', timers_inv t') t.
Proof.
  assert (Hok : ∀ t ws fs, timers_ok t ws fs → fills fill →
    wp (start_timer (Z.to_nat (MAX_TIMER_NUMBER + 1)) ms fill) (λ _ t', timers_inv t') t).
  { intros t1 ws fs HO Hfill. pose proof (work_bound _ _ _ HO). by eapply start_timer_ok. }
  intros [HF|(ws&fs&HO)] Hfill; [|by eapply Hok].
  destruct (start_timer_init (Z.to_nat (MAX_TIMER_NUMBER + 1)) ms fill t HF) as (t1&HO&Heq).
  unfold wp. rewrite Heq. by eapply Hok.
Qed.

(** Reading an interval changes nothing. *)
Lemma wp_GetTimerTime t id : fresh_module t ∨ timers_inv t → 0 ≤ id →
  wp (GetTimerTime id) (λ _ t', t' = t) t.
Proof.
  intros HI Hid. unfold GetTimerTime. case_match eqn:Em; wp_steps; [done|].
  assert (∃ x, g_timerArray t !! id = Some x) as [x Hx].
  { assert (id ∈ timer_ids) as Hin by (apply elem_of_timer_ids; lia).
    destruct HI as [HF|(ws&fs&_&_&HH)];
      [destruct (fm_arr _ HF id Hin) as (x&?&_)|destruct (hd_arr _ _ _ _ _ HH id Hin) as (x&?&_)]; by exists x. }
  eapply wp_timer_at; [exact Hx|]. case_match; by wp_steps.
Qed.

(** The operations that start a timer initialise a fresh module. *)
Lemma starts_inv o t : fresh_module t ∨ timers_inv t → starts o = true →
  wp (run_op o) (λ _ t', timers_inv t') t.
Proof.
  intros HI Hs. destruct o as [ms f p|ms msg n| | | |]; try discriminate Hs; simpl in *;
    apply negb_true_iff in Hs; unfold SetTimer, SetMsgTimer; rewrite Hs; wp_steps;
    (eapply wp_mono; [by apply start_timer_inv|]); intros r t' ?; by wp_steps.
Qed.

(** C21: every operation and every iteration of the timer thread leaves the
    timers consistent: each id is in exactly one of the two lists, the running
    ones are in state 1 and ordered by deadline, and the lock is free again.
    In a module that has set no timer yet, setting one initialises it, and a
    bad argument or [GetTimerTime] returns and changes nothing; but [KillTimer]
    and [ChangeTimerTime] of an id in range, and the thread, wait for a
    semaphore that is still zero. *)
Theorem timer_ops_invariant (o : timer_op) t :
  op_id_ok o →
  (timers_inv t → wp (run_op o) (λ _ t', timers_inv t') t) ∧
  (fresh_module t →
   if locks o then run_op o t = Blocked
   else wp (run_op o) (λ _ t', if starts o then timers_inv t' else t' = t) t).
Proof.
  intros Hid. split.
  - intros HI. destruct (starts o) eqn:Hs; [apply starts_inv; [by right|done]|].
    destruct HI as (ws&fs&HO). pose proof (work_bound _ _ _ HO) as Hw.
    assert (timers_inv t) as HI by (by exists ws, fs).
    destruct o as [ms f p|ms msg n|id|id ms|id|]; simpl in *.
    + apply negb_false_iff in Hs. unfold SetTimer. rewrite Hs. by wp_steps.
    + apply negb_false_iff in Hs. unfold SetMsgTimer. rewrite Hs. by wp_steps.
    + eapply wp_mono; [by apply (wp_KillTimer t ws fs)|].
      intros r t' [_ [(_&?&_)|(?&?&_&?&_)]]; unfold timers_inv; eauto.
    + wp_steps. eapply wp_mono; [by apply (wp_ChangeTimerTime _ t ws fs)|]. intros r t' [_ Hc].
      wp_steps. unfold timers_inv. destruct Hc as [(_&_&?&_)|(_&_&?&?&?&_&_&_&?)]; eauto.
    + wp_steps. eapply wp_mono; [apply wp_GetTimerTime; [by right|done]|]. intros r t' ->. by wp_steps.
    + wp_steps. eapply wp_mono; [apply (wp_thread _ t ws fs HO); lia|]. intros r t' Hp. wp_steps.
      unfold timers_inv, thread_post in *. destruct ws as [|id ws]; [destruct Hp as (_&?&_); eauto|].
      destruct Hp as (x&_&Hp). case_match; [|destruct Hp as (_&?&_); eauto].
      destruct (fired _ _) as [ev x']. destruct Hp as (_&_&_&_&_&?). eauto.
  - intros HF. destruct (starts o) eqn:Hs.
    { assert (locks o = false) as -> by (destruct o; first [discriminate Hs|reflexivity]). apply starts_inv; [by left|done]. }
    destruct o as [ms f p|ms msg n|id|id ms|id|]; simpl in *.
    + apply negb_false_iff in Hs. unfold SetTimer. rewrite Hs. by wp_steps.
    + apply negb_false_iff in Hs. unfold SetMsgTimer. rewrite Hs. by wp_steps.
    + unfold KillTimer. destruct (MAX_TIMER_NUMBER <=? id); simpl; [by wp_steps|].
      by apply bind_blocked, lock_blocked.
    + unfold ChangeTimerTime. destruct ((MAX_TIMER_NUMBER <=? id) || (ms <=? 0)); simpl; [by wp_steps|].
      by apply bind_blocked, bind_blocked, lock_blocked.
    + wp_steps. eapply wp_mono; [apply wp_GetTimerTime; [by left|done]|]. intros r t' ->. by wp_steps.
    + by apply bind_blocked, bind_blocked, lock_blocked.
Qed.

(** C22: setting a timer.  A bad argument is an error and changes nothing, and
    so is a missing id; otherwise the first free timer becomes a running one
    whose deadline is the interval from now, at its place among the others. *)
Theorem SetTimer_spec fuel ms f p t ws fs :
  timers_ok t ws fs → (length ws < fuel)%nat →
  (ms ≤ 0 ∨ f = 0 → SetTimer fuel ms f p t = Ret (TIMER_ERROR, t)) ∧
  (0 < ms → f ≠ 0 → match fs with
   | [] => wp (SetTimer fuel ms f p) (λ r t', r = TIMER_ERROR ∧ timers_ok t' ws [] ∧
       g_timerArray t' = g_timerArray t) t
   | id :: fs => wp (SetTimer fuel ms f p) (λ r t', r = id ∧ ∃ n,
       let x := Timer 1 n (-1) id (after (t_clock t (t_tick t)) (interval_of ms)) (interval_of ms) f p in
       let arr' := <[id := x]> (g_timerArray t) in
       g_timerArray t' = arr' ∧ timers_ok t' (queue_of arr' id ws) fs) t
   end).
Proof.
  intros HO Hf. unfold SetTimer. split.
  - intros [Hm| ->]; [by rewrite (proj2 (Z.leb_le _ _))|]. by rewrite orb_true_r.
  - intros Hm Hfn. rewrite (proj2 (Z.leb_gt _ _)), (proj2 (Z.eqb_neq _ _)) by done. simpl.
    destruct fs as [|id fs].
    + eapply wp_mono; [by apply (wp_start_full fuel)|]. intros r t' (?&?&?&_). by split_and!.
    + eapply wp_mono; [by apply (wp_start fuel _ _ t ws id fs)|]. intros r t' (?&?&?&_).
      split; [done|]. eexists. by split.
Qed.

(** C23: an iteration of the thread.  Nothing runs: it waits for a new timer.
    The first deadline, which is the earliest, is not reached: it sleeps until
    then.  Otherwise that timer is due again one interval later, calls its
    function or sends its message, and is put back at its place, or becomes free
    after its last time. *)
Theorem thread_timer_spec fuel t ws fs :
  timers_ok t ws fs → (length ws ≤ fuel)%nat →
  wp (thread_timer fuel) (thread_post t ws fs) t ∧
  StronglySorted tv_le (deadline (g_timerArray t) <$> ws).
Proof.
  intros HO Hf. split; [by apply wp_thread|]. destruct HO as (_&_&HI). apply (hd_sorted _ _ _ _ _ HI).
Qed.

Fixpoint rounds (n fuel : nat) : M (timers L) unit :=
  match n with O => mret tt | S n => thread_timer fuel;; rounds n fuel end.
Definition deadline_after (iv d : timeval) (k : nat) : timeval := Nat.iter k (λ d, after d iv) d.

(** C24: a message timer set for [k] times sends exactly [k] messages, one per
    interval, and then its id is free again (here without other timers). *)
Theorem msg_timer_fires_k_times k fuel t id x fs :
  timers_ok t [id] fs → g_timerArray t !! id = Some x → func x = 0 → 0 ≤ msgid x →
  times x = Z.of_nat (S k) → (1 ≤ fuel)%nat →
  (∀ tick j, (t_tick t ≤ tick)%nat → (j ≤ k)%nat → tv_le (deadline_after (interval x) (tv x) j) (t_clock t tick)) →
  wp (rounds (S k) fuel) (λ _ t', t_events t' = t_events t ++ replicate (S k) (Sent (msgid x) id) ∧
    timers_ok t' [] (fs ++ [id])) t.
Proof.
  revert t x. induction k as [|k IH]; intros t x HO Hx Hfn Hm Hn Hf Hdue;
    pose proof (Hdue (t_tick t) 0%nat ltac:(lia) ltac:(lia)) as Hd; change (deadline_after _ _ 0) with (tv x) in Hd;
    assert (Hst : state x = 1) by (destruct HO as (_&_&HI);
      pose proof (hd_work _ _ _ _ _ HI id ltac:(set_solver)) as Hst; rewrite Hx in Hst; simpl in Hst; congruence);
    cbn [rounds]; apply wp_bind; (eapply wp_mono; [apply (wp_thread fuel t [id] fs HO); simpl; lia|]);
    intros r t' (y&Hy&Hp); assert (y = x) as -> by congruence; rewrite Hd in Hp;
    unfold fired in Hp; cbn [func set_tv msgid times] in Hp;
    rewrite Hfn, Hn, (proj2 (Z.leb_le 0 (msgid x))), (proj2 (Z.ltb_lt 0 _)) in Hp by lia;
    simpl negb in Hp; cbv iota in Hp; cbn [times set_times] in Hp.
  - rewrite (proj2 (Z.eqb_eq _ 0)) in Hp by lia. destruct Hp as (_&He&_&_&_&HO'). wp_steps.
    split; [exact He|exact HO'].
  - rewrite (proj2 (Z.eqb_neq _ 0)) in Hp by lia. destruct Hp as (_&He&Hc&Hk&Ha&HO').
    unfold refiled in HO'. cbn [state set_times set_tv] in HO'. rewrite Hst in HO'. simpl in HO'.
    set (x' := set_times _ _) in HO', Ha.
    eapply wp_mono; [apply (IH t' x'); try done|].
    + rewrite Ha. apply lookup_insert_eq.
    + simpl. lia.
    + intros tick j Ht Hj. rewrite Hc. pose proof (Hdue tick (S j) ltac:(lia) ltac:(lia)) as Hdj.
      unfold deadline_after in *. rewrite Nat.iter_succ_r in Hdj. exact Hdj.
    + intros _ t2 [He2 HO2]. split; [|done]. by rewrite He2, He, <- app_assoc.
Qed.

(** [SetMsgTimer] leaves the function of the timer's previous life in place:
    when the id was used by [SetTimer] before, the message timer calls that
    function, with its old argument, and sends no message. *)
Theorem SetMsgTimer_stale_callback fuel ms msg n t id fs x0 :
  timers_ok t [] (id :: fs) → g_timerArray t !! id = Some x0 → func x0 ≠ 0 →
  0 < ms → 0 ≤ msg → (1 ≤ fuel)%nat →
  tv_le (after (t_clock t (t_tick t)) (interval_of ms)) (t_clock t (S (t_tick t))) →
  wp (SetMsgTimer fuel ms msg n;; thread_timer fuel)
    (λ _ t', t_events t' = t_events t ++ [Called (func x0) (parameter x0)]) t.
Proof.
  intros HO Hx Hfn Hms Hm Hf Hdue. wp_steps. unfold SetMsgTimer.
  rewrite (proj2 (Z.leb_gt _ _)), (proj2 (Z.ltb_ge _ _)) by lia. simpl.
  pose proof (wp_start fuel ms _ t [] id fs HO (fills_msg msg n) ltac:(simpl; lia)) as Hw.
  rewrite Hx in Hw. cbv zeta in Hw. simpl default in Hw.
  eapply wp_mono; [exact Hw|]. intros r t1 (_&HO1&Ha&_&He&Hc&Ht). cbv beta.
  eapply wp_mono; [apply (wp_thread fuel t1 [id] fs HO1); simpl; lia|]. intros r' t2 (x&Hx1&Hp).
  rewrite Ha, lookup_insert_eq in Hx1. injection Hx1 as <-. rewrite Hc, Ht in Hp.
  cbn [tv] in Hp. rewrite Hdue in Hp. unfold fired in Hp. cbn [func set_tv parameter] in Hp.
  rewrite (proj2 (Z.eqb_neq _ _)) in Hp by done. destruct Hp as (_&He2&_). by rewrite He2, He.
Qed.

Lemma interval_of_ms ms : 0 < ms →
  tv_sec (interval_of ms) * 1000 + Z.quot (tv_usec (interval_of ms)) 1000 = ms.
Proof.
  intros Hms. unfold interval_of. cbn [tv_sec tv_usec].
  rewrite Z.quot_mul by done. pose proof (Z.quot_rem' ms 1000). lia.
Qed.

(** C25: the interval that a timer was given, by [SetTimer] or later by
    [ChangeTimerTime], is what [GetTimerTime] returns. *)
Theorem timer_interval_roundtrip fuel ms ms' f p t ws id fs :
  timers_ok t ws (id :: fs) → 0 < ms → 0 < ms' → f ≠ 0 → (S (length ws) < fuel)%nat →
  wp (id ← SetTimer fuel ms f p; a ← GetTimerTime id;
      ChangeTimerTime fuel id ms';; b ← GetTimerTime id; mret (id, a, b))
    (λ r _, r = (id, ms, ms')) t.
Proof.
  intros HO Hms Hms' Hfn Hf. wp_steps. unfold SetTimer.
  rewrite (proj2 (Z.leb_gt _ _)), (proj2 (Z.eqb_neq _ _)) by done. simpl.
  eapply wp_mono; [apply (wp_start fuel _ _ t ws id fs HO (fills_call f p)); lia|].
  intros r t1 (->&HO1&Ha&_). wp_steps.
  assert (Hid : 0 ≤ id < MAX_TIMER_NUMBER).
  { destruct HO as (_&_&HI). eapply (holds_in _ _ _ _ _ id HI). set_solver. }
  assert (Hget : ∀ t2 x Q, g_timerArray t2 !! id = Some x → state x ≠ 0 →
    Q (tv_sec (interval x) * 1000 + Z.quot (tv_usec (interval x)) 1000) t2 → wp (GetTimerTime id) Q t2).
  { intros t2 x Q Hx Hs HQ. unfold GetTimerTime. rewrite (proj2 (Z.leb_gt _ _)) by lia. wp_steps.
    eapply wp_timer_at; [exact Hx|]. rewrite (proj2 (Z.eqb_neq _ _)) by done. by wp_steps. }
  eapply Hget; [by rewrite Ha, lookup_insert_eq|done|]. cbn [interval]. rewrite interval_of_ms by done.
  wp_steps. eapply wp_mono.
  { apply (wp_ChangeTimerTime fuel t1 _ fs id ms' HO1); [lia|].
    unfold queue_of. rewrite tinsert_perm. simpl. lia. }
  intros r t2 (_&[(_&[Hin|?]&_)|(_&_&ws1&ws2&x&_&Hx&Ha2&_)]); [|lia|].
  - exfalso. apply Hin. unfold queue_of. rewrite tinsert_perm. by left.
  - wp_steps. rewrite Ha, lookup_insert_eq in Hx. injection Hx as <-.
    eapply Hget; [by rewrite Ha2, lookup_insert_eq|done|]. cbn [interval set_tv set_interval].
    rewrite interval_of_ms by done. by wp_steps.
Qed.
End properties.

(** ** Witnesses *)

Module timer_witness.
Local Abbreviation st := (timers (gmap Z list_head)).

(** The module as it is loaded, on a clock that advances a second per reading. *)
Definition zero_timer (b : Z) : st_timer := Timer 0 0 0 b (TV 0 0) (TV 0 0) 0 0.
Definition loaded : st :=
  Timers (list_to_map ((λ b, (b, zero_timer 0)) <$> timer_ids))
    (list_init g_listTimerFree (list_init g_listTimerWork ∅)) 0 0 false
    (λ n, TV (Z.of_nat n) 0) 0 [].

Lemma loaded_fresh : fresh_module loaded.
Proof.
  split; [done| |done|].
  - change {[g_listTimerWork := []; g_listTimerFree := []]}
      with (<[g_listTimerFree := []]> (<[g_listTimerWork := []]> ∅ : gmap Z (list Z))).
    assert (Hu : ∀ (A : gmap Z (list Z)) n, (∀ hd xs, A !! hd = Some xs → xs = [] ∧ hd ≠ n) → unlinked A n).
    { intros A n HA hd xs Hhd Hin. destruct (HA _ _ Hhd) as [-> ?]. set_solver. }
    apply (clist_init_spec (L := gmap Z list_head)); [apply clist_init_spec|].
    + split; [done|]. intros hd1 xs1 hd2 xs2. by rewrite lookup_empty.
    + apply Hu. intros hd xs. by rewrite lookup_empty.
    + apply Hu. intros hd xs. rewrite lookup_insert_Some, lookup_empty. naive_solver.
  - intros id Hid. exists (zero_timer 0). split; [|done].
    apply (zero_array id timer_ids (λ _, zero_timer 0) timer_ids_NoDup Hid).
Qed.

(** After the initialisation. *)
Lemma initialised : ∃ t : st, timers_ok t [] timer_ids ∧ t_clock t = t_clock loaded ∧ t_tick t = 0%nat ∧
  ∀ id, id ∈ timer_ids → g_timerArray t !! id = Some (zero_timer id).
Proof.
  destruct (proj1 (wp_run _ _ _) (wp_timerInit loaded loaded_fresh)) as ([]&t&_&HO&Hc&Ht&_&_&Ha).
  by exists t.
Qed.
Definition other_ids : list Z := tail timer_ids.
Lemma timer_ids_cons : timer_ids = 0 :: other_ids.
Proof. vm_compute. reflexivity. Qed.

(** One message timer is running: message 5, twice, every second. *)
Lemma one_message : ∃ (t : st) x, timers_ok t [0] other_ids ∧ g_timerArray t !! 0 = Some x ∧
  x = Timer 1 2 5 0 (TV 1 0) (TV 1 0) 0 0 ∧ t_clock t = t_clock loaded ∧ t_tick t = 1%nat.
Proof.
  destruct initialised as (t&HO&Hc&Ht&Ha). pose proof (Ha 0) as H0.
  rewrite timer_ids_cons in HO, H0. specialize (H0 ltac:(by left)).
  destruct (proj1 (wp_run _ _ _) (wp_start 1 1000 _ t [] 0 other_ids HO (fills_msg 5 2) ltac:(simpl; lia)))
    as (r&t'&_&_&HO'&Ha'&_&_&Hc'&Ht').
  rewrite H0, Hc, Ht in Ha', HO'. eexists t', _. split; [exact HO'|]. rewrite Ha', lookup_insert_eq.
  split_and!; [done|reflexivity|congruence|congruence].
Qed.

Lemma timer_ops_invariant_witness :
  wp (run_op (OpSetTimer 1000 7 9)) (λ _ t', timers_inv t') loaded ∧
  run_op (OpKill 3) loaded = Blocked.
Proof.
  split.
  - pose proof (proj2 (timer_ops_invariant (OpSetTimer 1000 7 9) loaded I) loaded_fresh) as H.
    replace (locks (OpSetTimer 1000 7 9)) with false in H by reflexivity.
    replace (starts (OpSetTimer 1000 7 9)) with true in H by reflexivity. exact H.
  - assert (op_id_ok (OpKill 3)) as Hid by (vm_compute; discriminate).
    pose proof (proj2 (timer_ops_invariant (OpKill 3) loaded Hid) loaded_fresh) as H.
    replace (locks (OpKill 3)) with true in H by reflexivity. exact H.
Defined.

Lemma SetTimer_spec_witness : ∃ t : st, timers_ok t [] (0 :: other_ids) ∧
  wp (SetTimer 1 1500 7 9) (λ r t', r = 0 ∧ ∃ n,
    let x := Timer 1 n (-1) 0 (TV 1 500000) (TV 1 500000) 7 9 in
    g_timerArray t' = <[0 := x]> (g_timerArray t) ∧
    timers_ok t' (queue_of (<[0 := x]> (g_timerArray t)) 0 []) other_ids) t.
Proof.
  destruct initialised as (t&HO&Hc&Ht&_). rewrite timer_ids_cons in HO. exists t. split; [exact HO|].
  pose proof (proj2 (SetTimer_spec 1 1500 7 9 t [] (0 :: other_ids) HO ltac:(simpl; lia)) ltac:(lia) ltac:(lia)) as Hs.
  cbv iota in Hs. rewrite Hc, Ht in Hs. exact Hs.
Defined.

Lemma thread_timer_spec_witness : ∃ t : st, timers_ok t [0] other_ids ∧
  wp (thread_timer 1) (thread_post t [0] other_ids) t ∧
  StronglySorted tv_le (deadline (g_timerArray t) <$> [0]).
Proof.
  destruct one_message as (t&x&HO&_). exists t. split; [exact HO|].
  apply (thread_timer_spec 1 t [0] other_ids HO). simpl. lia.
Defined.

Lemma msg_timer_fires_k_times_witness : ∃ t : st, timers_ok t [0] other_ids ∧
  wp (rounds 2 1) (λ _ t', t_events t' = t_events t ++ [Sent 5 0; Sent 5 0] ∧
    timers_ok t' [] (other_ids ++ [0])) (set_tick 3 t).
Proof.
  destruct one_message as (t&x&HO&Hx&->&Hc&Ht). exists t. split; [exact HO|].
  apply (msg_timer_fires_k_times 1 1 (set_tick 3 t) 0 _ other_ids HO Hx); try reflexivity; [done|].
  intros tick j Htk Hj. cbn [t_clock t_tick set_tick interval tv] in *. rewrite Hc.
  apply cmptime_spec. left. cbn [t_clock loaded tv_sec].
  assert (j = 0 ∨ j = 1)%nat as [->| ->] by lia.
  - change (1 < Z.of_nat tick). lia.
  - change (2 < Z.of_nat tick). lia.
Defined.

(** The id of a callback timer that was killed is first in line again. *)
Definition reused : st_timer := Timer 0 0 0 0 (TV 0 0) (TV 0 0) 7 9.
Lemma SetMsgTimer_stale_callback_witness : ∃ t : st,
  (timers_ok t [] (0 :: other_ids) ∧ g_timerArray t !! 0 = Some reused) ∧
  wp (SetMsgTimer 1 1000 5 2;; thread_timer 1) (λ _ t', t_events t' = t_events t ++ [Called 7 9]) t.
Proof.
  destruct initialised as (t&HO&Hc&Ht&Ha). rewrite timer_ids_cons in HO.
  assert (HO' : timers_ok (set_array (<[0 := reused]> (g_timerArray t)) t) [] (0 :: other_ids)).
  { destruct HO as (Hi&Hs&[HR Hids Harr Hw Hf Hso]). split; [done|split; [done|]]. split; try done; simpl.
    - intros id Hid. destruct (decide (id = 0)) as [->|].
      + exists reused. by rewrite lookup_insert_eq.
      + rewrite lookup_insert_ne by done. by apply Harr.
    - intros id Hid. by apply elem_of_nil in Hid.
    - intros id Hid. destruct (decide (id = 0)) as [->|]; [by rewrite lookup_insert_eq|].
      rewrite lookup_insert_ne by done. by apply Hf. }
  exists (set_array (<[0 := reused]> (g_timerArray t)) t).
  assert (Hx : g_timerArray (set_array (<[0 := reused]> (g_timerArray t)) t) !! 0 = Some reused)
    by (simpl; apply lookup_insert_eq).
  split; [split; [exact HO'|exact Hx]|].
  apply (SetMsgTimer_stale_callback 1 1000 5 2 _ 0 other_ids reused HO' Hx); [done|done|done|lia|].
  simpl. rewrite Hc, Ht. vm_compute. reflexivity.
Defined.

Lemma timer_interval_roundtrip_witness : ∃ t : st, timers_ok t [] (0 :: other_ids) ∧
  wp (id ← SetTimer 2 1500 7 9; a ← GetTimerTime id;
      ChangeTimerTime 2 id 20;; b ← GetTimerTime id; mret (id, a, b)) (λ r _, r = (0, 1500, 20)) t.
Proof.
  destruct initialised as (t&HO&_). rewrite timer_ids_cons in HO. exists t. split; [exact HO|].
  apply (timer_interval_roundtrip 2 1500 20 7 9 t [] 0 other_ids HO); [lia|lia|lia|simpl; lia].
Defined.
End timer_witness.
