(* ===== verification/Udp.v ===== *)
(** * Udp: one connection of the reliable UDP module (src/udp/ex_udp.c, ex_udp.h)

    The sequence number macros, the packet formats, the connection record and
    the operations on one connection: sending, receiving, acknowledging,
    reporting and repairing losses.  Socket.v holds the connection table, the
    threads and the interface functions.

    A handler runs without interleaving with the other threads; a semaphore is
    its count, and waiting for one that is zero blocks.  The two functions that
    wait for the peer, [exRecv] and [exSend], are composed of the parts between
    their waits ([turn]), so that Delivery.v can run other threads in between.  The clock, the result of
    [sendto] and of [msgsnd] are streams of the state; every datagram sent is
    recorded.  Logging is left out. *)
From stdpp Require Import base tactics list numbers gmap fin_maps.
From S2P Require Import Prelude Lists Clist.
Local Open Scope Z_scope.

(** ** Constants and data *)

Definition MAX_LINK_COUNT : Z := 4095.
Definition MAX_SOCKET_NUM : Z := 8191.
Definition MAX_PACKET_NUMBER : Z := 511.
Definition MAX_PACKET_SEQ : Z := Z.shiftl MAX_PACKET_NUMBER 2.
Definition MAX_PACKET_SIZE : Z := 1472.
Definition LEN_PACKET_HEAD : Z := 8.
Definition MAX_PACKET_DATA_SIZE : Z := 1464.
Definition LISTEN_INTERVAL : Z := 10000.
Definition CHECK_INTERVAL_INIT : Z := 20000.
Definition HOUR_TIME : Z := 3600000.
Definition FREE_MEM_INTERVAL : Z := 5000.
Definition EX_UDP_VER : Z := 18.
Definition EX_UDP_OK : Z := 1.
Definition EX_UDP_ERROR : Z := -1.
Definition MSG_EX_UDP_PACKET : Z := 256.
Definition MSGTYPE_UNCONNECTED : Z := 512.

(** [e_packet_type] *)
Definition LINK_SYN : Z := 1.
Definition LINK_SYN_ACK : Z := 2.
Definition LINK_ACK : Z := 3.
Definition USER_DATA : Z := 4.
Definition SEQ_CHECK : Z := 5.
Definition SEQ_REPORT : Z := 6.
Definition SEQ_LACK : Z := 7.
Definition LINK_FIN : Z := 8.

(** The header; all fields are unsigned (8, 8, 16, 16 and 16 bits). *)
Record s_packet_head := Head {
  ph_type : Z;
  ph_state : Z;
  ph_seq : Z;
  ph_seqCheck : Z;
  ph_checksum : Z;
}.

Definition set_ph_type (v : Z) (x : s_packet_head) : s_packet_head :=
  Head v (ph_state x) (ph_seq x) (ph_seqCheck x) (ph_checksum x).
Definition set_ph_state (v : Z) (x : s_packet_head) : s_packet_head :=
  Head (ph_type x) v (ph_seq x) (ph_seqCheck x) (ph_checksum x).
Definition set_ph_seq (v : Z) (x : s_packet_head) : s_packet_head :=
  Head (ph_type x) (ph_state x) v (ph_seqCheck x) (ph_checksum x).
Definition set_ph_seqCheck (v : Z) (x : s_packet_head) : s_packet_head :=
  Head (ph_type x) (ph_state x) (ph_seq x) v (ph_checksum x).
Definition set_ph_checksum (v : Z) (x : s_packet_head) : s_packet_head :=
  Head (ph_type x) (ph_state x) (ph_seq x) (ph_seqCheck x) v.

(** A packet: header, data buffer ([MAX_PACKET_DATA_SIZE] bytes), length with header. *)
Record s_packet_all := Packet {
  pa_head : s_packet_head;
  pa_buf : list Z;
  pa_len : Z;
}.

Definition set_pa_head (v : s_packet_head) (x : s_packet_all) : s_packet_all :=
  Packet v (pa_buf x) (pa_len x).
Definition set_pa_buf (v : list Z) (x : s_packet_all) : s_packet_all :=
  Packet (pa_head x) v (pa_len x).
Definition set_pa_len (v : Z) (x : s_packet_all) : s_packet_all :=
  Packet (pa_head x) (pa_buf x) v.

(** One connection ([struct tag_link]); its list node is at its address. *)
Record s_link := Link {
  linkState : Z;  (* 0 initial, 1 half open, 2 connected, -1 deleted *)
  timeoutFree : timeval;
  lk_id : Z;
  lk_socket : Z;
  lk_port : Z;
  lk_ip : Z;
  PrioritySendLack : Z;
  lk_accept : Z;
  timeout_times : Z;
  lk_timeout : timeval;
  timeoutSend : timeval;
  timeoutCheckLack : timeval;
  timeoutReportLack : timeval;
  tsWaitTime : Z;
  semRecvList : Z;
  semSendList : Z;
  semRecvListMutex : Z;
  semSendListMutex : Z;
  SeqRead : Z;
  SeqReadMax : Z;
  SeqMaxSend : Z;
  SeqCheckSend : Z;
  paArrayRecv : list s_packet_all;
  paArraySend : list s_packet_all;
  same_port_next : Z;
}.

Definition set_linkState (v : Z) (x : s_link) : s_link :=
  Link v (timeoutFree x) (lk_id x) (lk_socket x) (lk_port x) (lk_ip x) (PrioritySendLack x)
    (lk_accept x) (timeout_times x) (lk_timeout x) (timeoutSend x) (timeoutCheckLack x)
    (timeoutReportLack x) (tsWaitTime x) (semRecvList x) (semSendList x) (semRecvListMutex x)
    (semSendListMutex x) (SeqRead x) (SeqReadMax x) (SeqMaxSend x) (SeqCheckSend x)
    (paArrayRecv x) (paArraySend x) (same_port_next x).
Definition set_timeoutFree (v : timeval) (x : s_link) : s_link :=
  Link (linkState x) v (lk_id x) (lk_socket x) (lk_port x) (lk_ip x) (PrioritySendLack x)
    (lk_accept x) (timeout_times x) (lk_timeout x) (timeoutSend x) (timeoutCheckLack x)
    (timeoutReportLack x) (tsWaitTime x) (semRecvList x) (semSendList x) (semRecvListMutex x)
    (semSendListMutex x) (SeqRead x) (SeqReadMax x) (SeqMaxSend x) (SeqCheckSend x)
    (paArrayRecv x) (paArraySend x) (same_port_next x).
Definition set_lk_id (v : Z) (x : s_link) : s_link :=
  Link (linkState x) (timeoutFree x) v (lk_socket x) (lk_port x) (lk_ip x) (PrioritySendLack x)
    (lk_accept x) (timeout_times x) (lk_timeout x) (timeoutSend x) (timeoutCheckLack x)
    (timeoutReportLack x) (tsWaitTime x) (semRecvList x) (semSendList x) (semRecvListMutex x)
    (semSendListMutex x) (SeqRead x) (SeqReadMax x) (SeqMaxSend x) (SeqCheckSend x)
    (paArrayRecv x) (paArraySend x) (same_port_next x).
Definition set_lk_socket (v : Z) (x : s_link) : s_link :=
  Link (linkState x) (timeoutFree x) (lk_id x) v (lk_port x) (lk_ip x) (PrioritySendLack x)
    (lk_accept x) (timeout_times x) (lk_timeout x) (timeoutSend x) (timeoutCheckLack x)
    (timeoutReportLack x) (tsWaitTime x) (semRecvList x) (semSendList x) (semRecvListMutex x)
    (semSendListMutex x) (SeqRead x) (SeqReadMax x) (SeqMaxSend x) (SeqCheckSend x)
    (paArrayRecv x) (paArraySend x) (same_port_next x).
Definition set_lk_port (v : Z) (x : s_link) : s_link :=
  Link (linkState x) (timeoutFree x) (lk_id x) (lk_socket x) v (lk_ip x) (PrioritySendLack x)
    (lk_accept x) (timeout_times x) (lk_timeout x) (timeoutSend x) (timeoutCheckLack x)
    (timeoutReportLack x) (tsWaitTime x) (semRecvList x) (semSendList x) (semRecvListMutex x)
    (semSendListMutex x) (SeqRead x) (SeqReadMax x) (SeqMaxSend x) (SeqCheckSend x)
    (paArrayRecv x) (paArraySend x) (same_port_next x).
Definition set_lk_ip (v : Z) (x : s_link) : s_link :=
  Link (linkState x) (timeoutFree x) (lk_id x) (lk_socket x) (lk_port x) v (PrioritySendLack x)
    (lk_accept x) (timeout_times x) (lk_timeout x) (timeoutSend x) (timeoutCheckLack x)
    (timeoutReportLack x) (tsWaitTime x) (semRecvList x) (semSendList x) (semRecvListMutex x)
    (semSendListMutex x) (SeqRead x) (SeqReadMax x) (SeqMaxSend x) (SeqCheckSend x)
    (paArrayRecv x) (paArraySend x) (same_port_next x).
Definition set_PrioritySendLack (v : Z) (x : s_link) : s_link :=
  Link (linkState x) (timeoutFree x) (lk_id x) (lk_socket x) (lk_port x) (lk_ip x) v
    (lk_accept x) (timeout_times x) (lk_timeout x) (timeoutSend x) (timeoutCheckLack x)
    (timeoutReportLack x) (tsWaitTime x) (semRecvList x) (semSendList x) (semRecvListMutex x)
    (semSendListMutex x) (SeqRead x) (SeqReadMax x) (SeqMaxSend x) (SeqCheckSend x)
    (paArrayRecv x) (paArraySend x) (same_port_next x).
Definition set_lk_accept (v : Z) (x : s_link) : s_link :=
  Link (linkState x) (timeoutFree x) (lk_id x) (lk_socket x) (lk_port x) (lk_ip x)
    (PrioritySendLack x) v (timeout_times x) (lk_timeout x) (timeoutSend x) (timeoutCheckLack x)
    (timeoutReportLack x) (tsWaitTime x) (semRecvList x) (semSendList x) (semRecvListMutex x)
    (semSendListMutex x) (SeqRead x) (SeqReadMax x) (SeqMaxSend x) (SeqCheckSend x)
    (paArrayRecv x) (paArraySend x) (same_port_next x).
Definition set_timeout_times (v : Z) (x : s_link) : s_link :=
  Link (linkState x) (timeoutFree x) (lk_id x) (lk_socket x) (lk_port x) (lk_ip x)
    (PrioritySendLack x) (lk_accept x) v (lk_timeout x) (timeoutSend x) (timeoutCheckLack x)
    (timeoutReportLack x) (tsWaitTime x) (semRecvList x) (semSendList x) (semRecvListMutex x)
    (semSendListMutex x) (SeqRead x) (SeqReadMax x) (SeqMaxSend x) (SeqCheckSend x)
    (paArrayRecv x) (paArraySend x) (same_port_next x).
Definition set_lk_timeout (v : timeval) (x : s_link) : s_link :=
  Link (linkState x) (timeoutFree x) (lk_id x) (lk_socket x) (lk_port x) (lk_ip x)
    (PrioritySendLack x) (lk_accept x) (timeout_times x) v (timeoutSend x) (timeoutCheckLack x)
    (timeoutReportLack x) (tsWaitTime x) (semRecvList x) (semSendList x) (semRecvListMutex x)
    (semSendListMutex x) (SeqRead x) (SeqReadMax x) (SeqMaxSend x) (SeqCheckSend x)
    (paArrayRecv x) (paArraySend x) (same_port_next x).
Definition set_timeoutSend (v : timeval) (x : s_link) : s_link :=
  Link (linkState x) (timeoutFree x) (lk_id x) (lk_socket x) (lk_port x) (lk_ip x)
    (PrioritySendLack x) (lk_accept x) (timeout_times x) (lk_timeout x) v (timeoutCheckLack x)
    (timeoutReportLack x) (tsWaitTime x) (semRecvList x) (semSendList x) (semRecvListMutex x)
    (semSendListMutex x) (SeqRead x) (SeqReadMax x) (SeqMaxSend x) (SeqCheckSend x)
    (paArrayRecv x) (paArraySend x) (same_port_next x).
Definition set_timeoutCheckLack (v : timeval) (x : s_link) : s_link :=
  Link (linkState x) (timeoutFree x) (lk_id x) (lk_socket x) (lk_port x) (lk_ip x)
    (PrioritySendLack x) (lk_accept x) (timeout_times x) (lk_timeout x) (timeoutSend x) v
    (timeoutReportLack x) (tsWaitTime x) (semRecvList x) (semSendList x) (semRecvListMutex x)
    (semSendListMutex x) (SeqRead x) (SeqReadMax x) (SeqMaxSend x) (SeqCheckSend x)
    (paArrayRecv x) (paArraySend x) (same_port_next x).
Definition set_timeoutReportLack (v : timeval) (x : s_link) : s_link :=
  Link (linkState x) (timeoutFree x) (lk_id x) (lk_socket x) (lk_port x) (lk_ip x)
    (PrioritySendLack x) (lk_accept x) (timeout_times x) (lk_timeout x) (timeoutSend x)
    (timeoutCheckLack x) v (tsWaitTime x) (semRecvList x) (semSendList x) (semRecvListMutex x)
    (semSendListMutex x) (SeqRead x) (SeqReadMax x) (SeqMaxSend x) (SeqCheckSend x)
    (paArrayRecv x) (paArraySend x) (same_port_next x).
Definition set_tsWaitTime (v : Z) (x : s_link) : s_link :=
  Link (linkState x) (timeoutFree x) (lk_id x) (lk_socket x) (lk_port x) (lk_ip x)
    (PrioritySendLack x) (lk_accept x) (timeout_times x) (lk_timeout x) (timeoutSend x)
    (timeoutCheckLack x) (timeoutReportLack x) v (semRecvList x) (semSendList x)
    (semRecvListMutex x) (semSendListMutex x) (SeqRead x) (SeqReadMax x) (SeqMaxSend x)
    (SeqCheckSend x) (paArrayRecv x) (paArraySend x) (same_port_next x).
Definition set_semRecvList (v : Z) (x : s_link) : s_link :=
  Link (linkState x) (timeoutFree x) (lk_id x) (lk_socket x) (lk_port x) (lk_ip x)
    (PrioritySendLack x) (lk_accept x) (timeout_times x) (lk_timeout x) (timeoutSend x)
    (timeoutCheckLack x) (timeoutReportLack x) (tsWaitTime x) v (semSendList x)
    (semRecvListMutex x) (semSendListMutex x) (SeqRead x) (SeqReadMax x) (SeqMaxSend x)
    (SeqCheckSend x) (paArrayRecv x) (paArraySend x) (same_port_next x).
Definition set_semSendList (v : Z) (x : s_link) : s_link :=
  Link (linkState x) (timeoutFree x) (lk_id x) (lk_socket x) (lk_port x) (lk_ip x)
    (PrioritySendLack x) (lk_accept x) (timeout_times x) (lk_timeout x) (timeoutSend x)
    (timeoutCheckLack x) (timeoutReportLack x) (tsWaitTime x) (semRecvList x) v
    (semRecvListMutex x) (semSendListMutex x) (SeqRead x) (SeqReadMax x) (SeqMaxSend x)
    (SeqCheckSend x) (paArrayRecv x) (paArraySend x) (same_port_next x).
Definition set_semRecvListMutex (v : Z) (x : s_link) : s_link :=
  Link (linkState x) (timeoutFree x) (lk_id x) (lk_socket x) (lk_port x) (lk_ip x)
    (PrioritySendLack x) (lk_accept x) (timeout_times x) (lk_timeout x) (timeoutSend x)
    (timeoutCheckLack x) (timeoutReportLack x) (tsWaitTime x) (semRecvList x) (semSendList x) v
    (semSendListMutex x) (SeqRead x) (SeqReadMax x) (SeqMaxSend x) (SeqCheckSend x)
    (paArrayRecv x) (paArraySend x) (same_port_next x).
Definition set_semSendListMutex (v : Z) (x : s_link) : s_link :=
  Link (linkState x) (timeoutFree x) (lk_id x) (lk_socket x) (lk_port x) (lk_ip x)
    (PrioritySendLack x) (lk_accept x) (timeout_times x) (lk_timeout x) (timeoutSend x)
    (timeoutCheckLack x) (timeoutReportLack x) (tsWaitTime x) (semRecvList x) (semSendList x)
    (semRecvListMutex x) v (SeqRead x) (SeqReadMax x) (SeqMaxSend x) (SeqCheckSend x)
    (paArrayRecv x) (paArraySend x) (same_port_next x).
Definition set_SeqRead (v : Z) (x : s_link) : s_link :=
  Link (linkState x) (timeoutFree x) (lk_id x) (lk_socket x) (lk_port x) (lk_ip x)
    (PrioritySendLack x) (lk_accept x) (timeout_times x) (lk_timeout x) (timeoutSend x)
    (timeoutCheckLack x) (timeoutReportLack x) (tsWaitTime x) (semRecvList x) (semSendList x)
    (semRecvListMutex x) (semSendListMutex x) v (SeqReadMax x) (SeqMaxSend x) (SeqCheckSend x)
    (paArrayRecv x) (paArraySend x) (same_port_next x).
Definition set_SeqReadMax (v : Z) (x : s_link) : s_link :=
  Link (linkState x) (timeoutFree x) (lk_id x) (lk_socket x) (lk_port x) (lk_ip x)
    (PrioritySendLack x) (lk_accept x) (timeout_times x) (lk_timeout x) (timeoutSend x)
    (timeoutCheckLack x) (timeoutReportLack x) (tsWaitTime x) (semRecvList x) (semSendList x)
    (semRecvListMutex x) (semSendListMutex x) (SeqRead x) v (SeqMaxSend x) (SeqCheckSend x)
    (paArrayRecv x) (paArraySend x) (same_port_next x).
Definition set_SeqMaxSend (v : Z) (x : s_link) : s_link :=
  Link (linkState x) (timeoutFree x) (lk_id x) (lk_socket x) (lk_port x) (lk_ip x)
    (PrioritySendLack x) (lk_accept x) (timeout_times x) (lk_timeout x) (timeoutSend x)
    (timeoutCheckLack x) (timeoutReportLack x) (tsWaitTime x) (semRecvList x) (semSendList x)
    (semRecvListMutex x) (semSendListMutex x) (SeqRead x) (SeqReadMax x) v (SeqCheckSend x)
    (paArrayRecv x) (paArraySend x) (same_port_next x).
Definition set_SeqCheckSend (v : Z) (x : s_link) : s_link :=
  Link (linkState x) (timeoutFree x) (lk_id x) (lk_socket x) (lk_port x) (lk_ip x)
    (PrioritySendLack x) (lk_accept x) (timeout_times x) (lk_timeout x) (timeoutSend x)
    (timeoutCheckLack x) (timeoutReportLack x) (tsWaitTime x) (semRecvList x) (semSendList x)
    (semRecvListMutex x) (semSendListMutex x) (SeqRead x) (SeqReadMax x) (SeqMaxSend x) v
    (paArrayRecv x) (paArraySend x) (same_port_next x).
Definition set_paArrayRecv (v : list s_packet_all) (x : s_link) : s_link :=
  Link (linkState x) (timeoutFree x) (lk_id x) (lk_socket x) (lk_port x) (lk_ip x)
    (PrioritySendLack x) (lk_accept x) (timeout_times x) (lk_timeout x) (timeoutSend x)
    (timeoutCheckLack x) (timeoutReportLack x) (tsWaitTime x) (semRecvList x) (semSendList x)
    (semRecvListMutex x) (semSendListMutex x) (SeqRead x) (SeqReadMax x) (SeqMaxSend x)
    (SeqCheckSend x) v (paArraySend x) (same_port_next x).
Definition set_paArraySend (v : list s_packet_all) (x : s_link) : s_link :=
  Link (linkState x) (timeoutFree x) (lk_id x) (lk_socket x) (lk_port x) (lk_ip x)
    (PrioritySendLack x) (lk_accept x) (timeout_times x) (lk_timeout x) (timeoutSend x)
    (timeoutCheckLack x) (timeoutReportLack x) (tsWaitTime x) (semRecvList x) (semSendList x)
    (semRecvListMutex x) (semSendListMutex x) (SeqRead x) (SeqReadMax x) (SeqMaxSend x)
    (SeqCheckSend x) (paArrayRecv x) v (same_port_next x).
Definition set_same_port_next (v : Z) (x : s_link) : s_link :=
  Link (linkState x) (timeoutFree x) (lk_id x) (lk_socket x) (lk_port x) (lk_ip x)
    (PrioritySendLack x) (lk_accept x) (timeout_times x) (lk_timeout x) (timeoutSend x)
    (timeoutCheckLack x) (timeoutReportLack x) (tsWaitTime x) (semRecvList x) (semSendList x)
    (semRecvListMutex x) (semSendListMutex x) (SeqRead x) (SeqReadMax x) (SeqMaxSend x)
    (SeqCheckSend x) (paArrayRecv x) (paArraySend x) v.

(** One socket ([st_sock]); its lists live in the list memory, see below. *)
Record st_sock := Sock {
  ss_inArray : bool;  (* g_pSock[socket] is this socket *)
  ss_linkState : Z;
  ss_threadState : Z;
  ss_socket : Z;
  ss_msgid : Z;
  ss_tsWaitTime : Z;
  ss_connectPriority : Z;
  time_send : timeval;
  time_listen : timeval;
  nextListenLink : Z;
  semAccept : Z;
  semListen : Z;
  semRecvToMsg : Z;
  semListRead : Z;
  semLink : Z;
  pLinkPortArray : gmap Z Z;  (* no entry: NULL *)
  pLinkIDArray : gmap Z Z;  (* no entry: NULL *)
}.

Definition set_ss_inArray (v : bool) (x : st_sock) : st_sock :=
  Sock v (ss_linkState x) (ss_threadState x) (ss_socket x) (ss_msgid x) (ss_tsWaitTime x)
    (ss_connectPriority x) (time_send x) (time_listen x) (nextListenLink x) (semAccept x)
    (semListen x) (semRecvToMsg x) (semListRead x) (semLink x) (pLinkPortArray x)
    (pLinkIDArray x).
Definition set_ss_linkState (v : Z) (x : st_sock) : st_sock :=
  Sock (ss_inArray x) v (ss_threadState x) (ss_socket x) (ss_msgid x) (ss_tsWaitTime x)
    (ss_connectPriority x) (time_send x) (time_listen x) (nextListenLink x) (semAccept x)
    (semListen x) (semRecvToMsg x) (semListRead x) (semLink x) (pLinkPortArray x)
    (pLinkIDArray x).
Definition set_ss_threadState (v : Z) (x : st_sock) : st_sock :=
  Sock (ss_inArray x) (ss_linkState x) v (ss_socket x) (ss_msgid x) (ss_tsWaitTime x)
    (ss_connectPriority x) (time_send x) (time_listen x) (nextListenLink x) (semAccept x)
    (semListen x) (semRecvToMsg x) (semListRead x) (semLink x) (pLinkPortArray x)
    (pLinkIDArray x).
Definition set_ss_socket (v : Z) (x : st_sock) : st_sock :=
  Sock (ss_inArray x) (ss_linkState x) (ss_threadState x) v (ss_msgid x) (ss_tsWaitTime x)
    (ss_connectPriority x) (time_send x) (time_listen x) (nextListenLink x) (semAccept x)
    (semListen x) (semRecvToMsg x) (semListRead x) (semLink x) (pLinkPortArray x)
    (pLinkIDArray x).
Definition set_ss_msgid (v : Z) (x : st_sock) : st_sock :=
  Sock (ss_inArray x) (ss_linkState x) (ss_threadState x) (ss_socket x) v (ss_tsWaitTime x)
    (ss_connectPriority x) (time_send x) (time_listen x) (nextListenLink x) (semAccept x)
    (semListen x) (semRecvToMsg x) (semListRead x) (semLink x) (pLinkPortArray x)
    (pLinkIDArray x).
Definition set_ss_tsWaitTime (v : Z) (x : st_sock) : st_sock :=
  Sock (ss_inArray x) (ss_linkState x) (ss_threadState x) (ss_socket x) (ss_msgid x) v
    (ss_connectPriority x) (time_send x) (time_listen x) (nextListenLink x) (semAccept x)
    (semListen x) (semRecvToMsg x) (semListRead x) (semLink x) (pLinkPortArray x)
    (pLinkIDArray x).
Definition set_ss_connectPriority (v : Z) (x : st_sock) : st_sock :=
  Sock (ss_inArray x) (ss_linkState x) (ss_threadState x) (ss_socket x) (ss_msgid x)
    (ss_tsWaitTime x) v (time_send x) (time_listen x) (nextListenLink x) (semAccept x)
    (semListen x) (semRecvToMsg x) (semListRead x) (semLink x) (pLinkPortArray x)
    (pLinkIDArray x).
Definition set_time_send (v : timeval) (x : st_sock) : st_sock :=
  Sock (ss_inArray x) (ss_linkState x) (ss_threadState x) (ss_socket x) (ss_msgid x)
    (ss_tsWaitTime x) (ss_connectPriority x) v (time_listen x) (nextListenLink x) (semAccept x)
    (semListen x) (semRecvToMsg x) (semListRead x) (semLink x) (pLinkPortArray x)
    (pLinkIDArray x).
Definition set_time_listen (v : timeval) (x : st_sock) : st_sock :=
  Sock (ss_inArray x) (ss_linkState x) (ss_threadState x) (ss_socket x) (ss_msgid x)
    (ss_tsWaitTime x) (ss_connectPriority x) (time_send x) v (nextListenLink x) (semAccept x)
    (semListen x) (semRecvToMsg x) (semListRead x) (semLink x) (pLinkPortArray x)
    (pLinkIDArray x).
Definition set_nextListenLink (v : Z) (x : st_sock) : st_sock :=
  Sock (ss_inArray x) (ss_linkState x) (ss_threadState x) (ss_socket x) (ss_msgid x)
    (ss_tsWaitTime x) (ss_connectPriority x) (time_send x) (time_listen x) v (semAccept x)
    (semListen x) (semRecvToMsg x) (semListRead x) (semLink x) (pLinkPortArray x)
    (pLinkIDArray x).
Definition set_semAccept (v : Z) (x : st_sock) : st_sock :=
  Sock (ss_inArray x) (ss_linkState x) (ss_threadState x) (ss_socket x) (ss_msgid x)
    (ss_tsWaitTime x) (ss_connectPriority x) (time_send x) (time_listen x) (nextListenLink x) v
    (semListen x) (semRecvToMsg x) (semListRead x) (semLink x) (pLinkPortArray x)
    (pLinkIDArray x).
Definition set_semListen (v : Z) (x : st_sock) : st_sock :=
  Sock (ss_inArray x) (ss_linkState x) (ss_threadState x) (ss_socket x) (ss_msgid x)
    (ss_tsWaitTime x) (ss_connectPriority x) (time_send x) (time_listen x) (nextListenLink x)
    (semAccept x) v (semRecvToMsg x) (semListRead x) (semLink x) (pLinkPortArray x)
    (pLinkIDArray x).
Definition set_semRecvToMsg (v : Z) (x : st_sock) : st_sock :=
  Sock (ss_inArray x) (ss_linkState x) (ss_threadState x) (ss_socket x) (ss_msgid x)
    (ss_tsWaitTime x) (ss_connectPriority x) (time_send x) (time_listen x) (nextListenLink x)
    (semAccept x) (semListen x) v (semListRead x) (semLink x) (pLinkPortArray x)
    (pLinkIDArray x).
Definition set_semListRead (v : Z) (x : st_sock) : st_sock :=
  Sock (ss_inArray x) (ss_linkState x) (ss_threadState x) (ss_socket x) (ss_msgid x)
    (ss_tsWaitTime x) (ss_connectPriority x) (time_send x) (time_listen x) (nextListenLink x)
    (semAccept x) (semListen x) (semRecvToMsg x) v (semLink x) (pLinkPortArray x)
    (pLinkIDArray x).
Definition set_semLink (v : Z) (x : st_sock) : st_sock :=
  Sock (ss_inArray x) (ss_linkState x) (ss_threadState x) (ss_socket x) (ss_msgid x)
    (ss_tsWaitTime x) (ss_connectPriority x) (time_send x) (time_listen x) (nextListenLink x)
    (semAccept x) (semListen x) (semRecvToMsg x) (semListRead x) v (pLinkPortArray x)
    (pLinkIDArray x).
Definition set_pLinkPortArray (v : gmap Z Z) (x : st_sock) : st_sock :=
  Sock (ss_inArray x) (ss_linkState x) (ss_threadState x) (ss_socket x) (ss_msgid x)
    (ss_tsWaitTime x) (ss_connectPriority x) (time_send x) (time_listen x) (nextListenLink x)
    (semAccept x) (semListen x) (semRecvToMsg x) (semListRead x) (semLink x) v (pLinkIDArray x).
Definition set_pLinkIDArray (v : gmap Z Z) (x : st_sock) : st_sock :=
  Sock (ss_inArray x) (ss_linkState x) (ss_threadState x) (ss_socket x) (ss_msgid x)
    (ss_tsWaitTime x) (ss_connectPriority x) (time_send x) (time_listen x) (nextListenLink x)
    (semAccept x) (semListen x) (semRecvToMsg x) (semListRead x) (semLink x) (pLinkPortArray x)
    v.

(** What was sent: destination and bytes (header and data). *)
Record datagram := Datagram { dg_ip : Z; dg_port : Z; dg_head : s_packet_head; dg_data : list Z }.
(** A System V message of the receive queue. *)
Record st_msg_packet := Msg { msg_type : Z; msg_id : Z; msg_buf : list Z }.

(** The state of the process: one socket and its connections. *)
Record udp (L : Type) := Udp {
  u_sock : st_sock;
  u_links : gmap Z s_link;  (* live connections by address *)
  u_lists : L;  (* memory of the clist library *)
  u_interval : Z;  (* LISTEN_LINK_INTERVAL *)
  u_times : Z;  (* LISTEN_LINK_TIMES *)
  u_clock : nat → timeval;
  u_tick : nat;
  u_sendok : nat → bool;
  u_sends : nat;
  u_msgok : nat → bool;
  u_msgsnds : nat;
  u_out : list datagram;
  u_msgs : list st_msg_packet;
  u_semLink : Z;  (* g_semLink, the lock of the process *)
}.
Arguments Udp {L}.
Arguments u_sock {L}.
Arguments u_links {L}.
Arguments u_lists {L}.
Arguments u_interval {L}.
Arguments u_times {L}.
Arguments u_clock {L}.
Arguments u_tick {L}.
Arguments u_sendok {L}.
Arguments u_sends {L}.
Arguments u_msgok {L}.
Arguments u_msgsnds {L}.
Arguments u_out {L}.
Arguments u_msgs {L}.
Arguments u_semLink {L}.

Definition set_u_sock {L} (v : st_sock) (x : udp L) : udp L :=
  Udp v (u_links x) (u_lists x) (u_interval x) (u_times x) (u_clock x) (u_tick x) (u_sendok x)
    (u_sends x) (u_msgok x) (u_msgsnds x) (u_out x) (u_msgs x) (u_semLink x).
Definition set_u_links {L} (v : gmap Z s_link) (x : udp L) : udp L :=
  Udp (u_sock x) v (u_lists x) (u_interval x) (u_times x) (u_clock x) (u_tick x) (u_sendok x)
    (u_sends x) (u_msgok x) (u_msgsnds x) (u_out x) (u_msgs x) (u_semLink x).
Definition set_u_lists {L} (v : L) (x : udp L) : udp L :=
  Udp (u_sock x) (u_links x) v (u_interval x) (u_times x) (u_clock x) (u_tick x) (u_sendok x)
    (u_sends x) (u_msgok x) (u_msgsnds x) (u_out x) (u_msgs x) (u_semLink x).
Definition set_u_interval {L} (v : Z) (x : udp L) : udp L :=
  Udp (u_sock x) (u_links x) (u_lists x) v (u_times x) (u_clock x) (u_tick x) (u_sendok x)
    (u_sends x) (u_msgok x) (u_msgsnds x) (u_out x) (u_msgs x) (u_semLink x).
Definition set_u_times {L} (v : Z) (x : udp L) : udp L :=
  Udp (u_sock x) (u_links x) (u_lists x) (u_interval x) v (u_clock x) (u_tick x) (u_sendok x)
    (u_sends x) (u_msgok x) (u_msgsnds x) (u_out x) (u_msgs x) (u_semLink x).
Definition set_u_clock {L} (v : nat → timeval) (x : udp L) : udp L :=
  Udp (u_sock x) (u_links x) (u_lists x) (u_interval x) (u_times x) v (u_tick x) (u_sendok x)
    (u_sends x) (u_msgok x) (u_msgsnds x) (u_out x) (u_msgs x) (u_semLink x).
Definition set_u_tick {L} (v : nat) (x : udp L) : udp L :=
  Udp (u_sock x) (u_links x) (u_lists x) (u_interval x) (u_times x) (u_clock x) v (u_sendok x)
    (u_sends x) (u_msgok x) (u_msgsnds x) (u_out x) (u_msgs x) (u_semLink x).
Definition set_u_sendok {L} (v : nat → bool) (x : udp L) : udp L :=
  Udp (u_sock x) (u_links x) (u_lists x) (u_interval x) (u_times x) (u_clock x) (u_tick x) v
    (u_sends x) (u_msgok x) (u_msgsnds x) (u_out x) (u_msgs x) (u_semLink x).
Definition set_u_sends {L} (v : nat) (x : udp L) : udp L :=
  Udp (u_sock x) (u_links x) (u_lists x) (u_interval x) (u_times x) (u_clock x) (u_tick x)
    (u_sendok x) v (u_msgok x) (u_msgsnds x) (u_out x) (u_msgs x) (u_semLink x).
Definition set_u_msgok {L} (v : nat → bool) (x : udp L) : udp L :=
  Udp (u_sock x) (u_links x) (u_lists x) (u_interval x) (u_times x) (u_clock x) (u_tick x)
    (u_sendok x) (u_sends x) v (u_msgsnds x) (u_out x) (u_msgs x) (u_semLink x).
Definition set_u_msgsnds {L} (v : nat) (x : udp L) : udp L :=
  Udp (u_sock x) (u_links x) (u_lists x) (u_interval x) (u_times x) (u_clock x) (u_tick x)
    (u_sendok x) (u_sends x) (u_msgok x) v (u_out x) (u_msgs x) (u_semLink x).
Definition set_u_out {L} (v : list datagram) (x : udp L) : udp L :=
  Udp (u_sock x) (u_links x) (u_lists x) (u_interval x) (u_times x) (u_clock x) (u_tick x)
    (u_sendok x) (u_sends x) (u_msgok x) (u_msgsnds x) v (u_msgs x) (u_semLink x).
Definition set_u_msgs {L} (v : list st_msg_packet) (x : udp L) : udp L :=
  Udp (u_sock x) (u_links x) (u_lists x) (u_interval x) (u_times x) (u_clock x) (u_tick x)
    (u_sendok x) (u_sends x) (u_msgok x) (u_msgsnds x) (u_out x) v (u_semLink x).
Definition set_u_semLink {L} (v : Z) (x : udp L) : udp L :=
  Udp (u_sock x) (u_links x) (u_lists x) (u_interval x) (u_times x) (u_clock x) (u_tick x)
    (u_sendok x) (u_sends x) (u_msgok x) (u_msgsnds x) (u_out x) (u_msgs x) v.

(** ** Arithmetic of sequence numbers and time *)

(** [CMP_SEQ(head, tail)] and [CMP_SEQ_ORDER(head, mid, tail)]; the operands are
    16-bit and the arithmetic is that of [int], so nothing wraps. *)
Definition CMP_SEQ (head tail : Z) : bool :=
  ((tail <? head) && (head <? tail + MAX_PACKET_NUMBER))
  || ((head <? tail) && (head + MAX_PACKET_SEQ - MAX_PACKET_NUMBER <? tail)).

Definition CMP_SEQ_ORDER (head mid tail : Z) : bool :=
  ((head <=? mid) && (mid <? tail) && (tail <? head + MAX_PACKET_NUMBER))
  || ((head <=? mid) && (tail <? head) && (tail + MAX_PACKET_SEQ - MAX_PACKET_NUMBER <? head))
  || ((tail <? head) && (mid <? tail) && (tail + MAX_PACKET_SEQ - MAX_PACKET_NUMBER <? head)).

(** The two differences are of type [long] ([s64] is the value after an
    overflow, which [ms_defined] excludes). *)
Definition GET_MS_DIFF (tv1 tv2 : timeval) : Z :=
  Z.land (s64 (tv_sec tv1 - tv_sec tv2)) 0x1FFFFF * 1000 + Z.quot (s64 (tv_usec tv1 - tv_usec tv2)) 1000.
Definition in_s64 (x : Z) : bool := (- 2 ^ 63 <=? x) && (x <? 2 ^ 63).
(** Neither difference overflows. *)
Definition ms_defined (tv1 tv2 : timeval) : bool :=
  in_s64 (tv_sec tv1 - tv_sec tv2) && in_s64 (tv_usec tv1 - tv_usec tv2).

(** A time that [gettimeofday] gives: seconds since the epoch, below 2^62, and
    microseconds below a million. *)
Definition reading (tv : timeval) : timeval := TV (tv_sec tv mod 2 ^ 62) (tv_usec tv mod 1000000).

(** ** Memory of a packet *)

Definition zero_head : s_packet_head := Head 0 0 0 0 0.
Definition zero_packet : s_packet_all :=
  Packet zero_head (replicate (Z.to_nat MAX_PACKET_DATA_SIZE) 0) 0.

(** The circular arrays, indexed modulo their size. *)
Definition slot_index (n : Z) : nat := Z.to_nat (n mod MAX_PACKET_NUMBER).
Definition slot (a : list s_packet_all) (n : Z) : s_packet_all :=
  default zero_packet (a !! slot_index n).
Definition put_slot (n : Z) (pa : s_packet_all) (a : list s_packet_all) : list s_packet_all :=
  <[slot_index n := pa]> a.

(** [memcpy(buf, data, len)]. *)
Definition overwrite (data buf : list Z) : list Z := data ++ drop (length data) buf.

(** The buffer read as an array of USHORT, and a USHORT stored at index [k]. *)
Fixpoint words (buf : list Z) : list Z :=
  match buf with
  | a :: b :: buf => a + 256 * b :: words buf
  | _ => []
  end.
Definition put_word (k : nat) (v : Z) (buf : list Z) : list Z :=
  <[(2 * k)%nat := v mod 256]> (<[(2 * k + 1)%nat := v / 256]> buf).

(** A [long] as its eight bytes, and a [struct timeval] at the start of a buffer. *)
Definition long_bytes (x : Z) : list Z := (λ i, u8 (Z.shiftr x (8 * Z.of_nat i))) <$> seq 0 8.
Definition long_of_bytes (bs : list Z) : Z := s64 (foldr (λ b n, b + 256 * n) 0 (take 8 bs)).
Definition tv_bytes (tv : timeval) : list Z := long_bytes (tv_sec tv) ++ long_bytes (tv_usec tv).
Definition tv_of_bytes (bs : list Z) : timeval := TV (long_of_bytes bs) (long_of_bytes (drop 8 bs)).

(** The packet as an array of USHORT (x86-64: little endian). *)
Definition packet_words (pa : s_packet_all) : list Z :=
  let h := pa_head pa in
  [ph_type h + 256 * ph_state h; ph_seq h; ph_seqCheck h; ph_checksum h] ++ words (pa_buf pa).

(** The value is the checksum and the packet after the padding. *)
Definition checksummat (pa : s_packet_all) : Z * s_packet_all :=
  let len := pa_len pa in
  if (len <? LEN_PACKET_HEAD) || (MAX_PACKET_SIZE <? len) then (u16 EX_UDP_ERROR, pa)
  else
    let checksum_t := ph_checksum (pa_head pa) in
    let pa := set_pa_head (set_ph_checksum 0 (pa_head pa)) pa in
    let pa := if Z.odd len && negb (len =? MAX_PACKET_SIZE)
              then set_pa_buf (<[Z.to_nat (len - LEN_PACKET_HEAD) := 0]> (pa_buf pa)) pa else pa in
    let i := (len + 1) mod 2 in
    let checksum := foldl Z.lxor 0 (take (Z.to_nat i) (packet_words pa)) in
    (checksum, set_pa_head (set_ph_checksum checksum_t (pa_head pa)) pa).

(** ** State access *)

(** The list heads and nodes inside [st_sock]; connections are allocated above. *)
Definition sts_list : Z := 1.
Definition listFreeHead : Z := 2.
Definition listIDMsgReadHead : Z := 3.
Definition listIDAllocationHead : Z := 4.
Definition stIDListMsgRead (id : Z) : Z := 0x10000 + id.
Definition stIDListAllocation (id : Z) : Z := 0x20000 + id.

Section ops.
Context {L : Type} `{Clist L}.

Definition link_at (p : Z) : M (udp L) s_link := gets_opt (λ t, u_links t !! p).
Definition link_set (p : Z) (f : s_link → s_link) : M (udp L) unit :=
  modify_opt (λ t, (λ l, set_u_links (<[p := f l]> (u_links t)) t) <$> u_links t !! p).
Definition sts : M (udp L) st_sock := gets u_sock.
Definition sts_set (f : st_sock → st_sock) : M (udp L) unit :=
  modify (λ t, set_u_sock (f (u_sock t)) t).
Definition lists_set (f : L → L) : M (udp L) unit :=
  modify (λ t, set_u_lists (f (u_lists t)) t).

Definition gettimeofday : M (udp L) timeval :=
  λ t, Ret (reading (u_clock t (u_tick t)), set_u_tick (S (u_tick t)) t).

(** Semaphores of a connection and of the socket. *)
Definition sem_post (get : s_link → Z) (set : Z → s_link → s_link) (p : Z) : M (udp L) unit :=
  link_set p (λ l, set (get l + 1) l).
Definition sem_wait (get : s_link → Z) (set : Z → s_link → s_link) (p : Z) : M (udp L) unit :=
  l ← link_at p;
  if get l <=? 0 then blocked else link_set p (λ l, set (get l - 1) l).
(** [SEM_TIMED_WAIT]: with nobody to post, an empty semaphore times out. *)
Definition sem_timed_wait (get : s_link → Z) (set : Z → s_link → s_link) (p : Z) : M (udp L) Z :=
  gettimeofday;;
  l ← link_at p;
  if get l <=? 0 then mret (-1) else link_set p (λ l, set (get l - 1) l);; mret 0.
Definition sts_post (get : st_sock → Z) (set : Z → st_sock → st_sock) : M (udp L) unit :=
  sts_set (λ s, set (get s + 1) s).
Definition sts_wait (get : st_sock → Z) (set : Z → st_sock → st_sock) : M (udp L) unit :=
  s ← sts;
  if get s <=? 0 then blocked else sts_set (λ s, set (get s - 1) s).

(** [sendto] and [msgsnd] of the system. *)
Definition sendto (ip port : Z) (pa : s_packet_all) (len : Z) : M (udp L) Z :=
  λ t,
    let t' := set_u_sends (S (u_sends t)) t in
    if u_sendok t (u_sends t)
    then Ret (len, set_u_out (u_out t ++
      [Datagram ip port (pa_head pa) (take (Z.to_nat (len - LEN_PACKET_HEAD)) (pa_buf pa))]) t')
    else Ret (-1, t').
Definition msgsnd (msg : st_msg_packet) : M (udp L) Z :=
  λ t,
    let t' := set_u_msgsnds (S (u_msgsnds t)) t in
    if u_msgok t (u_msgsnds t) then Ret (0, set_u_msgs (u_msgs t ++ [msg]) t') else Ret (-1, t').

(** ** Operations on one connection *)

Definition ctlIntervalTime : M (udp L) unit :=
  s ← sts;
  if negb (ss_linkState s =? 1) then mret tt
  else
    interval ← gets u_interval;
    (if interval <=? GET_MS_DIFF (time_listen s) (time_send s)
     then sts_post semListen set_semListen else mret tt);;
    now ← gettimeofday;
    sts_set (set_time_send now).

Definition add_listRead (pslink : Z) : M (udp L) Z :=
  sts_wait semListRead set_semListRead;;
  l ← link_at pslink;
  t ← gets u_lists;
  (if clist_empty (stIDListMsgRead (lk_id l)) t
   then lists_set (list_push_back listIDMsgReadHead (stIDListMsgRead (lk_id l)));;
        sts_post semRecvToMsg set_semRecvToMsg
   else mret tt);;
  sts_post semListRead set_semListRead;;
  mret EX_UDP_OK.

Definition del_listRead (pslink : Z) : M (udp L) Z :=
  sts_wait semListRead set_semListRead;;
  l ← link_at pslink;
  t ← gets u_lists;
  (if negb (clist_empty (stIDListMsgRead (lk_id l)) t)
   then lists_set (list_erase (stIDListMsgRead (lk_id l))) else mret tt);;
  sts_post semListRead set_semListRead;;
  mret EX_UDP_OK.

(** The header of [pa] is completed in place: the packet is returned. *)
Definition SendMsg (pslink : Z) (pa : s_packet_all) (len : Z) : M (udp L) (Z * s_packet_all) :=
  l ← link_at pslink;
  if LEN_PACKET_HEAD <=? len then
    let pa := set_pa_head
      (set_ph_seqCheck ((SeqCheckSend l + 1) mod MAX_PACKET_SEQ)
        (set_ph_state (u8 (linkState l)) (pa_head pa))) pa in
    ret ← sendto (lk_ip l) (lk_port l) pa len;
    mret (ret, pa)
  else exits 1.

(** The slot of sequence number [n] holds an unread packet. *)
Definition readable (l : s_link) (n : Z) : bool :=
  (ph_seq (pa_head (slot (paArrayRecv l) n)) =? n)
  && negb (pa_len (slot (paArrayRecv l) n) =? 0).

(** Reporting the missing sequence numbers; [k] is the position of [usp] in the
    buffer, in words. *)
Definition SeqLack (fuel : nat) (pslink : Z) : M (udp L) Z :=
  l ← link_at pslink;
  tvCur ← gettimeofday;
  if GET_MS_DIFF tvCur (timeoutReportLack l) <? Z.quot (tv_usec (timeoutCheckLack l)) 1000
  then mret EX_UDP_ERROR
  else if CMP_SEQ (SeqReadMax l) (SeqRead l) then
    link_set pslink (set_timeoutReportLack tvCur);;
    let pa := set_pa_head (set_ph_type SEQ_LACK zero_head) zero_packet in
    r ← loop fuel (λ '(SeqReadLast, iLackCount, k, pa),
      l ← link_at pslink;
      x ← (if negb (readable l SeqReadLast) then
             let iLackCount := iLackCount + 1 in
             let pa := set_pa_buf (put_word k SeqReadLast (pa_buf pa)) pa in
             if iLackCount * 2 mod MAX_PACKET_DATA_SIZE =? 0 then
               r ← SendMsg pslink (set_pa_len MAX_PACKET_SIZE pa) MAX_PACKET_SIZE;
               mret (iLackCount, O, r.2)
             else mret (iLackCount, S k, pa)
           else mret (iLackCount, k, pa));
      let SeqReadLast := (SeqReadLast + 1) mod MAX_PACKET_SEQ in
      if negb (SeqReadLast =? SeqReadMax l)
      then mret (inl (SeqReadLast, x.1.1, x.1.2, x.2)) else mret (inr (x.1.1, x.2)))
      (SeqRead l, 0, O, pa);
    let iLackCount := r.1 * 2 mod MAX_PACKET_DATA_SIZE in
    (if negb (iLackCount =? 0) then
       let len := LEN_PACKET_HEAD + iLackCount in
       SendMsg pslink (set_pa_len len r.2) len;; mret tt
     else mret tt);;
    mret EX_UDP_OK
  else mret EX_UDP_OK.

(** The sequence number before [n]. *)
Definition seq_before (n : Z) : Z := if n =? 0 then MAX_PACKET_SEQ - 1 else n - 1.

Definition SeqReport (fuel : nat) (pslink : Z) : M (udp L) Z :=
  l ← link_at pslink;
  if linkState l =? 2 then
    let pa := Packet (Head SEQ_REPORT 0 (seq_before (SeqRead l)) 0 0) (pa_buf zero_packet)
                LEN_PACKET_HEAD in
    SendMsg pslink pa (pa_len pa);;
    SeqLack fuel pslink;;
    mret EX_UDP_OK
  else mret EX_UDP_OK.

(** The check interval doubles or halves with the measured round trip. *)
Definition adapt_interval (usec : Z) (tv : timeval) : timeval :=
  if tv_usec tv <? usec then TV 0 (Z.shiftl (tv_usec tv) 1)
  else if Z.shiftl usec 1 <? tv_usec tv
  then TV 0 (if LISTEN_INTERVAL <? tv_usec tv then Z.shiftr (tv_usec tv) 1 else tv_usec tv)
  else tv.

(** The only time that is not a reading of the own clock comes from the
    datagram: its differences can overflow, which is undefined. *)
Definition SeqReportAck (pslink : Z) (pa : s_packet_all) : M (udp L) Z :=
  l ← link_at pslink;
  if linkState l <? 2 then mret EX_UDP_ERROR
  else if CMP_SEQ_ORDER (SeqCheckSend l) (ph_seq (pa_head pa)) (SeqMaxSend l) then
    link_set pslink (set_SeqCheckSend (ph_seq (pa_head pa)));;
    sem_post semSendList set_semSendList pslink;;
    if LEN_PACKET_HEAD <? pa_len pa then
      timeCur ← gettimeofday;
      if negb (ms_defined timeCur (tv_of_bytes (pa_buf pa))) then fault
      else
        let usec := Z.land (GET_MS_DIFF timeCur (tv_of_bytes (pa_buf pa))) 0x1FFFFF * 1000 in
        link_set pslink (λ l, set_timeoutCheckLack (adapt_interval usec (timeoutCheckLack l)) l);;
        mret EX_UDP_OK
    else mret EX_UDP_OK
  else mret EX_UDP_OK.

(** Resending what the peer reports missing, up to the first number outside the
    window. *)
Fixpoint resend (pslink SeqCheckSend_t : Z) (usps : list Z) : M (udp L) unit :=
  match usps with
  | [] => mret tt
  | usp :: usps =>
      l ← link_at pslink;
      if usp <? MAX_PACKET_SEQ then
        if CMP_SEQ_ORDER SeqCheckSend_t usp (SeqMaxSend l) then
          let pspa := slot (paArraySend l) usp in
          r ← SendMsg pslink pspa (pa_len pspa);
          link_set pslink (λ l, set_paArraySend (put_slot usp r.2 (paArraySend l)) l);;
          resend pslink SeqCheckSend_t usps
        else mret tt
      else mret tt
  end.

Definition SeqLackAck (pslink : Z) (pa : s_packet_all) : M (udp L) Z :=
  l ← link_at pslink;
  let SeqCheckSend_t := (SeqCheckSend l + 1) mod MAX_PACKET_SEQ in
  if linkState l <? 2 then mret EX_UDP_ERROR
  else
    let len := (pa_len pa - LEN_PACKET_HEAD) / 2 in
    link_set pslink (set_PrioritySendLack 1);;
    resend pslink SeqCheckSend_t (take (Z.to_nat len) (words (pa_buf pa)));;
    link_set pslink (set_PrioritySendLack 0);;
    sem_post semSendList set_semSendList pslink;;
    mret EX_UDP_OK.

Definition SeqCheck (pslink : Z) : M (udp L) Z :=
  s ← sts;
  l ← link_at pslink;
  interval ← gets u_interval;
  if (linkState l =? 2) && (GET_MS_DIFF (time_listen s) (lk_timeout l) <? interval) then
    if negb (SeqMaxSend l =? (SeqCheckSend l + 1) mod MAX_PACKET_SEQ) then
      timeCur ← gettimeofday;
      if GET_MS_DIFF timeCur (timeoutSend l) <? Z.quot (tv_usec (timeoutCheckLack l)) 1000
      then mret EX_UDP_ERROR
      else
        link_set pslink (set_timeoutSend timeCur);;
        let len := LEN_PACKET_HEAD + 16 in
        let pa := Packet
          (Head SEQ_CHECK 0 (SeqMaxSend l) ((SeqCheckSend l + 1) mod MAX_PACKET_SEQ) 0)
          (overwrite (tv_bytes timeCur) (pa_buf zero_packet)) len in
        SendMsg pslink pa len;;
        ctlIntervalTime;;
        mret EX_UDP_OK
    else mret EX_UDP_OK
  else mret EX_UDP_OK.

Definition SeqCheckAck (pslink : Z) (pa : s_packet_all) : M (udp L) Z :=
  l ← link_at pslink;
  let seq := ph_seq (pa_head pa) in
  let seqCheck := ph_seqCheck (pa_head pa) in
  if linkState l <? 2 then mret EX_UDP_ERROR
  else if (SeqRead l =? seq) || CMP_SEQ_ORDER seqCheck (SeqRead l) seq then
    link_set pslink (set_SeqReadMax seq);;
    (if negb (seqCheck =? SeqRead l) then
       SendMsg pslink
         (set_pa_head (set_ph_seq (seq_before (SeqRead l)) (set_ph_type SEQ_REPORT (pa_head pa))) pa)
         (pa_len pa);; mret tt
     else mret tt);;
    s ← sts;
    (if negb (ss_msgid s =? -1) then add_listRead pslink;; mret tt else mret tt);;
    sem_post semRecvList set_semRecvList pslink;;
    mret EX_UDP_OK
  else mret EX_UDP_ERROR.

(** Checksums are compiled out (CHECKSNUMMAT_ENABLE is 0). *)
Definition UserDataRecv (pslink : Z) (pa : s_packet_all) : M (udp L) Z :=
  l ← link_at pslink;
  let seq := ph_seq (pa_head pa) in
  if linkState l <? 2 then mret EX_UDP_ERROR
  else if CMP_SEQ seq (SeqRead l) || (seq =? SeqRead l) then
    (if negb (ph_seq (pa_head (slot (paArrayRecv l) seq)) =? seq)
        || (pa_len (slot (paArrayRecv l) seq) =? 0) then
       link_set pslink (λ l, set_paArrayRecv (put_slot seq pa (paArrayRecv l)) l);;
       if seq =? SeqRead l then
         s ← sts;
         (if negb (ss_msgid s =? -1) then add_listRead pslink;; mret tt else mret tt);;
         sem_post semRecvList set_semRecvList pslink
       else mret tt
     else mret tt);;
    mret EX_UDP_OK
  else mret EX_UDP_ERROR.

(** [ASSERT_ID]: the connection is still in the table. *)
Definition id_alive (id : Z) : M (udp L) bool :=
  s ← sts; mret (bool_decide (is_Some (pLinkIDArray s !! Z.land id MAX_LINK_COUNT))).

(** Taking the packet at [SeqRead]: its data, the slot emptied, [SeqRead] moved. *)
Definition consume (l : s_link) : s_link :=
  let pa := slot (paArrayRecv l) (SeqRead l) in
  set_SeqRead ((SeqRead l + 1) mod MAX_PACKET_SEQ)
    (set_paArrayRecv (put_slot (SeqRead l) (set_pa_len 0 pa) (paArrayRecv l)) l).

Definition SendToMsgQueue (fuel : nat) (pslink : Z) : M (udp L) unit :=
  l ← link_at pslink;
  s ← sts;
  let id := lk_id l in
  if 0 <=? ss_msgid s then
    go_on ← loop fuel (λ _,
      l ← link_at pslink;
      if readable l (SeqRead l) then
        let pa := slot (paArrayRecv l) (SeqRead l) in
        let len := pa_len pa - LEN_PACKET_HEAD in
        if MAX_PACKET_DATA_SIZE <? len then mret (inr false)
        else
          ret_value ← msgsnd (Msg MSG_EX_UDP_PACKET
            (Z.lor (lk_id l) (Z.shiftl (lk_socket l) 16)) (take (Z.to_nat len) (pa_buf pa)));
          alive ← id_alive id;
          if negb alive then mret (inr false)
          else if ret_value <? 0 then mret (inr true)
          else link_set pslink consume;; mret (inl tt)
      else mret (inr true)) tt;
    if (go_on : bool) then del_listRead pslink;; SeqReport fuel pslink;; mret tt else mret tt
  else mret tt.

(** ** The interface to one connection *)

(** [GET_LINK_FOR_ID]: the connection of an id, or EX_UDP_ERROR. *)
Definition get_link_for_id (id : Z) : M (udp L) (option Z) :=
  s ← sts;
  let sock := Z.land (Z.shiftr id 16) MAX_SOCKET_NUM in
  if id =? EX_UDP_ERROR then mret None
  else if negb (ss_inArray s && (sock =? ss_socket s)) || negb (ss_linkState s =? 1) then mret None
  else mret (pLinkIDArray s !! Z.land id MAX_LINK_COUNT).

Definition setWaitTime (id Milliseconds : Z) : M (udp L) Z :=
  p ← get_link_for_id id;
  match p with
  | None => mret EX_UDP_ERROR
  | Some pslink => link_set pslink (set_tsWaitTime Milliseconds);; mret EX_UDP_OK
  end.

(** The calls that wait are cut where the thread can be held up: at the lock of
    the direction and at its semaphore.  What one turn of their loops comes to:
    another turn, a wait (with a time limit or without), or the end. *)
Inductive turn (A R : Type) :=
| Again (a : A)
| WaitFor (timed : bool) (a : A)
| Done (r : R).
#[global] Arguments Again {A R}.
#[global] Arguments WaitFor {A R}.
#[global] Arguments Done {A R}.

(** Up to the lock: the connection, if the parameters are good. *)
Definition exRecv_begin (id : Z) (buf_null : bool) : M (udp L) (option Z) :=
  p ← get_link_for_id id;
  match p with
  | None => mret None
  | Some pslink =>
    if buf_null then mret None
    else sem_wait semRecvListMutex set_semRecvListMutex pslink;; mret (Some pslink)
  end.

(** One turn of the loop, up to the wait: it ends with [None] when there is a
    packet to read, with [Some] of the value otherwise. *)
Definition exRecv_turn (fuel : nat) (pslink : Z) : M (udp L) (turn unit (option Z)) :=
  l ← link_at pslink;
  if readable l (SeqRead l) then mret (Done None)
  else
    SeqReport fuel pslink;;
    l ← link_at pslink;
    if tsWaitTime l <? 0 then mret (WaitFor false tt)
    else if tsWaitTime l =? 0 then
      sem_post semRecvListMutex set_semRecvListMutex pslink;; mret (Done (Some 0))
    else mret (WaitFor true tt).

Definition exRecv_wait (id pslink : Z) (timed : bool) : M (udp L) (unit + option Z) :=
  let unlock := sem_post semRecvListMutex set_semRecvListMutex pslink in
  if timed then
    iRet ← sem_timed_wait semRecvList set_semRecvList pslink;
    alive ← id_alive id;
    if negb alive then unlock;; mret (inr (Some EX_UDP_ERROR))
    else if iRet =? -1 then unlock;; mret (inr (Some 0)) else mret (inl tt)
  else
    sem_wait semRecvList set_semRecvList pslink;;
    alive ← id_alive id;
    if negb alive then unlock;; mret (inr (Some EX_UDP_ERROR)) else mret (inl tt).

(** What is after the loop. *)
Definition exRecv_take (pslink : Z) : M (udp L) (Z * list Z) :=
  let unlock := sem_post semRecvListMutex set_semRecvListMutex pslink in
  l ← link_at pslink;
  let pa := slot (paArrayRecv l) (SeqRead l) in
  let len := u16 (pa_len pa - LEN_PACKET_HEAD) in
  if MAX_PACKET_DATA_SIZE <? len then unlock;; exits 0
  else
    link_set pslink consume;;
    unlock;;
    mret (len, take (Z.to_nat len) (pa_buf pa)).

(** Returns the value and the bytes stored in [buf]. *)
Definition exRecv (fuel : nat) (id : Z) (buf_null : bool) : M (udp L) (Z * list Z) :=
  p ← exRecv_begin id buf_null;
  match p with
  | None => mret (EX_UDP_ERROR, [])
  | Some pslink =>
    let id := Z.land id MAX_LINK_COUNT in
    early ← loop fuel (λ _,
      x ← exRecv_turn fuel pslink;
      match x with
      | Again a => mret (inl a)
      | WaitFor timed _ => exRecv_wait id pslink timed
      | Done r => mret (inr r)
      end) tt;
    match early with
    | Some r => mret (r, [])
    | None => exRecv_take pslink
    end
  end.

Definition exSend_begin (id : Z) (buf : option (list Z)) (len : Z) :
    M (udp L) (option (Z * list Z)) :=
  p ← get_link_for_id id;
  match p, buf with
  | None, _ | _, None => mret None
  | Some pslink, Some buf =>
    if (len <=? 0) || (MAX_PACKET_DATA_SIZE <? len) then mret None
    else sem_wait semSendListMutex set_semSendListMutex pslink;; mret (Some (pslink, buf))
  end.

(** One turn with [len_send] bytes of [buf] left, up to the wait. *)
Definition exSend_turn (pslink len : Z) (a : Z * list Z) : M (udp L) (turn (Z * list Z) Z) :=
  let '(len_send, buf) := a in
  let unlock := sem_post semSendListMutex set_semSendListMutex pslink in
  if len_send <=? 0 then unlock;; mret (Done len)
  else
    l ← link_at pslink;
    if (PrioritySendLack l =? 0)
       && negb ((SeqMaxSend l + 1) mod MAX_PACKET_NUMBER =? SeqCheckSend l mod MAX_PACKET_NUMBER)
    then
      let len_t := if MAX_PACKET_DATA_SIZE <=? len_send then MAX_PACKET_DATA_SIZE else len_send in
      let old := slot (paArraySend l) (SeqMaxSend l) in
      let pa := Packet
        (set_ph_seq (SeqMaxSend l) (set_ph_seqCheck ((SeqCheckSend l + 1) mod MAX_PACKET_SEQ)
          (set_ph_type USER_DATA (pa_head old))))
        (overwrite (take (Z.to_nat len_t) buf) (pa_buf old)) (LEN_PACKET_HEAD + len_t) in
      r ← SendMsg pslink pa (pa_len pa);
      link_set pslink (λ l, set_paArraySend (put_slot (SeqMaxSend l) r.2 (paArraySend l)) l);;
      if r.1 =? EX_UDP_ERROR then unlock;; mret (Done 0)
      else
        link_set pslink (λ l, set_SeqMaxSend ((SeqMaxSend l + 1) mod MAX_PACKET_SEQ) l);;
        ctlIntervalTime;;
        mret (Again (len_send - len_t, drop (Z.to_nat len_t) buf))
    else if tsWaitTime l <? 0 then mret (WaitFor false (len_send, buf))
    else if tsWaitTime l =? 0 then unlock;; mret (Done 0)
    else mret (WaitFor true (len_send, buf)).

Definition exSend_wait (id pslink : Z) (timed : bool) (a : Z * list Z) :
    M (udp L) (Z * list Z + Z) :=
  let unlock := sem_post semSendListMutex set_semSendListMutex pslink in
  if timed then
    iRet ← sem_timed_wait semSendList set_semSendList pslink;
    alive ← id_alive id;
    if negb alive then unlock;; mret (inr EX_UDP_ERROR)
    else if iRet =? -1 then unlock;; mret (inr 0) else mret (inl a)
  else
    sem_wait semSendList set_semSendList pslink;;
    alive ← id_alive id;
    if negb alive then unlock;; mret (inr EX_UDP_ERROR) else mret (inl a).

Definition exSend (fuel : nat) (id : Z) (buf : option (list Z)) (len : Z) : M (udp L) Z :=
  p ← exSend_begin id buf len;
  match p with
  | None => mret EX_UDP_ERROR
  | Some (pslink, buf) =>
    let id := Z.land id MAX_LINK_COUNT in
    loop fuel (λ a,
      x ← exSend_turn pslink len a;
      match x with
      | Again a => mret (inl a)
      | WaitFor timed a => exSend_wait id pslink timed a
      | Done r => mret (inr r)
      end) (len, buf)
  end.
End ops.
