(* ===== verification/Socket.v ===== *)
(** * Socket: the connection table, threads and interface of src/udp/ex_udp.c

    Connections are found by port and address in chains ([pLinkPortArray],
    [same_port_next]), by id in [pLinkIDArray], and are on the list of the
    socket or on the list of those to be freed.  A thread is its loop body: one
    iteration of [thread_recv] is [thread_recv_packet], one of [thread_listen] is
    [thread_listen_round], one wake-up of [thread_RecvToMsg] is
    [thread_RecvToMsg_round].  [malloc] of a connection is a parameter, what the
    calls of [recvfrom] give is an argument of [thread_recv]. *)
From stdpp Require Import base tactics list numbers gmap fin_maps.
From S2P Require Import Prelude Lists Clist Udp.
Local Open Scope Z_scope.

(** [malloc(LEN_S_LINK)]: an address from the live connections, 0 for NULL. *)
Class LinkMalloc := link_malloc : gmap Z s_link → Z.

Definition zero_tv : timeval := TV 0 0.
(** [memset(pslink, 0, LEN_S_LINK)]. *)
Definition zero_link : s_link :=
  Link 0 zero_tv 0 0 0 0 0 0 0 zero_tv zero_tv zero_tv zero_tv 0 0 0 0 0 0 0 0 0
    (replicate (Z.to_nat MAX_PACKET_NUMBER) zero_packet)
    (replicate (Z.to_nat MAX_PACKET_NUMBER) zero_packet) 0.

(** [pLinkPortArray] has 0xFFFF entries: index 0xFFFF is outside. *)
Definition PORT_ARRAY_SIZE : Z := 0xFFFF.

(** The result of a [recvfrom]: SOCKET_ERROR, or the address and the packet. *)
Inductive received :=
| RecvError
| Received (ip port : Z) (pa : s_packet_all).

Section table.
Context {L : Type} `{Clist L} `{LinkMalloc}.

Definition port_at (port : Z) : M (udp L) Z :=
  s ← sts;
  if (0 <=? port) && (port <? PORT_ARRAY_SIZE)
  then mret (default NULL (pLinkPortArray s !! port)) else fault.
Definition port_set (port p : Z) : M (udp L) unit :=
  if (0 <=? port) && (port <? PORT_ARRAY_SIZE)
  then sts_set (λ s, set_pLinkPortArray
    (if p =? NULL then delete port (pLinkPortArray s) else <[port := p]> (pLinkPortArray s)) s)
  else fault.
Definition id_set (id : Z) (p : option Z) : M (udp L) unit :=
  sts_set (λ s, set_pLinkIDArray
    (match p with Some p => <[id := p]> (pLinkIDArray s) | None => delete id (pLinkIDArray s) end) s).

(** [free(pslink)] *)
Definition free_link (p : Z) : M (udp L) unit :=
  link_at p;; modify (λ t, set_u_links (delete p (u_links t)) t).

(** The walk along a chain of connections of one port, for the predecessor of
    the first one with this address. *)
Definition unlink_port (fuel : nat) (pLinkPort ip sock : Z) : M (udp L) unit :=
  loop fuel (λ pLinkPort,
    l ← link_at pLinkPort;
    if same_port_next l =? NULL then mret (inr tt)
    else
      n ← link_at (same_port_next l);
      if (lk_ip n =? ip) && (lk_socket n =? sock) then
        link_set pLinkPort (set_same_port_next (same_port_next n));; mret (inr tt)
      else mret (inl (same_port_next l))) pLinkPort.

Definition del_list (fuel : nat) (pslink : Z) : M (udp L) Z :=
  s ← sts;
  let sock := ss_socket s in
  l ← link_at pslink;
  let id := u16 (lk_id l) in
  if (MAX_LINK_COUNT <? id)
     || negb (bool_decide (is_Some (pLinkIDArray s !! Z.land id MAX_LINK_COUNT)))
  then mret EX_UDP_ERROR
  else
    let pa := set_pa_head (set_ph_type LINK_FIN zero_head) zero_packet in
    SendMsg pslink pa LEN_PACKET_HEAD;;
    (if negb (ss_msgid s =? -1) then del_listRead pslink;; mret tt else mret tt);;
    id_set (Z.land id MAX_LINK_COUNT) None;;
    lists ← gets u_lists;
    sts_set (set_nextListenLink (clist_next pslink lists));;
    lists_set (list_erase pslink);;
    pLinkPort ← port_at (lk_port l);
    (if pLinkPort =? NULL then mret tt
     else
       lp ← link_at pLinkPort;
       if (lk_ip lp =? lk_ip l) && (lk_socket lp =? sock)
       then port_set (lk_port l) (same_port_next lp)
       else unlink_port fuel pLinkPort (lk_ip l) sock);;
    sem_post semSendList set_semSendList pslink;;
    sem_post semRecvList set_semRecvList pslink;;
    sem_post semSendListMutex set_semSendListMutex pslink;;
    sem_post semRecvListMutex set_semRecvListMutex pslink;;
    now ← gettimeofday;
    link_set pslink (set_timeoutFree now);;
    link_set pslink (set_linkState (-1));;
    lists_set (list_push_back listFreeHead pslink);;
    lists_set (list_push_back listIDAllocationHead (stIDListAllocation id));;
    sts_post semListen set_semListen;;
    mret EX_UDP_OK.

(** The first slot of an array gets sequence number 1. *)
Definition mark_first (a : list s_packet_all) : list s_packet_all :=
  let pa := slot a 0 in put_slot 0 (set_pa_head (set_ph_seq 1 (pa_head pa)) pa) a.

(** Semaphores are created with count 1. *)
Definition add_list (pslink : Z) : M (udp L) Z :=
  lists ← gets u_lists;
  if clist_empty listIDAllocationHead lists then
    free_link pslink;; mret EX_UDP_ERROR
  else
    let idList := list_begin listIDAllocationHead lists in
    let id := idList - stIDListAllocation 0 in
    lists_set (list_erase idList);;
    s ← sts;
    link_set pslink (λ l,
      set_lk_timeout (TV 0 (tv_usec (lk_timeout l)))
      (set_tsWaitTime (ss_tsWaitTime s)
      (set_timeout_times 1
      (set_paArraySend (mark_first (paArraySend l))
      (set_paArrayRecv (mark_first (paArrayRecv l))
      (set_timeoutCheckLack (TV 0 CHECK_INTERVAL_INIT)
      (set_SeqCheckSend 0 (set_SeqMaxSend 1 (set_SeqRead 1 l)))))))));;
    now ← gettimeofday;
    link_set pslink (λ l,
      set_lk_id id (set_semSendListMutex 1 (set_semRecvListMutex 1 (set_semSendList 1
        (set_semRecvList 1 (set_linkState 0 (set_timeoutSend now l)))))));;
    id_set id (Some pslink);;
    lists_set (list_push_back sts_list pslink);;
    sts_post semAccept set_semAccept;;
    sts_post semListen set_semListen;;
    mret EX_UDP_OK.

(** [ASSERT_CREATE_NEW_LINK], [malloc] and [CREATE_LINK]; [store] is where the
    code writes the new pointer before it checks it. *)
Definition create_link (ip port type : Z) (store : Z → M (udp L) unit) : M (udp L) (option Z) :=
  if negb (type =? LINK_SYN) && negb (type =? LINK_SYN_ACK) then mret None
  else
    sts_wait semLink set_semLink;;
    s ← sts;
    if negb (ss_linkState s =? 1) then sts_post semLink set_semLink;; mret None
    else
      pslink ← gets (λ t, link_malloc (u_links t));
      store pslink;;
      if pslink =? NULL then sts_post semLink set_semLink;; mret None
      else
        modify (λ t, set_u_links (<[pslink :=
          set_lk_socket (ss_socket s) (set_lk_port port (set_lk_ip ip zero_link))]> (u_links t)) t);;
        r ← add_list pslink;
        sts_post semLink set_semLink;;
        if r =? EX_UDP_ERROR then mret None else mret (Some pslink).

Definition get_link (fuel : nat) (ip port type : Z) : M (udp L) (option Z) :=
  first ← port_at port;
  if first =? NULL then create_link ip port type (port_set port)
  else
    loop fuel (λ pslink,
      l ← link_at pslink;
      if lk_ip l =? ip then mret (inr (Some pslink))
      else if same_port_next l =? NULL then
        r ← create_link ip port type (λ p, link_set pslink (set_same_port_next p));
        mret (inr r)
      else mret (inl (same_port_next l))) first.

(** The first connection of the socket's list that [pick] chooses. *)
Definition find_link (fuel : nat) (pick : s_link → bool) : M (udp L) (option Z) :=
  lists ← gets u_lists;
  loop fuel (λ pslink,
    if list_end sts_list =? pslink then mret (inr None)
    else
      l ← link_at pslink;
      if pick l then mret (inr (Some pslink))
      else lists ← gets u_lists; mret (inl (clist_next pslink lists)))
    (list_begin sts_list lists).

Definition GetLinkAccept (fuel : nat) : M (udp L) (option Z) :=
  sts_wait semLink set_semLink;;
  r ← find_link fuel (λ l, lk_accept l =? 0);
  match r with
  | Some pslink =>
      s ← sts;
      link_set pslink (λ l, set_tsWaitTime (ss_tsWaitTime s) (set_lk_accept 1 l));;
      sts_post semLink set_semLink;;
      mret (Some pslink)
  | None => sts_post semLink set_semLink;; mret None
  end.

(** ** thread_recv *)

(** A packet of the peer makes the local end forget what it had received. *)
Definition resync (seqCheck : Z) (l : s_link) : s_link :=
  let a := if ph_seq (pa_head (slot (paArrayRecv l) 1)) =? 1
           then replicate (Z.to_nat MAX_PACKET_NUMBER) zero_packet else paArrayRecv l in
  let pa := slot a 0 in
  set_SeqRead seqCheck
    (set_paArrayRecv (put_slot 0 (set_pa_head (set_ph_seq 1 (pa_head pa)) pa) a) l).

Definition recv_LINK_SYN (pslink : Z) (pa : s_packet_all) : M (udp L) unit :=
  let h := pa_head pa in
  (if ph_state h <? 2 then link_set pslink (resync (ph_seqCheck h)) else mret tt);;
  l ← link_at pslink;
  (if linkState l <? 2 then
     link_set pslink (λ l, set_SeqRead (ph_seqCheck h)
       (set_linkState (if ph_state h =? 2 then 0 else 1) l))
   else mret tt);;
  l ← link_at pslink;
  SendMsg pslink (set_pa_head (set_ph_seqCheck ((SeqCheckSend l + 1) mod MAX_PACKET_SEQ)
    (set_ph_type LINK_SYN_ACK h)) pa) LEN_PACKET_HEAD;;
  mret tt.

Definition recv_LINK_SYN_ACK (pslink : Z) (pa : s_packet_all) : M (udp L) unit :=
  let h := pa_head pa in
  let seqCheck := ph_seqCheck h in
  (* the answer overwrites the received check number, which is read again below *)
  seqCheck ← (if ph_state h <? 2 then
     link_set pslink (resync seqCheck);;
     l ← link_at pslink;
     r ← SendMsg pslink (set_pa_head (set_ph_seqCheck ((SeqCheckSend l + 1) mod MAX_PACKET_SEQ)
       (set_ph_type LINK_ACK h)) pa) LEN_PACKET_HEAD;
     mret (ph_seqCheck (pa_head r.2))
   else mret seqCheck);
  l ← link_at pslink;
  (if linkState l <? 2 then
     link_set pslink (λ l, set_SeqRead seqCheck (set_linkState 2 l))
   else mret tt);;
  s ← sts;
  l ← link_at pslink;
  interval ← gets u_interval;
  (if interval <=? GET_MS_DIFF (time_listen s) (lk_timeout l)
   then sts_post semListen set_semListen else mret tt);;
  sem_post semSendList set_semSendList pslink.

Definition notify_unconnected (pslink : Z) : M (udp L) unit :=
  s ← sts;
  if 0 <=? ss_msgid s then
    l ← link_at pslink;
    msgsnd (Msg MSGTYPE_UNCONNECTED (Z.lor (lk_id l) (Z.shiftl (lk_socket l) 16)) []);; mret tt
  else mret tt.

Definition recv_LINK_FIN (fuel : nat) (pslink : Z) : M (udp L) unit :=
  notify_unconnected pslink;;
  sts_wait semLink set_semLink;;
  del_list fuel pslink;;
  sts_post semLink set_semLink.

(** The dispatch of one valid packet to its connection. *)
Definition recv_dispatch (fuel : nat) (pslink : Z) (pa : s_packet_all) : M (udp L) unit :=
  let h := pa_head pa in
  l ← link_at pslink;
  (if (linkState l =? 1) && (ph_state h =? 2)
   then link_set pslink (λ l, set_linkState 2 (resync (ph_seqCheck h) l)) else mret tt);;
  link_set pslink (λ l, set_lk_timeout (TV 0 (tv_usec (lk_timeout l))) l);;
  let type := ph_type h in
  if type =? LINK_SYN then recv_LINK_SYN pslink pa
  else if type =? LINK_SYN_ACK then recv_LINK_SYN_ACK pslink pa
  else if type =? LINK_ACK then
    l ← link_at pslink;
    if linkState l <? 2 then link_set pslink (set_linkState 2) else mret tt
  else if type =? USER_DATA then UserDataRecv pslink pa;; mret tt
  else if type =? SEQ_CHECK then SeqCheckAck pslink pa;; mret tt
  else if type =? SEQ_REPORT then SeqReportAck pslink pa;; mret tt
  else if type =? SEQ_LACK then SeqLackAck pslink pa;; mret tt
  else if type =? LINK_FIN then recv_LINK_FIN fuel pslink
  else mret tt.

(** One datagram from [ip] and [port]: [true] when the thread ends. *)
Definition thread_recv_packet (fuel : nat) (ip port : Z) (pa : s_packet_all) : M (udp L) bool :=
  s ← sts;
  if negb (ss_linkState s =? 1) then
    sts_set (λ s, set_ss_threadState (ss_threadState s - 1) s);; mret true
  else
    let h := pa_head pa in
    if (pa_len pa <? LEN_PACKET_HEAD) || (MAX_PACKET_SIZE <? pa_len pa)
       || (ph_type h <? LINK_SYN) || (LINK_FIN <? ph_type h) || (MAX_PACKET_SEQ <=? ph_seq h)
    then mret false
    else if (ph_type h =? LINK_SYN) && negb (ph_checksum h =? EX_UDP_VER) then mret false
    else
      r ← get_link fuel ip port (ph_type h);
      match r with
      | None => mret false
      | Some pslink => recv_dispatch fuel pslink pa;; mret false
      end.

(** [recvfrom] failed: [true] when the thread ends. *)
Definition thread_recv_error : M (udp L) bool :=
  s ← sts;
  if negb (ss_linkState s =? 1) then
    sts_set (λ s, set_ss_threadState (ss_threadState s - 1) s);; mret true
  else mret false.

(** What the calls of [recvfrom] give, one after the other: [true] when the
    thread ends, [false] while it waits for the next one. *)
Fixpoint recv_loop (fuel : nat) (rs : list received) : M (udp L) bool :=
  match rs with
  | [] => mret false
  | r :: rs =>
      ended ← match r with
              | RecvError => thread_recv_error
              | Received ip port pa => thread_recv_packet fuel ip port pa
              end;
      if (ended : bool) then mret true else recv_loop fuel rs
  end.
Definition thread_recv (fuel : nat) (rs : list received) : M (udp L) bool :=
  sts_set (λ s, set_ss_threadState (ss_threadState s + 1) s);;
  recv_loop fuel rs.

(** ** thread_listen *)

(** Freeing the deleted connections whose delay has passed. *)
Definition free_expired (fuel : nat) : M (udp L) unit :=
  loop fuel (λ _,
    lists ← gets u_lists;
    let pslink := list_begin listFreeHead lists in
    if pslink =? list_end listFreeHead then mret (inr tt)
    else
      s ← sts;
      l ← link_at pslink;
      if FREE_MEM_INTERVAL <? GET_MS_DIFF (time_listen s) (timeoutFree l) then
        lists_set (list_erase pslink);; free_link pslink;; mret (inl tt)
      else mret (inr tt)) tt.

(** The timer of one connection: [Some] of the next connection when this one was
    deleted. *)
Definition listen_link (fuel : nat) (pslink : Z) : M (udp L) (option Z) :=
  s ← sts;
  l ← link_at pslink;
  interval ← gets u_interval;
  times ← gets u_times;
  if tv_sec (lk_timeout l) =? 0 then
    now ← gettimeofday;
    link_set pslink (λ l, set_timeout_times 1 (set_lk_timeout now l));; mret None
  else if interval * timeout_times l <=? GET_MS_DIFF (time_listen s) (lk_timeout l) then
    if times <? timeout_times l then
      notify_unconnected pslink;;
      lists ← gets u_lists;
      let pslink_t := clist_next pslink lists in
      sts_wait semLink set_semLink;;
      del_list fuel pslink;;
      sts_post semLink set_semLink;;
      mret (Some pslink_t)
    else
      (if linkState l =? 2 then
         SendMsg pslink (Packet (Head LINK_SYN 0 (SeqMaxSend l)
           ((SeqCheckSend l + 1) mod MAX_PACKET_SEQ) EX_UDP_VER) (pa_buf zero_packet) 0)
           LEN_PACKET_HEAD;; mret tt
       else mret tt);;
      link_set pslink (λ l, set_timeout_times (u8 (timeout_times l + 1)) l);; mret None
  else mret None.

Definition listen_links (fuel : nat) : M (udp L) unit :=
  lists ← gets u_lists;
  loop fuel (λ pslink,
    if list_end sts_list =? pslink then mret (inr tt)
    else
      gone ← (if pslink =? listFreeHead then mret true
              else l ← link_at pslink; mret (linkState l =? -1));
      if (gone : bool) then s ← sts; mret (inl (nextListenLink s))
      else
        r ← listen_link fuel pslink;
        match r with
        | Some next => mret (inl next)
        | None =>
            SeqCheck pslink;;
            lists ← gets u_lists;
            mret (inl (clist_next pslink lists))
        end) (list_begin sts_list lists).

(** How long the thread sleeps, in milliseconds. *)
Definition listen_wait (freeing : bool) : M (udp L) Z :=
  s ← sts;
  interval ← gets u_interval;
  lists ← gets u_lists;
  mret (if freeing then LISTEN_INTERVAL / 1000
        else if GET_MS_DIFF (time_listen s) (time_send s) <? interval then LISTEN_INTERVAL / 1000
        else if clist_empty sts_list lists then HOUR_TIME else interval).

(** Freeing what is left when the socket was closed; the socket itself goes too. *)
Definition free_all (fuel : nat) : M (udp L) unit :=
  loop fuel (λ _,
    lists ← gets u_lists;
    let pslink := list_begin listFreeHead lists in
    if pslink =? list_end listFreeHead then mret (inr tt)
    else lists_set (list_erase pslink);; free_link pslink;; mret (inl tt)) tt.

(** One round: the time, the deferred frees, the sleep (whose semaphore may be
    posted or not), then every connection, or the end of the thread.  A closed
    socket waits until the other threads are gone. *)
Definition thread_listen_round (fuel : nat) : M (udp L) (Z * bool) :=
  now ← gettimeofday;
  sts_set (set_time_listen now);;
  lists ← gets u_lists;
  let freeing := negb (clist_empty listFreeHead lists) in
  (if freeing then free_expired fuel else mret tt);;
  timeVal ← listen_wait freeing;
  gettimeofday;;
  s ← sts;
  (if semListen s <=? 0 then mret tt else sts_set (λ s, set_semListen (semListen s - 1) s));;
  s ← sts;
  if negb (ss_linkState s =? 1) then
    if negb (ss_threadState s =? 0) then blocked else free_all fuel;; mret (timeVal, true)
  else listen_links fuel;; mret (timeVal, false).

(** ** thread_RecvToMsg *)

Definition thread_RecvToMsg_round (fuel : nat) : M (udp L) bool :=
  sts_wait semRecvToMsg set_semRecvToMsg;;
  s ← sts;
  if negb (ss_linkState s =? 1) then
    sts_set (λ s, set_ss_threadState (ss_threadState s - 1) s);; mret true
  else
    loop fuel (λ _,
      lists ← gets u_lists;
      let psIDList := list_begin listIDMsgReadHead lists in
      if list_end listIDMsgReadHead =? psIDList then mret (inr false)
      else
        let id := psIDList - stIDListMsgRead 0 in
        s ← sts;
        match pLinkIDArray s !! Z.land id MAX_LINK_COUNT with
        | None => mret (inl tt)
        | Some pslink => SendToMsgQueue fuel pslink;; mret (inl tt)
        end) tt.

(** ** Interface functions *)

Definition setListenTime (Milliseconds times : Z) : M (udp L) Z :=
  if Milliseconds <? LISTEN_INTERVAL / 1000 then mret EX_UDP_ERROR
  else if times <? 1 then mret EX_UDP_ERROR
  else
    modify (set_u_interval Milliseconds);;
    modify (set_u_times times);;
    mret EX_UDP_OK.

(** The state that [exSocket] gives a new socket, before the threads start. *)
Definition exSocket_state (sock tsWaitTime : Z) (lists : L) : st_sock * L :=
  let lists := list_init listFreeHead (list_init sts_list lists) in
  let lists := list_init listIDAllocationHead lists in
  let lists := foldl (λ lists i,
      list_push_back listIDAllocationHead (stIDListAllocation (Z.of_nat i)) lists)
    lists (seq 0 (Z.to_nat (MAX_LINK_COUNT + 1))) in
  (Sock true 1 0 sock (-1) tsWaitTime 0 zero_tv zero_tv sts_list 0 0 0 0 1 ∅ ∅, lists).

(** [ASSERT_SOCK] *)
Definition assert_sock (sock : Z) : M (udp L) bool :=
  s ← sts;
  mret ((0 <=? sock) && (sock <? MAX_SOCKET_NUM) && ss_inArray s && (sock =? ss_socket s)
        && (ss_linkState s =? 1)).

Definition setMsgQueue (sock msgid : Z) : M (udp L) Z :=
  ok ← assert_sock sock;
  if negb ok then mret EX_UDP_ERROR
  else if msgid <? 0 then mret EX_UDP_ERROR
  else
    sts_set (set_ss_msgid msgid);;
    lists_set (list_init listIDMsgReadHead);;
    lists_set (λ lists, foldl (λ lists i, list_init (stIDListMsgRead (Z.of_nat i)) lists)
      lists (seq 0 (Z.to_nat (MAX_LINK_COUNT + 1))));;
    sts_set (set_semRecvToMsg 0);;
    sts_set (set_semListRead 1);;
    mret EX_UDP_OK.

Definition ext_id (pslink sock : Z) : M (udp L) Z :=
  l ← link_at pslink; mret (Z.lor (lk_id l) (Z.shiftl sock 16)).

Definition exAccept (fuel : nat) (sock : Z) : M (udp L) Z :=
  ok ← assert_sock sock;
  if negb ok then mret EX_UDP_ERROR
  else
    loop fuel (λ _,
      r ← GetLinkAccept fuel;
      match r with
      | Some pslink => id ← ext_id pslink sock; mret (inr id)
      | None =>
          sts_wait semAccept set_semAccept;;
          ok ← assert_sock sock;
          if negb ok then mret (inr EX_UDP_ERROR)
          else
            r ← loop fuel (λ _,
              s ← sts;
              if ss_connectPriority s =? 1 then
                sts_post semAccept set_semAccept;;
                sts_wait semAccept set_semAccept;;
                ok ← assert_sock sock;
                if negb ok then mret (inr EX_UDP_ERROR) else mret (inl tt)
              else mret (inr 0)) tt;
            if r =? EX_UDP_ERROR then mret (inr r) else mret (inl tt)
      end) tt.

(** [addr] is what [inet_addr] makes of the address string. *)
Definition exConnect (fuel : nat) (sock : Z) (addr : option Z) (DstPort : Z) : M (udp L) Z :=
  ok ← assert_sock sock;
  if negb ok then mret EX_UDP_ERROR
  else
    match addr with
    | None => mret EX_UDP_ERROR
    | Some ip =>
      times ← gets u_times;
      sts_set (set_ss_connectPriority 1);;
      r ← loop fuel (λ times,
        if times <=? 0 then mret (inr None)
        else
          let times := times - 1 in
          sendto ip DstPort (Packet (Head LINK_SYN 0 1 1 EX_UDP_VER) (pa_buf zero_packet)
            LEN_PACKET_HEAD) LEN_PACKET_HEAD;;
          gettimeofday;;
          s ← sts;
          iRet ← (if semAccept s <=? 0 then mret (-1)
                  else sts_set (λ s, set_semAccept (semAccept s - 1) s);; mret 0);
          ok ← assert_sock sock;
          if negb ok then mret (inr (Some EX_UDP_ERROR))
          else if iRet =? 0 then
            sts_wait semLink set_semLink;;
            r ← find_link fuel (λ l, (lk_ip l =? ip) && (lk_port l =? DstPort));
            match r with
            | Some pslink =>
                link_set pslink (set_lk_accept 1);;
                sts_post semLink set_semLink;;
                sts_set (set_ss_connectPriority 0);;
                sts_post semAccept set_semAccept;;
                id ← ext_id pslink sock;
                mret (inr (Some id))
            | None => sts_post semLink set_semLink;; mret (inl times)
            end
          else mret (inl times)) times;
      match r with
      | Some id => mret id
      | None =>
          sts_set (set_ss_connectPriority 0);;
          sts_post semAccept set_semAccept;;
          mret EX_UDP_ERROR
      end
    end.

(** [g_semLink] *)
Definition process_post : M (udp L) unit := modify (λ t, set_u_semLink (u_semLink t + 1) t).
Definition process_wait : M (udp L) unit :=
  n ← gets u_semLink; if n <=? 0 then blocked else modify (set_u_semLink (n - 1)).

(** The destroyed semaphores keep their counts here. *)
Definition exClose (fuel : nat) (sock : Z) : M (udp L) Z :=
  process_wait;;
  s ← sts;
  if (MAX_SOCKET_NUM <? sock) || (sock <? 0) || negb (ss_inArray s && (sock =? ss_socket s))
     || (ss_linkState s =? -1)
  then process_post;; mret EX_UDP_ERROR
  else
    sts_wait semLink set_semLink;;
    sts_set (set_ss_linkState (-1));;
    sts_set (set_ss_inArray false);;
    loop fuel (λ _,
      lists ← gets u_lists;
      if clist_empty sts_list lists then mret (inr tt)
      else del_list fuel (list_begin sts_list lists);; mret (inl tt)) tt;;
    s ← sts;
    (if negb (ss_msgid s =? -1) then
       sts_post semRecvToMsg set_semRecvToMsg;; sts_post semListRead set_semListRead
     else mret tt);;
    sts_post semAccept set_semAccept;;
    sts_post semListen set_semListen;;
    sts_post semLink set_semLink;;
    process_post;;
    mret EX_UDP_OK.
End table.
