(* ===== verification/Delivery.v ===== *)
(** * Delivery: the connection protocol of src/udp/ex_udp.c keeps its promise

    The sequence number macros decide cyclic windows; the handlers of Udp.v have
    effects on one connection record and on the datagrams sent ([ewp], and [pewp]
    for calls that may block); and two connected endpoints over a network that
    loses, repeats and reorders datagrams deliver the submitted packets in order,
    each once, while the calls of [exSend] and [exRecv] wait, the timers run and
    the wait times change.  The set-up of the connection is not part of the
    network: the last example shows what one of its datagrams does when it
    arrives late. *)
From stdpp Require Import base tactics list numbers gmap fin_maps relations.
From S2P Require Import Prelude Lists Clist Udp Socket.
Local Open Scope Z_scope.

(** ** Cyclic windows *)

(** The distance from [a] forward to [b] on the circle of sequence numbers. *)
Definition cyc (a b : Z) : Z := (b - a) mod MAX_PACKET_SEQ.

Lemma max_packet_seq : MAX_PACKET_SEQ = 2044.
Proof. reflexivity. Qed.

Lemma CMP_SEQ_cyc h t :
  0 ≤ h < MAX_PACKET_SEQ → 0 ≤ t < MAX_PACKET_SEQ →
  CMP_SEQ h t = (0 <? cyc t h) && (cyc t h <? MAX_PACKET_NUMBER).
Proof.
  unfold CMP_SEQ, cyc. rewrite max_packet_seq. unfold MAX_PACKET_NUMBER. intros Hh Ht.
  apply eq_bool_prop_intro. rewrite !orb_True, !andb_True, !Is_true_true, !Z.ltb_lt. dlia.
Qed.

Lemma CMP_SEQ_ORDER_cyc h m t :
  0 ≤ h < MAX_PACKET_SEQ → 0 ≤ m < MAX_PACKET_SEQ → 0 ≤ t < MAX_PACKET_SEQ →
  CMP_SEQ_ORDER h m t = (cyc h m <? cyc h t) && (cyc h t <? MAX_PACKET_NUMBER).
Proof.
  unfold CMP_SEQ_ORDER, cyc. rewrite max_packet_seq. unfold MAX_PACKET_NUMBER. intros Hh Hm Ht.
  apply eq_bool_prop_intro.
  rewrite !orb_True, !andb_True, !Is_true_true, !Z.ltb_lt, !Z.leb_le. dlia.
Qed.

(** Absolute numbers [x ≤ y] whose residues are compared. *)
Lemma cyc_mod x y : cyc (x mod MAX_PACKET_SEQ) (y mod MAX_PACKET_SEQ) = (y - x) mod MAX_PACKET_SEQ.
Proof. unfold cyc. by rewrite <- Zminus_mod. Qed.

Lemma seq_range x : 0 ≤ x mod MAX_PACKET_SEQ < MAX_PACKET_SEQ.
Proof. apply Z.mod_pos_bound. done. Qed.

(** Slots of the arrays: a number and its residue share a slot. *)
Lemma slot_index_mod n : slot_index (n mod MAX_PACKET_SEQ) = slot_index n.
Proof.
  unfold slot_index. f_equal. rewrite max_packet_seq. unfold MAX_PACKET_NUMBER. dlia.
Qed.
Lemma seq_mod_number x : (x mod MAX_PACKET_SEQ) mod MAX_PACKET_NUMBER = x mod MAX_PACKET_NUMBER.
Proof. rewrite max_packet_seq. unfold MAX_PACKET_NUMBER. dlia. Qed.
Lemma slot_index_lt n : (slot_index n < Z.to_nat MAX_PACKET_NUMBER)%nat.
Proof.
  unfold slot_index. pose proof (Z.mod_pos_bound n MAX_PACKET_NUMBER ltac:(done)). lia.
Qed.
Lemma slot_index_inj n n' : Z.abs (n - n') < MAX_PACKET_NUMBER → slot_index n = slot_index n' → n = n'.
Proof. unfold slot_index, MAX_PACKET_NUMBER. intros Hn E. dlia. Qed.

Lemma slot_put_eq a n pa :
  length a = Z.to_nat MAX_PACKET_NUMBER → slot (put_slot n pa a) n = pa.
Proof.
  intros Hl. unfold slot, put_slot. rewrite list_lookup_insert_eq; [done|].
  rewrite Hl. apply slot_index_lt.
Qed.
Lemma slot_put_same a n n' pa :
  length a = Z.to_nat MAX_PACKET_NUMBER → slot_index n = slot_index n' →
  slot (put_slot n pa a) n' = pa.
Proof.
  intros Hl E. unfold slot, put_slot. rewrite E, list_lookup_insert_eq; [done|].
  rewrite Hl. apply slot_index_lt.
Qed.
Lemma slot_put_ne a n n' pa :
  slot_index n ≠ slot_index n' → slot (put_slot n pa a) n' = slot a n'.
Proof. intros Hn. unfold slot, put_slot. by rewrite list_lookup_insert_ne. Qed.
Lemma length_put_slot n pa a : length (put_slot n pa a) = length a.
Proof. unfold put_slot. by rewrite length_insert. Qed.
Lemma slot_mod a n : slot a (n mod MAX_PACKET_SEQ) = slot a n.
Proof. unfold slot. by rewrite slot_index_mod. Qed.

(** ** Times *)

(** What a reading of the clock is; also a reading whose seconds were cleared. *)
Definition tv_range (tv : timeval) : Prop := 0 ≤ tv_sec tv < 2 ^ 62 ∧ 0 ≤ tv_usec tv < 1000000.

Lemma reading_range tv : tv_range (reading tv).
Proof. split; by apply Z.mod_pos_bound. Qed.

(** The differences of two readings do not overflow. *)
Lemma ms_defined_range a b : tv_range a → tv_range b → ms_defined a b = true.
Proof.
  intros [Ha1 Ha2] [Hb1 Hb2]. unfold ms_defined, in_s64. rewrite !andb_true_iff, !Z.leb_le, !Z.ltb_lt. lia.
Qed.

(** A [long] comes back from its bytes. *)
Lemma long_bytes_value x k n :
  foldr (λ b n, b + 256 * n) 0 ((λ i, u8 (Z.shiftr x (8 * Z.of_nat i))) <$> seq k n) =
  Z.shiftr x (8 * Z.of_nat k) mod 256 ^ Z.of_nat n.
Proof.
  revert k. induction n as [|n IH]; intros k; [by rewrite Z.mod_1_r|].
  rewrite Nat2Z.inj_succ, Z.pow_succ_r by lia. cbn [seq fmap list_fmap foldr]. rewrite IH.
  rewrite Z.rem_mul_r by lia. unfold u8. do 3 f_equal. change 256 with (2 ^ 8).
  rewrite <- Z.shiftr_div_pow2, Z.shiftr_shiftr by lia. f_equal. lia.
Qed.
Lemma long_roundtrip x rest : - 2 ^ 63 ≤ x < 2 ^ 63 → long_of_bytes (long_bytes x ++ rest) = x.
Proof.
  intros Hx. unfold long_of_bytes. rewrite (take_app_length' (long_bytes x)) by done.
  unfold long_bytes. rewrite long_bytes_value. change (Z.shiftr x (8 * Z.of_nat 0)) with (Z.shiftr x 0).
  rewrite Z.shiftr_0_r. unfold s64, swrap. rewrite (Z.add_mod (x mod _)), Z.mod_mod, <- Z.add_mod by done.
  apply (swrap_small 64 x); [done|exact Hx].
Qed.
Lemma tv_roundtrip tv rest : tv_range tv → tv_of_bytes (tv_bytes tv ++ rest) = tv.
Proof.
  intros [H1 H2]. unfold tv_of_bytes, tv_bytes. rewrite <- app_assoc.
  rewrite (drop_app_length' (long_bytes (tv_sec tv))) by done. rewrite !long_roundtrip by lia. by destruct tv.
Qed.

(** ** Effects on one connection

    [ewp m Q l]: run in any state whose connection [p] is [l] and whose socket
    is open, [m] returns; the connection becomes [l'], the datagrams [ds] are
    sent, nothing else that matters to a connection changes, and [Q] holds. *)

(** Where a connection is: its address, the socket's number and the id that the
    interface functions take. *)
Record endpoint := Endpoint { ep_link : Z; ep_sock : Z; ep_id : Z }.

(** Two states of a socket with the same tables and lock. *)
Definition same_tables (s s' : st_sock) : Prop :=
  pLinkPortArray s' = pLinkPortArray s ∧ pLinkIDArray s' = pLinkIDArray s ∧ semLink s' = semLink s.
#[global] Instance same_tables_preorder : PreOrder same_tables.
Proof. split; [done|]. intros s1 s2 s3 (?&?&?) (?&?&?). split_and!; congruence. Qed.

Section effects.
Context {L : Type} `{Clist L} (e : endpoint).
Implicit Types (t : udp L) (l : s_link) (ds : list datagram).

(** The socket serves the endpoint, and not through a message queue. *)
Record open_sock (s : st_sock) : Prop := {
  os_array : ss_inArray s = true;
  os_state : ss_linkState s = 1;
  os_socket : ss_socket s = ep_sock e;
  os_id : pLinkIDArray s !! Z.land (ep_id e) MAX_LINK_COUNT = Some (ep_link e);
  os_msgid : ss_msgid s = -1;
}.

Record eff (t t' : udp L) (l' : s_link) (ds : list datagram) : Prop := {
  eff_links : u_links t' = <[ep_link e := l']> (u_links t);
  eff_out : u_out t' = u_out t ++ ds;
  eff_sock : open_sock (u_sock t');
  eff_lists : u_lists t' = u_lists t;
  eff_tables : same_tables (u_sock t) (u_sock t');
}.

Definition ewp {A} (m : M (udp L) A) (Q : A → s_link → list datagram → Prop) (l : s_link) : Prop :=
  ∀ t, open_sock (u_sock t) → u_links t !! ep_link e = Some l →
    wp m (λ a t', ∃ l' ds, eff t t' l' ds ∧ Q a l' ds) t.

Lemma ewp_same {A} (m : M (udp L) A) (Q : A → s_link → list datagram → Prop) l :
  (∀ t, open_sock (u_sock t) → u_links t !! ep_link e = Some l →
    wp m (λ a t', u_links t' = u_links t ∧ u_out t' = u_out t ∧ open_sock (u_sock t') ∧
                  u_lists t' = u_lists t ∧ same_tables (u_sock t) (u_sock t') ∧ Q a l []) t) →
  ewp m Q l.
Proof.
  intros Hm t Hs Hl. eapply wp_mono; [by apply Hm|].
  intros a t' (E1&E2&E3&E4&E5&HQ). exists l, []. split; [|done].
  split; [|by rewrite E2, app_nil_r|done..]. by rewrite insert_id by congruence.
Qed.

Lemma ewp_ret {A} (a : A) (Q : A → s_link → list datagram → Prop) l :
  Q a l [] → ewp (mret a) Q l.
Proof. intros HQ. apply ewp_same. intros t Hs Hl. by wp_steps. Qed.

Lemma ewp_bind {A B} (m : M (udp L) A) (f : A → M (udp L) B) Q l :
  ewp m (λ a l1 d1, ewp (f a) (λ b l2 d2, Q b l2 (d1 ++ d2)) l1) l → ewp (m ≫= f) Q l.
Proof.
  intros Hm t Hs Hl. wp_steps. eapply wp_mono; [by apply Hm|].
  intros a t1 (l1&d1&[E1 E2 E3 E4 E5]&Hf). cbv beta in Hf.
  eapply wp_mono; [apply Hf; [done|by rewrite E1, lookup_insert_eq]|].
  intros b t2 (l2&d2&[F1 F2 F3 F4 F5]&HQ). exists l2, (d1 ++ d2). split; [|done].
  split; [by rewrite F1, E1, insert_insert_eq|by rewrite F2, E2, app_assoc|done|congruence|by etrans].
Qed.

Lemma ewp_mono {A} (m : M (udp L) A) (P Q : A → s_link → list datagram → Prop) l :
  ewp m P l → (∀ a l' ds, P a l' ds → Q a l' ds) → ewp m Q l.
Proof.
  intros Hm HPQ t Hs Hl. eapply wp_mono; [by apply Hm|].
  intros a t' (l'&ds&?&?). exists l', ds. auto.
Qed.

Lemma ewp_link_at Q l : Q l l [] → ewp (link_at (ep_link e)) Q l.
Proof. intros HQ. apply ewp_same. intros t Hs Hl. by eapply wp_gets_opt. Qed.

Lemma ewp_link_set f Q l : Q tt (f l) [] → ewp (link_set (ep_link e) f) Q l.
Proof.
  intros HQ t Hs Hl. eapply wp_modify_opt; [cbv beta; by rewrite Hl|].
  exists (f l), []. split; [|done]. split; simpl; [done|by rewrite app_nil_r|done..].
Qed.

Lemma ewp_sem_post get set Q l :
  Q tt (set (get l + 1) l) [] → ewp (sem_post get set (ep_link e)) Q l.
Proof. apply (ewp_link_set (λ l, set (get l + 1) l)). Qed.

Lemma ewp_sem_wait get set Q l :
  0 < get l → Q tt (set (get l - 1) l) [] → ewp (sem_wait get set (ep_link e)) Q l.
Proof.
  intros Hg HQ. unfold sem_wait. apply ewp_bind, ewp_link_at.
  rewrite (proj2 (Z.leb_gt _ _)) by done.
  by apply (ewp_link_set (λ l, set (get l - 1) l)).
Qed.

Lemma ewp_gets {A} (f : udp L → A) Q l : (∀ a, Q a l []) → ewp (gets f) Q l.
Proof. intros HQ. apply ewp_same. intros t Hs Hl. by wp_steps. Qed.

Lemma ewp_sts Q l : (∀ s, open_sock s → Q s l []) → ewp sts Q l.
Proof. intros HQ. apply ewp_same. intros t Hs Hl. unfold sts. wp_steps.
  split_and!; try done. by apply HQ.
Qed.

Lemma ewp_sts_set f Q l : (∀ s, open_sock s → open_sock (f s) ∧ same_tables s (f s)) → Q tt l [] → ewp (sts_set f) Q l.
Proof.
  intros Hf HQ. apply ewp_same. intros t Hs Hl. unfold sts_set. wp_steps.
  destruct (Hf _ Hs). by split_and!.
Qed.

Lemma ewp_gettimeofday Q l : (∀ tv, Q (reading tv) l []) → ewp gettimeofday Q l.
Proof. intros HQ. apply ewp_same. intros t Hs Hl. by split_and!. Qed.

Lemma ewp_sendto ip port pa len Q l :
  Q (-1) l [] →
  Q len l [Datagram ip port (pa_head pa) (take (Z.to_nat (len - LEN_PACKET_HEAD)) (pa_buf pa))] →
  ewp (sendto ip port pa len) Q l.
Proof.
  intros H1 H2 t Hs Hl. unfold wp, sendto. cbv zeta. destruct (u_sendok t (u_sends t)).
  - exists l. eexists. split; [|exact H2]. split; simpl; try done. by rewrite insert_id.
  - exists l, []. split; [|exact H1]. split; simpl; try done; [by rewrite insert_id|by rewrite app_nil_r].
Qed.

Lemma ewp_id_alive Q l : Q true l [] → ewp (id_alive (Z.land (ep_id e) MAX_LINK_COUNT)) Q l.
Proof.
  intros HQ. unfold id_alive. apply ewp_bind, ewp_sts. intros s Hs. apply ewp_ret.
  rewrite bool_decide_eq_true_2; [done|].
  replace (Z.land (Z.land (ep_id e) MAX_LINK_COUNT) MAX_LINK_COUNT)
    with (Z.land (ep_id e) MAX_LINK_COUNT) by (by rewrite <- Z.land_assoc).
  rewrite (os_id _ Hs). by eexists.
Qed.

(** Loops, with the datagrams sent so far in the invariant. *)
Lemma ewp_loop {Loc R} (body : Loc → M (udp L) (Loc + R))
    (I : nat → Loc → s_link → list datagram → Prop) Q :
  (∀ n x l d, I n x l d →
    ewp (body x) (λ r l' d', match r with
                             | inl x' => ∃ n', (n' < n)%nat ∧ I n' x' l' (d ++ d')
                             | inr r => Q r l' (d ++ d')
                             end) l) →
  ∀ fuel n x l, I n x l [] → (n < fuel)%nat → ewp (loop fuel body x) Q l.
Proof.
  intros Hbody.
  assert (∀ fuel n x l d, I n x l d → (n < fuel)%nat →
    ewp (loop fuel body x) (λ r l' d', Q r l' (d ++ d')) l) as Hgen.
  { induction fuel as [|fuel IH]; intros n x l d HI Hn; [lia|]. simpl.
    apply ewp_bind. eapply ewp_mono; [by eapply Hbody|].
    intros [x'|r] l' d'; simpl.
    - intros (n'&?&HI'). eapply ewp_mono; [eapply IH; [done|lia]|].
      intros r l2 d2. by rewrite app_assoc.
    - intros HQ. apply ewp_ret. by rewrite app_nil_r. }
  intros fuel n x l HI Hn. apply (Hgen fuel n x l [] HI Hn).
Qed.
End effects.

Ltac ewp_step :=
  lazymatch goal with
  | |- ewp _ (mbind _ _) _ _ => apply ewp_bind
  | |- ewp _ (mret _) _ _ => apply ewp_ret
  | |- ewp _ (link_at _) _ _ => apply ewp_link_at
  | |- ewp _ (link_set _ _) _ _ => apply ewp_link_set
  | |- ewp _ (sem_post _ _ _) _ _ => apply ewp_sem_post
  | |- ewp _ gettimeofday _ _ => apply ewp_gettimeofday; intros ?tv
  | |- ewp _ sts _ _ => apply ewp_sts; intros ?s ?Hs
  | |- ewp _ (gets _) _ _ => apply ewp_gets; intros ?a
  end; cbv beta.
Ltac ewp_steps := repeat ewp_step.

(** ** The handlers *)

(** [memset] then [recvfrom]: the packet that a datagram becomes. *)
Definition packet_of (d : datagram) : s_packet_all :=
  Packet (dg_head d) (overwrite (dg_data d) (pa_buf zero_packet))
    (LEN_PACKET_HEAD + Z.of_nat (length (dg_data d))).

(** The header as [SendMsg] completes it. *)
Definition stamp (l : s_link) (pa : s_packet_all) : s_packet_all :=
  set_pa_head (set_ph_seqCheck ((SeqCheckSend l + 1) mod MAX_PACKET_SEQ)
    (set_ph_state (u8 (linkState l)) (pa_head pa))) pa.

Definition dg_type (d : datagram) : Z := ph_type (dg_head d).
Definition dg_seq (d : datagram) : Z := ph_seq (dg_head d).

Section handlers.
Context {L : Type} `{Clist L} (e : endpoint).
Implicit Types (l : s_link) (ds : list datagram).
Local Abbreviation p := (ep_link e).

Lemma ewp_SendMsg pa len (Q : Z * s_packet_all → s_link → list datagram → Prop) l :
  LEN_PACKET_HEAD ≤ len →
  Q (-1, stamp l pa) l [] →
  Q (len, stamp l pa) l [Datagram (lk_ip l) (lk_port l) (pa_head (stamp l pa))
    (take (Z.to_nat (len - LEN_PACKET_HEAD)) (pa_buf pa))] →
  ewp (L := L) e (SendMsg p pa len) Q l.
Proof.
  intros Hlen H1 H2. unfold SendMsg. ewp_steps.
  rewrite (proj2 (Z.leb_le _ _)) by done. ewp_steps.
  apply ewp_sendto; ewp_steps; [exact H1|exact H2].
Qed.

Lemma ctlIntervalTime_ewp Q l : Q tt l [] → ewp (L := L) e ctlIntervalTime Q l.
Proof.
  intros HQ. unfold ctlIntervalTime. ewp_steps. rewrite (os_state _ _ Hs). simpl. ewp_steps.
  eapply (ewp_mono _ _ (λ _ l' d, l' = l ∧ d = [])).
  { case_match; [|by ewp_steps]. apply ewp_sts_set; [|done]. by intros s' []. }
  intros _ l' ds [-> ->]. ewp_steps. apply ewp_sts_set; [|done]. by intros s' [].
Qed.

(** What a report sends: the acknowledgement, which may bring back the time of
    the check that it answers, and the missing numbers. *)
Definition report_data (bs : list Z) : Prop := bs = [] ∨ ∃ tv, bs = tv_bytes (reading tv).
Definition report_dgs (seq : Z) (ds : list datagram) : Prop :=
  Forall (λ d, dg_type d = SEQ_REPORT ∧ dg_seq d = seq ∧ report_data (dg_data d) ∨
               dg_type d = SEQ_LACK ∧ Forall (Z.le 0) (dg_data d)) ds.

Lemma report_dgs_app seq d1 d2 : report_dgs seq d1 → report_dgs seq d2 → report_dgs seq (d1 ++ d2).
Proof. intros. by apply Forall_app. Qed.

(** Only the time of the last report changes. *)
Definition reported (l l' : s_link) : Prop := l' = l ∨ ∃ tv, l' = set_timeoutReportLack tv l.

Lemma cyc_step x y :
  0 ≤ x < MAX_PACKET_SEQ → 0 ≤ y < MAX_PACKET_SEQ → 0 < cyc x y →
  cyc ((x + 1) mod MAX_PACKET_SEQ) y = cyc x y - 1 ∧
  ((x + 1) mod MAX_PACKET_SEQ = y → cyc x y = 1) ∧
  (cyc x y = 1 → (x + 1) mod MAX_PACKET_SEQ = y).
Proof. unfold cyc. rewrite max_packet_seq. intros. split_and!; [dlia|dlia|dlia]. Qed.

Lemma nonneg_insert k v (buf : list Z) : 0 ≤ v → Forall (Z.le 0) buf → Forall (Z.le 0) (<[k := v]> buf).
Proof. intros Hv Hb. by apply Forall_insert. Qed.
Lemma nonneg_put_word k v buf :
  0 ≤ v → Forall (Z.le 0) buf → Forall (Z.le 0) (put_word k v buf).
Proof. intros Hv Hb. apply nonneg_insert; [dlia|]. apply nonneg_insert; [dlia|done]. Qed.
Lemma nonneg_zeros n : Forall (Z.le 0) (replicate n 0).
Proof. by apply Forall_replicate. Qed.

Lemma SeqLack_ewp fuel seq l :
  0 ≤ SeqRead l < MAX_PACKET_SEQ → 0 ≤ SeqReadMax l < MAX_PACKET_SEQ →
  (Z.to_nat MAX_PACKET_NUMBER ≤ fuel)%nat →
  ewp (L := L) e (SeqLack fuel p) (λ _ l' ds, reported l l' ∧ report_dgs seq ds) l.
Proof.
  intros HR HM Hf. unfold SeqLack. ewp_steps.
  case_match; [ewp_steps; by split; [left|constructor]|].
  destruct (CMP_SEQ (SeqReadMax l) (SeqRead l)) eqn:E;
    [|ewp_steps; by split; [left|constructor]].
  rewrite CMP_SEQ_cyc in E by done. apply andb_true_iff in E as [E1%Z.ltb_lt E2%Z.ltb_lt].
  ewp_steps. set (l1 := set_timeoutReportLack (reading tv) l).
  eapply (ewp_mono _ _ (λ r l' d, l' = l1 ∧ report_dgs seq d ∧
    ph_type (pa_head r.2) = SEQ_LACK ∧ Forall (Z.le 0) (pa_buf r.2))).
  { eapply (ewp_loop _ _ (λ n '(x, cnt, k, pa) l' d, l' = l1 ∧ report_dgs seq d ∧
        (ph_type (pa_head pa) = SEQ_LACK ∧ Forall (Z.le 0) (pa_buf pa)) ∧
        0 ≤ x < MAX_PACKET_SEQ ∧ 0 < cyc x (SeqReadMax l) ∧
        n = Z.to_nat (cyc x (SeqReadMax l)))).
    2: { split_and!; [done|constructor|done|apply nonneg_zeros|lia..|reflexivity]. }
    2: lia.
    intros n [[[x cnt] k] pa] l' d (->&Hd&[Hpa Hbuf]&Hx&Hc&->). ewp_steps.
    pose proof (cyc_step x (SeqReadMax l) Hx HM Hc) as (Hc1&Hc2&Hc3).
    eapply (ewp_mono _ _ (λ y l' d', l' = l1 ∧ report_dgs seq d' ∧
      ph_type (pa_head y.2) = SEQ_LACK ∧ Forall (Z.le 0) (pa_buf y.2))).
    { pose proof (nonneg_put_word k x (pa_buf pa) ltac:(lia) Hbuf).
      destruct (negb (readable _ _)); [|ewp_steps; split_and!; [done|constructor|done..]].
      destruct (_ =? 0); [|ewp_steps; split_and!; [done|constructor|done..]].
      ewp_steps. apply ewp_SendMsg; [done|ewp_steps..].
      - split_and!; [done|constructor|done..].
      - split_and!; [done| |done..]. constructor; [right|constructor].
        split; [done|]. by apply Forall_take. }
    intros y l' d' (->&Hd'&Hy).
    assert (report_dgs seq (d ++ d' ++ [])) as Hdd.
    { apply report_dgs_app; [done|]. apply report_dgs_app; [done|constructor]. }
    destruct (Z.eqb_spec ((x + 1) mod MAX_PACKET_SEQ) (SeqReadMax l1)) as [Heq|Hne];
      cbn [negb]; ewp_steps; [done|].
    exists (Z.to_nat (cyc ((x + 1) mod MAX_PACKET_SEQ) (SeqReadMax l))).
    assert (cyc x (SeqReadMax l) ≠ 1) by (intros ?%Hc3; done).
    split; [lia|]. split; [done|]. split; [done|]. split; [done|].
    split; [apply seq_range|]. split; [lia|done]. }
  intros r l' d (->&Hd&[Hr Hbuf]).
  case_match; ewp_steps.
  - apply ewp_SendMsg; [|ewp_steps..].
    + unfold MAX_PACKET_DATA_SIZE, LEN_PACKET_HEAD. dlia.
    + split; [right; by eexists|]. by rewrite app_nil_r.
    + split; [right; by eexists|]. rewrite ?app_nil_r, <- ?app_assoc. simpl.
      apply report_dgs_app; [done|]. constructor; [right|constructor].
      split; [exact Hr|]. by apply Forall_take.
  - split; [right; by eexists|]. by rewrite app_nil_r.
Qed.

Lemma SeqReport_ewp fuel l :
  0 ≤ SeqRead l < MAX_PACKET_SEQ → 0 ≤ SeqReadMax l < MAX_PACKET_SEQ →
  (Z.to_nat MAX_PACKET_NUMBER ≤ fuel)%nat →
  ewp (L := L) e (SeqReport fuel p)
    (λ _ l' ds, reported l l' ∧ report_dgs (seq_before (SeqRead l)) ds) l.
Proof.
  intros HR HM Hf. unfold SeqReport. ewp_steps.
  case_match; ewp_steps; [|by split; [left|constructor]].
  apply ewp_SendMsg; [done|ewp_steps..].
  - eapply ewp_mono; [by apply SeqLack_ewp|]. intros _ l' ds [Hl Hd]. ewp_steps.
    split; [done|]. by rewrite app_nil_r.
  - eapply ewp_mono; [by apply SeqLack_ewp|]. intros _ l' ds [Hl Hd]. ewp_steps.
    split; [done|]. rewrite app_nil_r. constructor; [left; split_and!; [done|done|by left]|done].
Qed.
End handlers.

(** ** The two ends of a connection

    Packets are numbered from 1 without wrapping; the wire carries residues.
    [sub] lists the submitted data, packet [n] being the [n]-th. *)

(** [pa] is packet [n] of [sub]; as a stored packet and as a datagram. *)
Definition data_of (sub : list (list Z)) (n : Z) (data : list Z) : Prop :=
  sub !! Z.to_nat (n - 1) = Some data ∧ (0 < length data)%nat ∧
  Z.of_nat (length data) ≤ MAX_PACKET_DATA_SIZE.
Definition stores (data : list Z) (pa : s_packet_all) : Prop :=
  pa_len pa = LEN_PACKET_HEAD + Z.of_nat (length data) ∧ take (length data) (pa_buf pa) = data.

Definition total (sub : list (list Z)) : Z := Z.of_nat (length sub).

(** [c]: the last packet acknowledged. *)
Record sender (sub : list (list Z)) (c : Z) (l : s_link) : Prop := {
  sn_state : linkState l = 2;
  sn_prio : PrioritySendLack l = 0;
  sn_max : SeqMaxSend l = (total sub + 1) mod MAX_PACKET_SEQ;
  sn_check : SeqCheckSend l = c mod MAX_PACKET_SEQ;
  sn_window : 0 ≤ c ≤ total sub ∧ total sub ≤ c + 509;
  sn_len : length (paArraySend l) = Z.to_nat MAX_PACKET_NUMBER;
  sn_slots : ∀ n, c < n ≤ total sub → ∃ data, data_of sub n data ∧
    stores data (slot (paArraySend l) n) ∧
    ph_type (pa_head (slot (paArraySend l) n)) = USER_DATA ∧
    ph_seq (pa_head (slot (paArraySend l) n)) = n mod MAX_PACKET_SEQ;
}.

(** [R]: the next packet to read. *)
Record receiver (sub : list (list Z)) (R : Z) (l : s_link) : Prop := {
  rv_state : linkState l = 2;
  rv_read : SeqRead l = R mod MAX_PACKET_SEQ;
  rv_readmax : 0 ≤ SeqReadMax l < MAX_PACKET_SEQ;
  rv_bound : 1 ≤ R ≤ total sub + 1;
  rv_len : length (paArrayRecv l) = Z.to_nat MAX_PACKET_NUMBER;
  rv_slots : ∀ n, R ≤ n < R + MAX_PACKET_NUMBER → readable l (n mod MAX_PACKET_SEQ) = true →
    ∃ data, data_of sub n data ∧ stores data (slot (paArrayRecv l) n);
  rv_idle : SeqMaxSend l = 1 ∧ SeqCheckSend l = 0;  (* this end sends no packets *)
}.

(** [d] carries packet [n]. *)
Definition data_dg (sub : list (list Z)) (n : Z) (d : datagram) : Prop :=
  dg_type d = USER_DATA ∧ dg_seq d = n mod MAX_PACKET_SEQ ∧ data_of sub n (dg_data d).

Lemma overwrite_take data buf : take (length data) (overwrite data buf) = data.
Proof. unfold overwrite. by rewrite take_app_length. Qed.

Lemma data_of_app sub new n data : data_of sub n data → data_of (sub ++ new) n data.
Proof. intros (Hl&?&?). split; [by apply lookup_app_l_Some|done]. Qed.
Lemma data_of_last sub data :
  (0 < length data)%nat → Z.of_nat (length data) ≤ MAX_PACKET_DATA_SIZE →
  data_of (sub ++ [data]) (total sub + 1) data.
Proof.
  intros. split; [|done]. unfold total. replace (Z.to_nat _) with (length sub) by lia.
  by rewrite list_lookup_middle.
Qed.
Lemma total_snoc sub x : total (sub ++ [x]) = total sub + 1.
Proof. unfold total. rewrite length_app. simpl. lia. Qed.

Section ends.
Context {L : Type} `{Clist L} (e : endpoint).
Implicit Types (l : s_link) (ds : list datagram) (sub : list (list Z)).
Local Abbreviation p := (ep_link e).

Lemma ewp_get_link_for_id Q l :
  (∀ s, open_sock e s → Z.land (Z.shiftr (ep_id e) 16) MAX_SOCKET_NUM = ep_sock e) →
  ep_id e ≠ EX_UDP_ERROR →
  Q (Some p) l [] → ewp (L := L) e (get_link_for_id (ep_id e)) Q l.
Proof.
  intros Hid Hne HQ. unfold get_link_for_id. ewp_steps.
  rewrite (proj2 (Z.eqb_neq _ _)) by done.
  rewrite (os_array _ _ Hs), (os_state _ _ Hs), (os_socket _ _ Hs), (Hid _ Hs), Z.eqb_refl.
  simpl. ewp_steps. by rewrite (os_id _ _ Hs).
Qed.

(** *** Receiving a datagram *)

Lemma readable_put l n n' pa :
  length (paArrayRecv l) = Z.to_nat MAX_PACKET_NUMBER → slot_index n ≠ slot_index n' →
  readable (set_paArrayRecv (put_slot n pa (paArrayRecv l)) l) n' = readable l n'.
Proof. intros Hl Hn. unfold readable. simpl. by rewrite slot_put_ne. Qed.

Lemma receiver_store sub R l n d :
  receiver sub R l → data_dg sub n d → R ≤ n < R + MAX_PACKET_NUMBER → n ≤ total sub →
  receiver sub R (set_paArrayRecv (put_slot (n mod MAX_PACKET_SEQ) (packet_of d) (paArrayRecv l)) l).
Proof.
  intros [R1 R4 R5 R6 R7 R8 R9] (Ht&Hq&Hd) Hn Hm. split; simpl; try done.
  - by rewrite length_put_slot.
  - intros n' Hn' Hr. destruct (decide (n' = n)) as [->|Hne].
    + exists (dg_data d). split; [done|].
      assert (slot (put_slot (n mod MAX_PACKET_SEQ) (packet_of d) (paArrayRecv l)) n = packet_of d) as ->.
      { rewrite <- slot_mod. by apply slot_put_eq. }
      split; [done|]. apply overwrite_take.
    + assert (slot_index (n mod MAX_PACKET_SEQ) ≠ slot_index (n' mod MAX_PACKET_SEQ)) as Hi.
      { rewrite !slot_index_mod. intros E%slot_index_inj; [done|lia]. }
      rewrite readable_put in Hr by done.
      destruct (R8 n' Hn' Hr) as (data&?&?). exists data. split; [done|].
      rewrite slot_put_ne; [done|]. by rewrite slot_index_mod in Hi |- *; rewrite slot_index_mod in Hi.
Qed.

Lemma receiver_sem sub R l v : receiver sub R l → receiver sub R (set_semRecvList v l).
Proof. by intros [R1 R4 R5 R6 R7 R8 R9]. Qed.

(** A data datagram not more than 1533 packets old keeps the receiver correct:
    it is stored in its slot, or ignored. *)
Lemma UserDataRecv_ewp sub R l n d :
  receiver sub R l → data_dg sub n d → 1 ≤ n ≤ total sub → R - n ≤ 1533 →
  n < R + MAX_PACKET_NUMBER →
  ewp (L := L) e (UserDataRecv p (packet_of d)) (λ _ l' ds, receiver sub R l' ∧ ds = []) l.
Proof.
  intros HR Hd Hn Hold Hwin. pose proof HR as [R1 R4 R5 R6 R7 R8 R9].
  pose proof Hd as (Ht&Hq&Hdd). unfold UserDataRecv. ewp_steps.
  change (ph_seq (pa_head (packet_of d))) with (dg_seq d). rewrite Hq, R1. simpl.
  destruct (CMP_SEQ _ _ || _) eqn:E; [|by ewp_steps].
  assert (R ≤ n) as HRn.
  { apply orb_true_iff in E as [E|E%Z.eqb_eq].
    - rewrite CMP_SEQ_cyc in E by (rewrite ?R4; apply seq_range).
      apply andb_true_iff in E as [_ E%Z.ltb_lt]. rewrite R4, cyc_mod in E.
      rewrite max_packet_seq in E. unfold MAX_PACKET_NUMBER in E. dlia.
    - rewrite R4, max_packet_seq in E. dlia. }
  ewp_step. eapply (ewp_mono _ _ (λ _ l' ds, receiver sub R l' ∧ ds = []));
    [|intros _ l' ds [? ->]; by ewp_steps].
  case_match; [|by ewp_steps]. ewp_steps.
  pose proof (receiver_store sub R l n d HR Hd ltac:(lia) ltac:(lia)) as HR'.
  case_match; ewp_steps; [|done]. rewrite (os_msgid _ _ Hs). simpl. ewp_steps.
  split; [|done]. by apply receiver_sem.
Qed.

Lemma seq_before_mod R : 1 ≤ R → seq_before (R mod MAX_PACKET_SEQ) = (R - 1) mod MAX_PACKET_SEQ.
Proof.
  intros HR. unfold seq_before. rewrite max_packet_seq.
  destruct (Z.eqb_spec (R mod 2044) 0); dlia.
Qed.

Lemma receiver_reported sub R l l' : receiver sub R l → reported l l' → receiver sub R l'.
Proof. intros HR [->|[tv ->]]; [done|]. by destruct HR. Qed.

Lemma receiver_report_ewp sub R l fuel :
  receiver sub R l → (Z.to_nat MAX_PACKET_NUMBER ≤ fuel)%nat →
  ewp (L := L) e (SeqReport fuel p)
    (λ _ l' ds, receiver sub R l' ∧ report_dgs ((R - 1) mod MAX_PACKET_SEQ) ds) l.
Proof.
  intros HR Hf. pose proof HR as [R1 R4 R5 R6 R7 R8 R9].
  eapply ewp_mono; [apply SeqReport_ewp; [rewrite R4; apply seq_range|done..]|].
  intros _ l' ds [Hl Hd]. split; [by eapply receiver_reported|].
  by rewrite <- seq_before_mod, <- R4 by lia.
Qed.

Lemma SeqCheckAck_ewp sub R l pa :
  receiver sub R l → 0 ≤ ph_seq (pa_head pa) < MAX_PACKET_SEQ → LEN_PACKET_HEAD ≤ pa_len pa →
  report_data (take (Z.to_nat (pa_len pa - LEN_PACKET_HEAD)) (pa_buf pa)) →
  ewp (L := L) e (SeqCheckAck p pa)
    (λ _ l' ds, receiver sub R l' ∧ report_dgs ((R - 1) mod MAX_PACKET_SEQ) ds) l.
Proof.
  intros HR Hq Hlen Hdata. pose proof HR as [R1 R4 R5 R6 R7 R8 R9].
  unfold SeqCheckAck. ewp_steps. rewrite R1. simpl.
  case_match; ewp_steps; [|by split; [|constructor]].
  set (l1 := set_SeqReadMax (ph_seq (pa_head pa)) l).
  assert (receiver sub R l1) as HR1 by by split.
  eapply (ewp_mono _ _ (λ _ l' ds, l' = l1 ∧ report_dgs ((R - 1) mod MAX_PACKET_SEQ) ds)).
  { case_match; ewp_steps; [|by split; [|constructor]].
    apply ewp_SendMsg; [done|ewp_steps..]; (split; [done|]); [constructor|].
    constructor; [|constructor]. left. split; [done|]. split; [|done].
    rewrite <- seq_before_mod, <- R4 by lia. done. }
  intros _ l' ds [-> Hd]. ewp_steps. rewrite (os_msgid _ _ Hs). simpl. ewp_steps.
  split; [by apply receiver_sem|]. by rewrite app_nil_r.
Qed.

(** *** Reading *)

Lemma receiver_consume sub R l :
  receiver sub R l → R ≤ total sub → receiver sub (R + 1) (consume l).
Proof.
  intros [R1 R4 R5 R6 R7 R8 R9] HR. split; simpl; try done.
  - rewrite R4, max_packet_seq. dlia.
  - lia.
  - by rewrite length_put_slot.
  - intros n Hn Hr. unfold readable in Hr. simpl in Hr. rewrite slot_mod in Hr.
    destruct (decide (slot_index (SeqRead l) = slot_index n)) as [E|E].
    + exfalso. rewrite slot_put_same in Hr by done. simpl in Hr. by rewrite andb_false_r in Hr.
    + rewrite slot_put_ne in Hr |- * by done.
      rewrite R4, slot_index_mod in E.
      destruct (decide (n = R + MAX_PACKET_NUMBER)) as [->|Hne].
      { exfalso. apply E. unfold slot_index, MAX_PACKET_NUMBER. f_equal. dlia. }
      apply R8; [lia|]. unfold readable. by rewrite slot_mod.
Qed.

Lemma data_of_bound sub n data : data_of sub n data → n ≤ total sub.
Proof.
  intros (Hl%lookup_lt_Some&_&_). unfold total. lia.
Qed.

(** The lock, the semaphore and the wait time do not matter. *)
Lemma receiver_recv_mutex sub R l v : receiver sub R l → receiver sub R (set_semRecvListMutex v l).
Proof. by intros []. Qed.
Lemma receiver_wait_time sub R l v : receiver sub R l → receiver sub R (set_tsWaitTime v l).
Proof. by intros []. Qed.

Lemma exRecv_turn_ewp sub R l fuel :
  receiver sub R l → (Z.to_nat MAX_PACKET_NUMBER ≤ fuel)%nat →
  ewp (L := L) e (exRecv_turn fuel p) (λ x l' ds,
    match x with
    | Done None => l' = l ∧ readable l (SeqRead l) = true ∧ ds = []
    | _ => receiver sub R l' ∧ report_dgs ((R - 1) mod MAX_PACKET_SEQ) ds
    end) l.
Proof.
  intros HR Hf. unfold exRecv_turn. ewp_steps. destruct (readable l (SeqRead l)) eqn:Hr; ewp_steps; [done|].
  eapply ewp_mono; [by apply (receiver_report_ewp sub R)|]. intros _ l' ds [HR' Hds]. ewp_steps.
  case_match; [|case_match]; ewp_steps; rewrite !app_nil_r; (split; [|done]);
    [done|by apply receiver_recv_mutex|done].
Qed.

Lemma exRecv_take_ewp sub R l :
  receiver sub R l → readable l (SeqRead l) = true →
  ewp (L := L) e (exRecv_take p) (λ r l' ds,
    data_of sub R r.2 ∧ r.1 = Z.of_nat (length r.2) ∧ receiver sub (R + 1) l' ∧ ds = []) l.
Proof.
  intros HR Hr. pose proof HR as [R1 R4 R5 R6 R7 R8 R9]. unfold exRecv_take. ewp_steps.
  rewrite R4 in Hr. destruct (R8 R ltac:(unfold MAX_PACKET_NUMBER; lia) Hr) as (data&Hd&Hst).
  pose proof Hd as (Hd1&Hd2&Hd3). destruct Hst as [Hst1 Hst2]. rewrite R4, slot_mod, Hst1.
  assert (u16 (LEN_PACKET_HEAD + Z.of_nat (length data) - LEN_PACKET_HEAD) = Z.of_nat (length data)) as ->.
  { rewrite u16_small; [lia|]. unfold MAX_PACKET_DATA_SIZE, LEN_PACKET_HEAD in *. lia. }
  rewrite (proj2 (Z.ltb_ge _ _)), Nat2Z.id by done. ewp_steps. rewrite Hst2.
  split_and!; [done|done| |done]. pose proof (data_of_bound _ _ _ Hd).
  apply receiver_recv_mutex, receiver_consume; [done|lia].
Qed.

(** *** Acknowledgements *)

Lemma sender_ack sub c a l :
  sender sub c l → c ≤ a ≤ total sub → sender sub a (set_SeqCheckSend (a mod MAX_PACKET_SEQ) l).
Proof.
  intros [S1 S3 S5 S6 S7 S8 S9] Ha. split; simpl; try done; [lia|].
  intros n Hn. apply S9. lia.
Qed.
Lemma sender_sem sub c l v : sender sub c l → sender sub c (set_semSendList v l).
Proof. by intros [S1 S3 S5 S6 S7 S8 S9]. Qed.
Lemma sender_interval sub c l tv : sender sub c l → sender sub c (set_timeoutCheckLack tv l).
Proof. by intros [S1 S3 S5 S6 S7 S8 S9]. Qed.

(** An acknowledgement of [a] not more than 1533 packets behind moves the window
    forward or does nothing. *)
Lemma SeqReportAck_ewp sub c l a pa :
  sender sub c l → ph_seq (pa_head pa) = a mod MAX_PACKET_SEQ → 0 ≤ a ≤ total sub → c - a ≤ 1533 →
  (LEN_PACKET_HEAD < pa_len pa → tv_range (tv_of_bytes (pa_buf pa))) →
  ewp (L := L) e (SeqReportAck p pa) (λ _ l' ds, sender sub (Z.max c a) l' ∧ ds = []) l.
Proof.
  intros HS Hq Ha Hold Htv. pose proof HS as [S1 S3 S5 S6 S7 S8 S9].
  unfold SeqReportAck. ewp_steps. rewrite S1, Hq. simpl.
  destruct (CMP_SEQ_ORDER _ _ _) eqn:E; rewrite CMP_SEQ_ORDER_cyc in E
    by (rewrite ?S5, ?S6; apply seq_range); rewrite S5, S6, !cyc_mod, max_packet_seq in E;
    unfold MAX_PACKET_NUMBER in E.
  - assert (c ≤ a) by (apply andb_true_iff in E as [E1%Z.ltb_lt _]; dlia).
    rewrite Z.max_r by done. pose proof (sender_ack _ _ a _ HS ltac:(lia)) as HS'.
    ewp_steps. destruct (Z.ltb_spec LEN_PACKET_HEAD (pa_len pa)); ewp_steps.
    + rewrite ms_defined_range by (apply reading_range || by apply Htv). simpl. ewp_steps. split; [|done].
      by apply sender_interval, sender_sem.
    + split; [|done]. by apply sender_sem.
  - ewp_steps. rewrite Z.max_l; [done|].
    destruct (decide (a ≤ c)); [done|]. exfalso.
    rewrite !Z.mod_small in E by lia.
    apply andb_false_iff in E as [E%Z.ltb_ge|E%Z.ltb_ge]; lia.
Qed.

(** *** Resending *)

(** The window number that a reported residue stands for. *)
Lemma window_number c t u :
  0 ≤ u < MAX_PACKET_SEQ → 0 ≤ t - c ≤ 509 →
  CMP_SEQ_ORDER ((c + 1) mod MAX_PACKET_SEQ) u ((t + 1) mod MAX_PACKET_SEQ) = true →
  ∃ n, c < n ≤ t ∧ u = n mod MAX_PACKET_SEQ.
Proof.
  intros Hu Ht E. rewrite CMP_SEQ_ORDER_cyc in E by (done || apply seq_range).
  apply andb_true_iff in E as [E%Z.ltb_lt _]. rewrite cyc_mod in E.
  unfold cyc in E. rewrite max_packet_seq in *.
  exists (c + 1 + (u - (c + 1) mod 2044) mod 2044). dlia.
Qed.

Lemma sender_stamp sub c l n pa' :
  sender sub c l → c < n ≤ total sub → pa' = stamp l (slot (paArraySend l) n) →
  sender sub c (set_paArraySend (put_slot n pa' (paArraySend l)) l).
Proof.
  intros [S1 S3 S5 S6 S7 S8 S9] Hn ->. split; simpl; try done.
  - by rewrite length_put_slot.
  - intros n' Hn'. destruct (decide (n' = n)) as [->|Hne].
    + rewrite slot_put_eq by done. apply (S9 n Hn').
    + rewrite slot_put_ne; [by apply S9|]. intros E%slot_index_inj; [done|].
      unfold MAX_PACKET_NUMBER. lia.
Qed.

(** Writing through the residue is writing through the number. *)
Lemma put_slot_mod n pa a : put_slot (n mod MAX_PACKET_SEQ) pa a = put_slot n pa a.
Proof. unfold put_slot. by rewrite slot_index_mod. Qed.

Definition resent (sub : list (list Z)) (c : Z) (ds : list datagram) : Prop :=
  Forall (λ d, ∃ n, c < n ≤ total sub ∧ data_dg sub n d) ds.

(** The fields that the resending does not look at. *)
Lemma sender_prio sub c l v : sender sub c l → PrioritySendLack (set_PrioritySendLack v l) = 0 →
  sender sub c (set_PrioritySendLack v l).
Proof. intros [S1 S3 S5 S6 S7 S8 S9] Hv. by split. Qed.

Lemma resend_ewp sub c usps : Forall (Z.le 0) usps → ∀ l,
  sender sub c (set_PrioritySendLack 0 l) →
  ewp (L := L) e (resend p ((c + 1) mod MAX_PACKET_SEQ) usps)
    (λ _ l' ds, sender sub c (set_PrioritySendLack 0 l') ∧ resent sub c ds) l.
Proof.
  induction 1 as [|u usps Hu _ IH]; intros l HS; simpl.
  { ewp_steps. split; [done|constructor]. }
  pose proof HS as [S1 S3 S5 S6 S7 S8 S9]. simpl in *.
  ewp_steps. destruct (Z.ltb_spec u MAX_PACKET_SEQ); [|ewp_steps; by split; [|constructor]].
  rewrite S5. destruct (CMP_SEQ_ORDER _ _ _) eqn:E; [|ewp_steps; by split; [|constructor]].
  destruct (window_number c (total sub) u) as (n&Hn&->); [done|lia|done|].
  rewrite slot_mod. destruct (S9 n Hn) as (data&Hd&[Hlen Htake]&Hty&Hsq). rewrite Hlen.
  assert (sender sub c (set_PrioritySendLack 0 (set_paArraySend
    (put_slot n (stamp l (slot (paArraySend l) n)) (paArraySend l)) l))) as HS'.
  { pose proof (sender_stamp _ _ _ n _ HS Hn eq_refl) as HS'. exact HS'. }
  ewp_steps. apply ewp_SendMsg; [lia|ewp_steps..].
  - rewrite put_slot_mod. by eapply ewp_mono; [by apply IH|].
  - rewrite put_slot_mod. eapply ewp_mono; [by apply IH|]. intros _ l' ds [? ?].
    split; [done|]. constructor; [|done]. exists n. split; [done|].
    split; [done|]. split; [done|]. simpl.
    replace (Z.to_nat _) with (length data) by lia. by rewrite Htake.
Qed.

Lemma words_nonneg buf : Forall (Z.le 0) buf → Forall (Z.le 0) (words buf).
Proof.
  intros Hb. assert (∀ n buf, (length buf ≤ n)%nat → Forall (Z.le 0) buf → Forall (Z.le 0) (words buf)) as Hgen.
  { clear. induction n as [|n IH]; intros [|a [|b buf]] Hl Hb; simpl in *; try constructor; try lia.
    - rewrite !Forall_cons in Hb. lia.
    - apply IH; [lia|]. by rewrite !Forall_cons in Hb; destruct Hb as (_&_&?). }
  by eapply Hgen.
Qed.

Lemma SeqLackAck_ewp sub c l pa :
  sender sub c l → Forall (Z.le 0) (pa_buf pa) →
  ewp (L := L) e (SeqLackAck p pa) (λ _ l' ds, sender sub c l' ∧ resent sub c ds) l.
Proof.
  intros HS Hb. pose proof HS as [S1 S3 S5 S6 S7 S8 S9].
  unfold SeqLackAck. ewp_steps. rewrite S1, S6. simpl. ewp_steps.
  assert ((c mod MAX_PACKET_SEQ + 1) mod MAX_PACKET_SEQ = (c + 1) mod MAX_PACKET_SEQ) as ->.
  { by rewrite Zplus_mod_idemp_l. }
  eapply ewp_mono; [apply (resend_ewp sub c)|].
  - apply Forall_take, words_nonneg, Hb.
  - by split.
  - intros _ l' ds [HS' Hds]. ewp_steps. rewrite !app_nil_r. split; [|done].
    by apply (sender_sem _ _ (set_PrioritySendLack 0 l')).
Qed.

(** *** Checking and sending *)

Lemma SeqCheck_ewp sub c l :
  sender sub c l →
  ewp (L := L) e (SeqCheck p) (λ _ l' ds, sender sub c l' ∧
    Forall (λ d, dg_type d = SEQ_CHECK ∧ dg_seq d = (total sub + 1) mod MAX_PACKET_SEQ ∧
      report_data (dg_data d)) ds) l.
Proof.
  intros HS. pose proof HS as [S1 S3 S5 S6 S7 S8 S9].
  unfold SeqCheck. ewp_steps. case_match; [|ewp_steps; by split; [|constructor]].
  case_match; [|ewp_steps; by split; [|constructor]]. ewp_steps.
  case_match; [ewp_steps; by split; [|constructor]|]. ewp_steps.
  apply ewp_SendMsg; [done|ewp_steps..]; apply ctlIntervalTime_ewp; ewp_steps; (split; [by split|]).
  - constructor.
  - constructor; [|constructor]. split; [done|]. split; [done|]. right. by exists tv.
Qed.
(** An end that sends nothing has nothing to check. *)
Lemma SeqCheck_idle_ewp sub R l :
  receiver sub R l → ewp (L := L) e (SeqCheck p) (λ _ l' ds, l' = l ∧ ds = []) l.
Proof.
  intros [R1 R4 R5 R6 R7 R8 [R9 R10]]. unfold SeqCheck. ewp_steps. rewrite R9, R10.
  change (negb (1 =? (0 + 1) mod MAX_PACKET_SEQ)) with false. case_match; by ewp_steps.
Qed.

Lemma sender_push sub c l data pa :
  sender sub c l → (0 < length data)%nat → Z.of_nat (length data) ≤ MAX_PACKET_DATA_SIZE →
  total sub ≤ c + 508 → stores data pa → ph_type (pa_head pa) = USER_DATA →
  ph_seq (pa_head pa) = (total sub + 1) mod MAX_PACKET_SEQ →
  sender (sub ++ [data]) c (set_SeqMaxSend ((SeqMaxSend l + 1) mod MAX_PACKET_SEQ)
    (set_paArraySend (put_slot (total sub + 1) pa (paArraySend l)) l)).
Proof.
  intros [S1 S3 S5 S6 S7 S8 S9] Hl1 Hl2 Hw Hst Hty Hsq.
  split; simpl; rewrite ?total_snoc; try done.
  - by rewrite S5, Zplus_mod_idemp_l.
  - lia.
  - by rewrite length_put_slot.
  - intros n Hn. destruct (decide (n = total sub + 1)) as [->|Hne].
    + exists data. rewrite slot_put_eq by done. split; [by apply data_of_last|done].
    + destruct (S9 n ltac:(lia)) as (data'&Hd&Hrest). exists data'.
      rewrite slot_put_ne; [split; [by apply data_of_app|done]|].
      intros E%slot_index_inj; [done|]. unfold MAX_PACKET_NUMBER. lia.
Qed.

(** The slot past the window is free. *)
Lemma sender_scratch sub c l pa :
  sender sub c l → sender sub c (set_paArraySend (put_slot (total sub + 1) pa (paArraySend l)) l).
Proof.
  intros [S1 S3 S5 S6 S7 S8 S9]. split; simpl; try done.
  - by rewrite length_put_slot.
  - intros n Hn. rewrite slot_put_ne; [by apply S9|].
    intros E%slot_index_inj; [lia|]. unfold MAX_PACKET_NUMBER. lia.
Qed.

Lemma sender_send_mutex sub c l v : sender sub c l → sender sub c (set_semSendListMutex v l).
Proof. by intros []. Qed.
Lemma sender_wait_time sub c l v : sender sub c l → sender sub c (set_tsWaitTime v l).
Proof. by intros []. Qed.

(** The rest of a submission: all of one packet, or nothing. *)
Definition left_ok (a : Z * list Z) : Prop :=
  a.1 = Z.of_nat (length a.2) ∧ a.1 ≤ MAX_PACKET_DATA_SIZE.

Lemma exSend_turn_ewp sub c l len a :
  sender sub c l → left_ok a →
  ewp (L := L) e (exSend_turn p len a) (λ x l' ds,
    match x with
    | Again a' => 0 < a.1 ∧ a' = (0, []) ∧ sender (sub ++ [a.2]) c l' ∧
        Forall (data_dg (sub ++ [a.2]) (total sub + 1)) ds
    | WaitFor _ a' => a' = a ∧ sender sub c l' ∧ ds = []
    | Done _ => sender sub c l' ∧ ds = []
    end) l.
Proof.
  intros HS [Ha1 Ha2]. pose proof HS as [S1 S3 S5 S6 S7 S8 S9]. destruct a as [n data]. simpl in Ha1, Ha2. subst n.
  unfold exSend_turn. destruct (Z.leb_spec (Z.of_nat (length data)) 0) as [|Hl].
  { ewp_steps. split; [|done]. by apply sender_send_mutex. }
  ewp_steps. rewrite S3.
  assert ((if MAX_PACKET_DATA_SIZE <=? Z.of_nat (length data) then MAX_PACKET_DATA_SIZE
    else Z.of_nat (length data)) = Z.of_nat (length data)) as ->
    by (destruct (Z.leb_spec MAX_PACKET_DATA_SIZE (Z.of_nat (length data))); lia).
  rewrite Nat2Z.id, (take_ge data), (drop_ge data) by lia.
  destruct (Z.eqb_spec ((SeqMaxSend l + 1) mod MAX_PACKET_NUMBER)
    (SeqCheckSend l mod MAX_PACKET_NUMBER)) as [Hfull|Hroom]; cbn [negb andb Z.eqb].
  { case_match; [by ewp_steps|]. case_match; ewp_steps; [|done].
    split; [|done]. by apply sender_send_mutex. }
  assert (total sub ≤ c + 508) as Hw.
  { destruct (decide (total sub = c + 509)) as [E|]; [|lia]. exfalso. apply Hroom.
    rewrite S5, S6, E, <- Zplus_mod_idemp_l, !seq_mod_number, Zplus_mod_idemp_l.
    replace (c + 509 + 1 + 1) with (c + 1 * MAX_PACKET_NUMBER) by (unfold MAX_PACKET_NUMBER; lia).
    apply Z_mod_plus_full. }
  assert (put_slot (SeqMaxSend l) = put_slot (total sub + 1)) as Eput
    by (unfold put_slot; by rewrite S5, slot_index_mod).
  set (pa := Packet _ _ _).
  assert (stores data (stamp l pa)) as Hst by (split; [done|apply overwrite_take]).
  ewp_step. apply ewp_SendMsg; [unfold LEN_PACKET_HEAD; simpl; unfold LEN_PACKET_HEAD; lia|..];
    ewp_steps; cbn [fst snd].
  - change (-1 =? EX_UDP_ERROR) with true. cbv iota. ewp_steps. split; [|done].
    rewrite Eput. by apply sender_send_mutex, sender_scratch.
  - rewrite (proj2 (Z.eqb_neq _ _)) by (unfold EX_UDP_ERROR; simpl; unfold LEN_PACKET_HEAD; lia).
    ewp_steps. apply ctlIntervalTime_ewp. ewp_steps. rewrite Z.sub_diag. split_and!; [done|done| |].
    + rewrite Eput. by apply (sender_push sub c l data (stamp l pa)); [|lia|..].
    + constructor; [|constructor]. split; [done|]. split; [done|].
      simpl. replace (Z.to_nat _) with (length data) by (unfold LEN_PACKET_HEAD; lia).
      rewrite overwrite_take. apply data_of_last; [lia|done].
Qed.
End ends.

(** ** Keeping a connected link alive, and the dispatch *)

(** The requests and answers of two ends that are both connected. *)
Definition alive_dg (d : datagram) : Prop :=
  (dg_type d = LINK_SYN ∨ dg_type d = LINK_SYN_ACK) ∧ ph_state (dg_head d) = 2.

(** What the timer and those datagrams change. *)
Definition timed (l l' : s_link) : Prop :=
  (∃ tv, l' = set_lk_timeout tv l) ∨ (∃ n, l' = set_timeout_times n l) ∨
  (∃ tv n, l' = set_timeout_times n (set_lk_timeout tv l)) ∨ (∃ n, l' = set_semSendList n l) ∨
  (∃ n, l' = set_tsWaitTime n l) ∨ l' = l.

Section dispatch.
Context {L : Type} `{Clist L} (e : endpoint).
Implicit Types (l : s_link) (ds : list datagram) (sub : list (list Z)).
Local Abbreviation p := (ep_link e).

Lemma sender_timed sub c l l' : sender sub c l → timed l l' → sender sub c l'.
Proof. intros [] [[? ->]|[[? ->]|[(?&?&->)|[[? ->]|[[? ->]| ->]]]]]; by split. Qed.
Lemma receiver_timed sub R l l' : receiver sub R l → timed l l' → receiver sub R l'.
Proof. intros [] [[? ->]|[[? ->]|[(?&?&->)|[[? ->]|[[? ->]| ->]]]]]; by split. Qed.

(** On a connected link the dispatch clears the timeout and runs the handler of
    the packet's type. *)
Lemma dispatch_ewp fuel pa (m : M (udp L) Z) (Q : s_link → list datagram → Prop) l :
  linkState l = 2 →
  (ph_type (pa_head pa), m) ∈ [(USER_DATA, UserDataRecv p pa); (SEQ_CHECK, SeqCheckAck p pa);
    (SEQ_REPORT, SeqReportAck p pa); (SEQ_LACK, SeqLackAck p pa)] →
  ewp (L := L) e m (λ _, Q) (set_lk_timeout (TV 0 (tv_usec (lk_timeout l))) l) →
  ewp (L := L) e (recv_dispatch fuel p pa) (λ _, Q) l.
Proof.
  intros Hst Hin Hm. unfold recv_dispatch. ewp_steps. rewrite Hst. simpl. ewp_steps.
  rewrite !elem_of_cons, elem_of_nil in Hin.
  destruct Hin as [[= -> ->]|[[= -> ->]|[[= -> ->]|[[= -> ->]|[]]]]]; simpl; ewp_steps;
    (eapply ewp_mono; [exact Hm|]); intros r l' ds HQ; ewp_steps; by rewrite app_nil_r.
Qed.

(** A request is answered; an answer wakes the sender up. *)
Lemma dispatch_alive_ewp fuel d l : linkState l = 2 → alive_dg d →
  ewp (L := L) e (recv_dispatch fuel p (packet_of d)) (λ _ l' ds,
    (∃ l1, timed l l1 ∧ timed l1 l') ∧ Forall alive_dg ds) l.
Proof.
  intros Hst [Hty Hs]. unfold recv_dispatch. ewp_steps. rewrite Hst. simpl. ewp_steps.
  set (l1 := set_lk_timeout _ l). assert (timed l l1) as H1 by (left; by eexists).
  assert (linkState l1 = 2) as Hst1 by done.
  change (ph_type (dg_head d)) with (dg_type d). destruct Hty as [->| ->]; simpl.
  - unfold recv_LINK_SYN. simpl. rewrite Hs. simpl. ewp_steps. rewrite Hst1. simpl. ewp_steps.
    assert (timed l1 l1) as H2 by (by do 5 right).
    apply ewp_SendMsg; [done|ewp_steps..]; (split; [by exists l1|]); [constructor|].
    constructor; [|constructor]. split; [by right|]. simpl. by rewrite ?Hst1, ?Hst.
  - unfold recv_LINK_SYN_ACK. simpl. rewrite Hs. simpl. ewp_steps. rewrite Hst1. simpl. ewp_steps.
    eapply (ewp_mono _ _ (λ _ l' ds, l' = l1 ∧ ds = [])).
    { case_match; [|by ewp_steps]. apply ewp_sts_set; [|done]. by intros s' []. }
    intros _ l' ds [-> ->]. ewp_steps. split; [|constructor]. exists l1. split; [done|].
    right. right. right. left. by eexists.
Qed.

(** *** Results of a run *)

(** An effect for each run that returns. *)
Definition pewp {A} (m : M (udp L) A) (Q : A → s_link → list datagram → Prop) l : Prop :=
  ∀ t a t', open_sock e (u_sock t) → u_links t !! p = Some l → m t = Ret (a, t') →
    ∃ l' ds, eff e t t' l' ds ∧ Q a l' ds.

Lemma pewp_ewp {A} (m : M (udp L) A) Q l : ewp e m Q l → pewp m Q l.
Proof. intros Hm t a t' Hs Hl Hrun. specialize (Hm t Hs Hl). unfold wp in Hm. by rewrite Hrun in Hm. Qed.
Lemma pewp_mono {A} (m : M (udp L) A) (P Q : A → s_link → list datagram → Prop) l :
  pewp m P l → (∀ a l' ds, P a l' ds → Q a l' ds) → pewp m Q l.
Proof.
  intros Hm HPQ t a t' Hs Hl Hrun. destruct (Hm t a t' Hs Hl Hrun) as (l'&ds&?&?). exists l', ds. auto.
Qed.
Lemma pewp_bind {A B} (m : M (udp L) A) (f : A → M (udp L) B) Q l :
  pewp m (λ a l1 d1, pewp (f a) (λ b l2 d2, Q b l2 (d1 ++ d2)) l1) l → pewp (m ≫= f) Q l.
Proof.
  intros Hm t b t' Hs Hl (a&t1&Ha&Hb)%bind_inv. destruct (Hm t a t1 Hs Hl Ha) as (l1&d1&[E1 E2 E3 E4 E5]&Hf).
  destruct (Hf t1 b t' E3 ltac:(by rewrite E1, lookup_insert_eq) Hb) as (l2&d2&[F1 F2 F3 F4 F5]&HQ).
  exists l2, (d1 ++ d2). split; [|done].
  split; [by rewrite F1, E1, insert_insert_eq|by rewrite F2, E2, app_assoc|done|congruence|by etrans].
Qed.
(** A wait that returns took one from the semaphore. *)
Lemma pewp_sem_wait get set Q l : Q tt (set (get l - 1) l) [] → pewp (sem_wait get set p) Q l.
Proof.
  intros HQ. unfold sem_wait. apply pewp_bind, pewp_ewp, ewp_link_at. destruct (get l <=? 0); [by intros t a t'|].
  by apply pewp_ewp, (ewp_link_set e (λ l, set (get l - 1) l)).
Qed.

(** The id names the connection of the socket. *)
Definition id_ok : Prop :=
  Z.land (Z.shiftr (ep_id e) 16) MAX_SOCKET_NUM = ep_sock e ∧ ep_id e ≠ EX_UDP_ERROR.
Lemma pewp_get_link Q l : id_ok → Q (Some p) l [] → pewp (get_link_for_id (ep_id e)) Q l.
Proof. intros [H1 H2] HQ. by apply pewp_ewp, ewp_get_link_for_id. Qed.

Lemma exSend_begin_pewp data len l : id_ok →
  pewp (exSend_begin (ep_id e) (Some data) len) (λ r l' ds, ds = [] ∧
    match r with
    | None => l' = l
    | Some (_, buf) => buf = data ∧ len ≤ MAX_PACKET_DATA_SIZE ∧ ∃ v, l' = set_semSendListMutex v l
    end) l.
Proof.
  intros Hid. unfold exSend_begin. apply pewp_bind, pewp_get_link; [done|].
  destruct (Z.leb_spec len 0); simpl; [by apply pewp_ewp, ewp_ret|].
  destruct (Z.ltb_spec MAX_PACKET_DATA_SIZE len); [by apply pewp_ewp, ewp_ret|].
  apply pewp_bind, pewp_sem_wait, pewp_ewp, ewp_ret. split_and!; [done..|]. by eexists.
Qed.
Lemma exRecv_begin_pewp l : id_ok →
  pewp (exRecv_begin (ep_id e) false) (λ r l' ds, ds = [] ∧ (l' = l ∨ ∃ v, l' = set_semRecvListMutex v l)) l.
Proof.
  intros Hid. unfold exRecv_begin. apply pewp_bind, pewp_get_link; [done|].
  apply pewp_bind, pewp_sem_wait, pewp_ewp, ewp_ret. split; [done|]. right. by eexists.
Qed.
Lemma setWaitTime_pewp ms l : id_ok →
  pewp (setWaitTime (ep_id e) ms) (λ _ l' ds, timed l l' ∧ ds = []) l.
Proof.
  intros Hid. unfold setWaitTime. apply pewp_bind, pewp_get_link; [done|]. apply pewp_ewp. ewp_steps.
  split; [|done]. do 4 right. left. by eexists.
Qed.

(** The waits, for any property of the link that the semaphore and the lock do
    not matter to. *)
Lemma wait_pewp {A} (K : s_link → Prop) get set get' set' (timed : bool) (go : A) (stop : Z → A) l :
  (∀ l v, K l → K (set v l)) → (∀ l v, K l → K (set' v l)) → K l →
  let unlock := sem_post get' set' p in
  let id := Z.land (ep_id e) MAX_LINK_COUNT in
  pewp (if timed then
      iRet ← sem_timed_wait get set p;
      alive ← id_alive id;
      if negb alive then unlock;; mret (stop EX_UDP_ERROR)
      else if iRet =? -1 then unlock;; mret (stop 0) else mret go
    else
      sem_wait get set p;;
      alive ← id_alive id;
      if negb alive then unlock;; mret (stop EX_UDP_ERROR) else mret go)
    (λ r l' ds, (r = go ∨ ∃ v, r = stop v) ∧ K l' ∧ ds = []) l.
Proof.
  intros H1 H2 HK unlock id. destruct timed.
  - apply pewp_ewp. ewp_step. unfold sem_timed_wait. ewp_steps.
    eapply (ewp_mono _ _ (λ _ l' ds, K l' ∧ ds = [])).
    { case_match; ewp_steps; (split; [|done]); [done|by apply H1]. }
    intros r l' ds [HK' ->]. ewp_step. apply ewp_id_alive. simpl. case_match; unfold unlock; ewp_steps.
    + split_and!; [right; by eexists|by apply H2|done].
    + by split_and!; [left|..].
  - apply pewp_bind, pewp_sem_wait, pewp_ewp. ewp_step. apply ewp_id_alive. simpl. ewp_steps.
    split_and!; [by left|by apply H1|done].
Qed.
(** An effect for each run that returns [a]. *)
Definition gives {A} (m : M (udp L) A) (a : A) (P : s_link → list datagram → Prop) l : Prop :=
  ∀ t t', open_sock e (u_sock t) → u_links t !! p = Some l → m t = Ret (a, t') →
    ∃ l' ds, eff e t t' l' ds ∧ P l' ds.

Lemma pewp_gives {A} (m : M (udp L) A) (Q : A → s_link → list datagram → Prop) a P l :
  pewp m Q l → (∀ l' ds, Q a l' ds → P l' ds) → gives m a P l.
Proof.
  intros Hm HQ t t' Hs Hl Hrun. destruct (Hm t a t' Hs Hl Hrun) as (l'&ds&?&?). exists l', ds. auto.
Qed.
Lemma gives_mono {A} (m : M (udp L) A) a (P Q : s_link → list datagram → Prop) l :
  gives m a P l → (∀ l' ds, P l' ds → Q l' ds) → gives m a Q l.
Proof.
  intros Hm HPQ t t' Hs Hl Hrun. destruct (Hm t t' Hs Hl Hrun) as (l'&ds&?&?). exists l', ds. auto.
Qed.

(** A computation that never returns [a]. *)
Definition never {A} (a : A) (m : M (udp L) A) : Prop := ∀ t t', m t ≠ Ret (a, t').
Lemma never_bind {A B} (b : B) (m : M (udp L) A) (f : A → M (udp L) B) :
  (∀ a, never b (f a)) → never b (m ≫= f).
Proof. intros Hf t t' (a&t1&_&Hb)%bind_inv. by apply Hf in Hb. Qed.
Lemma never_ret {A} (a b : A) : a ≠ b → never b (mret a).
Proof. intros Hab t t' [=]. done. Qed.

(** A timer that does not give the connection up. *)
Lemma listen_link_gives fuel l : linkState l = 2 →
  gives (listen_link fuel p) None (λ l' ds, timed l l' ∧ Forall alive_dg ds) l.
Proof.
  intros Hst t t' Hs Hl Hrun. unfold listen_link in Hrun.
  apply bind_inv in Hrun as (s&t1&[= <- <-]&Hrun).
  apply bind_inv in Hrun as (l0&t1&E&Hrun). unfold link_at, gets_opt in E. rewrite Hl in E. injection E as <- <-.
  apply bind_inv in Hrun as (interval&t1&[= <- <-]&Hrun).
  apply bind_inv in Hrun as (times&t1&[= <- <-]&Hrun).
  destruct (tv_sec (lk_timeout l) =? 0); [|destruct (_ <=? _); [destruct (_ <? _)|]].
  - eapply (pewp_ewp _ (λ _ l' ds, timed l l' ∧ Forall alive_dg ds)); [|done|done|exact Hrun].
    ewp_steps. split; [|constructor]. right. right. left. by do 2 eexists.
  - exfalso. revert Hrun. cbv zeta. repeat (apply never_bind; intros ?). by apply never_ret.
  - eapply (pewp_ewp _ (λ _ l' ds, timed l l' ∧ Forall alive_dg ds)); [|done|done|exact Hrun].
    rewrite Hst. simpl. ewp_steps.
    assert (∀ n, timed l (set_timeout_times n l)) as Ht by (intros n; right; left; by eexists).
    apply ewp_SendMsg; [done|ewp_steps..]; (split; [done|]); [constructor|].
    constructor; [|constructor]. split; [by left|]. simpl. by rewrite Hst.
  - eapply (pewp_ewp _ (λ _ l' ds, timed l l' ∧ Forall alive_dg ds)); [|done|done|exact Hrun].
    ewp_steps. split; [by do 5 right|constructor].
Qed.
End dispatch.

(** ** Two endpoints and a network

    The first endpoint sends, the second reads.  The network keeps every
    datagram sent since the connection was set up: it may deliver any of them at
    any time, any number of times, or never, in any order.  A datagram carries as
    a ghost the number of packets submitted when it was sent; [lifetime] bounds
    how many packets may be submitted while it is under way, which is what finite
    sequence numbers need.  The calls of [exSend] and [exRecv] are steps between
    which anything else can happen: up to the lock, one turn of the loop, one
    wait on the semaphore (a wait that is held up is no step).  Other steps are a
    change of the wait time, the timers of [thread_listen], as long as it does
    not give the connection up, and the arrival of a datagram. *)
Definition lifetime : Z := 1023.

(** Where a call is in its loop. *)
Inductive call (A : Type) := Trying (a : A) | Waiting (timed : bool) (a : A).
#[global] Arguments Trying {A}.
#[global] Arguments Waiting {A}.

Definition after_turn {A R} (x : turn A R) : option (call A) :=
  match x with Again a => Some (Trying a) | WaitFor timed a => Some (Waiting timed a) | Done _ => None end.
Definition after_wait {A R} (x : A + R) : option (call A) :=
  match x with inl a => Some (Trying a) | inr _ => None end.

(** The packet that a turn of [exSend] submitted. *)
Definition submits {R} (a : Z * list Z) (x : turn (Z * list Z) R) : list (list Z) :=
  match x with
  | Again a' => if a'.1 <? a.1 then [take (Z.to_nat (a.1 - a'.1)) a.2] else []
  | _ => []
  end.

Record net (L : Type) := Net {
  n_A : udp L; n_B : udp L;
  n_fromA : list (Z * datagram); n_fromB : list (Z * datagram);
  n_send : option (Z * call (Z * list Z));  (* the length and the state of a call of exSend *)
  n_read : option (call unit);              (* a call of exRecv *)
  n_sub : list (list Z);    (* submitted by exSend *)
  n_del : list (list Z);    (* returned by exRecv *)
}.
Arguments Net {L}.
Arguments n_A {L}. Arguments n_B {L}. Arguments n_fromA {L}. Arguments n_fromB {L}.
Arguments n_send {L}. Arguments n_read {L}. Arguments n_sub {L}. Arguments n_del {L}.

(** The datagrams a step sent, with the ghost. *)
Definition sent_by {L} (T : Z) (t t' : udp L) : list (Z * datagram) :=
  (λ d, (T, d)) <$> drop (length (u_out t)) (u_out t').

Section network.
Context {L : Type} `{Clist L} (eA eB : endpoint).

Definition at_A (s : net L) (t' : udp L) (snd : option (Z * call (Z * list Z))) (new : list (list Z)) : net L :=
  Net t' (n_B s) (n_fromA s ++ sent_by (total (n_sub s ++ new)) (n_A s) t') (n_fromB s)
    snd (n_read s) (n_sub s ++ new) (n_del s).
Definition at_B (s : net L) (t' : udp L) (rd : option (call unit)) (new : list (list Z)) : net L :=
  Net (n_A s) t' (n_fromA s) (n_fromB s ++ sent_by (total (n_sub s)) (n_B s) t')
    (n_send s) rd (n_sub s) (n_del s ++ new).

Inductive nstep (s : net L) : net L → Prop :=
| step_send_begin data buf t' :
    let len := Z.of_nat (length data) in
    n_send s = None →
    exSend_begin (ep_id eA) (Some data) len (n_A s) = Ret (Some (ep_link eA, buf), t') →
    nstep s (at_A s t' (Some (len, Trying (len, buf))) [])
| step_send_turn len a x t' :
    n_send s = Some (len, Trying a) →
    exSend_turn (ep_link eA) len a (n_A s) = Ret (x, t') →
    nstep s (at_A s t' (pair len <$> after_turn x) (submits a x))
| step_send_wait len timed a x t' :
    n_send s = Some (len, Waiting timed a) →
    exSend_wait (Z.land (ep_id eA) MAX_LINK_COUNT) (ep_link eA) timed a (n_A s) = Ret (x, t') →
    nstep s (at_A s t' (pair len <$> after_wait x) [])
| step_read_begin t' :
    n_read s = None →
    exRecv_begin (ep_id eB) false (n_B s) = Ret (Some (ep_link eB), t') →
    nstep s (at_B s t' (Some (Trying tt)) [])
| step_read_turn fuel x t' :
    (Z.to_nat MAX_PACKET_NUMBER ≤ fuel)%nat → n_read s = Some (Trying tt) → x ≠ Done None →
    exRecv_turn fuel (ep_link eB) (n_B s) = Ret (x, t') →
    nstep s (at_B s t' (after_turn x) [])
| step_read_take fuel t1 r data t' :
    (Z.to_nat MAX_PACKET_NUMBER ≤ fuel)%nat → n_read s = Some (Trying tt) →
    exRecv_turn fuel (ep_link eB) (n_B s) = Ret (Done None, t1) →
    exRecv_take (ep_link eB) t1 = Ret ((r, data), t') →
    nstep s (at_B s t' None [data])
| step_read_wait timed x t' :
    n_read s = Some (Waiting timed tt) →
    exRecv_wait (Z.land (ep_id eB) MAX_LINK_COUNT) (ep_link eB) timed (n_B s) = Ret (x, t') →
    nstep s (at_B s t' (after_wait x) [])
| step_wait_time_A ms r t' :
    setWaitTime (ep_id eA) ms (n_A s) = Ret (r, t') → nstep s (at_A s t' (n_send s) [])
| step_wait_time_B ms r t' :
    setWaitTime (ep_id eB) ms (n_B s) = Ret (r, t') → nstep s (at_B s t' (n_read s) [])
| step_check_A r t' :
    SeqCheck (ep_link eA) (n_A s) = Ret (r, t') → nstep s (at_A s t' (n_send s) [])
| step_check_B r t' :
    SeqCheck (ep_link eB) (n_B s) = Ret (r, t') → nstep s (at_B s t' (n_read s) [])
| step_listen_A fuel t' :
    listen_link fuel (ep_link eA) (n_A s) = Ret (None, t') → nstep s (at_A s t' (n_send s) [])
| step_listen_B fuel t' :
    listen_link fuel (ep_link eB) (n_B s) = Ret (None, t') → nstep s (at_B s t' (n_read s) [])
| step_to_B fuel T d t' :
    (T, d) ∈ n_fromA s → total (n_sub s) - T ≤ lifetime →
    recv_dispatch fuel (ep_link eB) (packet_of d) (n_B s) = Ret (tt, t') →
    nstep s (at_B s t' (n_read s) [])
| step_to_A fuel T d t' :
    (T, d) ∈ n_fromB s → total (n_sub s) - T ≤ lifetime →
    recv_dispatch fuel (ep_link eA) (packet_of d) (n_A s) = Ret (tt, t') →
    nstep s (at_A s t' (n_send s) []).

(** *** The invariant *)

Definition serves (e : endpoint) (t : udp L) (P : s_link → Prop) : Prop :=
  open_sock e (u_sock t) ∧ ∃ l, u_links t !! ep_link e = Some l ∧ P l.

(** What the network holds: data and checks one way, reports the other way, and
    what keeps the link alive. *)
Definition fromA_ok (sub : list (list Z)) (x : Z * datagram) : Prop :=
  x.1 ≤ total sub ∧
  ((∃ n, 1 ≤ n ∧ x.1 - 508 ≤ n ≤ x.1 ∧ data_dg sub n x.2) ∨
   (dg_type x.2 = SEQ_CHECK ∧ 0 ≤ dg_seq x.2 < MAX_PACKET_SEQ ∧ report_data (dg_data x.2)) ∨
   alive_dg x.2).
Definition fromB_ok (sub : list (list Z)) (R : Z) (x : Z * datagram) : Prop :=
  x.1 ≤ total sub ∧
  ((∃ a, 0 ≤ a < R ∧ x.1 - 510 ≤ a ∧ dg_type x.2 = SEQ_REPORT ∧ dg_seq x.2 = a mod MAX_PACKET_SEQ ∧
     report_data (dg_data x.2)) ∨
   (dg_type x.2 = SEQ_LACK ∧ Forall (Z.le 0) (dg_data x.2)) ∨
   alive_dg x.2).

Definition sending_ok (x : option (Z * call (Z * list Z))) : Prop :=
  match x with Some (_, Trying a) | Some (_, Waiting _ a) => left_ok a | None => True end.

Record net_inv (s : net L) (c R : Z) : Prop := {
  ni_del : n_del s = take (Z.to_nat (R - 1)) (n_sub s);
  ni_A : serves eA (n_A s) (sender (n_sub s) c);
  ni_B : serves eB (n_B s) (receiver (n_sub s) R);
  ni_cR : 0 ≤ c < R ∧ R ≤ total (n_sub s) + 1 ∧ total (n_sub s) ≤ c + 509;
  ni_fromA : Forall (fromA_ok (n_sub s)) (n_fromA s);
  ni_fromB : Forall (fromB_ok (n_sub s) R) (n_fromB s);
  ni_send : sending_ok (n_send s);
}.

Lemma gives_run {A} (e : endpoint) (m : M (udp L) A) P l t a t' T :
  gives e m a P l → open_sock e (u_sock t) → u_links t !! ep_link e = Some l → m t = Ret (a, t') →
  ∃ l' ds, open_sock e (u_sock t') ∧ u_links t' !! ep_link e = Some l' ∧
    sent_by T t t' = (λ d, (T, d)) <$> ds ∧ P l' ds.
Proof.
  intros Hm Hs Hl Hrun. destruct (Hm t t' Hs Hl Hrun) as (l'&ds&[E1 E2 E3 E4]&HP).
  exists l', ds. split_and!; [done| | |done].
  - by rewrite E1, lookup_insert_eq.
  - unfold sent_by. by rewrite E2, drop_app_length.
Qed.

Lemma fromA_app sub new x : fromA_ok sub x → fromA_ok (sub ++ new) x.
Proof.
  intros [HT Hx]. split; [unfold total in *; rewrite length_app; lia|].
  destruct Hx as [(n&?&?&(?&?&?))|?]; [left|by right].
  exists n. split_and!; [done|lia|lia|]. split_and!; [done..|]. by apply data_of_app.
Qed.
Lemma fromB_mono sub sub' R R' x : R ≤ R' → total sub ≤ total sub' →
  fromB_ok sub R x → fromB_ok sub' R' x.
Proof.
  intros HR HT [Hx1 Hx]. split; [lia|]. destruct Hx as [(a&?&?&?)|?]; [left|by right].
  exists a. split_and!; [lia..|naive_solver|naive_solver|naive_solver].
Qed.

Lemma stamped_Forall T (P : Z * datagram → Prop) (Q : datagram → Prop) ds :
  Forall Q ds → (∀ d, Q d → P (T, d)) → Forall P ((λ d, (T, d)) <$> ds).
Proof. intros HQ HP. apply Forall_fmap. eapply Forall_impl; [exact HQ|]. exact HP. Qed.

Lemma reports_fromB sub R c ds :
  report_dgs ((R - 1) mod MAX_PACKET_SEQ) ds → 0 ≤ c < R → total sub ≤ c + 509 →
  Forall (fromB_ok sub R) ((λ d, (total sub, d)) <$> ds).
Proof.
  intros Hds Hc Ht. eapply stamped_Forall; [exact Hds|].
  intros d [(Hd1&Hd2&Hd3)|Hd]; (split; [simpl; lia|]); [left|right; by left].
  exists (R - 1). simpl. split_and!; [lia..|done|done|done].
Qed.

Lemma resent_fromA sub c ds :
  resent sub c ds → 0 ≤ c → total sub ≤ c + 509 →
  Forall (fromA_ok sub) ((λ d, (total sub, d)) <$> ds).
Proof.
  intros Hds Hc Ht. eapply stamped_Forall; [exact Hds|].
  intros d (n&Hn&Hd). split; [simpl; lia|]. left. exists n. simpl. split_and!; [lia..|done].
Qed.
Lemma alive_fromA sub ds : Forall alive_dg ds → Forall (fromA_ok sub) ((λ d, (total sub, d)) <$> ds).
Proof. intros Hds. eapply stamped_Forall; [exact Hds|]. intros d Hd. split; [simpl; lia|]. by right; right. Qed.
Lemma alive_fromB sub R ds : Forall alive_dg ds → Forall (fromB_ok sub R) ((λ d, (total sub, d)) <$> ds).
Proof. intros Hds. eapply stamped_Forall; [exact Hds|]. intros d Hd. split; [simpl; lia|]. by right; right. Qed.

Lemma receiver_app sub R l new : receiver sub R l → receiver (sub ++ new) R l.
Proof.
  intros [R1 R4 R5 R6 R7 R8 R9]. split; try done; [unfold total in *; rewrite length_app; lia|].
  intros n Hn Hr. destruct (R8 n Hn Hr) as (data&?&?). exists data. split; [by apply data_of_app|done].
Qed.

(** A step of the sending endpoint: what it must do to its link, and what it may
    send and submit, when the result is [a]. *)
Lemma net_A {A} s c R (m : M (udp L) A) a t' snd new c' :
  net_inv s c R → m (n_A s) = Ret (a, t') →
  (∀ l, sender (n_sub s) c l → gives eA m a (λ l' ds,
     (sender (n_sub s ++ new) c' l' ∧
      Forall (fromA_ok (n_sub s ++ new)) ((λ d, (total (n_sub s ++ new), d)) <$> ds)) ∧
     c ≤ c' < R ∧ sending_ok snd) l) →
  net_inv (at_A s t' snd new) c' R.
Proof.
  intros [Hdel [HsA (lA&HlA&HA)] [HsB (lB&HlB&HB)] HcR HfA HfB Hsnd] Hrun Hm.
  destruct (gives_run _ _ _ _ _ _ _ (total (n_sub s ++ new)) (Hm lA HA) HsA HlA Hrun)
    as (l'&ds&Hs'&Hl'&Hsent&[HA' Hds]&Hc&Hok).
  assert (total (n_sub s) ≤ total (n_sub s ++ new)) by (unfold total; rewrite length_app; lia).
  pose proof (sn_window _ _ _ HA'). split; simpl; try done.
  - rewrite Hdel, take_app_le; [done|]. unfold total in HcR. lia.
  - split; [done|by exists l'].
  - split; [done|]. exists lB. split; [done|by apply receiver_app].
  - lia.
  - rewrite Hsent. apply Forall_app. split; [|done]. eapply Forall_impl; [exact HfA|]. intros x. apply fromA_app.
  - eapply Forall_impl; [exact HfB|]. intros x. by apply fromB_mono.
Qed.

(** A step of the reading endpoint. *)
Lemma net_B {A} s c R (m : M (udp L) A) a t' rd new R' :
  net_inv s c R → m (n_B s) = Ret (a, t') →
  (∀ l, receiver (n_sub s) R l → gives eB m a (λ l' ds,
     (receiver (n_sub s) R' l' ∧ Forall (fromB_ok (n_sub s) R') ((λ d, (total (n_sub s), d)) <$> ds)) ∧
     R ≤ R' ∧ n_del s ++ new = take (Z.to_nat (R' - 1)) (n_sub s)) l) →
  net_inv (at_B s t' rd new) c R'.
Proof.
  intros [Hdel HA [HsB (lB&HlB&HB)] HcR HfA HfB Hsnd] Hrun Hm.
  destruct (gives_run _ _ _ _ _ _ _ (total (n_sub s)) (Hm lB HB) HsB HlB Hrun)
    as (l'&ds&Hs'&Hl'&Hsent&(HB'&Hds)&HR&Hnew).
  pose proof (rv_bound _ _ _ HB'). split; simpl; try done.
  - split; [done|by exists l'].
  - lia.
  - rewrite Hsent. apply Forall_app. split; [|done].
    eapply Forall_impl; [exact HfB|]. intros x. apply fromB_mono; lia.
Qed.

(** A step that submits nothing, and one that reads nothing. *)
Lemma net_A_same {A} s c R (m : M (udp L) A) a t' snd :
  net_inv s c R → m (n_A s) = Ret (a, t') →
  (∀ l, sender (n_sub s) c l → gives eA m a (λ l' ds,
     (sender (n_sub s) c l' ∧ Forall (fromA_ok (n_sub s)) ((λ d, (total (n_sub s), d)) <$> ds)) ∧
     sending_ok snd) l) →
  net_inv (at_A s t' snd []) c R.
Proof.
  intros HI Hrun Hm. eapply net_A; [done|exact Hrun|]. intros l Hl. eapply gives_mono; [by apply Hm|].
  intros l' ds []. rewrite app_nil_r. pose proof (ni_cR _ _ _ HI).
  split; [done|]. split; [lia|done].
Qed.
Lemma net_B_same {A} s c R (m : M (udp L) A) a t' rd :
  net_inv s c R → m (n_B s) = Ret (a, t') →
  (∀ l, receiver (n_sub s) R l → gives eB m a (λ l' ds,
     receiver (n_sub s) R l' ∧ Forall (fromB_ok (n_sub s) R) ((λ d, (total (n_sub s), d)) <$> ds)) l) →
  net_inv (at_B s t' rd []) c R.
Proof.
  intros HI Hrun Hm. eapply net_B; [done|exact Hrun|]. intros l Hl. eapply gives_mono; [by apply Hm|].
  intros l' ds Hq. rewrite app_nil_r. split; [done|]. split; [lia|apply HI].
Qed.

(** *** The steps *)

Lemma send_begin_inv s c R data buf t' :
  id_ok eA → net_inv s c R → let len := Z.of_nat (length data) in
  exSend_begin (ep_id eA) (Some data) len (n_A s) = Ret (Some (ep_link eA, buf), t') →
  net_inv (at_A s t' (Some (len, Trying (len, buf))) []) c R.
Proof.
  intros HA HI len Hrun. eapply net_A_same; [done|exact Hrun|]. intros l Hl.
  eapply pewp_gives; [by apply exSend_begin_pewp|]. intros l' ds [-> Hr].
  destruct Hr as (->&Hmax&v&->). split; [|done]. split; [by apply sender_send_mutex|constructor].
Qed.

Lemma send_turn_inv s c R len a x t' :
  net_inv s c R → n_send s = Some (len, Trying a) →
  exSend_turn (ep_link eA) len a (n_A s) = Ret (x, t') →
  net_inv (at_A s t' (pair len <$> after_turn x) (submits a x)) c R.
Proof.
  intros HI Hsnd Hrun. assert (left_ok a) as Ha by (pose proof (ni_send _ _ _ HI) as Hok; by rewrite Hsnd in Hok).
  eapply net_A; [done|exact Hrun|]. intros l Hl. pose proof (ni_cR _ _ _ HI).
  eapply pewp_gives; [by apply pewp_ewp, exSend_turn_ewp|]. intros l' ds Hq.
  destruct x as [a'|timed a'|r]; simpl.
  - destruct Hq as (Hpos&->&HS&Hds). destruct Ha as [Ha1 Ha2]. simpl. rewrite (proj2 (Z.ltb_lt _ _)) by done.
    rewrite Z.sub_0_r, take_ge by lia. split; [|split; [lia|by split]]. split; [done|].
    eapply stamped_Forall; [exact Hds|]. intros d Hd. split; [simpl; lia|]. left.
    exists (total (n_sub s) + 1). rewrite total_snoc. simpl. split_and!; [unfold total; lia|lia..|done].
  - destruct Hq as (->&HS&->). rewrite app_nil_r. split; [by split|]. split; [lia|done].
  - destruct Hq as (HS&->). rewrite app_nil_r. split; [by split|]. split; [lia|done].
Qed.

Lemma send_wait_inv s c R len timed a x t' :
  net_inv s c R → n_send s = Some (len, Waiting timed a) →
  exSend_wait (Z.land (ep_id eA) MAX_LINK_COUNT) (ep_link eA) timed a (n_A s) = Ret (x, t') →
  net_inv (at_A s t' (pair len <$> after_wait x) []) c R.
Proof.
  intros HI Hsnd Hrun. assert (left_ok a) as Ha by (pose proof (ni_send _ _ _ HI) as Hok; by rewrite Hsnd in Hok).
  eapply net_A_same; [done|exact Hrun|]. intros l Hl.
  eapply pewp_gives; [apply (wait_pewp eA (sender (n_sub s) c) _ _ _ _ timed (inl a) inr); [| |exact Hl]|].
  - intros l0 v. apply sender_sem.
  - intros l0 v. apply sender_send_mutex.
  - intros l' ds (Hr&HS&->). split; [by split|]. by destruct Hr as [->|[v ->]].
Qed.

Lemma read_begin_inv s c R r t' rd :
  id_ok eB → net_inv s c R → exRecv_begin (ep_id eB) false (n_B s) = Ret (r, t') →
  net_inv (at_B s t' rd []) c R.
Proof.
  intros HB HI Hrun. eapply net_B_same; [done|exact Hrun|]. intros l Hl.
  eapply pewp_gives; [by apply exRecv_begin_pewp|]. intros l' ds [-> Hr]. split; [|constructor].
  destruct Hr as [->|[v ->]]; [done|by apply receiver_recv_mutex].
Qed.

Lemma read_turn_inv s c R fuel x t' rd :
  net_inv s c R → (Z.to_nat MAX_PACKET_NUMBER ≤ fuel)%nat → x ≠ Done None →
  exRecv_turn fuel (ep_link eB) (n_B s) = Ret (x, t') → net_inv (at_B s t' rd []) c R.
Proof.
  intros HI Hf Hx Hrun. eapply net_B_same; [done|exact Hrun|]. intros l Hl. pose proof (ni_cR _ _ _ HI).
  eapply pewp_gives; [by apply pewp_ewp, exRecv_turn_ewp|]. intros l' ds Hq.
  assert (receiver (n_sub s) R l' ∧ report_dgs ((R - 1) mod MAX_PACKET_SEQ) ds) as [? ?].
  { by destruct x as [?|? ?|[?|]]. }
  split; [done|]. apply (reports_fromB _ _ c); [done|lia..].
Qed.

Lemma read_take_inv s c R fuel t1 r data t' :
  net_inv s c R → (Z.to_nat MAX_PACKET_NUMBER ≤ fuel)%nat →
  exRecv_turn fuel (ep_link eB) (n_B s) = Ret (Done None, t1) →
  exRecv_take (ep_link eB) t1 = Ret ((r, data), t') → net_inv (at_B s t' None [data]) c (R + 1).
Proof.
  intros HI Hf Hrun1 Hrun2. pose proof (ni_cR _ _ _ HI).
  eapply (net_B _ _ _ (x ← exRecv_turn fuel (ep_link eB);
    match x with Done None => exRecv_take (ep_link eB) | _ => fault end) (r, data));
    [done|by rewrite (bind_ret _ _ _ _ _ Hrun1)|]. intros l Hl.
  eapply (pewp_gives _ _ (λ r l' ds, receiver (n_sub s) (R + 1) l' ∧ ds = [] ∧ data_of (n_sub s) R r.2)).
  - apply pewp_bind. eapply pewp_mono; [by apply pewp_ewp, (exRecv_turn_ewp eB (n_sub s) R)|].
    intros x l1 ds1 Hx. destruct x as [?|? ?|[?|]]; try (intros t2 ? t3 _ _ E; discriminate E). destruct Hx as (->&Hr&->).
    eapply pewp_mono; [by apply pewp_ewp, (exRecv_take_ewp eB (n_sub s) R)|]. by intros r' l' ds (?&_&?&->).
  - intros l' ds (HR'&->&Hd&_). simpl in Hd. split; [split; [done|constructor]|]. split; [lia|].
    rewrite (ni_del _ _ _ HI). replace (Z.to_nat (R + 1 - 1)) with (S (Z.to_nat (R - 1))) by lia.
    by rewrite (take_S_r _ _ data).
Qed.

Lemma read_wait_inv s c R timed x t' rd :
  net_inv s c R →
  exRecv_wait (Z.land (ep_id eB) MAX_LINK_COUNT) (ep_link eB) timed (n_B s) = Ret (x, t') →
  net_inv (at_B s t' rd []) c R.
Proof.
  intros HI Hrun. eapply net_B_same; [done|exact Hrun|]. intros l Hl.
  eapply pewp_gives; [apply (wait_pewp eB (receiver (n_sub s) R) _ _ _ _ timed (inl tt) (λ r, inr (Some r))); [| |exact Hl]|].
  - intros l0 v. apply receiver_sem.
  - intros l0 v. apply receiver_recv_mutex.
  - intros l' ds (_&HS&->). by split.
Qed.

(** The timers: a step that keeps the link alive. *)
Lemma timer_A_inv {A} s c R (m : M (udp L) A) a t' :
  net_inv s c R → m (n_A s) = Ret (a, t') →
  (∀ l, linkState l = 2 → gives eA m a (λ l' ds, timed l l' ∧ Forall alive_dg ds) l) →
  net_inv (at_A s t' (n_send s) []) c R.
Proof.
  intros HI Hrun Hm. eapply net_A_same; [done|exact Hrun|]. intros l Hl.
  eapply gives_mono; [apply Hm, Hl|]. intros l' ds [Ht Hds].
  split; [|apply HI]. split; [by eapply sender_timed|by apply alive_fromA].
Qed.
Lemma timer_B_inv {A} s c R (m : M (udp L) A) a t' :
  net_inv s c R → m (n_B s) = Ret (a, t') →
  (∀ l, linkState l = 2 → gives eB m a (λ l' ds, timed l l' ∧ Forall alive_dg ds) l) →
  net_inv (at_B s t' (n_read s) []) c R.
Proof.
  intros HI Hrun Hm. eapply net_B_same; [done|exact Hrun|]. intros l Hl.
  eapply gives_mono; [apply Hm, Hl|]. intros l' ds [Ht Hds].
  split; [by eapply receiver_timed|by apply alive_fromB].
Qed.

Lemma check_A_inv s c R r t' :
  net_inv s c R → SeqCheck (ep_link eA) (n_A s) = Ret (r, t') → net_inv (at_A s t' (n_send s) []) c R.
Proof.
  intros HI Hrun. eapply net_A_same; [done|exact Hrun|]. intros l Hl.
  eapply pewp_gives; [by apply pewp_ewp, SeqCheck_ewp|]. intros l' ds [HS Hds]. split; [|apply HI].
  split; [done|]. eapply stamped_Forall; [exact Hds|]. intros d (Hd1&Hd2&Hd3). split; [simpl; lia|].
  right. left. simpl. rewrite Hd2. split_and!; [done|apply seq_range..|done].
Qed.
Lemma check_B_inv s c R r t' :
  net_inv s c R → SeqCheck (ep_link eB) (n_B s) = Ret (r, t') → net_inv (at_B s t' (n_read s) []) c R.
Proof.
  intros HI Hrun. eapply net_B_same; [done|exact Hrun|]. intros l Hl.
  eapply pewp_gives; [by eapply pewp_ewp, SeqCheck_idle_ewp|]. intros l' ds [-> ->]. by split.
Qed.

(** *** Arrivals *)

Lemma packet_of_data d : take (Z.to_nat (pa_len (packet_of d) - LEN_PACKET_HEAD)) (pa_buf (packet_of d)) = dg_data d.
Proof.
  simpl. replace (Z.to_nat _) with (length (dg_data d)) by lia. apply overwrite_take.
Qed.
Lemma report_time d : report_data (dg_data d) → LEN_PACKET_HEAD < pa_len (packet_of d) →
  tv_range (tv_of_bytes (pa_buf (packet_of d))).
Proof.
  intros [E|[tv E]] Hl; simpl in *; rewrite E in *; [simpl in Hl; lia|].
  unfold overwrite. rewrite tv_roundtrip; apply reading_range.
Qed.

Lemma to_B_inv s c R fuel T d t' :
  net_inv s c R → (T, d) ∈ n_fromA s → total (n_sub s) - T ≤ lifetime →
  recv_dispatch fuel (ep_link eB) (packet_of d) (n_B s) = Ret (tt, t') →
  net_inv (at_B s t' (n_read s) []) c R.
Proof.
  intros HI Hin Hlife Hrun. pose proof HI as [_ _ _ HcR HfA _ _].
  rewrite Forall_forall in HfA. destruct (HfA _ Hin) as [HT Hd]. simpl in *.
  eapply net_B_same; [done|exact Hrun|]. intros l HB.
  assert (receiver (n_sub s) R (set_lk_timeout (TV 0 (tv_usec (lk_timeout l))) l)) as HB'
    by (eapply receiver_timed; [exact HB|left; by eexists]).
  destruct Hd as [(n&Hn&Hn2&Hd)|[(Hty&Hsq&Hdata)|Hd]].
  - pose proof Hd as (Hty&_&Hdd). pose proof (data_of_bound _ _ _ Hdd).
    eapply pewp_gives; [apply pewp_ewp; eapply (dispatch_ewp eB _ _ _ (λ l' ds, receiver (n_sub s) R l' ∧ ds = [])); [apply HB| |]|].
    + unfold dg_type in Hty. simpl. rewrite Hty. left.
    + apply (UserDataRecv_ewp eB _ _ _ n d HB' Hd); unfold lifetime, MAX_PACKET_NUMBER in *; lia.
    + intros l' ds [? ->]. split; [done|constructor].
  - eapply pewp_gives; [apply pewp_ewp; eapply (dispatch_ewp eB _ _ _ (λ l' ds, receiver (n_sub s) R l' ∧
      report_dgs ((R - 1) mod MAX_PACKET_SEQ) ds)); [apply HB| |]|].
    + unfold dg_type in Hty. simpl. rewrite Hty. right. left.
    + apply (SeqCheckAck_ewp eB _ _ _ _ HB'); [done|simpl; unfold LEN_PACKET_HEAD; lia|].
      by rewrite packet_of_data.
    + intros l' ds [? ?]. split; [done|]. apply (reports_fromB _ _ c); [done|lia..].
  - eapply pewp_gives; [apply pewp_ewp, (dispatch_alive_ewp eB _ d); [apply HB|done]|].
    intros l' ds [(l1&H1&H2) Hds]. split; [|by apply alive_fromB].
    apply (receiver_timed _ _ l1); [by apply (receiver_timed _ _ l)|done].
Qed.

Lemma to_A_inv s c R fuel T d t' :
  net_inv s c R → (T, d) ∈ n_fromB s → total (n_sub s) - T ≤ lifetime →
  recv_dispatch fuel (ep_link eA) (packet_of d) (n_A s) = Ret (tt, t') →
  ∃ c', net_inv (at_A s t' (n_send s) []) c' R.
Proof.
  intros HI Hin Hlife Hrun. pose proof HI as [_ [_ (lA&_&HA0)] _ HcR _ HfB Hok].
  rewrite Forall_forall in HfB. destruct (HfB _ Hin) as [HT Hd]. simpl in *.
  assert (∀ l, sender (n_sub s) c l → sender (n_sub s) c (set_lk_timeout (TV 0 (tv_usec (lk_timeout l))) l)) as Htm.
  { intros l Hl. eapply sender_timed; [exact Hl|left; by eexists]. }
  destruct Hd as [(a&Ha&Ha2&Hty&Hsq&Hdata)|[[Hty Hdata]|Hd]].
  - exists (Z.max c a). eapply net_A; [done|exact Hrun|]. intros l Hl. rewrite app_nil_r.
    eapply pewp_gives; [apply pewp_ewp; eapply (dispatch_ewp eA _ _ _ (λ l' ds, sender (n_sub s) (Z.max c a) l' ∧ ds = [])); [apply Hl| |]|].
    + unfold dg_type in Hty. simpl. rewrite Hty. right. right. left.
    + apply (SeqReportAck_ewp eA _ _ _ a (packet_of d) (Htm l Hl) Hsq); unfold lifetime in *; [lia..|].
      by apply report_time.
    + intros l' ds [? ->]. split; [split; [done|constructor]|]. split; [lia|done].
  - exists c. eapply net_A_same; [done|exact Hrun|]. intros l Hl.
    eapply pewp_gives; [apply pewp_ewp; eapply (dispatch_ewp eA _ _ _ (λ l' ds, sender (n_sub s) c l' ∧ resent (n_sub s) c ds)); [apply Hl| |]|].
    + unfold dg_type in Hty. simpl. rewrite Hty. right. right. right. left.
    + apply (SeqLackAck_ewp eA _ _ _ _ (Htm l Hl)). apply Forall_app. split; [done|]. apply Forall_drop, nonneg_zeros.
    + intros l' ds [? ?]. split; [|done]. split; [done|]. by apply (resent_fromA _ c); [|lia..].
  - exists c. eapply net_A_same; [done|exact Hrun|]. intros l Hl.
    eapply pewp_gives; [apply pewp_ewp, (dispatch_alive_ewp eA _ d); [apply Hl|done]|].
    intros l' ds [(l1&H1&H2) Hds]. split; [|done]. split; [|by apply alive_fromA].
    apply (sender_timed _ _ l1); [by apply (sender_timed _ _ l)|done].
Qed.

(** One step keeps the invariant. *)
Lemma nstep_inv s s' c R :
  id_ok eA → id_ok eB → net_inv s c R → nstep s s' → ∃ c' R', net_inv s' c' R'.
Proof.
  intros HA HB HI Hstep. destruct Hstep.
  all: try (exists c, R; first
    [by eapply send_begin_inv|by eapply send_turn_inv|by eapply send_wait_inv|by eapply read_begin_inv
    |by eapply read_turn_inv|by eapply read_wait_inv|by eapply check_A_inv|by eapply check_B_inv
    |by eapply to_B_inv]).
  - exists c, (R + 1). by eapply read_take_inv.
  - exists c, R. eapply timer_A_inv; [done|done|]. intros l _.
    eapply pewp_gives; [by apply setWaitTime_pewp|]. by intros l' ds [? ->].
  - exists c, R. eapply timer_B_inv; [done|done|]. intros l _.
    eapply pewp_gives; [by apply setWaitTime_pewp|]. by intros l' ds [? ->].
  - exists c, R. eapply timer_A_inv; [done|done|]. intros l Hl. by apply listen_link_gives.
  - exists c, R. eapply timer_B_inv; [done|done|]. intros l Hl. by apply listen_link_gives.
  - edestruct to_A_inv as [c' Hc']; [done..|]. by exists c', R.
Qed.
End network.

(** Two connections that were just set up, and nothing under way. *)
Record connected (l : s_link) : Prop := {
  cn_state : linkState l = 2;
  cn_prio : PrioritySendLack l = 0;
  cn_seq : SeqRead l = 1 ∧ SeqMaxSend l = 1 ∧ SeqCheckSend l = 0;
  cn_readmax : 0 ≤ SeqReadMax l < MAX_PACKET_SEQ;
  cn_len : length (paArraySend l) = Z.to_nat MAX_PACKET_NUMBER ∧
    length (paArrayRecv l) = Z.to_nat MAX_PACKET_NUMBER;
  cn_empty : Forall (λ pa, pa_len pa = 0) (paArrayRecv l);
}.
#[export] Instance connected_dec l : Decision (connected l).
Proof.
  refine (cast_if (decide (linkState l = 2 ∧ PrioritySendLack l = 0 ∧
    (SeqRead l = 1 ∧ SeqMaxSend l = 1 ∧ SeqCheckSend l = 0) ∧
    (0 ≤ SeqReadMax l < MAX_PACKET_SEQ) ∧
    (length (paArraySend l) = Z.to_nat MAX_PACKET_NUMBER ∧
     length (paArrayRecv l) = Z.to_nat MAX_PACKET_NUMBER) ∧
    Forall (λ pa, pa_len pa = 0) (paArrayRecv l)))).
  - abstract (destruct_and!; by split).
  - abstract (intros []; tauto).
Defined.

Definition start {L} (A B : udp L) : net L := Net A B [] [] None None [] [].

Lemma connected_readable l n : connected l → readable l n = false.
Proof.
  intros HC. unfold readable.
  replace (pa_len _) with 0; [by rewrite andb_false_r|].
  unfold slot. destruct (paArrayRecv l !! slot_index n) as [pa|] eqn:E; [|done]. simpl.
  symmetry. pose proof (cn_empty _ HC) as HE. rewrite Forall_lookup in HE. by eapply HE.
Qed.

Lemma start_inv {L} (A B : udp L) eA eB :
  serves eA A connected → serves eB B connected → net_inv eA eB (start A B) 0 1.
Proof.
  intros [HsA (lA&HlA&HA)] [HsB (lB&HlB&HB)]. split; simpl; try done.
  - split; [done|]. exists lA. split; [done|]. destruct HA as [? ? [? []] ? [] ?].
    split; try done. unfold total. intros n. simpl. lia.
  - split; [done|]. exists lB. split; [done|].
    pose proof (connected_readable lB) as Hr. pose proof HB as [? ? [? []] ? [] ?].
    split; try done. intros n _. by rewrite Hr.
Qed.

(** C1: reliable delivery, in one direction of a connection.  Two ends that
    were just connected, over a network that may lose, repeat and reorder the
    datagrams sent from then on, one end in [exSend], the other in [exRecv],
    with any wait times: whatever was read is a prefix of what was submitted, so
    nothing is lost, repeated, reordered or altered on the way to the reader, and
    at most 509 packets are unacknowledged.  This needs that no datagram is
    delivered when more than [lifetime] = 1023 packets have been submitted since
    it was sent, because the sequence numbers wrap around, and that no datagram
    of the connection set-up arrives any more ([old_request_rereads]). *)
Theorem udp_delivery {L} `{Clist L} eA eB (A B : udp L) (s : net L) :
  id_ok eA → id_ok eB → serves eA A connected → serves eB B connected →
  rtc (nstep eA eB) (start A B) s →
  n_del s `prefix_of` n_sub s ∧
  ∃ c, serves eA (n_A s) (sender (n_sub s) c) ∧ total (n_sub s) ≤ c + 509.
Proof.
  intros HeA HeB HA HB Hsteps. pose proof (start_inv _ _ _ _ HA HB) as HI. revert HI.
  generalize 0, 1. induction Hsteps as [s|s s1 s2 Hstep _ IH]; intros c R HI.
  - destruct HI as [Hdel HsA _ HcR _ _ _]. split; [|exists c; split; [done|lia]].
    rewrite Hdel. apply prefix_take.
  - destruct (nstep_inv _ _ _ _ _ _ HeA HeB HI Hstep) as (c'&R'&HI'). by eapply IH.
Qed.

(** ** A run: handshake, two packets that arrive in the wrong order *)
Module run.
Local Abbreviation st := (udp (gmap Z list_head)).
Definition one_link : LinkMalloc := λ _, 77.
#[local] Existing Instance one_link.

(** A socket as [exSocket] leaves it, but with one id. *)
Definition fresh (sock : Z) : st :=
  Udp (Sock true 1 0 sock (-1) (-1) 0 zero_tv zero_tv sts_list 0 0 0 0 1 ∅ ∅) ∅
    (list_push_back listIDAllocationHead (stIDListAllocation 0)
      (list_init listIDAllocationHead (list_init listFreeHead (list_init sts_list ∅))))
    1000 5 (λ _, TV 1 0) 0 (λ _, true) 0 (λ _, true) 0 [] [] 1.

Definition after {A} (m : M st A) (t : st) : st :=
  match m t with Ret (_, t') => t' | _ => t end.
Definition returns {A} `{EqDecision A} (r : A) (m : M st A) (t : st) : bool :=
  match m t with Ret (r', _) => bool_decide (r' = r) | _ => false end.
#[local] Instance turn_eq_dec {A R} `{EqDecision A, EqDecision R} : EqDecision (turn A R).
Proof. solve_decision. Defined.
Lemma returns_after {A} `{EqDecision A} (r : A) m t :
  returns r m t = true → m t = Ret (r, after m t).
Proof.
  unfold returns, after. destruct (m t) as [[r' t']| | | | |]; [|done..].
  intros ->%bool_decide_eq_true. done.
Qed.

(** An equation [m t = Ret (r, after m t)], by evaluating [returns]. *)
Ltac ran :=
  match goal with |- ?m ?t = Ret (?r, _) => refine (returns_after r m t _); vm_compute; reflexivity end.

Definition no_dg : datagram := Datagram 0 0 zero_head [].
Definition nth_out (t : st) (i : nat) : s_packet_all := packet_of (nth i (u_out t) no_dg).
Definition syn : s_packet_all := Packet (Head LINK_SYN 0 1 1 EX_UDP_VER) (pa_buf zero_packet) 8.

Definition B0 : st := after (thread_recv_packet 5 100 200 syn) (fresh 2).
Definition A1 : st := after (thread_recv_packet 5 101 200 (nth_out B0 0)) (fresh 1).
Definition B1 : st := after (thread_recv_packet 5 100 200 (nth_out A1 0)) B0.

Definition eA : endpoint := Endpoint 77 1 (Z.shiftl 1 16).
Definition eB : endpoint := Endpoint 77 2 (Z.shiftl 2 16).

Definition open_sock_b (e : endpoint) (s : st_sock) : bool :=
  ss_inArray s && (ss_linkState s =? 1) && (ss_socket s =? ep_sock e)
  && bool_decide (pLinkIDArray s !! Z.land (ep_id e) MAX_LINK_COUNT = Some (ep_link e))
  && (ss_msgid s =? -1).
Lemma open_sock_b_ok e s : open_sock_b e s = true → open_sock e s.
Proof.
  unfold open_sock_b. rewrite !andb_true_iff, !Z.eqb_eq, bool_decide_eq_true.
  intros ((((?&?)&?)&?)&?). by split.
Qed.
Definition connected_b (e : endpoint) (t : st) : bool :=
  open_sock_b e (u_sock t)
  && match u_links t !! ep_link e with Some l => bool_decide (connected l) | None => false end.
Lemma connected_b_ok e t : connected_b e t = true → serves e t connected.
Proof.
  unfold connected_b. rewrite andb_true_iff. intros [H1%open_sock_b_ok H2]. split; [done|].
  destruct (u_links t !! ep_link e) as [l|]; [|done]. exists l.
  by apply bool_decide_eq_true in H2.
Qed.

(** Both ends are connected after the three packets of the handshake. *)
Lemma handshake : serves eA A1 connected ∧ serves eB B1 connected.
Proof. split; apply connected_b_ok; vm_compute; reflexivity. Qed.

(** The states of the sender: two calls of [exSend]. *)
Definition data1 : list Z := [1; 2].
Definition data2 : list Z := [3].
Definition begin_send (data : list Z) : M st (option (Z * list Z)) :=
  exSend_begin (ep_id eA) (Some data) (Z.of_nat (length data)).
Definition A2 : st := after (begin_send data1) A1.
Definition A3 : st := after (exSend_turn 77 2 (2, data1)) A2.
Definition A4 : st := after (exSend_turn 77 2 (0, [])) A3.
Definition A5 : st := after (begin_send data2) A4.
Definition A6 : st := after (exSend_turn 77 1 (1, data2)) A5.
Definition A7 : st := after (exSend_turn 77 1 (0, [])) A6.
Definition D1 : datagram := nth 1 (u_out A7) no_dg.
Definition D2 : datagram := nth 2 (u_out A7) no_dg.
(** The second packet arrives, a read waits for the first, which arrives; both
    are read. *)
Definition B2 : st := after (recv_dispatch 2 77 (packet_of D2)) B1.
Definition B3 : st := after (exRecv_begin (ep_id eB) false) B2.
Definition B4 : st := after (exRecv_turn 511 77) B3.
Definition B5 : st := after (exRecv_wait (Z.land (ep_id eB) MAX_LINK_COUNT) 77 false) B4.
Definition B6 : st := after (recv_dispatch 2 77 (packet_of D1)) B5.
Definition B6' : st := after (exRecv_turn 511 77) B6.
Definition B7 : st := after (exRecv_take 77) B6'.
Definition B8 : st := after (exRecv_begin (ep_id eB) false) B7.
Definition B8' : st := after (exRecv_turn 511 77) B8.
Definition B9 : st := after (exRecv_take 77) B8'.

(** The steps of such a run, whatever its states are. *)
Abbreviation nt := (net (gmap Z list_head)).
Abbreviation again := (Again (0, []) : turn (Z * list Z) Z).

Section script.
Context (a1 a2 a3 a4 a5 a6 a7 b1 b2 b3 b4 b5 b6 b6' b7 b8 b8' b9 : st) (d1 d2 : datagram).

Definition sending : nt :=
  let n1 := at_A (start a1 b1) a2 (Some (2, Trying (2, data1))) [] in
  let n2 := at_A n1 a3 (pair 2 <$> after_turn again) (submits (2, data1) again) in
  let n3 := at_A n2 a4 (pair 2 <$> after_turn (Done 2 : turn (Z * list Z) Z)) (submits (0, []) (Done 2 : turn (Z * list Z) Z)) in
  let n4 := at_A n3 a5 (Some (1, Trying (1, data2))) [] in
  let n5 := at_A n4 a6 (pair 1 <$> after_turn again) (submits (1, data2) again) in
  at_A n5 a7 (pair 1 <$> after_turn (Done 1 : turn (Z * list Z) Z)) (submits (0, []) (Done 1 : turn (Z * list Z) Z)).

Definition reading_ (s : nt) : nt :=
  let n1 := at_B s b2 (n_read s) [] in
  let n2 := at_B n1 b3 (Some (Trying tt)) [] in
  let n3 := at_B n2 b4 (after_turn (WaitFor false tt : turn unit (option Z))) [] in
  let n4 := at_B n3 b5 (after_wait (inl tt : unit + option Z)) [] in
  let n5 := at_B n4 b6 (n_read n4) [] in
  let n6 := at_B n5 b7 None [data1] in
  let n7 := at_B n6 b8 (Some (Trying tt)) [] in
  at_B n7 b9 None [data2].

Definition sends : Prop :=
  begin_send data1 a1 = Ret (Some (77, data1), a2) ∧
  exSend_turn 77 2 (2, data1) a2 = Ret (again, a3) ∧
  exSend_turn 77 2 (0, []) a3 = Ret (Done 2, a4) ∧
  begin_send data2 a4 = Ret (Some (77, data2), a5) ∧
  exSend_turn 77 1 (1, data2) a5 = Ret (again, a6) ∧
  exSend_turn 77 1 (0, []) a6 = Ret (Done 1, a7).

Definition reads : Prop :=
  recv_dispatch 2 77 (packet_of d2) b1 = Ret (tt, b2) ∧
  exRecv_begin (ep_id eB) false b2 = Ret (Some 77, b3) ∧
  exRecv_turn 511 77 b3 = Ret (WaitFor false tt, b4) ∧
  exRecv_wait (Z.land (ep_id eB) MAX_LINK_COUNT) 77 false b4 = Ret (inl tt, b5) ∧
  recv_dispatch 2 77 (packet_of d1) b5 = Ret (tt, b6) ∧
  exRecv_turn 511 77 b6 = Ret (Done None, b6') ∧
  exRecv_take 77 b6' = Ret ((2, data1), b7) ∧
  exRecv_begin (ep_id eB) false b7 = Ret (Some 77, b8) ∧
  exRecv_turn 511 77 b8 = Ret (Done None, b8') ∧
  exRecv_take 77 b8' = Ret ((1, data2), b9).

Lemma sends_steps : sends → rtc (nstep eA eB) (start a1 b1) sending.
Proof.
  intros (R1&R2&R3&R4&R5&R6).
  eapply rtc_l; [by eapply (step_send_begin _ _ _ data1)|].
  eapply rtc_l; [by eapply step_send_turn|].
  eapply rtc_l; [by eapply step_send_turn|].
  eapply rtc_l; [by eapply (step_send_begin _ _ _ data2)|].
  eapply rtc_l; [by eapply step_send_turn|].
  eapply rtc_l; [by eapply step_send_turn|].
  apply rtc_refl.
Qed.

Lemma reads_steps (s : nt) :
  reads → n_B s = b1 → n_read s = None → n_sub s = [data1; data2] →
  (1, d1) ∈ n_fromA s → (2, d2) ∈ n_fromA s → rtc (nstep eA eB) s (reading_ s).
Proof.
  intros (S1&S2&S3&S4&S5&S6&S7&S8&S9&S10) HB Hrd Hsub H1 H2.
  assert (∀ T, 0 ≤ T → total (n_sub s) - T ≤ lifetime) as Hlife.
  { intros T HT. rewrite Hsub. unfold total, lifetime. simpl. lia. }
  destruct s as [A B fA fB snd rd sub del]; simpl in *. subst B rd.
  eapply rtc_l; [eapply step_to_B; [exact H2|by apply Hlife|exact S1]|].
  eapply rtc_l; [by eapply step_read_begin|].
  eapply rtc_l; [eapply (step_read_turn _ _ _ 511); [done|done| |exact S3]; done|].
  eapply rtc_l; [by eapply step_read_wait|].
  eapply rtc_l; [eapply step_to_B; [exact H1|by apply Hlife|exact S5]|].
  eapply rtc_l; [eapply (step_read_take _ _ _ 511); [done|done|exact S6|exact S7]|].
  eapply rtc_l; [by eapply step_read_begin|].
  eapply rtc_l; [eapply (step_read_take _ _ _ 511); [done|done|exact S9|exact S10]|].
  apply rtc_refl.
Qed.
End script.

Lemma runs_A : sends A1 A2 A3 A4 A5 A6 A7.
Proof. unfold sends. split_and!; ran. Qed.
Lemma runs_B : reads B1 B2 B3 B4 B5 B6 B6' B7 B8 B8' B9 D1 D2.
Proof. unfold reads. split_and!; ran. Qed.
Definition sent : nt := sending A1 A2 A3 A4 A5 A6 A7 B1.
Definition final : nt := reading_ B2 B3 B4 B5 B6 B7 B8 B9 sent.

Lemma sent_A : n_fromA sent = [(1, D1); (2, D2)].
Proof. vm_compute. reflexivity. Qed.

Lemma steps : rtc (nstep eA eB) (start A1 B1) final.
Proof.
  transitivity sent; [exact (sends_steps _ _ _ _ _ _ _ _ runs_A)|].
  refine (reads_steps _ _ _ _ _ _ _ _ _ _ _ D1 D2 sent runs_B _ _ _ _ _).
  - exact eq_refl.
  - exact eq_refl.
  - exact eq_refl.
  - rewrite sent_A. left.
  - rewrite sent_A. right. left.
Qed.

Lemma idA : id_ok eA.
Proof. split; vm_compute; congruence. Qed.
Lemma idB : id_ok eB.
Proof. split; vm_compute; congruence. Qed.

(** The request that opened the connection, arriving once more after both
    packets were read: [SeqRead] goes back to 1, and when the first packet
    arrives again it is read again. *)
Definition C1 : st := after (recv_dispatch 2 77 syn) B9.
Definition C2 : st := after (recv_dispatch 2 77 (packet_of D1)) C1.
Lemma old_request_rereads :
  ∃ t, recv_dispatch 2 77 syn B9 = Ret (tt, C1) ∧
    recv_dispatch 2 77 (packet_of D1) C1 = Ret (tt, C2) ∧
    exRecv 511 (ep_id eB) false C2 = Ret ((2, data1), t).
Proof. exists (after (exRecv 511 (ep_id eB) false) C2). split_and!; ran. Qed.
End run.

Lemma udp_delivery_witness :
  (id_ok run.eA ∧ id_ok run.eB ∧ serves run.eA run.A1 connected ∧ serves run.eB run.B1 connected) ∧
  rtc (nstep run.eA run.eB) (start run.A1 run.B1) run.final ∧
  n_del run.final = [[1; 2]; [3]] ∧
  n_del run.final `prefix_of` n_sub run.final.
Proof.
  split; [exact (conj run.idA (conj run.idB run.handshake))|].
  split; [exact run.steps|]. split; [exact (eq_refl [[1; 2]; [3]])|].
  exact (proj1 (udp_delivery run.eA run.eB run.A1 run.B1 run.final run.idA run.idB
    (proj1 run.handshake) (proj2 run.handshake) run.steps)).
Defined.
