(* ===== verification/Links.v ===== *)
(** * Links: the connection table of src/udp/ex_udp.c is consistent

    The invariant [table] of the connection table of Socket.v: the list of
    connections, the ids that are in use and those that are free, the chains of
    each port.  The file proves that [exSocket_state] establishes it, that
    [get_link] finds or creates a connection and [del_list] removes one, both
    keeping it, and what happens when there is no memory or no free id. *)
From stdpp Require Import base tactics list numbers gmap fin_maps.
From S2P Require Import Prelude Lists Clist Udp Socket.
Local Open Scope Z_scope.

(** Addresses from here on are allocated; below are the heads and nodes in [st_sock]. *)
Definition HEAP : Z := 0x30000.
Ltac addr := unfold HEAP, sts_list, listFreeHead, listIDAllocationHead, stIDListAllocation,
  MAX_LINK_COUNT, NULL in *; lia.

Class LinkMallocLaws `{LinkMalloc} := {
  link_malloc_fresh m : link_malloc m ≠ NULL → HEAP ≤ link_malloc m ∧ m !! link_malloc m = None;
}.

(** ** Chains of one port *)

Fixpoint chain (m : gmap Z s_link) (p : Z) (ps : list Z) : Prop :=
  match ps with
  | [] => p = NULL
  | q :: ps => p = q ∧ ∃ l, m !! q = Some l ∧ chain m (same_port_next l) ps
  end.

Lemma chain_insert m p ps x l : x ∉ ps → chain m p ps → chain (<[x := l]> m) p ps.
Proof.
  revert p. induction ps as [|q ps IH]; intros p Hx; [done|].
  apply not_elem_of_cons in Hx as [? ?]. intros [-> (lq&Hq&Hc)]. split; [done|].
  exists lq. rewrite lookup_insert_ne by done. split; [done|by apply IH].
Qed.
Lemma chain_same m p ps x l l0 :
  m !! x = Some l0 → same_port_next l = same_port_next l0 →
  chain m p ps → chain (<[x := l]> m) p ps.
Proof.
  intros Hx Hn. revert p. induction ps as [|q ps IH]; intros p; [done|].
  intros [-> (lq&Hq&Hc)]. split; [done|]. destruct (decide (q = x)) as [->|].
  - exists l. rewrite lookup_insert_eq. split; [done|]. apply IH. congruence.
  - exists lq. rewrite lookup_insert_ne by done. split; [done|by apply IH].
Qed.
Lemma chain_in m p ps x : chain m p ps → x ∈ ps → is_Some (m !! x).
Proof.
  revert p. induction ps as [|q ps IH]; intros p; [set_solver|].
  intros [-> (lq&Hq&Hc)] [->|Hx]%elem_of_cons; [by eexists|by eapply IH].
Qed.
(** Changing the pointer at the end of the first part. *)
Lemma chain_snoc m p ps q qs l r rs :
  chain m p (ps ++ q :: qs) → NoDup (ps ++ [q]) → m !! q = Some l → q ∉ rs → chain m r rs →
  chain (<[q := set_same_port_next r l]> m) p (ps ++ q :: rs).
Proof.
  revert p. induction ps as [|x ps IH]; intros p; simpl.
  - intros [-> (lq&Hq&_)] _ Hl Hqr Hr. split; [done|].
    exists (set_same_port_next r l). rewrite lookup_insert_eq. split; [done|].
    by apply chain_insert.
  - intros [-> (lx&Hx&Hc)] [Hx1 Hnd]%NoDup_cons Hl Hqr Hr. split; [done|].
    exists lx. rewrite lookup_insert_ne by set_solver. split; [done|by apply IH].
Qed.
Lemma chain_tail m p ps q qs l :
  chain m p (ps ++ q :: qs) → m !! q = Some l → chain m (same_port_next l) qs.
Proof.
  revert p. induction ps as [|x ps IH]; intros p; simpl.
  - intros [-> (lq&Hq&Hc)] Hl. congruence.
  - intros [-> (lx&Hx&Hc)] Hl. by eapply IH.
Qed.

(** ** Stepping through the table operations *)

Section rules.
Context {L : Type} `{Clist L}.
Implicit Types (t : udp L) (l : s_link).

Lemma wp_link_at p l Q t : u_links t !! p = Some l → Q l t → wp (link_at p) Q t.
Proof. intros Hl HQ. by eapply wp_gets_opt. Qed.
Lemma link_at_eq p l t : u_links t !! p = Some l → link_at p t = Ret (l, t).
Proof. unfold link_at, gets_opt. by intros ->. Qed.
Lemma wp_link_set p f l Q t :
  u_links t !! p = Some l → Q tt (set_u_links (<[p := f l]> (u_links t)) t) → wp (link_set p f) Q t.
Proof. intros Hl HQ. eapply wp_modify_opt; [cbv beta; by rewrite Hl|done]. Qed.
End rules.

(** ** The invariant *)

Section table.
Context {L : Type} `{!Clist L, !ClistLaws L}.
Implicit Types (t : udp L) (l : s_link) (A : gmap Z (list Z)).

(** Lists: the connections, the free ids, the deleted connections. *)
Record lists_ok (lists : L) (m : gmap Z s_link) (links frees dead : list Z) (A : gmap Z (list Z)) : Prop := {
  lo_rep : clist_rep lists A;
  lo_links : A !! sts_list = Some links;
  lo_frees : A !! listIDAllocationHead = Some (stIDListAllocation <$> frees);
  lo_dead : A !! listFreeHead = Some dead;
  lo_fresh : ∀ n, HEAP ≤ n → m !! n = None → unlinked A n;
  lo_ids : ∀ id, 0 ≤ id ≤ MAX_LINK_COUNT → id ∉ frees → unlinked A (stIDListAllocation id);
}.

Record table_of (s : st_sock) (m : gmap Z s_link) (lists : L)
    (links frees dead : list Z) (ch : Z → list Z) : Prop := {
  tb_lists : ∃ A, lists_ok lists m links frees dead A;
  tb_live p : p ∈ links → HEAP ≤ p ∧ ∃ l, m !! p = Some l ∧ 0 ≤ lk_port l < PORT_ARRAY_SIZE ∧
    p ∈ ch (lk_port l) ∧ lk_socket l = ss_socket s ∧
    0 ≤ lk_id l ≤ MAX_LINK_COUNT ∧ pLinkIDArray s !! lk_id l = Some p;
  tb_ids id p : pLinkIDArray s !! id = Some p → p ∈ links ∧ ∃ l, m !! p = Some l ∧ lk_id l = id;
  tb_frees id : id ∈ frees → 0 ≤ id ≤ MAX_LINK_COUNT ∧ pLinkIDArray s !! id = None;
  tb_all id : 0 ≤ id ≤ MAX_LINK_COUNT → id ∈ frees ∨ is_Some (pLinkIDArray s !! id);
  tb_ports port : chain m (default NULL (pLinkPortArray s !! port)) (ch port);
  tb_chain port p : p ∈ ch port → p ∈ links ∧ ∃ l, m !! p = Some l ∧ lk_port l = port;
  tb_nodup port : NoDup (ch port);
  tb_ip port p q : p ∈ ch port → q ∈ ch port → lk_ip <$> m !! p = lk_ip <$> m !! q → p = q;
  tb_dead p : p ∈ dead → HEAP ≤ p ∧ ∃ l, m !! p = Some l ∧ linkState l = -1;
}.
Definition table t links frees dead ch : Prop :=
  table_of (u_sock t) (u_links t) (u_lists t) links frees dead ch.



(** Taking the first free id and adding a connection. *)
Lemma lists_create lists m links id frees dead A x l :
  lists_ok lists m links (id :: frees) dead A →
  0 ≤ id ≤ MAX_LINK_COUNT → HEAP ≤ x → m !! x = None →
  ∃ A', lists_ok (list_push_back sts_list x (list_erase (stIDListAllocation id) lists))
    (<[x := l]> m) (links ++ [x]) frees dead A'.
Proof.
  intros [H1 H2 H3 H4 H5 H6] Hid Hx Hm.
  pose proof (clist_erase_spec _ _ listIDAllocationHead [] (stIDListAllocation id) _ H1 H3) as HE.
  simpl in HE. set (A1 := <[stIDListAllocation id := []]> _) in HE.
  assert (Hu : ∀ n, n ≠ listIDAllocationHead → n ≠ stIDListAllocation id → unlinked A n → unlinked A1 n).
  { intros n Hn1 Hn2 Hu. pose proof (unlinked_low _ _ _ _ Hu Hn1 H3) as Hf.
    apply unlinked_insert; [apply unlinked_insert; [done|set_solver]|set_solver]. }
  assert (HA1 : ∀ k, k ≠ stIDListAllocation id → k ≠ listIDAllocationHead → A1 !! k = A !! k).
  { intros k ??. unfold A1. by rewrite !lookup_insert_ne. }
  assert (Hfin : ∀ n, n ≠ sts_list → n ≠ x → unlinked A n → unlinked A1 n →
    unlinked (<[sts_list:=links ++ [x]]> (delete x A1)) n).
  { intros n Hn1 Hn2 Hun Hun1. apply unlinked_insert; [by apply unlinked_del|].
    pose proof (unlinked_low _ _ _ _ Hun Hn1 H2). set_solver. }
  eexists. split.
  - apply (clist_push_back_spec _ _ sts_list links x HE).
    + rewrite HA1 by addr. done.
    + apply Hu; [addr|addr|by apply H5].
    + addr.
  - by rewrite lookup_insert_eq.
  - rewrite lookup_insert_ne, lookup_delete_ne by addr. unfold A1.
    rewrite lookup_insert_ne by addr. apply lookup_insert_eq.
  - by rewrite lookup_insert_ne, lookup_delete_ne, HA1 by addr.
  - intros n Hn [Hm' Hnx]%lookup_insert_None.
    apply Hfin; [addr|done|by apply H5|apply Hu; [addr|addr|by apply H5]].
  - intros id' Hid' Hf. destruct (decide (id' = id)) as [->|Hne].
    + apply unlinked_insert; [apply unlinked_del, (unlinked_rep _ _ _ HE), lookup_insert_eq|].
      assert (stIDListAllocation id ∉ sts_list :: links); [|set_solver by addr].
      assert (sts_list :: links ## listIDAllocationHead :: (stIDListAllocation <$> id :: frees)); [|set_solver].
      apply (clist_disjoint _ _ _ _ _ _ H1 H2 H3). addr.
    + apply Hfin; [addr|addr|apply H6; [done|set_solver]|].
      apply Hu; [addr|addr|apply H6; [done|set_solver]].
Qed.

(** ** Creating a connection *)

(** What [sts] keeps when a connection is created or removed. *)
Definition same_socket (s s' : st_sock) : Prop :=
  ss_socket s' = ss_socket s ∧ ss_linkState s' = ss_linkState s ∧ ss_msgid s' = ss_msgid s ∧
  ss_inArray s' = ss_inArray s.

Record new_link (s : st_sock) (ip port id : Z) (l : s_link) : Prop := {
  nl_addr : lk_ip l = ip ∧ lk_port l = port ∧ lk_socket l = ss_socket s ∧ lk_id l = id;
  nl_state : linkState l = 0 ∧ lk_accept l = 0 ∧ same_port_next l = NULL;
  nl_seq : SeqRead l = 1 ∧ SeqMaxSend l = 1 ∧ SeqCheckSend l = 0;
  nl_sems : semRecvListMutex l = 1 ∧ semSendListMutex l = 1;
  nl_arrays : SeqReadMax l = 0 ∧ paArrayRecv l = mark_first (paArrayRecv zero_link) ∧
    paArraySend l = mark_first (paArraySend zero_link);
}.

Definition created (t1 t' : udp L) (x id : Z) (l : s_link) : Prop :=
  u_links t' = <[x := l]> (u_links t1) ∧
  u_lists t' = list_push_back sts_list x (list_erase (stIDListAllocation id) (u_lists t1)) ∧
  pLinkIDArray (u_sock t') = <[id := x]> (pLinkIDArray (u_sock t1)) ∧
  pLinkPortArray (u_sock t') = pLinkPortArray (u_sock t1) ∧
  same_socket (u_sock t1) (u_sock t').

Lemma add_list_effect t id frees A x l :
  u_links t !! x = Some l → clist_rep (u_lists t) A →
  A !! listIDAllocationHead = Some (stIDListAllocation <$> id :: frees) →
  wp (add_list x) (λ r t', r = EX_UDP_OK ∧ semLink (u_sock t') = semLink (u_sock t) ∧ ∃ l', created t t' x id l' ∧
    lk_ip l' = lk_ip l ∧ lk_port l' = lk_port l ∧ lk_socket l' = lk_socket l ∧ lk_id l' = id ∧
    linkState l' = 0 ∧ lk_accept l' = lk_accept l ∧ same_port_next l' = same_port_next l ∧
    SeqRead l' = 1 ∧ SeqMaxSend l' = 1 ∧ SeqCheckSend l' = 0 ∧
    semRecvListMutex l' = 1 ∧ semSendListMutex l' = 1 ∧ SeqReadMax l' = SeqReadMax l ∧
    paArrayRecv l' = mark_first (paArrayRecv l) ∧ paArraySend l' = mark_first (paArraySend l)) t.
Proof.
  intros Hl Ho Hf. unfold add_list. wp_steps. rewrite (clist_empty_spec _ _ _ _ Ho Hf).
  rewrite fmap_cons, bool_decide_eq_false_2 by done. wp_steps.
  rewrite (clist_begin_spec _ _ _ _ Ho Hf).
  rewrite fmap_cons. simpl. replace (stIDListAllocation id - _) with id by addr.
  unfold lists_set, sts. wp_steps. eapply wp_link_set; [done|]. wp_steps.
  unfold gettimeofday at 1. unfold wp at 1. cbv beta.
  wp_steps. eapply wp_link_set; [simpl; apply lookup_insert_eq|]. unfold id_set, sts_post, sts_set.
  wp_steps. split; [done|]. split; [done|]. eexists. split.
  - unfold created, same_socket. simpl. rewrite insert_insert_eq. by split_and!.
  - simpl. by split_and!.
Qed.

End table.

Section create.
Context {L : Type} `{!Clist L, !ClistLaws L, !LinkMalloc, !LinkMallocLaws}.
Implicit Types (t : udp L) (l : s_link) (A : gmap Z (list Z)).

Definition opens (type : Z) : bool := (type =? LINK_SYN) || (type =? LINK_SYN_ACK).

Lemma create_link_effect (ip port type : Z) (store : Z → M (udp L) unit) t t1 id frees A :
  opens type = true → ss_linkState (u_sock t) = 1 → 0 < semLink (u_sock t) →
  let x := link_malloc (u_links t) in
  x ≠ NULL →
  store x (set_u_sock (set_semLink (semLink (u_sock t) - 1) (u_sock t)) t) = Ret (tt, t1) →
  u_lists t1 = u_lists t → same_socket (u_sock t) (u_sock t1) →
  semLink (u_sock t1) = semLink (u_sock t) - 1 → clist_rep (u_lists t) A →
  A !! listIDAllocationHead = Some (stIDListAllocation <$> id :: frees) →
  wp (create_link ip port type store) (λ r t', r = Some x ∧ semLink (u_sock t') = semLink (u_sock t) ∧
    ∃ l, created t1 t' x id l ∧ new_link (u_sock t) ip port id l) t.
Proof.
  intros Hty Hst Hsem x Hx Hstore Hl1 Hs1 Hsem1 HR Hf. unfold create_link.
  replace (negb (type =? LINK_SYN) && negb (type =? LINK_SYN_ACK)) with false
    by (rewrite <- negb_orb; fold (opens type); by rewrite Hty).
  unfold sts_wait, sts, sts_set. wp_steps. rewrite (proj2 (Z.leb_gt _ _)) by done. wp_steps.
  simpl. rewrite Hst. simpl. wp_steps. simpl. fold x.
  unfold wp at 1. rewrite Hstore. wp_steps. rewrite (proj2 (Z.eqb_neq _ _)) by done. wp_steps.
  eapply wp_mono; [eapply (add_list_effect _ id frees A)|].
  - simpl. apply lookup_insert_eq.
  - simpl. by rewrite Hl1.
  - done.
  - intros r t' [-> (Esem&l&(E1&E2&E3&E4&E5)&F)]. unfold sts_post, sts_set. wp_steps. simpl. wp_steps.
    split; [done|]. split; [simpl in *; lia|]. exists l. split.
    + unfold created. simpl in *. rewrite E1, insert_insert_eq. split_and!; try done.
    + simpl in *. destruct F as (?&?&?&?&?&?&?&?&?&?&?&?&?&?&?). by split; split_and!.
Qed.

End create.

(** ** The invariant after a creation *)

Section create_inv.
Context {L : Type} `{!Clist L, !ClistLaws L}.
Implicit Types (t : udp L) (l : s_link) (A : gmap Z (list Z)).


(** Connections up to their place in the chain. *)
Definition core (l : s_link) : s_link := set_same_port_next NULL l.
Definition relinked (m m1 : gmap Z s_link) (ps : list Z) : Prop :=
  core <$> m1 = core <$> m ∧ ∀ p, p ∉ ps → m1 !! p = m !! p.

Lemma core_fields l l1 : core l1 = core l →
  lk_ip l1 = lk_ip l ∧ lk_port l1 = lk_port l ∧ lk_id l1 = lk_id l ∧ lk_socket l1 = lk_socket l ∧
  linkState l1 = linkState l.
Proof. destruct l, l1. unfold core. simpl. intros [=]. by split_and!. Qed.
Lemma relinked_lookup m m1 ps p l : relinked m m1 ps → m !! p = Some l →
  ∃ l1, m1 !! p = Some l1 ∧ core l1 = core l.
Proof.
  intros [He _] Hp. assert (core <$> m1 !! p = Some (core l)) as Hc.
  { by rewrite <- lookup_fmap, He, lookup_fmap, Hp. }
  apply fmap_Some in Hc as (l1&?&?). by exists l1.
Qed.
Lemma relinked_sym m m1 ps : relinked m m1 ps → relinked m1 m ps.
Proof. intros [? Hp]. split; [done|]. intros p ?. symmetry. by apply Hp. Qed.
Lemma relinked_None m m1 ps p : relinked m m1 ps → m1 !! p = None → m !! p = None.
Proof.
  intros HR Hp. destruct (m !! p) as [l|] eqn:E; [|done].
  destruct (relinked_lookup _ _ _ _ _ HR E) as (?&?&_). congruence.
Qed.
Lemma relinked_ip m m1 ps p : relinked m m1 ps → lk_ip <$> m1 !! p = lk_ip <$> m !! p.
Proof.
  intros HR. destruct (m !! p) as [l|] eqn:E.
  - destruct (relinked_lookup _ _ _ _ _ HR E) as (l1&->&(Hi&_)%core_fields). simpl. by rewrite Hi.
  - destruct (m1 !! p) eqn:E1; [|done].
    destruct (relinked_lookup _ _ _ _ _ (relinked_sym _ _ _ HR) E1) as (?&?&_). congruence.
Qed.
Lemma relinked_refl m ps : relinked m m ps.
Proof. done. Qed.
Lemma relinked_one m ps q l n : m !! q = Some l → q ∈ ps →
  relinked m (<[q := set_same_port_next n l]> m) ps.
Proof.
  intros Hq Hin. split.
  - rewrite fmap_insert. apply insert_id. rewrite lookup_fmap, Hq. by destruct l.
  - intros p Hp. rewrite lookup_insert_ne; [done|]. congruence.
Qed.
Lemma chain_ext m m1 p ps : (∀ q, q ∈ ps → m1 !! q = m !! q) → chain m p ps → chain m1 p ps.
Proof.
  revert p. induction ps as [|q ps IH]; intros p He; [done|]. intros [-> (l&Hl&Hc)].
  split; [done|]. exists l. split; [rewrite He; [done|by left]|].
  apply IH; [|done]. intros r Hr. apply He. by right.
Qed.

Definition chain_set (ch : Z → list Z) (port : Z) (ps : list Z) (q : Z) : list Z :=
  if q =? port then ps else ch q.

(** The connections other than [ps] are kept up to their place in the chain. *)
Definition kept (ps : list Z) (m m1 : gmap Z s_link) : Prop :=
  ∀ p l, p ∉ ps → m !! p = Some l → ∃ l1, m1 !! p = Some l1 ∧ core l1 = core l.

Lemma table_create s s' m m1 lists links id frees dead ch port ip x l :
  table_of s m lists links (id :: frees) dead ch →
  0 ≤ port < PORT_ARRAY_SIZE → HEAP ≤ x → m !! x = None →
  (∀ p, p ∈ ch port → lk_ip <$> m !! p ≠ Some ip) →
  new_link s ip port id l → relinked m m1 (ch port) →
  chain (<[x := l]> m1) (default NULL (pLinkPortArray s' !! port)) (ch port ++ [x]) →
  (∀ q, q ≠ port → pLinkPortArray s' !! q = pLinkPortArray s !! q) →
  pLinkIDArray s' = <[id := x]> (pLinkIDArray s) → ss_socket s' = ss_socket s →
  table_of s' (<[x := l]> m1) (list_push_back sts_list x (list_erase (stIDListAllocation id) lists))
    (links ++ [x]) frees dead (chain_set ch port (ch port ++ [x])).
Proof.
  intros [T1 T2 T3 T4 T5 T6 T7 T8 T9 T10] Hport Hx Hmx Hip [(N1&N2&N3&N4) _ _ _] HR Hch Hpa Hids Hss.
  destruct T1 as (A&HA). destruct (T4 id) as [Hid Hidn]; [by left|].
  assert (Hmx1 : m1 !! x = None) by (by eapply relinked_None; [apply relinked_sym|]).
  assert (HNF : id ∉ frees).
  { destruct HA as [HA _ Hf _ _ _]. pose proof (clist_nodup _ _ _ _ HA Hf) as [_ Hn]%NoDup_cons.
    rewrite fmap_cons in Hn. apply NoDup_cons in Hn as [Hn _]. intros Hin. apply Hn. set_solver. }
  assert (Hlk : ∀ p lp, m !! p = Some lp → ∃ lp', <[x := l]> m1 !! p = Some lp' ∧ core lp' = core lp).
  { intros p lp Hp. rewrite lookup_insert_ne by congruence. by eapply relinked_lookup. }
  assert (Hips : ∀ p, p ≠ x → lk_ip <$> <[x := l]> m1 !! p = lk_ip <$> m !! p).
  { intros p Hp. rewrite lookup_insert_ne by done. by eapply relinked_ip. }
  assert (Hnx : ∀ q, x ∉ ch q).
  { intros q Hin. destruct (T7 _ _ Hin) as [_ (?&?&_)]. congruence. }
  split.
  - destruct (lists_create lists m1 links id frees dead A x l) as [A' HA']; [|done..|by exists A'].
    destruct HA as [? ? ? ? Hfr ?]. split; try done. intros n Hn Hm1. apply Hfr; [done|].
    by eapply relinked_None.
  - intros p [Hp| ->%list_elem_of_singleton]%elem_of_app.
    + destruct (T2 p Hp) as [? (lp&Hlp&Hpp&Hin&Hsk&Hpid&Harr)]. split; [done|].
      destruct (Hlk _ _ Hlp) as (lp'&?&(?&E1&E2&E3&_)%core_fields). exists lp'.
      rewrite E1, E2, E3, Hids, Hss, (lookup_insert_ne (pLinkIDArray s)) by congruence. split_and!; try done || lia.
      unfold chain_set. case_match; [|done]. rewrite elem_of_app. left.
      by replace port with (lk_port lp) by lia.
    + split; [done|]. exists l. rewrite lookup_insert_eq, N2, N3, N4, Hids, Hss, lookup_insert_eq.
      split_and!; try done || lia. unfold chain_set. rewrite Z.eqb_refl. set_solver.
  - intros id' p. rewrite Hids. intros [[<- <-]|[Hne Hp]]%lookup_insert_Some.
    + split; [set_solver|]. exists l. by rewrite lookup_insert_eq.
    + destruct (T3 _ _ Hp) as [? (lp&Hlp&<-)]. split; [set_solver|].
      destruct (Hlk _ _ Hlp) as (lp'&?&(_&_&?&_)%core_fields). by exists lp'.
  - intros id' Hin. destruct (T4 id') as [? ?]; [by right|]. split; [done|].
    rewrite Hids, lookup_insert_ne by congruence. done.
  - intros id' Hr. rewrite Hids. destruct (decide (id' = id)) as [->|].
    + right. rewrite lookup_insert_eq. by eexists.
    + rewrite lookup_insert_ne by done. destruct (T5 id' Hr) as [[?|?]%elem_of_cons|?]; [done|by left|by right].
  - intros q. unfold chain_set. destruct (Z.eqb_spec q port) as [->|Hq]; [done|].
    rewrite Hpa by done. apply (chain_ext m); [|done]. intros p Hp.
    rewrite lookup_insert_ne; [|intros ->; by eapply Hnx].
    apply HR. intros Hp'. destruct (T7 _ _ Hp) as [_ (?&?&?)], (T7 _ _ Hp') as [_ (?&?&?)]. congruence.
  - intros q p. unfold chain_set. destruct (Z.eqb_spec q port) as [->|Hq].
    + intros [Hp| ->%list_elem_of_singleton]%elem_of_app.
      * destruct (T7 _ _ Hp) as [? (lp&Hlp&<-)]. split; [set_solver|].
        destruct (Hlk _ _ Hlp) as (lp'&?&(_&?&_)%core_fields). by exists lp'.
      * split; [set_solver|]. exists l. by rewrite lookup_insert_eq.
    + intros Hp. destruct (T7 _ _ Hp) as [? (lp&Hlp&<-)]. split; [set_solver|].
      destruct (Hlk _ _ Hlp) as (lp'&?&(_&?&_)%core_fields). by exists lp'.
  - intros q. unfold chain_set. case_match; [|done]. apply NoDup_app. split_and!; [done| |apply NoDup_singleton].
    intros p Hp ->%list_elem_of_singleton. by eapply Hnx.
  - intros q p1 p2. unfold chain_set. destruct (Z.eqb_spec q port) as [->|Hq].
    + assert (Hnew : ∀ p, p ∈ ch port → lk_ip <$> <[x := l]> m1 !! p ≠ lk_ip <$> <[x := l]> m1 !! x).
      { intros p Hp. rewrite Hips, lookup_insert_eq by (intros ->; by eapply Hnx).
        simpl. rewrite N1. by apply Hip. }
      rewrite !elem_of_app, !list_elem_of_singleton. intros [Hp1| ->] [Hp2| ->] Heq; [|by edestruct Hnew..|done].
      rewrite (Hips p1), (Hips p2) in Heq by (intros ->; by eapply Hnx). by apply (T9 port).
    + intros Hp1 Hp2. rewrite (Hips p1), (Hips p2) by (intros ->; by eapply Hnx). by apply (T9 q).
  - intros p Hp. destruct (T10 _ Hp) as [? (lp&Hlp&<-)]. split; [done|].
    destruct (Hlk _ _ Hlp) as (lp'&?&(_&_&_&_&?)%core_fields). by exists lp'.
Qed.

End create_inv.

(** ** get_link *)

Section get_link.
Context {L : Type} `{!Clist L, !ClistLaws L, !LinkMalloc, !LinkMallocLaws}.
Implicit Types (t : udp L) (l : s_link) (A : gmap Z (list Z)).


Local Abbreviation walk ip port type := (λ pslink,
      l ← link_at pslink;
      if lk_ip l =? ip then mret (inr (Some pslink))
      else if same_port_next l =? NULL then
        r ← create_link ip port type (λ p, link_set pslink (set_same_port_next p));
        mret (inr r)
      else mret (inl (same_port_next l))).

Lemma walk_found fuel ip port type t ps x qs p l :
  chain (u_links t) p (ps ++ x :: qs) → (∀ q, q ∈ ps → lk_ip <$> u_links t !! q ≠ Some ip) →
  (∀ q, q ∈ ps ++ x :: qs → q ≠ NULL) → u_links t !! x = Some l → lk_ip l = ip →
  (length ps < fuel)%nat → loop fuel (walk ip port type) p t = Ret (Some x, t).
Proof.
  revert p fuel. induction ps as [|q ps IH]; intros p fuel Hc Hne Hnn Hx Hip Hf;
    (destruct fuel as [|fuel]; [simpl in Hf; lia|]); destruct Hc as [-> (lq&Hq&Hc)];
    simpl loop; apply bind_outcome; wp_steps; eapply wp_link_at; [exact Hq| |exact Hq|].
  - assert (lq = l) as -> by congruence. rewrite Hip, Z.eqb_refl. by wp_steps.
  - rewrite (proj2 (Z.eqb_neq (lk_ip lq) ip)).
    2:{ intros <-. apply (Hne q); [by left|]. by rewrite Hq. }
    rewrite (proj2 (Z.eqb_neq _ NULL)).
    2:{ intros HN. destruct ps as [|r ps]; destruct Hc as [Hr _]; eapply Hnn; [|by rewrite <- Hr| |by rewrite <- Hr]; set_solver. }
    wp_steps. apply IH; [done| | |done|done|simpl in Hf; lia].
    + intros r Hr. apply Hne. by right.
    + intros r Hr. apply Hnn. by right.
Qed.

Lemma walk_missing fuel ip port type t ps x p :
  chain (u_links t) p (ps ++ [x]) → (∀ q, q ∈ ps ++ [x] → lk_ip <$> u_links t !! q ≠ Some ip) →
  (∀ q, q ∈ ps ++ [x] → q ≠ NULL) → (length ps < fuel)%nat →
  loop fuel (walk ip port type) p t =
    create_link ip port type (λ p, link_set x (set_same_port_next p)) t.
Proof.
  revert p fuel. induction ps as [|q ps IH]; intros p fuel Hc Hne Hnn Hf;
    (destruct fuel as [|fuel]; [simpl in Hf; lia|]); destruct Hc as [-> (lq&Hq&Hc)];
    simpl loop; unfold mbind, M_bind; rewrite (link_at_eq _ _ _ Hq);
    (rewrite (proj2 (Z.eqb_neq (lk_ip lq) ip));
      [|intros <-; eapply Hne; [by left|by rewrite Hq]]).
  - simpl in Hc. rewrite Hc. simpl. by destruct (create_link _ _ _ _ _) as [[]| | | | |].
  - rewrite (proj2 (Z.eqb_neq _ NULL)).
    2:{ intros HN. destruct ps as [|r ps]; destruct Hc as [Hr _]; eapply Hnn; [|by rewrite <- Hr| |by rewrite <- Hr]; set_solver. }
    apply IH; [done| | |simpl in Hf; lia].
    + intros r Hr. apply Hne. by right.
    + intros r Hr. apply Hnn. by right.
Qed.

Lemma chain_null m ps : chain m NULL ps → (∀ q, q ∈ ps → q ≠ NULL) → ps = [].
Proof. destruct ps as [|q ps]; [done|]. intros [<- _] Hn. by edestruct Hn; [left|]. Qed.
Lemma chain_head m p q qs : chain m p (q :: qs) → p = q.
Proof. by intros [-> _]. Qed.

Lemma table_nonnull t links frees dead ch port q :
  table t links frees dead ch → q ∈ ch port → q ≠ NULL.
Proof.
  intros HT Hq. destruct (tb_chain _ _ _ _ _ _ _ HT _ _ Hq) as [Hl _].
  destruct (tb_live _ _ _ _ _ _ _ HT _ Hl) as [? _]. addr.
Qed.
Lemma port_at_eq port t : 0 ≤ port < PORT_ARRAY_SIZE →
  port_at port t = Ret (default NULL (pLinkPortArray (u_sock t) !! port), t).
Proof.
  intros Hp. unfold port_at, sts. unfold mbind at 1, M_bind, gets at 1.
  by rewrite (proj2 (Z.leb_le _ _)), (proj2 (Z.ltb_lt _ _)) by lia.
Qed.
Lemma port_set_eq port x t : 0 ≤ port < PORT_ARRAY_SIZE → x ≠ NULL →
  port_set port x t =
    Ret (tt, set_u_sock (set_pLinkPortArray (<[port := x]> (pLinkPortArray (u_sock t))) (u_sock t)) t).
Proof.
  intros Hp Hx. unfold port_set. rewrite (proj2 (Z.leb_le _ _)), (proj2 (Z.ltb_lt _ _)) by lia.
  simpl. by rewrite (proj2 (Z.eqb_neq _ _)) by done.
Qed.

(** A known peer. *)
Lemma get_link_known fuel ip port type t links frees dead ch x :
  table t links frees dead ch → 0 ≤ port < PORT_ARRAY_SIZE → (length (ch port) ≤ fuel)%nat →
  x ∈ ch port → lk_ip <$> u_links t !! x = Some ip →
  get_link fuel ip port type t = Ret (Some x, t).
Proof.
  intros HT Hp Hf Hx Hip. pose proof (tb_ports _ _ _ _ _ _ _ HT port) as Hc.
  pose proof (tb_nodup _ _ _ _ _ _ _ HT port) as Hnd.
  assert (Hnn : ∀ q, q ∈ ch port → q ≠ NULL) by (intros q; by apply (table_nonnull t links frees dead ch port)).
  assert (Hips : ∀ q, q ∈ ch port → lk_ip <$> u_links t !! q = Some ip → q = x).
  { intros q Hq Hqi. apply (tb_ip _ _ _ _ _ _ _ HT port); [done..|congruence]. }
  apply list_elem_of_split in Hx as (ps&qs&Hch). rewrite Hch in *.
  apply fmap_Some in Hip as (l&Hl&Hip).
  unfold get_link. unfold mbind at 1, M_bind. rewrite port_at_eq by done.
  rewrite (proj2 (Z.eqb_neq _ NULL)).
  2:{ intros HN. rewrite HN in Hc. apply chain_null in Hc; [by destruct ps|done]. }
  eapply walk_found; [exact Hc| |done|exact Hl|done|rewrite length_app in Hf; simpl in Hf; lia].
  intros q Hq Hqi. assert (q = x) as -> by (apply Hips; [set_solver|done]).
  apply NoDup_app in Hnd as (_&Hd&_). apply (Hd x Hq). by left.
Qed.

(** An unknown peer is up to [create_link]. *)
Lemma get_link_unknown fuel ip port type t links frees dead ch :
  table t links frees dead ch → 0 ≤ port < PORT_ARRAY_SIZE → (length (ch port) ≤ fuel)%nat →
  (∀ p, p ∈ ch port → lk_ip <$> u_links t !! p ≠ Some ip) →
  get_link fuel ip port type t =
    create_link ip port type (match last (ch port) with
      | None => port_set port
      | Some q => λ p, link_set q (set_same_port_next p)
      end) t.
Proof.
  intros HT Hp Hf Hno. pose proof (tb_ports _ _ _ _ _ _ _ HT port) as Hc.
  assert (Hnn : ∀ q, q ∈ ch port → q ≠ NULL) by (intros q; by apply (table_nonnull t links frees dead ch port)).
  unfold get_link. unfold mbind at 1, M_bind. rewrite port_at_eq by done.
  destruct (ch port) as [|q ps _] eqn:Ech using rev_ind.
  - simpl in Hc. rewrite Hc. done.
  - rewrite last_snoc. rewrite (proj2 (Z.eqb_neq _ NULL)).
    2:{ intros HN. rewrite HN in Hc. apply chain_null in Hc; [by destruct ps|done]. }
    apply (walk_missing _ _ _ _ _ ps); [done..|rewrite length_app in Hf; simpl in Hf; lia].
Qed.

(** The store of the new pointer links it at the end of its chain. *)
Lemma store_effect t links frees dead ch port x :
  table t links frees dead ch → 0 ≤ port < PORT_ARRAY_SIZE → x ≠ NULL → u_links t !! x = None →
  ∃ t1, (match last (ch port) with
         | None => port_set port
         | Some q => λ p, link_set q (set_same_port_next p)
         end) x t = Ret (tt, t1) ∧
    u_lists t1 = u_lists t ∧ same_socket (u_sock t) (u_sock t1) ∧
    semLink (u_sock t1) = semLink (u_sock t) ∧
    pLinkIDArray (u_sock t1) = pLinkIDArray (u_sock t) ∧
    (∀ q, q ≠ port → pLinkPortArray (u_sock t1) !! q = pLinkPortArray (u_sock t) !! q) ∧
    relinked (u_links t) (u_links t1) (ch port) ∧
    (∀ l, same_port_next l = NULL → chain (<[x := l]> (u_links t1))
      (default NULL (pLinkPortArray (u_sock t1) !! port)) (ch port ++ [x])).
Proof.
  intros HT Hp Hx Hm. pose proof (tb_ports _ _ _ _ _ _ _ HT port) as Hc.
  pose proof (tb_nodup _ _ _ _ _ _ _ HT port) as Hnd.
  assert (x ∉ ch port) as Hxp.
  { intros Hin. destruct (tb_chain _ _ _ _ _ _ _ HT _ _ Hin) as [_ (?&?&_)]. congruence. }
  destruct (ch port) as [|q ps _] eqn:Ech using rev_ind.
  - eexists. split; [by apply port_set_eq|]. simpl. split_and!; try done.
    + intros q Hq. by rewrite lookup_insert_ne.
    + intros l Hl. rewrite lookup_insert_eq. split; [done|]. exists l. by rewrite lookup_insert_eq.
  - rewrite last_snoc. destruct (chain_in _ _ _ q Hc) as [lq Hq]; [set_solver|].
    eexists. split; [unfold link_set, modify_opt; by rewrite Hq|]. simpl. split_and!; try done.
    + apply relinked_one; [done|set_solver].
    + intros l Hl. rewrite insert_insert_ne by set_solver. rewrite <- app_assoc.
      apply (chain_snoc _ _ ps q []); [|done|rewrite lookup_insert_ne by set_solver; done|set_solver|].
      * apply chain_insert; [done|exact Hc].
      * split; [done|]. exists l. by rewrite lookup_insert_eq.
Qed.

Lemma table_semLink t links frees dead ch n : table t links frees dead ch →
  table (set_u_sock (set_semLink n (u_sock t)) t) links frees dead ch.
Proof. intros []. by split. Qed.

(** Without memory NULL is stored at the end of the chain, where NULL is. *)
Lemma store_null t links frees dead ch port :
  table t links frees dead ch → 0 ≤ port < PORT_ARRAY_SIZE →
  ∃ t1, (match last (ch port) with
         | None => port_set port
         | Some q => λ p, link_set q (set_same_port_next p)
         end) NULL t = Ret (tt, t1) ∧
    table t1 links frees dead ch ∧ u_links t1 = u_links t ∧
    same_socket (u_sock t) (u_sock t1) ∧ semLink (u_sock t1) = semLink (u_sock t).
Proof.
  intros HT Hp. pose proof (tb_ports _ _ _ _ _ _ _ HT port) as Hc.
  destruct (ch port) as [|q ps _] eqn:Ech using rev_ind.
  - eexists. split; [unfold port_set; by rewrite (proj2 (Z.leb_le _ _)), (proj2 (Z.ltb_lt _ _)) by lia|].
    simpl. split_and!; try done. destruct HT as [? ? ? ? ? T6 ? ? ? ?]. split; try done. simpl. intros q.
    destruct (decide (q = port)) as [->|]; [by rewrite lookup_delete_eq, Ech|]. rewrite lookup_delete_ne by done. apply T6.
  - rewrite last_snoc. destruct (chain_in _ _ _ q Hc) as [lq Hq]; [set_solver|].
    pose proof (chain_tail _ _ _ _ _ _ Hc Hq) as Hn. simpl in Hn.
    assert (set_u_links (<[q := set_same_port_next NULL lq]> (u_links t)) t = t) as E.
    { rewrite insert_id; [by destruct t|]. rewrite Hq, <- Hn. by destruct lq. }
    exists t. split; [unfold link_set, modify_opt; rewrite Hq; simpl; by rewrite E|done].
Qed.

Lemma get_link_no_memory fuel ip port type t links frees dead ch :
  table t links frees dead ch → 0 ≤ port < PORT_ARRAY_SIZE →
  (length (ch port) ≤ fuel)%nat → (∀ p, p ∈ ch port → lk_ip <$> u_links t !! p ≠ Some ip) →
  opens type = true → ss_linkState (u_sock t) = 1 → 0 < semLink (u_sock t) →
  link_malloc (u_links t) = NULL →
  wp (get_link fuel ip port type) (λ r t', r = None ∧ table t' links frees dead ch ∧
    u_links t' = u_links t ∧ same_socket (u_sock t) (u_sock t') ∧ semLink (u_sock t') = semLink (u_sock t)) t.
Proof.
  intros HT Hp Hf Hno Hty Hst Hsem Hx.
  unfold wp. rewrite (get_link_unknown _ _ _ _ _ links frees dead ch) by done.
  destruct (store_null (set_u_sock (set_semLink (semLink (u_sock t) - 1) (u_sock t)) t)
    links frees dead ch port) as (t1&Hs&HT1&El&Es&Esem); [by apply table_semLink|done|].
  fold (wp (create_link ip port type
    (match last (ch port) with None => port_set port | Some q => λ p, link_set q (set_same_port_next p) end))
    (λ r t', r = None ∧ table t' links frees dead ch ∧
    u_links t' = u_links t ∧ same_socket (u_sock t) (u_sock t') ∧ semLink (u_sock t') = semLink (u_sock t)) t).
  unfold create_link.
  replace (negb (type =? LINK_SYN) && negb (type =? LINK_SYN_ACK)) with false
    by (rewrite <- negb_orb; fold (opens type); by rewrite Hty).
  unfold sts_wait, sts_post, sts, sts_set. wp_steps. rewrite (proj2 (Z.leb_gt _ _)) by done. wp_steps.
  simpl. rewrite Hst. simpl. wp_steps. simpl. rewrite Hx.
  unfold wp at 1. rewrite Hs. wp_steps. simpl.
  split_and!; [done|by apply table_semLink|done|exact Es|simpl in *; lia].
Qed.

Lemma get_link_new fuel ip port type t links id frees dead ch :
  table t links (id :: frees) dead ch → 0 ≤ port < PORT_ARRAY_SIZE →
  (length (ch port) ≤ fuel)%nat → (∀ p, p ∈ ch port → lk_ip <$> u_links t !! p ≠ Some ip) →
  opens type = true → ss_linkState (u_sock t) = 1 → 0 < semLink (u_sock t) →
  let x := link_malloc (u_links t) in
  x ≠ NULL →
  wp (get_link fuel ip port type) (λ r t', r = Some x ∧ same_socket (u_sock t) (u_sock t') ∧
    table t' (links ++ [x]) frees dead (chain_set ch port (ch port ++ [x])) ∧
    (∃ l, u_links t' !! x = Some l ∧ new_link (u_sock t) ip port id l) ∧
    semLink (u_sock t') = semLink (u_sock t) ∧ kept [x] (u_links t) (u_links t')) t.
Proof.
  intros HT Hp Hf Hno Hty Hst Hsem x Hx. destruct (link_malloc_fresh (u_links t) Hx) as [Hxh Hxm].
  fold x in Hxh, Hxm. unfold wp. rewrite (get_link_unknown _ _ _ _ _ links (id :: frees) dead ch) by done.
  destruct (store_effect (set_u_sock (set_semLink (semLink (u_sock t) - 1) (u_sock t)) t)
    links (id :: frees) dead ch port x) as (t1&Hs&E1&E2&Esem&E3&E4&E5&E6);
    [by apply table_semLink|done..|].
  destruct (tb_lists _ _ _ _ _ _ _ HT) as (A&[HR _ HF _ _ _]).
  eapply wp_mono; [by eapply (create_link_effect _ _ _ _ t t1 id frees A)|].
  intros r t' [-> (Esem'&l&(F1&F2&F3&F4&F5)&HN)]. split; [done|].
  split; [unfold same_socket in *; simpl in *; naive_solver congruence|]. split.
  - unfold table. rewrite F1, F2, E1. eapply table_create; [exact HT|done|done|done|exact Hno|exact HN|
      exact E5|rewrite F4; apply E6; apply HN| | |].
    + intros q Hq. rewrite F4. by apply E4.
    + by rewrite F3, E3.
    + rewrite (proj1 F5). by rewrite (proj1 E2).
  - split_and!; [exists l; by rewrite F1, lookup_insert_eq|done|].
    intros q lq Hq%not_elem_of_cons Hlq. rewrite F1, lookup_insert_ne by (symmetry; apply Hq).
    by eapply relinked_lookup.
Qed.

End get_link.

(** ** del_list *)

Section del_list.
Context {L : Type} `{!Clist L, !ClistLaws L}.
Implicit Types (t : udp L) (l : s_link) (A : gmap Z (list Z)).


Lemma lists_delete lists m m' ks p ks2 frees dead A id :
  lists_ok lists m (ks ++ p :: ks2) frees dead A → HEAP ≤ p →
  0 ≤ id ≤ MAX_LINK_COUNT → id ∉ frees → (∀ n, m' !! n = None → m !! n = None) → m' !! p ≠ None →
  ∃ A', lists_ok (list_push_back listIDAllocationHead (stIDListAllocation id)
      (list_push_back listFreeHead p (list_erase p lists)))
    m' (ks ++ ks2) (frees ++ [id]) (dead ++ [p]) A'.
Proof.
  intros [H1 H2 H3 H4 H5 H6] Hp Hid Hf Hm Hmp.
  pose proof (clist_erase_spec _ _ sts_list ks p ks2 H1 H2) as HE.
  set (A1 := <[p := []]> _) in HE.
  assert (HA1 : ∀ k, k ≠ p → k ≠ sts_list → A1 !! k = A !! k).
  { intros k ??. unfold A1. by rewrite !lookup_insert_ne. }
  assert (Hp1 : unlinked A1 p) by (apply (unlinked_rep _ _ _ HE), lookup_insert_eq).
  assert (HF : clist_rep (list_push_back listFreeHead p (list_erase p lists))
    (<[listFreeHead := dead ++ [p]]> (delete p A1))).
  { apply clist_push_back_spec; [done|rewrite HA1 by addr; done|done|addr]. }
  set (A2 := <[listFreeHead := _]> _) in HF.
  assert (HA2 : ∀ k, k ≠ p → k ≠ sts_list → k ≠ listFreeHead → A2 !! k = A !! k).
  { intros k ???. unfold A2. by rewrite lookup_insert_ne, lookup_delete_ne, HA1 by done. }
  assert (Hu : ∀ n, n ≠ sts_list → n ≠ listFreeHead → n ≠ p → unlinked A n → unlinked A2 n).
  { intros n Hn1 Hn2 Hn3 Hu. pose proof (unlinked_low _ _ _ _ Hu Hn1 H2).
    pose proof (unlinked_low _ _ _ _ Hu Hn2 H4).
    apply unlinked_insert; [apply unlinked_del, unlinked_insert;
      [apply unlinked_insert; [done|set_solver]|set_solver]|set_solver]. }
  assert (HI : clist_rep (list_push_back listIDAllocationHead (stIDListAllocation id)
      (list_push_back listFreeHead p (list_erase p lists)))
    (<[listIDAllocationHead := (stIDListAllocation <$> frees) ++ [stIDListAllocation id]]>
       (delete (stIDListAllocation id) A2))).
  { apply clist_push_back_spec; [done|rewrite HA2 by addr; done| |addr].
    apply Hu; [addr..|by apply H6]. }
  assert (Hfin : ∀ n, n ≠ sts_list → n ≠ listFreeHead → n ≠ p → n ≠ listIDAllocationHead →
    n ≠ stIDListAllocation id → unlinked A n →
    unlinked (<[listIDAllocationHead := (stIDListAllocation <$> frees) ++ [stIDListAllocation id]]>
       (delete (stIDListAllocation id) A2)) n).
  { intros n ??? Hn4 Hn5 Hun. pose proof (unlinked_low _ _ _ _ Hun Hn4 H3).
    apply unlinked_insert; [by apply unlinked_del, Hu|set_solver]. }
  eexists. split; [exact HI|..].
  - rewrite lookup_insert_ne, lookup_delete_ne by addr. unfold A2.
    rewrite lookup_insert_ne, lookup_delete_ne by addr. unfold A1.
    rewrite lookup_insert_ne by addr. apply lookup_insert_eq.
  - by rewrite lookup_insert_eq, fmap_app.
  - rewrite lookup_insert_ne, lookup_delete_ne by addr. apply lookup_insert_eq.
  - intros n Hn Hmn. apply Hfin; [addr|addr|congruence|addr|addr|by apply H5, Hm].
  - intros id' Hid' Hf'. rewrite elem_of_app, list_elem_of_singleton in Hf'.
    apply Hfin; [addr..| |apply H6; [done|tauto]].
    intros ?. apply Hf'. right. addr.
Qed.

(** The chain of a port without one of its connections. *)
Definition chain_del (ch : Z → list Z) (port p : Z) (q : Z) : list Z :=
  if q =? port then filter (.≠ p) (ch q) else ch q.

Lemma table_delete s s' m m1 lists ks p ks2 frees dead ch l l' :
  table_of s m lists (ks ++ p :: ks2) frees dead ch →
  m !! p = Some l → relinked m m1 (ch (lk_port l)) → linkState l' = -1 →
  (chain (<[p := l']> m1) (default NULL (pLinkPortArray s' !! lk_port l)) (chain_del ch (lk_port l) p (lk_port l))) →
  (∀ q, q ≠ lk_port l → pLinkPortArray s' !! q = pLinkPortArray s !! q) →
  pLinkIDArray s' = delete (lk_id l) (pLinkIDArray s) → ss_socket s' = ss_socket s →
  table_of s' (<[p := l']> m1) (list_push_back listIDAllocationHead (stIDListAllocation (lk_id l))
      (list_push_back listFreeHead p (list_erase p lists)))
    (ks ++ ks2) (frees ++ [lk_id l]) (dead ++ [p]) (chain_del ch (lk_port l) p).
Proof.
  intros HT Hl HR Hl' Hch Hpa Hids Hss. pose proof HT as [T1 T2 T3 T4 T5 T6 T7 T8 T9 T10].
  destruct T1 as (A&HA). destruct (T2 p) as [Hph (lp&Hlp&Hport&Hpin&_&Hid&Hidp)]; [set_solver|].
  assert (lp = l) as -> by congruence.
  assert (Hidf : lk_id l ∉ frees).
  { intros Hin. destruct (T4 _ Hin) as [_ ?]. congruence. }
  assert (Hnd : p ∉ ks ++ ks2).
  { destruct HA as [HA Hlk _ _ _ _]. pose proof (clist_nodup _ _ _ _ HA Hlk) as [_ Hn]%NoDup_cons.
    apply NoDup_app in Hn as (_&Hd&[? _]%NoDup_cons). specialize (Hd p). set_solver. }
  assert (Hlk : ∀ r lr, r ≠ p → m !! r = Some lr → ∃ lr', <[p := l']> m1 !! r = Some lr' ∧ core lr' = core lr).
  { intros r lr Hr ?. rewrite lookup_insert_ne by congruence. by eapply relinked_lookup. }
  assert (Hcd : ∀ q r, r ∈ chain_del ch (lk_port l) p q ↔ r ∈ ch q ∧ r ≠ p).
  { intros q r. unfold chain_del. destruct (Z.eqb_spec q (lk_port l)) as [->|Hq].
    - rewrite list_elem_of_filter. tauto.
    - split; [|tauto]. intros Hr. split; [done|]. intros ->. destruct (T7 _ _ Hr) as [_ (?&?&?)]. congruence. }
  split.
  - eapply (lists_delete lists m); [done|done|done|done| |by rewrite lookup_insert_eq].
    intros n [Hn _]%lookup_insert_None. by eapply relinked_None.
  - intros r Hr. assert (r ≠ p) by (intros ->; done).
    destruct (T2 r) as [? (lr&Hlr&Hpp&Hin&Hsk&Hrid&Harr)]; [set_solver|]. split; [done|].
    destruct (Hlk _ _ ltac:(done) Hlr) as (lr'&?&(?&E1&E2&E3&_)%core_fields). exists lr'.
    rewrite E1, E2, E3, Hids, Hss, Hcd, lookup_delete_ne by congruence. split_and!; done || lia.
  - intros id r. rewrite Hids. intros [Hne Hr]%lookup_delete_Some.
    destruct (T3 _ _ Hr) as [? (lr&Hlr&Hlri)]. assert (r ≠ p) by congruence. split; [set_solver|].
    destruct (Hlk _ _ ltac:(done) Hlr) as (lr'&?&(_&_&?&_)%core_fields). exists lr'. split; [done|congruence].
  - intros id Hin. rewrite Hids. rewrite elem_of_app, list_elem_of_singleton in Hin.
    destruct Hin as [Hin| ->]; [|split; [done|by rewrite lookup_delete_eq]].
    destruct (T4 _ Hin). split; [done|]. rewrite lookup_delete_ne; [done|congruence].
  - intros id Hr. rewrite Hids, elem_of_app, list_elem_of_singleton.
    destruct (decide (id = lk_id l)) as [->|]; [tauto|]. rewrite lookup_delete_ne by done.
    destruct (T5 id Hr); tauto.
  - intros q. destruct (decide (q = lk_port l)) as [->|Hq]; [done|]. unfold chain_del.
    rewrite (proj2 (Z.eqb_neq _ _)), Hpa by done. apply (chain_ext m); [|done].
    intros r Hr. assert (r ∉ ch (lk_port l)).
    { intros Hr'. destruct (T7 _ _ Hr) as [_ (?&?&?)], (T7 _ _ Hr') as [_ (?&?&?)]. congruence. }
    rewrite lookup_insert_ne by congruence. by apply HR.
  - intros q r [Hr ?]%Hcd. destruct (T7 _ _ Hr) as [? (lr&Hlr&<-)]. split; [set_solver|].
    destruct (Hlk _ _ ltac:(done) Hlr) as (lr'&?&(_&?&_)%core_fields). by exists lr'.
  - intros q. unfold chain_del. case_match; [by apply NoDup_filter|done].
  - intros q r1 r2 [Hr1 ?]%Hcd [Hr2 ?]%Hcd. rewrite !lookup_insert_ne by done.
    rewrite !(relinked_ip _ _ _ _ HR). by apply (T9 q).
  - intros r [Hr| ->%list_elem_of_singleton]%elem_of_app.
    + destruct (T10 _ Hr) as [? (lr&Hlr&Hst)]. split; [done|].
      destruct (decide (r = p)) as [->|Hne]; [exists l'; by rewrite lookup_insert_eq|].
      destruct (Hlk _ _ Hne Hlr) as (lr'&?&(_&_&_&_&?)%core_fields). exists lr'. split; [done|congruence].
    + split; [done|]. exists l'. by rewrite lookup_insert_eq.
Qed.

Lemma unlink_port_eq fuel t ps q p qs p0 l lq :
  chain (u_links t) p0 (ps ++ q :: p :: qs) → u_links t !! p = Some l → u_links t !! q = Some lq →
  (∀ r, r ∈ ps ++ [q] → lk_ip <$> u_links t !! r ≠ Some (lk_ip l)) → p ≠ NULL →
  (∀ r, r ∈ ps ++ [q] → r ≠ NULL) → (length ps < fuel)%nat →
  unlink_port fuel p0 (lk_ip l) (lk_socket l) t =
    Ret (tt, set_u_links (<[q := set_same_port_next (same_port_next l) lq]> (u_links t)) t).
Proof.
  unfold unlink_port. revert p0 fuel.
  induction ps as [|r ps IH]; intros p0 fuel Hc Hp Hq Hip Hpn Hnn Hf;
    (destruct fuel as [|fuel]; [simpl in Hf; lia|]); destruct Hc as [-> (lr&Hr&Hc)]; simpl loop.
  - assert (lr = lq) as -> by congruence. destruct Hc as [Hn _].
    unfold mbind, M_bind. rewrite (link_at_eq _ _ _ Hq).
    rewrite Hn, (proj2 (Z.eqb_neq _ _)), (link_at_eq _ _ _ Hp), !Z.eqb_refl by done. simpl.
    unfold link_set, modify_opt. by rewrite Hq.
  - destruct (ps ++ q :: p :: qs) as [|r2 rs] eqn:Ers; [by destruct ps|].
    pose proof (chain_head _ _ _ _ Hc) as Hr2.
    assert (r2 ∈ ps ++ [q]) as Hin by (destruct ps; simplify_list_eq; set_solver).
    destruct Hc as [_ (l2&Hl2&Hc)]. unfold mbind, M_bind. rewrite (link_at_eq _ _ _ Hr).
    rewrite Hr2, (proj2 (Z.eqb_neq _ NULL)), (link_at_eq _ _ _ Hl2) by (apply Hnn; by right).
    rewrite (proj2 (Z.eqb_neq (lk_ip l2) _)).
    2:{ intros He. apply (Hip r2); [by right|]. rewrite Hl2. simpl. by rewrite He. }
    simpl. apply IH; [|done|done| |done| |simpl in Hf; lia].
    + split; [done|]. by exists l2.
    + intros x Hx. apply Hip. by right.
    + intros x Hx. apply Hnn. by right.
Qed.

Lemma filter_ne (p : Z) (ps : list Z) : p ∉ ps → filter (.≠ p) ps = ps.
Proof.
  induction ps as [|q ps IH]; intros Hp; [done|].
  rewrite filter_cons_True by set_solver. by rewrite IH by set_solver.
Qed.
Lemma filter_out (p : Z) (ps qs : list Z) : NoDup (ps ++ p :: qs) → filter (.≠ p) (ps ++ p :: qs) = ps ++ qs.
Proof.
  intros (_&Hd&[Hq _]%NoDup_cons)%NoDup_app. rewrite filter_app, filter_cons_False by naive_solver.
  rewrite !filter_ne; [done|done|]. intros Hp. apply (Hd p Hp). by left.
Qed.

(** The port part of [del_list]. *)
Definition unlink_first (fuel : nat) (l : s_link) (sock : Z) : M (udp L) unit :=
  pLinkPort ← port_at (lk_port l);
  if pLinkPort =? NULL then mret tt
  else
    lp ← link_at pLinkPort;
    if (lk_ip lp =? lk_ip l) && (lk_socket lp =? sock)
    then port_set (lk_port l) (same_port_next lp)
    else unlink_port fuel pLinkPort (lk_ip l) sock.

Lemma unlink_first_effect fuel t links frees dead ch p l t0 :
  table t0 links frees dead ch → p ∈ links → u_links t !! p = Some l → (length (ch (lk_port l)) ≤ fuel)%nat →
  u_links t = u_links t0 → pLinkPortArray (u_sock t) = pLinkPortArray (u_sock t0) →
  ∃ t1, unlink_first fuel l (ss_socket (u_sock t0)) t = Ret (tt, t1) ∧
    u_lists t1 = u_lists t ∧ same_socket (u_sock t) (u_sock t1) ∧
    semLink (u_sock t1) = semLink (u_sock t) ∧
    pLinkIDArray (u_sock t1) = pLinkIDArray (u_sock t) ∧
    (∀ q, q ≠ lk_port l → pLinkPortArray (u_sock t1) !! q = pLinkPortArray (u_sock t) !! q) ∧
    relinked (u_links t) (u_links t1) (ch (lk_port l)) ∧ u_links t1 !! p = Some l ∧
    chain (u_links t1) (default NULL (pLinkPortArray (u_sock t1) !! lk_port l))
      (chain_del ch (lk_port l) p (lk_port l)).
Proof.
  intros HT Hp Hl Hf Hm Hpa.
  destruct (tb_live _ _ _ _ _ _ _ HT _ Hp) as [Hph (lp&Hlp&Hport&Hin&Hsk&_)].
  assert (lp = l) as -> by congruence. clear Hlp.
  pose proof (tb_ports _ _ _ _ _ _ _ HT (lk_port l)) as Hc.
  pose proof (tb_nodup _ _ _ _ _ _ _ HT (lk_port l)) as Hnd.
  assert (Hnn : ∀ q, q ∈ ch (lk_port l) → q ≠ NULL) by (intros q; by apply (table_nonnull t0 links frees dead ch (lk_port l))).
  assert (Hips : ∀ q, q ∈ ch (lk_port l) → lk_ip <$> u_links t !! q = Some (lk_ip l) → q = p).
  { intros q Hq Hqi. apply (tb_ip _ _ _ _ _ _ _ HT (lk_port l)); [done..|].
    by rewrite <- Hm, Hqi, Hl. }
  unfold chain_del. rewrite Z.eqb_refl, <- Hm, <- Hpa in *.
  unfold unlink_first. unfold mbind at 1, M_bind. rewrite port_at_eq by done.
  apply list_elem_of_split in Hin as (ps&qs&Hch). rewrite Hch in *. rewrite (filter_out _ _ _ Hnd).
  rewrite (proj2 (Z.eqb_neq _ NULL)).
  2:{ intros HN. rewrite HN in Hc. apply chain_null in Hc; [by destruct ps|done]. }
  destruct ps as [|q ps _] using rev_ind.
  - destruct Hc as [-> (l2&Hl2&Hc)]. assert (l2 = l) as -> by congruence.
    unfold mbind at 1, M_bind. rewrite (link_at_eq _ _ _ Hl), Hsk, !Z.eqb_refl. simpl.
    eexists. split; [unfold port_set; by rewrite (proj2 (Z.leb_le _ _)), (proj2 (Z.ltb_lt _ _)) by lia|].
    simpl. split_and!; try done.
    + intros q Hq. case_match; by rewrite ?lookup_insert_ne, ?lookup_delete_ne.
    + destruct (Z.eqb_spec (same_port_next l) NULL) as [E|E]; rewrite ?lookup_insert_eq, ?lookup_delete_eq;
        simpl; congruence || done.
  - rewrite <- !app_assoc in *. simpl in *.
    assert (∃ lq, u_links t !! q = Some lq) as [lq Hq] by (eapply (chain_in _ _ _ q Hc); set_solver).
    apply NoDup_app in Hnd as (Hnd1&Hd&[Hq1 [Hp1 Hnd2]%NoDup_cons]%NoDup_cons).
    assert (Hne : ∀ r, r ∈ ps ++ [q] → r ≠ p).
    { intros r Hr ->. apply elem_of_app in Hr as [Hr|Hr%list_elem_of_singleton]; [|set_solver].
      apply (Hd p Hr). set_solver. }
    destruct (ps ++ q :: p :: qs) as [|r0 rs] eqn:Ers; [by destruct ps|].
    assert (r0 ∈ ps ++ [q]) as Hr0 by (destruct ps; simplify_list_eq; set_solver).
    pose proof (chain_head _ _ _ _ Hc) as ->. destruct (chain_in _ _ _ r0 Hc) as [lr0 Hlr0]; [by left|].
    unfold mbind at 1, M_bind. rewrite (link_at_eq _ _ _ Hlr0).
    rewrite (proj2 (Z.eqb_neq (lk_ip lr0) _)).
    2:{ intros He. apply (Hne r0 Hr0), Hips; [by left|]. by rewrite Hlr0, <- He. }
    simpl. rewrite <- Ers in *. rewrite <- Hsk.
    eexists. split.
    { apply (unlink_port_eq _ _ ps q p qs); [|done|done| | | |].
      - rewrite <- (chain_head _ _ _ _ ltac:(rewrite <- Ers; exact Hc)). exact Hc.
      - intros r Hr He. apply (Hne r Hr), Hips; [set_solver|done].
      - apply Hnn. set_solver.
      - intros r Hr. apply Hnn. set_solver.
      - rewrite length_app in Hf. simpl in Hf. lia. }
    simpl. split_and!; try done.
    + apply relinked_one; [done|set_solver].
    + rewrite lookup_insert_ne; [done|]. apply Hne. set_solver.
    + eapply chain_snoc; [exact Hc| |done|set_solver|].
      * apply NoDup_app. split_and!; [done|set_solver|apply NoDup_singleton].
      * eapply (chain_tail _ _ (ps ++ [q])); [rewrite <- app_assoc; exact Hc|done].
Qed.

Lemma wp_SendMsg p pa (Q : Z * s_packet_all → udp L → Prop) t l :
  u_links t !! p = Some l →
  (∀ r t', u_links t' = u_links t → u_lists t' = u_lists t → u_sock t' = u_sock t → Q r t') →
  wp (SendMsg p pa LEN_PACKET_HEAD) Q t.
Proof.
  intros Hl HQ. unfold SendMsg. wp_steps. eapply wp_link_at; [done|]. simpl. wp_steps.
  unfold wp, sendto. cbv zeta. by destruct (u_sendok t (u_sends t)); apply HQ.
Qed.
Lemma wp_assoc {T1 T2 T3 : Type} (m : M (udp L) T1) (g : T1 → M (udp L) T2)
    (h : T2 → M (udp L) T3) Q t :
  wp (m ≫= g) (λ b, wp (h b) Q) t → wp m (λ a, wp (g a ≫= h) Q) t.
Proof.
  unfold wp at 1 3, mbind at 1, M_bind at 1. destruct (m t) as [[a t']| | | | |]; try done.
  intros Hg. by apply wp_bind.
Qed.

Lemma land_id id : 0 ≤ id ≤ MAX_LINK_COUNT → Z.land id MAX_LINK_COUNT = id.
Proof.
  intros Hid. change MAX_LINK_COUNT with (2 ^ 12 - 1) in *. rewrite land_pow2_mask by lia.
  apply Z.mod_small. lia.
Qed.

Lemma del_list_table fuel p t ks ks2 frees dead ch l :
  table t (ks ++ p :: ks2) frees dead ch → u_links t !! p = Some l → ss_msgid (u_sock t) = -1 →
  (length (ch (lk_port l)) ≤ fuel)%nat →
  wp (del_list fuel p) (λ r t', r = EX_UDP_OK ∧
    table t' (ks ++ ks2) (frees ++ [lk_id l]) (dead ++ [p]) (chain_del ch (lk_port l) p) ∧
    same_socket (u_sock t) (u_sock t') ∧ semLink (u_sock t') = semLink (u_sock t) ∧
    kept [p] (u_links t) (u_links t')) t.
Proof.
  intros HT Hl Hmsg Hf.
  destruct (tb_live _ _ _ _ _ _ _ HT p) as [Hph (lp&Hlp&_&_&_&Hid&Hidp)]; [set_solver|].
  assert (lp = l) as -> by congruence. clear Hlp.
  unfold del_list, sts, id_set, sts_set, lists_set, sts_post. wp_steps.
  eapply wp_link_at; [done|]. wp_steps.
  assert (u16 (lk_id l) = lk_id l) as -> by (apply u16_small; addr).
  rewrite land_id, Hidp, (proj2 (Z.ltb_ge _ _)) by (done || lia).
  rewrite bool_decide_eq_true_2 by (by eexists). simpl. wp_steps.
  eapply wp_SendMsg; [done|]. intros r t1 E1 E2 E3. rewrite Hmsg. simpl. wp_steps.
  apply wp_assoc. fold (unlink_first fuel l (ss_socket (u_sock t))). wp_steps.
  destruct (unlink_first_effect fuel (set_u_lists (list_erase p (u_lists t1))
    (set_u_sock (set_nextListenLink (clist_next p (u_lists t1))
      (set_pLinkIDArray (delete (lk_id l) (pLinkIDArray (u_sock t1))) (u_sock t1))) t1))
    (ks ++ p :: ks2) frees dead ch p l t) as (t2&Hu&F1&F2&Fsem&F3&F4&F5&F6&F7);
    [done|set_solver|simpl; congruence|done|done|simpl; congruence|].
  unfold wp at 1. match goal with |- match ?m with _ => _ end =>
    replace m with (Ret (tt, t2)) by (symmetry; exact Hu) end.
  simpl in F1, F2, F3, F4, F5. unfold sem_post. wp_steps.
  do 4 (eapply wp_link_set; [simpl; rewrite ?lookup_insert_eq; done|]; wp_steps).
  unfold wp at 1, gettimeofday.
  do 2 (wp_steps; eapply wp_link_set; [simpl; rewrite ?lookup_insert_eq; done|]).
  wp_steps. split; [done|]. simpl. rewrite !insert_insert_eq.
  destruct F2 as (G1&G2&G3&G4). simpl in *.
  rewrite E1 in F5. rewrite E3 in F3, F4, G1, G2, G3, G4, Fsem.
  split_and!; [|unfold same_socket; simpl; by split_and!|done|].
  2:{ intros q lq Hq%not_elem_of_cons Hlq. rewrite lookup_insert_ne by (symmetry; apply Hq).
      by eapply relinked_lookup. }
  unfold table. simpl. rewrite F1, E2. eapply (table_delete (u_sock t) _ (u_links t) (u_links t2)); try done.
  eapply (chain_same _ _ _ _ _ l); [done|done|exact F7].
Qed.

(** ** A new socket *)

Definition new_lists (ids : list Z) : gmap Z (list Z) :=
  <[listIDAllocationHead := stIDListAllocation <$> ids]> {[listFreeHead := []; sts_list := []]}.

Lemma new_lists_unlinked ids n :
  n ≠ sts_list → n ≠ listFreeHead → n ≠ listIDAllocationHead → n ∉ stIDListAllocation <$> ids →
  unlinked (new_lists ids) n.
Proof.
  intros H1 H2 H3 Hn hd xs. unfold new_lists.
  rewrite !lookup_insert_Some, lookup_singleton_Some. intros Hhd Hin.
  destruct Hhd as [[<- <-]|[_ [[<- <-]|[_ [<- <-]]]]]; set_solver.
Qed.

Lemma new_lists_push (lists : L) ids ns :
  clist_rep lists (new_lists ids) → NoDup (ids ++ ns) → Forall (λ id, 0 ≤ id ≤ MAX_LINK_COUNT) ns →
  clist_rep (foldl (λ lists i, list_push_back listIDAllocationHead (stIDListAllocation i) lists) lists ns)
    (new_lists (ids ++ ns)).
Proof.
  revert lists ids. induction ns as [|n ns IH]; intros lists ids HR Hnd Hns; [by rewrite app_nil_r|].
  simpl. apply Forall_cons in Hns as [Hn Hns].
  rewrite (cons_middle n ids ns), app_assoc in Hnd |- *. apply IH; [|done|done].
  assert (Hin : n ∉ ids).
  { apply NoDup_app in Hnd as [(_&Hd&_)%NoDup_app _]. intros Hi. by apply (Hd n Hi), list_elem_of_singleton. }
  assert (new_lists (ids ++ [n]) = <[listIDAllocationHead := (stIDListAllocation <$> ids) ++ [stIDListAllocation n]]>
    (delete (stIDListAllocation n) (new_lists ids))) as ->.
  { unfold new_lists. rewrite fmap_app, delete_id; [by rewrite insert_insert_eq|].
    rewrite !lookup_insert_ne, lookup_singleton_ne by addr. done. }
  apply clist_push_back_spec; [done|apply lookup_insert_eq| |addr].
  apply new_lists_unlinked; [addr..|]. intros (i&?&Hi)%list_elem_of_fmap.
  apply Hin. replace n with i; [done|addr].
Qed.

Lemma new_lists_init (lists : L) : clist_rep lists ∅ →
  clist_rep (list_init listIDAllocationHead (list_init listFreeHead (list_init sts_list lists))) (new_lists []).
Proof.
  intros HR. assert (He : ∀ (A : gmap Z (list Z)) n,
    (∀ hd xs, A !! hd = Some xs → xs = [] ∧ hd ≠ n) → unlinked A n).
  { intros A n HA hd xs Hhd Hin. destruct (HA _ _ Hhd) as [-> ?]. set_solver. }
  unfold new_lists. apply clist_init_spec; [apply clist_init_spec; [apply clist_init_spec|]|];
    [done|apply He..]; intros hd xs;
    rewrite ?insert_empty, ?lookup_insert_Some, ?lookup_singleton_Some, ?lookup_empty; naive_solver addr.
Qed.

Lemma foldl_seq (f : L → Z → L) (lists : L) ns :
  foldl (λ x i, f x (Z.of_nat i)) lists ns = foldl f lists (Z.of_nat <$> ns).
Proof. revert lists. induction ns as [|n ns IH]; intros lists; [done|]. apply IH. Qed.

Definition all_ids : list Z := Z.of_nat <$> seq 0 (Z.to_nat (MAX_LINK_COUNT + 1)).
Lemma elem_of_all_ids id : id ∈ all_ids ↔ 0 ≤ id ≤ MAX_LINK_COUNT.
Proof.
  unfold all_ids. rewrite list_elem_of_fmap. split.
  - intros (n&->&Hn%elem_of_seq). unfold MAX_LINK_COUNT in *. lia.
  - intros Hid. exists (Z.to_nat id). split; [lia|]. apply elem_of_seq. unfold MAX_LINK_COUNT in *. lia.
Qed.

Lemma new_socket_table sock wait (lists : L) m :
  clist_rep lists ∅ → m = ∅ →
  table_of (exSocket_state sock wait lists).1 m (exSocket_state sock wait lists).2 [] all_ids [] (λ _, []).
Proof.
  intros HR ->. unfold exSocket_state. cbv zeta. cbn [fst snd].
  rewrite (foldl_seq (λ x i, list_push_back listIDAllocationHead (stIDListAllocation i) x)).
  fold all_ids. pose proof elem_of_all_ids as Hin.
  assert (Hnd : NoDup all_ids) by (apply NoDup_fmap, NoDup_seq; intros ??; lia).
  revert Hin Hnd. generalize all_ids as ids. intros ids Hin Hnd.
  split; cbn [pLinkIDArray pLinkPortArray].
  - exists (new_lists ids). split.
    + apply (new_lists_push _ []); [by apply new_lists_init|done|].
      apply Forall_forall. intros id. apply Hin.
    + done.
    + apply lookup_insert_eq.
    + done.
    + intros n Hn _. apply new_lists_unlinked; [addr..|]. intros (i&?&Hi%Hin)%list_elem_of_fmap. addr.
    + intros id Hid Hf. destruct Hf. by apply Hin.
  - set_solver.
  - intros id p. by rewrite lookup_empty.
  - intros id Hid%Hin. by rewrite lookup_empty.
  - intros id Hid. left. by apply Hin.
  - intros port. rewrite lookup_empty. constructor.
  - set_solver.
  - constructor.
  - set_solver.
  - set_solver.
Qed.
End del_list.

(** ** Properties *)

(** C8: looking up a peer.  A known address and port gives its connection and
    changes nothing; an unknown one with a packet that cannot open a connection
    gives none; otherwise a connection in its initial state is created with the
    first free id, and the table stays consistent. *)
Theorem get_link_spec {L} `{!Clist L, !ClistLaws L, !LinkMalloc, !LinkMallocLaws}
    fuel ip port type (t : udp L) links frees dead ch :
  table t links frees dead ch → 0 ≤ port < PORT_ARRAY_SIZE → (length (ch port) ≤ fuel)%nat →
  (∀ x, x ∈ ch port → lk_ip <$> u_links t !! x = Some ip →
    get_link fuel ip port type t = Ret (Some x, t)) ∧
  ((∀ p, p ∈ ch port → lk_ip <$> u_links t !! p ≠ Some ip) →
    (opens type = false → get_link fuel ip port type t = Ret (None, t)) ∧
    (∀ id frees', frees = id :: frees' → opens type = true → ss_linkState (u_sock t) = 1 →
      0 < semLink (u_sock t) → link_malloc (u_links t) ≠ NULL →
      wp (get_link fuel ip port type) (λ r t', let x := link_malloc (u_links t) in
        r = Some x ∧ same_socket (u_sock t) (u_sock t') ∧
        table t' (links ++ [x]) frees' dead (chain_set ch port (ch port ++ [x])) ∧
        ∃ l, u_links t' !! x = Some l ∧ new_link (u_sock t) ip port id l) t)).
Proof.
  intros HT Hp Hf. split; [intros x Hx; by apply (get_link_known _ _ _ _ _ links frees dead ch)|].
  intros Hno. split.
  - intros Hty. rewrite (get_link_unknown _ _ _ _ _ links frees dead ch) by done.
    apply orb_false_iff in Hty as [E1 E2]. unfold create_link. by rewrite E1, E2.
  - intros id frees' -> ????. eapply wp_mono; [by eapply get_link_new|]. naive_solver.
Qed.

(** C9: deleting a connection takes it off the list, its port's chain and the id
    table, frees its id and queues it for release; every other connection keeps
    its id and its place. *)
Theorem del_list_spec {L} `{!Clist L, !ClistLaws L} fuel p (t : udp L) ks ks2 frees dead ch l :
  table t (ks ++ p :: ks2) frees dead ch → u_links t !! p = Some l → ss_msgid (u_sock t) = -1 →
  (length (ch (lk_port l)) ≤ fuel)%nat →
  wp (del_list fuel p) (λ r t', r = EX_UDP_OK ∧
    table t' (ks ++ ks2) (frees ++ [lk_id l]) (dead ++ [p]) (chain_del ch (lk_port l) p)) t.
Proof. intros. eapply wp_mono; [by eapply del_list_table|]. naive_solver. Qed.

(** C20: without a free id, [get_link] frees the connection it has just stored
    in the table of ports: the next packet from that port makes it read freed
    memory. *)
Theorem get_link_exhausted {L} `{!Clist L, !ClistLaws L, !LinkMalloc, !LinkMallocLaws}
    fuel ip port type (t : udp L) A :
  clist_rep (u_lists t) A → A !! listIDAllocationHead = Some [] →
  0 ≤ port < PORT_ARRAY_SIZE → pLinkPortArray (u_sock t) !! port = None →
  opens type = true → ss_linkState (u_sock t) = 1 → 0 < semLink (u_sock t) →
  link_malloc (u_links t) ≠ NULL →
  wp (get_link fuel ip port type) (λ r t', r = None ∧
    ∀ fuel' ip' type', get_link (S fuel') ip' port type' t' = Fault) t.
Proof.
  intros HR Hf Hp Hpa Hty Hst Hsem Hx. destruct (link_malloc_fresh (u_links t) Hx) as [_ Hxm].
  unfold get_link, create_link. wp_steps. unfold wp at 1. rewrite port_at_eq, Hpa by done. simpl.
  replace (negb (type =? LINK_SYN) && negb (type =? LINK_SYN_ACK)) with false
    by (rewrite <- negb_orb; fold (opens type); by rewrite Hty).
  unfold sts_wait, sts, sts_set. wp_steps. rewrite (proj2 (Z.leb_gt _ _)) by done. wp_steps.
  simpl. rewrite Hst. simpl. wp_steps. unfold wp at 1. rewrite port_set_eq by done.
  simpl. rewrite (proj2 (Z.eqb_neq _ _)) by done. unfold add_list. wp_steps. simpl.
  rewrite (clist_empty_spec _ _ _ _ HR Hf), bool_decide_eq_true_2 by done.
  unfold free_link. wp_steps. eapply wp_link_at; [simpl; apply lookup_insert_eq|].
  unfold sts_post, sts_set. wp_steps. simpl. wp_steps. split; [done|]. intros fuel' ip' type'.
  unfold mbind at 1, M_bind. rewrite port_at_eq by done. simpl. rewrite lookup_insert_eq. simpl.
  rewrite (proj2 (Z.eqb_neq _ _)) by done. apply bind_fault, bind_fault.
  unfold link_at, gets_opt. simpl. by rewrite lookup_delete_eq.
Qed.

(** The datagrams that [thread_recv] does not drop. *)
Definition acceptable (pa : s_packet_all) : Prop :=
  LEN_PACKET_HEAD ≤ pa_len pa ≤ MAX_PACKET_SIZE ∧
  LINK_SYN ≤ ph_type (pa_head pa) ≤ LINK_FIN ∧ ph_seq (pa_head pa) < MAX_PACKET_SEQ ∧
  (ph_type (pa_head pa) = LINK_SYN → ph_checksum (pa_head pa) = EX_UDP_VER).

(** [pLinkPortArray] has no entry for port 0xFFFF, and nothing excludes it:
    any well-formed datagram from that port makes the receiving thread read past
    the array, whatever the state of the socket. *)
Theorem thread_recv_last_port {L} `{!Clist L, !LinkMalloc} fuel ip pa (t : udp L) :
  ss_linkState (u_sock t) = 1 → acceptable pa → thread_recv_packet fuel ip 0xFFFF pa t = Fault.
Proof.
  intros Hst (Hlen&Hty&Hseq&Hver). unfold thread_recv_packet, sts.
  apply bind_outcome. wp_steps. rewrite Hst. simpl.
  rewrite (proj2 (Z.ltb_ge (pa_len pa) _)), (proj2 (Z.ltb_ge MAX_PACKET_SIZE _)),
    (proj2 (Z.ltb_ge _ LINK_SYN)), (proj2 (Z.ltb_ge LINK_FIN _)), (proj2 (Z.leb_gt _ _)) by lia.
  simpl. destruct (Z.eqb_spec (ph_type (pa_head pa)) LINK_SYN) as [E|E]; simpl;
    [rewrite Hver by done; simpl|]; by apply bind_fault.
Qed.

(** ** Witnesses *)

Module links_witness.
#[local] Instance above : LinkMalloc := map_fold (λ k _ a, Z.max a (k + 1)) HEAP.
#[local] Instance above_laws : LinkMallocLaws.
Proof.
  split. intros m _. unfold link_malloc, above.
  assert (∀ k, is_Some (m !! k) → k < map_fold (λ k _ a, Z.max a (k + 1)) HEAP m) as Hk.
  { apply (map_fold_weak_ind (λ r m, ∀ k, is_Some (m !! k) → k < r)).
    - intros k [l Hl]. by rewrite lookup_empty in Hl.
    - intros i x m' r _ IH k [l [[<- _]|[_ Hl]]%lookup_insert_Some]; [lia|].
      specialize (IH k ltac:(by eexists)). lia. }
  split.
  - apply (map_fold_weak_ind (λ r _, HEAP ≤ r)); [done|]. lia.
  - destruct (m !! _) as [l|] eqn:E; [|done]. specialize (Hk _ ltac:(by eexists)). lia.
Qed.

Local Abbreviation st := (udp (gmap Z list_head)).
Definition start_udp {L} (s : st_sock) (lists : L) : udp L :=
  Udp s ∅ lists 1000 5 (λ _, TV 1 0) 0 (λ _, true) 0 (λ _, true) 0 [] [] 1.
Lemma table_start {L} `{!Clist L, !ClistLaws L} s (lists : L) links frees dead ch :
  table_of s ∅ lists links frees dead ch → table (start_udp s lists) links frees dead ch.
Proof. done. Qed.
Definition socket (wait : Z) : st :=
  start_udp (exSocket_state 1 wait (∅ : gmap Z list_head)).1 (exSocket_state 1 wait (∅ : gmap Z list_head)).2.

Lemma empty_rep : clist_rep (∅ : gmap Z list_head) ∅.
Proof. split; [done|]. intros hd1 xs1 hd2 xs2. by rewrite lookup_empty. Qed.
Lemma socket_ok wait : table (socket wait) [] all_ids [] (λ _, []).
Proof. exact (table_start _ _ _ _ _ _ (new_socket_table 1 wait _ ∅ empty_rep eq_refl)). Qed.

(** A socket whose ids are used up. *)
Definition full : st :=
  start_udp (exSocket_state 1 0 (∅ : gmap Z list_head)).1 (list_init listIDAllocationHead ∅).
Lemma full_rep : clist_rep (u_lists full) (<[listIDAllocationHead := []]> ∅).
Proof.
  apply (clist_init_spec (L := gmap Z list_head)); [apply empty_rep|].
  intros hd xs. by rewrite lookup_empty.
Qed.

Lemma get_link_spec_witness :
  wp (get_link 5 100 200 LINK_SYN) (λ r t', r = Some (link_malloc ∅) ∧
    same_socket (u_sock (socket 0)) (u_sock t') ∧ table t' [link_malloc ∅] (tail all_ids) [] (chain_set (λ _, []) 200 [link_malloc ∅]) ∧
    ∃ l, u_links t' !! link_malloc ∅ = Some l ∧ new_link (u_sock (socket 0)) 100 200 0 l) (socket 0).
Proof.
  destruct (get_link_spec 5 100 200 LINK_SYN (socket 0) [] all_ids [] (λ _, []) (socket_ok 0)) as [_ Hnew];
    [by vm_compute|simpl; lia|].
  destruct Hnew as [_ Hnew]; [intros p Hp; by apply elem_of_nil in Hp|].
  apply (Hnew 0 (tail all_ids)); [vm_compute; reflexivity|done|done|by vm_compute|by vm_compute].
Defined.

(** The connection just created, deleted. *)
Lemma del_list_spec_witness : ∃ t x l,
  table t ([] ++ x :: []) (tail all_ids) [] (chain_set (λ _, []) 200 [x]) ∧ u_links t !! x = Some l ∧
  wp (del_list 5 x) (λ r t', r = EX_UDP_OK ∧
    table t' [] (tail all_ids ++ [lk_id l]) [x] (chain_del (chain_set (λ _, []) 200 [x]) (lk_port l) x)) t.
Proof.
  destruct (proj1 (wp_run _ _ _) (get_link_new 5 100 200 LINK_SYN (socket 0) [] 0 (tail all_ids) []
    (λ _, []) ltac:(exact (socket_ok 0)) ltac:(by vm_compute) ltac:(simpl; lia)
    ltac:(intros p Hp; by apply elem_of_nil in Hp) ltac:(done) ltac:(done) ltac:(by vm_compute)
    ltac:(by vm_compute))) as (r&t&_&_&Hs&HT&(l&Hl&HN)&_).
  exists t, (link_malloc ∅), l. split; [exact HT|]. split; [exact Hl|].
  apply (del_list_spec 5 _ t [] [] (tail all_ids) [] _ l HT Hl).
  - destruct Hs as (_&_&->&_). exact eq_refl.
  - destruct (nl_addr _ _ _ _ _ HN) as (_&->&_). simpl. lia.
Defined.

Lemma get_link_exhausted_witness :
  wp (get_link 5 100 200 LINK_SYN) (λ r t', r = None ∧
    ∀ fuel' ip' type', get_link (S fuel') ip' 200 type' t' = Fault) full.
Proof.
  apply (get_link_exhausted 5 100 200 LINK_SYN full _ full_rep); [by vm_compute..].
Defined.

Lemma thread_recv_last_port_witness :
  thread_recv_packet 5 100 0xFFFF (Packet (Head LINK_SYN 0 1 1 EX_UDP_VER) (pa_buf zero_packet) 8) full = Fault.
Proof. apply (thread_recv_last_port 5 100 _ full); [by vm_compute|]. split_and!; vm_compute; congruence. Defined.
End links_witness.
