(* ===== verification/Receive.v ===== *)
(** * Receive: the receiving thread of src/udp/ex_udp.c against any peer

    Delivery.v is about two ends that keep to the protocol.  Here the peers are
    arbitrary: whatever bytes arrive, and when [recvfrom] fails, the thread
    neither fails nor leaves a connection with a field outside its type, and the
    table of connections stays consistent.  The four conditions that this needs
    are those of [benign] and the bound on the number of peers; without them the
    thread goes wrong. *)
From stdpp Require Import base tactics list numbers gmap fin_maps.
From S2P Require Import Prelude Lists Clist Udp Socket Delivery Links.
Local Open Scope Z_scope.

(** ** Types *)

(** A packet as [recvfrom] leaves it: unsigned fields of 8 and 16 bits, and a
    buffer of bytes.  The length is what [recvfrom] returned. *)
Record packet_typed (pa : s_packet_all) : Prop := {
  pt_state : 0 ≤ ph_state (pa_head pa) < 2 ^ 8;
  pt_seq : 0 ≤ ph_seq (pa_head pa) < 2 ^ 16;
  pt_seqCheck : 0 ≤ ph_seqCheck (pa_head pa) < 2 ^ 16;
  pt_buf : Forall (λ b, 0 ≤ b < 2 ^ 8) (pa_buf pa);
}.

(** The length of a received packet that is stored: none, or with its header. *)
Definition len_ok (pa : s_packet_all) : Prop :=
  pa_len pa = 0 ∨ LEN_PACKET_HEAD ≤ pa_len pa ≤ MAX_PACKET_SIZE.

(** A connection whose fields are in their ranges: the sequence numbers of the
    sender are on the circle and span a window, each number in the window has
    its packet, what was received has a length that [exRecv] accepts.
    [SeqRead] is only known to be a USHORT: it is taken from the peer. *)
Record link_typed (l : s_link) : Prop := {
  lt_state : 0 ≤ linkState l ≤ 2;
  lt_read : 0 ≤ SeqRead l < 2 ^ 16;
  lt_readmax : 0 ≤ SeqReadMax l < MAX_PACKET_SEQ;
  lt_max : 0 ≤ SeqMaxSend l < MAX_PACKET_SEQ;
  lt_check : 0 ≤ SeqCheckSend l < MAX_PACKET_SEQ;
  lt_window : 0 < cyc (SeqCheckSend l) (SeqMaxSend l) < MAX_PACKET_NUMBER;
  lt_sent n : 0 ≤ n < MAX_PACKET_SEQ → 0 < cyc (SeqCheckSend l) n < cyc (SeqCheckSend l) (SeqMaxSend l) →
    LEN_PACKET_HEAD ≤ pa_len (slot (paArraySend l) n);
  lt_send_array : length (paArraySend l) = Z.to_nat MAX_PACKET_NUMBER;
  lt_recv_array : length (paArrayRecv l) = Z.to_nat MAX_PACKET_NUMBER;
  lt_recv n : len_ok (slot (paArrayRecv l) n);
}.

(** What finds a connection does not change. *)
Definition stays (l l' : s_link) : Prop :=
  lk_ip l' = lk_ip l ∧ lk_port l' = lk_port l ∧ lk_id l' = lk_id l ∧ lk_socket l' = lk_socket l ∧
  same_port_next l' = same_port_next l.
#[global] Instance stays_preorder : PreOrder stays.
Proof. split; [done|]. intros l1 l2 l3 (?&?&?&?&?) (?&?&?&?&?). split_and!; congruence. Qed.

Definition okl (l0 l : s_link) : Prop := link_typed l ∧ stays l0 l.

Create HintDb typed.

(** ** Updates that keep the types *)

Lemma len_ok_put n pa a : len_ok pa → (∀ n, len_ok (slot a n)) → ∀ n', len_ok (slot (put_slot n pa a) n').
Proof.
  intros Hpa Ha n'. unfold slot, put_slot. destruct (decide (slot_index n = slot_index n')) as [E|E].
  - rewrite <- E. destruct (decide (slot_index n < length a)%nat).
    + by rewrite list_lookup_insert_eq.
    + rewrite lookup_ge_None_2; [by left|]. rewrite length_insert. lia.
  - rewrite list_lookup_insert_ne by done. apply Ha.
Qed.
Lemma len_ok_zeros k n : len_ok (slot (replicate k zero_packet) n).
Proof.
  left. unfold slot. destruct (replicate k zero_packet !! slot_index n) as [pa|] eqn:E; [|done].
  by apply lookup_replicate in E as [-> _].
Qed.

Lemma okl_refl l : link_typed l → okl l l.
Proof. by split. Qed.
Lemma okl_SeqRead l0 l v : 0 ≤ v < 2 ^ 16 → okl l0 l → okl l0 (set_SeqRead v l).
Proof. intros Hv [[] ?]. by split. Qed.
Lemma okl_linkState l0 l v : 0 ≤ v ≤ 2 → okl l0 l → okl l0 (set_linkState v l).
Proof. intros Hv [[] ?]. by split. Qed.
Lemma okl_SeqReadMax l0 l v : 0 ≤ v < MAX_PACKET_SEQ → okl l0 l → okl l0 (set_SeqReadMax v l).
Proof. intros Hv [[] ?]. by split. Qed.
Lemma okl_semRecvList l0 l v : okl l0 l → okl l0 (set_semRecvList v l).
Proof. intros [[] ?]. by split. Qed.
Lemma okl_semSendList l0 l v : okl l0 l → okl l0 (set_semSendList v l).
Proof. intros [[] ?]. by split. Qed.
Lemma okl_PrioritySendLack l0 l v : okl l0 l → okl l0 (set_PrioritySendLack v l).
Proof. intros [[] ?]. by split. Qed.
Lemma okl_timeoutCheckLack l0 l v : okl l0 l → okl l0 (set_timeoutCheckLack v l).
Proof. intros [[] ?]. by split. Qed.
Lemma okl_lk_timeout l0 l v : okl l0 l → okl l0 (set_lk_timeout v l).
Proof. intros [[] ?]. by split. Qed.
Lemma okl_recv l0 l a : length a = Z.to_nat MAX_PACKET_NUMBER → (∀ n, len_ok (slot a n)) →
  okl l0 l → okl l0 (set_paArrayRecv a l).
Proof. intros ?? [[] ?]. by split. Qed.
#[export] Hint Resolve okl_SeqRead okl_linkState okl_SeqReadMax okl_semRecvList okl_semSendList
  okl_PrioritySendLack okl_timeoutCheckLack okl_lk_timeout : typed.

(** Forgetting what was received. *)
Lemma okl_resync l0 l v : 0 ≤ v < 2 ^ 16 → okl l0 l → okl l0 (resync v l).
Proof.
  intros Hv Hl. pose proof Hl as [[] _]. unfold resync. apply okl_SeqRead; [done|].
  set (a := if _ : bool then _ else _).
  assert (length a = Z.to_nat MAX_PACKET_NUMBER ∧ ∀ n, len_ok (slot a n)) as [Ha1 Ha2].
  { unfold a. case_match; [|done]. split; [by rewrite length_replicate|intros n; apply len_ok_zeros]. }
  apply okl_recv; [by rewrite length_put_slot| |done].
  apply len_ok_put; [apply Ha2|done].
Qed.
#[export] Hint Resolve okl_resync : typed.

(** The acknowledged number moves forward inside the window. *)
Lemma okl_SeqCheckSend l0 l v : 0 ≤ v < MAX_PACKET_SEQ →
  CMP_SEQ_ORDER (SeqCheckSend l) v (SeqMaxSend l) = true → okl l0 l → okl l0 (set_SeqCheckSend v l).
Proof.
  intros Hv Hc [[? ? ? ? ? Hwin Hsent ? ? ?] Hst]. split; [|done].
  rewrite CMP_SEQ_ORDER_cyc in Hc by done. apply andb_true_iff in Hc as [H1%Z.ltb_lt _].
  assert (∀ x, 0 ≤ x < MAX_PACKET_SEQ → cyc (SeqCheckSend l) v ≤ cyc (SeqCheckSend l) x →
    cyc v x = cyc (SeqCheckSend l) x - cyc (SeqCheckSend l) v) as Hd.
  { unfold cyc in *. rewrite max_packet_seq in *. intros x ?. dlia. }
  pose proof (seq_range (v - SeqCheckSend l)) as Hr. change (0 ≤ cyc (SeqCheckSend l) v < MAX_PACKET_SEQ) in Hr.
  split; simpl; try done.
  - rewrite Hd; [lia|done|lia].
  - intros n Hn. destruct (Z.le_gt_cases (cyc (SeqCheckSend l) v) (cyc (SeqCheckSend l) n)) as [Hle|Hgt].
    + rewrite !Hd by (done || lia). intros ?. apply Hsent; [done|lia].
    + rewrite (Hd (SeqMaxSend l)) by (done || lia). intros Hb. exfalso.
      unfold cyc in *. rewrite max_packet_seq in *. unfold MAX_PACKET_NUMBER in *. revert Hb Hgt H1 Hwin. dlia.
Qed.

(** A packet of the window that is sent again keeps its length. *)
Lemma okl_resent l0 l n pa : okl l0 l → pa_len pa = pa_len (slot (paArraySend l) n) →
  okl l0 (set_paArraySend (put_slot n pa (paArraySend l)) l).
Proof.
  intros [[? ? ? ? ? ? Hsent ? ? ?] Hst] Hpa. split; [|done]. split; simpl; try done; [|by rewrite length_put_slot].
  intros k Hk Hc. destruct (decide (slot_index n = slot_index k)) as [E|E].
  - rewrite slot_put_same by done. rewrite Hpa. unfold slot. rewrite E. by apply Hsent.
  - rewrite slot_put_ne by done. by apply Hsent.
Qed.

(** ** The handlers keep the types *)

Section handlers.
Context {L : Type} `{Clist L} (e : endpoint).
Implicit Types (l : s_link) (pa : s_packet_all).
Local Abbreviation p := (ep_link e).

(** [m] returns and keeps the types, from any connection that has them. *)
Definition safe {A} (m : M (udp L) A) : Prop :=
  ∀ l0 l, okl l0 l → ewp e m (λ _ l' _, okl l0 l') l.

Lemma safe_bind {A B} (m : M (udp L) A) (f : A → M (udp L) B) : safe m → (∀ a, safe (f a)) → safe (m ≫= f).
Proof.
  intros Hm Hf l0 l Hl. apply ewp_bind. eapply ewp_mono; [by apply Hm|].
  intros a l1 d1 Hl1. eapply ewp_mono; [exact (Hf a l0 l1 Hl1)|done].
Qed.
Lemma safe_ret {A} (a : A) : safe (mret a).
Proof. intros l0 l Hl. by ewp_steps. Qed.
Lemma safe_sts {B} (f : st_sock → M (udp L) B) : (∀ s, open_sock e s → safe (f s)) → safe (sts ≫= f).
Proof. intros Hf l0 l Hl. ewp_steps. by apply Hf. Qed.
Lemma safe_gets {A} (f : udp L → A) : safe (gets f).
Proof. intros l0 l Hl. by ewp_steps. Qed.
Lemma safe_gettimeofday : safe gettimeofday.
Proof. intros l0 l Hl. by ewp_steps. Qed.
Lemma safe_link_set f : (∀ l0 l, okl l0 l → okl l0 (f l)) → safe (link_set p f).
Proof. intros Hf l0 l Hl. ewp_steps. by apply Hf. Qed.
Lemma safe_link_at {B} (f : s_link → M (udp L) B) :
  (∀ l0 l, okl l0 l → ewp e (f l) (λ _ l' _, okl l0 l') l) → safe (link_at p ≫= f).
Proof. intros Hf l0 l Hl. ewp_steps. by apply Hf. Qed.
Lemma safe_semRecvList : safe (sem_post semRecvList set_semRecvList p).
Proof. intros l0 l Hl. ewp_steps. auto with typed. Qed.
Lemma safe_semSendList : safe (sem_post semSendList set_semSendList p).
Proof. intros l0 l Hl. ewp_steps. auto with typed. Qed.
Lemma safe_semListen : safe (sts_post semListen set_semListen).
Proof. intros l0 l Hl. unfold sts_post. apply ewp_sts_set; [|done]. by intros s []. Qed.
Lemma safe_SendMsg pa len : LEN_PACKET_HEAD ≤ len → safe (SendMsg p pa len).
Proof. intros Hlen l0 l Hl. by apply ewp_SendMsg. Qed.
End handlers.
#[export] Hint Resolve safe_ret safe_gets safe_gettimeofday safe_semRecvList safe_semSendList safe_semListen : typed.

Lemma safe_use {L} `{Clist L} e {A} (m : M (udp L) A) l0 l :
  okl l0 l → safe e m → ewp e m (λ _ l' _, okl l0 l') l.
Proof. intros Hl Hm. by apply Hm. Qed.

Ltac safe_step :=
  lazymatch goal with
  | |- safe _ (mbind _ sts) => apply safe_sts; intros ?s ?Hs
  | |- safe _ (mbind _ (link_at _)) => 
      let Hl := fresh "Hl" in apply safe_link_at; intros ?l0 ?l Hl; apply (safe_use _ _ _ _ Hl); clear Hl
  | |- safe _ (mbind _ _) => apply safe_bind; [|intros ?]
  | |- safe _ (if ?b then _ else _) => destruct b eqn:?
  | |- safe _ (link_set _ _) => apply safe_link_set; intros ?l0 ?l ?Hl
  | |- safe _ (SendMsg _ _ _) => apply safe_SendMsg
  | |- safe _ _ => solve [auto with typed]
  end; cbv beta.
Ltac safe_steps := repeat safe_step.

(** A time in a report whose differences to the readings of the clock do not
    overflow. *)
Definition time_sane (tv : timeval) : Prop := - 2 ^ 62 ≤ tv_sec tv ∧ 10 ^ 6 - 2 ^ 63 ≤ tv_usec tv.
Lemma long_of_bytes_lt bs : long_of_bytes bs < 2 ^ 63.
Proof.
  unfold long_of_bytes, s64, swrap. generalize (foldr (λ b n, b + 256 * n) 0 (take 8 bs)). intros x.
  pose proof (Z.mod_pos_bound (x + 2 ^ (64 - 1)) (2 ^ 64) ltac:(done)). lia.
Qed.
Lemma ms_defined_sane a bs : tv_range a → time_sane (tv_of_bytes bs) → ms_defined a (tv_of_bytes bs) = true.
Proof.
  intros [? ?] [? ?]. pose proof (long_of_bytes_lt bs). pose proof (long_of_bytes_lt (drop 8 bs)).
  unfold ms_defined, in_s64, tv_of_bytes in *. cbn [tv_sec tv_usec] in *. rewrite !andb_true_iff, !Z.leb_le, !Z.ltb_lt. lia.
Qed.

Section handlers.
Context {L : Type} `{Clist L} (e : endpoint) (pa : s_packet_all).
Hypothesis (Hpa : packet_typed pa) (Hlen : LEN_PACKET_HEAD ≤ pa_len pa ≤ MAX_PACKET_SIZE)
  (Hseq : ph_seq (pa_head pa) < MAX_PACKET_SEQ).
Local Abbreviation p := (ep_link e).

Lemma safe_recv_LINK_SYN : safe (L := L) e (recv_LINK_SYN p pa).
Proof.
  unfold recv_LINK_SYN. cbv zeta. pose proof (pt_seqCheck _ Hpa). safe_steps.
  - by apply okl_resync.
  - apply okl_SeqRead; [done|]. apply okl_linkState; [by case_match|done].
  - done.
Qed.

Lemma seq_u16 x : 0 ≤ x mod MAX_PACKET_SEQ < 2 ^ 16.
Proof. pose proof (seq_range x). rewrite max_packet_seq in *. lia. Qed.

Lemma safe_recv_LINK_SYN_ACK : safe (L := L) e (recv_LINK_SYN_ACK p pa).
Proof.
  unfold recv_LINK_SYN_ACK. cbv zeta. pose proof (pt_seqCheck _ Hpa). intros l0 l Hl. apply ewp_bind.
  eapply (ewp_mono _ _ (λ a l' _, okl l0 l' ∧ 0 ≤ a < 2 ^ 16)).
  - case_match; ewp_steps; [|done]. apply ewp_SendMsg; [done|ewp_steps..];
      (split; [by apply okl_resync|apply seq_u16]).
  - intros a l1 _ [Hl1 Ha]. apply (safe_use _ _ _ _ Hl1). safe_steps.
    apply okl_SeqRead; [done|]. by apply okl_linkState.
Qed.

Lemma safe_UserDataRecv : safe (L := L) e (UserDataRecv p pa).
Proof.
  unfold UserDataRecv. cbv zeta. safe_steps.
  - apply okl_recv; [by rewrite length_put_slot; apply Hl|apply len_ok_put; [by right|apply Hl]|done].
  - by rewrite (os_msgid _ _ Hs) in *.
Qed.

Lemma safe_SeqCheckAck : safe (L := L) e (SeqCheckAck p pa).
Proof.
  unfold SeqCheckAck. cbv zeta. pose proof (pt_seq _ Hpa). safe_steps.
  - apply okl_SeqReadMax; [lia|done].
  - apply Hlen.
  - by rewrite (os_msgid _ _ Hs) in *.
Qed.

Lemma safe_SeqReportAck : (LEN_PACKET_HEAD < pa_len pa → time_sane (tv_of_bytes (pa_buf pa))) →
  safe (L := L) e (SeqReportAck p pa).
Proof.
  intros Htime. unfold SeqReportAck. pose proof (pt_seq _ Hpa). intros l0 l Hl. ewp_steps.
  destruct (linkState l <? 2); [by ewp_steps|]. destruct (CMP_SEQ_ORDER _ _ _) eqn:Hc; [|by ewp_steps].
  ewp_steps. assert (okl l0 (set_SeqCheckSend (ph_seq (pa_head pa)) l)) as Hl1 by (apply okl_SeqCheckSend; [lia|done..]).
  destruct (Z.ltb_spec LEN_PACKET_HEAD (pa_len pa)); ewp_steps; [|by auto with typed].
  rewrite ms_defined_sane by (apply reading_range || by apply Htime). simpl. ewp_steps. auto with typed.
Qed.

Lemma safe_resend c usps : Forall (Z.le 0) usps → ∀ l0 l, okl l0 l →
  (SeqCheckSend l + 1) mod MAX_PACKET_SEQ = c →
  ewp (L := L) e (resend p c usps) (λ _ l' _, okl l0 l') l.
Proof.
  induction usps as [|usp usps IH]; intros Hu l0 l Hl Hc; simpl; [by ewp_steps|].
  apply Forall_cons in Hu as [Hu Hus]. ewp_steps.
  destruct (Z.ltb_spec usp MAX_PACKET_SEQ); [|by ewp_steps].
  destruct (CMP_SEQ_ORDER _ _ _) eqn:Ho; [|by ewp_steps].
  pose proof Hl as [[? ? ? Hmax Hchk Hwin Hsent ? ? ?] _].
  assert (LEN_PACKET_HEAD ≤ pa_len (slot (paArraySend l) usp)) as Hlen'.
  { apply Hsent; [done|]. rewrite <- Hc, CMP_SEQ_ORDER_cyc in Ho by (done || apply seq_range).
    apply andb_true_iff in Ho as [Ho%Z.ltb_lt _]. unfold cyc in *. rewrite max_packet_seq in *.
    unfold MAX_PACKET_NUMBER in *. dlia. }
  ewp_steps. apply ewp_SendMsg; [done|ewp_steps..]; (apply IH; [done|by apply okl_resent|done]).
Qed.

Lemma safe_SeqLackAck : safe (L := L) e (SeqLackAck p pa).
Proof.
  unfold SeqLackAck. cbv zeta. intros l0 l Hl. ewp_steps. destruct (linkState l <? 2); [by ewp_steps|]. ewp_steps.
  eapply ewp_mono.
  - pose proof (pt_buf _ Hpa) as Hbuf.
    apply safe_resend; [apply Forall_take, words_nonneg; eapply Forall_impl; [exact Hbuf|simpl; lia]|by apply okl_PrioritySendLack|done].
  - intros a l1 d1 Hl1. cbv beta in Hl1. ewp_steps. auto with typed.
Qed.
End handlers.

(** ** The socket *)

Section socket.
Context {L : Type} `{!Clist L, !ClistLaws L}.
Implicit Types (t : udp L) (l : s_link).

(** An open socket, not in the mode of message queues, whose table is consistent
    and whose connections have their types, each to a peer in [P]. *)
Record sock_typed (P : gset (Z * Z)) t (links frees dead : list Z) (ch : Z → list Z) : Prop := {
  st_table : table t links frees dead ch;
  st_open : ss_inArray (u_sock t) = true ∧ ss_linkState (u_sock t) = 1 ∧ ss_msgid (u_sock t) = -1;
  st_lock : 0 < semLink (u_sock t);
  st_links p : p ∈ links → ∃ l, u_links t !! p = Some l ∧ link_typed l ∧ (lk_ip l, lk_port l) ∈ P;
}.

Lemma core_typed l l1 : core l1 = core l → link_typed l → link_typed l1 ∧ (lk_ip l1, lk_port l1) = (lk_ip l, lk_port l).
Proof. destruct l, l1. unfold core. simpl. intros [=]; subst. by intros []. Qed.

Lemma table_of_update s s' m lists links frees dead ch p l l' :
  table_of s m lists links frees dead ch → m !! p = Some l → stays l l' → 0 ≤ linkState l →
  pLinkPortArray s' = pLinkPortArray s → pLinkIDArray s' = pLinkIDArray s → ss_socket s' = ss_socket s →
  table_of s' (<[p := l']> m) lists links frees dead ch.
Proof.
  intros [T1 T2 T3 T4 T5 T6 T7 T8 T9 T10] Hl (Eip&Epo&Eid&Esk&Enx) Hst Ep Ei Es.
  assert (Hlk : ∀ q lq, m !! q = Some lq → ∃ lq', <[p := l']> m !! q = Some lq' ∧ stays lq lq').
  { intros q lq Hq. destruct (decide (q = p)) as [->|]; [|rewrite lookup_insert_ne by done; by exists lq].
    exists l'. rewrite lookup_insert_eq. split; [done|]. replace lq with l by congruence. by split_and!. }
  assert (Hip : ∀ q, lk_ip <$> <[p := l']> m !! q = lk_ip <$> m !! q).
  { intros q. destruct (decide (q = p)) as [->|]; [|by rewrite lookup_insert_ne].
    rewrite lookup_insert_eq, Hl. simpl. by rewrite Eip. }
  split; rewrite ?Ei.
  - destruct T1 as (A&[H1 H2 H3 H4 H5 H6]). exists A. split; try done.
    intros n Hn [Hm _]%lookup_insert_None. by apply H5.
  - intros q Hq. destruct (T2 q Hq) as [? (lq&Hlq&?&?&?&?&?)]. split; [done|].
    destruct (Hlk _ _ Hlq) as (lq'&?&?&E1&E2&E3&?). exists lq'. rewrite E1, E2, E3, Es. tauto.
  - intros id q Hq. destruct (T3 id q Hq) as [? (lq&Hlq&<-)]. split; [done|].
    destruct (Hlk _ _ Hlq) as (lq'&?&?&?&?&?). by exists lq'.
  - done.
  - done.
  - intros port. rewrite Ep. by eapply chain_same.
  - intros port q Hq. destruct (T7 port q Hq) as [? (lq&Hlq&<-)]. split; [done|].
    destruct (Hlk _ _ Hlq) as (lq'&?&?&?&?). by exists lq'.
  - done.
  - intros port q1 q2. rewrite !Hip. apply T9.
  - intros q Hq. destruct (T10 q Hq) as [? (lq&Hlq&Hs)]. split; [done|].
    exists lq. split; [|done]. rewrite lookup_insert_ne; [done|]. intros ->. assert (lq = l) as -> by congruence. lia.
Qed.

(** The connections of one port are no more than there are ids. *)
Lemma chain_bound t links frees dead ch port : table t links frees dead ch → (length (ch port) ≤ 4096)%nat.
Proof.
  intros HT. pose proof (tb_chain _ _ _ _ _ _ _ HT port) as Hc.
  set (id_of := λ p, default 0 (lk_id <$> u_links t !! p)).
  assert (∀ p, p ∈ ch port → 0 ≤ id_of p ≤ MAX_LINK_COUNT ∧ pLinkIDArray (u_sock t) !! id_of p = Some p) as Hid.
  { intros p Hp. destruct (tb_live _ _ _ _ _ _ _ HT p) as [_ (l&Hl&_&_&_&?&?)]; [by apply Hc|].
    unfold id_of. by rewrite Hl. }
  assert (NoDup (id_of <$> ch port)) as Hnd.
  { pose proof (tb_nodup _ _ _ _ _ _ _ HT port) as Hn. revert Hid Hn. clear Hc. generalize (ch port) as ps.
    intros ps Hid Hn. apply NoDup_fmap_2_strong; [|done]. intros x y Hx Hy E.
    pose proof (proj2 (Hid x Hx)). pose proof (proj2 (Hid y Hy)). congruence. }
  assert (id_of <$> ch port ⊆+ all_ids) as Hsub.
  { apply NoDup_submseteq; [done|]. intros i (p&->&Hp)%list_elem_of_fmap. by apply elem_of_all_ids, Hid. }
  apply submseteq_length in Hsub. rewrite length_fmap in Hsub. by etrans.
Qed.

(** A handler that is safe on the connection keeps the socket typed. *)
Lemma wp_safe {A} P t links frees dead ch p (m : M (udp L) A) : sock_typed P t links frees dead ch → p ∈ links →
  (∀ e, ep_link e = p → safe e m) → wp m (λ _ t', sock_typed P t' links frees dead ch) t.
Proof.
  intros [HT (Ha&Hs&Hm) Hlock Hlinks] Hp Hsafe. destruct (Hlinks p Hp) as (l&Hl&Hty&HP).
  destruct (tb_live _ _ _ _ _ _ _ HT p Hp) as [_ (l1&Hl1&_&_&_&Hid&Harr)].
  replace l1 with l in * by congruence. clear l1 Hl1.
  set (e := Endpoint p (ss_socket (u_sock t)) (lk_id l)).
  eapply wp_mono; [apply (Hsafe e eq_refl l l); [by apply okl_refl| |exact Hl]|].
  { split; try done. simpl. by rewrite land_id. }
  intros a t' (l'&ds&[E1 E2 [F1 F2 F3 F4 F5] E4 (G1&G2&G3)]&Hty'&Hst). simpl in *. split.
  - unfold table. rewrite E1, E4. eapply table_of_update; [exact HT|done|done|apply Hty|done|done|done].
  - done.
  - lia.
  - intros q Hq. destruct (decide (q = p)) as [->|Hne].
    + exists l'. rewrite E1, lookup_insert_eq. split_and!; [done..|].
      destruct Hst as (->&->&_). done.
    + destruct (Hlinks q Hq) as (lq&?&?). exists lq. by rewrite E1, lookup_insert_ne.
Qed.

Lemma new_link_typed s ip port id l : new_link s ip port id l → link_typed l.
Proof.
  intros [_ (Hst&_) (HR&HM&HC) _ (Hrm&Hrecv&Hsend)].
  assert (∀ a k, a = mark_first (replicate k zero_packet) → length a = k ∧ ∀ n, len_ok (slot a n)) as Hz.
  { intros a k ->. split; [unfold mark_first; by rewrite length_put_slot, length_replicate|].
    unfold mark_first. apply len_ok_put; [|intros n; apply len_ok_zeros].
    left. simpl. by destruct (len_ok_zeros k 0) as [->|[H1 _]]; [|by destruct k]. }
  destruct (Hz _ _ Hrecv), (Hz _ _ Hsend). split; rewrite ?Hst, ?HR, ?Hrm, ?HM, ?HC; try done.
  intros n Hn. assert (cyc 0 1 = 1) as -> by done. lia.
Qed.

(** The other connections, when one is created or deleted. *)
Lemma st_links_kept (P : gset (Z * Z)) m m1 (links : list Z) ps q : (∀ p, p ∈ links → ∃ l, m !! p = Some l ∧ link_typed l ∧ (lk_ip l, lk_port l) ∈ P) →
  kept ps m m1 → q ∈ links → q ∉ ps → ∃ l, m1 !! q = Some l ∧ link_typed l ∧ (lk_ip l, lk_port l) ∈ P.
Proof.
  intros Hlinks Hk Hq Hps. destruct (Hlinks q Hq) as (lq&Hlq&Hty&HP).
  destruct (Hk q lq Hps Hlq) as (l1&Hl1&Hc). destruct (core_typed _ _ Hc Hty) as [? E].
  exists l1. by rewrite E.
Qed.

Lemma sock_typed_delete P t t' ks p ks2 frees dead ch l :
  sock_typed P t (ks ++ p :: ks2) frees dead ch → u_links t !! p = Some l →
  table t' (ks ++ ks2) (frees ++ [lk_id l]) (dead ++ [p]) (chain_del ch (lk_port l) p) →
  same_socket (u_sock t) (u_sock t') → 0 < semLink (u_sock t') → kept [p] (u_links t) (u_links t') →
  sock_typed P t' (ks ++ ks2) (frees ++ [lk_id l]) (dead ++ [p]) (chain_del ch (lk_port l) p).
Proof.
  intros [HT (Ha&Hs&Hm) Hlock Hlinks] Hl HT' (E1&E2&E3&E4) Hlock' Hk. split; [done|split_and!; congruence|done|].
  intros q Hq. assert (q ≠ p) as Hne.
  { intros ->. destruct (tb_lists _ _ _ _ _ _ _ HT) as (A&[HA Hlk _ _ _ _]).
    pose proof (clist_nodup _ _ _ _ HA Hlk) as [_ Hn]%NoDup_cons.
    apply NoDup_app in Hn as (_&Hd&[? _]%NoDup_cons). specialize (Hd p). set_solver. }
  eapply st_links_kept; [exact Hlinks|exact Hk|set_solver..].
Qed.

(** A socket whose peers are in [P]; and how many connections it can still take. *)
Definition peers (P : gset (Z * Z)) t : Prop := ∃ links frees dead ch, sock_typed P t links frees dead ch.
Definition room (n : nat) t : Prop :=
  ∃ P links frees dead ch, sock_typed P t links frees dead ch ∧ (n ≤ length frees)%nat.

Lemma wp_recv_LINK_FIN P fuel p t links frees dead ch : sock_typed P t links frees dead ch → p ∈ links → (4096 ≤ fuel)%nat →
  wp (recv_LINK_FIN fuel p) (λ _ t', peers P t') t.
Proof.
  intros HS Hp Hf. pose proof HS as [HT (Ha&Hs&Hm) Hlock Hlinks]. destruct (Hlinks p Hp) as (l&Hl&Hty&_).
  apply list_elem_of_split in Hp as (ks&ks2&->).
  unfold recv_LINK_FIN, notify_unconnected, sts_wait, sts_post, sts_set, sts. wp_steps. rewrite Hm. simpl. wp_steps.
  rewrite (proj2 (Z.leb_gt _ _)) by done. wp_steps.
  set (t1 := set_u_sock _ t).
  assert (table t1 (ks ++ p :: ks2) frees dead ch) as HT1 by (by apply table_semLink).
  eapply wp_mono; [apply (del_list_table fuel p t1 ks ks2 frees dead ch l HT1 Hl Hm)|].
  { pose proof (chain_bound _ _ _ _ _ (lk_port l) HT). lia. }
  intros r t2 (_&HT2&HS2&Hsem&Hk). wp_steps.
  exists (ks ++ ks2), (frees ++ [lk_id l]), (dead ++ [p]), (chain_del ch (lk_port l) p).
  apply (sock_typed_delete P t); [done|done| |exact HS2| |exact Hk].
  - by apply table_semLink.
  - simpl. unfold t1 in Hsem. simpl in Hsem. lia.
Qed.

(** The time in a report is such that its difference to the clock is defined. *)
Definition report_sane (pa : s_packet_all) : Prop :=
  ph_type (pa_head pa) = SEQ_REPORT → LEN_PACKET_HEAD < pa_len pa → time_sane (tv_of_bytes (pa_buf pa)).

Lemma wp_recv_dispatch P fuel p pa t links frees dead ch :
  sock_typed P t links frees dead ch → p ∈ links → (4096 ≤ fuel)%nat →
  packet_typed pa → LEN_PACKET_HEAD ≤ pa_len pa ≤ MAX_PACKET_SIZE → ph_seq (pa_head pa) < MAX_PACKET_SEQ →
  report_sane pa → wp (recv_dispatch fuel p pa) (λ _ t', peers P t') t.
Proof.
  intros HS Hp Hf Hpa Hlen Hseq Htime.
  assert (∀ t', sock_typed P t' links frees dead ch → peers P t') as Hroom
    by (intros t' ?; by exists links, frees, dead, ch).
  unfold recv_dispatch. cbv zeta. apply wp_bind. destruct (st_links _ _ _ _ _ _ HS p Hp) as (l&Hl&Hty&_).
  eapply wp_link_at; [done|]. apply wp_bind. eapply wp_mono.
  { apply (wp_safe P t links frees dead ch p); [done|done|]. intros e <-. pose proof (pt_seqCheck _ Hpa). safe_steps.
    apply okl_linkState; [done|]. by apply okl_resync. }
  cbv beta. intros _ t1 HS1. apply wp_bind. eapply wp_mono.
  { apply (wp_safe P t1 links frees dead ch p); [done|done|]. intros e <-. safe_steps. auto with typed. }
  cbv beta. intros _ t2 HS2.
  assert (∀ (m : M (udp L) unit), (∀ e, ep_link e = p → safe e m) → wp m (λ _ t', peers P t') t2) as Hsafe.
  { intros m Hm. eapply wp_mono; [by apply (wp_safe P t2 links frees dead ch p)|]. intros ? t'. apply Hroom. }
  destruct (Z.eqb_spec (ph_type (pa_head pa)) SEQ_REPORT) as [Hrep|_].
  { rewrite Hrep. simpl. apply Hsafe. intros e <-. safe_steps. apply safe_SeqReportAck; [done..|]. by apply Htime. }
  repeat case_match; [apply Hsafe; intros e <-..|by apply (wp_recv_LINK_FIN P fuel p t2 links frees dead ch)|apply Hsafe; intros e <-].
  - by apply safe_recv_LINK_SYN.
  - by apply safe_recv_LINK_SYN_ACK.
  - safe_steps. by apply okl_linkState.
  - safe_steps. by apply safe_UserDataRecv.
  - safe_steps. by apply safe_SeqCheckAck.
  - safe_steps. by apply safe_SeqLackAck.
  - safe_steps.
Qed.

(** When no id is free, the peers of the connections are 4096. *)
Lemma all_used P t links dead ch ip port : sock_typed P t links [] dead ch →
  (∀ p, p ∈ ch port → lk_ip <$> u_links t !! p ≠ Some ip) → (ip, port) ∈ P → (4096 < size P)%nat.
Proof.
  intros HS Hno Hin. pose proof HS as [HT _ _ Hlinks].
  set (addr_of := λ id, p ← pLinkIDArray (u_sock t) !! id; l ← u_links t !! p; Some (lk_ip l, lk_port l)).
  assert (∀ id, id ∈ all_ids → ∃ p l, pLinkIDArray (u_sock t) !! id = Some p ∧ u_links t !! p = Some l ∧ lk_id l = id ∧
    p ∈ ch (lk_port l) ∧ (lk_ip l, lk_port l) ∈ P) as Hid.
  { intros id [Hn|[p Hp]]%elem_of_all_ids%(tb_all _ _ _ _ _ _ _ HT); [by apply elem_of_nil in Hn|].
    destruct (tb_ids _ _ _ _ _ _ _ HT _ _ Hp) as [Hpl (l&Hl&E)].
    destruct (tb_live _ _ _ _ _ _ _ HT _ Hpl) as [_ (l1&Hl1&_&Hch&_)], (Hlinks _ Hpl) as (l2&Hl2&_&HP).
    exists p, l. by simplify_eq. }
  set (addrs := (λ id, default (0, 0) (addr_of id)) <$> all_ids).
  assert (NoDup addrs) as Hnd.
  { apply NoDup_fmap_2_strong; [|apply NoDup_fmap, NoDup_seq; intros ??; lia].
    intros i j (p&l&Hp&Hl&<-&Hc&_)%Hid (q&k&Hq&Hk&<-&Hd&_)%Hid. unfold addr_of. rewrite Hp, Hq. simpl. rewrite Hl, Hk.
    intros [= E1 E2]. rewrite E2 in Hc. assert (p = q) as -> by (apply (tb_ip _ _ _ _ _ _ _ HT (lk_port k)); [done..|rewrite Hl, Hk; simpl; congruence]).
    congruence. }
  assert (∀ x, x ∈ addrs → x ∈ P ∧ x ≠ (ip, port)) as Hx.
  { intros x (id&->&(p&l&Hp&Hl&_&Hc&HP)%Hid)%list_elem_of_fmap. unfold addr_of. rewrite Hp. simpl. rewrite Hl. simpl.
    split; [done|]. intros [= E1 E2]. rewrite E2 in Hc. apply (Hno p Hc). by rewrite Hl, <- E1. }
  assert (length addrs = 4096%nat) as E by (unfold addrs; rewrite length_fmap; by vm_compute).
  clearbody addrs. assert (list_to_set ((ip, port) :: addrs) ⊆ P) as Hsub%subseteq_size by (intros x; set_solver).
  rewrite size_list_to_set in Hsub by (apply NoDup_cons; split; [by intros [_ ?]%Hx|done]).
  simpl in Hsub. lia.
Qed.

Context `{!LinkMalloc, !LinkMallocLaws}.

Lemma sock_typed_create P t t' links id frees dead ch ip port x l :
  sock_typed P t links (id :: frees) dead ch → (ip, port) ∈ P →
  table t' (links ++ [x]) frees dead (chain_set ch port (ch port ++ [x])) →
  u_links t' !! x = Some l → new_link (u_sock t) ip port id l →
  same_socket (u_sock t) (u_sock t') → semLink (u_sock t') = semLink (u_sock t) →
  kept [x] (u_links t) (u_links t') →
  sock_typed P t' (links ++ [x]) frees dead (chain_set ch port (ch port ++ [x])).
Proof.
  intros [HT (Ha&Hs&Hm) Hlock Hlinks] HP HT' Hx Hnew (E1&E2&E3&E4) Hsem Hk.
  split; [done|split_and!; congruence|lia|]. intros q Hq. destruct (decide (q = x)) as [->|Hne].
  - exists l. split_and!; [done|by eapply new_link_typed|]. by destruct (nl_addr _ _ _ _ _ Hnew) as (->&->&_).
  - eapply st_links_kept; [exact Hlinks|exact Hk|set_solver..].
Qed.

(** The peer is known, or unknown and nothing happens, or gets a connection if
    there is memory. *)
Lemma wp_get_link P fuel ip port type t links frees dead ch :
  sock_typed P t links frees dead ch → 0 ≤ port < PORT_ARRAY_SIZE → (4096 ≤ fuel)%nat →
  (size P ≤ 4096)%nat → (opens type = true → (ip, port) ∈ P) →
  wp (get_link fuel ip port type) (λ r t', ∃ links' frees' dead' ch', sock_typed P t' links' frees' dead' ch' ∧
    ∀ p, r = Some p → p ∈ links') t.
Proof.
  intros HS Hport Hf HsP Hop. pose proof HS as [HT (Ha&Hs&Hm) Hlock Hlinks].
  pose proof (chain_bound _ _ _ _ _ port HT) as Hb.
  destruct (decide (Exists (λ p, lk_ip <$> u_links t !! p = Some ip) (ch port))) as [Hin|Hno].
  { apply Exists_exists in Hin as (x&Hxin&Hip). unfold wp. rewrite (get_link_known _ _ _ _ _ links frees dead ch x) by (done || lia).
    exists links, frees, dead, ch. split; [done|]. intros p [= <-]. by eapply tb_chain. }
  assert (∀ p, p ∈ ch port → lk_ip <$> u_links t !! p ≠ Some ip) as Hne.
  { intros p Hp Hip. apply Hno, Exists_exists. by exists p. }
  destruct (opens type) eqn:Hty.
  2:{ unfold wp. rewrite (get_link_unknown _ _ _ _ _ links frees dead ch) by (done || lia).
    unfold create_link. apply orb_false_iff in Hty as [-> ->]. simpl.
    by exists links, frees, dead, ch. }
  destruct (decide (link_malloc (u_links t) = NULL)) as [Hx|Hx].
  - eapply wp_mono; [apply (get_link_no_memory fuel ip port type t links frees dead ch); (done || lia)|].
    intros r t' (->&HT'&El&(E1&E2&E3&E4)&Esem). exists links, frees, dead, ch. split; [|done].
    split; [done|split_and!; congruence|lia|by rewrite El].
  - destruct frees as [|id frees]; [pose proof (all_used _ _ _ _ _ _ _ HS Hne (Hop eq_refl)); lia|].
    eapply wp_mono; [apply (get_link_new fuel ip port type t links id frees dead ch); (done || lia)|].
    intros r t' (->&E1&HT'&(l&Hl&Hnew)&Esem&Hk).
    eexists _, _, _, _. split; [by eapply (sock_typed_create P t t' links id frees dead ch); auto|].
    intros p [= <-]. set_solver.
Qed.

(** What [recvfrom] may give: an error, or a datagram from a port that the table
    has, from a peer in [P] if it opens a connection, with a time that is sane if
    it is a report. *)
Definition benign (P : gset (Z * Z)) (r : received) : Prop :=
  match r with
  | RecvError => True
  | Received ip port pa => 0 ≤ port < PORT_ARRAY_SIZE ∧ packet_typed pa ∧
      (acceptable pa → opens (ph_type (pa_head pa)) = true → (ip, port) ∈ P) ∧ report_sane pa
  end.

Lemma wp_thread_recv_packet P fuel ip port pa t : peers P t → (size P ≤ 4096)%nat →
  benign P (Received ip port pa) → (4096 ≤ fuel)%nat →
  wp (thread_recv_packet fuel ip port pa) (λ r t', r = false ∧ peers P t') t.
Proof.
  intros (links&frees&dead&ch&HS) HsP (Hport&Hpa&Hop&Htime) Hf.
  unfold thread_recv_packet, sts. wp_steps. destruct (st_open _ _ _ _ _ _ HS) as (_&Hs&_). rewrite Hs. simpl.
  assert (peers P t) as Hsame by (by exists links, frees, dead, ch).
  destruct (_ || _) eqn:E; [by wp_steps|]. apply orb_false_iff in E as [E Hseq%Z.leb_gt].
  apply orb_false_iff in E as [E H4%Z.ltb_ge]. apply orb_false_iff in E as [E H3%Z.ltb_ge].
  apply orb_false_iff in E as [H1%Z.ltb_ge H2%Z.ltb_ge].
  destruct (_ && _) eqn:Ev; [by wp_steps|]. wp_steps.
  eapply wp_mono; [apply (wp_get_link P fuel ip port _ t links frees dead ch); try done|].
  { apply Hop. split_and!; [done..|]. intros Hsyn. apply andb_false_iff in Ev as [Ev|Ev].
    - by apply Z.eqb_neq in Ev.
    - by apply negb_false_iff, Z.eqb_eq in Ev. }
  intros r t' (links'&frees'&dead'&ch'&HS'&Hr). destruct r as [p|]; wp_steps.
  - eapply wp_mono; [apply (wp_recv_dispatch P fuel p pa t' links' frees' dead' ch'); (done || by apply Hr)|].
    intros ? t2 ?. by wp_steps.
  - split; [done|]. by exists links', frees', dead', ch'.
Qed.

Lemma wp_thread_recv_error P t : peers P t → wp thread_recv_error (λ r t', r = false ∧ peers P t') t.
Proof.
  intros (links&frees&dead&ch&HS). unfold thread_recv_error, sts. wp_steps.
  destruct (st_open _ _ _ _ _ _ HS) as (_&Hs&_). rewrite Hs. simpl. wp_steps. split; [done|]. by exists links, frees, dead, ch.
Qed.

(** C2: the receiving thread on an open socket without a message queue, whatever
    the calls of [recvfrom] give, however many: errors, and datagrams of any
    length and any content, as long as they come from ports below 65535, those
    that open a connection from at most 4096 addresses, and no report has a time so
    far in the past that its difference to the clock overflows.  The thread handles each
    of them and waits for the next: no access outside an object, no overflow, no
    [exit], no wait for a lock, also when [malloc] gives NULL.  The table of
    connections stays consistent, and every connection keeps its types: sequence
    numbers on the circle, a packet for each number in the window of the sender,
    lengths that [exRecv] accepts.  What is excluded goes wrong:
    [thread_recv_last_port], [get_link_exhausted], [report_overflow]. *)
Theorem thread_recv_total fuel (rs : list received) P t : peers P t → (size P ≤ 4096)%nat →
  Forall (benign P) rs → (4096 ≤ fuel)%nat →
  wp (thread_recv fuel rs) (λ r t', r = false ∧ peers P t') t.
Proof.
  intros HR HsP Hrs Hf. unfold thread_recv, sts_set. wp_steps.
  set (t1 := set_u_sock _ t). assert (peers P t1) as HR1.
  { destruct HR as (links&frees&dead&ch&[[] ? ? ?]). by exists links, frees, dead, ch. }
  clearbody t1. clear t HR. revert t1 HR1. induction rs as [|r rs IH]; intros t HR; simpl; [by wp_steps|].
  apply Forall_cons in Hrs as [Hr Hrs]. wp_steps.
  eapply (wp_mono _ (λ r t', r = false ∧ peers P t')).
  - destruct r as [|ip port pa]; [by apply wp_thread_recv_error|by apply wp_thread_recv_packet].
  - intros e t' [-> HR']. by apply IH.
Qed.
End socket.

(** A peer can choose the time in a report of a packet in the window so that the
    difference overflows. *)
Lemma report_overflow {L} `{Clist L} p pa (t : udp L) l : u_links t !! p = Some l → 2 ≤ linkState l →
  CMP_SEQ_ORDER (SeqCheckSend l) (ph_seq (pa_head pa)) (SeqMaxSend l) = true → LEN_PACKET_HEAD < pa_len pa →
  ms_defined (reading (u_clock t (u_tick t))) (tv_of_bytes (pa_buf pa)) = false → SeqReportAck p pa t = Fault.
Proof.
  intros Hl Hst Hc Hlen Hms. unfold SeqReportAck. apply bind_outcome. eapply wp_link_at; [done|].
  rewrite (proj2 (Z.ltb_ge _ _)), Hc by done. apply bind_outcome. eapply wp_link_set; [done|].
  apply bind_outcome. unfold sem_post. eapply wp_link_set; [simpl; apply lookup_insert_eq|].
  rewrite (proj2 (Z.ltb_lt _ _)) by done. apply bind_outcome. unfold gettimeofday, wp. cbn [u_clock u_tick set_u_links].
  by rewrite Hms.
Qed.

(** ** Witness *)

Module receive_witness.
Import links_witness.
#[local] Existing Instances above above_laws.

(** A new socket, and a peer that opens a connection with a sequence number off
    the circle, reports a packet missing that was never sent, answers with a time
    of no clock, closes the connection, and sends a datagram that is no packet;
    in between a call of [recvfrom] fails and data comes from a stranger. *)
Definition hostile (ip type seq : Z) (data : list Z) : received :=
  Received ip 7 (Packet (Head type 0 seq 65535 EX_UDP_VER) data (LEN_PACKET_HEAD + Z.of_nat (length data))).
Definition results : list received :=
  [hostile 1 LINK_SYN 2043 []; hostile 1 SEQ_LACK 5 [1; 0; 255; 255]; RecvError;
   hostile 1 SEQ_REPORT 0 (replicate 7 255 ++ [0]); hostile 2 USER_DATA 1 [0];
   hostile 1 LINK_FIN 0 []; hostile 1 200 9 [1]].

Lemma socket_peers P : peers P (socket 0).
Proof.
  exists [], all_ids, [], (λ _, []).
  split; [exact (socket_ok 0)|done|done|]. intros p Hp. by apply elem_of_nil in Hp.
Qed.

Lemma hostile_benign ip type seq data : 0 ≤ seq < 2 ^ 16 → Forall (λ b, 0 ≤ b < 2 ^ 8) data →
  (ip = 1 ∨ opens type = false) → (type = SEQ_REPORT → time_sane (tv_of_bytes data)) →
  benign {[(1, 7)]} (hostile ip type seq data).
Proof.
  intros Hseq Hdata Hop Htime. split; [done|]. split; [by split|]. split; [|by intros ? _; apply Htime].
  intros _ Hty. destruct Hop as [->|Hop]; [by apply elem_of_singleton|]. simpl in Hty. congruence.
Qed.

Lemma thread_recv_total_witness :
  wp (thread_recv 4096 results) (λ r t', r = false ∧ peers {[(1, 7)]} t') (socket 0).
Proof.
  apply (thread_recv_total 4096 results {[(1, 7)]} (socket 0)); [apply socket_peers|rewrite size_singleton; lia| |lia].
  unfold results. repeat (apply Forall_cons; split); try apply Forall_nil_2; try exact I;
    (apply hostile_benign; [lia|simpl; repeat constructor; lia|by auto|by (vm_compute; split)]).
Defined.
End receive_witness.
