(* ===== verification/Process.v ===== *)
(** * Process: opening sockets in src/udp/ex_udp.c

    The sockets of the process ([g_pSock]), the lock around opening and closing
    ([g_semLink]) and the wait time that new sockets get.  What the system calls
    of [exSocket] return is an argument.  A new socket is [exSocket_state] of
    Socket.v, whose table is consistent by Links.v. *)
From stdpp Require Import base tactics list numbers gmap fin_maps.
From S2P Require Import Prelude Lists Clist Udp Socket Delivery Links Receive.
Local Open Scope Z_scope.

Definition EXIT_FAILURE : Z := 1.
Definition SOCKET_ERROR : Z := -1.

(** What the calls of one [exSocket] return: the four semaphores, the socket,
    [bind], [malloc], and the two threads. *)
Record answers := Answers {
  an_semLink : Z;
  an_socket : Z;
  an_bind : Z;
  an_malloc : bool;
  an_sems : Z * Z * Z;
  an_recv : Z;
  an_listen : Z;
}.

(** [g_pSock]: a socket and its lists; [flag] is the static variable of [exSocket]. *)
Record process (L : Type) := Process {
  flag : bool;
  g_semLink : Z;
  g_pSock : gmap Z (st_sock * L);
  g_tsWaitTime : Z;
}.
Arguments Process {L}.
Arguments flag {L}.
Arguments g_semLink {L}.
Arguments g_pSock {L}.
Arguments g_tsWaitTime {L}.

Definition process_start {L} : process L := Process false 0 ∅ (-1).

Section process.
Context {L : Type} `{Clist L}.
Implicit Types (p : process L).

Definition set_flag (v : bool) p : process L := Process v (g_semLink p) (g_pSock p) (g_tsWaitTime p).
Definition set_g_semLink (v : Z) p : process L := Process (flag p) v (g_pSock p) (g_tsWaitTime p).
Definition set_g_pSock (v : gmap Z (st_sock * L)) p : process L := Process (flag p) (g_semLink p) v (g_tsWaitTime p).
Definition set_g_tsWaitTime (v : Z) p : process L := Process (flag p) (g_semLink p) (g_pSock p) v.

Definition setDefaultWaitTime (Milliseconds : Z) : M (process L) unit := modify (set_g_tsWaitTime Milliseconds).

(** [if (err != 0) exit(EXIT_FAILURE)] *)
Definition need (err : Z) : M (process L) unit := if err =? 0 then mret tt else exits EXIT_FAILURE.

Definition post_semLink : M (process L) unit := modify (λ p, set_g_semLink (g_semLink p + 1) p).

(** The lock is created by the first call, and taken. *)
Definition lock_process (an : answers) : M (process L) unit :=
  first ← gets flag;
  (if negb first then
     modify (set_flag true);;
     need (an_semLink an);;
     modify (set_g_semLink 1)
   else mret tt);;
  n ← gets g_semLink;
  if n <=? 0 then blocked else modify (set_g_semLink (n - 1)).

(** [lists] is the memory of the lists in the new socket. *)
Definition exSocket (recvPort : Z) (an : answers) (lists : L) : M (process L) Z :=
  lock_process an;;
  let sock := an_socket an in
  if sock =? SOCKET_ERROR then exits EXIT_FAILURE
  else if sock <? 0 then fault
  else
    socks ← gets g_pSock;
    if (MAX_SOCKET_NUM <? sock) || bool_decide (is_Some (socks !! sock)) then
      post_semLink;; mret EX_UDP_ERROR
    else
      (if negb (recvPort =? 0) && (an_bind an =? SOCKET_ERROR) then exits EXIT_FAILURE else mret tt);;
      (if an_malloc an then mret tt else exits 1);;
      wait ← gets g_tsWaitTime;
      let sts := exSocket_state sock wait lists in
      modify (set_g_pSock (<[sock := sts]> socks));;
      need (an_sems an).1.1;;
      need (an_sems an).1.2;;
      need (an_sems an).2;;
      need (an_recv an);;
      need (an_listen an);;
      post_semLink;;
      mret sock.

(** Nobody holds the lock; before the first call it does not exist. *)
Definition unlocked p : Prop := flag p = true → g_semLink p = 1.

(** Every call succeeds. *)
Definition all_well (recvPort : Z) (an : answers) : Prop :=
  an_semLink an = 0 ∧ (recvPort ≠ 0 → an_bind an ≠ SOCKET_ERROR) ∧ an_malloc an = true ∧
  an_sems an = (0, 0, 0) ∧ an_recv an = 0 ∧ an_listen an = 0.

Lemma lock_process_eq (an : answers) p : unlocked p → an_semLink an = 0 →
  lock_process an p = Ret (tt, Process true 0 (g_pSock p) (g_tsWaitTime p)).
Proof.
  intros Hu Hs. unfold lock_process, need. rewrite Hs. destruct p as [fl n socks w]. unfold unlocked in Hu. simpl in *.
  destruct fl; [|done]. unfold mbind, M_bind, gets. simpl. by rewrite (Hu eq_refl).
Qed.
Lemma wp_lock_process {A} (an : answers) (k : M (process L) A) Q p : unlocked p → an_semLink an = 0 →
  wp k Q (Process true 0 (g_pSock p) (g_tsWaitTime p)) → wp (lock_process an;; k) Q p.
Proof. intros Hu Hs Hk. unfold wp. by rewrite (bind_ret _ _ _ _ _ (lock_process_eq an p Hu Hs)). Qed.
Lemma wp_need err Q p : err = 0 → Q tt p → wp (need err) Q p.
Proof. intros ->. unfold need. by wp_steps. Qed.
End process.

Section open_socket.
Context {L : Type} `{!Clist L, !ClistLaws L}.
Implicit Types (p : process L) (t : udp L).

(** A socket and its lists, as a state of the functions on one socket, in which
    there is no connection. *)
Definition alone (x : st_sock * L) t : Prop := u_sock t = x.1 ∧ u_lists t = x.2 ∧ u_links t = ∅.

Lemma new_socket_fields sock wait (lists : L) : (exSocket_state sock wait lists).1 =
  Sock true 1 0 sock (-1) wait 0 zero_tv zero_tv sts_list 0 0 0 0 1 ∅ ∅.
Proof. reflexivity. Qed.

Lemma new_socket_room sock wait (lists : L) t : clist_rep lists ∅ →
  alone (exSocket_state sock wait lists) t → room 4096 t ∧ ∀ P, peers P t.
Proof.
  intros HR (E1&E2&E3).
  enough (∀ P, sock_typed P t [] all_ids [] (λ _, [])) as Ht.
  { split; [exists ∅, [], all_ids, [], (λ _, []); split; [done|by vm_compute; lia]|].
    intros P. by exists [], all_ids, [], (λ _, []). }
  intros P.
  pose proof (new_socket_table sock wait lists ∅ HR eq_refl) as HT.
  revert HT E1 E2. rewrite (surjective_pairing (exSocket_state _ _ _)), new_socket_fields.
  generalize (exSocket_state sock wait lists).2. cbn [fst snd]. intros ls HT E1 E2.
  split; [by unfold table; rewrite E1, E2, E3|by rewrite E1|by rewrite E1|].
  intros q Hq. by apply elem_of_nil in Hq.
Qed.

(** C19: opening a socket.  When all goes well the new socket is entered beside
    the others, which do not change, it waits as long as [setDefaultWaitTime]
    says, and it can take 4096 connections, and the datagrams of whatever 4096
    peers ([thread_recv_total]).  A number that is too large or in use is refused and
    changes nothing.  In every case the lock is free again.  When the port is
    taken the process ends. *)
Theorem exSocket_spec recvPort an (lists : L) p : unlocked p → an_semLink an = 0 → 0 ≤ an_socket an →
  let sock := an_socket an in
  (all_well recvPort an → sock ≤ MAX_SOCKET_NUM → g_pSock p !! sock = None → clist_rep lists ∅ →
    wp (exSocket recvPort an lists) (λ r p', r = sock ∧ unlocked p' ∧ g_tsWaitTime p' = g_tsWaitTime p ∧
      ∃ x, g_pSock p' = <[sock := x]> (g_pSock p) ∧ ss_tsWaitTime x.1 = g_tsWaitTime p ∧ ss_socket x.1 = sock ∧
        ∀ t, alone x t → room 4096 t ∧ ∀ P, peers P t) p) ∧
  (MAX_SOCKET_NUM < sock ∨ is_Some (g_pSock p !! sock) →
    wp (exSocket recvPort an lists) (λ r p', r = EX_UDP_ERROR ∧ unlocked p' ∧ g_pSock p' = g_pSock p) p) ∧
  (sock ≤ MAX_SOCKET_NUM → g_pSock p !! sock = None → recvPort ≠ 0 → an_bind an = SOCKET_ERROR →
    exSocket recvPort an lists p = Exited EXIT_FAILURE).
Proof.
  intros Hu Hsem Hsock sock. split_and!.
  - intros (_&Hb&Hm&Hs&Hr&Hl) Hmax Hfree HR. unfold exSocket. apply wp_lock_process; [done..|]. cbv zeta. fold sock.
    rewrite (proj2 (Z.eqb_neq sock SOCKET_ERROR)) by (unfold SOCKET_ERROR; lia). rewrite (proj2 (Z.ltb_ge sock 0)) by lia.
    wp_steps. simpl g_pSock. rewrite Hfree, (proj2 (Z.ltb_ge _ _)) by done. simpl orb.
    replace (negb (recvPort =? 0) && (an_bind an =? SOCKET_ERROR)) with false.
    2:{ symmetry. apply andb_false_iff. rewrite negb_false_iff, Z.eqb_eq, Z.eqb_neq. destruct (decide (recvPort = 0)); auto. }
    rewrite Hm. wp_steps. pose proof (new_socket_room sock (g_tsWaitTime p) lists) as Hroom.
    simpl g_tsWaitTime. rewrite Hs. do 5 (first [apply wp_need; [done|]|idtac]; wp_steps).
    unfold post_semLink. wp_steps. split_and!; [done|done|done|].
    exists (exSocket_state sock (g_tsWaitTime p) lists). rewrite new_socket_fields.
    split_and!; [done..|]. intros t Ht. by apply Hroom.
  - intros Hno. unfold exSocket. apply wp_lock_process; [done..|]. cbv zeta. fold sock.
    rewrite (proj2 (Z.eqb_neq sock SOCKET_ERROR)) by (unfold SOCKET_ERROR; lia). rewrite (proj2 (Z.ltb_ge sock 0)) by lia.
    wp_steps. simpl g_pSock. replace (_ || _) with true; [unfold post_semLink; by wp_steps|].
    symmetry. apply orb_true_iff. rewrite Z.ltb_lt, bool_decide_eq_true. done.
  - intros Hmax Hfree Hport Hbind. unfold exSocket.
    rewrite (bind_ret _ _ _ _ _ (lock_process_eq an p Hu Hsem)). cbv zeta. fold sock.
    rewrite (proj2 (Z.eqb_neq sock SOCKET_ERROR)) by (unfold SOCKET_ERROR; lia). rewrite (proj2 (Z.ltb_ge sock 0)) by lia.
    apply bind_outcome, wp_gets. cbn [g_pSock]. rewrite Hfree, (proj2 (Z.ltb_ge _ _)) by done. simpl orb.
    rewrite Hbind, (proj2 (Z.eqb_neq recvPort 0)) by done. reflexivity.
Qed.

(** The last number that [exSocket] accepts is refused by the functions that
    work on a socket. *)
Lemma last_socket_unusable t : assert_sock MAX_SOCKET_NUM t = Ret (false, t).
Proof. reflexivity. Qed.
End open_socket.

(** ** Witness *)

Module process_witness.
Definition answers_ok : answers := Answers 0 3 0 true (0, 0, 0) 0 0.
Local Abbreviation lists0 := (∅ : gmap Z list_head).

Lemma exSocket_spec_witness :
  wp (exSocket 9000 answers_ok lists0) (λ r p', r = an_socket answers_ok ∧ unlocked p' ∧
    g_tsWaitTime p' = g_tsWaitTime (process_start (L := gmap Z list_head)) ∧
    ∃ x, g_pSock p' = <[an_socket answers_ok := x]> (g_pSock process_start) ∧
      ss_tsWaitTime x.1 = g_tsWaitTime (process_start (L := gmap Z list_head)) ∧ ss_socket x.1 = an_socket answers_ok ∧
      ∀ t, alone x t → room 4096 t ∧ ∀ P, peers P t) process_start.
Proof.
  destruct (exSocket_spec 9000 answers_ok lists0 process_start) as [Hok _]; [done|done|done|].
  apply Hok; [split_and!; done|done|apply lookup_empty|apply links_witness.empty_rep].
Defined.
End process_witness.
