(* ===== verification/MsgQueue.v ===== *)
(** * MsgQueue: the message queue of src/udp/ex_udp.c where the system has none

    Under WIN32 the module brings its own [msgget], [msgsnd] and [msgrcv]: a ring
    of messages and four binary semaphores.  Any number of threads call them at
    the same time: a call is a program whose steps, one statement each, are
    interleaved with those of the others.  [long] and [int] have four bytes, a
    [size_t] eight.  The handle that CreateSemaphore returns is a parameter. *)
From stdpp Require Import base tactics list numbers gmap relations.
From S2P Require Import Prelude Udp.
Local Open Scope Z_scope.

(** ** Data *)

Definition MAX_MSG_QUEUE : Z := 0x1FFF.
Definition IPC_NOWAIT : Z := 2048.
Definition SIZEOF_LONG : Z := 4.
(** [sizeof(st_msg_packet)]: type, id and len, and the data. *)
Definition SIZEOF_MSG : Z := 12 + MAX_PACKET_DATA_SIZE.

(** The slots are the bytes of a [st_msg_packet] each. *)
Record stMsgQueue := MsgQueue {
  semRead : Z;
  semWrite : Z;
  semReadOnly : Z;
  semWriteOnly : Z;
  msgQueue : list (list Z);
  mq_read : Z;
  mq_write : Z;
}.

Definition set_semRead (v : Z) (q : stMsgQueue) : stMsgQueue :=
  MsgQueue v (semWrite q) (semReadOnly q) (semWriteOnly q) (msgQueue q) (mq_read q) (mq_write q).
Definition set_semWrite (v : Z) (q : stMsgQueue) : stMsgQueue :=
  MsgQueue (semRead q) v (semReadOnly q) (semWriteOnly q) (msgQueue q) (mq_read q) (mq_write q).
Definition set_semReadOnly (v : Z) (q : stMsgQueue) : stMsgQueue :=
  MsgQueue (semRead q) (semWrite q) v (semWriteOnly q) (msgQueue q) (mq_read q) (mq_write q).
Definition set_semWriteOnly (v : Z) (q : stMsgQueue) : stMsgQueue :=
  MsgQueue (semRead q) (semWrite q) (semReadOnly q) v (msgQueue q) (mq_read q) (mq_write q).
Definition set_msgQueue (v : list (list Z)) (q : stMsgQueue) : stMsgQueue :=
  MsgQueue (semRead q) (semWrite q) (semReadOnly q) (semWriteOnly q) v (mq_read q) (mq_write q).
Definition set_read (v : Z) (q : stMsgQueue) : stMsgQueue :=
  MsgQueue (semRead q) (semWrite q) (semReadOnly q) (semWriteOnly q) (msgQueue q) v (mq_write q).
Definition set_write (v : Z) (q : stMsgQueue) : stMsgQueue :=
  MsgQueue (semRead q) (semWrite q) (semReadOnly q) (semWriteOnly q) (msgQueue q) (mq_read q) v.

(** The static variable, zero at the start. *)
Definition g_msgQueue : stMsgQueue :=
  MsgQueue 0 0 0 0 (replicate (Z.to_nat MAX_MSG_QUEUE) (replicate (Z.to_nat SIZEOF_MSG) 0)) 0 0.

Abbreviation mqM := (M stMsgQueue).

(** ** Semaphores: at most one unit each *)

(** [handle] is what CreateSemaphore returns. *)
Definition sem_init (set : Z → stMsgQueue → stMsgQueue) (handle initCount : Z) : mqM Z :=
  if handle =? 0 then mret EX_UDP_ERROR else modify (set initCount);; mret 0.
Definition sem_wait (get : stMsgQueue → Z) (set : Z → stMsgQueue → stMsgQueue) : mqM unit :=
  n ← gets get; if n <=? 0 then blocked else modify (set (n - 1)).
(** ReleaseSemaphore changes nothing when the count is at its maximum. *)
Definition sem_post (get : stMsgQueue → Z) (set : Z → stMsgQueue → stMsgQueue) : mqM unit :=
  n ← gets get; if n <? 1 then modify (set (n + 1)) else mret tt.

(** ** The functions *)

(** No value is returned when the semaphores could be created. *)
Definition msgget (h1 h2 h3 h4 : Z) : mqM (option Z) :=
  r ← sem_init set_semRead h1 0;
  if r =? EX_UDP_ERROR then mret (Some EX_UDP_ERROR)
  else
    r ← sem_init set_semWrite h2 0;
    if r =? EX_UDP_ERROR then mret (Some EX_UDP_ERROR)
    else
      r ← sem_init set_semReadOnly h3 1;
      if r =? EX_UDP_ERROR then mret (Some EX_UDP_ERROR)
      else
        r ← sem_init set_semWriteOnly h4 1;
        if r =? EX_UDP_ERROR then mret (Some EX_UDP_ERROR) else mret None.

(** [msgQueue[i]], and the bytes of its [len]. *)
Definition slot_at (q : stMsgQueue) (i : Z) : list Z := default [] (msgQueue q !! Z.to_nat i).
Definition int_at (off : nat) (x : list Z) : Z :=
  s32 (foldr (λ b n, b + 256 * n) 0 (take 4 (drop off x))).
Definition slot_len (x : list Z) : Z := int_at 8 x.

(** [memcpy] of [n] bytes of [src] to the slot [i]. *)
Definition copy_in (i n : Z) (src : list Z) : mqM unit :=
  modify_opt (λ q,
    if (n <=? Z.of_nat (length src)) && (n <=? SIZEOF_MSG) && (0 <=? i) && (i <? MAX_MSG_QUEUE)
    then Some (set_msgQueue (<[Z.to_nat i := overwrite (take (Z.to_nat n) src) (slot_at q i)]> (msgQueue q)) q)
    else None).
(** [memcpy] of the first [n] bytes of the slot [i]. *)
Definition copy_out (i n : Z) : mqM (list Z) :=
  gets_opt (λ q, if (0 <=? n) && (n <=? SIZEOF_MSG) && (0 <=? i) && (i <? MAX_MSG_QUEUE)
                 then Some (take (Z.to_nat n) (slot_at q i)) else None).

(** The statements of [msgsnd(msqid, msgp, msgsz, msgflg)], by where the thread
    is: at the lock, at the test, in the branches, at the two ends. *)
Inductive snd_pc := SWait | STest | SCopy | SAdvance | SPost | SSleep | SFail | SUnlock | SDone (ret : Z).

#[global] Instance snd_pc_eq_dec : EqDecision snd_pc.
Proof. solve_decision. Defined.

Definition snd_step (msgp : list Z) (msgsz msgflg : Z) (pc : snd_pc) : mqM snd_pc :=
  match pc with
  | SWait => sem_wait semWriteOnly set_semWriteOnly;; mret STest
  | STest =>
      w ← gets mq_write; r ← gets mq_read;
      mret (if negb ((w + 1) mod MAX_MSG_QUEUE =? r) then SCopy
            else if msgflg =? IPC_NOWAIT then SFail else SSleep)
  | SCopy => w ← gets mq_write; copy_in w (u64 (msgsz + SIZEOF_LONG)) msgp;; mret SAdvance
  | SAdvance => w ← gets mq_write; modify (set_write ((w + 1) mod MAX_MSG_QUEUE));; mret SPost
  | SPost => sem_post semRead set_semRead;; mret SUnlock
  | SSleep => sem_wait semWrite set_semWrite;; mret STest
  | SFail => sem_post semWriteOnly set_semWriteOnly;; mret (SDone (-1))
  | SUnlock => sem_post semWriteOnly set_semWriteOnly;; mret (SDone (s32 msgsz))
  | SDone r => mret (SDone r)
  end.

(** The statements of [msgrcv(msqid, msgp, msgsz, msgtyp, msgflg)]; a thread
    that has copied a message carries the bytes. *)
Inductive rcv_pc :=
| RStart | RWait | RTest | RCopy | RAdvance (buf : list Z) | RPost (buf : list Z) | RSleep
| RFail | RUnlock (buf : list Z) | RDone (ret : Z) (buf : list Z).

(** How many bytes are copied: those that [len] says, or the room there is. *)
Definition rcv_count (msgsz : Z) (x : list Z) : Z :=
  let msgsz := u64 (msgsz + SIZEOF_LONG) in
  let ret := s32 (u64 (SIZEOF_MSG - MAX_PACKET_DATA_SIZE + slot_len x)) in
  if msgsz <? u64 ret then s32 msgsz else ret.

Definition rcv_step (msgsz msgflg : Z) (pc : rcv_pc) : mqM rcv_pc :=
  match pc with
  | RStart => if msgsz <=? 0 then mret (RDone (-1) []) else mret RWait
  | RWait => sem_wait semReadOnly set_semReadOnly;; mret RTest
  | RTest =>
      w ← gets mq_write; r ← gets mq_read;
      mret (if negb (w =? r) then RCopy else if msgflg =? IPC_NOWAIT then RFail else RSleep)
  | RCopy =>
      r ← gets mq_read; x ← gets (λ q, slot_at q r);
      buf ← copy_out r (rcv_count msgsz x); mret (RAdvance buf)
  | RAdvance buf => r ← gets mq_read; modify (set_read ((r + 1) mod MAX_MSG_QUEUE));; mret (RPost buf)
  | RPost buf => sem_post semWrite set_semWrite;; mret (RUnlock buf)
  | RSleep => sem_wait semRead set_semRead;; mret RTest
  | RFail => sem_post semReadOnly set_semReadOnly;; mret (RDone (-1) [])
  | RUnlock buf =>
      sem_post semReadOnly set_semReadOnly;;
      mret (RDone (s32 (u64 (Z.of_nat (length buf) - SIZEOF_LONG))) buf)
  | RDone r buf => mret (RDone r buf)
  end.

(** A whole call, when no other thread runs. *)
Definition msgsnd (fuel : nat) (msgp : list Z) (msgsz msgflg : Z) : mqM Z :=
  loop fuel (λ pc, pc ← snd_step msgp msgsz msgflg pc;
    match pc with SDone r => mret (inr r) | _ => mret (inl pc) end) SWait.
Definition msgrcv (fuel : nat) (msgsz msgflg : Z) : mqM (Z * list Z) :=
  loop fuel (λ pc, pc ← rcv_step msgsz msgflg pc;
    match pc with RDone r buf => mret (inr (r, buf)) | _ => mret (inl pc) end) RStart.

(** ** Threads *)

Inductive thread :=
| Snd (msgp : list Z) (msgsz msgflg : Z) (pc : snd_pc)
| Rcv (msgsz msgflg : Z) (pc : rcv_pc).

Definition thread_step (th : thread) : mqM thread :=
  match th with
  | Snd m n f pc => pc ← snd_step m n f pc; mret (Snd m n f pc)
  | Rcv n f pc => pc ← rcv_step n f pc; mret (Rcv n f pc)
  end.
Definition returned (th : thread) : bool :=
  match th with Snd _ _ _ (SDone _) | Rcv _ _ (RDone _ _) => true | _ => false end.

(** The queue, the threads inside a call, the messages put in and taken out so
    far: a message with its size, a copy with the room there was. *)
Record system := System {
  y_queue : stMsgQueue;
  y_threads : gmap Z thread;
  y_sent : list (list Z);
  y_received : list (Z * list Z);
}.

(** A message of the module: one that carries data, with [len] and as many bytes
    as it says, or one that ends with [id]. *)
Definition data_msg (m : list Z) : Prop :=
  12 ≤ Z.of_nat (length m) ≤ SIZEOF_MSG ∧ slot_len m = Z.of_nat (length m) - 12.
Definition msg_ok (m : list Z) : Prop := data_msg m ∨ 4 ≤ Z.of_nat (length m) ≤ 8.
Definition call_ok (th : thread) : Prop :=
  match th with
  | Snd m n f pc => msg_ok m ∧ n = Z.of_nat (length m) - SIZEOF_LONG ∧ pc = SWait
  | Rcv n f pc => 0 ≤ n < 2 ^ 31 - SIZEOF_LONG ∧ pc = RStart
  end.

(** What a step adds to the messages put in and taken out. *)
Definition sent_by (th : thread) : list (list Z) :=
  match th with Snd m _ _ SAdvance => [m] | _ => [] end.
Definition received_by (th : thread) : list (Z * list Z) :=
  match th with Rcv n _ (RAdvance buf) => [(n, buf)] | _ => [] end.

Inductive ystep : system → system → Prop :=
| y_call q ths ss rs i th : ths !! i = None → call_ok th →
    ystep (System q ths ss rs) (System q (<[i := th]> ths) ss rs)
| y_run q q' ths ss rs i th th' : ths !! i = Some th → returned th = false →
    thread_step th q = Ret (th', q') →
    ystep (System q ths ss rs) (System q' (<[i := th']> ths) (ss ++ sent_by th) (rs ++ received_by th))
| y_return q ths ss rs i th : ths !! i = Some th → returned th = true →
    ystep (System q ths ss rs) (System q (delete i ths) ss rs).

(** The queue when [msgget] has created its semaphores. *)
Definition mq_start : stMsgQueue := set_semWriteOnly 1 (set_semReadOnly 1 (set_semWrite 0 (set_semRead 0 g_msgQueue))).
Definition reachable : system → Prop := rtc ystep (System mq_start ∅ [] []).

Lemma msgget_start h1 h2 h3 h4 : h1 ≠ 0 → h2 ≠ 0 → h3 ≠ 0 → h4 ≠ 0 →
  msgget h1 h2 h3 h4 g_msgQueue = Ret (None, mq_start).
Proof.
  intros. unfold msgget, sem_init. rewrite !(proj2 (Z.eqb_neq _ 0)) by done. done.
Qed.

(** ** Slots *)

Definition slot_ok (x : list Z) : Prop := length x = Z.to_nat SIZEOF_MSG ∧ 0 ≤ slot_len x ≤ MAX_PACKET_DATA_SIZE.

Lemma slot_len_app m y : (12 ≤ length m)%nat → slot_len (m ++ y) = slot_len m.
Proof.
  intros Hm. unfold slot_len, int_at. rewrite drop_app_le by lia.
  rewrite take_app_le; [done|]. rewrite length_drop. lia.
Qed.
Lemma slot_len_drop m x : (length m ≤ 8)%nat → slot_len (m ++ drop (length m) x) = slot_len x.
Proof.
  intros Hm. unfold slot_len, int_at. rewrite drop_app_ge, drop_drop by lia.
  by replace (length m + (8 - length m))%nat with 8%nat by lia.
Qed.

Lemma overwrite_ok m x : msg_ok m → slot_ok x → slot_ok (overwrite m x) ∧ (data_msg m → slot_len (overwrite m x) = slot_len m).
Proof.
  intros Hm [Hx Hl]. unfold overwrite.
  assert (length (m ++ drop (length m) x) = Z.to_nat SIZEOF_MSG) as Hlen.
  { rewrite length_app, length_drop, Hx. destruct Hm as [[Hm _]|Hm]; unfold SIZEOF_MSG, MAX_PACKET_DATA_SIZE in *; lia. }
  assert (data_msg m → slot_len (m ++ drop (length m) x) = slot_len m) as Hd.
  { intros [Hm' _]. apply slot_len_app. lia. }
  split; [|done]. split; [done|]. destruct Hm as [Hm|Hm].
  - rewrite Hd by done. destruct Hm as [Hm ->]. unfold SIZEOF_MSG in Hm. lia.
  - by rewrite slot_len_drop by lia.
Qed.

Lemma rcv_count_ok n x : 0 ≤ n < 2 ^ 31 - SIZEOF_LONG → slot_ok x →
  rcv_count n x = Z.min (n + SIZEOF_LONG) (12 + slot_len x).
Proof.
  intros Hn [_ Hx]. unfold rcv_count, SIZEOF_MSG, SIZEOF_LONG, MAX_PACKET_DATA_SIZE in *.
  rewrite (u64_small (n + 4)) by lia.
  replace (12 + 1464 - 1464 + slot_len x) with (12 + slot_len x) by lia.
  rewrite (u64_small (12 + slot_len x)) by lia. rewrite s32_small by lia.
  rewrite (u64_small (12 + slot_len x)) by lia. rewrite s32_small by lia.
  destruct (Z.ltb_spec (n + 4) (12 + slot_len x)); lia.
Qed.

(** What a receiver with room for [n] bytes gets of the message [m]: the common
    part agrees, and of a message with data it is all that fits. *)
Definition delivered (m : list Z) (c : Z * list Z) : Prop :=
  let '(n, buf) := c in
  take (length m) buf = take (length buf) m ∧
  (data_msg m → buf = take (Z.to_nat (n + SIZEOF_LONG)) m).

Lemma delivered_copy n m x : 0 ≤ n < 2 ^ 31 - SIZEOF_LONG → msg_ok m → slot_ok x →
  delivered m (n, take (Z.to_nat (rcv_count n (overwrite m x))) (overwrite m x)).
Proof.
  intros Hn Hm Hx. destruct (overwrite_ok m x Hm Hx) as [Hx' Hd]. rewrite rcv_count_ok by done.
  set (k := Z.to_nat (Z.min _ _)).
  assert (k ≤ length (overwrite m x))%nat as Hk.
  { destruct Hx' as [-> Hl]. unfold k, SIZEOF_MSG in *. lia. }
  split.
  - rewrite take_take, length_take, Nat.min_comm, <- take_take. unfold overwrite.
    rewrite take_app_length. rewrite Nat.min_l by done. done.
  - intros Hdm. unfold k. rewrite Hd by done. destruct Hdm as [Hm1 ->].
    replace (12 + (Z.of_nat (length m) - 12)) with (Z.of_nat (length m)) by lia. unfold overwrite.
    destruct (Z.le_gt_cases (n + SIZEOF_LONG) (Z.of_nat (length m))).
    + rewrite Z.min_l by lia. by rewrite take_app_le by lia.
    + rewrite Z.min_r, Nat2Z.id by lia. by rewrite take_app_length, take_ge by lia.
Qed.

(** ** The ring *)

Definition ring (q : stMsgQueue) : Prop :=
  0 ≤ mq_read q < MAX_MSG_QUEUE ∧ 0 ≤ mq_write q < MAX_MSG_QUEUE ∧
  length (msgQueue q) = Z.to_nat MAX_MSG_QUEUE ∧ Forall slot_ok (msgQueue q).
Definition mq_full (q : stMsgQueue) : Prop := (mq_write q + 1) mod MAX_MSG_QUEUE = mq_read q.
Definition mq_empty (q : stMsgQueue) : Prop := mq_write q = mq_read q.
#[global] Instance mq_full_dec q : Decision (mq_full q) := decide (_ = _).
#[global] Instance mq_empty_dec q : Decision (mq_empty q) := decide (_ = _).

(** The messages in the queue, the oldest first. *)
Definition used (q : stMsgQueue) : Z := (mq_write q - mq_read q) mod MAX_MSG_QUEUE.
Definition pend (q : stMsgQueue) : list (list Z) :=
  (λ k, slot_at q ((mq_read q + k) mod MAX_MSG_QUEUE)) <$> seqZ 0 (used q).

Lemma used_range q : 0 ≤ used q < MAX_MSG_QUEUE.
Proof. by apply Z.mod_pos_bound. Qed.
Lemma length_pend q : length (pend q) = Z.to_nat (used q).
Proof. unfold pend. by rewrite length_fmap, length_seqZ. Qed.

Lemma pend_put q : ring q → ¬ mq_full q →
  pend (set_write ((mq_write q + 1) mod MAX_MSG_QUEUE) q) = pend q ++ [slot_at q (mq_write q)].
Proof.
  intros (Hr&Hw&_) Hf. unfold pend. set (q' := set_write _ q).
  assert (used q' = used q + 1) as ->.
  { unfold used, mq_full, q' in *. simpl in *. unfold MAX_MSG_QUEUE in *. dlia. }
  pose proof (used_range q) as Hu. rewrite seqZ_app by lia. rewrite fmap_app. f_equal. simpl. f_equal.
  unfold q', slot_at. simpl. do 3 f_equal. unfold used. unfold MAX_MSG_QUEUE in *. dlia.
Qed.

Lemma pend_take q : ring q → ¬ mq_empty q →
  pend q = slot_at q (mq_read q) :: pend (set_read ((mq_read q + 1) mod MAX_MSG_QUEUE) q).
Proof.
  intros (Hr&Hw&_) He. unfold pend. set (q' := set_read _ q).
  assert (used q = 1 + used q') as E.
  { unfold used, mq_empty, q' in *. simpl in *. unfold MAX_MSG_QUEUE in *. dlia. }
  pose proof (used_range q') as Hu. rewrite E, seqZ_app by lia. rewrite fmap_app. simpl. f_equal.
  - f_equal. unfold MAX_MSG_QUEUE in *. dlia.
  - replace (seqZ (0 + 1) (used q')) with (Z.add 1 <$> seqZ 0 (used q')) by (rewrite fmap_add_seqZ; f_equal; lia).
    rewrite <- list_fmap_compose. apply list_fmap_ext. intros _ k _. simpl. unfold q', slot_at. simpl. do 3 f_equal.
    unfold MAX_MSG_QUEUE in *. dlia.
Qed.

Lemma slot_at_ok q i : ring q → 0 ≤ i < MAX_MSG_QUEUE → slot_ok (slot_at q i).
Proof.
  intros (_&_&Hl&Hs) Hi. unfold slot_at. destruct (msgQueue q !! Z.to_nat i) as [x|] eqn:E.
  - by eapply Forall_lookup_1.
  - apply lookup_ge_None in E. lia.
Qed.

(** Writing the free slot changes no message. *)
Lemma pend_write q x : ring q → pend (set_msgQueue (<[Z.to_nat (mq_write q) := x]> (msgQueue q)) q) = pend q.
Proof.
  intros (Hr&Hw&_). unfold pend. apply list_fmap_ext. intros j k Hk. apply list_elem_of_lookup_2, elem_of_seqZ in Hk.
  unfold slot_at. simpl. rewrite list_lookup_insert_ne; [done|].
  unfold used in Hk. simpl in Hk. unfold MAX_MSG_QUEUE in *. dlia.
Qed.
Lemma slot_write q x : ring q → slot_at (set_msgQueue (<[Z.to_nat (mq_write q) := x]> (msgQueue q)) q) (mq_write q) = x.
Proof. intros (_&Hw&Hl&_). unfold slot_at. simpl. rewrite list_lookup_insert_eq; [done|lia]. Qed.
Lemma slot_write_ne q x i : 0 ≤ i → 0 ≤ mq_write q → i ≠ mq_write q →
  slot_at (set_msgQueue (<[Z.to_nat (mq_write q) := x]> (msgQueue q)) q) i = slot_at q i.
Proof. intros. unfold slot_at. simpl. by rewrite list_lookup_insert_ne by lia. Qed.

(** ** Critical sections and wake-ups *)

(** [sem] is the lock of the threads [inside]. *)
Definition one_inside (inside : thread → bool) (sem : Z) (ths : gmap Z thread) : Prop :=
  (sem = 1 ∧ ∀ i th, ths !! i = Some th → inside th = false) ∨
  (sem = 0 ∧ ∃ i th, ths !! i = Some th ∧ inside th = true ∧
    ∀ j th', ths !! j = Some th' → inside th' = true → j = i).

(** A sleeping thread has its signal, or a reason to sleep, or a thread that is
    about to signal. *)
Definition wakes (sleeping posting : thread → bool) (sem : Z) (reason : Prop) (ths : gmap Z thread) : Prop :=
  ∀ i th, ths !! i = Some th → sleeping th = true →
    sem = 1 ∨ reason ∨ ∃ j th', ths !! j = Some th' ∧ posting th' = true.

Section threads.
Implicit Types (inside : thread → bool) (ths : gmap Z thread) (th : thread).

Lemma inside_enter inside ths i th th' : one_inside inside 1 ths → ths !! i = Some th → inside th' = true →
  one_inside inside 0 (<[i := th']> ths).
Proof.
  intros [[_ Hno]|[? _]] Hi Hth'; [|done]. right. split; [done|]. exists i, th'.
  rewrite lookup_insert_eq. split_and!; [done..|].
  intros j th2 [[<- _]|[_ Hj]]%lookup_insert_Some Hin; [done|]. specialize (Hno _ _ Hj). congruence.
Qed.
Lemma inside_stay inside sem ths i th th' : one_inside inside sem ths → ths !! i = Some th → inside th' = inside th →
  one_inside inside sem (<[i := th']> ths).
Proof.
  intros [[-> Hno]|[-> (k&thk&Hk&Hin&Huni)]] Hi E.
  - left. split; [done|]. intros j th2 [[<- <-]|[_ Hj]]%lookup_insert_Some; [|by eapply Hno].
    rewrite E. by eapply Hno.
  - right. split; [done|]. exists k, (if decide (k = i) then th' else thk). case_decide as Hki.
    + subst k. rewrite lookup_insert_eq. split; [done|]. split; [congruence|].
      intros j th2 [[<- _]|[_ Hj]]%lookup_insert_Some; [done|by eapply Huni].
    + rewrite lookup_insert_ne by done. split_and!; [done..|].
      intros j th2 [[<- <-]|[_ Hj]]%lookup_insert_Some; [|by eapply Huni]. rewrite E. by eapply Huni.
Qed.
Lemma inside_alone inside sem ths i th : one_inside inside sem ths → ths !! i = Some th → inside th = true →
  sem = 0 ∧ ∀ j th', ths !! j = Some th' → inside th' = true → j = i.
Proof.
  intros [[_ Hno]|[-> (k&thk&Hk&Hin&Huni)]] Hi Hth; [specialize (Hno _ _ Hi); congruence|].
  split; [done|]. assert (i = k) as -> by by eapply Huni. done.
Qed.
Lemma inside_leave inside sem ths i th th' : one_inside inside sem ths → ths !! i = Some th → inside th = true →
  inside th' = false → one_inside inside 1 (<[i := th']> ths).
Proof.
  intros Ho Hi Hth Hth'. destruct (inside_alone _ _ _ _ _ Ho Hi Hth) as [_ Huni]. left. split; [done|].
  intros j th2 [[<- <-]|[Hne Hj]]%lookup_insert_Some; [done|].
  destruct (inside th2) eqn:E; [|done]. by rewrite (Huni _ _ Hj E) in Hne.
Qed.
Lemma inside_new inside sem ths i th : one_inside inside sem ths → ths !! i = None → inside th = false →
  one_inside inside sem (<[i := th]> ths).
Proof.
  intros [[-> Hno]|[-> (k&thk&Hk&Hin&Huni)]] Hi Hth.
  - left. split; [done|]. intros j th2 [[<- <-]|[_ Hj]]%lookup_insert_Some; [done|by eapply Hno].
  - right. split; [done|]. exists k, thk. rewrite lookup_insert_ne by congruence. split_and!; [done..|].
    intros j th2 [[<- <-]|[_ Hj]]%lookup_insert_Some; [congruence|by eapply Huni].
Qed.
Lemma inside_gone inside sem ths i th : one_inside inside sem ths → ths !! i = Some th → inside th = false →
  one_inside inside sem (delete i ths).
Proof.
  intros [[-> Hno]|[-> (k&thk&Hk&Hin&Huni)]] Hi Hth.
  - left. split; [done|]. intros j th2 [_ Hj]%lookup_delete_Some. by eapply Hno.
  - right. split; [done|]. exists k, thk. rewrite lookup_delete_ne by congruence. split_and!; [done..|].
    intros j th2 [_ Hj]%lookup_delete_Some. by eapply Huni.
Qed.

Lemma wakes_step sleeping posting sem sem' (reason reason' : Prop) ths i th th' :
  wakes sleeping posting sem reason ths → ths !! i = Some th →
  (sleeping th' = true → sleeping th = true ∨ reason') →
  (posting th = true → posting th' = true ∨ sem' = 1) →
  (sem = 1 → sem' = 1) → (reason → reason' ∨ posting th' = true) →
  wakes sleeping posting sem' reason' (<[i := th']> ths).
Proof.
  intros HW Hi Hsl Hpo Hsem Hre j thj Hj Hs.
  assert (∀ k thk, ths !! k = Some thk → sleeping thk = true →
    sem' = 1 ∨ reason' ∨ ∃ j th2, <[i := th']> ths !! j = Some th2 ∧ posting th2 = true) as HW'.
  { intros k thk Hk Hsk. destruct (HW _ _ Hk Hsk) as [Hd|[Hd|(n&thn&Hn&Hp)]].
    - left. auto.
    - destruct (Hre Hd) as [?|Hp]; [auto|]. right; right. exists i, th'. by rewrite lookup_insert_eq.
    - destruct (decide (n = i)) as [->|].
      + assert (thn = th) as -> by congruence. destruct (Hpo Hp) as [Hp'|?]; [|auto].
        right; right. exists i, th'. by rewrite lookup_insert_eq.
      + right; right. exists n, thn. by rewrite lookup_insert_ne. }
  apply lookup_insert_Some in Hj as [[<- <-]|[_ Hj]]; [|by eapply HW'].
  destruct (Hsl Hs) as [Hs'|?]; [by eapply HW'|auto].
Qed.
(** When nobody else sleeps. *)
Lemma wakes_alone inside sleeping posting sem sem' (reason : Prop) ths i th th' :
  one_inside inside sem ths → ths !! i = Some th → inside th = true →
  (∀ th, sleeping th = true → inside th = true) → sleeping th' = false →
  wakes sleeping posting sem' reason (<[i := th']> ths).
Proof.
  intros Ho Hi Hth Hsl Hth' j thj [[<- <-]|[Hne Hj]]%lookup_insert_Some Hs; [congruence|].
  destruct (inside_alone _ _ _ _ _ Ho Hi Hth) as [_ Huni]. destruct Hne. symmetry. eapply Huni; [done|auto].
Qed.
Lemma wakes_new sleeping posting sem (reason : Prop) ths i th :
  wakes sleeping posting sem reason ths → ths !! i = None → sleeping th = false →
  wakes sleeping posting sem reason (<[i := th]> ths).
Proof.
  intros HW Hi Hth j thj [[<- <-]|[_ Hj]]%lookup_insert_Some Hs; [congruence|].
  destruct (HW _ _ Hj Hs) as [?|[?|(k&thk&Hk&?)]]; [auto..|]. right; right. exists k, thk.
  by rewrite lookup_insert_ne by congruence.
Qed.
Lemma wakes_gone sleeping posting sem (reason : Prop) ths i th :
  wakes sleeping posting sem reason ths → ths !! i = Some th → posting th = false →
  wakes sleeping posting sem reason (delete i ths).
Proof.
  intros HW Hi Hth j thj [_ Hj]%lookup_delete_Some Hs.
  destruct (HW _ _ Hj Hs) as [?|[?|(k&thk&Hk&?)]]; [auto..|]. right; right. exists k, thk.
  by rewrite lookup_delete_ne by congruence.
Qed.
End threads.

(** ** The invariant *)

Definition in_snd (th : thread) : bool :=
  match th with Snd _ _ _ (SWait | SDone _) => false | Snd _ _ _ _ => true | _ => false end.
Definition in_rcv (th : thread) : bool :=
  match th with Rcv _ _ (RStart | RWait | RDone _ _) => false | Rcv _ _ _ => true | _ => false end.
Definition sleep_snd (th : thread) : bool := match th with Snd _ _ _ SSleep => true | _ => false end.
Definition sleep_rcv (th : thread) : bool := match th with Rcv _ _ RSleep => true | _ => false end.
Definition post_snd (th : thread) : bool := match th with Snd _ _ _ SPost => true | _ => false end.
Definition post_rcv (th : thread) : bool := match th with Rcv _ _ (RPost _) => true | _ => false end.

(** [x] is the message [m] in a slot, and what was there before behind it. *)
Definition stores (m x : list Z) : Prop := ∃ old, msg_ok m ∧ slot_ok old ∧ x = overwrite m old.

(** What a thread knows about the queue where it is. *)
Definition thread_ok (q : stMsgQueue) (th : thread) : Prop :=
  match th with
  | Snd m n f pc => msg_ok m ∧ n = Z.of_nat (length m) - SIZEOF_LONG ∧
      match pc with
      | SCopy => ¬ mq_full q
      | SAdvance => ¬ mq_full q ∧ stores m (slot_at q (mq_write q))
      | _ => True
      end
  | Rcv n f pc => 0 ≤ n < 2 ^ 31 - SIZEOF_LONG ∧
      match pc with
      | RCopy => ¬ mq_empty q
      | RAdvance buf => ¬ mq_empty q ∧
          buf = take (Z.to_nat (rcv_count n (slot_at q (mq_read q)))) (slot_at q (mq_read q))
      | _ => True
      end
  end.

Record inv (y : system) : Prop := {
  iv_ring : ring (y_queue y);
  iv_sems : 0 ≤ semRead (y_queue y) ≤ 1 ∧ 0 ≤ semWrite (y_queue y) ≤ 1;
  iv_fifo : ∃ old new, y_sent y = old ++ new ∧ Forall2 delivered old (y_received y) ∧ Forall2 stores new (pend (y_queue y));
  iv_snd : one_inside in_snd (semWriteOnly (y_queue y)) (y_threads y);
  iv_rcv : one_inside in_rcv (semReadOnly (y_queue y)) (y_threads y);
  iv_wake_snd : wakes sleep_snd post_rcv (semWrite (y_queue y)) (mq_full (y_queue y)) (y_threads y);
  iv_wake_rcv : wakes sleep_rcv post_snd (semRead (y_queue y)) (mq_empty (y_queue y)) (y_threads y);
  iv_threads i th : y_threads y !! i = Some th → thread_ok (y_queue y) th;
}.

(** Two queues that differ in the semaphores at most. *)
Definition same_ring (q q' : stMsgQueue) : Prop :=
  msgQueue q' = msgQueue q ∧ mq_read q' = mq_read q ∧ mq_write q' = mq_write q.

Lemma same_ring_slot q q' i : same_ring q q' → slot_at q' i = slot_at q i.
Proof. intros (E&_). unfold slot_at. by rewrite E. Qed.
Lemma same_ring_pend q q' : same_ring q q' → pend q' = pend q.
Proof.
  intros HR. pose proof HR as (_&E1&E2). unfold pend, used. rewrite E1, E2. apply list_fmap_ext. intros. by apply same_ring_slot.
Qed.
Lemma same_ring_ok q q' th : same_ring q q' → thread_ok q th → thread_ok q' th.
Proof.
  intros HR. pose proof HR as (_&E1&E2). unfold thread_ok, mq_full, mq_empty. rewrite E1, E2.
  by rewrite !(same_ring_slot q q').
Qed.

Lemma inv_same_ring q q' ths ss rs i th th' :
  inv (System q ths ss rs) → same_ring q q' → thread_ok q th' →
  sent_by th = [] → received_by th = [] →
  0 ≤ semRead q' ≤ 1 ∧ 0 ≤ semWrite q' ≤ 1 →
  one_inside in_snd (semWriteOnly q') (<[i := th']> ths) → one_inside in_rcv (semReadOnly q') (<[i := th']> ths) →
  wakes sleep_snd post_rcv (semWrite q') (mq_full q) (<[i := th']> ths) →
  wakes sleep_rcv post_snd (semRead q') (mq_empty q) (<[i := th']> ths) →
  inv (System q' (<[i := th']> ths) (ss ++ sent_by th) (rs ++ received_by th)).
Proof.
  intros [Hring _ Hfifo _ _ _ _ Hth] HR Hth' -> -> Hsems Hs Hr Hws Hwr. simpl in *.
  pose proof HR as (E1&E2&E3). rewrite !app_nil_r. split; simpl; try done.
  - unfold ring. by rewrite E1, E2, E3.
  - by rewrite (same_ring_pend q q').
  - unfold mq_full. by rewrite E2, E3.
  - unfold mq_empty. by rewrite E2, E3.
  - intros j thj [[<- <-]|[_ Hj]]%lookup_insert_Some; apply (same_ring_ok q); eauto.
Qed.

(** The results of the single statements. *)
Ltac run_step E :=
  unfold thread_step, snd_step, rcv_step, sem_wait, sem_post, copy_in, copy_out, gets, modify, modify_opt, gets_opt,
    blocked, mbind, M_bind, mret, M_ret in E; simpl in E; repeat case_match; simplify_eq; simpl in *.

Lemma inside_sem inside sem ths : one_inside inside sem ths → sem = 0 ∨ sem = 1.
Proof. intros [[-> _]|[-> _]]; auto. Qed.

(** What holds of the thread that is inside, for the side conditions. *)
Ltac inside_facts :=
  repeat match goal with
  | H : (_ <=? _) = false |- _ => apply Z.leb_gt in H
  | H : (_ <=? _) = true |- _ => apply Z.leb_le in H
  | H : (_ <? _) = true |- _ => apply Z.ltb_lt in H
  | H : (_ <? _) = false |- _ => apply Z.ltb_ge in H
  | H : negb (_ =? _) = true |- _ => apply negb_true_iff, Z.eqb_neq in H
  | H : negb (_ =? _) = false |- _ => apply negb_false_iff, Z.eqb_eq in H
  end.

(** Steps that touch the semaphores only: the cases for the locks and wake-ups. *)
Ltac lock_step Hi :=
  first
  [ eapply inside_stay; [eassumption|exact Hi|done]
  | eapply inside_enter; [eassumption|exact Hi|done]
  | eapply inside_leave; [eassumption|exact Hi|done|done] ].
Ltac wake_step Hi :=
  first
  [ eapply (wakes_alone in_snd); [eassumption|exact Hi|done|by intros [? ? ? []|]|done]
  | eapply (wakes_alone in_rcv); [eassumption|exact Hi|done|by intros [|? ? []]|done]
  | eapply wakes_step; [eassumption|exact Hi|simpl; auto; try done; try (right; lia); try lia..] ].

Lemma inv_snd_step q q' ths ss rs i m n f pc th' :
  inv (System q ths ss rs) → ths !! i = Some (Snd m n f pc) → pc ≠ SCopy → pc ≠ SAdvance → returned (Snd m n f pc) = false →
  thread_step (Snd m n f pc) q = Ret (th', q') →
  inv (System q' (<[i := th']> ths) (ss ++ sent_by (Snd m n f pc)) (rs ++ received_by (Snd m n f pc))).
Proof.
  intros HI Hi N1 N2 Hret E. pose proof HI as [Hring Hsems _ Hs Hr Hws Hwr Hth]. simpl in Hring, Hsems, Hs, Hr, Hws, Hwr, Hth.
  destruct (Hth _ _ Hi) as (Hm&Hn&_). pose proof (inside_sem _ _ _ Hs) as Hlock.
  assert (in_snd (Snd m n f pc) = true → semWriteOnly q = 0) as Hin by (intros Hin; exact (proj1 (inside_alone _ _ _ _ _ Hs Hi Hin))).
  destruct pc; try done; (eapply inv_same_ring; [exact HI|..]); run_step E; inside_facts; try (by split_and!); try done; try lia.
  all: match goal with
  | |- one_inside _ _ _ => try (rewrite Hin in * by done); try replace (semWriteOnly q - 1) with 0 by lia;
       try (replace (semWriteOnly q) with 1 in Hs by lia); try lock_step Hi
  | |- wakes _ _ _ _ _ => wake_step Hi
  | _ => idtac end.
Qed.

(** Copying the message to the free slot. *)
Lemma inv_snd_copy q q' ths ss rs i m n f th' :
  inv (System q ths ss rs) → ths !! i = Some (Snd m n f SCopy) →
  thread_step (Snd m n f SCopy) q = Ret (th', q') → inv (System q' (<[i := th']> ths) ss rs).
Proof.
  intros [Hring Hsems (old&new&E1&E2&E3) Hs Hr Hws Hwr Hth] Hi E. simpl in Hring, Hsems, E1, E2, E3, Hs, Hr, Hws, Hwr, Hth.
  destruct (Hth _ _ Hi) as (Hm&Hn&Hf). pose proof Hring as (Hrd&Hwt&Hlen&Hslots). run_step E. inside_facts.
  assert (m = take (Z.to_nat (u64 (Z.of_nat (length m) - SIZEOF_LONG + SIZEOF_LONG))) m) as Em.
  { rewrite take_ge; [done|]. destruct Hm as [[? _]|?]; unfold SIZEOF_MSG, MAX_PACKET_DATA_SIZE in *; rewrite u64_small; lia. }
  rewrite <- Em. clear Em. set (x := overwrite m _).
  assert (stores m x) as Hx by (eexists; split_and!; [done|by apply slot_at_ok|done]).
  assert (ring (set_msgQueue (<[Z.to_nat (mq_write q):=x]> (msgQueue q)) q)) as Hring'.
  { split_and!; simpl; try done || lia; [by rewrite length_insert|]. apply Forall_insert; [done|].
    destruct Hx as (o&?&?&->). by apply overwrite_ok. }
  split; simpl; try done.
  - exists old, new. by rewrite pend_write.
  - by eapply inside_stay.
  - by eapply inside_stay.
  - wake_step Hi.
  - wake_step Hi.
  - intros j thj [[<- <-]|[Hne Hj]]%lookup_insert_Some.
    + split_and!; try done. simpl. by rewrite slot_write.
    + pose proof (Hth _ _ Hj) as Hok. destruct thj as [m' n' f' pc'|n' f' pc'].
      * destruct (in_snd (Snd m' n' f' pc')) eqn:Hin; [|by destruct pc'].
        destruct Hne. symmetry. by eapply (inside_alone in_snd _ _ i).
      * destruct Hok as [? Hok]. split; [done|]. unfold mq_empty in *. destruct pc'; try done; simpl in *.
        destruct Hok as [He ->]. by rewrite slot_write_ne by (unfold mq_empty in He; lia).
Qed.

(** The write index passes the message: it is in the queue. *)
Lemma inv_snd_advance q q' ths ss rs i m n f th' :
  inv (System q ths ss rs) → ths !! i = Some (Snd m n f SAdvance) →
  thread_step (Snd m n f SAdvance) q = Ret (th', q') → inv (System q' (<[i := th']> ths) (ss ++ [m]) rs).
Proof.
  intros [Hring Hsems (old&new&E1&E2&E3) Hs Hr Hws Hwr Hth] Hi E. simpl in Hring, Hsems, E1, E2, E3, Hs, Hr, Hws, Hwr, Hth.
  destruct (Hth _ _ Hi) as (Hm&Hn&Hf&Hst). pose proof Hring as (Hrd&Hwt&Hlen&Hslots). run_step E.
  split; simpl; try done.
  - split_and!; simpl; try done || lia; by apply Z.mod_pos_bound.
  - exists old, (new ++ [m]). rewrite pend_put, <- app_assoc by done. split_and!; [done..|].
    apply Forall2_app; [done|]. by repeat constructor.
  - by eapply inside_stay.
  - by eapply inside_stay.
  - eapply (wakes_alone in_snd); [eassumption|exact Hi|done|by intros [? ? ? []|]|done].
  - wake_step Hi.
  - intros j thj [[<- <-]|[Hne Hj]]%lookup_insert_Some; [by split_and!|].
    pose proof (Hth _ _ Hj) as Hok. destruct thj as [m' n' f' pc'|n' f' pc'].
    + destruct (in_snd (Snd m' n' f' pc')) eqn:Hin; [|by destruct pc'].
      destruct Hne. symmetry. by eapply (inside_alone in_snd _ _ i).
    + destruct Hok as [? Hok]. split; [done|]. unfold mq_empty, mq_full in *. by destruct pc'; naive_solver.
Qed.

Lemma inv_rcv_step q q' ths ss rs i n f pc th' :
  inv (System q ths ss rs) → ths !! i = Some (Rcv n f pc) → (∀ buf, pc ≠ RAdvance buf) → returned (Rcv n f pc) = false →
  thread_step (Rcv n f pc) q = Ret (th', q') →
  inv (System q' (<[i := th']> ths) (ss ++ sent_by (Rcv n f pc)) (rs ++ received_by (Rcv n f pc))).
Proof.
  intros HI Hi N1 Hret E. pose proof HI as [Hring Hsems _ Hs Hr Hws Hwr Hth]. simpl in Hring, Hsems, Hs, Hr, Hws, Hwr, Hth.
  destruct (Hth _ _ Hi) as (Hn&Hpc). pose proof (inside_sem _ _ _ Hr) as Hlock.
  assert (in_rcv (Rcv n f pc) = true → semReadOnly q = 0) as Hin by (intros Hin; exact (proj1 (inside_alone _ _ _ _ _ Hr Hi Hin))).
  destruct pc; try done; try (by edestruct N1); (eapply inv_same_ring; [exact HI|..]); run_step E; inside_facts; try (by split_and!); try done; try lia.
  all: match goal with
  | |- one_inside _ _ _ => try (rewrite Hin in * by done); try replace (semReadOnly q - 1) with 0 by lia;
       try (replace (semReadOnly q) with 1 in Hr by lia); try lock_step Hi
  | |- wakes _ _ _ _ _ => try wake_step Hi
  | _ => idtac end.
Qed.

(** The read index passes the message: it has been taken out. *)
Lemma inv_rcv_advance q q' ths ss rs i n f buf th' :
  inv (System q ths ss rs) → ths !! i = Some (Rcv n f (RAdvance buf)) →
  thread_step (Rcv n f (RAdvance buf)) q = Ret (th', q') → inv (System q' (<[i := th']> ths) ss (rs ++ [(n, buf)])).
Proof.
  intros [Hring Hsems (old&new&E1&E2&E3) Hs Hr Hws Hwr Hth] Hi E. simpl in Hring, Hsems, E1, E2, E3, Hs, Hr, Hws, Hwr, Hth.
  destruct (Hth _ _ Hi) as (Hn&He&Hbuf). pose proof Hring as (Hrd&Hwt&Hlen&Hslots). run_step E.
  rewrite pend_take in E3 by done. apply Forall2_cons_inv_r in E3 as (m&new'&(o&Hm&Ho&Eo)&E3&->).
  split; simpl; try done.
  - split_and!; simpl; try done || lia; by apply Z.mod_pos_bound.
  - exists (old ++ [m]), new'. rewrite <- app_assoc. split_and!; [done| |done].
    apply Forall2_app; [done|]. constructor; [|constructor]. rewrite Eo. by apply delivered_copy.
  - by eapply inside_stay.
  - by eapply inside_stay.
  - wake_step Hi.
  - eapply (wakes_alone in_rcv); [eassumption|exact Hi|done|by intros [|? ? []]|done].
  - intros j thj [[<- <-]|[Hne Hj]]%lookup_insert_Some; [by split|].
    pose proof (Hth _ _ Hj) as Hok. destruct thj as [m' n' f' pc'|n' f' pc'].
    + destruct Hok as (?&?&Hok). split_and!; [done..|].
      assert (¬ mq_full (set_read ((mq_read q + 1) mod MAX_MSG_QUEUE) q)) as Hf.
      { unfold mq_full, mq_empty in *. simpl. unfold MAX_MSG_QUEUE in *. dlia. }
      destruct pc'; try done. by destruct Hok.
    + destruct (in_rcv (Rcv n' f' pc')) eqn:Hin; [|by destruct pc'].
      destruct Hne. symmetry. by eapply (inside_alone in_rcv _ _ i).
Qed.

Lemma inv_step y y' : inv y → ystep y y' → inv y'.
Proof.
  intros HI Hstep. destruct Hstep as [q ths ss rs i th Hi Hc|q q' ths ss rs i th th' Hi Hret E|q ths ss rs i th Hi Hret].
  - destruct HI as [Hring Hsems Hfifo Hs Hr Hws Hwr Hth]. simpl in *.
    assert (in_snd th = false ∧ in_rcv th = false ∧ sleep_snd th = false ∧ sleep_rcv th = false ∧ thread_ok q th) as (?&?&?&?&?).
    { destruct th as [m n f pc|n f pc]; simpl in Hc; destruct_and!; subst; by split_and!. }
    split; simpl; try done; [by apply inside_new..|by apply wakes_new|by apply wakes_new|].
    intros j thj [[<- <-]|[_ Hj]]%lookup_insert_Some; eauto.
  - destruct th as [m n f pc|n f pc].
    + destruct (decide (pc = SCopy)) as [->|]; [simpl; rewrite !app_nil_r; by eapply inv_snd_copy|].
      destruct (decide (pc = SAdvance)) as [->|]; [simpl; rewrite app_nil_r; by eapply inv_snd_advance|].
      by eapply inv_snd_step.
    + destruct pc; try (eapply inv_rcv_step; [exact HI|exact Hi|done|done|exact E]).
      simpl. rewrite app_nil_r. by eapply inv_rcv_advance.
  - destruct HI as [Hring Hsems Hfifo Hs Hr Hws Hwr Hth]. simpl in *.
    assert (in_snd th = false ∧ in_rcv th = false ∧ post_snd th = false ∧ post_rcv th = false) as (?&?&?&?).
    { destruct th as [? ? ? []|? ? []]; done. }
    split; simpl; try done; [by eapply inside_gone..|by eapply wakes_gone|by eapply wakes_gone|].
    intros j thj [_ Hj]%lookup_delete_Some. eauto.
Qed.

Lemma inv_start : inv (System mq_start ∅ [] []).
Proof.
  assert (slot_ok (replicate (Z.to_nat SIZEOF_MSG) 0)) as Hzero.
  { split; [apply length_replicate|]. by vm_compute. }
  unfold mq_start, g_msgQueue. revert Hzero. generalize (replicate (Z.to_nat SIZEOF_MSG) 0). intros x Hx.
  assert (length (replicate (Z.to_nat MAX_MSG_QUEUE) x) = Z.to_nat MAX_MSG_QUEUE ∧
    Forall slot_ok (replicate (Z.to_nat MAX_MSG_QUEUE) x)) as [Hlen Hok]
    by (split; [apply length_replicate|by apply Forall_replicate]).
  revert Hlen Hok. generalize (replicate (Z.to_nat MAX_MSG_QUEUE) x). intros slots Hlen Hok.
  split; simpl; try done.
  - exists [], []. by split_and!.
  - by left.
  - by left.
Qed.

Lemma reachable_inv y : reachable y → inv y.
Proof.
  intros HR. enough (∀ x, inv x → rtc ystep x y → inv y) as H by (by eapply H, HR; apply inv_start).
  clear HR. intros x Hx HR. induction HR as [|x1 x2 x3 Hstep _ IH]; [done|]. by eapply IH, inv_step.
Qed.

(** A thread that has not returned takes a step, or waits for a semaphore. *)
Definition waits (q : stMsgQueue) (th : thread) : Prop :=
  match th with
  | Snd _ _ _ SWait => semWriteOnly q = 0
  | Snd _ _ _ SSleep => semWrite q = 0
  | Rcv _ _ RWait => semReadOnly q = 0
  | Rcv _ _ RSleep => semRead q = 0
  | _ => False
  end.

Lemma progress q ths ss rs i th : inv (System q ths ss rs) → ths !! i = Some th →
  (∃ r, thread_step th q = Ret r) ∨ thread_step th q = Blocked ∧ waits q th.
Proof.
  intros [Hring Hsems _ Hs Hr _ _ Hth] Hi. simpl in *. pose proof Hring as (Hrd&Hwt&Hlen&Hslots).
  pose proof (inside_sem _ _ _ Hs). pose proof (inside_sem _ _ _ Hr). pose proof (Hth _ _ Hi) as Hok.
  destruct th as [m n f pc|n f pc]; destruct Hok as (Hn&Hok); destruct pc;
    unfold thread_step, snd_step, rcv_step, sem_wait, sem_post, copy_in, copy_out, gets, modify, modify_opt, gets_opt,
      blocked, mbind, M_bind, mret, M_ret; simpl; repeat case_match; inside_facts; simplify_eq;
    try (left; by eexists); try (right; split; [done|simpl; lia]).
  - exfalso. rename Hn into Hm. assert (u64 (Z.of_nat (length m) - SIZEOF_LONG + SIZEOF_LONG) = Z.of_nat (length m)) as Eu.
    { destruct Hm as [[? _]|?]; unfold SIZEOF_MSG, MAX_PACKET_DATA_SIZE in *; rewrite u64_small; lia. }
    destruct Hok as [-> _]. rewrite Eu, !andb_false_iff, !Z.leb_gt, !Z.ltb_ge in *.
    destruct Hm as [[? _]|?]; unfold SIZEOF_MSG, MAX_PACKET_DATA_SIZE in *; lia.
  - exfalso. destruct (slot_at_ok q (mq_read q) Hring Hrd) as [Hsl Hsz].
    rewrite rcv_count_ok in * by (split; done || lia). rewrite !andb_false_iff, !Z.leb_gt, !Z.ltb_ge in *.
    unfold SIZEOF_MSG, SIZEOF_LONG in *. lia.
Qed.

(** ** Properties *)

(** C3: in every interleaving of any number of calls of [msgsnd] and [msgrcv],
    the queue is first in, first out: the copies that receivers took are those of
    the first messages put in, in order, each message once, a message with data
    whole if there is room; at most MAX_MSG_QUEUE - 1 messages are in between; and
    no statement accesses memory outside the ring or a slot. *)
Theorem msgqueue_fifo y : reachable y →
  (∃ old new, y_sent y = old ++ new ∧ Forall2 delivered old (y_received y) ∧ Z.of_nat (length new) < MAX_MSG_QUEUE) ∧
  (∀ i th, y_threads y !! i = Some th → thread_step th (y_queue y) ≠ Fault).
Proof.
  intros HI%reachable_inv. destruct y as [q ths ss rs]. split.
  - destruct (iv_fifo _ HI) as (old&new&E&Ho&Hn). exists old, new. split_and!; [done..|].
    apply Forall2_length in Hn. rewrite Hn, length_pend. pose proof (used_range (y_queue (System q ths ss rs))). lia.
  - intros i th Hi E. by destruct (progress q ths ss rs i th HI Hi) as [[r Hr]|[Hb _]]; simpl in *; congruence.
Qed.

(** A sender waits for room and a receiver for a message only. *)
Lemma sender_waits q ths i m n f pc : one_inside in_snd (semWriteOnly q) ths →
  wakes sleep_snd post_rcv (semWrite q) (mq_full q) ths → ths !! i = Some (Snd m n f pc) → returned (Snd m n f pc) = false →
  (∀ i th, ths !! i = Some th → returned th = false → waits q th) → mq_full q.
Proof.
  intros Ho HW Hi Hret Hw.
  assert (∀ k th, ths !! k = Some th → sleep_snd th = true → mq_full q) as Hsleep.
  { intros k th Hk Hsl. assert (waits q th) as Hwk by (apply (Hw k); [done|by destruct th as [? ? ? []|]]).
    destruct (HW _ _ Hk Hsl) as [E|[?|(j&thj&Hj&Hp)]]; [|done|].
    - destruct th as [? ? ? []|]; simpl in Hwk; (done || lia).
    - exfalso. specialize (Hw _ _ Hj). by destruct thj as [|? ? []]; try done; apply Hw. }
  pose proof (Hw _ _ Hi Hret) as Hwi. destruct pc; try done; [|by apply (Hsleep _ _ Hi)].
  destruct Ho as [[E _]|[_ (k&thk&Hk&Hin&_)]]; [simpl in Hwi; congruence|].
  apply (Hsleep k thk Hk). specialize (Hw _ _ Hk). by destruct thk as [? ? ? []|]; try done; destruct Hw.
Qed.
Lemma receiver_waits q ths i n f pc : one_inside in_rcv (semReadOnly q) ths →
  wakes sleep_rcv post_snd (semRead q) (mq_empty q) ths → ths !! i = Some (Rcv n f pc) → returned (Rcv n f pc) = false →
  (∀ i th, ths !! i = Some th → returned th = false → waits q th) → mq_empty q.
Proof.
  intros Ho HW Hi Hret Hw.
  assert (∀ k th, ths !! k = Some th → sleep_rcv th = true → mq_empty q) as Hsleep.
  { intros k th Hk Hsl. assert (waits q th) as Hwk by (apply (Hw k); [done|by destruct th as [|? ? []]]).
    destruct (HW _ _ Hk Hsl) as [E|[?|(j&thj&Hj&Hp)]]; [|done|].
    - destruct th as [|? ? []]; simpl in Hwk; (done || lia).
    - exfalso. specialize (Hw _ _ Hj). by destruct thj as [? ? ? []|]; try done; apply Hw. }
  pose proof (Hw _ _ Hi Hret) as Hwi. destruct pc; try done; [|by apply (Hsleep _ _ Hi)].
  destruct Ho as [[E _]|[_ (k&thk&Hk&Hin&_)]]; [simpl in Hwi; congruence|].
  apply (Hsleep k thk Hk). specialize (Hw _ _ Hk). by destruct thk as [|? ? []]; try done; destruct Hw.
Qed.

(** C40: no wake-up is lost: when no thread inside a call can go on, either there
    is none, or the queue is empty and all of them receive, or it is full and all
    of them send. *)
Theorem msgqueue_no_lost_wakeup y : reachable y →
  (∀ i th, y_threads y !! i = Some th → returned th = false → thread_step th (y_queue y) = Blocked) →
  (∀ i th, y_threads y !! i = Some th → returned th = true) ∨
  mq_empty (y_queue y) ∧ (∀ i th, y_threads y !! i = Some th → returned th = false → ∃ n f pc, th = Rcv n f pc) ∨
  mq_full (y_queue y) ∧ (∀ i th, y_threads y !! i = Some th → returned th = false → ∃ m n f pc, th = Snd m n f pc).
Proof.
  intros HI%reachable_inv Hstuck. destruct y as [q ths ss rs]. simpl in *. pose proof HI as [Hring _ _ Hs Hr Hws Hwr _]. simpl in *.
  assert (∀ i th, ths !! i = Some th → returned th = false → waits q th) as Hw.
  { intros i th Hi Hret. destruct (progress q ths ss rs i th HI Hi) as [[r E]|[_ ?]]; [|done].
    rewrite (Hstuck _ _ Hi Hret) in E. done. }
  assert (¬ (mq_full q ∧ mq_empty q)) as Hne.
  { unfold mq_full, mq_empty. destruct Hring as (?&?&_). unfold MAX_MSG_QUEUE in *. intros [? ?]. dlia. }
  destruct (decide (mq_empty q)) as [He|He].
  - right; left. split; [done|]. intros i [m n f pc|n f pc] Hi Hret; [|by eauto].
    destruct Hne. split; [by eapply (sender_waits q ths i)|done].
  - assert (∀ i n f pc, ths !! i = Some (Rcv n f pc) → returned (Rcv n f pc) = true) as Hrcv.
    { intros i n f pc Hi. destruct (returned (Rcv n f pc)) eqn:Hret; [done|]. destruct He. by eapply (receiver_waits q ths i). }
    destruct (decide (mq_full q)) as [Hf|Hf].
    + right; right. split; [done|]. intros i [m n f pc|n f pc] Hi Hret; [by eauto|]. by rewrite (Hrcv _ _ _ _ Hi) in Hret.
    + left. intros i [m n f pc|n f pc] Hi; [|by eauto].
      destruct (returned (Snd m n f pc)) eqn:Hret; [done|]. destruct Hf. by eapply (sender_waits q ths i).
Qed.

(** ** Witnesses and examples *)

Lemma run_reachable q q' ths ss rs i th th' : reachable (System q ths ss rs) → ths !! i = Some th → returned th = false →
  thread_step th q = Ret (th', q') →
  reachable (System q' (<[i := th']> ths) (ss ++ sent_by th) (rs ++ received_by th)).
Proof. intros HR Hi Hret E. eapply rtc_r; [exact HR|]. by eapply y_run. Qed.

(** One receiver that sleeps because there is no message. *)
Definition asleep : system := System (set_semReadOnly 0 mq_start) {[1 := Rcv 100 0 RSleep]} [] [].
Lemma asleep_reachable : reachable asleep.
Proof.
  assert (reachable (System mq_start {[1 := Rcv 100 0 RStart]} [] [])) as H0.
  { eapply rtc_r; [apply rtc_refl|]. by apply (y_call _ ∅). }
  pose proof (run_reachable _ _ _ _ _ 1 (Rcv 100 0 RStart) (Rcv 100 0 RWait) H0 eq_refl eq_refl eq_refl) as H1.
  pose proof (run_reachable _ _ _ _ _ 1 (Rcv 100 0 RWait) (Rcv 100 0 RTest) H1 eq_refl eq_refl eq_refl) as H2.
  pose proof (run_reachable _ _ _ _ _ 1 (Rcv 100 0 RTest) (Rcv 100 0 RSleep) H2 eq_refl eq_refl eq_refl) as H3.
  exact H3.
Qed.

Lemma msgqueue_fifo_witness :
  ∃ old new, y_sent asleep = old ++ new ∧ Forall2 delivered old (y_received asleep) ∧ Z.of_nat (length new) < MAX_MSG_QUEUE.
Proof. exact (proj1 (msgqueue_fifo asleep asleep_reachable)). Defined.

Lemma msgqueue_no_lost_wakeup_witness : ∃ th, y_threads asleep !! 1 = Some th ∧ returned th = false ∧
  (mq_empty (y_queue asleep) ∨ mq_full (y_queue asleep)).
Proof.
  exists (Rcv 100 0 RSleep). split; [done|]. split; [done|].
  destruct (msgqueue_no_lost_wakeup asleep asleep_reachable) as [Hret|[[? _]|[? _]]]; [| |by left|by right].
  - intros i th Hi _. unfold asleep, y_threads in Hi. by apply lookup_singleton_Some in Hi as [<- <-].
  - by specialize (Hret 1 _ eq_refl).
Defined.

(** A second receiver that must not wait waits for the first one all the same. *)
Example nowait_waits : ∃ y, reachable y ∧ y_threads y !! 2 = Some (Rcv 100 IPC_NOWAIT RWait) ∧
  thread_step (Rcv 100 IPC_NOWAIT RWait) (y_queue y) = Blocked.
Proof.
  exists (System (set_semReadOnly 0 mq_start) (<[2 := Rcv 100 IPC_NOWAIT RWait]> {[1 := Rcv 100 0 RSleep]}) [] []).
  split_and!; [|done|done].
  assert (reachable (System (set_semReadOnly 0 mq_start) (<[2 := Rcv 100 IPC_NOWAIT RStart]> {[1 := Rcv 100 0 RSleep]}) [] [])) as H1.
  { eapply rtc_r; [exact asleep_reachable|]. by apply y_call. }
  pose proof (run_reachable _ _ _ _ _ 2 (Rcv 100 IPC_NOWAIT RStart) (Rcv 100 IPC_NOWAIT RWait) H1 eq_refl eq_refl eq_refl) as H2.
  exact H2.
Qed.

(** A message put in and taken out, no other thread running, in a ring of two slots' worth of memory. *)
Definition ex_msg : list Z := [0; 1; 0; 0; 7; 0; 0; 0; 3; 0; 0; 0; 65; 66; 67].
Definition ex_ring : stMsgQueue := MsgQueue 0 0 1 1 (replicate 2 (replicate (Z.to_nat SIZEOF_MSG) 0)) 0 0.
Example send_receive : ∃ q, (n ← msgsnd 20 ex_msg 11 0; r ← msgrcv 20 100 0; mret (n, r)) ex_ring = Ret (11, (11, ex_msg), q).
Proof. eexists. by vm_compute. Qed.
