(* ===== verification/Strings.v ===== *)
(** * String and memory routines: src/datastruct/string.c, src/datastruct/module_string.c

    Memory is a finite map from addresses to bytes (0 to 255); a read or write
    outside of it faults.  [char] is signed: [s8] of the byte, [unsigned char] is
    the byte.  Pointers and sizes are unbounded, so [while (count--)] ends before
    the counter wraps.  The unbounded loops take fuel; the theorems ask for more
    than the length of the strings.  [tolower] of <linux/ctype.h> is a parameter,
    and [BUG_ON] an assertion. *)
From stdpp Require Import base tactics list numbers gmap fin_maps.
From S2P Require Import Prelude Lists.
Local Open Scope Z_scope.

Abbreviation mem := (gmap Z Z).
Definition rd (p : Z) : M mem Z := gets_opt (λ m, m !! p).
Definition wr (p v : Z) : M mem unit :=
  modify_opt (λ m : mem, (λ _, <[p := v]> m) <$> m !! p).
Definition BUG_ON (b : bool) : M mem unit := c_assert (negb b).

(** ** Lengths and copies *)

Definition strlen (fuel : nat) (s : Z) : M mem Z :=
  sc ← loop fuel (λ sc, c ← rd sc;
    if c =? 0 then mret (inr sc) else mret (inl (sc + 1))) s;
  mret (sc - s).

Definition strnlen (fuel : nat) (s count : Z) : M mem Z :=
  sc ← loop fuel (λ '(sc, count),
    if count =? 0 then mret (inr sc)
    else c ← rd sc; if c =? 0 then mret (inr sc) else mret (inl (sc + 1, count - 1))) (s, count);
  mret (sc - s).

Definition memset (fuel : nat) (s c count : Z) : M mem Z :=
  loop fuel (λ '(xs, count),
    if count =? 0 then mret (inr tt)
    else wr xs (u8 c);; mret (inl (xs + 1, count - 1))) (s, count);;
  mret s.

(** [while (count--) *tmp++ = *s++;] *)
Definition copy_up (fuel : nat) (tmp s count : Z) : M mem unit :=
  loop fuel (λ '(tmp, s, count),
    if count =? 0 then mret (inr tt)
    else c ← rd s; wr tmp c;; mret (inl (tmp + 1, s + 1, count - 1))) (tmp, s, count).

(** [while (count--) *--tmp = *--s;] *)
Definition copy_down (fuel : nat) (tmp s count : Z) : M mem unit :=
  loop fuel (λ '(tmp, s, count),
    if count =? 0 then mret (inr tt)
    else c ← rd (s - 1); wr (tmp - 1) c;; mret (inl (tmp - 1, s - 1, count - 1))) (tmp, s, count).

Definition memcpy (fuel : nat) (dest src count : Z) : M mem Z :=
  copy_up fuel dest src count;; mret dest.

Definition memmove (fuel : nat) (dest src count : Z) : M mem Z :=
  (if dest <=? src then copy_up fuel dest src count
   else copy_down fuel (dest + count) (src + count) count);;
  mret dest.

(** [while (( *dest++ = *src++) != '\0');] *)
Definition copy_str (fuel : nat) (dest src : Z) : M mem unit :=
  loop fuel (λ '(dest, src),
    c ← rd src; wr dest c;;
    if c =? 0 then mret (inr tt) else mret (inl (dest + 1, src + 1))) (dest, src).

(** [while ( *dest) dest++;] *)
Definition str_end (fuel : nat) (dest : Z) : M mem Z :=
  loop fuel (λ dest, c ← rd dest;
    if c =? 0 then mret (inr dest) else mret (inl (dest + 1))) dest.

Definition strcpy (fuel : nat) (dest src : Z) : M mem Z :=
  copy_str fuel dest src;; mret dest.

Definition strncpy (fuel : nat) (dest src count : Z) : M mem Z :=
  loop fuel (λ '(tmp, src, count),
    if count =? 0 then mret (inr tt)
    else
      c ← rd src; wr tmp c;;
      mret (inl (tmp + 1, if c =? 0 then src else src + 1, count - 1))) (dest, src, count);;
  mret dest.

Definition strlcpy (fuel : nat) (dest src size : Z) : M mem Z :=
  ret ← strlen fuel src;
  (if size =? 0 then mret tt
   else
     let len := if size <=? ret then size - 1 else ret in
     memcpy fuel dest src len;; wr (dest + len) 0);;
  mret ret.

Definition strcat (fuel : nat) (dest src : Z) : M mem Z :=
  d ← str_end fuel dest; copy_str fuel d src;; mret dest.

Definition strncat (fuel : nat) (dest src count : Z) : M mem Z :=
  (if count =? 0 then mret tt
   else
     d ← str_end fuel dest;
     loop fuel (λ '(dest, src, count),
       c ← rd src; wr dest c;;
       if c =? 0 then mret (inr tt)
       else if count - 1 =? 0 then wr (dest + 1) 0;; mret (inr tt)
       else mret (inl (dest + 1, src + 1, count - 1))) (d, src, count));;
  mret dest.

Definition strlcat (fuel : nat) (dest src count : Z) : M mem Z :=
  dsize ← strlen fuel dest;
  len ← strlen fuel src;
  let res := dsize + len in
  BUG_ON (count <=? dsize);;
  let dest := dest + dsize in
  let count := count - dsize in
  let len := if count <=? len then count - 1 else len in
  memcpy fuel dest src len;;
  wr (dest + len) 0;;
  mret res.

Definition module_cpystrn (fuel : nat) (dst src n : Z) : M mem Z :=
  if n =? 0 then mret dst
  else
    loop fuel (λ '(dst, src, n),
      if n - 1 =? 0 then wr dst 0;; mret (inr dst)
      else
        c ← rd src; wr dst c;;
        if c =? 0 then mret (inr dst) else mret (inl (dst + 1, src + 1, n - 1))) (dst, src, n).

(** ** Comparisons *)

Definition strcmp (fuel : nat) (cs ct : Z) : M mem Z :=
  loop fuel (λ '(cs, ct),
    x ← rd cs; y ← rd ct;
    let __res := s8 (s8 x - s8 y) in
    if negb (__res =? 0) || (x =? 0) then mret (inr __res)
    else mret (inl (cs + 1, ct + 1))) (cs, ct).

Definition strncmp (fuel : nat) (cs ct count : Z) : M mem Z :=
  loop fuel (λ '(cs, ct, count, __res),
    if count =? 0 then mret (inr __res)
    else
      x ← rd cs; y ← rd ct;
      let __res := s8 (s8 x - s8 y) in
      if negb (__res =? 0) || (x =? 0) then mret (inr __res)
      else mret (inl (cs + 1, ct + 1, count - 1, __res))) (cs, ct, count, 0).

Definition strnicmp (tolower : Z → Z) (fuel : nat) (s1 s2 len : Z) : M mem Z :=
  if len =? 0 then mret 0
  else
    loop fuel (λ '(s1, s2, len),
      c1 ← rd s1; c2 ← rd s2;
      if c1 =? 0 then mret (inr (c1 - c2))
      else if c2 =? 0 then mret (inr (c1 - c2))
      else
        (* [continue] goes to the loop's condition too *)
        let '(c1, c2) := if c1 =? c2 then (c1, c2) else (u8 (tolower c1), u8 (tolower c2)) in
        if negb (c1 =? c2) then mret (inr (c1 - c2))
        else if len - 1 =? 0 then mret (inr (c1 - c2))
        else mret (inl (s1 + 1, s2 + 1, len - 1))) (s1, s2, len).

Definition memcmp (fuel : nat) (cs ct count : Z) : M mem Z :=
  loop fuel (λ '(su1, su2, count, res),
    if 0 <? count then
      x ← rd su1; y ← rd su2;
      let res := x - y in
      if negb (res =? 0) then mret (inr res)
      else mret (inl (su1 + 1, su2 + 1, count - 1, res))
    else mret (inr res)) (cs, ct, count, 0).

Definition module_rstrncmp (fuel : nat) (s1 s2 n : Z) : M mem Z :=
  if n =? 0 then mret 0
  else
    loop fuel (λ n,
      x ← rd (s1 + n); y ← rd (s2 + n);
      if negb (x =? y) then mret (inr (x - y))
      else if n =? 0 then mret (inr 0)
      else mret (inl (n - 1))) (n - 1).

(** ** Searches *)

Definition strchr (fuel : nat) (s c : Z) : M mem Z :=
  loop fuel (λ s,
    x ← rd s;
    if s8 x =? s8 c then mret (inr s)
    else if x =? 0 then mret (inr NULL)
    else mret (inl (s + 1))) s.

Definition strrchr (fuel : nat) (s c : Z) : M mem Z :=
  n ← strlen fuel s;
  loop fuel (λ p,
    x ← rd p;
    if s8 x =? s8 c then mret (inr p)
    else if s <=? p - 1 then mret (inl (p - 1))
    else mret (inr NULL)) (s + n).

Definition strnchr (fuel : nat) (s count c : Z) : M mem Z :=
  loop fuel (λ '(s, count),
    if count =? 0 then mret (inr NULL)
    else
      x ← rd s;
      if x =? 0 then mret (inr NULL)
      else if s8 x =? s8 c then mret (inr s)
      else mret (inl (s + 1, count - 1))) (s, count).

(** The inner loop of [strspn] leaves [a] at the matching byte or at the NUL. *)
Definition strspn (fuel : nat) (s accept : Z) : M mem Z :=
  loop fuel (λ '(p, count),
    x ← rd p;
    if x =? 0 then mret (inr count)
    else
      a ← loop fuel (λ a,
        y ← rd a;
        if y =? 0 then mret (inr a)
        else if x =? y then mret (inr a) else mret (inl (a + 1))) accept;
      y ← rd a;
      if y =? 0 then mret (inr count) else mret (inl (p + 1, count + 1))) (s, 0).

(** The inner loops of [strcspn] and [strpbrk], which leave both loops on a match. *)
Definition in_set (fuel : nat) (x r : Z) : M mem bool :=
  loop fuel (λ r,
    y ← rd r;
    if y =? 0 then mret (inr false)
    else if x =? y then mret (inr true) else mret (inl (r + 1))) r.

Definition strcspn (fuel : nat) (s reject : Z) : M mem Z :=
  loop fuel (λ '(p, count),
    x ← rd p;
    if x =? 0 then mret (inr count)
    else
      found ← in_set fuel x reject;
      if (found : bool) then mret (inr count) else mret (inl (p + 1, count + 1))) (s, 0).

Definition strpbrk (fuel : nat) (cs ct : Z) : M mem Z :=
  loop fuel (λ sc1,
    x ← rd sc1;
    if x =? 0 then mret (inr NULL)
    else
      found ← in_set fuel x ct;
      if (found : bool) then mret (inr sc1) else mret (inl (sc1 + 1))) cs.

(** The pointer [*s] is passed and returned beside the token. *)
Definition strsep (fuel : nat) (s ct : Z) : M mem (Z * Z) :=
  let sbegin := s in
  if sbegin =? NULL then mret (NULL, s)
  else
    end_ ← strpbrk fuel sbegin ct;
    if end_ =? NULL then mret (sbegin, end_)
    else wr end_ 0;; mret (sbegin, end_ + 1).

Definition memscan (fuel : nat) (addr c size : Z) : M mem Z :=
  loop fuel (λ '(p, size),
    if size =? 0 then mret (inr p)
    else x ← rd p; if x =? c then mret (inr p) else mret (inl (p + 1, size - 1))) (addr, size).

Definition memchr (fuel : nat) (s c n : Z) : M mem Z :=
  loop fuel (λ '(p, n),
    if n =? 0 then mret (inr NULL)
    else x ← rd p; if u8 c =? x then mret (inr p) else mret (inl (p + 1, n - 1))) (s, n).

(** [int l1, l2] *)
Definition strstr (fuel : nat) (s1 s2 : Z) : M mem Z :=
  n2 ← strlen fuel s2;
  let l2 := s32 n2 in
  if l2 =? 0 then mret s1
  else
    n1 ← strlen fuel s1;
    loop fuel (λ '(l1, s1),
      if l2 <=? l1 then
        r ← memcmp fuel s1 s2 (u64 l2);
        if r =? 0 then mret (inr s1) else mret (inl (l1 - 1, s1 + 1))
      else mret (inr NULL)) (s32 n1, s1).

(** ** Areas of memory *)

Definition byte (x : Z) : Prop := 0 ≤ x < 256.
(** The area at [a] holds [l]. *)
Fixpoint bytes (m : mem) (a : Z) (l : list Z) : Prop :=
  match l with
  | [] => True
  | x :: l => m !! a = Some x ∧ bytes m (a + 1) l
  end.
(** The area of [n] bytes at [a] is allocated. *)
Definition valid (m : mem) (a n : Z) : Prop := ∀ p, a ≤ p < a + n → is_Some (m !! p).
(** The NUL-terminated string at [a]. *)
Definition cstr (m : mem) (a : Z) (s : list Z) : Prop :=
  bytes m a (s ++ [0]) ∧ Forall (λ x, 0 < x < 256) s.
(** The memory after storing [l] at [a]. *)
Fixpoint write (a : Z) (l : list Z) (m : mem) : mem :=
  match l with
  | [] => m
  | x :: l => write (a + 1) l (<[a := x]> m)
  end.
(** Two areas have no byte in common. *)
Definition apart (a n b k : Z) : Prop := a + n ≤ b ∨ b + k ≤ a.
Abbreviation size l := (Z.of_nat (length l)).

Section areas.
Implicit Types m : mem.

Lemma bytes_app m a l l' : bytes m a (l ++ l') ↔ bytes m a l ∧ bytes m (a + size l) l'.
Proof.
  revert a. induction l as [|x l IH]; intros a; simpl.
  { rewrite Z.add_0_r. naive_solver. }
  rewrite IH. replace (a + 1 + size l) with (a + Z.of_nat (S (length l))) by lia. naive_solver.
Qed.

Lemma bytes_lookup m a l i x : bytes m a l → l !! i = Some x → m !! (a + Z.of_nat i) = Some x.
Proof.
  revert a i. induction l as [|y l IH]; intros a [|i]; simpl; try done.
  - intros [E _] [= ->]. by rewrite Z.add_0_r.
  - intros [_ Hl] Hi. rewrite <- (IH (a + 1) i Hl Hi). f_equal. lia.
Qed.

Lemma bytes_valid m a l : bytes m a l → valid m a (size l).
Proof.
  intros Hl p Hp. destruct (lookup_lt_is_Some_2 l (Z.to_nat (p - a))) as [x Hx]; [lia|].
  exists x. rewrite <- (bytes_lookup _ _ _ _ _ Hl Hx). f_equal. lia.
Qed.

Lemma valid_head m a n : valid m a n → 0 < n → is_Some (m !! a).
Proof. intros H ?. apply H. lia. Qed.
Lemma valid_sub m a n b k : valid m a n → a ≤ b → b + k ≤ a + n → valid m b k.
Proof. intros H ?? p ?. apply H. lia. Qed.
Lemma valid_insert m a n p x : valid m a n → valid (<[p := x]> m) a n.
Proof.
  intros H q Hq. destruct (decide (p = q)) as [->|].
  - rewrite lookup_insert_eq. eauto.
  - rewrite lookup_insert_ne by done. auto.
Qed.
Lemma valid_write m a n b l : valid m a n → valid (write b l m) a n.
Proof. revert b m. induction l; intros b m H; simpl; auto using valid_insert. Qed.
Lemma valid_write_at m a n b l p : valid m a n → a ≤ p < a + n → is_Some (write b l m !! p).
Proof. intros H. by apply valid_write. Qed.

Lemma bytes_insert m a l p x :
  bytes m a l → p < a ∨ a + size l ≤ p → bytes (<[p := x]> m) a l.
Proof.
  revert a. induction l as [|y l IH]; intros a; simpl; [done|].
  intros [E Hl] Hp. split.
  - rewrite lookup_insert_ne; [done|lia].
  - apply IH; [done|lia].
Qed.

Lemma write_app a l l' m : write a (l ++ l') m = write (a + size l) l' (write a l m).
Proof.
  revert a m. induction l as [|x l IH]; intros a m; simpl.
  { by rewrite Z.add_0_r. }
  rewrite IH. f_equal. lia.
Qed.

Lemma write_insert a l m p x :
  p < a ∨ a + size l ≤ p → write a l (<[p := x]> m) = <[p := x]> (write a l m).
Proof.
  revert a m. induction l as [|y l IH]; intros a m Hp; simpl; [done|]. simpl in Hp.
  rewrite insert_insert_ne by lia. apply IH. lia.
Qed.

Lemma write_snoc a l x m : write a (l ++ [x]) m = write a l (<[a + size l := x]> m).
Proof. rewrite write_app. simpl. rewrite write_insert; [done|lia]. Qed.

Lemma write_outside a l m p : p < a ∨ a + size l ≤ p → write a l m !! p = m !! p.
Proof.
  revert a m. induction l as [|y l IH]; intros a m Hp; simpl; [done|]. simpl in Hp.
  rewrite IH by lia. rewrite lookup_insert_ne; [done|lia].
Qed.

Lemma write_bytes a l m : bytes (write a l m) a l.
Proof.
  revert a m. induction l as [|x l IH]; intros a m; simpl; [done|]. split; [|apply IH].
  rewrite write_outside by lia. apply lookup_insert_eq.
Qed.

Lemma bytes_write m b l a w :
  bytes m b l → apart a (size w) b (size l) → bytes (write a w m) b l.
Proof.
  unfold apart. revert a m. induction w as [|x w IH]; intros a m Hl Hd; simpl; [done|].
  simpl in Hd. apply IH; [apply bytes_insert; [done|]|]; lia.
Qed.
End areas.

(** ** Running the loops *)

Section running.
Implicit Types m : mem.

Lemma rd_bind {A} (f : Z → M mem A) p x m : m !! p = Some x → (rd p ≫= f) m = f x m.
Proof. intros E. unfold rd. apply bind_ret. unfold gets_opt. by rewrite E. Qed.
Lemma wr_bind {A} (f : unit → M mem A) p v m :
  is_Some (m !! p) → (wr p v ≫= f) m = f tt (<[p := v]> m).
Proof.
  intros [x E]. unfold wr. apply bind_ret. unfold modify_opt. by rewrite E.
Qed.
Lemma wr_run p v m : is_Some (m !! p) → wr p v m = Ret (tt, <[p := v]> m).
Proof. intros [x E]. unfold wr, modify_opt. by rewrite E. Qed.
End running.

(** [run] takes the steps whose bytes are known. *)
Ltac run :=
  repeat (first [ erewrite rd_bind by eassumption
                | erewrite rd_bind by (rewrite lookup_insert_eq; reflexivity)
                | rewrite wr_bind by eassumption ]; cbv beta).

Section copies.
Implicit Types m : mem.

Lemma cstr_byte m a s : cstr m a s → ∀ i x, s !! i = Some x → x ≠ 0.
Proof. intros [_ H] i x Hi. pose proof (Forall_lookup_1 _ _ _ _ H Hi) as Hx. simpl in Hx. lia. Qed.

Lemma cstr_cons m a x s : cstr m a (x :: s) ↔ m !! a = Some x ∧ 0 < x < 256 ∧ cstr m (a + 1) s.
Proof. unfold cstr. simpl. rewrite Forall_cons. naive_solver. Qed.
Lemma cstr_nil m a : cstr m a [] ↔ m !! a = Some 0.
Proof. unfold cstr. simpl. naive_solver. Qed.
Lemma cstr_bytes m a s : cstr m a s → bytes m a (s ++ [0]).
Proof. by intros [? _]. Qed.

Lemma cstr_write m a s b w :
  cstr m a s → apart b (size w) a (size s + 1) → cstr (write b w m) a s.
Proof. intros [Hs ?] Hd. split; [|done]. apply bytes_write; [done|]. unfold apart in *. len. Qed.

(** Scanning to the end of a string. *)
Lemma str_end_run m fuel a s :
  cstr m a s → (length s < fuel)%nat → str_end fuel a m = Ret (a + size s, m).
Proof.
  unfold str_end. revert a fuel.
  induction s as [|x s IH]; intros a [|fuel] Hs Hf; simpl in Hf; try lia.
  - apply cstr_nil in Hs. apply loop_leave. run. by rewrite Z.add_0_r.
  - apply cstr_cons in Hs as (E & Hx & Hs). erewrite loop_next.
    2: { run. by rewrite (proj2 (Z.eqb_neq x 0)) by lia. }
    rewrite IH; [|done|lia]. simpl length. do 2 f_equal. lia.
Qed.

Lemma strlen_run m fuel a s :
  cstr m a s → (length s < fuel)%nat → strlen fuel a m = Ret (size s, m).
Proof.
  intros Hs Hf. unfold strlen. erewrite bind_ret by (by apply str_end_run).
  unfold mret, M_ret. do 2 f_equal. lia.
Qed.

(** Copying upwards, over an area that may overlap from below. *)
Lemma copy_up_run fuel d s l m :
  bytes m s l → valid m d (size l) → d ≤ s ∨ s + size l ≤ d → (length l < fuel)%nat →
  copy_up fuel d s (size l) m = Ret (tt, write d l m).
Proof.
  unfold copy_up. revert d s m fuel.
  induction l as [|x l IH]; intros d s m [|fuel] Hs Hd Ho Hf; simpl in Hf; try lia.
  { by apply loop_leave. }
  destruct Hs as [E Hs]. simpl in Hd, Ho. pose proof (valid_head _ _ _ Hd ltac:(lia)) as Hh.
  erewrite loop_next.
  2: { rewrite (proj2 (Z.eqb_neq _ 0)) by (simpl; lia). run. done. }
  simpl write. rewrite <- (IH (d + 1) (s + 1) _ fuel); [f_equal; do 2 f_equal; simpl; lia|..].
  - apply bytes_insert; [done|lia].
  - apply valid_insert. eapply valid_sub; [done|lia..].
  - lia.
  - lia.
Qed.

(** Copying downwards, over an area that may overlap from above. *)
Lemma copy_down_run fuel d s l m :
  bytes m s l → valid m d (size l) → s ≤ d → (length l < fuel)%nat →
  copy_down fuel (d + size l) (s + size l) (size l) m = Ret (tt, write d l m).
Proof.
  unfold copy_down. revert m fuel.
  induction l as [|x l IH] using rev_ind; intros m [|fuel] Hs Hd Ho Hf; simpl in Hf; try lia.
  { by apply loop_leave. }
  apply bytes_app in Hs as [Hs [E _]].
  assert (size (l ++ [x]) = size l + 1) as El by len. rewrite El in *.
  assert (is_Some (m !! (d + size l))) as Hh by (apply Hd; lia).
  erewrite loop_next.
  2: { rewrite (proj2 (Z.eqb_neq _ 0)) by lia.
       replace (s + (size l + 1) - 1) with (s + size l) by lia.
       replace (d + (size l + 1) - 1) with (d + size l) by lia. run. done. }
  rewrite write_snoc, <- (IH _ fuel).
  - do 3 f_equal. lia.
  - apply bytes_insert; [done|lia].
  - apply valid_insert. eapply valid_sub; [done|lia..].
  - done.
  - rewrite length_app in Hf. simpl in Hf. lia.
Qed.

Lemma memcpy_run fuel d s l m :
  bytes m s l → valid m d (size l) → d ≤ s ∨ s + size l ≤ d → (length l < fuel)%nat →
  memcpy fuel d s (size l) m = Ret (d, write d l m).
Proof. intros. unfold memcpy. by erewrite bind_ret by (by apply copy_up_run). Qed.

Lemma copy_str_run fuel d a s m :
  cstr m a s → valid m d (size s + 1) → d ≤ a ∨ a + size s + 1 ≤ d → (length s < fuel)%nat →
  copy_str fuel d a m = Ret (tt, write d (s ++ [0]) m).
Proof.
  unfold copy_str. revert d a m fuel.
  induction s as [|x s IH]; intros d a m [|fuel] Hs Hd Ho Hf; simpl in Hf, Hd, Ho; try lia;
    pose proof (valid_head _ _ _ Hd ltac:(lia)) as Hh.
  { apply cstr_nil in Hs. apply loop_leave. by run. }
  apply cstr_cons in Hs as (E & Hx & Hs & Hb). erewrite loop_next.
  2: { run. by rewrite (proj2 (Z.eqb_neq x 0)) by lia. }
  apply IH; [split; [|done]|..]; try lia.
  - apply bytes_insert; [done|len].
  - apply valid_insert. eapply valid_sub; [done|lia..].
Qed.
End copies.

(** ** What the searches find

    [found a d o]: the address of the element that [list_find] found in the
    list at [a], and [d] if there is none. *)
Definition found (a d : Z) (o : option (nat * Z)) : Z :=
  match o with Some (i, _) => a + Z.of_nat i | None => d end.

Section searches.
Implicit Types m : mem.

Lemma found_cons a d P `{∀ x : Z, Decision (P x)} x l :
  found a d (list_find P (x :: l)) =
  if decide (P x) then a else found (a + 1) d (list_find P l).
Proof.
  simpl. destruct (decide (P x)); simpl; [lia|].
  destruct (list_find P l) as [[i y]|]; simpl; [lia|done].
Qed.

Lemma s8_eqb x c : byte x → (s8 x =? s8 c) = bool_decide (x = u8 c).
Proof.
  unfold byte, s8, swrap, u8. intros Hx.
  destruct (Z.eqb_spec ((x + 2 ^ (8 - 1)) mod 2 ^ 8 - 2 ^ (8 - 1))
    ((c + 2 ^ (8 - 1)) mod 2 ^ 8 - 2 ^ (8 - 1))); symmetry;
    [apply bool_decide_eq_true|apply bool_decide_eq_false]; dlia.
Qed.
Lemma byte_str x : 0 < x < 256 → byte x.
Proof. unfold byte. lia. Qed.
Lemma byte_0 : byte 0.
Proof. unfold byte. lia. Qed.

Lemma strnlen_run m fuel a s n :
  cstr m a s → 0 ≤ n → (length s < fuel)%nat →
  strnlen fuel a n m = Ret (Z.min n (size s), m).
Proof.
  intros Hs Hn Hf. unfold strnlen.
  match goal with |- (loop _ ?b _ ≫= _) _ = _ => assert (∀ fuel a n, cstr m a s → 0 ≤ n →
    (length s < fuel)%nat → loop fuel b (a, n) m = Ret (a + Z.min n (size s), m)) as H end.
  2: { erewrite bind_ret by (by apply H). unfold mret, M_ret. do 2 f_equal. lia. }
  clear. induction s as [|x s IH]; intros [|fuel] a n Hs Hn Hf; simpl in Hf; try lia;
    (destruct (Z.eqb_spec n 0) as [->|]; [rewrite Z.min_l, Z.add_0_r by lia; by apply loop_leave|]).
  - apply cstr_nil in Hs. apply loop_leave. rewrite (proj2 (Z.eqb_neq n 0)) by done. run.
    simpl. unfold mret, M_ret. do 3 f_equal. lia.
  - apply cstr_cons in Hs as (E & Hx & Hs). erewrite loop_next.
    2: { rewrite (proj2 (Z.eqb_neq n 0)) by done. run.
         by rewrite (proj2 (Z.eqb_neq x 0)) by lia. }
    rewrite IH by (done || lia). simpl length. do 2 f_equal. lia.
Qed.

Lemma strchr_run m fuel a s c :
  cstr m a s → (length s < fuel)%nat →
  strchr fuel a c m = Ret (found a NULL (list_find (λ x, x = u8 c) (s ++ [0])), m).
Proof.
  unfold strchr. revert a fuel.
  induction s as [|x s IH]; intros a [|fuel] Hs Hf; simpl in Hf; try lia; simpl app;
    rewrite found_cons.
  - apply cstr_nil in Hs. apply loop_leave. run. rewrite s8_eqb by apply byte_0.
    case_bool_decide; case_decide; done.
  - apply cstr_cons in Hs as (E & Hx & Hs).
    destruct (decide (x = u8 c)) as [Hc|Hc].
    + apply loop_leave. run. rewrite s8_eqb, bool_decide_eq_true_2 by eauto using byte_str. done.
    + erewrite loop_next.
      2: { run. rewrite s8_eqb, bool_decide_eq_false_2 by eauto using byte_str.
           by rewrite (proj2 (Z.eqb_neq x 0)) by lia. }
      by apply IH; [|lia].
Qed.

Lemma strrchr_run m fuel a s c :
  cstr m a s → (length s < fuel)%nat →
  strrchr fuel a c m =
    Ret (match list_find (λ x, x = u8 c) (reverse (s ++ [0])) with
         | Some (i, _) => a + size s - Z.of_nat i
         | None => NULL
         end, m).
Proof.
  intros Hs Hf. unfold strrchr. erewrite bind_ret by (by apply strlen_run). cbv beta.
  assert (Forall byte (s ++ [0])) as Hb.
  { apply Forall_app. split; [|repeat constructor; apply byte_0].
    eapply Forall_impl; [apply Hs|apply byte_str]. }
  apply cstr_bytes in Hs. replace (size s) with (size (s ++ [0]) - 1) by len.
  assert (s ++ [0] ≠ []) as Hne by by destruct s.
  assert (length (s ++ [0%Z]) ≤ fuel)%nat as Hf' by len. revert Hs Hb Hne Hf'.
  generalize (s ++ [0]) as l. clear s Hf. intros l. revert fuel.
  induction l as [|x l IH] using rev_ind; intros [|fuel] Hs Hb Hne Hf; try done.
  { len. }
  apply bytes_app in Hs as [Hs [E _]]. apply Forall_app in Hb as [Hb Hx].
  apply Forall_cons in Hx as [Hx _]. rewrite reverse_snoc.
  replace (a + (size (l ++ [x]) - 1)) with (a + size l) by len. simpl list_find.
  destruct (decide (x = u8 c)) as [Hc|Hc].
  { apply loop_leave. run. rewrite s8_eqb, bool_decide_eq_true_2 by done.
    unfold mret, M_ret. do 3 f_equal. len. }
  destruct (decide (l = [])) as [->|Hl].
  { apply loop_leave. run. rewrite s8_eqb, bool_decide_eq_false_2 by done.
    by rewrite (proj2 (Z.leb_gt a (a + size (@nil Z) - 1))) by (simpl; lia). }
  assert (0 < size l) as Hp by (destruct l; [done|simpl; lia]).
  erewrite loop_next.
  2: { run. rewrite s8_eqb, bool_decide_eq_false_2 by done.
       by rewrite (proj2 (Z.leb_le a (a + size l - 1))) by lia. }
  replace (a + size l - 1) with (a + (size l - 1)) by lia.
  rewrite IH; [|done..|len]. destruct (list_find _ _) as [[i y]|]; simpl; [|done].
  do 2 f_equal. len.
Qed.

Lemma strnchr_run m fuel a s n c :
  cstr m a s → 0 ≤ n → (length s < fuel)%nat →
  strnchr fuel a n c m = Ret (found a NULL (list_find (λ x, x = u8 c) (take (Z.to_nat n) s)), m).
Proof.
  unfold strnchr. revert a n fuel.
  induction s as [|x s IH]; intros a n [|fuel] Hs Hn Hf; simpl in Hf; try lia;
    (destruct (Z.eqb_spec n 0) as [->|]; [by apply loop_leave|]).
  - apply cstr_nil in Hs. rewrite take_nil. apply loop_leave.
    rewrite (proj2 (Z.eqb_neq n 0)) by done. by run.
  - apply cstr_cons in Hs as (E & Hx & Hs).
    replace (Z.to_nat n) with (S (Z.to_nat (n - 1))) by lia. simpl take. rewrite found_cons.
    destruct (decide (x = u8 c)) as [Hc|Hc].
    + apply loop_leave. rewrite (proj2 (Z.eqb_neq n 0)) by done. run.
      rewrite (proj2 (Z.eqb_neq x 0)) by lia.
      rewrite s8_eqb, bool_decide_eq_true_2 by eauto using byte_str. done.
    + erewrite loop_next.
      2: { rewrite (proj2 (Z.eqb_neq n 0)) by done. run. rewrite (proj2 (Z.eqb_neq x 0)) by lia.
           rewrite s8_eqb, bool_decide_eq_false_2 by eauto using byte_str. done. }
      by apply IH; [done|lia..].
Qed.

Lemma in_set_run m fuel x r d :
  cstr m r d → (length d < fuel)%nat → in_set fuel x r m = Ret (bool_decide (x ∈ d), m).
Proof.
  unfold in_set. revert r fuel.
  induction d as [|y d IH]; intros r [|fuel] Hd Hf; simpl in Hf; try lia.
  - apply cstr_nil in Hd. rewrite bool_decide_eq_false_2 by apply not_elem_of_nil.
    apply loop_leave. by run.
  - apply cstr_cons in Hd as (E & Hy & Hd). destruct (decide (x = y)) as [->|Hn].
    + rewrite bool_decide_eq_true_2 by apply list_elem_of_here. apply loop_leave. run.
      by rewrite (proj2 (Z.eqb_neq y 0)), Z.eqb_refl by lia.
    + erewrite loop_next.
      2: { run. by rewrite (proj2 (Z.eqb_neq y 0)), (proj2 (Z.eqb_neq x y)) by lia. }
      rewrite IH by (done || lia). do 2 f_equal. apply bool_decide_ext. set_solver.
Qed.

Lemma strcspn_run m fuel a s r d :
  cstr m a s → cstr m r d → (length s < fuel)%nat → (length d < fuel)%nat →
  strcspn fuel a r m = Ret (found 0 (size s) (list_find (λ x, x ∈ d) s), m).
Proof.
  intros Hs Hd Hf Hf'. unfold strcspn.
  match goal with |- loop _ ?b _ _ = _ => assert (∀ fuel a n, cstr m a s →
    (length s < fuel)%nat → loop fuel b (a, n) m =
      Ret (found n (n + size s) (list_find (λ x, x ∈ d) s), m)) as H end; [|by apply H].
  clear Hs Hf a. induction s as [|x s IH]; intros [|f] a n Hs Hf; simpl in Hf; try lia.
  { apply cstr_nil in Hs. apply loop_leave. run. simpl. by rewrite Z.add_0_r. }
  apply cstr_cons in Hs as (E & Hx & Hs). rewrite found_cons.
  destruct (decide (x ∈ d)) as [Hin|Hin].
  - apply loop_leave. run. rewrite (proj2 (Z.eqb_neq x 0)) by lia.
    erewrite bind_ret by (by apply in_set_run). by rewrite bool_decide_eq_true_2.
  - erewrite loop_next.
    2: { run. rewrite (proj2 (Z.eqb_neq x 0)) by lia.
         erewrite bind_ret by (by apply in_set_run). by rewrite bool_decide_eq_false_2. }
    rewrite IH by (done || lia).
    by replace (n + size (x :: s)) with (n + 1 + size s) by (simpl length; lia).
Qed.

Lemma strpbrk_run m fuel a s r d :
  cstr m a s → cstr m r d → (length s < fuel)%nat → (length d < fuel)%nat →
  strpbrk fuel a r m = Ret (found a NULL (list_find (λ x, x ∈ d) s), m).
Proof.
  intros Hs Hd Hf Hf'. unfold strpbrk.
  match goal with |- loop _ ?b _ _ = _ => assert (∀ fuel a, cstr m a s →
    (length s < fuel)%nat → loop fuel b a m =
      Ret (found a NULL (list_find (λ x, x ∈ d) s), m)) as H end; [|by apply H].
  clear Hs Hf a. induction s as [|x s IH]; intros [|f] a Hs Hf; simpl in Hf; try lia.
  { apply cstr_nil in Hs. apply loop_leave. by run. }
  apply cstr_cons in Hs as (E & Hx & Hs). rewrite found_cons.
  destruct (decide (x ∈ d)) as [Hin|Hin].
  - apply loop_leave. run. rewrite (proj2 (Z.eqb_neq x 0)) by lia.
    erewrite bind_ret by (by apply in_set_run). by rewrite bool_decide_eq_true_2.
  - erewrite loop_next.
    2: { run. rewrite (proj2 (Z.eqb_neq x 0)) by lia.
         erewrite bind_ret by (by apply in_set_run). by rewrite bool_decide_eq_false_2. }
    by apply IH; [|lia].
Qed.

(** The inner loop of [strspn] and the test after it. *)
Lemma span_test {A} m fuel x r d (f : Z → M mem A) :
  cstr m r d → (length d < fuel)%nat →
  (a ← loop fuel (λ a,
        y ← rd a;
        if y =? 0 then mret (inr a)
        else if x =? y then mret (inr a) else mret (inl (a + 1))) r;
   y ← rd a; f y) m = f (if decide (x ∈ d) then x else 0) m.
Proof.
  revert r fuel. induction d as [|y d IH]; intros r [|fuel] Hd Hf; simpl in Hf; try lia.
  - apply cstr_nil in Hd. erewrite bind_ret. 2: { apply loop_leave. by run. }
    run. rewrite decide_False by apply not_elem_of_nil. done.
  - apply cstr_cons in Hd as (E & Hy & Hd). destruct (decide (x = y)) as [->|Hn].
    + erewrite bind_ret.
      2: { apply loop_leave. run. by rewrite (proj2 (Z.eqb_neq y 0)), Z.eqb_refl by lia. }
      run. by rewrite decide_True by apply list_elem_of_here.
    + erewrite bind_loop_next.
      2: { run. by rewrite (proj2 (Z.eqb_neq y 0)), (proj2 (Z.eqb_neq x y)) by lia. }
      rewrite IH by (done || lia). f_equal.
      destruct (decide (x ∈ d)), (decide (x ∈ y :: d)); set_solver.
Qed.

Lemma strspn_run m fuel a s r d :
  cstr m a s → cstr m r d → (length s < fuel)%nat → (length d < fuel)%nat →
  strspn fuel a r m = Ret (found 0 (size s) (list_find (λ x, x ∉ d) s), m).
Proof.
  intros Hs Hd Hf Hf'. unfold strspn.
  match goal with |- loop _ ?b _ _ = _ => assert (∀ fuel a n, cstr m a s →
    (length s < fuel)%nat → loop fuel b (a, n) m =
      Ret (found n (n + size s) (list_find (λ x, x ∉ d) s), m)) as H end; [|by apply H].
  clear Hs Hf a. induction s as [|x s IH]; intros [|f] a n Hs Hf; simpl in Hf; try lia.
  { apply cstr_nil in Hs. apply loop_leave. run. simpl. by rewrite Z.add_0_r. }
  apply cstr_cons in Hs as (E & Hx & Hs). rewrite found_cons.
  destruct (decide (x ∉ d)) as [Hin|Hin].
  - apply loop_leave. run. rewrite (proj2 (Z.eqb_neq x 0)) by lia.
    rewrite (span_test m fuel x r d) by done. by rewrite decide_False.
  - erewrite loop_next.
    2: { run. rewrite (proj2 (Z.eqb_neq x 0)) by lia.
         rewrite (span_test m fuel x r d) by done. rewrite decide_True by (by apply dec_stable).
         by rewrite (proj2 (Z.eqb_neq x 0)) by lia. }
    rewrite IH by (done || lia).
    by replace (n + size (x :: s)) with (n + 1 + size s) by (simpl length; lia).
Qed.

Lemma memscan_run m fuel a l c :
  bytes m a l → (length l < fuel)%nat →
  memscan fuel a c (size l) m = Ret (found a (a + size l) (list_find (λ x, x = c) l), m).
Proof.
  unfold memscan. revert a fuel.
  induction l as [|x l IH]; intros a [|fuel] Hl Hf; simpl in Hf; try lia.
  { apply loop_leave. by rewrite Z.add_0_r. }
  destruct Hl as [E Hl]. rewrite found_cons. destruct (decide (x = c)) as [->|Hn].
  - apply loop_leave. rewrite (proj2 (Z.eqb_neq _ 0)) by (simpl; lia). run.
    by rewrite Z.eqb_refl.
  - erewrite loop_next.
    2: { rewrite (proj2 (Z.eqb_neq _ 0)) by (simpl; lia). run.
         by rewrite (proj2 (Z.eqb_neq x c)) by done. }
    replace (size (x :: l) - 1) with (size l) by (simpl length; lia).
    rewrite IH by (done || lia).
    by replace (a + size (x :: l)) with (a + 1 + size l) by (simpl length; lia).
Qed.

Lemma memchr_run m fuel a l c :
  bytes m a l → (length l < fuel)%nat →
  memchr fuel a c (size l) m = Ret (found a NULL (list_find (λ x, x = u8 c) l), m).
Proof.
  unfold memchr. revert a fuel.
  induction l as [|x l IH]; intros a [|fuel] Hl Hf; simpl in Hf; try lia.
  { by apply loop_leave. }
  destruct Hl as [E Hl]. rewrite found_cons. destruct (decide (x = u8 c)) as [Hc|Hn].
  - apply loop_leave. rewrite (proj2 (Z.eqb_neq _ 0)) by (simpl; lia). run.
    by rewrite <- Hc, Z.eqb_refl.
  - erewrite loop_next.
    2: { rewrite (proj2 (Z.eqb_neq _ 0)) by (simpl; lia). run.
         by rewrite (proj2 (Z.eqb_neq (u8 c) x)) by done. }
    replace (size (x :: l) - 1) with (size l) by (simpl length; lia).
    by apply IH; [|lia].
Qed.
End searches.

(** ** What the comparisons find *)

(** The first two elements that differ. *)
Fixpoint first_diff (l l' : list Z) : option (Z * Z) :=
  match l, l' with
  | x :: l, y :: l' => if decide (x = y) then first_diff l l' else Some (x, y)
  | _, _ => None
  end.
Definition diff_by (f : Z → Z → Z) (o : option (Z * Z)) : Z :=
  match o with Some (x, y) => f x y | None => 0 end.
(** The difference as [strcmp] computes it. *)
Definition char_diff (x y : Z) : Z := s8 (s8 x - s8 y).

(** The lexicographic order. *)
Fixpoint str_lt (s t : list Z) : Prop :=
  match s, t with
  | _, [] => False
  | [], _ :: _ => True
  | x :: s, y :: t => x < y ∨ x = y ∧ str_lt s t
  end.

Section comparisons.
Implicit Types m : mem.

Lemma first_diff_None l l' :
  length l = length l' → first_diff l l' = None ↔ l = l'.
Proof.
  revert l'. induction l as [|x l IH]; intros [|y l'] Hl; simpl in *; try done.
  injection Hl as Hl. destruct (decide (x = y)) as [->|]; [|naive_solver].
  rewrite (IH _ Hl). naive_solver.
Qed.
Lemma first_diff_Some l l' x y :
  first_diff l l' = Some (x, y) → x ≠ y ∧ ∃ k r r', l = k ++ x :: r ∧ l' = k ++ y :: r'.
Proof.
  revert l'. induction l as [|a l IH]; intros [|b l'] Hl; simpl in *; try done.
  destruct (decide (a = b)) as [->|].
  - apply IH in Hl as (? & k & r & r' & -> & ->). split; [done|]. by exists (b :: k), r, r'.
  - injection Hl as -> ->. split; [done|]. by exists [], l, l'.
Qed.

Lemma first_diff_str s t :
  Forall (λ x, 0 < x < 256) s → Forall (λ x, 0 < x < 256) t →
  first_diff (s ++ [0]) (t ++ [0]) = None ↔ s = t.
Proof.
  intros Hs. revert t. induction Hs as [|x s Hx Hs IH]; intros [|y t] Ht; simpl;
    try (apply Forall_cons in Ht as [Hy Ht]).
  - done.
  - rewrite decide_False by lia. done.
  - rewrite decide_False by lia. done.
  - destruct (decide (x = y)) as [->|]; [|naive_solver]. rewrite (IH t Ht). naive_solver.
Qed.

Lemma char_diff_0 x y : byte x → byte y → char_diff x y = 0 ↔ x = y.
Proof. unfold byte, char_diff, s8, swrap. intros. split; intros; [|subst]; dlia. Qed.
Lemma char_diff_ascii x y : 0 ≤ x < 128 → 0 ≤ y < 128 → char_diff x y = x - y.
Proof. unfold char_diff, s8, swrap. intros. dlia. Qed.

Lemma str_lt_diff s t :
  Forall (λ x, 0 < x < 128) s → Forall (λ x, 0 < x < 128) t →
  diff_by char_diff (first_diff (s ++ [0]) (t ++ [0])) < 0 ↔ str_lt s t.
Proof.
  intros Hs. revert t. induction Hs as [|x s Hx Hs IH]; intros [|y t] Ht; simpl;
    try (apply Forall_cons in Ht as [Hy Ht]); try done.
  - rewrite decide_False by lia. simpl. rewrite char_diff_ascii by lia. split; [done|lia].
  - rewrite decide_False by lia. simpl. rewrite char_diff_ascii by lia. split; [lia|done].
  - destruct (decide (x = y)) as [->|].
    + rewrite (IH t Ht). split; [by right|]. intros [|[]]; [lia|done].
    + simpl. rewrite char_diff_ascii by lia. split; [left; lia|]. intros [|[]]; [lia|done].
Qed.

Lemma memcmp_run m fuel a b l l' :
  bytes m a l → bytes m b l' → length l = length l' → (length l < fuel)%nat →
  memcmp fuel a b (size l) m = Ret (diff_by Z.sub (first_diff l l'), m).
Proof.
  unfold memcmp. revert a b l' fuel.
  induction l as [|x l IH]; intros a b [|y l'] [|fuel] Hl Hl' Hn Hf; simpl in Hf, Hn; try lia.
  { by apply loop_leave. }
  destruct Hl as [E Hl], Hl' as [E' Hl']. injection Hn as Hn. simpl first_diff.
  destruct (decide (x = y)) as [->|Hxy].
  - erewrite loop_next.
    2: { rewrite (proj2 (Z.ltb_lt 0 _)) by (simpl; lia). run. by rewrite Z.sub_diag. }
    replace (size (y :: l) - 1) with (size l) by (simpl length; lia).
    by apply IH; [..|lia].
  - apply loop_leave. rewrite (proj2 (Z.ltb_lt 0 _)) by (simpl; lia). run.
    by rewrite (proj2 (Z.eqb_neq (x - y) 0)) by lia.
Qed.

Lemma strcmp_run m fuel a b s t :
  cstr m a s → cstr m b t → (length s < fuel)%nat →
  strcmp fuel a b m = Ret (diff_by char_diff (first_diff (s ++ [0]) (t ++ [0])), m).
Proof.
  unfold strcmp. revert a b t fuel.
  assert (∀ x y, byte x → byte y → x ≠ y → (s8 (s8 x - s8 y) =? 0) = false) as Hd.
  { intros x y Hx Hy Hn. apply Z.eqb_neq. by rewrite (char_diff_0 x y). }
  assert (∀ x, s8 (s8 x - s8 x) = 0) as H0 by (intros x; by rewrite Z.sub_diag).
  induction s as [|x s IH]; intros a b [|y t] [|fuel] Hs Ht Hf; simpl in Hf; try lia;
    simpl first_diff;
    first [apply cstr_nil in Hs as E | apply cstr_cons in Hs as (E & Hx & Hs)];
    first [apply cstr_nil in Ht as E' | apply cstr_cons in Ht as (E' & Hy & Ht)].
  - by apply loop_leave; run.
  - rewrite decide_False by lia. apply loop_leave. run.
    by rewrite Hd by (eauto using byte_0, byte_str; lia).
  - rewrite decide_False by lia. apply loop_leave. run.
    by rewrite Hd by (eauto using byte_0, byte_str; lia).
  - destruct (decide (x = y)) as [->|Hxy].
    + erewrite loop_next.
      2: { run. rewrite H0. by rewrite (proj2 (Z.eqb_neq y 0)) by lia. }
      by apply IH; [..|lia].
    + apply loop_leave. run. by rewrite Hd by (eauto using byte_str).
Qed.

Lemma strncmp_run m fuel a b s t n :
  cstr m a s → cstr m b t → (length s < fuel)%nat →
  strncmp fuel a b (Z.of_nat n) m =
    Ret (diff_by char_diff (first_diff (take n (s ++ [0])) (take n (t ++ [0]))), m).
Proof.
  unfold strncmp. revert a b t n fuel.
  assert (∀ x y, byte x → byte y → x ≠ y → (s8 (s8 x - s8 y) =? 0) = false) as Hd.
  { intros x y Hx Hy Hn. apply Z.eqb_neq. by rewrite (char_diff_0 x y). }
  assert (∀ x, s8 (s8 x - s8 x) = 0) as H0 by (intros x; by rewrite Z.sub_diag).
  induction s as [|x s IH]; intros a b [|y t] [|n] [|fuel] Hs Ht Hf; simpl in Hf; try lia;
    try (by apply loop_leave);
    simpl first_diff;
    first [apply cstr_nil in Hs as E | apply cstr_cons in Hs as (E & Hx & Hs)];
    first [apply cstr_nil in Ht as E' | apply cstr_cons in Ht as (E' & Hy & Ht)].
  - rewrite take_nil. by apply loop_leave; rewrite (proj2 (Z.eqb_neq _ 0)) by lia; run.
  - rewrite decide_False by lia. apply loop_leave. rewrite (proj2 (Z.eqb_neq _ 0)) by lia. run.
    by rewrite Hd by (eauto using byte_0, byte_str; lia).
  - rewrite decide_False by lia. apply loop_leave. rewrite (proj2 (Z.eqb_neq _ 0)) by lia. run.
    by rewrite Hd by (eauto using byte_0, byte_str; lia).
  - destruct (decide (x = y)) as [->|Hxy].
    + erewrite loop_next.
      2: { rewrite (proj2 (Z.eqb_neq _ 0)) by lia. run. rewrite H0.
           by rewrite (proj2 (Z.eqb_neq y 0)) by lia. }
      replace (Z.of_nat (S n) - 1) with (Z.of_nat n) by lia.
      by apply IH; [..|lia].
    + apply loop_leave. rewrite (proj2 (Z.eqb_neq _ 0)) by lia. run.
      by rewrite Hd by (eauto using byte_str).
Qed.

Lemma module_rstrncmp_run m fuel a b l l' :
  bytes m a l → bytes m b l' → length l = length l' → (length l < fuel)%nat →
  module_rstrncmp fuel a b (size l) m =
    Ret (diff_by Z.sub (first_diff (reverse l) (reverse l')), m).
Proof.
  unfold module_rstrncmp. intros Hl Hl' Hn Hf.
  destruct (Z.eqb_spec (size l) 0) as [E0|E0].
  { destruct l; [|simpl in E0; lia]. by destruct l'. }
  revert l' fuel Hl Hl' Hn Hf.
  induction l as [|x l IH] using rev_ind; intros l' [|fuel] Hl Hl' Hn Hf; try done; try lia.
  destruct l' as [|y l' _] using rev_ind; [len|].
  apply bytes_app in Hl as [Hl [E _]]. apply bytes_app in Hl' as [Hl' [E' _]].
  rewrite length_app in Hf. rewrite !length_app in Hn. assert (length l = length l') as Hn' by (simpl in Hn; lia). simpl in Hf.
  rewrite !reverse_snoc. simpl first_diff. rewrite <- Hn' in E'.
  replace (size (l ++ [x]) - 1) with (size l) by len.
  destruct (decide (x = y)) as [->|Hxy].
  2: { apply loop_leave. run. by rewrite (proj2 (Z.eqb_neq x y)) by done. }
  destruct (decide (size l = 0)) as [E1|E1].
  { destruct l; [|simpl in E1; lia]. destruct l'; [|done]. apply loop_leave. run.
    by rewrite Z.eqb_refl. }
  erewrite loop_next.
  2: { run. rewrite Z.eqb_refl. by rewrite (proj2 (Z.eqb_neq (size l) 0)) by done. }
  by apply IH; [..|lia].
Qed.

(** The result of [strnicmp] is zero when the strings agree up to case. *)
Lemma strnicmp_run tolower m fuel a b s t n :
  (∀ x, 0 < x < 256 → 0 < tolower x < 256) →
  cstr m a s → cstr m b t → (length s < fuel)%nat →
  ∃ r, strnicmp tolower fuel a b (Z.of_nat n) m = Ret (r, m) ∧
    (r = 0 ↔ take n (tolower <$> s) = take n (tolower <$> t)).
Proof.
  intros Hlow Hs Ht Hf. unfold strnicmp. destruct (Z.eqb_spec (Z.of_nat n) 0) as [E|E].
  { exists 0. replace n with 0%nat by lia. done. }
  assert (∀ x, 0 < x < 256 → u8 (tolower x) = tolower x) as Hu.
  { intros x Hx. apply Z.mod_small. specialize (Hlow x Hx). lia. }
  revert a b t n fuel E Hs Ht Hf.
  induction s as [|x s IH]; intros a b t [|n] [|fuel] E0 Hs Ht Hf; simpl in Hf; try lia;
    [apply cstr_nil in Hs as E|apply cstr_cons in Hs as (E & Hx & Hs)];
    (destruct t as [|y t]; [apply cstr_nil in Ht as E'|apply cstr_cons in Ht as (E' & Hy & Ht)]).
  - exists 0. split; [|done]. by apply loop_leave; run.
  - exists (0 - y). split; [by apply loop_leave; run|]. simpl. split; [lia|done].
  - exists (x - 0). split; [|simpl; split; [lia|done]]. apply loop_leave. run.
    by rewrite (proj2 (Z.eqb_neq x 0)) by lia.
  - rewrite !fmap_cons, !firstn_cons. destruct (decide (tolower x = tolower y)) as [Hxy|Hxy].
    2: { exists (tolower x - tolower y). split; [|split; [lia|by intros [= ? _]]].
         apply loop_leave. run. rewrite (proj2 (Z.eqb_neq x 0)), (proj2 (Z.eqb_neq y 0)) by lia.
         rewrite (proj2 (Z.eqb_neq x y)) by naive_solver. rewrite !Hu by done.
         by rewrite (proj2 (Z.eqb_neq (tolower x) (tolower y))) by done. }
    destruct n as [|n].
    + exists 0. split; [|simpl; rewrite Hxy; done]. apply loop_leave. run.
      rewrite (proj2 (Z.eqb_neq x 0)), (proj2 (Z.eqb_neq y 0)) by lia.
      destruct (Z.eqb_spec x y) as [->|].
      * rewrite Z.eqb_refl. simpl. by rewrite Z.sub_diag.
      * rewrite !Hu, Hxy, Z.eqb_refl by done. simpl. by rewrite Z.sub_diag.
    + destruct (IH (a + 1) (b + 1) t (S n) fuel) as (r & Hr & Hr0); [lia|done..|lia|].
      exists r. split; [|rewrite Hr0, Hxy; split; [by intros ->|by intros [= ?]]]. rewrite <- Hr. apply loop_next. run.
      rewrite (proj2 (Z.eqb_neq x 0)), (proj2 (Z.eqb_neq y 0)) by lia.
      replace (Z.of_nat (S n)) with (Z.of_nat (S (S n)) - 1) by lia.
      destruct (Z.eqb_spec x y) as [->|].
      * rewrite Z.eqb_refl. by rewrite (proj2 (Z.eqb_neq _ 0)) by lia.
      * rewrite !Hu, Hxy, Z.eqb_refl by done. by rewrite (proj2 (Z.eqb_neq _ 0)) by lia.
Qed.

Lemma first_diff_take n s t :
  Forall (λ x, 0 < x < 256) s → Forall (λ x, 0 < x < 256) t →
  first_diff (take n (s ++ [0])) (take n (t ++ [0])) = None ↔ take n s = take n t.
Proof.
  intros Hs. revert n t. induction Hs as [|x s Hx Hs IH]; intros [|n] [|y t] Ht; simpl;
    try (apply Forall_cons in Ht as [Hy Ht]); try done.
  - by rewrite !take_nil.
  - by rewrite decide_False by lia.
  - by rewrite decide_False by lia.
  - destruct (decide (x = y)) as [->|]; [|naive_solver]. rewrite (IH n t Ht).
    split; [by intros ->|by intros [= ?]].
Qed.

Lemma elem_of_take_cstr n x (l : list Z) : x ∈ take n l → x ∈ l.
Proof. intros Hx. rewrite <- (take_drop n l). apply elem_of_app. by left. Qed.

(** A difference that [f] sees is zero only if there is no first difference. *)
Lemma diff_by_0 f l l' :
  (∀ x y, x ∈ l → y ∈ l' → f x y = 0 → x = y) →
  diff_by f (first_diff l l') = 0 ↔ first_diff l l' = None.
Proof.
  intros Hf. destruct (first_diff l l') as [[x y]|] eqn:E; simpl; [|done].
  apply first_diff_Some in E as (Hxy & k & r & r' & -> & ->). split; [|done].
  intros H0. destruct Hxy. apply Hf; [set_solver..|done].
Qed.

Lemma byte_cstr x s : Forall (λ x, 0 < x < 256) s → x ∈ s ++ [0] → byte x.
Proof.
  intros Hs [Hx|Hx]%elem_of_app.
  - rewrite Forall_forall in Hs. by apply byte_str, Hs.
  - apply list_elem_of_singleton in Hx as ->. apply byte_0.
Qed.
End comparisons.

Section more_copies.
Implicit Types m : mem.

Lemma write_cstr m d s : Forall (λ x, 0 < x < 256) s → cstr (write d (s ++ [0]) m) d s.
Proof. intros Hs. split; [apply write_bytes|done]. Qed.

Lemma cstr_app m d old s :
  bytes m d old → Forall (λ x, 0 < x < 256) old → cstr m (d + size old) s → cstr m d (old ++ s).
Proof.
  intros Hb Ho [Hs Hf]. split; [|by apply Forall_app].
  rewrite <- app_assoc. by apply bytes_app.
Qed.

Lemma cstr_prefix m a s : cstr m a s → bytes m a s.
Proof. intros [Hs _]. by apply bytes_app in Hs as [? _]. Qed.

Lemma bytes_take m a l n : bytes m a l → bytes m a (take n l).
Proof. intros H. rewrite <- (take_drop n l) in H. by apply bytes_app in H as [? _]. Qed.

Lemma module_cpystrn_run m fuel d a s n :
  cstr m a s → valid m d (Z.of_nat (S n)) → apart d (Z.of_nat (S n)) a (size s + 1) →
  (length s < fuel)%nat →
  module_cpystrn fuel d a (Z.of_nat (S n)) m =
    Ret (d + size (take n s), write d (take n s ++ [0%Z]) m).
Proof.
  unfold module_cpystrn, apart. rewrite (proj2 (Z.eqb_neq _ 0)) by lia.
  revert d a m n fuel.
  induction s as [|x s IH]; intros d a m n [|fuel] Hs Hd Ho Hf; simpl in Hf, Ho; try lia;
    pose proof (valid_head _ _ _ Hd ltac:(lia)) as Hh;
    (destruct n as [|n];
      [apply loop_leave; simpl; run; by rewrite Z.add_0_r|]).
  - apply cstr_nil in Hs. apply loop_leave.
    rewrite (proj2 (Z.eqb_neq _ 0)) by lia. run. simpl. by rewrite Z.add_0_r.
  - apply cstr_cons in Hs as (E & Hx & Hs & Hb). erewrite loop_next.
    2: { rewrite (proj2 (Z.eqb_neq _ 0)) by lia. run. by rewrite (proj2 (Z.eqb_neq x 0)) by lia. }
    replace (Z.of_nat (S (S n)) - 1) with (Z.of_nat (S n)) by lia.
    rewrite IH.
    + rewrite firstn_cons. simpl length. simpl app. simpl write. do 2 f_equal. lia.
    + split; [|done]. apply bytes_insert; [done|len].
    + apply valid_insert. eapply valid_sub; [done|lia..].
    + lia.
    + lia.
Qed.

Lemma strlcpy_run m fuel d a s n :
  cstr m a s → valid m d (Z.of_nat (S n)) → apart d (Z.of_nat (S n)) a (size s + 1) →
  (length s < fuel)%nat →
  strlcpy fuel d a (Z.of_nat (S n)) m = Ret (size s, write d (take n s ++ [0%Z]) m).
Proof.
  intros Hs Hd Ho Hf. unfold strlcpy, apart in *.
  erewrite bind_ret by (by apply strlen_run). rewrite (proj2 (Z.eqb_neq _ 0)) by lia.
  replace (if Z.of_nat (S n) <=? size s then Z.of_nat (S n) - 1 else size s)
    with (size (take n s)).
  2: { rewrite length_take. destruct (Z.leb_spec (Z.of_nat (S n)) (size s)); lia. }
  assert (length (take n s) ≤ n)%nat by len.
  assert (length (take n s) ≤ length s)%nat by len.
  erewrite bind_ret; [done|]. erewrite bind_ret.
  2: { apply memcpy_run; [by apply bytes_take, cstr_prefix| |lia..].
       eapply valid_sub; [done|lia..]. }
  rewrite wr_run by (eapply valid_write_at; [exact Hd|lia]). by rewrite write_app.
Qed.

Lemma strlcat_run m fuel d a old s n :
  cstr m d old → cstr m a s → (length old ≤ n)%nat →
  valid m d (Z.of_nat (S n)) → apart d (Z.of_nat (S n)) a (size s + 1) →
  (length s < fuel)%nat → (length old < fuel)%nat →
  strlcat fuel d a (Z.of_nat (S n)) m =
    Ret (size old + size s, write (d + size old) (take (n - length old) s ++ [0%Z]) m).
Proof.
  intros Hod Hs Hn Hd Ho Hf Hf'. unfold strlcat, apart in *.
  erewrite bind_ret by (by apply strlen_run). erewrite bind_ret by (by apply strlen_run).
  cbv beta zeta. rewrite (proj2 (Z.leb_gt (Z.of_nat (S n)) (size old))) by lia. erewrite bind_ret by done.
  set (w := take (n - length old) s).
  replace (if Z.of_nat (S n) - size old <=? size s then Z.of_nat (S n) - size old - 1 else size s)
    with (size w).
  2: { unfold w. rewrite length_take.
       destruct (Z.leb_spec (Z.of_nat (S n) - size old) (size s)); lia. }
  assert (length w ≤ n - length old)%nat by (unfold w; len).
  assert (length w ≤ length s)%nat by (unfold w; len).
  erewrite bind_ret.
  2: { apply memcpy_run; [by apply bytes_take, cstr_prefix| |lia..].
       eapply valid_sub; [done|lia..]. }
  erewrite bind_ret by (apply wr_run; eapply valid_write_at; [exact Hd|lia]). by rewrite write_app.
Qed.

Lemma strncpy_run m fuel d a s n :
  cstr m a s → valid m d (Z.of_nat n) → apart d (Z.of_nat n) a (size s + 1) → (n < fuel)%nat →
  strncpy fuel d a (Z.of_nat n) m =
    Ret (d, write d (take n s ++ replicate (n - length s) 0) m).
Proof.
  intros Hs Hd Ho Hf. unfold strncpy. erewrite bind_ret; [done|].
  revert d a m s fuel Hs Hd Ho Hf. unfold apart.
  induction n as [|n IH]; intros d a m s [|fuel] Hs Hd Ho Hf; try lia; [by apply loop_leave|].
  pose proof (valid_head _ _ _ Hd ltac:(lia)) as Hh.
  assert (∀ b x, b = a ∨ b = a + 1 → m !! a = Some x → b = (if x =? 0 then a else a + 1) →
    loop (S fuel) (λ '(tmp, src, count),
      if count =? 0 then mret (inr tt)
      else c ← rd src; wr tmp c;;
        mret (inl (tmp + 1, if c =? 0 then src else src + 1, count - 1))) (d, a, Z.of_nat (S n)) m
    = loop fuel (λ '(tmp, src, count),
      if count =? 0 then mret (inr tt)
      else c ← rd src; wr tmp c;;
        mret (inl (tmp + 1, if c =? 0 then src else src + 1, count - 1)))
        (d + 1, b, Z.of_nat n) (<[d := x]> m)) as Hstep.
  { intros b x _ E ->. apply loop_next. rewrite (proj2 (Z.eqb_neq _ 0)) by lia. run.
    by replace (Z.of_nat (S n) - 1) with (Z.of_nat n) by lia. }
  destruct s as [|x s].
  - pose proof (proj1 (cstr_nil _ _) Hs) as E. rewrite (Hstep a 0 (or_introl eq_refl) E eq_refl).
    rewrite IH with (s := []).
    + rewrite !take_nil, !Nat.sub_0_r. done.
    + apply cstr_nil. rewrite lookup_insert_ne; [done|]. simpl in Ho. lia.
    + apply valid_insert. eapply valid_sub; [done|lia..].
    + simpl in *. lia.
    + lia.
  - apply cstr_cons in Hs as (E & Hx & Hs & Hb). simpl in Ho.
    rewrite (Hstep (a + 1) x (or_intror eq_refl) E) by (by rewrite (proj2 (Z.eqb_neq x 0)) by lia).
    rewrite IH with (s := s); [done|..].
    + split; [|done]. apply bytes_insert; [done|len].
    + apply valid_insert. eapply valid_sub; [done|lia..].
    + lia.
    + lia.
Qed.

Lemma memset_run m fuel d c n :
  valid m d (Z.of_nat n) → (n < fuel)%nat →
  memset fuel d c (Z.of_nat n) m = Ret (d, write d (replicate n (u8 c)) m).
Proof.
  intros Hd Hf. unfold memset. erewrite bind_ret; [done|]. revert d m fuel Hd Hf.
  induction n as [|n IH]; intros d m [|fuel] Hd Hf; try lia; [by apply loop_leave|].
  pose proof (valid_head _ _ _ Hd ltac:(lia)) as Hh. erewrite loop_next.
  2: { rewrite (proj2 (Z.eqb_neq _ 0)) by lia. run. done. }
  replace (Z.of_nat (S n) - 1) with (Z.of_nat n) by lia.
  rewrite IH; [done| |lia]. apply valid_insert. eapply valid_sub; [done|lia..].
Qed.

Lemma strcat_run m fuel d a old s :
  cstr m d old → cstr m a s → valid m d (size old + size s + 1) →
  apart d (size old + size s + 1) a (size s + 1) →
  (length s < fuel)%nat → (length old < fuel)%nat →
  strcat fuel d a m = Ret (d, write (d + size old) (s ++ [0]) m).
Proof.
  intros Hod Hs Hd Ho Hf Hf'. unfold strcat, apart in *.
  erewrite bind_ret by (by apply str_end_run).
  erewrite bind_ret; [done|]. apply copy_str_run; [done| |lia..].
  eapply valid_sub; [done|lia..].
Qed.

Lemma strncat_run m fuel d a old s n :
  cstr m d old → cstr m a s → valid m d (size old + size (take (S n) s) + 1) →
  apart d (size old + size (take (S n) s) + 1) a (size s + 1) →
  (length s < fuel)%nat → (length old < fuel)%nat →
  strncat fuel d a (Z.of_nat (S n)) m =
    Ret (d, write (d + size old) (take (S n) s ++ [0]) m).
Proof.
  intros Hod Hs Hd Ho Hf Hf'. unfold strncat, apart in *.
  rewrite (proj2 (Z.eqb_neq _ 0)) by lia.
  erewrite bind_ret; [done|]. erewrite bind_ret by (by apply str_end_run). cbv beta.
  assert (valid m (d + size old) (size (take (S n) s) + 1)) as Hd'
    by (eapply valid_sub; [done|lia..]).
  assert (d + size old + size (take (S n) s) + 1 ≤ a ∨ a + (size s + 1) ≤ d + size old)
    as Ho' by lia.
  revert Hd' Ho'. generalize (d + size old) as b. clear d Hd Ho Hod Hf'. intros d Hd Ho.
  revert d a m n fuel Hs Hd Ho Hf.
  induction s as [|x s IH]; intros d a m n [|fuel] Hs Hd Ho Hf; simpl in Hf; try lia;
    pose proof (valid_head _ _ _ Hd ltac:(lia)) as Hh.
  { apply cstr_nil in Hs. apply loop_leave. by run. }
  apply cstr_cons in Hs as (E & Hx & Hs & Hb). rewrite firstn_cons in *. simpl length in Hd, Ho.
  destruct n as [|n].
  - simpl in Hd. apply loop_leave. run. rewrite (proj2 (Z.eqb_neq x 0)) by lia. simpl.
    erewrite bind_ret; [done|]. apply wr_run, valid_insert with (1 := Hd). lia.
  - erewrite loop_next.
    2: { run. rewrite (proj2 (Z.eqb_neq x 0)) by lia.
         by rewrite (proj2 (Z.eqb_neq _ 0)) by lia. }
    replace (Z.of_nat (S (S n)) - 1) with (Z.of_nat (S n)) by lia.
    rewrite IH; [done|..].
    + split; [|done]. apply bytes_insert; [done|len].
    + apply valid_insert. eapply valid_sub; [done|lia..].
    + lia.
    + lia.
Qed.
End more_copies.

(** ** Substrings and tokens *)

(** The pieces of [s] between the bytes of [d]. *)
Fixpoint split_at (d s : list Z) : list (list Z) :=
  match s with
  | [] => [[]]
  | x :: s =>
      if decide (x ∈ d) then [] :: split_at d s
      else match split_at d s with
           | [] => [[x]]
           | t :: ts => (x :: t) :: ts
           end
  end.

(** A client that calls [strsep] until there is no token left. *)
Definition strsep_all (fuel : nat) (s ct : Z) : M mem (list Z) :=
  loop fuel (λ '(s, toks),
    r ← strsep fuel s ct;
    if fst r =? NULL then mret (inr toks) else mret (inl (snd r, toks ++ [fst r]))) (s, []).

Section tokens.
Implicit Types m : mem.

Lemma strstr_scan m fuel f a b s t :
  cstr m b t → t ≠ [] → cstr m a s → 
  (length s < fuel)%nat → (length t < f)%nat → size t < 2 ^ 31 →
  ∃ r, loop fuel (λ '(l1, s1),
      if size t <=? l1 then
        r ← memcmp f s1 b (u64 (size t));
        if r =? 0 then mret (inr s1) else mret (inl (l1 - 1, s1 + 1))
      else mret (inr NULL)) (size s, a) m = Ret (r, m) ∧
    ((∃ i, r = a + Z.of_nat i ∧ t `prefix_of` drop i s ∧ ∀ j, (j < i)%nat → ¬ t `prefix_of` drop j s)
     ∨ r = NULL ∧ ∀ j, ¬ t `prefix_of` drop j s).
Proof.
  intros Ht Hne. assert (0 < size t) as Hpos by (destruct t; [done|simpl; lia]).
  revert a fuel. induction s as [|x s IH]; intros a [|fuel] Hs Hf Hf' Hmax; simpl in Hf; try lia.
  { exists NULL. split; [apply loop_leave; by rewrite (proj2 (Z.leb_gt _ _)) by (simpl; lia)|].
    right. split; [done|]. intros j Hp. rewrite drop_nil in Hp. by apply prefix_nil_inv in Hp. }
  destruct (Z.leb_spec (size t) (size (x :: s))) as [Hle|Hgt].
  2: { exists NULL. split; [apply loop_leave; by rewrite (proj2 (Z.leb_gt _ _)) by done|].
       right. split; [done|]. intros j Hp. apply prefix_length in Hp. len. }
  assert (memcmp f a b (u64 (size t)) m =
    Ret (diff_by Z.sub (first_diff (take (length t) (x :: s)) t), m)) as Hc.
  { rewrite u64_small by lia.
    assert (length (take (length t) (x :: s)) = length t) as El by len.
    rewrite <- El at 1. apply memcmp_run; [|by apply cstr_prefix|done|lia].
    by apply bytes_take, cstr_prefix. }
  destruct (first_diff (take (length t) (x :: s)) t) as [[y z]|] eqn:Hd.
  - assert (¬ t `prefix_of` x :: s) as Hn.
    { intros [k Ek]. rewrite Ek, take_app_length in Hd.
      by rewrite (proj2 (first_diff_None t t eq_refl) eq_refl) in Hd. }
    apply first_diff_Some in Hd as [Hyz _].
    pose proof (proj1 (cstr_cons _ _ _ _) Hs) as (_ & _ & Hs').
    destruct (IH (a + 1) fuel Hs' ltac:(lia) Hf' Hmax) as (r & Hr & Hspec). exists r. split.
    + rewrite <- Hr. apply loop_next. rewrite (proj2 (Z.leb_le _ _)) by done.
      erewrite bind_ret by exact Hc. unfold diff_by. rewrite (proj2 (Z.eqb_neq (y - z) 0)) by lia.
      by replace (size (x :: s) - 1) with (size s) by (simpl length; lia).
    + destruct Hspec as [(i & -> & Hp & Hfst)|[-> Hnone]].
      * left. exists (S i). split; [lia|]. split; [done|].
        intros [|j] Hj; [done|]. simpl. apply Hfst. lia.
      * right. split; [done|]. intros [|j]; [done|]. simpl. apply Hnone.
  - apply first_diff_None in Hd; [|len]. exists a. split.
    + apply loop_leave. rewrite (proj2 (Z.leb_le _ _)) by done. by erewrite bind_ret by exact Hc.
    + left. exists 0%nat. split; [lia|]. split; [|lia]. rewrite <- Hd at 1. apply prefix_take.
Qed.

Lemma split_at_None d s : list_find (λ x, x ∈ d) s = None → split_at d s = [s].
Proof.
  induction s as [|x s IH]; simpl; [done|]. destruct (decide (x ∈ d)); [done|].
  destruct (list_find _ s); [done|]. by rewrite IH.
Qed.
Lemma split_at_Some d s i x :
  list_find (λ x, x ∈ d) s = Some (i, x) →
  split_at d s = take i s :: split_at d (drop (S i) s).
Proof.
  revert i. induction s as [|y s IH]; intros i; simpl; [done|].
  destruct (decide (y ∈ d)); [by intros [= <- <-]|].
  destruct (list_find _ s) as [[j z]|] eqn:Hj; simpl; [|done]. intros [= <- ->].
  by rewrite (IH j eq_refl).
Qed.

Lemma cstr_agree m m' a s :
  (∀ p, a ≤ p < a + size s + 1 → m' !! p = m !! p) → cstr m a s → cstr m' a s.
Proof.
  revert a. induction s as [|x s IH]; intros a Hm.
  - rewrite !cstr_nil. rewrite Hm; [done|simpl; lia].
  - rewrite !cstr_cons. intros (E & Hx & Hs). rewrite Hm by (simpl; lia).
    split; [done|]. split; [done|]. apply IH; [|done]. intros p Hp. apply Hm. simpl. lia.
Qed.

(** One call: the token at the front is terminated in place, or is the rest. *)
Lemma strsep_run m fuel p s c d :
  0 < p → cstr m p s → cstr m c d → apart p (size s + 1) c (size d + 1) →
  (length s < fuel)%nat → (length d < fuel)%nat →
  match list_find (λ x, x ∈ d) s with
  | None => strsep fuel p c m = Ret ((p, NULL), m)
  | Some (i, _) => ∃ m', let e := p + Z.of_nat i in
      strsep fuel p c m = Ret ((p, e + 1), m') ∧ m' = <[e := 0]> m ∧ (i < length s)%nat ∧
      cstr m' p (take i s) ∧ cstr m' (e + 1) (drop (S i) s) ∧ cstr m' c d
  end.
Proof.
  intros Hp Hs Hd Ho Hf Hf'. unfold strsep, apart in *.
  rewrite (proj2 (Z.eqb_neq p NULL)) by (unfold NULL; lia).
  pose proof (strpbrk_run m fuel p s c d Hs Hd Hf Hf') as Hk.
  destruct (list_find (λ x, x ∈ d) s) as [[i x]|] eqn:Hi; simpl found in Hk.
  2: { by erewrite bind_ret by exact Hk. }
  apply list_find_Some in Hi as (Hi & _ & _). pose proof (lookup_lt_Some _ _ _ Hi) as Hlt.
  exists (<[p + Z.of_nat i := 0]> m). cbv zeta.
  destruct Hs as [Hb Hs]. pose proof (take_drop_middle _ _ _ Hi) as Es.
  assert (length (take i s) = i) as Et by (rewrite length_take; lia).
  rewrite <- Es in Hb, Hs. rewrite <- app_assoc in Hb.
  apply bytes_app in Hb as [Hb1 [E Hb2]]. rewrite Et in E, Hb2.
  apply Forall_app in Hs as [Hs1 Hs2]. apply Forall_cons in Hs2 as [_ Hs2].
  split; [|split; [done|split; [done|split; [split; [|done]|split; [split; [|done]|]]]]].
  - erewrite bind_ret by exact Hk.
    rewrite (proj2 (Z.eqb_neq (p + Z.of_nat i) NULL)) by (unfold NULL; lia).
    by erewrite bind_ret by (apply wr_run; eauto).
  - apply bytes_app. rewrite Et. split; [apply bytes_insert; [done|lia]|].
    simpl. by rewrite lookup_insert_eq.
  - apply bytes_insert; [done|lia].
  - apply cstr_write with (b := p + Z.of_nat i) (w := [0%Z]); [done|].
    unfold apart. simpl. lia.
Qed.

Lemma strsep_loop m f fuel p s c d acc :
  0 < p → cstr m p s → cstr m c d → apart p (size s + 1) c (size d + 1) →
  (length s + 1 < fuel)%nat → (length s < f)%nat → (length d < f)%nat →
  ∃ toks m', loop fuel (λ '(s, toks),
      r ← strsep f s c;
      if fst r =? NULL then mret (inr toks) else mret (inl (snd r, toks ++ [fst r]))) (p, acc) m
    = Ret (acc ++ toks, m') ∧
    Forall2 (cstr m') toks (split_at d s) ∧
    (∀ q, q < p ∨ p + size s ≤ q → m' !! q = m !! q).
Proof.
  revert m p s acc. induction fuel as [|fuel IH]; intros m p s acc Hp Hs Hd Ho Hf Hf1 Hf2; [lia|].
  pose proof (strsep_run m f p s c d Hp Hs Hd Ho Hf1 Hf2) as Hrun.
  destruct (list_find (λ x, x ∈ d) s) as [[i x]|] eqn:Hi.
  - destruct Hrun as (m1 & Hr & Em & Hlt & Htok & Hrest & Hd1). cbv zeta in *.
    pose proof (length_drop s (S i)) as Ed.
    destruct (IH m1 (p + Z.of_nat i + 1) (drop (S i) s) (acc ++ [p]))
      as (toks & m' & Hl & Htoks & Hout); try done; try lia.
    { unfold apart in *. lia. }
    exists (p :: toks), m'. split; [|split].
    + erewrite loop_next.
      2: { erewrite bind_ret by exact Hr. cbv beta. cbn [fst snd].
           by rewrite (proj2 (Z.eqb_neq p NULL)) by (unfold NULL; lia). }
      rewrite Hl. by rewrite <- app_assoc.
    + rewrite (split_at_Some d s i x Hi). constructor; [|done].
      eapply cstr_agree; [|exact Htok]. intros q Hq. apply Hout.
      rewrite length_take in Hq. lia.
    + intros q Hq. rewrite Hout by lia. subst m1. apply lookup_insert_ne. lia.
  - exists [p], m. rewrite (split_at_None d s Hi). split; [|split; [constructor; [done|constructor]|done]].
    destruct fuel as [|fuel]; [lia|]. erewrite loop_next.
    2: { erewrite bind_ret by exact Hrun. cbv beta. cbn [fst snd].
         by rewrite (proj2 (Z.eqb_neq p NULL)) by (unfold NULL; lia). }
    apply loop_leave. by erewrite bind_ret by done.
Qed.
End tokens.

(** ** The theorems *)

(** C26: [memmove] moves [l] to [dest] however the areas overlap and changes
    nothing else; [memcpy] does so when [dest] is not inside the source. *)
Theorem memmove_spec m fuel dest src l :
  bytes m src l → valid m dest (size l) → (length l < fuel)%nat →
  ∃ m', memmove fuel dest src (size l) m = Ret (dest, m') ∧
    bytes m' dest l ∧ (∀ p, p < dest ∨ dest + size l ≤ p → m' !! p = m !! p) ∧
    (dest ≤ src ∨ src + size l ≤ dest → memcpy fuel dest src (size l) m = Ret (dest, m')).
Proof.
  intros Hs Hd Hf. exists (write dest l m).
  split; [|split; [apply write_bytes|split; [apply write_outside|by intros; apply memcpy_run]]].
  unfold memmove. erewrite bind_ret; [done|]. destruct (Z.leb_spec dest src).
  - apply copy_up_run; [done..|by left|done].
  - apply copy_down_run; [done..|lia|done].
Qed.

(** C27: [strlcpy], [module_cpystrn] and [strlcat] never write outside of the [n]
    bytes of the destination, leave a terminated string in it, which is the
    longest prefix that fits, and return the length they tried to create (the
    end of the string for [module_cpystrn]). *)
Theorem bounded_copies_spec m fuel d a old s n :
  cstr m d old → cstr m a s → (length old ≤ n)%nat →
  valid m d (Z.of_nat (S n)) → apart d (Z.of_nat (S n)) a (size s + 1) →
  (length s < fuel)%nat → (length old < fuel)%nat →
  let outside m' := ∀ p, p < d ∨ d + Z.of_nat (S n) ≤ p → m' !! p = m !! p in
  (∃ m', strlcpy fuel d a (Z.of_nat (S n)) m = Ret (size s, m') ∧
     cstr m' d (take n s) ∧ outside m') ∧
  (∃ m', module_cpystrn fuel d a (Z.of_nat (S n)) m = Ret (d + size (take n s), m') ∧
     cstr m' d (take n s) ∧ outside m') ∧
  (∃ m', strlcat fuel d a (Z.of_nat (S n)) m = Ret (size old + size s, m') ∧
     cstr m' d (take n (old ++ s)) ∧ outside m').
Proof.
  intros Hod Hs Hn Hd Ho Hf Hf' outside.
  assert (∀ k, Forall (λ x, 0 < x < 256) (take k s)) as Hfa
    by (intros; apply Forall_take, Hs).
  assert (length (take n s) ≤ n)%nat as Ht by len.
  split; [|split].
  - eexists. split; [by apply strlcpy_run|]. split; [by apply write_cstr, Hfa|].
    intros p Hp. apply write_outside. len.
  - eexists. split; [by apply module_cpystrn_run|]. split; [by apply write_cstr, Hfa|].
    intros p Hp. apply write_outside. len.
  - eexists. split; [by apply strlcat_run|]. split.
    + rewrite take_app_ge by done. destruct Hod as [Hb Ho'].
      apply cstr_app; [|done|by apply write_cstr, Hfa]. apply bytes_app in Hb as [Hb _].
      apply bytes_write; [done|]. unfold apart. lia.
    + intros p Hp. apply write_outside.
      assert (length (take (n - length old) s) ≤ n - length old)%nat by len. len.
Qed.

(** What the unbounded and the padding copies leave behind: [strcpy] and
    [strcat] the whole source, [strncat] a terminated prefix of at most [n]
    bytes, [strncpy] exactly [n] bytes, padded with NULs and terminated only if
    the source is shorter than [n], and [memset] [n] equal bytes. *)
Theorem string_copies_spec m fuel d a old s n c :
  cstr m d old → cstr m a s → valid m d (size old + size s + Z.of_nat n + 1) →
  apart d (size old + size s + Z.of_nat n + 1) a (size s + 1) →
  (length s < fuel)%nat → (length old < fuel)%nat → (n < fuel)%nat →
  strcpy fuel d a m = Ret (d, write d (s ++ [0%Z]) m) ∧
  strncpy fuel d a (Z.of_nat n) m =
    Ret (d, write d (take n s ++ replicate (n - length s) 0) m) ∧
  (∃ m', strcat fuel d a m = Ret (d, m') ∧ cstr m' d (old ++ s)) ∧
  (∃ m', strncat fuel d a (Z.of_nat n) m = Ret (d, m') ∧ cstr m' d (old ++ take n s)) ∧
  memset fuel d c (Z.of_nat n) m = Ret (d, write d (replicate n (u8 c)) m).
Proof.
  intros Hod Hs Hd Ho Hf Hf' Hn. unfold apart in Ho.
  assert (∀ w, Forall (λ x, 0 < x < 256) w →
    cstr (write (d + size old) (w ++ [0]) m) d (old ++ w)) as Happ.
  { intros w Hw. destruct Hod as [Hb Hfo]. apply bytes_app in Hb as [Hb _].
    apply cstr_app; [|done|by apply write_cstr]. apply bytes_write; [done|]. unfold apart. lia. }
  split; [|split; [|split; [|split]]].
  - unfold strcpy. erewrite bind_ret; [done|]. apply copy_str_run; [done| |lia..].
    eapply valid_sub; [done|lia..].
  - apply strncpy_run; [done| |unfold apart; lia|done]. eapply valid_sub; [done|lia..].
  - eexists. split; [|apply Happ, Hs]. apply strcat_run; [done|done| |unfold apart; lia|done|done].
    eapply valid_sub; [done|lia..].
  - destruct n as [|n].
    { exists m. rewrite app_nil_r. done. }
    assert (length (take (S n) s) ≤ S n)%nat by len.
    eexists. split; [|apply Happ, Forall_take, Hs].
    apply strncat_run; [done|done| |unfold apart; lia|done|done]. eapply valid_sub; [done|lia..].
  - apply memset_run; [|done]. eapply valid_sub; [done|lia..].
Qed.

(** C28: every search returns what a list function finds in the string or area
    it is given: the lengths, the first and the last occurrence of a character
    (the terminating NUL counts for [strchr] and [strrchr], not for [strnchr]),
    the lengths of the accepted and rejected prefixes, the first byte of a set.
    [memchr] searches for [c] as a byte, [memscan] for [c] itself. *)
Theorem string_searches_spec m fuel a s b d l e n c :
  cstr m a s → cstr m b d → bytes m e l → 0 ≤ n →
  (length s < fuel)%nat → (length d < fuel)%nat → (length l < fuel)%nat →
  strlen fuel a m = Ret (size s, m) ∧
  strnlen fuel a n m = Ret (Z.min n (size s), m) ∧
  strchr fuel a c m = Ret (found a NULL (list_find (λ x, x = u8 c) (s ++ [0])), m) ∧
  strrchr fuel a c m =
    Ret (match list_find (λ x, x = u8 c) (reverse (s ++ [0])) with
         | Some (i, _) => a + size s - Z.of_nat i
         | None => NULL
         end, m) ∧
  strnchr fuel a n c m = Ret (found a NULL (list_find (λ x, x = u8 c) (take (Z.to_nat n) s)), m) ∧
  strspn fuel a b m = Ret (found 0 (size s) (list_find (λ x, x ∉ d) s), m) ∧
  strcspn fuel a b m = Ret (found 0 (size s) (list_find (λ x, x ∈ d) s), m) ∧
  strpbrk fuel a b m = Ret (found a NULL (list_find (λ x, x ∈ d) s), m) ∧
  memscan fuel e c (size l) m = Ret (found e (e + size l) (list_find (λ x, x = c) l), m) ∧
  memchr fuel e c (size l) m = Ret (found e NULL (list_find (λ x, x = u8 c) l), m).
Proof.
  intros. repeat split.
  - by apply strlen_run.
  - by apply strnlen_run.
  - by apply strchr_run.
  - by apply strrchr_run.
  - by apply strnchr_run.
  - by apply strspn_run.
  - by apply strcspn_run.
  - by apply strpbrk_run.
  - by apply memscan_run.
  - by apply memchr_run.
Qed.

(** C29: [strstr] returns the first place where the pattern occurs in the string,
    and NULL only if it occurs nowhere. *)
Theorem strstr_spec m fuel a b s t :
  cstr m a s → cstr m b t → (length s < fuel)%nat → (length t < fuel)%nat →
  size s < 2 ^ 31 → size t < 2 ^ 31 →
  ∃ r, strstr fuel a b m = Ret (r, m) ∧
    ((∃ i, r = a + Z.of_nat i ∧ t `prefix_of` drop i s ∧
        ∀ j, (j < i)%nat → ¬ t `prefix_of` drop j s)
     ∨ r = NULL ∧ ∀ j, ¬ t `prefix_of` drop j s).
Proof.
  intros Hs Ht Hf Hf' Hm Hm'. unfold strstr.
  erewrite bind_ret by (by apply strlen_run). cbv beta zeta. rewrite (s32_small (size t)) by lia.
  destruct (decide (t = [])) as [->|Hne].
  { exists a. split; [done|]. left. exists 0%nat. split; [lia|]. split; [|lia].
    apply prefix_nil. }
  rewrite (proj2 (Z.eqb_neq _ 0)) by (destruct t; simpl; [done|lia]).
  erewrite bind_ret by (by apply strlen_run). cbv beta zeta. rewrite (s32_small (size s)) by lia.
  by apply strstr_scan.
Qed.

(** Each comparison returns zero exactly when the strings (or the first [n]
    bytes, or the areas) are equal; [strnicmp] up to [tolower], that maps
    characters to characters. *)
Theorem comparisons_zero tolower m fuel a b s t n e l g l' :
  cstr m a s → cstr m b t → (length s < fuel)%nat →
  (∀ x, 0 < x < 256 → 0 < tolower x < 256) →
  bytes m e l → bytes m g l' → length l = length l' → (length l < fuel)%nat →
  ∃ r1 r2 r3 r4 r5,
    (strcmp fuel a b m = Ret (r1, m) ∧ (r1 = 0 ↔ s = t)) ∧
    (strncmp fuel a b (Z.of_nat n) m = Ret (r2, m) ∧ (r2 = 0 ↔ take n s = take n t)) ∧
    (strnicmp tolower fuel a b (Z.of_nat n) m = Ret (r3, m) ∧
      (r3 = 0 ↔ take n (tolower <$> s) = take n (tolower <$> t))) ∧
    (memcmp fuel e g (size l) m = Ret (r4, m) ∧ (r4 = 0 ↔ l = l')) ∧
    (module_rstrncmp fuel e g (size l) m = Ret (r5, m) ∧ (r5 = 0 ↔ l = l')).
Proof.
  intros Hs Ht Hf Hlow Hl Hl' Hn Hf'. pose proof (proj2 Hs) as Fs. pose proof (proj2 Ht) as Ft.
  destruct (strnicmp_run tolower m fuel a b s t n) as (r3 & E3 & Z3); [done..|].
  eexists _, _, r3, _, _. split; [|split; [|split; [done|split]]].
  - split; [by apply strcmp_run|]. rewrite diff_by_0; [by apply first_diff_str|].
    intros x y Hx Hy. apply char_diff_0; eapply byte_cstr; [exact Fs|exact Hx|exact Ft|exact Hy].
  - split; [by apply strncmp_run|]. rewrite diff_by_0; [by apply first_diff_take|].
    intros x y Hx Hy.
    apply char_diff_0; eapply byte_cstr; [exact Fs| |exact Ft|];
      eapply elem_of_take_cstr; eassumption.
  - split; [by apply memcmp_run|]. rewrite diff_by_0; [by apply first_diff_None|lia].
  - split; [by apply module_rstrncmp_run|]. rewrite diff_by_0 by lia.
    rewrite first_diff_None by (by rewrite !length_reverse). split; [by intros ?%(inj reverse)|by intros ->].
Qed.

(** On strings of ASCII characters the sign of [strcmp] is the lexicographic order. *)
Theorem strcmp_ascii_order m fuel a b s t :
  cstr m a s → cstr m b t → (length s < fuel)%nat →
  Forall (λ x, 0 < x < 128) s → Forall (λ x, 0 < x < 128) t →
  ∃ r, strcmp fuel a b m = Ret (r, m) ∧ (r < 0 ↔ str_lt s t) ∧ (r = 0 ↔ s = t).
Proof.
  intros Hs Ht Hf As At. eexists. split; [by apply strcmp_run|].
  split; [by apply str_lt_diff|]. rewrite diff_by_0; [apply first_diff_str; [apply Hs|apply Ht]|].
  intros x y Hx Hy. apply char_diff_0; eapply byte_cstr; [apply Hs|done|apply Ht|done].
Qed.

(** Beyond ASCII the [signed char] that holds the difference wraps, and
    [strcmp] is no order: there are three strings each of which is less than the next. *)
Theorem strcmp_cycle :
  ∃ m a b c sa sb sc, cstr m a sa ∧ cstr m b sb ∧ cstr m c sc ∧
    ∃ x y z, strcmp 2 a b m = Ret (x, m) ∧ strcmp 2 b c m = Ret (y, m) ∧
      strcmp 2 c a m = Ret (z, m) ∧ x < 0 ∧ y < 0 ∧ z < 0.
Proof.
  exists (list_to_map [(0x100, 1); (0x101, 0); (0x200, 0x50); (0x201, 0); (0x300, 0xA0); (0x301, 0)]).
  exists 0x100, 0x200, 0x300, [1], [0x50], [0xA0].
  split; [|split; [|split]]; [split; [vm_compute; repeat split|repeat constructor; lia]..|].
  exists (-79), (-80), (-97). repeat split; by vm_compute.
Qed.

(** C30: the calls of [strsep] give the pieces of the string between the
    delimiters, the empty ones too: in the memory they leave, the tokens are
    terminated strings, and nothing outside of the string has changed. *)
Theorem strsep_tokens m fuel p s c d :
  0 < p → cstr m p s → cstr m c d → apart p (size s + 1) c (size d + 1) →
  (length s + 1 < fuel)%nat → (length d < fuel)%nat →
  ∃ toks m', strsep_all fuel p c m = Ret (toks, m') ∧
    Forall2 (cstr m') toks (split_at d s) ∧
    (∀ q, q < p ∨ p + size s ≤ q → m' !! q = m !! q).
Proof.
  intros Hp Hs Hd Ho Hf Hf'. unfold strsep_all.
  destruct (strsep_loop m fuel fuel p s c d []) as (toks & m' & Hr & Hspec); [done..|lia|done|].
  by exists toks, m'.
Qed.

(** ** Witnesses *)

Module strings_witness.
(** "ab,c" at 0x100, "b," at 0x200, "ab" at 0x300 in eight bytes, "aB" at 0x400. *)
Definition m0 : mem :=
  write 0x100 [97; 98; 44; 99; 0] (write 0x200 [98; 44; 0]
    (write 0x300 [97; 98; 0; 0; 0; 0; 0; 0; 0; 0] (write 0x400 [97; 66; 0] ∅))).
Definition ascii_tolower (x : Z) : Z := if (65 <=? x) && (x <=? 90) then x + 32 else x.

Ltac mem := vm_compute; repeat split.
Lemma str_abc : cstr m0 0x100 [97; 98; 44; 99].
Proof. split; [mem|repeat constructor; lia]. Qed.
Lemma str_b : cstr m0 0x200 [98; 44].
Proof. split; [mem|repeat constructor; lia]. Qed.
Lemma str_ab : cstr m0 0x300 [97; 98].
Proof. split; [mem|repeat constructor; lia]. Qed.
Lemma str_aB : cstr m0 0x400 [97; 66].
Proof. split; [mem|repeat constructor; lia]. Qed.
Lemma room : valid m0 0x300 10.
Proof. apply (bytes_valid m0 0x300 [97; 98; 0; 0; 0; 0; 0; 0; 0; 0]). mem. Qed.
Lemma area : bytes m0 0x100 [97; 98; 44; 99].
Proof. apply cstr_prefix, str_abc. Qed.

Lemma memmove_witness : ∃ m',
  memmove 5 0x101 0x100 4 m0 = Ret (0x101, m') ∧ bytes m' 0x101 [97; 98; 44; 99].
Proof.
  destruct (memmove_spec m0 5 0x101 0x100 [97; 98; 44; 99]) as (m' & ? & ? & _).
  - apply area.
  - apply (bytes_valid m0 0x101 [98; 44; 99; 0]). mem.
  - apply le_n.
  - by exists m'.
Defined.

Lemma bounded_copies_witness : ∃ m',
  strlcat 6 0x300 0x100 5 m0 = Ret (6, m') ∧ cstr m' 0x300 [97; 98; 97; 98].
Proof.
  destruct (bounded_copies_spec m0 6 0x300 0x100 [97; 98] [97; 98; 44; 99] 4)
    as (_ & _ & m' & ? & ? & _).
  - apply str_ab.
  - apply str_abc.
  - simpl. lia.
  - eapply valid_sub; [apply room|lia..].
  - unfold apart. simpl. lia.
  - simpl. lia.
  - simpl. lia.
  - by exists m'.
Defined.

Lemma string_copies_witness : ∃ m',
  strncat 6 0x300 0x100 3 m0 = Ret (0x300, m') ∧ cstr m' 0x300 [97; 98; 97; 98; 44].
Proof.
  destruct (string_copies_spec m0 6 0x300 0x100 [97; 98] [97; 98; 44; 99] 3 7)
    as (_ & _ & _ & (m' & ? & ?) & _).
  - apply str_ab.
  - apply str_abc.
  - eapply valid_sub; [apply room|simpl; lia..].
  - unfold apart. simpl. lia.
  - simpl. lia.
  - simpl. lia.
  - simpl. lia.
  - by exists m'.
Defined.

Lemma string_searches_witness :
  strchr 5 0x100 98 m0 = Ret (0x101, m0) ∧ strrchr 5 0x100 0 m0 = Ret (0x104, m0) ∧
  strspn 5 0x100 0x200 m0 = Ret (0, m0) ∧ strcspn 5 0x100 0x200 m0 = Ret (1, m0).
Proof.
  pose proof (string_searches_spec m0 5 0x100 [97; 98; 44; 99] 0x200 [98; 44] [97; 98; 44; 99] 0x100
    2 98 str_abc str_b area ltac:(lia) ltac:(simpl; lia) ltac:(simpl; lia) ltac:(simpl; lia))
    as (_ & _ & H1 & _ & _ & H3 & H4 & _).
  pose proof (string_searches_spec m0 5 0x100 [97; 98; 44; 99] 0x200 [98; 44] [97; 98; 44; 99] 0x100
    2 0 str_abc str_b area ltac:(lia) ltac:(simpl; lia) ltac:(simpl; lia) ltac:(simpl; lia))
    as (_ & _ & _ & H2 & _).
  split; [exact H1|split; [exact H2|split; [exact H3|exact H4]]].
Defined.

Lemma strstr_witness : ∃ r, strstr 5 0x100 0x200 m0 = Ret (r, m0) ∧ r = 0x101.
Proof.
  destruct (strstr_spec m0 5 0x100 0x200 [97; 98; 44; 99] [98; 44]) as (r & Hr & _).
  - apply str_abc.
  - apply str_b.
  - simpl. lia.
  - simpl. lia.
  - simpl. lia.
  - simpl. lia.
  - exists r. split; [exact Hr|].
    assert (strstr 5 0x100 0x200 m0 = Ret (0x101, m0)) as E by by vm_compute.
    rewrite E in Hr. by injection Hr.
Defined.

Lemma comparisons_witness : ∃ r,
  strnicmp ascii_tolower 5 0x300 0x400 2 m0 = Ret (r, m0) ∧ r = 0.
Proof.
  destruct (comparisons_zero ascii_tolower m0 5 0x300 0x400 [97; 98] [97; 66] 2
    0x100 [97; 98; 44; 99] 0x100 [97; 98; 44; 99]) as (_ & _ & r & _ & _ & _ & _ & (? & ?) & _).
  - apply str_ab.
  - apply str_aB.
  - simpl. lia.
  - intros x ?. unfold ascii_tolower.
    destruct (Z.leb_spec 65 x), (Z.leb_spec x 90); simpl; lia.
  - apply area.
  - apply area.
  - done.
  - simpl. lia.
  - exists r. split; [done|]. by apply H0.
Defined.

Lemma strcmp_ascii_witness : ∃ r, strcmp 5 0x300 0x200 m0 = Ret (r, m0) ∧ r < 0.
Proof.
  destruct (strcmp_ascii_order m0 5 0x300 0x200 [97; 98] [98; 44]) as (r & ? & H & _).
  - apply str_ab.
  - apply str_b.
  - simpl. lia.
  - repeat constructor; lia.
  - repeat constructor; lia.
  - exists r. split; [done|]. apply H. left. lia.
Defined.

Lemma strsep_witness : ∃ toks m', strsep_all 9 0x100 0x200 m0 = Ret (toks, m') ∧
  Forall2 (cstr m') toks [[97]; []; [99]].
Proof.
  destruct (strsep_tokens m0 9 0x100 [97; 98; 44; 99] 0x200 [98; 44]) as (toks & m' & ? & ? & _).
  - lia.
  - apply str_abc.
  - apply str_b.
  - unfold apart. simpl. lia.
  - simpl. lia.
  - simpl. lia.
  - by exists toks, m'.
Defined.
End strings_witness.
