(* ===== verification/Rbtree.v ===== *)
(** * Red-black trees: src/datastruct/rbtree.c, src/datastruct/rbtree.h

    The nodes live in a heap of [struct rb_node], with the cell [root->rb_node]
    beside it.  The two halves of each rebalancing routine are mirror images:
    they are written once, for a side.  The shape of the heap is a tree in a
    context (the path from a node up to the root), on which the balance is
    stated and proved. *)
From stdpp Require Import base tactics list numbers gmap fin_maps.
From S2P Require Import Prelude Lists.
Local Open Scope Z_scope.

Definition RB_RED : Z := 0.
Definition RB_BLACK : Z := 1.

Record rb_node := RbNode {
  rb_parent : Z;
  rb_color : Z;
  rb_right : Z;
  rb_left : Z;
}.

Record rb_state := RbState {
  rb_heap : gmap Z rb_node;
  rb_root : Z;  (* [root->rb_node] *)
}.

Inductive side := L | R.
#[global] Instance side_eq_dec : EqDecision side.
Proof. solve_decision. Defined.
Definition opp (d : side) : side := match d with L => R | R => L end.
Definition fld (d : side) (n : rb_node) : Z := match d with L => rb_left n | R => rb_right n end.
Definition with_fld (d : side) (v : Z) (n : rb_node) : rb_node :=
  match d with
  | L => RbNode (rb_parent n) (rb_color n) (rb_right n) v
  | R => RbNode (rb_parent n) (rb_color n) v (rb_left n)
  end.
Definition with_parent (v : Z) (n : rb_node) : rb_node :=
  RbNode v (rb_color n) (rb_right n) (rb_left n).
Definition with_color (v : Z) (n : rb_node) : rb_node :=
  RbNode (rb_parent n) v (rb_right n) (rb_left n).

Abbreviation rbM := (M rb_state).
Definition node_get (x : Z) : rbM rb_node := gets_opt (λ s, rb_heap s !! x).
Definition node_upd (x : Z) (f : rb_node → rb_node) : rbM unit :=
  modify_opt (λ s, (λ n, RbState (<[x := f n]> (rb_heap s)) (rb_root s)) <$> rb_heap s !! x).
Definition get_fld (d : side) (x : Z) : rbM Z := n ← node_get x; mret (fld d n).
Definition get_parent (x : Z) : rbM Z := n ← node_get x; mret (rb_parent n).
Definition get_color (x : Z) : rbM Z := n ← node_get x; mret (rb_color n).
Definition set_fld (d : side) (x v : Z) : rbM unit := node_upd x (with_fld d v).
Definition set_parent (x v : Z) : rbM unit := node_upd x (with_parent v).
Definition set_color (x v : Z) : rbM unit := node_upd x (with_color v).
Definition set_root (v : Z) : rbM unit := modify (λ s, RbState (rb_heap s) v).

(** [if (x) x->rb_parent = p;] *)
Definition reparent (x p : Z) : rbM unit :=
  if x =? NULL then mret tt else set_parent x p.
(** [if (parent) { if (old == parent->rb_left) ... else ... } else root->rb_node = ...],
    with the side that is tested first. *)
Definition relink (d : side) (parent old new : Z) : rbM unit :=
  if parent =? NULL then set_root new
  else
    c ← get_fld d parent;
    if old =? c then set_fld d parent new else set_fld (opp d) parent new.

(** [__rb_rotate_left] for [L], [__rb_rotate_right] for [R]. *)
Definition rotate (d : side) (node : Z) : rbM unit :=
  right ← get_fld (opp d) node;
  c ← get_fld d right;
  set_fld (opp d) node c;;
  reparent c node;;
  set_fld d right node;;
  p ← get_parent node;
  set_parent right p;;
  relink d p node right;;
  set_parent node right.
Definition __rb_rotate_left (node : Z) : rbM unit := rotate L node.
Definition __rb_rotate_right (node : Z) : rbM unit := rotate R node.

(** [x && x->rb_color == RB_RED] and [!x || x->rb_color == RB_BLACK] *)
Definition is_red (x : Z) : rbM bool :=
  if x =? NULL then mret false else c ← get_color x; mret (c =? RB_RED).
Definition is_black (x : Z) : rbM bool :=
  if x =? NULL then mret true else c ← get_color x; mret (c =? RB_BLACK).

(** Where [rb_link] points: to the root cell or to a child field. *)
Inductive rb_link := LinkRoot | LinkChild (d : side) (p : Z).

Definition rb_link_node (node parent : Z) (link : rb_link) : rbM unit :=
  node_upd node (λ _, RbNode parent RB_RED NULL NULL);;
  match link with
  | LinkRoot => set_root node
  | LinkChild d p => set_fld d p node
  end.

(** One iteration of [rb_insert_color] when [parent] is the child of
    [gparent] on side [d]; returns the new [node]. *)
Definition insert_fix (d : side) (node parent gparent : Z) : rbM Z :=
  uncle ← get_fld (opp d) gparent;
  ured ← is_red uncle;
  if (ured : bool) then
    set_color uncle RB_BLACK;;
    set_color parent RB_BLACK;;
    set_color gparent RB_RED;;
    mret gparent
  else
    c ← get_fld (opp d) parent;
    pn ← (if c =? node then rotate d parent;; mret (node, parent) else mret (parent, node));
    let '(parent, node) := pn in
    set_color parent RB_BLACK;;
    set_color gparent RB_RED;;
    rotate (opp d) gparent;;
    mret node.

Definition rb_insert_color (fuel : nat) (node : Z) : rbM unit :=
  loop fuel (λ node,
    parent ← get_parent node;
    pred ← is_red parent;
    if (pred : bool) then
      gparent ← get_parent parent;
      gl ← get_fld L gparent;
      node' ← insert_fix (if parent =? gl then L else R) node parent gparent;
      mret (inl node')
    else mret (inr tt)) node;;
  r ← gets rb_root;
  set_color r RB_BLACK.

(** One iteration of [__rb_erase_color] when [node] is the child of [parent]
    on side [d]: the next [node] and [parent], or the [node] after [break].
    [erase_last] starts where [other] has a red child on the far side,
    [erase_black] where [other] is black. *)
Definition erase_last (d : side) (parent other : Z) : rbM (Z * Z + Z) :=
  pc ← get_color parent;
  set_color other pc;;
  set_color parent RB_BLACK;;
  far ← get_fld (opp d) other;
  (if far =? NULL then mret tt else set_color far RB_BLACK);;
  rotate d parent;;
  r ← gets rb_root;
  mret (inr r).

Definition both_black (other : Z) : rbM bool :=
  ol ← get_fld L other;
  lb ← is_black ol;
  if (lb : bool) then or ← get_fld R other; is_black or else mret false.

Definition erase_black (d : side) (parent other : Z) : rbM (Z * Z + Z) :=
  both ← both_black other;
  if (both : bool) then
    set_color other RB_RED;;
    p' ← get_parent parent;
    mret (inl (parent, p'))
  else
    far ← get_fld (opp d) other;
    fb ← is_black far;
    other ← (if (fb : bool) then
               near ← get_fld d other;
               (if near =? NULL then mret tt else set_color near RB_BLACK);;
               set_color other RB_RED;;
               rotate (opp d) other;;
               get_fld (opp d) parent
             else mret other);
    erase_last d parent other.

Definition erase_fix (d : side) (parent : Z) : rbM (Z * Z + Z) :=
  other ← get_fld (opp d) parent;
  oc ← get_color other;
  other ← (if oc =? RB_RED then
             set_color other RB_BLACK;;
             set_color parent RB_RED;;
             rotate d parent;;
             get_fld (opp d) parent
           else mret other);
  erase_black d parent other.

Definition __rb_erase_color (fuel : nat) (node parent : Z) : rbM unit :=
  node ← loop fuel (λ '(node, parent),
    nb ← is_black node;
    r ← gets rb_root;
    if (nb : bool) && negb (node =? r) then
      pl ← get_fld L parent;
      erase_fix (if pl =? node then L else R) parent
    else mret (inr node)) (node, parent);
  if node =? NULL then mret tt else set_color node RB_BLACK.

(** [while (x->... ) x = x->...;]: to the last node on side [d]. *)
Definition go_down (fuel : nat) (d : side) (x : Z) : rbM Z :=
  loop fuel (λ x, c ← get_fld d x; if c =? NULL then mret (inr x) else mret (inl c)) x.

(** Unlinking a node that has at most one child. *)
Definition unlink_node (node child : Z) : rbM (Z * Z) :=
  parent ← get_parent node;
  color ← get_color node;
  reparent child parent;;
  relink L parent node child;;
  mret (parent, color).

(** Putting [new] in the place of [victim]: the pointers to [victim] of its
    parent and its children.  ([rb_erase] does not test the left child.) *)
Definition graft (set_left : Z → Z → rbM unit) (victim new : Z) : rbM unit :=
  parent ← get_parent victim;
  relink L parent victim new;;
  l ← get_fld L victim;
  set_left l new;;
  r ← get_fld R victim;
  reparent r new.

Definition rb_erase (fuel : nat) (node : Z) : rbM unit :=
  l ← get_fld L node;
  r ← get_fld R node;
  cpc ← (if l =? NULL then pc ← unlink_node node r; mret (r, pc)
         else if r =? NULL then pc ← unlink_node node l; mret (l, pc)
         else
           let old := node in
           node ← go_down fuel L r;
           child ← get_fld R node;
           pc ← unlink_node node child;
           np ← get_parent node;
           let parent := if np =? old then node else fst pc in
           o ← node_get old;
           node_upd node (λ _, o);;
           graft set_parent old node;;
           mret (child, (parent, snd pc)));
  let '(child, (parent, color)) := cpc in
  if color =? RB_BLACK then __rb_erase_color fuel child parent else mret tt.

(** [rb_first] for [L], [rb_last] for [R]. *)
Definition rb_end (d : side) (fuel : nat) : rbM Z :=
  n ← gets rb_root;
  if n =? NULL then mret NULL else go_down fuel d n.
Definition rb_first : nat → rbM Z := rb_end L.
Definition rb_last : nat → rbM Z := rb_end R.

(** [rb_next] for [R], [rb_prev] for [L]. *)
Definition rb_step (d : side) (fuel : nat) (node : Z) : rbM Z :=
  c ← get_fld d node;
  if negb (c =? NULL) then go_down fuel (opp d) c
  else
    loop fuel (λ node,
      p ← get_parent node;
      if p =? NULL then mret (inr p)
      else
        c ← get_fld d p;
        if node =? c then mret (inl p) else mret (inr p)) node.
Definition rb_next : nat → Z → rbM Z := rb_step R.
Definition rb_prev : nat → Z → rbM Z := rb_step L.

Definition rb_replace_node (victim new : Z) : rbM unit :=
  graft reparent victim new;;
  v ← node_get victim;
  node_upd new (λ _, v).

(** ** The shape of the heap *)

Inductive color := Red | Black.
#[global] Instance color_eq_dec : EqDecision color.
Proof. solve_decision. Defined.
Definition cval (c : color) : Z := match c with Red => RB_RED | Black => RB_BLACK end.

(** A tree whose nodes are addresses. *)
Inductive tree := E | T (c : color) (l : tree) (x : Z) (r : tree).
(** The path from a subtree up to the root: the subtree is the child on side
    [d] of a node, with the node's color, address and other child. *)
Record frame := Frame { f_side : side; f_color : color; f_node : Z; f_other : tree }.
Abbreviation ctx := (list frame).

(** A node with its child on side [d] first. *)
Definition nd (d : side) (c : color) (x : Z) (a b : tree) : tree :=
  match d with L => T c a x b | R => T c b x a end.
Fixpoint plug (k : ctx) (t : tree) : tree :=
  match k with
  | [] => t
  | Frame d c x o :: k => plug k (nd d c x t o)
  end.

Definition adr (t : tree) : Z := match t with E => NULL | T _ _ x _ => x end.
Definition cpar (k : ctx) : Z := match k with [] => NULL | f :: _ => f_node f end.
Fixpoint inorder (t : tree) : list Z :=
  match t with E => [] | T _ l x r => inorder l ++ x :: inorder r end.
Fixpoint addrs (t : tree) : list Z :=
  match t with E => [] | T _ l x r => x :: addrs l ++ addrs r end.
Fixpoint kaddrs (k : ctx) : list Z :=
  match k with [] => [] | f :: k => f_node f :: addrs (f_other f) ++ kaddrs k end.

(** The node with its child on side [d] first. *)
Definition mk (d : side) (p : Z) (c : color) (a b : Z) : rb_node :=
  match d with L => RbNode p (cval c) b a | R => RbNode p (cval c) a b end.

Fixpoint rep (h : gmap Z rb_node) (p : Z) (t : tree) : Prop :=
  match t with
  | E => True
  | T c l x r => h !! x = Some (mk L p c (adr l) (adr r)) ∧ rep h x l ∧ rep h x r
  end.
(** [a] is the address of the tree in the hole. *)
Fixpoint krep (h : gmap Z rb_node) (root : Z) (k : ctx) (a : Z) : Prop :=
  match k with
  | [] => root = a
  | Frame d c x o :: k =>
      h !! x = Some (mk d (cpar k) c a (adr o)) ∧ rep h x o ∧ krep h root k x
  end.

(** The nodes are distinct, and outside of them the heap is [h0]. *)
Definition own (h0 h : gmap Z rb_node) (l : list Z) : Prop :=
  NoDup l ∧ ∀ z, z ∉ l → h !! z = h0 !! z.
#[global] Instance own_proper h0 h : Proper ((≡ₚ) ==> iff) (own h0 h).
Proof. intros l l' E. unfold own. by setoid_rewrite E. Qed.

(** The heap and the root cell hold [t] in the hole of [k]. *)
Definition focus (h0 : gmap Z rb_node) (s : rb_state) (k : ctx) (t : tree) : Prop :=
  krep (rb_heap s) (rb_root s) k (adr t) ∧ rep (rb_heap s) (cpar k) t ∧
  own h0 (rb_heap s) (NULL :: addrs t ++ kaddrs k).

Section shape.
Implicit Types h : gmap Z rb_node.

Definition dj (l l' : list Z) : Prop := ∀ z, z ∈ l → z ∉ l'.
Lemma NoDup_dj l l' : NoDup (l ++ l') ↔ NoDup l ∧ dj l l' ∧ NoDup l'.
Proof. apply NoDup_app. Qed.
Lemma dj_nil_l l : dj [] l ↔ True.
Proof. split; [done|]. intros _ z Hz. by apply not_elem_of_nil in Hz. Qed.
Lemma dj_nil_r l : dj l [] ↔ True.
Proof. split; [done|]. intros _ z _. apply not_elem_of_nil. Qed.
Lemma dj_cons_l x l l' : dj (x :: l) l' ↔ (x ∉ l') ∧ dj l l'.
Proof. unfold dj. setoid_rewrite elem_of_cons. naive_solver. Qed.
Lemma dj_cons_r x l l' : dj l (x :: l') ↔ (x ∉ l) ∧ dj l l'.
Proof. unfold dj. setoid_rewrite not_elem_of_cons. split; [|naive_solver].
  intros H. split; [|naive_solver]. intros Hx. by destruct (H x Hx). Qed.
Lemma dj_app_l l1 l2 l' : dj (l1 ++ l2) l' ↔ dj l1 l' ∧ dj l2 l'.
Proof. unfold dj. setoid_rewrite elem_of_app. naive_solver. Qed.
Lemma dj_app_r l l1 l2 : dj l (l1 ++ l2) ↔ dj l l1 ∧ dj l l2.
Proof.
  unfold dj. setoid_rewrite not_elem_of_app. split.
  - intros H. split; intros z Hz; by destruct (H z Hz).
  - intros [H1 H2] z Hz. auto.
Qed.
Lemma dj_sym l l' : dj l l' → dj l' l.
Proof. unfold dj. naive_solver. Qed.
Lemma NoDup_nil_True : NoDup (@nil Z) ↔ True.
Proof. split; [done|]. constructor. Qed.
Lemma nin_nil_True (x : Z) : x ∉ @nil Z ↔ True.
Proof. split; [done|]. intros _. apply not_elem_of_nil. Qed.
Lemma nin_cons (x y : Z) l : x ∉ y :: l ↔ x ≠ y ∧ (x ∉ l).
Proof. apply not_elem_of_cons. Qed.
Lemma nin_app (x : Z) l l' : x ∉ l ++ l' ↔ (x ∉ l) ∧ (x ∉ l').
Proof. apply not_elem_of_app. Qed.
End shape.

Create Rewrite HintDb apart.
Hint Rewrite NoDup_dj dj_nil_l dj_nil_r dj_cons_l dj_cons_r dj_app_l dj_app_r NoDup_nil_True
  nin_nil_True nin_cons nin_app (@NoDup_cons Z) : apart.

(** [apart H] splits [H : NoDup _] into inequalities and disjointness facts. *)
Ltac apart H := simpl in H; autorewrite with apart in H; destruct_and? H.
Ltac nin := first [done | congruence | apply dj_sym; assumption | simpl; autorewrite with apart; repeat split;
  first [done | congruence | apply dj_sym; assumption]].

Section focus.
Context {h0 : gmap Z rb_node}.
Implicit Types (h : gmap Z rb_node) (s : rb_state) (t o : tree).

Lemma rep_upd h p t x n : rep h p t → x ∉ addrs t → rep (<[x := n]> h) p t.
Proof.
  revert p. induction t as [|c l IHl y r IHr]; intros p; simpl; [done|].
  rewrite nin_cons, nin_app. intros (Hy & Hl & Hr) (? & ? & ?).
  rewrite lookup_insert_ne by done. auto.
Qed.
Lemma krep_upd h root k a x n : krep h root k a → x ∉ kaddrs k → krep (<[x := n]> h) root k a.
Proof.
  revert a. induction k as [|[d c y o] k IH]; intros a; simpl; [done|].
  rewrite nin_cons, nin_app. intros (Hy & Ho & Hk) (? & ? & ?).
  rewrite lookup_insert_ne by done. auto using rep_upd.
Qed.

Lemma opp_opp d : opp (opp d) = d.
Proof. by destruct d. Qed.
Lemma nd_opp d c x a b : nd (opp d) c x b a = nd d c x a b.
Proof. by destruct d. Qed.
Lemma adr_nd d c x a b : adr (nd d c x a b) = x.
Proof. by destruct d. Qed.
Lemma mk_opp d p c a b : mk (opp d) p c b a = mk d p c a b.
Proof. by destruct d. Qed.
Lemma fld_mk d p c a b : fld d (mk d p c a b) = a.
Proof. by destruct d. Qed.
Lemma fld_opp_mk d p c a b : fld (opp d) (mk d p c a b) = b.
Proof. by destruct d. Qed.
Lemma parent_mk d p c a b : rb_parent (mk d p c a b) = p.
Proof. by destruct d. Qed.
Lemma color_mk d p c a b : rb_color (mk d p c a b) = cval c.
Proof. by destruct d. Qed.
Lemma with_fld_mk d v p c a b : with_fld d v (mk d p c a b) = mk d p c v b.
Proof. by destruct d. Qed.
Lemma with_fld_opp_mk d v p c a b : with_fld (opp d) v (mk d p c a b) = mk d p c a v.
Proof. by destruct d. Qed.
Lemma with_parent_mk d v p c a b : with_parent v (mk d p c a b) = mk d v c a b.
Proof. by destruct d. Qed.
Lemma with_color_mk d c' p c a b : with_color (cval c') (mk d p c a b) = mk d p c' a b.
Proof. by destruct d. Qed.

Lemma rep_nd h p d c x a b :
  rep h p (nd d c x a b) ↔ h !! x = Some (mk d p c (adr a) (adr b)) ∧ rep h x a ∧ rep h x b.
Proof. destruct d; simpl; [done|]. unfold mk. naive_solver. Qed.
Lemma addrs_nd d c x a b : addrs (nd d c x a b) ≡ₚ x :: addrs a ++ addrs b.
Proof. destruct d; simpl; [done|]. by rewrite (Permutation_app_comm (addrs b)). Qed.

(** The addresses in the tree and around it. *)
Definition all (k : ctx) (t : tree) : list Z := NULL :: addrs t ++ kaddrs k.
Lemma all_up d c x o k t : all (Frame d c x o :: k) t ≡ₚ all k (nd d c x t o).
Proof.
  unfold all. rewrite addrs_nd. simpl. by rewrite <- Permutation_middle, app_assoc.
Qed.
Lemma all_plug k t : all k t ≡ₚ all [] (plug k t).
Proof.
  revert t. induction k as [|[d c x o] k IH]; intros t; simpl; [done|].
  by rewrite all_up, IH.
Qed.

(** Moving the focus up and down. *)
Lemma focus_up s d c x o k t : focus h0 s (Frame d c x o :: k) t ↔ focus h0 s k (nd d c x t o).
Proof.
  unfold focus. change (NULL :: addrs t ++ kaddrs (Frame d c x o :: k)) with (all (Frame d c x o :: k) t).
  rewrite (all_up d c x o k t), rep_nd, adr_nd. simpl. unfold all. naive_solver.
Qed.
Lemma focus_plug s k t : focus h0 s k t ↔ focus h0 s [] (plug k t).
Proof.
  revert t. induction k as [|[d c x o] k IH]; intros t; simpl; [done|].
  by rewrite focus_up, IH.
Qed.

Lemma focus_NoDup s k t : focus h0 s k t → NoDup (all k t).
Proof. by intros (_ & _ & ? & _). Qed.
Lemma all_node d c x a b k : all k (nd d c x a b) ≡ₚ NULL :: x :: addrs a ++ addrs b ++ kaddrs k.
Proof. unfold all. rewrite addrs_nd. simpl. by rewrite app_assoc. Qed.
Lemma focus_node s k d c x a b :
  focus h0 s k (nd d c x a b) ↔
  rb_heap s !! x = Some (mk d (cpar k) c (adr a) (adr b)) ∧ rep (rb_heap s) x a ∧
  rep (rb_heap s) x b ∧ krep (rb_heap s) (rb_root s) k x ∧
  own h0 (rb_heap s) (NULL :: x :: addrs a ++ addrs b ++ kaddrs k).
Proof.
  unfold focus. rewrite adr_nd, rep_nd. change (NULL :: addrs _ ++ kaddrs k) with (all k (nd d c x a b)).
  rewrite all_node. naive_solver.
Qed.

Lemma focus_get s k d c x a b :
  focus h0 s k (nd d c x a b) → rb_heap s !! x = Some (mk d (cpar k) c (adr a) (adr b)) ∧ x ≠ NULL.
Proof.
  rewrite focus_node. intros (Hx & _ & _ & _ & Hd & _). split; [done|]. apart Hd. congruence.
Qed.
End focus.

Section steps.
Context {h0 : gmap Z rb_node}.
Implicit Types (s : rb_state) (t o : tree).

Lemma wp_node_get {A} (f : rb_node → rbM A) s x n Q :
  rb_heap s !! x = Some n → wp (f n) Q s → wp (node_get x ≫= f) Q s.
Proof. intros E H. apply wp_bind. eapply wp_gets_opt; [exact E|done]. Qed.
Lemma wp_node_upd s x n f (Q : unit → rb_state → Prop) :
  rb_heap s !! x = Some n → Q tt (RbState (<[x := f n]> (rb_heap s)) (rb_root s)) →
  wp (node_upd x f) Q s.
Proof. intros E H. eapply wp_modify_opt; [by rewrite E|done]. Qed.

Lemma wp_get_fld s k d c x a b (Q : Z → rb_state → Prop) :
  focus h0 s k (nd d c x a b) → Q (adr a) s → wp (get_fld d x) Q s.
Proof.
  intros F H. apply focus_get in F as [E _]. unfold get_fld. eapply wp_node_get; [exact E|].
  rewrite fld_mk. by apply wp_ret.
Qed.
Lemma wp_get_fld_opp s k d c x a b (Q : Z → rb_state → Prop) :
  focus h0 s k (nd d c x a b) → Q (adr b) s → wp (get_fld (opp d) x) Q s.
Proof. rewrite <- nd_opp. apply wp_get_fld. Qed.
Lemma wp_get_parent s k d c x a b (Q : Z → rb_state → Prop) :
  focus h0 s k (nd d c x a b) → Q (cpar k) s → wp (get_parent x) Q s.
Proof.
  intros F H. apply focus_get in F as [E _]. unfold get_parent. eapply wp_node_get; [exact E|].
  rewrite parent_mk. by apply wp_ret.
Qed.
Lemma wp_get_color s k d c x a b (Q : Z → rb_state → Prop) :
  focus h0 s k (nd d c x a b) → Q (cval c) s → wp (get_color x) Q s.
Proof.
  intros F H. apply focus_get in F as [E _]. unfold get_color. eapply wp_node_get; [exact E|].
  rewrite color_mk. by apply wp_ret.
Qed.
Lemma wp_set_color s k d c c' x a b (Q : unit → rb_state → Prop) :
  focus h0 s k (nd d c x a b) → (∀ s', focus h0 s' k (nd d c' x a b) → Q tt s') →
  wp (set_color x (cval c')) Q s.
Proof.
  rewrite focus_node. intros (Hx & Ha & Hb & Hk & Hd & Ho) H. unfold set_color.
  eapply wp_node_upd; [exact Hx|]. apply H. apply focus_node. simpl.
  rewrite with_color_mk, lookup_insert_eq. pose proof Hd as Hd'. apart Hd'.
  split; [done|]. repeat split; try apply rep_upd; try apply krep_upd; try done.
  intros z Hz. rewrite lookup_insert_ne by set_solver. by apply Ho.
Qed.

Lemma rep_agree h h' p t : (∀ z, z ∈ addrs t → h' !! z = h !! z) → rep h p t → rep h' p t.
Proof.
  revert p. induction t as [|c l IHl y r IHr]; intros p H; simpl in *; [done|].
  intros (? & ? & ?). rewrite H by set_solver.
  split; [done|]. split; [apply IHl|apply IHr]; try done; intros z ?; apply H; set_solver.
Qed.
Lemma krep_agree h h' root k a :
  (∀ z, z ∈ kaddrs k → h' !! z = h !! z) → krep h root k a → krep h' root k a.
Proof.
  revert a. induction k as [|[d c y o] k IH]; intros a H; simpl in *; [done|].
  intros (? & ? & ?). rewrite H by set_solver.
  split; [done|]. split; [eapply rep_agree; [|done]|apply IH; [|done]];
    intros z ?; apply H; set_solver.
Qed.
Lemma adr_cases t : adr t = NULL ∨ adr t ∈ addrs t.
Proof. destruct t; [by left|right; apply list_elem_of_here]. Qed.

(** Redirecting the pointer to the subtree in the hole. *)
Lemma wp_relink s d0 k old new (Q : unit → rb_state → Prop) :
  krep (rb_heap s) (rb_root s) k old → NoDup (NULL :: old :: kaddrs k) →
  (∀ s', krep (rb_heap s') (rb_root s') k new →
     (∀ z, z ∉ kaddrs k → rb_heap s' !! z = rb_heap s !! z) → Q tt s') →
  wp (relink d0 (cpar k) old new) Q s.
Proof.
  intros Hk Hd H. unfold relink. destruct k as [|[d c x o] k]; simpl in Hk |- *.
  { apply H; [done|]. done. }
  destruct Hk as (Hx & Ho & Hk). pose proof Hd as Hd'. apart Hd'.
  rewrite (proj2 (Z.eqb_neq x NULL)) by congruence.
  unfold get_fld, set_fld.
  assert (old ≠ adr o) as Hn.
  { intros ->. destruct (adr_cases o); congruence. }
  assert (wp (node_upd x (with_fld d new)) Q s) as Hw.
  { eapply wp_node_upd; [exact Hx|]. rewrite with_fld_mk. apply H; simpl.
    - rewrite lookup_insert_eq. split; [done|]. split; [by apply rep_upd|by apply krep_upd].
    - intros z Hz. rewrite lookup_insert_ne; [done|]. set_solver. }
  apply wp_bind. eapply wp_node_get; [exact Hx|]. apply wp_ret.
  destruct (decide (d0 = d)) as [->|Hdd].
  - by rewrite fld_mk, Z.eqb_refl.
  - assert (d0 = opp d) as -> by by destruct d0, d.
    by rewrite fld_opp_mk, (proj2 (Z.eqb_neq old (adr o))), opp_opp by done.
Qed.

Lemma wp_reparent s p0 p t (Q : unit → rb_state → Prop) :
  rep (rb_heap s) p0 t → NoDup (NULL :: addrs t) →
  (∀ h', rep h' p t → (∀ z, z ∉ addrs t → h' !! z = rb_heap s !! z) →
     Q tt (RbState h' (rb_root s))) →
  wp (reparent (adr t) p) Q s.
Proof.
  intros Ht Hd H. unfold reparent. destruct t as [|c l x r]; simpl in *.
  { apply wp_ret. destruct s. by apply H. }
  apart Hd. rewrite (proj2 (Z.eqb_neq x NULL)) by congruence. destruct Ht as (Hx & Hl & Hr).
  eapply wp_node_upd; [exact Hx|]. apply H.
  - rewrite lookup_insert_eq. split; [done|]. by split; apply rep_upd.
  - intros z Hz. rewrite lookup_insert_ne; [done|]. set_solver.
Qed.

(** The rotation. *)
Lemma wp_rotate s d k c c' x y a b e (Q : unit → rb_state → Prop) :
  focus h0 s k (nd d c x a (nd d c' y b e)) →
  (∀ s', focus h0 s' k (nd d c' y (nd d c x a b) e) → Q tt s') →
  wp (rotate d x) Q s.
Proof.
  rewrite focus_node, rep_nd, adr_nd. intros (Hx & Ha & (Hy & Hb & He) & Hk & Ho) H.
  rewrite addrs_nd in Ho. destruct Ho as [Hd Ho]. pose proof Hd as Hd'. apart Hd'.
  unfold rotate, get_fld, get_parent, set_fld, set_parent.
  apply wp_bind. eapply wp_node_get; [exact Hx|]. rewrite fld_opp_mk. apply wp_ret.
  apply wp_bind. eapply wp_node_get; [exact Hy|]. rewrite fld_mk. apply wp_ret.
  apply wp_bind. eapply wp_node_upd; [exact Hx|]. rewrite with_fld_opp_mk.
  apply wp_bind. apply (wp_reparent _ y); [by apply rep_upd|by constructor; nin|]. simpl.
  intros h2 Hb2 Hsame2.
  apply wp_bind. eapply (wp_node_upd _ y). { simpl. rewrite Hsame2, lookup_insert_ne by nin. done. }
  rewrite with_fld_mk. apply wp_bind. eapply wp_node_get.
  { simpl. rewrite lookup_insert_ne, Hsame2, lookup_insert_eq by nin. done. }
  rewrite parent_mk. apply wp_ret. apply wp_bind. eapply wp_node_upd; [apply lookup_insert_eq|].
  rewrite with_parent_mk. simpl. rewrite insert_insert_eq. apply wp_bind.
  apply wp_relink.
  { simpl. apply krep_upd; [|nin]. eapply krep_agree; [|exact Hk]. intros z Hz.
    rewrite Hsame2 by (intros ?; unfold dj in *; naive_solver).
    rewrite lookup_insert_ne; [done|]. intros ->. done. }
  { apply NoDup_cons. split; [nin|]. apply NoDup_cons. by split. }
  simpl. intros s5 Hk5 Hsame5. eapply wp_node_upd.
  { rewrite Hsame5, lookup_insert_ne, Hsame2, lookup_insert_eq by nin. done. }
  rewrite with_parent_mk. apply H. apply focus_node. simpl. rewrite rep_nd, adr_nd, addrs_nd.
  rewrite lookup_insert_ne, lookup_insert_eq by nin.
  rewrite Hsame5, lookup_insert_eq by done.
  assert (∀ z, z ∈ kaddrs k ∨ z ∉ kaddrs k) as Hdec by (intros z; destruct (decide (z ∈ kaddrs k)); auto).
  assert (∀ p t, rep h2 p t → x ∉ addrs t → y ∉ addrs t → dj (addrs t) (kaddrs k) →
    rep (<[x := mk d y c (adr a) (adr b)]> (rb_heap s5)) p t) as Hrep.
  { intros p t Ht Hxt Hyt Hkt. apply rep_upd; [|done]. eapply rep_agree; [|by apply rep_upd with (x := y)].
    intros z Hz. apply Hsame5. by apply Hkt. }
  assert (∀ p t, rep (rb_heap s) p t → x ∉ addrs t → dj (addrs t) (addrs b) → rep h2 p t) as Hrep2.
  { intros p t Ht Hxt Hbt. eapply rep_agree; [|exact Ht]. intros z Hz.
    rewrite Hsame2 by by apply Hbt. rewrite lookup_insert_ne; [done|]. by intros ->. }
  split; [done|]. split; [split; [done|split]|split; [|split]].
  - apply Hrep; [|nin..]. apply Hrep2; nin.
  - apply Hrep; nin.
  - apply Hrep; [|nin..]. apply Hrep2; nin.
  - apply krep_upd; [done|nin].
  - split; [autorewrite with apart; repeat split; nin|]. intros z Hz.
    autorewrite with apart in Hz. destruct_and? Hz.
    rewrite lookup_insert_ne, Hsame5, lookup_insert_ne, Hsame2, lookup_insert_ne by done.
    apply Ho. autorewrite with apart. repeat split; done.
Qed.
End steps.

(** ** Balance *)

(** [rbt t c n]: [t] is a red-black tree with a root of colour [c] (black if
    empty) and [n] black nodes on each path. *)
Inductive rbt : tree → color → nat → Prop :=
| rbt_E : rbt E Black 0
| rbt_Red l x r n : rbt l Black n → rbt r Black n → rbt (T Red l x r) Red n
| rbt_Black l x r cl cr n : rbt l cl n → rbt r cr n → rbt (T Black l x r) Black (S n).

(** [rbk k c n]: the hole of [k] takes any tree with root [c] and [n] black
    nodes on each path.  At the top the root has to be black. *)
Inductive rbk : ctx → color → nat → Prop :=
| rbk_top n : rbk [] Black n
| rbk_Red d x o k n : rbt o Black n → rbk k Red n → rbk (Frame d Red x o :: k) Black n
| rbk_Black d x o co k c n : rbt o co n → rbk k Black (S n) → rbk (Frame d Black x o :: k) c n.

Definition tcol (t : tree) : color := match t with E => Black | T c _ _ _ => c end.
Definition recolor (c : color) (t : tree) : tree :=
  match t with E => E | T _ l x r => T c l x r end.

(** The whole data structure: a balanced tree with a black root. *)
Definition is_rbtree (h0 : gmap Z rb_node) (s : rb_state) (t : tree) : Prop :=
  focus h0 s [] t ∧ ∃ n, rbt t Black n.

Section balance.
Implicit Types (t o : tree) (k : ctx).

Lemma rbt_tcol t c n : rbt t c n → tcol t = c.
Proof. by destruct 1. Qed.
Lemma rbt_nd_Red d x a b n : rbt a Black n → rbt b Black n → rbt (nd d Red x a b) Red n.
Proof. destruct d; by constructor. Qed.
Lemma rbt_nd_Black d x a b ca cb n :
  rbt a ca n → rbt b cb n → rbt (nd d Black x a b) Black (S n).
Proof. destruct d; econstructor; eauto. Qed.
Lemma rbt_nd_inv d c x a b c' n :
  rbt (nd d c x a b) c' n →
  c' = c ∧ match c with
           | Red => rbt a Black n ∧ rbt b Black n
           | Black => ∃ m ca cb, n = S m ∧ rbt a ca m ∧ rbt b cb m
           end.
Proof. destruct d; inversion 1; subst; naive_solver. Qed.
Lemma rbk_weaken k c n : rbk k c n → rbk k Black n.
Proof. destruct 1; econstructor; eauto. Qed.
Lemma rbk_Red_inv k n :
  rbk k Red n → ∃ d g u cu k', k = Frame d Black g u :: k' ∧ rbt u cu n ∧ rbk k' Black (S n).
Proof. inversion 1; subst. naive_solver. Qed.
Lemma rbt_plug k t c n : rbt t c n → rbk k c n → ∃ m, rbt (plug k t) Black m.
Proof.
  revert t c n. induction k as [|[d c' x o] k IH]; intros t c n Ht Hk; simpl.
  - inversion Hk; subst. eauto.
  - inversion Hk; subst.
    + eapply IH; [by apply rbt_nd_Red|done].
    + eapply IH; [by eapply rbt_nd_Black|done].
Qed.

Lemma rbt_unplug k t n : rbt (plug k t) Black n → ∃ c m, rbt t c m ∧ rbk k c m.
Proof.
  revert t. induction k as [|[d c x o] k IH]; intros t H; simpl in H.
  { exists Black, n. split; [done|constructor]. }
  apply IH in H as (c0 & m & Ht & Hk). apply rbt_nd_inv in Ht as [-> Hc]. destruct c.
  - destruct Hc as [Ht Ho]. exists Black, m. split; [done|by constructor].
  - destruct Hc as (m' & ca & cb & -> & Ht & Ho). exists ca, m'. split; [done|]. by eapply rbk_Black.
Qed.

Lemma inorder_nd d c c' x a b : inorder (nd d c x a b) = inorder (nd d c' x a b).
Proof. by destruct d. Qed.
Lemma inorder_recolor c t : inorder (recolor c t) = inorder t.
Proof. by destruct t. Qed.
Lemma inorder_rotate d c1 c2 c3 c4 x y a b e :
  inorder (nd d c1 y (nd d c2 x a b) e) = inorder (nd d c3 x a (nd d c4 y b e)).
Proof. destruct d; simpl; by rewrite <- app_assoc. Qed.
(** The nodes before and after a hole. *)
Fixpoint before (k : ctx) : list Z :=
  match k with
  | [] => []
  | Frame L _ _ _ :: k => before k
  | Frame R _ x o :: k => before k ++ inorder o ++ [x]
  end.
Fixpoint after (k : ctx) : list Z :=
  match k with
  | [] => []
  | Frame L _ x o :: k => x :: inorder o ++ after k
  | Frame R _ _ _ :: k => after k
  end.
Lemma inorder_plug k t : inorder (plug k t) = before k ++ inorder t ++ after k.
Proof.
  revert t. induction k as [|[d c x o] k IH]; intros t; simpl; [by rewrite app_nil_r|].
  rewrite IH. destruct d; simpl; by rewrite <- ?app_assoc.
Qed.
Lemma inorder_plug_eq k t t' : inorder t = inorder t' → inorder (plug k t) = inorder (plug k t').
Proof. intros E. by rewrite !inorder_plug, E. Qed.
Lemma inorder_nd_eq d c c' x a a' b b' :
  inorder a = inorder a' → inorder b = inorder b' →
  inorder (nd d c x a b) = inorder (nd d c' x a' b').
Proof. intros Ha Hb. destruct d; simpl; by rewrite Ha, Hb. Qed.

Lemma recolor_nd d c c' x a b : recolor c' (nd d c x a b) = nd d c' x a b.
Proof. by destruct d. Qed.
Lemma rbt_blacken t c n : rbt t c n → ∃ m, rbt (recolor Black t) Black m.
Proof. destruct 1; eexists; simpl; econstructor; eauto. Qed.
End balance.

Section rebalance.
Context {h0 : gmap Z rb_node}.
Implicit Types (s : rb_state) (t o : tree) (k : ctx).

Lemma wp_set_color_tree s k t c' (Q : unit → rb_state → Prop) :
  focus h0 s k t → t ≠ E → (∀ s', focus h0 s' k (recolor c' t) → Q tt s') →
  wp (set_color (adr t) (cval c')) Q s.
Proof. destruct t as [|c l x r]; [done|]. intros F _. by apply (wp_set_color s k L c). Qed.

Lemma focus_adr s k t : focus h0 s k t → adr t = NULL → t = E.
Proof.
  destruct t as [|c l x r]; [done|]. intros F. apply (focus_get s k L) in F as [_ ?]. done.
Qed.
Lemma wp_is_red s k t (Q : bool → rb_state → Prop) :
  focus h0 s k t → Q (bool_decide (tcol t = Red)) s → wp (is_red (adr t)) Q s.
Proof.
  intros F H. unfold is_red. destruct t as [|c l x r]; simpl in *; [by apply wp_ret|].
  pose proof (focus_get s k L c x l r F) as [_ Hx]. rewrite (proj2 (Z.eqb_neq x NULL)) by done.
  apply wp_bind. apply (wp_get_color s k L c x l r _ F). apply wp_ret. by destruct c.
Qed.
Lemma wp_is_black s k t (Q : bool → rb_state → Prop) :
  focus h0 s k t → Q (bool_decide (tcol t = Black)) s → wp (is_black (adr t)) Q s.
Proof.
  intros F H. unfold is_black. destruct t as [|c l x r]; simpl in *; [by apply wp_ret|].
  pose proof (focus_get s k L c x l r F) as [_ Hx]. rewrite (proj2 (Z.eqb_neq x NULL)) by done.
  apply wp_bind. apply (wp_get_color s k L c x l r _ F). apply wp_ret. by destruct c.
Qed.

(** The focus on the sibling. *)
Lemma focus_other s d c x o k t :
  focus h0 s (Frame d c x o :: k) t ↔ focus h0 s (Frame (opp d) c x t :: k) o.
Proof. by rewrite !focus_up, nd_opp. Qed.

(** The loop of [rb_insert_color]: a red node with proper children, in a
    context that would take a black tree of its height. *)
Definition ins_inv (l : list Z) (n : nat) (node : Z) (s : rb_state) : Prop :=
  ∃ k a b m, focus h0 s k (T Red a node b) ∧ rbt a Black m ∧ rbt b Black m ∧ rbk k Black m ∧
    inorder (plug k (T Red a node b)) = l ∧ (length k ≤ n)%nat.

Lemma insert_tail s d g u y a x b w k m (Q : Z → rb_state → Prop) :
  let n := T Red a x b in
  focus h0 s (Frame d Black g u :: k) (nd d Red y n w) →
  rbt a Black m → rbt b Black m → rbt w Black m → rbt u Black m → rbk k Black (S m) →
  (∀ s', ins_inv (inorder (plug k (nd d Black g (nd d Red y n w) u))) (S (length k)) x s' → Q x s') →
  wp (set_color y RB_BLACK;; set_color g RB_RED;; rotate (opp d) g;; mret x) Q s.
Proof.
  intros n F Ha Hb Hw Hu Hk HQ.
  apply wp_bind. apply (wp_set_color _ _ _ _ Black _ _ _ _ F). intros s1 F1. rewrite focus_up in F1.
  apply wp_bind. apply (wp_set_color _ _ _ _ Red _ _ _ _ F1). intros s2 F2.
  rewrite <- nd_opp, <- (nd_opp d Black) in F2.
  apply wp_bind. apply (wp_rotate _ _ _ _ _ _ _ _ _ _ _ F2). intros s3 F3.
  rewrite nd_opp in F3. rewrite <- focus_up in F3. apply wp_ret, HQ.
  eexists _, a, b, m. split; [exact F3|]. split; [done|]. split; [done|].
  split; [eapply rbk_Black; [by apply rbt_nd_Red|done]|]. split; [|done].
  simpl. apply inorder_plug_eq. rewrite <- (nd_opp d Black g), <- (nd_opp d Red y), <- (nd_opp d Black y).
  apply inorder_rotate.
Qed.

Lemma plug_nonempty k c a x b : plug k (T c a x b) ≠ E.
Proof.
  intros E'. assert (inorder (plug k (T c a x b)) = []) as El by by rewrite E'.
  rewrite inorder_plug in El. simpl in El. by apply app_eq_nil in El as [_ [[_ ?]%app_eq_nil _]%app_eq_nil].
Qed.

(** A node with a parent is not the root. *)
Lemma focus_not_root s f k t : focus h0 s (f :: k) t → adr t ≠ rb_root s.
Proof.
  intros (Hkr & _ & Hd & _) E'. rewrite E' in Hkr.
  assert (rb_root s ∈ kaddrs (f :: k)) as Hin.
  { clear -Hkr. revert Hkr. generalize (rb_root s) at 2. revert f.
    induction k as [|f' k IH]; intros [d' c' p' o'] a; simpl.
    - intros (_ & _ & ->). apply list_elem_of_here.
    - intros (_ & _ & H). apply list_elem_of_further, elem_of_app. right. by apply (IH f' p'). }
  rewrite <- E' in Hin. apart Hd. destruct f, (adr_cases t) as [E2|E2].
  - rewrite E2 in Hin. set_solver.
  - unfold dj in *. set_solver.
Qed.

(** Siblings have different addresses. *)
Lemma focus_siblings s k d c p o t : focus h0 s (Frame d c p o :: k) t →
  adr t ≠ NULL ∨ adr o ≠ NULL → adr t ≠ adr o.
Proof.
  intros F%focus_NoDup Hor E'. unfold all in F. apart F.
  destruct (adr_cases t) as [Et|Et], (adr_cases o) as [Eo|Eo]; [destruct Hor; congruence..|].
  rewrite <- E' in Eo. unfold dj in *. set_solver.
Qed.

(** On which side of its parent a node is. *)
Lemma wp_get_fld_side s k d c p t o (P : Z → rb_state → Prop) :
  focus h0 s k (nd d c p t o) → adr t ≠ NULL ∨ adr o ≠ NULL →
  (∀ v, (v =? adr t) = bool_decide (d = L) → P v s) → wp (get_fld L p) P s.
Proof.
  intros F Hor HP. assert (adr t ≠ adr o) as Hne.
  { rewrite <- focus_up in F. by eapply focus_siblings. }
  destruct d.
  - apply (wp_get_fld _ _ L _ _ _ _ _ F), HP. by rewrite Z.eqb_refl.
  - apply (wp_get_fld_opp _ _ R _ _ _ _ _ F), HP. rewrite bool_decide_eq_false_2 by done. by apply Z.eqb_neq.
Qed.
Lemma side_if (d : side) : (if bool_decide (d = L) then L else R) = d.
Proof. by destruct d. Qed.

(** A red uncle: the colours change and the loop goes on at the grandparent. *)
Lemma insert_red_uncle s d d' p sib g u k x a b m (Q : Z → rb_state → Prop) :
  let t := T Red a x b in
  focus h0 s (Frame (opp d') Black g (nd d Red p t sib) :: k) u →
  rbt a Black m → rbt b Black m → rbt sib Black m → rbt u Red m → rbk k Black (S m) →
  (∀ node s', ins_inv (inorder (plug k (nd d' Black g (nd d Red p t sib) u)))
    (S (length k)) node s' → Q node s') →
  wp (set_color (adr u) RB_BLACK;; set_color p RB_BLACK;; set_color g RB_RED;; mret g) Q s.
Proof.
  intros t Fu Ha Hb Hsib Hu Hk HQ. assert (u ≠ E) as Hne by (intros ->; inversion Hu).
  apply wp_bind. apply (wp_set_color_tree _ _ _ Black _ Fu Hne). intros s1 F1.
  rewrite focus_other, opp_opp in F1.
  apply wp_bind. apply (wp_set_color _ _ _ _ Black _ _ _ _ F1). intros s2 F2.
  rewrite focus_up in F2.
  apply wp_bind. apply (wp_set_color _ _ _ _ Red _ _ _ _ F2). intros s3 F3.
  apply wp_ret. apply HQ.
  assert (rbt (nd d Black p t sib) Black (S m)) as HP by (eapply rbt_nd_Black; [by apply rbt_Red|done]).
  assert (rbt (recolor Black u) Black (S m)) as HU by (inversion Hu; subst; by econstructor).
  assert (inorder (plug k (nd d' Red g (nd d Black p t sib) (recolor Black u))) =
    inorder (plug k (nd d' Black g (nd d Red p t sib) u))) as Hl.
  { apply inorder_plug_eq, inorder_nd_eq; [apply inorder_nd|apply inorder_recolor]. }
  destruct d'; eexists k, _, _, (S m); (split; [exact F3|]);
    (split; [done|split; [done|split; [done|split; [exact Hl|lia]]]]).
Qed.

Lemma insert_fix_spec s d d' p sib g u cu k a x b m (Q : Z → rb_state → Prop) :
  let t := T Red a x b in
  focus h0 s (Frame d Red p sib :: Frame d' Black g u :: k) t →
  rbt a Black m → rbt b Black m → rbt sib Black m → rbt u cu m → rbk k Black (S m) →
  (∀ node s', ins_inv (inorder (plug k (nd d' Black g (nd d Red p t sib) u)))
    (S (length k)) node s' → Q node s') →
  wp (insert_fix d' x p g) Q s.
Proof.
  intros t F Ha Hb Hsib Hu Hk HQ. unfold insert_fix.
  pose proof F as Fu. rewrite focus_up in Fu. pose proof Fu as Fg. rewrite focus_up in Fg.
  pose proof Fu as Fp. rewrite focus_other in Fu.
  apply wp_bind. apply (wp_get_fld_opp _ _ _ _ _ _ _ _ Fg).
  apply wp_bind. apply (wp_is_red _ _ _ _ Fu). rewrite (rbt_tcol _ _ _ Hu).
  case_bool_decide as Hc.
  { subst cu. by eapply insert_red_uncle; [exact Fu|..]. }
  assert (cu = Black) as -> by by destruct cu.
  destruct (decide (d = opp d')) as [->|Hdd]; [|assert (d = d') as -> by by destruct d, d'].
  - (* the node is an inner child *)
    rewrite nd_opp in Fp.
    apply wp_bind. apply (wp_get_fld_opp _ _ _ _ _ _ _ _ Fp).
    simpl adr. rewrite Z.eqb_refl.
    assert (∃ near far, t = nd d' Red x near far ∧ rbt near Black m ∧ rbt far Black m)
      as (near & far & Et & Hn & Hf).
    { destruct d'; [by exists a, b|by exists b, a]. }
    rewrite Et in Fp. apply wp_bind, wp_bind.
    apply (wp_rotate _ _ _ _ _ _ _ _ _ _ _ Fp). intros s1 F1. apply wp_ret. cbv beta iota.
    assert (∃ a' b', nd d' Red p sib near = T Red a' p b' ∧ rbt a' Black m ∧ rbt b' Black m)
      as (a' & b' & EP & Ha' & Hb').
    { destruct d'; simpl; eauto. }
    rewrite EP in F1. apply (insert_tail _ _ _ _ _ a' p b' far _ m _ F1); try done.
    intros s' Hs'. apply HQ. rewrite <- EP in Hs'.
    assert (inorder (plug k (nd d' Black g (nd d' Red x (nd d' Red p sib near) far) u)) =
      inorder (plug k (nd d' Black g (nd (opp d') Red p t sib) u))) as <-; [|done].
    apply inorder_plug_eq, inorder_nd_eq; [|done]. rewrite nd_opp, Et. apply inorder_rotate.
  - apply wp_bind. apply (wp_get_fld_opp _ _ _ _ _ _ _ _ Fp).
    assert (adr sib ≠ x) as Hsx.
    { intros <-. apply focus_NoDup in F. unfold all in F. apart F.
      destruct (adr_cases sib) as [E'|E']; [congruence|done]. }
    rewrite (proj2 (Z.eqb_neq (adr sib) x)) by done.
    apply wp_bind, wp_ret. cbv beta iota.
    apply (insert_tail _ _ _ _ _ a x b sib _ m _ Fp); try done. intros s' Hs'. by apply HQ.
Qed.

(** A whole tree with its root cell. *)
Lemma focus_root s t : focus h0 s [] t → rb_root s = adr t.
Proof. by intros [? _]. Qed.

Lemma wp_insert_color fuel s k a x b m (Q : unit → rb_state → Prop) :
  focus h0 s k (T Red a x b) → rbt a Black m → rbt b Black m → rbk k Black m →
  (length k < fuel)%nat →
  (∀ s' t', is_rbtree h0 s' t' → inorder t' = inorder (plug k (T Red a x b)) → Q tt s') →
  wp (rb_insert_color fuel x) Q s.
Proof.
  intros F Ha Hb Hk Hf HQ. unfold rb_insert_color. apply wp_bind.
  apply wp_mono with (P := λ _ s', ∃ t', focus h0 s' [] t' ∧ t' ≠ E ∧
    inorder t' = inorder (plug k (T Red a x b)) ∧ ∃ n, rbt (recolor Black t') Black n).
  2: { intros [] s' (t' & F' & Hne & Hl & n & Hn). apply wp_bind, wp_gets.
       rewrite (focus_root _ _ F'). apply (wp_set_color_tree _ _ _ Black _ F' Hne).
       intros s2 F2. apply (HQ s2 (recolor Black t')); [by split; [|exists n]|].
       by rewrite inorder_recolor. }
  apply wp_loop with (I := ins_inv (inorder (plug k (T Red a x b)))) (n := length k); [|
    |done].
  2: { exists k, a, b, m. repeat (split; [done|]). done. }
  clear. intros n node s (k' & a' & b' & m' & F & Ha & Hb & Hk & <- & Hn).
  apply wp_bind. apply (wp_get_parent _ _ L _ _ _ _ _ F). destruct k' as [|[d c p o] k'].
  { apply wp_bind. simpl. apply wp_ret, wp_ret. eexists. split; [exact F|].
    split; [done|]. split; [done|]. exists (S m'). simpl. by econstructor. }
  pose proof F as Fp. rewrite focus_up in Fp. apply wp_bind. simpl cpar.
  pose proof (wp_is_red _ _ _ (λ v s', wp (if (v : bool) then
      gparent ← get_parent p; gl ← get_fld L gparent;
      node' ← insert_fix (if p =? gl then L else R) node p gparent; mret (inl node')
    else mret (inr tt)) (λ r s', match r with
      | inl l' => ∃ n', (n' < n)%nat ∧ ins_inv (inorder (plug (Frame d c p o :: k') (T Red a' node b'))) n' l' s'
      | inr _ => ∃ t', focus h0 s' [] t' ∧ t' ≠ E ∧
          inorder t' = inorder (plug (Frame d c p o :: k') (T Red a' node b')) ∧
          ∃ n, rbt (recolor Black t') Black n
      end) s') Fp) as Hw. rewrite adr_nd in Hw. apply Hw. clear Hw.
  assert (tcol (nd d c p (T Red a' node b') o) = c) as -> by by destruct d. inversion Hk; subst.
  - rewrite bool_decide_eq_true_2 by done.
    destruct (rbk_Red_inv k' m') as (d' & g & u & cu & k2 & -> & Hu & Hk2); [done|].
    apply wp_bind. apply (wp_get_parent _ _ _ _ _ _ _ _ Fp). simpl cpar.
    pose proof Fp as Fg. rewrite focus_up in Fg.
    apply wp_bind. eapply wp_get_fld_side; [exact Fg|left; rewrite adr_nd; by apply (focus_get _ _ _ _ _ _ _ Fp)|].
    intros v. rewrite adr_nd, Z.eqb_sym. intros ->. rewrite side_if.
    apply wp_bind. eapply insert_fix_spec; [exact F|done..|].
    intros node' s' Hi. apply wp_ret. exists (S (length k2)). simpl in Hn. split; [lia|]. exact Hi.
  - rewrite bool_decide_eq_false_2 by done. apply wp_ret.
    exists (plug (Frame d Black p o :: k') (T Red a' node b')).
    split; [by rewrite <- focus_plug|]. split; [|split; [done|]].
    + apply plug_nonempty.
    + destruct (rbt_plug (Frame d Black p o :: k') (T Red a' node b') Red m') as [n' Hn'].
      * by constructor.
      * by econstructor.
      * by eapply rbt_blacken.
Qed.
End rebalance.

(** ** Depth *)

Fixpoint height (t : tree) : nat :=
  match t with E => O | T _ l _ r => S (max (height l) (height r)) end.

Lemma rbt_height t c n : rbt t c n → (height t ≤ 2 * n + match c with Red => 1 | Black => 0 end)%nat.
Proof. induction 1 as [| |? ? ? cl cr]; simpl; [lia|lia|destruct cl, cr; lia]. Qed.
Lemma rbt_size t c n : rbt t c n → (2 ^ n ≤ length (inorder t) + 1)%nat.
Proof.
  induction 1; simpl; rewrite ?length_app; simpl; lia.
Qed.
Lemma height_plug k t : (length k + height t ≤ height (plug k t))%nat.
Proof.
  revert t. induction k as [|[d c x o] k IH]; intros t; simpl; [lia|].
  specialize (IH (nd d c x t o)). destruct d; simpl in *; lia.
Qed.
(** The length of every path of a red-black tree with [n] nodes. *)
Definition rb_depth (n : nat) : nat := 2 * Nat.log2 (n + 1).
Lemma rbt_depth k t n : rbt (plug k t) Black n → (length k + height t ≤ rb_depth (length (inorder (plug k t))))%nat.
Proof.
  intros H. pose proof (rbt_height _ _ _ H). pose proof (rbt_size _ _ _ H) as Hs.
  pose proof (height_plug k t). apply Nat.log2_le_mono in Hs. rewrite Nat.log2_pow2 in Hs by lia.
  unfold rb_depth. cbn [Nat.mul] in *. simpl in *. lia.
Qed.

(** ** Insertion *)

(** Where [rb_link] has to point for a new child in the hole of [k]. *)
Definition link_of (k : ctx) : rb_link :=
  match k with [] => LinkRoot | f :: _ => LinkChild (f_side f) (f_node f) end.

Section insert.
Implicit Types (s : rb_state) (t o : tree) (k : ctx).

Lemma addrs_inorder t : addrs t ≡ₚ inorder t.
Proof.
  induction t as [|c l IHl x r IHr]; simpl; [done|]. by rewrite IHl, IHr, Permutation_middle.
Qed.
Lemma all_inorder k t : all k t ≡ₚ NULL :: inorder (plug k t).
Proof. rewrite all_plug. unfold all. simpl. by rewrite app_nil_r, addrs_inorder. Qed.

Lemma wp_link_node h0 s k x n0 (Q : unit → rb_state → Prop) :
  focus h0 s k E → rb_heap s !! x = Some n0 → x ∉ all k E →
  (∀ s', focus h0 s' k (T Red E x E) → Q tt s') →
  wp (rb_link_node x (cpar k) (link_of k)) Q s.
Proof.
  intros (Hk & _ & Hd & Ho) Hx Hnx HQ. unfold all in Hnx. simpl in Hd, Ho, Hnx, Hk.
  unfold rb_link_node. apply wp_bind. eapply wp_node_upd; [exact Hx|].
  assert (krep (<[x := RbNode (cpar k) RB_RED NULL NULL]> (rb_heap s)) (rb_root s) k NULL) as Hk1
    by (apply krep_upd; [done|set_solver]).
  assert (NoDup (NULL :: x :: kaddrs k)) as Hd1.
  { pose proof Hd as Hd'. apart Hd'. apart Hnx. autorewrite with apart. repeat split; nin. }
  destruct k as [|[d c p o] k]; simpl.
  { apply wp_modify, HQ. split; [done|]. simpl. rewrite lookup_insert_eq.
    split; [by repeat split|]. split; [done|]. intros z Hz.
    rewrite lookup_insert_ne; [apply Ho|]; set_solver. }
  destruct Hk1 as (Hp & Ho1 & Hk1). unfold set_fld. eapply wp_node_upd; [exact Hp|].
  rewrite with_fld_mk. pose proof Hd1 as Hd2. simpl in Hd2. apart Hd2. apply HQ. split; [|split; [|split]]; simpl.
  - rewrite lookup_insert_eq. split; [done|]. split; [by apply rep_upd|by apply krep_upd].
  - rewrite lookup_insert_ne, lookup_insert_eq by done. done.
  - autorewrite with apart. repeat split; nin.
  - intros z Hz. rewrite !lookup_insert_ne by set_solver. apply Ho. set_solver.
Qed.
End insert.

(** C4: linking a new node into any empty place of the tree and rebalancing
    gives a red-black tree whose nodes are, in order, the old ones with the new
    one in that place; nothing else in memory changes, and the loop runs at most
    twice the logarithm of the number of nodes. *)
Theorem rb_insert_spec h0 s k x n0 fuel :
  is_rbtree h0 s (plug k E) → rb_heap s !! x = Some n0 →
  x ∉ NULL :: before k ++ after k →
  (rb_depth (length (before k ++ after k)) < fuel)%nat →
  ∃ s' t', (rb_link_node x (cpar k) (link_of k);; rb_insert_color fuel x) s = Ret (tt, s') ∧
    is_rbtree h0 s' t' ∧ inorder t' = before k ++ x :: after k.
Proof.
  intros [F [n Hn]] Hx Hnx Hf. pose proof (inorder_plug k E) as El. simpl in El.
  pose proof (rbt_depth _ _ _ Hn) as Hlen. rewrite El in Hlen. rewrite <- focus_plug in F.
  assert (wp (rb_link_node x (cpar k) (link_of k);; rb_insert_color fuel x)
    (λ _ s', ∃ t', is_rbtree h0 s' t' ∧ inorder t' = before k ++ x :: after k) s) as Hw.
  2: { apply wp_run in Hw as ([] & s' & Hr & t' & ?). by exists s', t'. }
  apply wp_bind. eapply wp_link_node; [done|done| |].
  { by rewrite all_inorder, El. }
  intros s1 F1. apply rbt_unplug in Hn as (c & m & Hm & Hk). inversion Hm; subst.
  eapply wp_insert_color; [exact F1|constructor..|exact Hk|lia|].
  intros s2 t2 Ht2 Hi. exists t2. split; [done|]. rewrite Hi. apply inorder_plug.
Qed.

(** ** Removal *)

Section erase.
Context {h0 : gmap Z rb_node}.
Implicit Types (s : rb_state) (t o : tree) (k : ctx).

(** A tree that is a red-black tree but perhaps for its red root. *)
Definition almost (t : tree) (m : nat) : Prop :=
  rbt t Black m ∨ ∃ a x b ca cb, t = T Red a x b ∧ rbt a ca m ∧ rbt b cb m.

(** What an iteration leaves: a subtree one black node short in a larger
    context, or a whole tree. *)
Definition erase_post (l : list Z) (n : nat) (r : Z * Z + Z) (s : rb_state) : Prop :=
  match r with
  | inl (node, parent) => ∃ k t m, focus h0 s k t ∧ node = adr t ∧ parent = cpar k ∧
      almost t m ∧ rbk k Black (S m) ∧ inorder (plug k t) = l ∧
      (tcol t = Red ∨ (length k < n)%nat)
  | inr node => ∃ t, focus h0 s [] t ∧ node = adr t ∧ (∃ m, rbt t Black m) ∧ inorder t = l
  end.

Lemma wp_blacken s k t (Q : unit → rb_state → Prop) :
  focus h0 s k t → (∀ s', focus h0 s' k (recolor Black t) → Q tt s') →
  wp (if adr t =? NULL then mret tt else set_color (adr t) RB_BLACK) Q s.
Proof.
  intros F HQ. destruct (Z.eqb_spec (adr t) NULL) as [E'|E'].
  - apply (focus_adr _ _ _ F) in E'. rewrite E' in *. by apply wp_ret, HQ.
  - apply (wp_set_color_tree _ _ _ Black _ F); [|done]. by intros ->.
Qed.

Lemma wp_both_black s k d c x a b (Q : bool → rb_state → Prop) :
  focus h0 s k (nd d c x a b) →
  Q (bool_decide (tcol a = Black) && bool_decide (tcol b = Black)) s →
  wp (both_black x) Q s.
Proof.
  intros F H. assert (∃ l r, nd d c x a b = nd L c x l r ∧
    bool_decide (tcol a = Black) && bool_decide (tcol b = Black) =
    bool_decide (tcol l = Black) && bool_decide (tcol r = Black)) as (l & r & E1 & E2).
  { destruct d; [by exists a, b|]. exists b, a. split; [done|apply andb_comm]. }
  rewrite E1 in F. rewrite E2 in H. unfold both_black.
  pose proof F as Fl. rewrite <- focus_up in Fl. pose proof Fl as Fr. rewrite focus_other in Fr.
  apply wp_bind, (wp_get_fld _ _ L _ _ _ _ _ F), wp_bind, (wp_is_black _ _ _ _ Fl).
  destruct (bool_decide (tcol l = Black)); [|by apply wp_ret].
  apply wp_bind, (wp_get_fld_opp _ _ L _ _ _ _ _ F). by apply (wp_is_black _ _ _ _ Fr).
Qed.

Lemma erase_last_spec s d c p x on a y b k t con m n (Q : Z * Z + Z → rb_state → Prop) :
  let sib := nd d Black x on (T Red a y b) in
  focus h0 s (Frame d c p sib :: k) t →
  rbt t Black m → rbt on con m → rbt a Black m → rbt b Black m →
  rbk (Frame d c p sib :: k) Black (S m) →
  (∀ r s', erase_post (inorder (plug k (nd d c p t sib))) n r s' → Q r s') →
  wp (erase_last d p x) Q s.
Proof.
  intros sib F Ht Hon Ha Hb Hk HQ. unfold erase_last.
  pose proof F as Fp. rewrite focus_up in Fp. rewrite focus_other in F.
  apply wp_bind, (wp_get_color _ _ _ _ _ _ _ _ Fp).
  apply wp_bind, (wp_set_color _ _ _ _ _ _ _ _ _ F). intros s1 F1.
  rewrite focus_up, nd_opp in F1.
  apply wp_bind, (wp_set_color _ _ _ _ Black _ _ _ _ F1). intros s2 F2.
  rewrite <- nd_opp, <- focus_up in F2.
  apply wp_bind, (wp_get_fld_opp _ _ _ _ _ _ _ _ F2).
  rewrite <- nd_opp, <- focus_up in F2.
  apply wp_bind, (wp_blacken _ _ _ _ F2). intros s3 F3.
  rewrite focus_up, nd_opp, focus_up, nd_opp in F3. simpl recolor in F3.
  apply wp_bind, (wp_rotate _ _ _ _ _ _ _ _ _ _ _ F3). intros s4 F4.
  apply wp_bind, wp_gets, wp_ret, HQ. rewrite focus_plug in F4.
  exists (plug k (nd d c x (nd d Black p t on) (T Black a y b))).
  split; [done|]. split; [exact (focus_root _ _ F4)|]. split.
  - assert (rbt (nd d Black p t on) Black (S m)) as H1 by by eapply rbt_nd_Black.
    assert (rbt (T Black a y b) Black (S m)) as H2 by by econstructor.
    inversion Hk; subst.
    + eapply rbt_plug; [by apply rbt_nd_Red|done].
    + eapply rbt_plug; [by eapply rbt_nd_Black|done].
  - apply inorder_plug_eq. unfold sib. rewrite (inorder_rotate d c Black c Black).
    apply inorder_nd_eq; [done|]. by apply inorder_nd_eq.
Qed.

(** A sibling with black children turns red and the loop goes on at the parent. *)
Lemma erase_sibling_red s d c p x on far k t m n (Q : Z * Z + Z → rb_state → Prop) :
  let sib := nd d Black x on far in
  focus h0 s (Frame (opp d) c p t :: k) sib → rbt t Black m → rbt on Black m → rbt far Black m →
  rbk (Frame d c p sib :: k) Black (S m) → (c = Black → (length k < n)%nat) →
  (∀ r s', erase_post (inorder (plug k (nd d c p t sib))) n r s' → Q r s') →
  wp (set_color x RB_RED;; p' ← get_parent p; mret (inl (p, p'))) Q s.
Proof.
  intros sib Fs Ht Hon Hof Hk Hn HQ. apply wp_bind, (wp_set_color _ _ _ _ Red _ _ _ _ Fs). intros s1 F1.
  rewrite focus_up, nd_opp in F1. apply wp_bind, (wp_get_parent _ _ _ _ _ _ _ _ F1). apply wp_ret, HQ.
  assert (rbt (nd d Red x on far) Red m) as H1 by by apply rbt_nd_Red.
  assert (inorder (plug k (nd d c p t (nd d Red x on far))) = inorder (plug k (nd d c p t sib))) as Hl
    by (apply inorder_plug_eq, inorder_nd_eq; [done|apply inorder_nd]).
  inversion Hk; subst.
  - eexists k, _, m. split; [exact F1|]. rewrite adr_nd. split; [done|]. split; [done|].
    split; [right; destruct d; simpl; naive_solver|]. split; [by eapply rbk_weaken|].
    split; [exact Hl|]. left. by destruct d.
  - eexists k, _, (S m). split; [exact F1|]. rewrite adr_nd. split; [done|]. split; [done|].
    split; [left; by eapply rbt_nd_Black|]. split; [done|]. split; [exact Hl|]. right. by apply Hn.
Qed.

(** The red inner child of the sibling becomes the sibling. *)
Lemma erase_inner_red s d c p x z n1 n2 far k t m (Q : Z → rb_state → Prop) :
  let sib := nd d Black x (nd d Red z n1 n2) far in
  focus h0 s (Frame (opp d) c p t :: k) sib → rbt n2 Black m → rbt far Black m →
  (∀ a b s', focus h0 s' (Frame d c p (nd d Black z n1 (T Red a x b)) :: k) t →
    nd d Red x n2 far = T Red a x b → rbt a Black m → rbt b Black m → Q z s') →
  wp (near ← get_fld d x;
      (if near =? NULL then mret tt else set_color near RB_BLACK);;
      set_color x RB_RED;;
      rotate (opp d) x;;
      get_fld (opp d) p) Q s.
Proof.
  intros sib Fs H2 Hof HQ. apply wp_bind, (wp_get_fld _ _ _ _ _ _ _ _ Fs).
  pose proof Fs as Fn. unfold sib in Fn. rewrite <- focus_up in Fn.
  apply wp_bind, (wp_blacken _ _ _ _ Fn). intros s1 F1.
  rewrite recolor_nd, focus_up in F1.
  apply wp_bind, (wp_set_color _ _ _ _ Red _ _ _ _ F1). intros s2 F2.
  rewrite <- nd_opp, <- (nd_opp d Black z) in F2.
  apply wp_bind, (wp_rotate _ _ _ _ _ _ _ _ _ _ _ F2). intros s3 F3.
  rewrite nd_opp, (nd_opp d Red x) in F3. rewrite focus_other, opp_opp in F3.
  pose proof F3 as Fp. rewrite focus_up in Fp.
  apply (wp_get_fld_opp _ _ _ _ _ _ _ _ Fp). rewrite adr_nd.
  assert (∃ a b, nd d Red x n2 far = T Red a x b ∧ rbt a Black m ∧ rbt b Black m)
    as (a & b & E2 & Ha & Hb) by (destruct d; simpl; eauto 10).
  rewrite E2 in F3. by eapply HQ.
Qed.

Lemma erase_black_spec s d c p x on far k t con cof m n (Q : Z * Z + Z → rb_state → Prop) :
  let sib := nd d Black x on far in
  focus h0 s (Frame d c p sib :: k) t →
  rbt t Black m → rbt on con m → rbt far cof m →
  rbk (Frame d c p sib :: k) Black (S m) →
  (c = Black → (length k < n)%nat) →
  (∀ r s', erase_post (inorder (plug k (nd d c p t sib))) n r s' → Q r s') →
  wp (erase_black d p x) Q s.
Proof.
  intros sib F Ht Hon Hof Hk Hn HQ. unfold erase_black.
  pose proof F as Fs. rewrite focus_other in Fs.
  apply wp_bind, (wp_both_black _ _ _ _ _ _ _ _ Fs).
  rewrite (rbt_tcol _ _ _ Hon), (rbt_tcol _ _ _ Hof).
  destruct (bool_decide (con = Black) && bool_decide (cof = Black)) eqn:Hboth.
  { apply andb_true_iff in Hboth as [->%bool_decide_eq_true ->%bool_decide_eq_true].
    by eapply erase_sibling_red. }
  apply wp_bind, (wp_get_fld_opp _ _ _ _ _ _ _ _ Fs).
  pose proof Fs as Ff. unfold sib in Ff. rewrite <- nd_opp, <- focus_up in Ff.
  apply wp_bind, (wp_is_black _ _ _ _ Ff). rewrite (rbt_tcol _ _ _ Hof). clear Ff.
  destruct cof.
  - rewrite bool_decide_eq_false_2 by done. apply wp_bind, wp_ret.
    assert (∃ a y b, far = T Red a y b ∧ rbt a Black m ∧ rbt b Black m) as (a & y & b & E1 & Ha & Hb)
      by (inversion Hof; subst; eauto 10).
    unfold sib in *. rewrite E1 in *. by eapply erase_last_spec.
  - rewrite bool_decide_eq_true_2 by done.
    assert (con = Red) as -> by (destruct con; [done|by rewrite !bool_decide_eq_true_2 in Hboth]).
    assert (∃ n1 z n2, on = nd d Red z n1 n2 ∧ rbt n1 Black m ∧ rbt n2 Black m)
      as (n1 & z & n2 & -> & H1 & H2).
    { inversion Hon; subst. destruct d; simpl; eauto 10. }
    apply wp_bind. eapply erase_inner_red; [exact Fs|done..|]. intros a b s3 F3 E2 Ha Hb.
    eapply erase_last_spec; [exact F3|done..| |].
    + inversion Hk; subst; [constructor; [|done]|eapply rbk_Black; [|done]];
        by eapply rbt_nd_Black; [|constructor].
    + intros r s' Hr. apply HQ. unfold sib.
      replace (inorder (plug k (nd d c p t (nd d Black x (nd d Red z n1 n2) far)))) with
        (inorder (plug k (nd d c p t (nd d Black z n1 (T Red a x b))))); [done|].
      apply inorder_plug_eq, inorder_nd_eq; [done|]. rewrite <- E2.
      rewrite <- (nd_opp d Black x), <- (nd_opp d Red z), <- (nd_opp d Black z), <- (nd_opp d Red x).
      apply inorder_rotate.
Qed.

Lemma erase_fix_spec s d c p sib k t m (Q : Z * Z + Z → rb_state → Prop) :
  focus h0 s (Frame d c p sib :: k) t → rbt t Black m →
  rbk (Frame d c p sib :: k) Black (S m) →
  (∀ r s', erase_post (inorder (plug k (nd d c p t sib))) (S (length k)) r s' → Q r s') →
  wp (erase_fix d p) Q s.
Proof.
  intros F Ht Hk HQ. unfold erase_fix.
  pose proof F as Fp. rewrite focus_up in Fp. pose proof F as Fs. rewrite focus_other in Fs.
  assert (∃ cs, rbt sib cs (S m)) as [cs Hs] by (inversion Hk; eauto).
  apply wp_bind, (wp_get_fld_opp _ _ _ _ _ _ _ _ Fp).
  assert (∃ x on far, sib = nd d cs x on far) as (x & on & far & ->).
  { inversion Hs; subst; (destruct d; [by eexists _, _, _|by eexists _, _, _]). }
  rewrite adr_nd. apply wp_bind, (wp_get_color _ _ _ _ _ _ _ _ Fs).
  apply rbt_nd_inv in Hs as [_ Hs]. destruct cs.
  - destruct Hs as [Hon Hof]. apply wp_bind, wp_bind, (wp_set_color _ _ _ _ Black _ _ _ _ Fs).
    intros s1 F1. rewrite focus_up, nd_opp in F1.
    apply wp_bind, (wp_set_color _ _ _ _ Red _ _ _ _ F1). intros s2 F2.
    apply wp_bind, (wp_rotate _ _ _ _ _ _ _ _ _ _ _ F2). intros s3 F3.
    rewrite <- !focus_up in F3. pose proof F3 as Fp3. rewrite focus_up in Fp3.
    apply (wp_get_fld_opp _ _ _ _ _ _ _ _ Fp3).
    inversion Hk; subst; [by match goal with H : rbt (nd _ _ _ _ _) _ _ |- _ =>
      apply rbt_nd_inv in H as [? _] end|].
    assert (∃ y a b ca cb, on = nd d Black y a b ∧ rbt a ca m ∧ rbt b cb m)
      as (y & a & b & ca & cb & -> & Ha & Hb).
    { inversion Hon; subst. destruct d; simpl; eauto 10. }
    rewrite adr_nd. eapply erase_black_spec; [exact F3|done|done|done|..].
    + constructor; [done|]. by eapply rbk_Black.
    + done.
    + intros r s' Hr. apply HQ. simpl plug in Hr.
      by rewrite (inorder_plug_eq _ _ _ (inorder_rotate _ _ _ Black Red _ _ _ _ _)) in Hr.
  - destruct Hs as (m' & ca & cb & [= <-] & Hon & Hof). apply wp_bind, wp_ret.
    eapply erase_black_spec; [exact F|done|exact Hon|exact Hof|done| |exact HQ]. lia.
Qed.

(** The loop of [__rb_erase_color]. *)
Lemma wp_erase_color fuel s k t m (Q : unit → rb_state → Prop) :
  focus h0 s k t → rbt t Black m ∨ tcol t = Red ∧ almost t m → rbk k Black (S m) →
  (S (length k) < fuel)%nat →
  (∀ s' t', is_rbtree h0 s' t' → inorder t' = inorder (plug k t) → Q tt s') →
  wp (__rb_erase_color fuel (adr t) (cpar k)) Q s.
Proof.
  intros F Ht Hk Hf HQ. unfold __rb_erase_color. apply wp_bind.
  set (l := inorder (plug k t)) in *.
  apply wp_mono with (P := λ node s', ∃ k t m, focus h0 s' k t ∧ node = adr t ∧
    rbt (recolor Black t) Black m ∧ rbk k Black m ∧ inorder (plug k t) = l).
  2: { intros node s' (k' & t' & m' & F' & -> & Hm & Hk' & El).
       apply (wp_blacken _ _ _ _ F'). intros s2 F2. rewrite focus_plug in F2.
       apply (HQ s2 (plug k' (recolor Black t'))).
       - split; [done|]. by eapply rbt_plug.
       - rewrite <- El. apply inorder_plug_eq, inorder_recolor. }
  assert (∀ t m, almost t m → tcol t = Black → rbt t Black m) as Hab.
  { intros t1 m1 [?|(a & x & b & ca & cb & -> & _)]; done. }
  assert (∀ t m, almost t m → tcol t = Red → rbt (recolor Black t) Black (S m)) as Har.
  { intros t1 m1 [H1|(a & x & b & ca & cb & -> & H1 & H2)] Hc; [|by econstructor].
    apply rbt_tcol in H1. congruence. }
  apply wp_loop with (n := S (length k)) (I := λ n '(node, parent) s,
    ∃ k t m, focus h0 s k t ∧ node = adr t ∧ parent = cpar k ∧ almost t m ∧
      rbk k Black (S m) ∧ inorder (plug k t) = l ∧ (tcol t = Red ∨ (length k < n)%nat)); [|
    |lia].
  2: { exists k, t, m. split; [done|]. split; [done|]. split; [done|].
       split; [destruct Ht as [?|[_ ?]]; [by left|done]|]. split; [done|]. split; [done|]. right. lia. }
  clear F Ht Hk Hf HQ. clearbody l. clear s k t m.
  intros n [node parent] s (k & t & m & F & -> & -> & Ht & Hk & El & Hn).
  apply wp_bind, (wp_is_black _ _ _ _ F). apply wp_bind, wp_gets.
  destruct (decide (tcol t = Red)) as [Hc|Hc].
  { rewrite bool_decide_eq_false_2 by (by rewrite Hc). apply wp_ret.
    exists k, t, (S m). auto 10. }
  assert (tcol t = Black) as Hb by by destruct (tcol t). rewrite bool_decide_eq_true_2 by done.
  specialize (Hab _ _ Ht Hb). destruct k as [|[d c p o] k].
  { rewrite (focus_root _ _ F), Z.eqb_refl. apply wp_ret. destruct (rbt_blacken _ _ _ Hab) as [m' ?].
    exists [], t, m'. split; [done|split; [done|split; [done|split; [constructor|done]]]]. }
  pose proof F as Fp. rewrite focus_up in Fp.
  rewrite (proj2 (Z.eqb_neq _ _) (focus_not_root _ _ _ _ F)). simpl cpar.
  assert (adr o ≠ NULL) as Ho.
  { assert (∃ co, rbt o co (S m)) as [co Ho] by (inversion Hk; eauto).
    intros E'. apply (focus_adr _ _ _ (proj1 (focus_other _ _ _ _ _ _ _) F)) in E' as ->. inversion Ho. }
  simpl. apply wp_bind. eapply wp_get_fld_side; [exact Fp|by right|]. intros v ->. rewrite side_if.
  eapply erase_fix_spec; [exact F|done..|]. simpl in El. rewrite El. intros [[node' parent']|node'] s' Hs'.
  - destruct Hn as [Hn|Hn]; [congruence|]. exists (S (length k)). split; [exact Hn|exact Hs'].
  - destruct Hs' as (t' & F' & -> & [m' Hm'] & Ei). destruct (rbt_blacken _ _ _ Hm') as [m2 ?].
    exists [], t', m2. split; [done|split; [done|split; [done|split; [constructor|done]]]].
Qed.

(** Unlinking a node with no child on side [d]. *)
Lemma wp_unlink_node s k d c x ch (Q : Z * Z → rb_state → Prop) :
  focus h0 s k (nd d c x E ch) →
  (∀ s' n, focus (<[x := n]> h0) s' k ch → rb_heap s' !! x = Some n → rb_parent n = cpar k →
     Q (cpar k, cval c) s') →
  wp (unlink_node x (adr ch)) Q s.
Proof.
  intros F HQ. unfold unlink_node.
  apply wp_bind, (wp_get_parent _ _ _ _ _ _ _ _ F), wp_bind, (wp_get_color _ _ _ _ _ _ _ _ F).
  apply focus_node in F as (Hx & _ & Hch & Hk & Hd & Ho). simpl in Hd, Ho.
  pose proof Hd as Hd'. apart Hd'.
  apply wp_bind, (wp_reparent _ x (cpar k)); [done|autorewrite with apart; repeat split; nin|].
  intros h1 Hch1 Hsame1. apply wp_bind, wp_relink.
  { simpl. eapply krep_agree; [|exact Hk]. intros z Hz. apply Hsame1.
    intros Hz'. unfold dj in *. naive_solver. }
  { autorewrite with apart. repeat split; nin. }
  simpl. intros s2 Hk2 Hsame2. apply wp_ret.
  assert (rb_heap s2 !! x = Some (mk d (cpar k) c (adr E) (adr ch))) as Hx2
    by (rewrite Hsame2, Hsame1 by done; done).
  eapply HQ; [|exact Hx2|by destruct d]. split; [done|]. split; [|split].
  - eapply rep_agree; [|exact Hch1]. intros z Hz. apply Hsame2. unfold dj in *. naive_solver.
  - autorewrite with apart. repeat split; nin.
  - intros z Hz. apply not_elem_of_cons in Hz as [Hz0 Hz]. apply not_elem_of_app in Hz as [Hz1 Hz2].
    destruct (decide (z = x)) as [->|Hzx].
    + by rewrite lookup_insert_eq.
    + rewrite lookup_insert_ne, Hsame2, Hsame1 by done. apply Ho. autorewrite with apart. done.
Qed.

(** Redirecting the pointers to a node [x] to [y]. *)
Lemma wp_graft s f k c x y l r (Q : unit → rb_state → Prop) :
  f (adr l) y = reparent (adr l) y →
  rb_heap s !! x = Some (mk L (cpar k) c (adr l) (adr r)) →
  rep (rb_heap s) x l → rep (rb_heap s) x r → krep (rb_heap s) (rb_root s) k x →
  NoDup (NULL :: x :: addrs l ++ addrs r ++ kaddrs k) →
  (∀ s', rep (rb_heap s') y l → rep (rb_heap s') y r → krep (rb_heap s') (rb_root s') k y →
     (∀ z, z ∉ addrs l ++ addrs r ++ kaddrs k → rb_heap s' !! z = rb_heap s !! z) → Q tt s') →
  wp (graft f x y) Q s.
Proof.
  intros Hf Hx Hl Hr Hk Hd HQ. pose proof Hd as Hd'. apart Hd'. unfold graft, get_parent, get_fld.
  apply wp_bind, wp_bind. eapply wp_gets_opt; [exact Hx|]. apply wp_ret. rewrite parent_mk.
  apply wp_bind, wp_relink; [done|autorewrite with apart; repeat split; nin|].
  intros s1 Hk1 Hsame1. apply wp_bind, wp_bind.
  eapply wp_gets_opt; [rewrite Hsame1 by done; exact Hx|]. apply wp_ret. rewrite fld_mk, Hf.
  apply wp_bind, (wp_reparent _ x).
  { eapply rep_agree; [|exact Hl]. intros z Hz. apply Hsame1. unfold dj in *. naive_solver. }
  { autorewrite with apart. repeat split; nin. }
  intros h2 Hl2 Hsame2. apply wp_bind, wp_bind.
  eapply wp_gets_opt; [simpl; rewrite Hsame2, Hsame1 by done; exact Hx|]. apply wp_ret.
  change R with (opp L). rewrite fld_opp_mk. apply (wp_reparent _ x).
  { simpl. eapply rep_agree; [|exact Hr]. intros z Hz. unfold dj in *.
    rewrite Hsame2, Hsame1 by naive_solver. done. }
  { autorewrite with apart. repeat split; nin. }
  simpl. intros h3 Hr3 Hsame3. unfold dj in *. apply HQ; simpl; [|done| |].
  - eapply rep_agree; [|exact Hl2]. intros z Hz. apply Hsame3. naive_solver.
  - eapply krep_agree; [|exact Hk1]. intros z Hz. rewrite Hsame3, Hsame2 by naive_solver. done.
  - intros z Hz. rewrite !not_elem_of_app in Hz. destruct Hz as (? & ? & ?).
    by rewrite Hsame3, Hsame2, Hsame1.
Qed.

(** The node at the end of a path of left (right) children. *)
Lemma wp_go_down fuel d s k t (Q : Z → rb_state → Prop) :
  focus h0 s k t → t ≠ E → (height t ≤ fuel)%nat →
  (∀ kp c y b, t = plug kp (nd d c y E b) → Forall (λ f, f_side f = d) kp →
     focus h0 s (kp ++ k) (nd d c y E b) → Q y s) →
  wp (go_down fuel d (adr t)) Q s.
Proof.
  intros F Hne Hf HQ. unfold go_down.
  apply wp_loop with (n := (height t - 1)%nat) (I := λ n x s', s' = s ∧ ∃ kp t', x = adr t' ∧ t' ≠ E ∧
    t = plug kp t' ∧ Forall (λ f, f_side f = d) kp ∧ focus h0 s (kp ++ k) t' ∧ (height t' ≤ S n)%nat).
  - intros n x ? (-> & kp & t' & -> & Hne' & Et & Hkp & F' & Hn).
    assert (∃ c y a b, t' = nd d c y a b ∧ (height a ≤ n)%nat) as (c & y & a & b & -> & Ha).
    { destruct t' as [|c a y b]; [done|]. simpl in Hn.
      destruct d; [exists c, y, a, b|exists c, y, b, a]; (split; [done|lia]). }
    rewrite adr_nd. apply wp_bind, (wp_get_fld _ _ _ _ _ _ _ _ F').
    pose proof F' as Fa. rewrite <- focus_up in Fa.
    destruct (Z.eqb_spec (adr a) NULL) as [E0|E0].
    + apply (focus_adr _ _ _ Fa) in E0 as ->. apply wp_ret. by eapply HQ.
    + apply wp_ret. destruct n as [|n]; [destruct a; simpl in *; [done|lia]|].
      exists n. split; [lia|]. split; [done|]. exists (Frame d c y b :: kp), a.
      split; [done|]. split; [by intros ->|]. split; [exact Et|].
      split; [by constructor|]. by split.
  - split; [done|]. exists [], t. split; [done|split; [done|split; [done|]]].
    split; [done|split; [done|lia]].
  - destruct t; simpl in *; [done|lia].
Qed.
End erase.

Section erase_node.
Implicit Types (s : rb_state) (t o : tree) (k : ctx).

Lemma plug_app k1 k2 t : plug (k1 ++ k2) t = plug k2 (plug k1 t).
Proof. revert t. induction k1 as [|[d c x o] k1 IH]; intros t; simpl; [done|]. apply IH. Qed.
Lemma focus_app h0 s k1 k2 t : focus h0 s (k1 ++ k2) t ↔ focus h0 s k2 (plug k1 t).
Proof. by rewrite focus_plug, plug_app, <- focus_plug. Qed.
Lemma kaddrs_app k1 k2 : kaddrs (k1 ++ k2) = kaddrs k1 ++ kaddrs k2.
Proof. induction k1 as [|f k1 IH]; simpl; [done|]. by rewrite IH, <- app_assoc. Qed.
Lemma all_app k1 k2 t : all (k1 ++ k2) t ≡ₚ all k2 (plug k1 t).
Proof. by rewrite all_plug, plug_app, <- all_plug. Qed.
Lemma before_app k1 k2 : before (k1 ++ k2) = before k2 ++ before k1.
Proof.
  induction k1 as [|[[] c x o] k1 IH]; simpl; [by rewrite app_nil_r|done|].
  by rewrite IH, <- app_assoc.
Qed.
Lemma after_app k1 k2 : after (k1 ++ k2) = after k1 ++ after k2.
Proof.
  induction k1 as [|[[] c x o] k1 IH]; simpl; [done| |done]. by rewrite IH, <- app_assoc.
Qed.
Lemma before_L k : Forall (λ f, f_side f = L) k → before k = [].
Proof. induction 1 as [|[d c x o] k Hd _ IH]; simpl in *; [done|]. by subst. Qed.
Lemma after_R k : Forall (λ f, f_side f = R) k → after k = [].
Proof. induction 1 as [|[d c x o] k Hd _ IH]; simpl in *; [done|]. by subst. Qed.
Lemma plug_not_E k t : t ≠ E → plug k t ≠ E.
Proof.
  revert t. induction k as [|[d c x o] k IH]; intros t Ht; simpl; [done|].
  apply IH. by destruct d.
Qed.

(** Every node is the root of a subtree, with the nodes before and after it. *)
Lemma locate t x xs ys :
  inorder t = xs ++ x :: ys →
  ∃ k c l r, t = plug k (T c l x r) ∧ xs = before k ++ inorder l ∧ ys = inorder r ++ after k.
Proof.
  revert xs ys. induction t as [|c l IHl y r IHr]; intros xs ys H; simpl in H.
  { by destruct xs. }
  apply app_eq_inv in H as [(w & El & Er)|(w & El & Er)].
  - destruct w as [|z w]; simpl in Er.
    + injection Er as -> ->. exists [], c, l, r. simpl. rewrite app_nil_r in El.
      split; [done|]. by rewrite app_nil_r.
    + injection Er as -> ->. destruct (IHl _ _ El) as (k & c' & l' & r' & -> & -> & ->).
      exists (k ++ [Frame L c y r]), c', l', r'. rewrite plug_app, before_app, after_app. simpl.
      split; [done|]. split; [done|]. by rewrite app_nil_r, <- app_assoc.
  - destruct w as [|z w]; simpl in Er.
    + injection Er as -> <-. exists [], c, l, r. rewrite app_nil_r in El. simpl.
      split; [done|]. by rewrite app_nil_r.
    + injection Er as <- Er. destruct (IHr _ _ Er) as (k & c' & l' & r' & -> & -> & ->).
      exists (k ++ [Frame R c y l]), c', l', r'. rewrite plug_app, before_app, after_app. simpl.
      split; [done|]. split; [by rewrite El, <- !app_assoc|]. by rewrite app_nil_r.
Qed.

Lemma rbk_rename kp d c x y o k c' n :
  rbk (kp ++ Frame d c x o :: k) c' n → rbk (kp ++ Frame d c y o :: k) c' n.
Proof.
  revert c' n. induction kp as [|[d1 c1 x1 o1] kp IH]; intros c' n H; simpl in *;
    inversion H; subst; econstructor; eauto.
Qed.

(** After a node of colour [c] has left the tree. *)
Lemma wp_recolor h0 fuel s k c ch m (Q : unit → rb_state → Prop) :
  focus h0 s k ch →
  match c with
  | Red => rbt ch Black m ∧ rbk k Red m
  | Black => (∃ cc, rbt ch cc m) ∧ rbk k Black (S m)
  end →
  (S (length k) < fuel)%nat →
  (∀ s' t', is_rbtree h0 s' t' → inorder t' = inorder (plug k ch) → Q tt s') →
  wp (if cval c =? RB_BLACK then __rb_erase_color fuel (adr ch) (cpar k) else mret tt) Q s.
Proof.
  intros F Hc Hf HQ. destruct c; simpl.
  - destruct Hc as [Hch Hk]. apply wp_ret. apply (HQ s (plug k ch)); [|done].
    split; [by rewrite <- focus_plug|]. eapply rbt_plug; [done|by eapply rbk_weaken].
  - destruct Hc as [[cc Hch] Hk]. eapply wp_erase_color; [exact F| |exact Hk|done|done].
    inversion Hch; subst; [by left|right|by left]. split; [done|]. right. eauto 10.
Qed.

(** The successor takes the place of the node. *)
Lemma wp_succeed {A} h0 s k c l x r y n (m2 : rbM A) (Q : A → rb_state → Prop) :
  focus (<[y := n]> h0) s k (T c l x r) → y ∉ all k (T c l x r) → is_Some (rb_heap s !! y) →
  l ≠ E →
  (∀ s' v, focus (<[x := v]> h0) s' k (T c l y r) → wp m2 Q s') →
  wp (v ← node_get x; node_upd y (λ _, v);; graft set_parent x y;; m2) Q s.
Proof.
  intros F Hy [ny Hny] Hl HQ. pose proof (focus_get _ _ L _ _ _ _ F) as [Hx _].
  destruct (proj1 (focus_node _ _ L _ _ _ _) F) as (_ & Hlr & Hrr & Hk & Hd & Ho).
  eapply wp_node_get; [exact Hx|]. apply wp_bind. eapply wp_node_upd; [exact Hny|].
  unfold all in Hy. simpl in Hy. apart Hy. pose proof Hd as Hd'. apart Hd'.
  apply wp_bind. eapply wp_graft; simpl.
  { unfold reparent. rewrite (proj2 (Z.eqb_neq (adr l) NULL)); [done|].
    destruct l as [|? ? z ?]; [done|]. simpl. simpl in *. autorewrite with apart in *.
    destruct_and?. congruence. }
  { rewrite lookup_insert_ne by done. exact Hx. }
  { by apply rep_upd. }
  { by apply rep_upd. }
  { by apply krep_upd. }
  { done. }
  intros s' Hl' Hr' Hk' Hsame. apply (HQ s' (mk L (cpar k) c (adr l) (adr r))).
  assert (rb_heap s' !! y = Some (mk L (cpar k) c (adr l) (adr r))) as Ey.
  { rewrite Hsame, lookup_insert_eq; [done|]. autorewrite with apart. done. }
  apply (focus_node _ _ L). split; [exact Ey|]. split; [done|]. split; [done|]. split; [done|].
  split; [autorewrite with apart; repeat split; nin|].
  intros z Hz. autorewrite with apart in Hz. destruct_and? Hz.
  destruct (decide (z = x)) as [->|Hzx].
  - rewrite lookup_insert_eq, Hsame, lookup_insert_ne; [done|done|].
    autorewrite with apart. done.
  - rewrite lookup_insert_ne, Hsame, lookup_insert_ne by (autorewrite with apart; done).
    rewrite Ho by (autorewrite with apart; done). by rewrite lookup_insert_ne.
Qed.

(** A node with one child at most, after its child has taken its place. *)
Lemma wp_erase_child h0 fuel s k c l x r ch n (Q : unit → rb_state → Prop) :
  focus h0 s k ch → l = E ∧ ch = r ∨ r = E ∧ ch = l →
  rbt (plug k (T c l x r)) Black n → (S (length k) < fuel)%nat →
  (∀ s' t', is_rbtree h0 s' t' → inorder t' = (before k ++ inorder l) ++ inorder r ++ after k → Q tt s') →
  wp (if cval c =? RB_BLACK then __rb_erase_color fuel (adr ch) (cpar k) else mret tt) Q s.
Proof.
  intros F Hch Hn Hf HQ. apply rbt_unplug in Hn as (c0 & m & Hm & Hk).
  eapply (wp_recolor _ _ _ _ _ _ (pred m)); [exact F| |done|].
  - destruct Hch as [[-> ->]|[-> ->]];
      inversion Hm as [|? ? ? ? Hl Hr|? ? ? cl cr ? Hl Hr]; subst;
      [inversion Hl|inversion Hl|inversion Hr|inversion Hr]; subst; simpl; eauto.
  - intros s' t' Ht' Ei. apply (HQ s' t' Ht'). rewrite Ei, inorder_plug.
    destruct Hch as [[-> ->]|[-> ->]]; simpl; [by rewrite app_nil_r|by rewrite <- app_assoc].
Qed.

(** The parent of the successor [y], if [y] is put in the place of [x]. *)
Lemma successor_parent h0 s kp c x y l k b : focus h0 s (kp ++ Frame R c x l :: k) b →
  (if cpar (kp ++ Frame R c x l :: k) =? x then y else cpar (kp ++ Frame R c x l :: k)) =
  cpar (kp ++ Frame R c y l :: k).
Proof.
  intros F%focus_NoDup. destruct kp as [|[d1 c1 x1 o1] kp]; simpl; [by rewrite Z.eqb_refl|].
  unfold all in F. simpl in F. rewrite kaddrs_app in F.
  rewrite (proj2 (Z.eqb_neq x1 x)); [done|]. intros ->. apart F. congruence.
Qed.

Lemma wp_erase fuel h0 s k c l x r n (Q : unit → rb_state → Prop) :
  focus h0 s k (T c l x r) → rbt (plug k (T c l x r)) Black n →
  (S (rb_depth (length (inorder (plug k (T c l x r))))) < fuel)%nat →
  (∀ s' t' v, is_rbtree (<[x := v]> h0) s' t' →
     inorder t' = (before k ++ inorder l) ++ inorder r ++ after k → Q tt s') →
  wp (rb_erase fuel x) Q s.
Proof.
  intros F Hn Hf HQ. pose proof (rbt_depth _ _ _ Hn) as Hdep.
  assert (length k + height (T c l x r) < fuel)%nat as Hlen by lia. clear Hf Hdep.
  simpl in Hlen.
  pose proof (proj2 (focus_up s L c x r k l) F) as Fl.
  pose proof Fl as Fr. rewrite focus_other in Fr. unfold rb_erase.
  apply wp_bind, (wp_get_fld _ _ L _ _ _ _ _ F), wp_bind, (wp_get_fld_opp _ _ L _ _ _ _ _ F).
  apply wp_bind. destruct (Z.eqb_spec (adr l) NULL) as [E0|E0].
  { apply (focus_adr _ _ _ Fl) in E0 as ->. apply wp_bind, (wp_unlink_node _ _ L _ _ _ _ F).
    intros s1 v F1 _ _. apply wp_ret. cbv beta iota.
    eapply wp_erase_child; [exact F1|by left|exact Hn|lia|]. intros s' t'. apply HQ. }
  destruct (Z.eqb_spec (adr r) NULL) as [E1|E1].
  { apply (focus_adr _ _ _ Fr) in E1 as ->. apply wp_bind, (wp_unlink_node _ _ R _ _ _ _ F).
    intros s1 v F1 _ _. apply wp_ret. cbv beta iota.
    eapply wp_erase_child; [exact F1|by right|exact Hn|lia|]. intros s' t'. apply HQ. }
  assert (r ≠ E) as Hrne by by intros ->. assert (l ≠ E) as Hlne by by intros ->.
  apply wp_bind, (wp_go_down _ _ _ _ _ _ Fr); [done|lia|].
  intros kp cy y b Er Hkp Fy. subst r. simpl opp in Fy.
  apply wp_bind, (wp_get_fld_opp _ _ L _ _ _ _ _ Fy), wp_bind, (wp_unlink_node _ _ L _ _ _ _ Fy).
  intros s1 v F1 Hv Hvp. apply wp_bind. unfold get_parent. eapply wp_node_get; [exact Hv|].
  apply wp_ret. cbv beta zeta. cbn [fst snd].
  set (k1 := kp ++ Frame R c x l :: k) in *.
  set (k2 := kp ++ Frame R c y l :: k).
  pose proof (successor_parent _ _ _ _ _ y _ _ _ F1 : _ = cpar k2) as Hpar. fold k1 in Hpar.
  rewrite Hvp, Hpar. pose proof F1 as Fx. unfold k1 in Fx. rewrite focus_app, focus_up in Fx.
  apply (wp_succeed _ _ _ _ _ _ _ y v _ _ Fx).
  - change (T c l x (plug kp b)) with (nd R c x (plug kp b) l).
    rewrite <- all_up, <- all_app. fold k1. apply focus_NoDup in Fy. rewrite all_node in Fy.
    unfold all. simpl in Fy. apart Fy. autorewrite with apart. repeat split; done.
  - by exists v.
  - done.
  - intros s3 v' F3. apply wp_ret. cbv beta iota.
    change (T c l y (plug kp b)) with (nd R c y (plug kp b) l) in F3.
    rewrite <- focus_up, <- focus_app in F3. fold k2 in F3.
    change (plug k (T c l x (plug kp (nd L cy y E b)))) with
      (plug (Frame R c x l :: k) (plug kp (nd L cy y E b))) in Hn.
    rewrite <- plug_app in Hn. fold k1 in Hn. apply rbt_unplug in Hn as (c0 & m & Hm & Hk).
    assert (length k2 = length k1) as Ek by (unfold k1, k2; rewrite !length_app; done).
    apply (rbk_rename kp R c x y l k) in Hk. fold k2 in Hk.
    assert (length k1 ≤ length k + height (plug kp (nd L cy y E b)))%nat as Hlk.
    { pose proof (height_plug kp (nd L cy y E b)). unfold k1. rewrite length_app. simpl in *. lia. }
    eapply (wp_recolor _ _ _ _ _ _ (pred m)); [exact F3| |lia|].
    + apply rbt_nd_inv in Hm as [-> Hm]. destruct cy.
      * destruct Hm as [H1 H2]. inversion H1; subst. done.
      * destruct Hm as (m' & ca & cb & -> & H1 & H2). inversion H1; subst. simpl. eauto.
    + intros s' t' Ht' Ei. eapply HQ; [exact Ht'|]. rewrite Ei. unfold k2.
      rewrite plug_app, !inorder_plug. simpl. rewrite (before_L kp) by done.
      simpl. by rewrite <- !app_assoc.
Qed.
End erase_node.

(** C5: erasing any node gives a red-black tree with the other nodes in their
    order; nothing else in memory changes but the node that was erased, and the
    loops are bounded by twice the logarithm of the number of nodes. *)
Theorem rb_erase_spec h0 s t xs x ys fuel :
  is_rbtree h0 s t → inorder t = xs ++ x :: ys →
  (S (rb_depth (length (inorder t))) < fuel)%nat →
  ∃ s' t' v, rb_erase fuel x s = Ret (tt, s') ∧ is_rbtree (<[x := v]> h0) s' t' ∧
    inorder t' = xs ++ ys.
Proof.
  intros [F [n Hn]] Hi Hf. destruct (locate _ _ _ _ Hi) as (k & c & l & r & -> & -> & ->).
  rewrite <- focus_plug in F.
  assert (wp (rb_erase fuel x) (λ _ s', ∃ t' v, is_rbtree (<[x := v]> h0) s' t' ∧
    inorder t' = (before k ++ inorder l) ++ inorder r ++ after k) s) as Hw.
  { eapply wp_erase; [exact F|exact Hn|exact Hf|]. intros s' t' v ??. by exists t', v. }
  apply wp_run in Hw as ([] & s' & Hr & t' & v & ? & ?). by exists s', t', v.
Qed.

Section traversal.
Implicit Types (s : rb_state) (t o : tree) (k : ctx).

Definition edge (d : side) (l : list Z) : Z :=
  match d with L => hd NULL l | R => default NULL (last l) end.
(** What is beyond the hole on side [d]. *)
Definition beyond (d : side) (k : ctx) : list Z := match d with L => before k | R => after k end.

Lemma edge_plug d kp c y b :
  Forall (λ f, f_side f = d) kp → edge d (inorder (plug kp (nd d c y E b))) = y.
Proof.
  intros H. rewrite inorder_plug. destruct d; simpl.
  - by rewrite before_L.
  - by rewrite after_R, app_nil_r, app_assoc, last_snoc.
Qed.

Lemma wp_rb_end h0 fuel d s t :
  focus h0 s [] t → (height t ≤ fuel)%nat → rb_end d fuel s = Ret (edge d (inorder t), s).
Proof.
  intros F Hf. assert (wp (rb_end d fuel) (λ v s', v = edge d (inorder t) ∧ s' = s) s) as Hw.
  2: { apply wp_run in Hw as (v & s' & Hr & -> & ->). done. }
  unfold rb_end. apply wp_bind, wp_gets. rewrite (focus_root _ _ F).
  destruct (Z.eqb_spec (adr t) NULL) as [E0|E0].
  - apply (focus_adr _ _ _ F) in E0 as ->. apply wp_ret. by destruct d.
  - apply (wp_go_down _ _ _ _ _ _ F); [by intros ->|done|].
    intros kp c y b -> Hkp _. by rewrite edge_plug.
Qed.

Lemma wp_climb h0 fuel d s k t :
  focus h0 s k t → t ≠ E → (length k < fuel)%nat →
  wp (loop fuel (λ node,
    p ← get_parent node;
    if p =? NULL then mret (inr p)
    else
      c ← get_fld d p;
      if node =? c then mret (inl p) else mret (inr p)) (adr t))
    (λ v s', v = edge (opp d) (beyond d k) ∧ s' = s) s.
Proof.
  intros F Hne Hf. apply wp_loop with (n := length k) (I := λ n x s', s' = s ∧
    ∃ k' t', x = adr t' ∧ t' ≠ E ∧ focus h0 s k' t' ∧ (length k' ≤ n)%nat ∧
      edge (opp d) (beyond d k') = edge (opp d) (beyond d k)); [| |done].
  2: { split; [done|]. by exists k, t. }
  clear. intros n x ? (-> & k' & t & -> & Hne & F & Hn & <-).
  destruct t as [|c a y b]; [done|]. simpl adr.
  apply wp_bind, (wp_get_parent _ _ L _ _ _ _ _ F).
  destruct k' as [|[d' c' p o] k']; simpl cpar.
  { apply wp_ret. by destruct d. }
  pose proof F as Fp. rewrite focus_up in Fp. pose proof (focus_get _ _ _ _ _ _ _ Fp) as [_ Hp].
  rewrite (proj2 (Z.eqb_neq p NULL)) by done.
  destruct (decide (d' = d)) as [->|Hd].
  - apply wp_bind, (wp_get_fld _ _ _ _ _ _ _ _ Fp). simpl adr. rewrite Z.eqb_refl. apply wp_ret.
    simpl in Hn. exists (length k'). split; [lia|]. split; [done|].
    eexists k', _. rewrite adr_nd. split; [done|]. split; [|split; [exact Fp|split; [lia|]]].
    + by destruct d.
    + destruct d; simpl; [|done].
      rewrite ?app_assoc. done.
  - assert (d' = opp d) as -> by by destruct d, d'.
    apply wp_bind. rewrite nd_opp in Fp. apply (wp_get_fld _ _ _ _ _ _ _ _ Fp).
    assert (y ≠ adr o) as Hyo.
    { intros ->. apply focus_NoDup in F. unfold all in F. simpl in F. apart F.
      destruct (adr_cases o); congruence. }
    rewrite (proj2 (Z.eqb_neq y (adr o))) by done. apply wp_ret. split; [|done].
    destruct d; simpl; [by rewrite app_assoc, last_snoc|done].
Qed.

Lemma wp_rb_step h0 fuel d s k c x a b :
  focus h0 s k (nd d c x a b) → (length k < fuel)%nat → (height a ≤ fuel)%nat →
  rb_step d fuel x s =
    Ret (match a with E => edge (opp d) (beyond d k) | _ => edge (opp d) (inorder a) end, s).
Proof.
  intros F Hk Ha.
  assert (wp (rb_step d fuel x) (λ v s', v = match a with
    E => edge (opp d) (beyond d k) | _ => edge (opp d) (inorder a) end ∧ s' = s) s) as Hw.
  2: { apply wp_run in Hw as (v & s' & Hr & -> & ->). done. }
  unfold rb_step. pose proof F as Fa. rewrite <- focus_up in Fa.
  apply wp_bind, (wp_get_fld _ _ _ _ _ _ _ _ F).
  destruct (Z.eqb_spec (adr a) NULL) as [E0|E0]; simpl negb; cbv iota.
  - apply (focus_adr _ _ _ Fa) in E0 as ->.
    pose proof (wp_climb h0 fuel d s k _ F) as Hc. rewrite adr_nd in Hc.
    apply Hc; [by destruct d|done].
  - assert (a ≠ E) as Hne by by intros ->.
    apply (wp_go_down _ _ _ _ _ _ Fa); [done|done|].
    intros kp c' y b' Ea Hkp _. destruct a; [done|]. rewrite Ea, edge_plug; done.
Qed.
End traversal.

(** C31: [rb_first] and [rb_last] return the ends of the tree in its order (NULL
    if it is empty), [rb_next] and [rb_prev] the neighbours of a node (NULL at
    the ends); all of them within twice the logarithm of the number of nodes. *)
Theorem rb_traversal h0 s t fuel :
  is_rbtree h0 s t → (rb_depth (length (inorder t)) < fuel)%nat →
  rb_first fuel s = Ret (hd NULL (inorder t), s) ∧
  rb_last fuel s = Ret (default NULL (last (inorder t)), s) ∧
  ∀ xs x ys, inorder t = xs ++ x :: ys →
    rb_next fuel x s = Ret (hd NULL ys, s) ∧
    rb_prev fuel x s = Ret (default NULL (last xs), s).
Proof.
  intros [F [n Hn]] Hf. pose proof (rbt_depth [] t n Hn) as Ht. simpl in Ht.
  split; [by apply (wp_rb_end h0 fuel L s t); [|lia]|].
  split; [by apply (wp_rb_end h0 fuel R s t); [|lia]|].
  intros xs x ys Hi. destruct (locate _ _ _ _ Hi) as (k & c & l & r & -> & -> & ->).
  pose proof (rbt_depth _ _ _ Hn) as Hk. simpl in Hk. rewrite <- focus_plug in F.
  split.
  - unfold rb_next. rewrite (wp_rb_step h0 fuel R s k c x r l F) by lia.
    do 2 f_equal. destruct r as [|cr r1 y r2]; [done|]. simpl.
    by destruct (inorder r1).
  - unfold rb_prev. rewrite (wp_rb_step h0 fuel L s k c x l r F) by lia.
    do 2 f_equal. destruct l as [|cl l1 y l2]; [by rewrite app_nil_r|].
    simpl. by rewrite app_assoc, !last_app_cons.
Qed.

(** [rb_replace_node] puts the new node in the place of the old one: the
    shape, the colours and the order of all other nodes stay. *)
Theorem rb_replace_spec h0 s k c l x r y n0 :
  is_rbtree h0 s (plug k (T c l x r)) → rb_heap s !! y = Some n0 →
  y ∉ NULL :: inorder (plug k (T c l x r)) →
  ∃ s' v, rb_replace_node x y s = Ret (tt, s') ∧
    is_rbtree (<[x := v]> h0) s' (plug k (T c l y r)).
Proof.
  intros [F [n Hn]] Hy Hny. rewrite <- focus_plug in F. rewrite <- all_inorder in Hny.
  pose proof (focus_get _ _ L _ _ _ _ F) as [Hx _].
  destruct (proj1 (focus_node _ _ L _ _ _ _) F) as (_ & Hl & Hr & Hk & Hd & Ho).
  unfold all in Hny. simpl in Hny. apart Hny. pose proof Hd as Hd'. apart Hd'.
  assert (wp (rb_replace_node x y) (λ _ s', ∃ v, focus (<[x := v]> h0) s' k (T c l y r)) s) as Hw.
  { unfold rb_replace_node. apply wp_bind. eapply wp_graft; [done|exact Hx|done..|].
    intros s1 Hl1 Hr1 Hk1 Hsame. eapply wp_node_get.
    { rewrite Hsame; [exact Hx|autorewrite with apart; done]. }
    eapply wp_node_upd. { rewrite Hsame; [exact Hy|autorewrite with apart; done]. }
    exists (mk L (cpar k) c (adr l) (adr r)). apply (focus_node _ _ L). simpl.
    rewrite lookup_insert_eq. split; [done|]. split; [by apply rep_upd|].
    split; [by apply rep_upd|]. split; [by apply krep_upd|].
    split; [autorewrite with apart; repeat split; nin|].
    intros z Hz. autorewrite with apart in Hz. destruct_and? Hz. rewrite lookup_insert_ne by done.
    rewrite Hsame by (autorewrite with apart; done). destruct (decide (z = x)) as [->|].
    - by rewrite lookup_insert_eq.
    - rewrite lookup_insert_ne by done. apply Ho. autorewrite with apart. done. }
  apply wp_run in Hw as ([] & s' & Hrun & v & F'). exists s', v. split; [done|].
  rewrite focus_plug in F'. split; [done|]. apply rbt_unplug in Hn as (c0 & m & Hm & Hk').
  apply (rbt_plug k (T c l y r) c0 m); [inversion Hm; subst; by econstructor|done].
Qed.

(** ** Witnesses *)

Module rbtree_witness.
(** Nodes at 2, 4 and 6, and free nodes at 5 and 7. *)
Definition t0 : tree := T Black (T Red E 2 E) 4 (T Red E 6 E).
Definition h : gmap Z rb_node :=
  list_to_map [(2, RbNode 4 RB_RED 0 0); (4, RbNode 0 RB_BLACK 6 2); (6, RbNode 4 RB_RED 0 0);
    (5, RbNode 0 0 0 0); (7, RbNode 0 0 0 0)].
Definition s0 : rb_state := RbState h 4.
(** The place to the left of the node at 6. *)
Definition k5 : ctx := [Frame L Red 6 E; Frame R Black 4 (T Red E 2 E)].

Lemma rbtree_t0 : is_rbtree h s0 t0.
Proof.
  split.
  - split; [done|]. split; [vm_compute; repeat split|]. split; [|done].
    apply (bool_decide_unpack _). by vm_compute.
  - exists 1%nat. repeat econstructor.
Qed.

Lemma rb_insert_witness : ∃ s' t',
  (rb_link_node 5 6 (LinkChild L 6);; rb_insert_color 9 5) s0 = Ret (tt, s') ∧
  is_rbtree h s' t' ∧ inorder t' = [2; 4; 5; 6].
Proof.
  apply (rb_insert_spec h s0 k5 5 (RbNode 0 0 0 0) 9).
  - apply rbtree_t0.
  - by vm_compute.
  - apply (bool_decide_unpack _). by vm_compute.
  - vm_compute. lia.
Defined.

Lemma rb_erase_witness : ∃ s' t' v,
  rb_erase 9 4 s0 = Ret (tt, s') ∧ is_rbtree (<[4 := v]> h) s' t' ∧ inorder t' = [2; 6].
Proof.
  apply (rb_erase_spec h s0 t0 [2] 4 [6] 9).
  - apply rbtree_t0.
  - done.
  - vm_compute. lia.
Defined.

Lemma rb_traversal_witness : rb_next 9 4 s0 = Ret (6, s0) ∧ rb_prev 9 2 s0 = Ret (NULL, s0).
Proof.
  destruct (rb_traversal h s0 t0 9) as (_ & _ & H).
  - apply rbtree_t0.
  - vm_compute. lia.
  - split; [apply (H [2] 4 [6] eq_refl)|apply (H [] 2 [4; 6] eq_refl)].
Defined.

Lemma rb_replace_witness : ∃ s' v, rb_replace_node 4 7 s0 = Ret (tt, s') ∧
  is_rbtree (<[4 := v]> h) s' (T Black (T Red E 2 E) 7 (T Red E 6 E)).
Proof.
  apply (rb_replace_spec h s0 [] Black (T Red E 2 E) 4 (T Red E 6 E) 7 (RbNode 0 0 0 0)).
  - apply rbtree_t0.
  - by vm_compute.
  - apply (bool_decide_unpack _). by vm_compute.
Defined.
End rbtree_witness.
