(* ===== verification/Thread.v ===== *)
(** * Threads, mutexes, atomics and semaphores: src/thread/thread.c, src/thread/thread.h

    An operation runs in the thread [self] (its [pthread_self()]) and is one
    step: a call that waits for another thread gives [Blocked].  The POSIX calls
    are definitions after their documentation; [EBUSY] from destroying a locked
    mutex is what the code relies on.  Unlocking a normal mutex that the thread
    does not hold, and any use of a destroyed one, is undefined ([Fault]).  The
    calls that can fail for lack of resources take their result as an argument,
    and an allocation the address it returns;
    initialising a mutex does not fail.  [snprintf] is a parameter.  The
    list of threads is that of Lists.v, a record embedding its node at offset 0.
    Log messages and the [stk_] fields, which nothing reads, are left out. *)
From stdpp Require Import base tactics list numbers gmap fin_maps strings.
From Stdlib Require Import Ascii.
From S2P Require Import Prelude Lists.
Local Open Scope Z_scope.

Definition SUCCESS : Z := 0.
Definition FAILURE : Z := -1.
Definition TRUE : Z := 1.
Definition FALSE : Z := 0.
Definition MAX_OBJ_NAME : nat := 32.
Definition MUTEX_SIMPLE : Z := 1.
Definition MUTEX_RECURSE : Z := 2.
Definition THREAD_SUSPENDED : Z := 1.
Definition EPERM : Z := 1.
Definition EBUSY : Z := 16.
Definition SEM_VALUE_MAX : Z := 2 ^ 31 - 1.

(** A [pthread_mutex_t]: [pm_owner] is 0 when it is free. *)
Record pthread_mutex := PMutex {
  pm_recursive : bool;
  pm_alive : bool;
  pm_owner : Z;
  pm_count : Z;
}.

Record mdl_mutex_s := Mutex {
  mutex : pthread_mutex;
  mx_obj_name : string;
  nesting_level : Z;
  mx_owner : Z;
  owner_name : string;
}.
Record mdl_atomic_s := Atomic { at_mutex : Z; at_value : Z }.
Record mdl_sem_s := Sem { sem : Z; sem_obj_name : string }.
Record mdl_thread_s := Thread {
  obj_name : string;
  thread : Z;
  tid : Z;
  proc : Z;
  arg : Z;
  suspended_mutex : Z;
}.

Record thr_state := TS {
  t_mutexes : gmap Z mdl_mutex_s;
  t_atomics : gmap Z mdl_atomic_s;
  t_sems : gmap Z mdl_sem_s;
  t_threads : gmap Z mdl_thread_s;
  t_nodes : gmap Z list_head;
  t_tls : gmap Z Z;          (* the value of [thread_tls_id] in each thread *)
  t_called : list (Z * Z);   (* the calls of [proc] with [arg] *)
}.

Definition with_mutexes f t :=
  TS (f (t_mutexes t)) (t_atomics t) (t_sems t) (t_threads t) (t_nodes t) (t_tls t) (t_called t).
Definition with_atomics f t :=
  TS (t_mutexes t) (f (t_atomics t)) (t_sems t) (t_threads t) (t_nodes t) (t_tls t) (t_called t).
Definition with_sems f t :=
  TS (t_mutexes t) (t_atomics t) (f (t_sems t)) (t_threads t) (t_nodes t) (t_tls t) (t_called t).
Definition with_threads f t :=
  TS (t_mutexes t) (t_atomics t) (t_sems t) (f (t_threads t)) (t_nodes t) (t_tls t) (t_called t).
Definition with_thr_nodes n t :=
  TS (t_mutexes t) (t_atomics t) (t_sems t) (t_threads t) n (t_tls t) (t_called t).
Definition with_tls f t :=
  TS (t_mutexes t) (t_atomics t) (t_sems t) (t_threads t) (t_nodes t) (f (t_tls t)) (t_called t).
Definition with_called f t :=
  TS (t_mutexes t) (t_atomics t) (t_sems t) (t_threads t) (t_nodes t) (t_tls t) (f (t_called t)).

#[export] Program Instance thr_NodeHeap : NodeHeap thr_state :=
  {| nodes := t_nodes; with_nodes := with_thr_nodes |}.
Next Obligation. done. Qed.
Next Obligation. done. Qed.
Next Obligation. by intros []. Qed.

Abbreviation thrM := (M thr_state).
Definition mutex_at (m : Z) : thrM mdl_mutex_s := gets_opt (λ t, t_mutexes t !! m).
Definition mutex_upd (m : Z) (f : mdl_mutex_s → mdl_mutex_s) : thrM unit :=
  modify_opt (λ t, (λ x, with_mutexes <[m := f x]> t) <$> t_mutexes t !! m).
Definition atomic_at (a : Z) : thrM mdl_atomic_s := gets_opt (λ t, t_atomics t !! a).
Definition atomic_upd (a : Z) (f : mdl_atomic_s → mdl_atomic_s) : thrM unit :=
  modify_opt (λ t, (λ x, with_atomics <[a := f x]> t) <$> t_atomics t !! a).
Definition sem_at (p : Z) : thrM mdl_sem_s := gets_opt (λ t, t_sems t !! p).
Definition sem_upd (p : Z) (f : mdl_sem_s → mdl_sem_s) : thrM unit :=
  modify_opt (λ t, (λ x, with_sems <[p := f x]> t) <$> t_sems t !! p).
Definition thread_at (p : Z) : thrM mdl_thread_s := gets_opt (λ t, t_threads t !! p).
Definition thread_upd (p : Z) (f : mdl_thread_s → mdl_thread_s) : thrM unit :=
  modify_opt (λ t, (λ x, with_threads <[p := f x]> t) <$> t_threads t !! p).

Definition set_pm (v : pthread_mutex) (x : mdl_mutex_s) : mdl_mutex_s :=
  Mutex v (mx_obj_name x) (nesting_level x) (mx_owner x) (owner_name x).
Definition set_owner (o : Z) (name : string) (x : mdl_mutex_s) : mdl_mutex_s :=
  Mutex (mutex x) (mx_obj_name x) (nesting_level x) o name.
Definition add_level (n : Z) (x : mdl_mutex_s) : mdl_mutex_s :=
  Mutex (mutex x) (mx_obj_name x) (s32 (nesting_level x + n)) (mx_owner x) (owner_name x).

(** ** POSIX *)

Definition pm_take (self : Z) (p : pthread_mutex) : pthread_mutex :=
  PMutex (pm_recursive p) (pm_alive p) self (pm_count p + 1).

Definition pthread_mutex_lock (self m : Z) : thrM Z :=
  x ← mutex_at m;
  let p := mutex x in
  if negb (pm_alive p) then fault
  else if pm_owner p =? 0 then mutex_upd m (set_pm (pm_take self p));; mret 0
  else if (pm_owner p =? self) && pm_recursive p then
    mutex_upd m (set_pm (pm_take self p));; mret 0
  else blocked.

Definition pthread_mutex_trylock (self m : Z) : thrM Z :=
  x ← mutex_at m;
  let p := mutex x in
  if negb (pm_alive p) then fault
  else if (pm_owner p =? 0) || ((pm_owner p =? self) && pm_recursive p) then
    mutex_upd m (set_pm (pm_take self p));; mret 0
  else mret EBUSY.

Definition pthread_mutex_unlock (self m : Z) : thrM Z :=
  x ← mutex_at m;
  let p := mutex x in
  if negb (pm_alive p) then fault
  else if pm_owner p =? self then
    let n := pm_count p - 1 in
    mutex_upd m (set_pm (PMutex (pm_recursive p) true (if n =? 0 then 0 else self) n));;
    mret 0
  else if pm_recursive p then mret EPERM else fault.

Definition pthread_mutex_destroy (m : Z) : thrM Z :=
  x ← mutex_at m;
  let p := mutex x in
  if negb (pm_alive p) then fault
  else if pm_owner p =? 0 then
    mutex_upd m (set_pm (PMutex (pm_recursive p) false 0 0));; mret 0
  else mret EBUSY.

(** ** Thread-local storage *)

(** [rc] is the result of [pthread_setspecific]. *)
Definition mdl_thread_local_set (self rc value : Z) : thrM Z :=
  if rc =? 0 then modify (with_tls <[self := value]>);; mret SUCCESS else mret FAILURE.
Definition mdl_thread_local_get (self : Z) : thrM Z :=
  gets (λ t, default NULL (t_tls t !! self)).
(** [rc] is the result of [pthread_key_create]: the key starts with no values. *)
Definition mdl_thread_local_alloc (rc : Z) : thrM Z :=
  if rc =? 0 then modify (with_tls (λ _, ∅));; mret SUCCESS else mret FAILURE.
(** The values of a deleted key are gone. *)
Definition mdl_thread_local_free : thrM unit := modify (with_tls (λ _, ∅)).

Definition mdl_thread_this (self : Z) : thrM Z := mdl_thread_local_get self.
Definition mdl_thread_is_register (self : Z) : thrM bool :=
  v ← mdl_thread_local_get self; mret (negb (v =? NULL)).

(** ** Mutexes *)

Definition check (status : Z) : Z := if status =? 0 then SUCCESS else FAILURE.

(** [mutex->owner = mdl_thread_this()] and the copy of its name, which reads
    through the pointer. *)
Definition own_mutex (self m : Z) : thrM unit :=
  this ← mdl_thread_this self;
  rec ← thread_at this;
  mutex_upd m (set_owner this (obj_name rec)).

Definition mdl_mutex_lock (self m : Z) : thrM Z :=
  if m =? NULL then mret FAILURE
  else
    status ← pthread_mutex_lock self m;
    (if status =? 0 then mutex_upd m (add_level 1);; own_mutex self m else mret tt);;
    mret (check status).

Definition mdl_mutex_unlock (self m : Z) : thrM Z :=
  if m =? NULL then mret FAILURE
  else
    x ← mutex_at m;
    this ← mdl_thread_this self;
    if negb (mx_owner x =? this) then mret FAILURE
    else
      mutex_upd m (add_level (-1));;
      x ← mutex_at m;
      (if nesting_level x =? 0 then mutex_upd m (set_owner NULL "") else mret tt);;
      status ← pthread_mutex_lock self m;
      mret (check status).

Definition mdl_mutex_trylock (self m : Z) : thrM Z :=
  if m =? NULL then mret FAILURE
  else
    status ← pthread_mutex_trylock self m;
    (if status =? 0 then own_mutex self m;; mutex_upd m (add_level 1) else mret tt);;
    mret (check status).

Definition RETRY : nat := 4.
(** The loop runs at most [RETRY] times. *)
Definition mdl_mutex_destroy (self m : Z) : thrM Z :=
  if m =? NULL then mret FAILURE
  else
    status ← loop (S RETRY) (λ '(retry, status),
      if (retry <? RETRY)%nat then
        status ← pthread_mutex_destroy m;
        if status =? 0 then mret (inr status)
        else if (retry <? RETRY - 1)%nat && (status =? EBUSY) then
          pthread_mutex_unlock self m;; mret (inl (S retry, status))
        else mret (inl (S retry, status))
      else mret (inr status)) (0%nat, 0);
    mret (check status).

Definition mdl_mutex_islocked (self m : Z) : thrM Z :=
  if m =? NULL then mret FALSE
  else
    x ← mutex_at m;
    this ← mdl_thread_this self;
    mret (if mx_owner x =? this then TRUE else FALSE).

(** ** Names *)

Fixpoint has_percent (s : string) : bool :=
  match s with
  | EmptyString => false
  | String c s => Ascii.eqb c "%"%char || has_percent s
  end.
Definition cut (s : string) : string := String.substring 0 (MAX_OBJ_NAME - 1) s.

Section names.
(** The text of a format with one argument. *)
Context (snprintf : string → Z → string).

(** The name of an object: a format is applied to its address. *)
Definition name_of (name : option string) (dflt : string) (obj : Z) : string :=
  let name := default dflt name in
  if has_percent name then cut (snprintf name obj) else cut name.

Definition init_mutex (m : Z) (name : option string) (type : Z) : thrM Z :=
  modify (with_mutexes <[m := Mutex (PMutex (negb (type =? MUTEX_SIMPLE)) true 0 0)
    (name_of name "mtx%p" m) 0 NULL ""]>);;
  mret SUCCESS.

(** [mem] is what [mdl_pool_alloc] returns; [ptr_mutex] and the pool are not
    NULL.  The new pointer is returned with the status. *)
Definition mdl_mutex_create (mem : Z) (name : option string) (type : Z) : thrM (Z * Z) :=
  if mem =? NULL then mret (FAILURE, NULL)
  else
    rc ← init_mutex mem name type;
    if negb (rc =? SUCCESS) then mret (rc, NULL) else mret (SUCCESS, mem).
Definition mdl_mutex_create_simple (mem : Z) (name : option string) : thrM (Z * Z) :=
  mdl_mutex_create mem name MUTEX_SIMPLE.
Definition mdl_mutex_create_recursive (mem : Z) (name : option string) : thrM (Z * Z) :=
  mdl_mutex_create mem name MUTEX_RECURSE.

(** ** Threads *)

Definition main_thread : Z := 0x100.

(** [bzero] on the record and its list node. *)
Definition bzero_thread (desc : Z) : thrM unit :=
  thread_upd desc (λ _, Thread "" 0 0 NULL 0 NULL);;
  set_next desc NULL;; set_prev desc NULL.

(** [tid_] is the result of [gettid], [rc] of [pthread_setspecific]. *)
Definition mdl_thread_register (self tid_ rc : Z) (name : option string) (desc : Z) :
    thrM (Z * Z) :=
  bzero_thread desc;;
  thread_upd desc (λ _,
    Thread (cut (match name with
                 | Some n => if (String.length n <? MAX_OBJ_NAME - 1)%nat
                             then snprintf n self else snprintf "thread_%p" self
                 | None => snprintf "thread_%p" self
                 end)) self tid_ NULL 0 NULL);;
  rc ← mdl_thread_local_set self rc desc;
  if negb (rc =? SUCCESS) then bzero_thread desc;; mret (rc, NULL)
  else INIT_LIST_HEAD main_thread;; mret (SUCCESS, desc).

Definition mdl_thread_init (self tid_ key_rc rc : Z) : thrM Z :=
  r ← mdl_thread_local_alloc key_rc;
  if negb (r =? SUCCESS) then mret r
  else r ← mdl_thread_register self tid_ rc (Some "thread_%p"%string) main_thread; mret (fst r).

Definition set_tid (v : Z) (x : mdl_thread_s) : mdl_thread_s :=
  Thread (obj_name x) (thread x) v (proc x) (arg x) (suspended_mutex x).
Definition set_suspended (v : Z) (x : mdl_thread_s) : mdl_thread_s :=
  Thread (obj_name x) (thread x) (tid x) (proc x) (arg x) v.

(** The new thread [self], until [proc] is called. *)
Definition thread_main (self tid_ rc rec : Z) : thrM unit :=
  rc ← mdl_thread_local_set self rc rec;
  if negb (rc =? SUCCESS) then mret tt
  else
    thread_upd rec (set_tid tid_);;
    list_add rec main_thread;;
    x ← thread_at rec;
    (if negb (suspended_mutex x =? NULL) then
       mdl_mutex_lock self (suspended_mutex x);;
       mdl_mutex_unlock self (suspended_mutex x);; mret tt
     else mret tt);;
    modify (with_called (λ l, l ++ [(proc x, arg x)])).

(** [rec] and [mx] are the addresses of the record and of the mutex, [new] the id of
    the thread that [pthread_create] makes if its result [rc] is 0. *)
Definition mdl_thread_create (self rec mx new rc : Z) (name : option string)
    (proc_ arg_ flags : Z) : thrM (Z * Z) :=
  if proc_ =? NULL then mret (FAILURE, NULL)
  else if rec =? NULL then mret (FAILURE, NULL)
  else
    modify (λ t, with_threads <[rec := Thread (name_of name "thread_%p" rec) 0 0 NULL 0 NULL]>
      (with_thr_nodes (<[rec := Node NULL NULL]> (t_nodes t)) t));;
    st ← (if negb (Z.land flags THREAD_SUSPENDED =? 0) then
      r ← mdl_mutex_create_simple mx None;
      if negb (fst r =? SUCCESS) then mret (fst r)
      else
        thread_upd rec (set_suspended (snd r));;
        mdl_mutex_lock self (snd r);; mret SUCCESS
      else mret SUCCESS);
    if negb (st =? SUCCESS) then mret (st, NULL)
    else
      thread_upd rec (λ x, Thread (obj_name x) (thread x) (tid x) proc_ arg_ (suspended_mutex x));;
      if negb (rc =? 0) then mret (FAILURE, NULL)
      else
        thread_upd rec (λ x, Thread (obj_name x) new (tid x) (proc x) (arg x) (suspended_mutex x));;
        mret (SUCCESS, rec).

(** The ids and names it logs, the main thread first. *)
Definition mdl_thread_dump (fuel : nat) : thrM (list (Z * string)) :=
  x ← thread_at main_thread;
  e ← list_empty main_thread;
  if (e : bool) then mret [(tid x, obj_name x)]
  else
    list_for_each fuel main_thread (λ node l,
      tp ← thread_at node;
      mret (inl (l ++ [(tid tp, obj_name tp)]))) mret [(tid x, obj_name x)].

Definition mdl_thread_getname (p : Z) : thrM string :=
  if p =? NULL then mret ""%string else x ← thread_at p; mret (obj_name x).

Definition mdl_thread_resume (self p : Z) : thrM Z :=
  if p =? NULL then mret FAILURE
  else x ← thread_at p; mdl_mutex_lock self (suspended_mutex x).

(** [result] is that of [pthread_join], [None] if the thread never ends. *)
Definition mdl_thread_join (self p : Z) (result : option Z) : thrM Z :=
  this ← mdl_thread_this self;
  if p =? this then mret FAILURE
  else
    _ ← thread_at p;
    match result with
    | None => blocked
    | Some rc => mret (if rc =? 0 then SUCCESS else FAILURE)
    end.

Definition mdl_thread_destroy (self p : Z) : thrM Z :=
  x ← thread_at p;
  if negb (suspended_mutex x =? NULL) then
    mdl_mutex_destroy self (suspended_mutex x);;
    thread_upd p (set_suspended NULL);;
    mret SUCCESS
  else mret SUCCESS.

(** The time it passes to [nanosleep], and its status. *)
Definition mdl_thread_sleep (msec rc : Z) : (Z * Z) * Z :=
  ((msec / 1000, u32 (msec mod 1000 * 1000000)), if rc =? 0 then SUCCESS else FAILURE).

(** ** Atomics *)

Definition mdl_atomic_create (mem mx initial : Z) : thrM (Z * Z) :=
  if mem =? NULL then mret (FAILURE, NULL)
  else
    r ← mdl_mutex_create mx (Some "atm%p"%string) MUTEX_SIMPLE;
    if negb (fst r =? SUCCESS) then mret (fst r, NULL)
    else
      modify (with_atomics <[mem := Atomic (snd r) initial]>);;
      mret (SUCCESS, mem).

Definition mdl_atomic_destroy (self a : Z) : thrM Z :=
  if a =? NULL then mret FAILURE else x ← atomic_at a; mdl_mutex_destroy self (at_mutex x).

(** [lock; value = f(value); unlock], with the new value. *)
Definition atomic_do (self a : Z) (f : Z → Z) : thrM Z :=
  x ← atomic_at a;
  mdl_mutex_lock self (at_mutex x);;
  atomic_upd a (λ x, Atomic (at_mutex x) (f (at_value x)));;
  x ← atomic_at a;
  mdl_mutex_unlock self (at_mutex x);;
  mret (at_value x).

Definition mdl_atomic_set (self a value : Z) : thrM unit :=
  atomic_do self a (λ _, value);; mret tt.
Definition mdl_atomic_get (self a : Z) : thrM Z := atomic_do self a id.
Definition mdl_atomic_inc_and_get (self a : Z) : thrM Z := atomic_do self a (λ v, s64 (v + 1)).
Definition mdl_atomic_inc (self a : Z) : thrM unit := mdl_atomic_inc_and_get self a;; mret tt.
Definition mdl_atomic_dec_and_get (self a : Z) : thrM Z := atomic_do self a (λ v, s64 (v - 1)).
Definition mdl_atomic_dec (self a : Z) : thrM unit := mdl_atomic_dec_and_get self a;; mret tt.
Definition mdl_atomic_add_and_get (self a value : Z) : thrM Z :=
  atomic_do self a (λ v, s64 (v + value)).
Definition mdl_atomic_add (self a value : Z) : thrM unit :=
  mdl_atomic_add_and_get self a value;; mret tt.

(** ** Semaphores *)

(** [mem] and [mem'] are the two addresses that [mdl_pool_alloc] returns. *)
Definition mdl_sem_create (mem mem' : Z) (name : option string) (initial : Z) : thrM (Z * Z) :=
  if mem =? NULL then mret (FAILURE, NULL)
  else if mem' =? NULL then fault
  else if SEM_VALUE_MAX <? initial then mret (FAILURE, NULL)
  else
    modify (with_sems <[mem := Sem initial (name_of name "sem%p" mem)]>);;
    mret (SUCCESS, mem).

Definition mdl_sem_destroy (p : Z) : thrM Z :=
  if p =? NULL then mret FAILURE
  else _ ← sem_at p; modify (with_sems (delete p));; mret SUCCESS.

Definition set_sem_value (v : Z) (x : mdl_sem_s) : mdl_sem_s := Sem v (sem_obj_name x).

Definition sem_wait (p : Z) : thrM Z :=
  x ← sem_at p;
  if 0 <? sem x then sem_upd p (set_sem_value (sem x - 1));; mret 0 else blocked.
Definition sem_trywait (p : Z) : thrM Z :=
  x ← sem_at p;
  if 0 <? sem x then sem_upd p (set_sem_value (sem x - 1));; mret 0 else mret (-1).
Definition sem_post (p : Z) : thrM Z :=
  x ← sem_at p;
  if sem x <? SEM_VALUE_MAX then sem_upd p (set_sem_value (sem x + 1));; mret 0 else mret (-1).

Definition mdl_sem_wait (p : Z) : thrM Z :=
  if p =? NULL then mret FAILURE else result ← sem_wait p; mret (check result).
Definition mdl_sem_trywait (p : Z) : thrM Z :=
  if p =? NULL then mret FAILURE else result ← sem_trywait p; mret (check result).
Definition mdl_sem_post (p : Z) : thrM Z := result ← sem_post p; mret (check result).
End names.

(** ** Several threads

    A run interleaves the calls of any threads; a call that blocks is not a
    step.  The calls that make and destroy objects are steps too: the address
    of a new object is an argument, and may be that of an old one. *)
Inductive thr_op :=
| Lock (m : Z)
| Unlock (m : Z)
| Trylock (m : Z)
| Islocked (m : Z)
| AtomicSet (a v : Z)
| AtomicGet (a : Z)
| AtomicInc (a : Z)
| AtomicDec (a : Z)
| AtomicAdd (a v : Z)
| SemWait (p : Z)
| SemTrywait (p : Z)
| SemPost (p : Z)
| Resume (p : Z)
| Join (p : Z) (result : option Z)
| Start (tid rc rec : Z)
| MutexCreate (mem : Z) (name : option string) (type : Z)
| MutexDestroy (m : Z)
| AtomicCreate (mem mx initial : Z)
| AtomicDestroy (a : Z)
| SemCreate (mem mem' : Z) (name : option string) (initial : Z)
| SemDestroy (p : Z)
| ThreadCreate (rec mx new rc : Z) (name : option string) (proc arg flags : Z)
| ThreadDestroy (p : Z)
| Register (tid rc : Z) (name : option string) (desc : Z).

Section run.
Context (snprintf : string → Z → string).

Definition run_op (self : Z) (op : thr_op) : thrM Z :=
  match op with
  | Lock m => mdl_mutex_lock self m
  | Unlock m => mdl_mutex_unlock self m
  | Trylock m => mdl_mutex_trylock self m
  | Islocked m => mdl_mutex_islocked self m
  | AtomicSet a v => mdl_atomic_set self a v;; mret 0
  | AtomicGet a => mdl_atomic_get self a
  | AtomicInc a => mdl_atomic_inc_and_get self a
  | AtomicDec a => mdl_atomic_dec_and_get self a
  | AtomicAdd a v => mdl_atomic_add_and_get self a v
  | SemWait p => mdl_sem_wait p
  | SemTrywait p => mdl_sem_trywait p
  | SemPost p => mdl_sem_post p
  | Resume p => mdl_thread_resume self p
  | Join p result => mdl_thread_join self p result
  | Start tid rc rec => thread_main self tid rc rec;; mret 0
  | MutexCreate mem name type => r ← mdl_mutex_create snprintf mem name type; mret r.1
  | MutexDestroy m => mdl_mutex_destroy self m
  | AtomicCreate mem mx initial => r ← mdl_atomic_create snprintf mem mx initial; mret r.1
  | AtomicDestroy a => mdl_atomic_destroy self a
  | SemCreate mem mem' name initial => r ← mdl_sem_create snprintf mem mem' name initial; mret r.1
  | SemDestroy p => mdl_sem_destroy p
  | ThreadCreate rec mx new rc name proc arg flags =>
      r ← mdl_thread_create snprintf self rec mx new rc name proc arg flags; mret r.1
  | ThreadDestroy p => mdl_thread_destroy self p
  | Register tid rc name desc => r ← mdl_thread_register snprintf self tid rc name desc; mret r.1
  end.

Inductive run : thr_state → list (Z * thr_op * Z) → thr_state → Prop :=
| run_nil s : run s [] s
| run_cons s self op r s1 tr s2 :
    run_op self op s = Ret (r, s1) → run s1 tr s2 → run s ((self, op, r) :: tr) s2.

(** The addresses of the objects that a call makes or destroys: a record that
    is destroyed destroys its mutex. *)
Definition remade (s : thr_state) (op : thr_op) : list Z :=
  match op with
  | MutexCreate m _ _ | MutexDestroy m | SemCreate m _ _ _ | SemDestroy m | Register _ _ _ m => [m]
  | AtomicCreate a m _ => [a; m]
  | AtomicDestroy a => a :: from_option (λ x, [at_mutex x]) [] (t_atomics s !! a)
  | ThreadCreate p m _ _ _ _ _ _ => [p; m]
  | ThreadDestroy p => p :: from_option (λ x, [suspended_mutex x]) [] (t_threads s !! p)
  | _ => []
  end.
(** No call of the run makes or destroys an object at an address of [X]. *)
Fixpoint spared (X : list Z) (s : thr_state) (tr : list (Z * thr_op * Z)) : Prop :=
  match tr with
  | [] => True
  | (self, op, r) :: tr =>
      remade s op ## X ∧ ∀ s1, run_op self op s = Ret (r, s1) → spared X s1 tr
  end.
End run.

(** [keeps P m]: if [m] returns, it keeps [P]. *)
Definition keeps {A} (P : thr_state → Prop) (m : thrM A) : Prop :=
  ∀ s a s', m s = Ret (a, s') → P s → P s'.

Section keeps.
Context (P : thr_state → Prop).

Lemma keeps_ret {A} (a : A) : keeps P (mret a).
Proof. intros s ?? [= _ <-]. done. Qed.
Lemma keeps_stop {A} o : (∀ a s, o ≠ Ret (a, s)) → keeps P (λ _ : thr_state, o : outcome (A * thr_state)).
Proof. intros Ho s a s' E. by destruct (Ho a s'). Qed.
Lemma keeps_bind {A B} (m : thrM A) (f : A → thrM B) :
  keeps P m → (∀ a, keeps P (f a)) → keeps P (m ≫= f).
Proof.
  intros Hm Hf s b s' E HP. unfold mbind, M_bind in E.
  destruct (m s) as [[a s1]| | | | |] eqn:Em; try done. eapply Hf; [exact E|]. by eapply Hm.
Qed.
Lemma keeps_gets {A} (f : thr_state → A) : keeps P (gets f).
Proof. intros s ?? [= _ <-]. done. Qed.
Lemma keeps_gets_opt {A} (f : thr_state → option A) : keeps P (gets_opt f).
Proof. intros s a s' E. unfold gets_opt in E. by destruct (f s); simplify_eq. Qed.
Lemma keeps_modify f : (∀ s, P s → P (f s)) → keeps P (modify f).
Proof. intros Hf s ?? [= _ <-]. apply Hf. Qed.
Lemma keeps_modify_opt f : (∀ s s', f s = Some s' → P s → P s') → keeps P (modify_opt f).
Proof. intros Hf s a s' E. unfold modify_opt in E. destruct (f s) eqn:Ef; simplify_eq. by apply Hf. Qed.
Lemma keeps_if {A} (b : bool) (m1 m2 : thrM A) :
  keeps P m1 → keeps P m2 → keeps P (if b then m1 else m2).
Proof. by destruct b. Qed.

(** [P] looks at the state of mutexes, at semaphores and at which mutex a
    thread is suspended on. *)
Context (Hrest : ∀ s s', t_mutexes s' = t_mutexes s → t_sems s' = t_sems s →
  (∀ p, suspended_mutex <$> t_threads s' !! p = suspended_mutex <$> t_threads s !! p) →
  P s → P s').
Context (Hmx : ∀ s m x f, t_mutexes s !! m = Some x →
  pm_owner (mutex (f x)) = pm_owner (mutex x) →
  pm_alive (mutex (f x)) = pm_alive (mutex x) →
  pm_recursive (mutex (f x)) = pm_recursive (mutex x) →
  P s → P (with_mutexes <[m := f x]> s)).
Context (Htake : ∀ s m x self, t_mutexes s !! m = Some x →
  pm_owner (mutex x) = 0 ∨ pm_owner (mutex x) = self →
  P s → P (with_mutexes <[m := set_pm (pm_take self (mutex x)) x]> s)).

Lemma keeps_mutex_upd m f :
  (∀ x, pm_owner (mutex (f x)) = pm_owner (mutex x)) →
  (∀ x, pm_alive (mutex (f x)) = pm_alive (mutex x)) →
  (∀ x, pm_recursive (mutex (f x)) = pm_recursive (mutex x)) →
  keeps P (mutex_upd m f).
Proof.
  intros H1 H2 H3. apply keeps_modify_opt. intros s s' E HP.
  destruct (t_mutexes s !! m) eqn:Em; simplify_eq/=. by apply Hmx.
Qed.
Lemma keeps_thread_upd p f :
  (∀ x, suspended_mutex (f x) = suspended_mutex x) → keeps P (thread_upd p f).
Proof.
  intros Hf. apply keeps_modify_opt. intros s s' E HP.
  destruct (t_threads s !! p) as [x|] eqn:Ep; simplify_eq/=.
  apply (Hrest s); [done|done| |done]. intros q. simpl. destruct (decide (q = p)) as [->|].
  - rewrite lookup_insert_eq, Ep. simpl. by rewrite Hf.
  - by rewrite lookup_insert_ne.
Qed.
Lemma keeps_atomic_upd p f : keeps P (atomic_upd p f).
Proof.
  apply keeps_modify_opt. intros s s' E HP. destruct (t_atomics s !! p); simplify_eq/=.
  by apply (Hrest s).
Qed.
Lemma keeps_sem_upd p f :
  (∀ s x, P s → P (with_sems <[p := f x]> s)) → keeps P (sem_upd p f).
Proof.
  intros Hf. apply keeps_modify_opt. intros s s' E HP. destruct (t_sems s !! p); simplify_eq/=.
  by apply Hf.
Qed.
Lemma keeps_set_next p v : keeps P (set_next p v).
Proof.
  apply keeps_modify_opt. intros s s' E HP. simpl in E. destruct (t_nodes s !! p); simplify_eq/=.
  by apply (Hrest s).
Qed.
Lemma keeps_set_prev p v : keeps P (set_prev p v).
Proof.
  apply keeps_modify_opt. intros s s' E HP. simpl in E. destruct (t_nodes s !! p); simplify_eq/=.
  by apply (Hrest s).
Qed.

Lemma keeps_pthread_lock self m : keeps P (pthread_mutex_lock self m).
Proof.
  intros s r s' E HP. unfold pthread_mutex_lock, mutex_at in E.
  destruct (t_mutexes s !! m) as [x|] eqn:Em.
  2: { unfold mbind, M_bind, gets_opt in E. by rewrite Em in E. }
  unfold mbind at 1, M_bind at 1, gets_opt in E. rewrite Em in E.
  destruct (negb (pm_alive (mutex x))); [done|].
  destruct (Z.eqb_spec (pm_owner (mutex x)) 0) as [E0|E0];
    [|destruct ((pm_owner (mutex x) =? self) && pm_recursive (mutex x)) eqn:E1; [|done]];
    unfold mbind, M_bind, mutex_upd, modify_opt in E; rewrite Em in E; unfold mret, M_ret in E; simplify_eq/=; apply Htake; auto.
  apply andb_true_iff in E1 as [E1%Z.eqb_eq _]. auto.
Qed.
Lemma keeps_pthread_trylock self m : keeps P (pthread_mutex_trylock self m).
Proof.
  intros s r s' E HP. unfold pthread_mutex_trylock, mutex_at in E.
  destruct (t_mutexes s !! m) as [x|] eqn:Em.
  2: { unfold mbind, M_bind, gets_opt in E. by rewrite Em in E. }
  unfold mbind at 1, M_bind at 1, gets_opt in E. rewrite Em in E.
  destruct (negb (pm_alive (mutex x))); [done|].
  destruct ((pm_owner (mutex x) =? 0) || ((pm_owner (mutex x) =? self) && pm_recursive (mutex x))) eqn:E1;
    [|unfold mret, M_ret in E; by simplify_eq/=].
  unfold mbind, M_bind, mutex_upd, modify_opt in E. rewrite Em in E. unfold mret, M_ret in E. simplify_eq/=. apply Htake; [done| |done].
  apply orb_true_iff in E1 as [E1%Z.eqb_eq|[E1%Z.eqb_eq _]%andb_true_iff]; auto.
Qed.

Lemma keeps_own self m : keeps P (own_mutex self m).
Proof.
  apply keeps_bind; [apply keeps_gets|]. intros this.
  apply keeps_bind; [apply keeps_gets_opt|]. intros rec. by apply keeps_mutex_upd.
Qed.
Lemma keeps_lock self m : keeps P (mdl_mutex_lock self m).
Proof.
  apply keeps_if; [apply keeps_ret|]. apply keeps_bind; [apply keeps_pthread_lock|]. intros st.
  apply keeps_bind; [|intros _; apply keeps_ret]. apply keeps_if; [|apply keeps_ret].
  apply keeps_bind; [by apply keeps_mutex_upd|]. intros _. apply keeps_own.
Qed.
Lemma keeps_unlock self m : keeps P (mdl_mutex_unlock self m).
Proof.
  apply keeps_if; [apply keeps_ret|]. apply keeps_bind; [apply keeps_gets_opt|]. intros x.
  apply keeps_bind; [apply keeps_gets|]. intros this. apply keeps_if; [apply keeps_ret|].
  apply keeps_bind; [by apply keeps_mutex_upd|]. intros _.
  apply keeps_bind; [apply keeps_gets_opt|]. intros x'.
  apply keeps_bind; [apply keeps_if; [by apply keeps_mutex_upd|apply keeps_ret]|]. intros _.
  apply keeps_bind; [apply keeps_pthread_lock|]. intros st. apply keeps_ret.
Qed.
Lemma keeps_trylock self m : keeps P (mdl_mutex_trylock self m).
Proof.
  apply keeps_if; [apply keeps_ret|]. apply keeps_bind; [apply keeps_pthread_trylock|]. intros st.
  apply keeps_bind; [|intros _; apply keeps_ret]. apply keeps_if; [|apply keeps_ret].
  apply keeps_bind; [apply keeps_own|]. intros _. by apply keeps_mutex_upd.
Qed.
Lemma keeps_atomic self a f : keeps P (atomic_do self a f).
Proof.
  apply keeps_bind; [apply keeps_gets_opt|]. intros x.
  apply keeps_bind; [apply keeps_lock|]. intros _.
  apply keeps_bind; [apply keeps_atomic_upd|]. intros _.
  apply keeps_bind; [apply keeps_gets_opt|]. intros x'.
  apply keeps_bind; [apply keeps_unlock|]. intros _. apply keeps_ret.
Qed.
Lemma keeps_list_add n hd : keeps P (list_add n hd).
Proof.
  apply keeps_bind; [apply keeps_gets_opt|]. intros nxt. unfold __list_add.
  repeat (apply keeps_bind; [first [apply keeps_set_prev|apply keeps_set_next]|intros _]).
  apply keeps_set_next.
Qed.
Lemma keeps_local_set self rc v : keeps P (mdl_thread_local_set self rc v).
Proof.
  apply keeps_if; [|apply keeps_ret]. apply keeps_bind; [|intros _; apply keeps_ret].
  apply keeps_modify. intros s. by apply Hrest.
Qed.
Lemma keeps_main self tid rc rec : keeps P (thread_main self tid rc rec).
Proof.
  apply keeps_bind; [apply keeps_local_set|].
  intros rc'. apply keeps_if; [apply keeps_ret|].
  apply keeps_bind; [by apply keeps_thread_upd|]. intros _.
  apply keeps_bind; [apply keeps_list_add|]. intros _.
  apply keeps_bind; [apply keeps_gets_opt|]. intros x. apply keeps_bind.
  { apply keeps_if; [|apply keeps_ret]. apply keeps_bind; [apply keeps_lock|]. intros _.
    apply keeps_bind; [apply keeps_unlock|intros _; apply keeps_ret]. }
  intros _. apply keeps_modify. intros s. by apply Hrest.
Qed.

(** The calls that make and destroy objects: they change only those. *)
Context (X : list Z).
Context (Hfm : ∀ s m y, m ∉ X → P s → P (with_mutexes <[m := y]> s)).
Context (Hft : ∀ s p y, p ∉ X → P s → P (with_threads <[p := y]> s)).
Context (Hfs : ∀ s p y, p ∉ X → P s → P (with_sems (partial_alter (λ _, y) p) s)).
Context (Hfa : ∀ s f, P s → P (with_atomics f s)).

Lemma keeps_mutex_upd_other m f : m ∉ X → keeps P (mutex_upd m f).
Proof.
  intros Hm. apply keeps_modify_opt. intros s s' E HP. destruct (t_mutexes s !! m); simplify_eq/=.
  by apply Hfm.
Qed.
Lemma keeps_thread_upd_other p f : p ∉ X → keeps P (thread_upd p f).
Proof.
  intros Hp. apply keeps_modify_opt. intros s s' E HP. destruct (t_threads s !! p); simplify_eq/=.
  by apply Hft.
Qed.
Lemma keeps_fault {A} : keeps P (fault : thrM A).
Proof. intros s a s' [=]. Qed.
Lemma keeps_loop {A B} n (body : A → thrM (A + B)) a :
  (∀ a, keeps P (body a)) → keeps P (loop n body a).
Proof.
  intros Hb. revert a. induction n as [|n IH]; intros a; simpl; [intros s a' s' [=]|].
  apply keeps_bind; [apply Hb|]. intros [a'|b]; [apply IH|apply keeps_ret].
Qed.

Lemma keeps_mutex_destroy self m : m ∉ X → keeps P (mdl_mutex_destroy self m).
Proof.
  intros Hm. apply keeps_if; [apply keeps_ret|].
  apply keeps_bind; [|intros st; apply keeps_ret]. apply keeps_loop. intros [retry st].
  apply keeps_if; [|apply keeps_ret]. apply keeps_bind.
  { apply keeps_bind; [apply keeps_gets_opt|]. intros x. apply keeps_if; [apply keeps_fault|].
    apply keeps_if; [|apply keeps_ret].
    apply keeps_bind; [by apply keeps_mutex_upd_other|intros _; apply keeps_ret]. }
  intros st'. apply keeps_if; [apply keeps_ret|]. apply keeps_if; [|apply keeps_ret].
  apply keeps_bind; [|intros _; apply keeps_ret].
  apply keeps_bind; [apply keeps_gets_opt|]. intros x. apply keeps_if; [apply keeps_fault|].
  apply keeps_if.
  - apply keeps_bind; [by apply keeps_mutex_upd_other|intros _; apply keeps_ret].
  - apply keeps_if; [apply keeps_ret|apply keeps_fault].
Qed.
Lemma keeps_mutex_create snprintf m name type :
  m ∉ X → keeps P (mdl_mutex_create snprintf m name type).
Proof.
  intros Hm. apply keeps_if; [apply keeps_ret|]. apply keeps_bind.
  - apply keeps_bind; [|intros _; apply keeps_ret]. apply keeps_modify. intros s. by apply Hfm.
  - intros rc. apply keeps_if; apply keeps_ret.
Qed.
Lemma keeps_thread_create snprintf self rec mx new rc name proc arg flags : rec ∉ X → mx ∉ X →
  keeps P (mdl_thread_create snprintf self rec mx new rc name proc arg flags).
Proof.
  intros Hrec Hm. do 2 (apply keeps_if; [apply keeps_ret|]). apply keeps_bind.
  { apply keeps_modify. intros s HP. apply Hft; [done|]. by apply (Hrest s). }
  intros _. apply keeps_bind.
  - apply keeps_if; [|apply keeps_ret]. apply keeps_bind; [by apply keeps_mutex_create|].
    intros r. apply keeps_if; [apply keeps_ret|].
    apply keeps_bind; [by apply keeps_thread_upd_other|]. intros _.
    apply keeps_bind; [apply keeps_lock|intros _; apply keeps_ret].
  - intros st. apply keeps_if; [apply keeps_ret|].
    apply keeps_bind; [by apply keeps_thread_upd_other|]. intros _.
    apply keeps_if; [apply keeps_ret|].
    apply keeps_bind; [by apply keeps_thread_upd_other|intros _; apply keeps_ret].
Qed.
Lemma keeps_register snprintf self tid rc name desc :
  desc ∉ X → keeps P (mdl_thread_register snprintf self tid rc name desc).
Proof.
  intros Hd. assert (keeps P (bzero_thread desc)) as Hz.
  { apply keeps_bind; [by apply keeps_thread_upd_other|]. intros _.
    apply keeps_bind; [apply keeps_set_next|]. intros _. apply keeps_set_prev. }
  apply keeps_bind; [done|]. intros _.
  apply keeps_bind; [by apply keeps_thread_upd_other|]. intros _.
  apply keeps_bind; [apply keeps_local_set|]. intros r.
  apply keeps_if; (apply keeps_bind; [|intros _; apply keeps_ret]); [done|].
  apply keeps_bind; [apply keeps_set_next|intros _; apply keeps_set_prev].
Qed.

Lemma keeps_atomic_create snprintf mem mx initial :
  mx ∉ X → keeps P (mdl_atomic_create snprintf mem mx initial).
Proof.
  intros Ha. apply keeps_if; [apply keeps_ret|].
  apply keeps_bind; [by apply keeps_mutex_create|]. intros x.
  apply keeps_if; [apply keeps_ret|]. apply keeps_bind; [|intros _; apply keeps_ret].
  apply keeps_modify. intros t. apply Hfa.
Qed.
(** Destroying an object makes or destroys its mutex, which the state tells. *)
Lemma keeps_atomic_destroy self a s t : remade s (AtomicDestroy a) ## X →
  mdl_atomic_destroy self a s = Ret t → P s → P t.2.
Proof.
  intros Hr. destruct t as [r s']. unfold mdl_atomic_destroy. case_match; [by intros [= <- <-]|].
  destruct (t_atomics s !! a) as [x|] eqn:Hx.
  - erewrite bind_ret by (unfold atomic_at, gets_opt; by rewrite Hx). intros E HP.
    refine (keeps_mutex_destroy self _ _ _ _ _ E HP). simpl in Hr. rewrite Hx in Hr. set_solver.
  - unfold mbind, M_bind, atomic_at, gets_opt. by rewrite Hx.
Qed.
Lemma keeps_thread_destroy self p s t : remade s (ThreadDestroy p) ## X →
  mdl_thread_destroy self p s = Ret t → P s → P t.2.
Proof.
  intros Hr. destruct t as [r s']. unfold mdl_thread_destroy. destruct (t_threads s !! p) as [x|] eqn:Hx.
  - erewrite bind_ret by (unfold thread_at, gets_opt; by rewrite Hx). simpl in Hr. rewrite Hx in Hr. intros E HP.
    refine (keeps_if _ _ _ _ _ _ _ _ E HP); [|apply keeps_ret].
    apply keeps_bind; [apply keeps_mutex_destroy; set_solver|]. intros _.
    apply keeps_bind; [apply keeps_thread_upd_other; set_solver|intros _; apply keeps_ret].
  - unfold mbind, M_bind, thread_at, gets_opt. by rewrite Hx.
Qed.

(** What the calls that are not about semaphores keep. *)
Definition sem_op (op : thr_op) : bool :=
  match op with SemWait _ | SemTrywait _ | SemPost _ => true | _ => false end.
Lemma keeps_op snprintf self op s r s' : sem_op op = false → remade s op ## X →
  run_op snprintf self op s = Ret (r, s') → P s → P s'.
Proof.
  assert (∀ (m : thrM Z) t, keeps P m → m s = Ret t → P s → P t.2) as Hk.
  { intros m [a t] Hm E HP. exact (Hm s a t E HP). }
  intros Hop Hr E. revert E. destruct op; try discriminate Hop; simpl in *;
    lazymatch goal with
    | |- context [mdl_atomic_destroy] => idtac
    | |- context [mdl_thread_destroy] => idtac
    | _ => apply (Hk _ (r, s'))
    end.
  - apply keeps_lock.
  - apply keeps_unlock.
  - apply keeps_trylock.
  - apply keeps_if; [apply keeps_ret|]. apply keeps_bind; [apply keeps_gets_opt|]. intros x.
    apply keeps_bind; [apply keeps_gets|]. intros this. apply keeps_ret.
  - apply keeps_bind; [|intros _; apply keeps_ret].
    apply keeps_bind; [apply keeps_atomic|intros _; apply keeps_ret].
  - apply keeps_atomic.
  - apply keeps_atomic.
  - apply keeps_atomic.
  - apply keeps_atomic.
  - apply keeps_if; [apply keeps_ret|]. apply keeps_bind; [apply keeps_gets_opt|]. intros x.
    apply keeps_lock.
  - apply keeps_bind; [apply keeps_gets|]. intros this. apply keeps_if; [apply keeps_ret|].
    apply keeps_bind; [apply keeps_gets_opt|]. intros x. destruct result; [apply keeps_ret|].
    by apply keeps_stop.
  - apply keeps_bind; [apply keeps_main|intros _; apply keeps_ret].
  - apply keeps_bind; [|intros ?; apply keeps_ret]. apply keeps_mutex_create. set_solver.
  - apply keeps_mutex_destroy. set_solver.
  - apply keeps_bind; [|intros ?; apply keeps_ret]. apply keeps_atomic_create. set_solver.
  - by apply (keeps_atomic_destroy self a s (r, s')).
  - apply keeps_bind; [|intros ?; apply keeps_ret]. apply keeps_if; [apply keeps_ret|].
    apply keeps_if; [apply keeps_fault|]. apply keeps_if; [apply keeps_ret|].
    apply keeps_bind; [|intros _; apply keeps_ret]. apply keeps_modify.
    intros t. apply Hfs. set_solver.
  - apply keeps_if; [apply keeps_ret|]. apply keeps_bind; [apply keeps_gets_opt|]. intros x.
    apply keeps_bind; [|intros _; apply keeps_ret]. apply keeps_modify.
    intros t. apply Hfs. set_solver.
  - apply keeps_bind; [|intros ?; apply keeps_ret]. apply keeps_thread_create; set_solver.
  - by apply (keeps_thread_destroy self p s (r, s')).
  - apply keeps_bind; [|intros ?; apply keeps_ret]. apply keeps_register. set_solver.
Qed.
End keeps.

Section runs.
Context (snprintf : string → Z → string).
Implicit Types s : thr_state.

Lemma keeps_sem_op P self op :
  (∀ s p x, P s → P (with_sems <[p := x]> s)) → sem_op op = true → keeps P (run_op snprintf self op).
Proof.
  intros Hs Hop. destruct op; try discriminate Hop; simpl; try (apply keeps_if; [apply keeps_ret|]);
    (apply keeps_bind; [|intros r; apply keeps_ret]); (apply keeps_bind; [apply keeps_gets_opt|]);
    intros x; (apply keeps_if; [|first [apply keeps_ret|by apply keeps_stop]]);
    (apply keeps_bind; [by apply keeps_sem_upd; intros; apply Hs|intros _; apply keeps_ret]).
Qed.

Lemma run_keeps (P : thr_state → Prop) X s tr s' :
  (∀ self op s r s', remade s op ## X → run_op snprintf self op s = Ret (r, s') → P s → P s') →
  run snprintf s tr s' → spared snprintf X s tr → P s → P s'.
Proof.
  intros HK. induction 1 as [|s self op r s1 tr s2 E _ IH]; [done|].
  intros [HX Hsp] HP. apply IH; [by apply Hsp|]. by eapply HK.
Qed.

(** The mutex [m], recursive or not, is held by the thread [c]. *)
Definition held_by (m c : Z) (r : bool) (s : thr_state) : Prop :=
  ∃ x, t_mutexes s !! m = Some x ∧ pm_alive (mutex x) = true ∧ pm_owner (mutex x) = c ∧
    pm_recursive (mutex x) = r.
(** The thread of [rec] waits for the normal mutex [m], held by [c]. *)
Definition suspended (rec m c : Z) (s : thr_state) : Prop :=
  held_by m c false s ∧ suspended_mutex <$> t_threads s !! rec = Some m.

Lemma held_upd m c r s m' x f :
  t_mutexes s !! m' = Some x →
  pm_owner (mutex (f x)) = pm_owner (mutex x) →
  pm_alive (mutex (f x)) = pm_alive (mutex x) →
  pm_recursive (mutex (f x)) = pm_recursive (mutex x) →
  held_by m c r s → held_by m c r (with_mutexes <[m' := f x]> s).
Proof.
  intros Hm' E1 E2 E3 (y & Hy & Hal & Ho & Hr). destruct (decide (m' = m)) as [->|].
  - exists (f x). simplify_eq/=. rewrite lookup_insert_eq. by rewrite E1, E2.
  - exists y. simpl. by rewrite lookup_insert_ne.
Qed.
Lemma held_take m c r s m' x self :
  c ≠ 0 → t_mutexes s !! m' = Some x → pm_owner (mutex x) = 0 ∨ pm_owner (mutex x) = self →
  held_by m c r s → held_by m c r (with_mutexes <[m' := set_pm (pm_take self (mutex x)) x]> s).
Proof.
  intros Hc Hm' Ho' (y & Hy & Hal & Ho & Hr). destruct (decide (m' = m)) as [->|].
  - exists (set_pm (pm_take self (mutex x)) x). simplify_eq/=. rewrite lookup_insert_eq.
    split; [done|]. split; [done|]. split; [|done]. destruct Ho' as [Ho'|Ho']; congruence.
  - exists y. simpl. by rewrite lookup_insert_ne.
Qed.

Lemma held_other m c r s m' y :
  m' ∉ [m] → held_by m c r s → held_by m c r (with_mutexes <[m' := y]> s).
Proof.
  intros Hm (x & Hx & H). exists x. simpl. rewrite lookup_insert_ne; [done|]. set_solver.
Qed.

(** No other call gives a mutex back, or resumes a thread. *)
Lemma held_keeps m c r self op s a s' : c ≠ 0 → remade s op ## [m] →
  run_op snprintf self op s = Ret (a, s') → held_by m c r s → held_by m c r s'.
Proof.
  intros Hc HX. destruct (sem_op op) eqn:Hop; [by apply keeps_sem_op|].
  apply (keeps_op _) with (X := [m]);
    [|apply held_upd|intros; by apply held_take|intros; by apply held_other|done..].
  intros s1 s2 E1 _ _. unfold held_by. by rewrite E1.
Qed.
Lemma suspended_rest rec m c s s' :
  t_mutexes s' = t_mutexes s → t_sems s' = t_sems s →
  (∀ p, suspended_mutex <$> t_threads s' !! p = suspended_mutex <$> t_threads s !! p) →
  suspended rec m c s → suspended rec m c s'.
Proof. intros E1 _ E2. unfold suspended, held_by. by rewrite E1, E2. Qed.
Lemma suspended_keeps rec m c self op s r s' : c ≠ 0 → remade s op ## [m; rec] →
  run_op snprintf self op s = Ret (r, s') → suspended rec m c s → suspended rec m c s'.
Proof.
  intros Hc HX. destruct (sem_op op) eqn:Hop; [by apply keeps_sem_op|].
  apply (keeps_op _) with (X := [m; rec]); [| | | | |done..].
  - apply suspended_rest.
  - intros s1 m' x f ???? [Hh ?]. split; [by apply held_upd|done].
  - intros s1 m' x self' ?? [Hh ?]. split; [by apply held_take|done].
  - intros s1 m' y Hm [Hh ?]. split; [apply held_other; set_solver|done].
  - intros s1 p y Hp [Hh ?]. split; [done|]. simpl. rewrite lookup_insert_ne; [done|]. set_solver.
Qed.

(** A mutex that another thread holds, and a normal mutex that anybody holds. *)
Lemma mutex_lock_blocked self m c r s :
  m ≠ NULL → held_by m c r s → c ≠ 0 → c ≠ self ∨ r = false →
  mdl_mutex_lock self m s = Blocked ∧ pthread_mutex_lock self m s = Blocked ∧
  mdl_mutex_trylock self m s = Ret (FAILURE, s).
Proof.
  intros Hm (x & Hx & Hal & <- & <-) Ho Hr.
  assert ((pm_owner (mutex x) =? self) && pm_recursive (mutex x) = false) as Hb.
  { apply andb_false_iff. destruct Hr as [Hr|Hr]; [left; by apply Z.eqb_neq|by right]. }
  assert (pthread_mutex_lock self m s = Blocked) as Hl.
  { unfold pthread_mutex_lock, mutex_at. erewrite bind_ret by (unfold gets_opt; by rewrite Hx).
    rewrite Hal, Hb. by rewrite (proj2 (Z.eqb_neq _ 0) Ho). }
  unfold mdl_mutex_lock, mdl_mutex_trylock. rewrite (proj2 (Z.eqb_neq m NULL) Hm).
  split; [by apply bind_blocked|]. split; [done|].
  erewrite bind_ret.
  2: { unfold pthread_mutex_trylock, mutex_at. erewrite bind_ret by (unfold gets_opt; by rewrite Hx).
       rewrite Hal, Hb, (proj2 (Z.eqb_neq _ 0) Ho). done. }
  done.
Qed.

Lemma mutex_upd_run m f x s :
  t_mutexes s !! m = Some x → mutex_upd m f s = Ret (tt, with_mutexes <[m := f x]> s).
Proof. intros E. unfold mutex_upd, modify_opt. by rewrite E. Qed.

(** A lock that returns. *)
Lemma pthread_lock_inv c m s s' st :
  pthread_mutex_lock c m s = Ret (st, s') →
  ∃ x, t_mutexes s !! m = Some x ∧ st = 0 ∧ pm_alive (mutex x) = true ∧
    s' = with_mutexes <[m := set_pm (pm_take c (mutex x)) x]> s.
Proof.
  intros E. unfold pthread_mutex_lock in E. apply bind_inv in E as (x & s1 & E1 & E).
  unfold mutex_at, gets_opt in E1. destruct (t_mutexes s !! m) as [y|] eqn:Hx; simplify_eq.
  exists x. destruct (pm_alive (mutex x)) eqn:Hal; simpl in E; [|done].
  destruct (pm_owner (mutex x) =? 0);
    [|destruct ((pm_owner (mutex x) =? c) && pm_recursive (mutex x)); [|done]];
    rewrite (bind_ret _ _ _ _ _ (mutex_upd_run m _ x _ Hx)) in E; unfold mret, M_ret in E;
    by simplify_eq.
Qed.
Lemma lock_inv c m s r s' :
  mdl_mutex_lock c m s = Ret (r, s') → m ≠ NULL →
  r = SUCCESS ∧ ∃ x, t_mutexes s !! m = Some x ∧ held_by m c (pm_recursive (mutex x)) s' ∧
    t_threads s' = t_threads s.
Proof.
  intros E Hm. unfold mdl_mutex_lock in E. rewrite (proj2 (Z.eqb_neq m NULL) Hm) in E.
  apply bind_inv in E as (st & s1 & E1 & E).
  apply pthread_lock_inv in E1 as (x & Hx & -> & Hal & ->). simpl in E.
  apply bind_inv in E as ([] & s2 & E2 & E). unfold mret, M_ret in E. simplify_eq.
  split; [done|]. exists x. split; [done|].
  assert (keeps (λ s1, held_by m c (pm_recursive (mutex x)) s1 ∧ t_threads s1 = t_threads s)
    (mutex_upd m (add_level 1);; own_mutex c m)) as Hk.
  { apply keeps_bind; [|intros _; apply keeps_bind; [apply keeps_gets|intros this;
      apply keeps_bind; [apply keeps_gets_opt|intros rec]]];
      (apply keeps_mutex_upd; [|done..]; intros s1 m1 x1 f ???? [Hh ?]; split; [by apply held_upd|done]). }
  eapply Hk; [exact E2|]. split; [|done]. exists (set_pm (pm_take c (mutex x)) x). simpl.
  by rewrite lookup_insert_eq.
Qed.

Lemma create_suspended s0 c rec mx new name proc arg s :
  mx ≠ NULL →
  mdl_thread_create snprintf c rec mx new 0 name proc arg THREAD_SUSPENDED s0 = Ret ((SUCCESS, rec), s) →
  suspended rec mx c s.
Proof.
  intros Hmx E. unfold mdl_thread_create in E.
  destruct (proc =? NULL); [done|]. destruct (rec =? NULL) eqn:Hrec; [done|].
  apply bind_inv in E as ([] & s1 & _ & E). apply bind_inv in E as (st & s2 & E2 & E).
  simpl in E2. apply bind_inv in E2 as (r & s3 & E3 & E2).
  unfold mdl_mutex_create_simple, mdl_mutex_create in E3.
  rewrite (proj2 (Z.eqb_neq mx NULL) Hmx) in E3. unfold init_mutex in E3. simpl in E3.
  injection E3 as <- <-. simpl in E2.
  apply bind_inv in E2 as ([] & s4 & E4 & E2). apply bind_inv in E2 as (r & s5 & E5 & E2).
  unfold thread_upd, modify_opt in E4. simpl in E4.
  destruct (t_threads s1 !! rec) as [x|] eqn:Hx; simplify_eq/=. injection E2 as <- <-.
  apply lock_inv in E5 as (_ & y & Hy & Hh & Ht); [|done]. simpl in *.
  rewrite lookup_insert_eq in Hy. simplify_eq/=.
  assert (suspended rec mx c s5) as Hs.
  { split; [done|]. rewrite Ht, lookup_insert_eq. done. }
  apply bind_inv in E as ([] & s6 & E6 & E).
  apply (keeps_thread_upd _ (suspended_rest rec mx c)) in E6; [|done..].
  apply bind_inv in E as ([] & s7 & E7 & E).
  apply (keeps_thread_upd _ (suspended_rest rec mx c)) in E7; [|done..].
  unfold mret, M_ret in E. injection E as <-. auto.
Qed.
End runs.

(** C32: once a thread has locked a mutex with [mdl_mutex_lock], no other thread
    ever gets it, unless somebody destroys it or makes another one at its
    address: whatever else the threads do, [mdl_mutex_unlock] included, their
    [mdl_mutex_lock] blocks and their [mdl_mutex_trylock] fails. *)
Theorem mutex_never_released snprintf s0 c m s tr s' self :
  c ≠ 0 → m ≠ NULL → mdl_mutex_lock c m s0 = Ret (SUCCESS, s) →
  run snprintf s tr s' → spared snprintf [m] s tr → self ≠ c →
  mdl_mutex_lock self m s' = Blocked ∧ mdl_mutex_trylock self m s' = Ret (FAILURE, s').
Proof.
  intros Hc Hm Hl Hrun Hsp Hself. apply lock_inv in Hl as (_ & x & _ & Hh & _); [|done].
  apply (run_keeps snprintf _ [m] s tr s') in Hh; [|intros ?????; by apply held_keeps|done..].
  destruct (mutex_lock_blocked self m c _ s' Hm Hh Hc) as (? & _ & ?); [by left|done].
Qed.

(** A thread that was created suspended never starts: [mdl_thread_resume]
    blocks whoever calls it, and the thread never gets to its procedure, as
    long as neither its record nor its mutex is destroyed. *)
Theorem suspended_never_starts snprintf s0 c rec mx new name proc arg s tr s' :
  c ≠ 0 → mx ≠ NULL →
  mdl_thread_create snprintf c rec mx new 0 name proc arg THREAD_SUSPENDED s0 = Ret ((SUCCESS, rec), s) →
  run snprintf s tr s' → spared snprintf [mx; rec] s tr →
  (∀ self, mdl_thread_resume self rec s' = Blocked) ∧
  (∀ self tid s'', thread_main self tid 0 rec s' ≠ Ret (tt, s'')).
Proof.
  intros Hc Hmx Hcr Hrun Hsp.
  assert (rec ≠ NULL ∧ suspended rec mx c s) as [Hrec Hs].
  { split; [|by eapply create_suspended].
    intros ->. unfold mdl_thread_create in Hcr. by destruct (proc =? NULL). }
  apply (run_keeps snprintf _ [mx; rec] s tr s') in Hs; [|intros ?????; by apply suspended_keeps|done..].
  split.
  - intros self. unfold mdl_thread_resume. rewrite (proj2 (Z.eqb_neq rec NULL) Hrec).
    destruct Hs as [Hh Ht]. destruct (t_threads s' !! rec) as [x|] eqn:Hx; simplify_eq/=.
    erewrite bind_ret by (unfold thread_at, gets_opt; by rewrite Hx).
    apply (mutex_lock_blocked self _ c false s'); [done..|by right].
  - intros self tid s'' E. unfold thread_main in E.
    apply bind_inv in E as (rc & s1 & E1 & E).
    assert (rc = SUCCESS) as -> by (apply bind_inv in E1 as (? & ? & _ & E1); by injection E1).
    simpl in E. apply (keeps_local_set _ (suspended_rest rec mx c)) in E1.
    apply bind_inv in E as ([] & s2 & E2 & E).
    apply (keeps_thread_upd _ (suspended_rest rec mx c)) in E2; [|done..].
    apply bind_inv in E as ([] & s3 & E3 & E).
    apply (keeps_list_add _ (suspended_rest rec mx c)) in E3.
    apply bind_inv in E as (x & s4 & E4 & E). destruct (E3 (E2 (E1 Hs))) as [Hh Ht].
    unfold thread_at, gets_opt in E4. destruct (t_threads s3 !! rec) as [y|] eqn:Hy; simplify_eq/=.
    rewrite (proj2 (Z.eqb_neq _ NULL)) in E by done. simpl in E.
    apply bind_inv in E as ([] & s5 & E5 & _). apply bind_inv in E5 as (r & s6 & E6 & _).
    destruct (mutex_lock_blocked self _ c false s4 Hmx Hh Hc) as (E7 & _); [by right|]. congruence.
Qed.

Section atomics.
Implicit Types s : thr_state.

(** [mdl_thread_this] of the thread [self] is a record. *)
Definition registered (self : Z) (s : thr_state) : Prop :=
  ∃ rec, t_tls s !! self = Some rec ∧ is_Some (t_threads s !! rec).

Lemma wp_mutex_at m x Q s : t_mutexes s !! m = Some x → Q x s → wp (mutex_at m) Q s.
Proof. intros E HQ. eapply wp_gets_opt; [exact E|exact HQ]. Qed.
Lemma wp_mutex_upd m f x (Q : unit → thr_state → Prop) s :
  t_mutexes s !! m = Some x → Q tt (with_mutexes <[m := f x]> s) → wp (mutex_upd m f) Q s.
Proof. intros E HQ. eapply wp_modify_opt; [by rewrite E|exact HQ]. Qed.
Lemma wp_this self rec (Q : Z → thr_state → Prop) s :
  t_tls s !! self = Some rec → Q rec s → wp (mdl_thread_this self) Q s.
Proof. intros E HQ. apply wp_gets. by rewrite E. Qed.

(** Taking a free mutex. *)
Lemma wp_lock_free self m x rec (Q : Z → thr_state → Prop) s :
  m ≠ NULL → t_mutexes s !! m = Some x → pm_alive (mutex x) = true → pm_owner (mutex x) = 0 →
  t_tls s !! self = Some rec → is_Some (t_threads s !! rec) →
  (∀ y, mutex y = pm_take self (mutex x) → mx_owner y = rec →
     nesting_level y = s32 (nesting_level x + 1) →
     Q SUCCESS (with_mutexes <[m := y]> s)) →
  wp (mdl_mutex_lock self m) Q s.
Proof.
  intros Hm Hx Hal Ho Htls [r Hr] HQ. unfold mdl_mutex_lock, pthread_mutex_lock, own_mutex.
  rewrite (proj2 (Z.eqb_neq m NULL) Hm). wp_steps. eapply wp_mutex_at; [exact Hx|].
  rewrite Hal, Ho. simpl. wp_steps. eapply wp_mutex_upd; [exact Hx|]. wp_steps. simpl.
  wp_steps. eapply wp_mutex_upd; [apply lookup_insert_eq|]. wp_steps.
  eapply wp_this; [exact Htls|]. wp_steps. eapply wp_gets_opt; [exact Hr|].
  eapply wp_mutex_upd; [apply lookup_insert_eq|]. wp_steps.
  assert (∀ a b c, with_mutexes <[m := a]> (with_mutexes <[m := b]> (with_mutexes <[m := c]> s)) =
    with_mutexes <[m := a]> s) as Hw.
  { intros a b c. unfold with_mutexes. simpl. by rewrite !insert_insert_eq. }
  rewrite Hw. by apply HQ.
Qed.

(** Unlocking a normal mutex that the thread holds waits for itself. *)
Lemma unlock_blocked self m x rec s :
  m ≠ NULL → self ≠ 0 → t_mutexes s !! m = Some x → pm_alive (mutex x) = true →
  pm_owner (mutex x) = self → pm_recursive (mutex x) = false →
  t_tls s !! self = Some rec → mx_owner x = rec →
  mdl_mutex_unlock self m s = Blocked.
Proof.
  intros Hm Hself Hx Hal Ho Hr Htls Hrec. unfold mdl_mutex_unlock.
  rewrite (proj2 (Z.eqb_neq m NULL) Hm). apply bind_outcome. eapply wp_mutex_at; [exact Hx|].
  apply bind_outcome. eapply wp_this; [exact Htls|]. rewrite Hrec, Z.eqb_refl. simpl.
  apply bind_outcome. eapply wp_mutex_upd; [exact Hx|].
  apply bind_outcome. eapply wp_mutex_at; [apply lookup_insert_eq|].
  apply bind_outcome. apply wp_mono with (P := λ _ s', held_by m self false s').
  - assert (held_by m self false (with_mutexes <[m := add_level (-1) x]> s)) as Hh.
    { exists (add_level (-1) x). simpl. by rewrite lookup_insert_eq. }
    destruct (nesting_level (add_level (-1) x) =? 0); [|by apply wp_ret].
    eapply wp_mutex_upd; [apply lookup_insert_eq|]. apply held_upd; [apply lookup_insert_eq|done..].
  - intros _ s' Hh. apply bind_blocked. by apply (mutex_lock_blocked self m self false s' Hm Hh); [|right].
Qed.
End atomics.

(** C33: no operation on an atomic ever returns: one that finds the mutex free
    updates the value and then waits for itself in [mdl_mutex_unlock], the
    others wait for that one. *)
Theorem atomic_ops_never_return s self a A x v :
  registered self s → self ≠ 0 → t_atomics s !! a = Some A → at_mutex A ≠ NULL →
  t_mutexes s !! at_mutex A = Some x → pm_alive (mutex x) = true →
  pm_recursive (mutex x) = false →
  mdl_atomic_set self a v s = Blocked ∧ mdl_atomic_get self a s = Blocked ∧
  mdl_atomic_inc_and_get self a s = Blocked ∧ mdl_atomic_inc self a s = Blocked ∧
  mdl_atomic_dec_and_get self a s = Blocked ∧ mdl_atomic_dec self a s = Blocked ∧
  mdl_atomic_add_and_get self a v s = Blocked ∧ mdl_atomic_add self a v s = Blocked.
Proof.
  intros (rec & Htls & Hrec) Hself Ha Hm Hx Hal Hr.
  assert (∀ f, atomic_do self a f s = Blocked) as Hdo.
  { intros f. unfold atomic_do. apply bind_outcome. eapply wp_gets_opt; [exact Ha|].
    destruct (decide (pm_owner (mutex x) = 0)) as [Ho|Ho].
    2: { apply bind_blocked.
         apply (mutex_lock_blocked self _ (pm_owner (mutex x)) false s Hm); [by exists x|done|by right]. }
    apply bind_outcome. eapply wp_lock_free; [done..|]. intros y Hy Hown _.
    apply bind_outcome. eapply wp_modify_opt; [simpl; rewrite Ha; done|].
    apply bind_outcome. eapply wp_gets_opt; [apply lookup_insert_eq|].
    apply bind_blocked. eapply (unlock_blocked self _ y rec); simpl; rewrite ?Hy; try done.
    by rewrite lookup_insert_eq. }
  unfold mdl_atomic_set, mdl_atomic_inc, mdl_atomic_dec, mdl_atomic_add, mdl_atomic_get,
    mdl_atomic_inc_and_get, mdl_atomic_dec_and_get, mdl_atomic_add_and_get.
  repeat split; first [apply Hdo|by apply bind_blocked].
Qed.

(** What a call of a trace adds to the value of the semaphore [p]. *)
Definition sem_delta (p : Z) (c : Z * thr_op * Z) : Z :=
  match c with
  | (_, SemPost q, r) => if (q =? p) && (r =? SUCCESS) then 1 else 0
  | (_, SemWait q, r) | (_, SemTrywait q, r) => if (q =? p) && (r =? SUCCESS) then -1 else 0
  | _ => 0
  end.

Section sems.
Context (snprintf : string → Z → string).
Implicit Types s : thr_state.

Definition sem_value (p v : Z) (s : thr_state) : Prop :=
  ∃ x, t_sems s !! p = Some x ∧ sem x = v.

Lemma sem_change p q v w y s u s' :
  t_sems s !! q = Some y → sem_upd q (set_sem_value w) s = Ret (u, s') → sem_value p v s →
  sem_value p (if q =? p then w else v) s' ∧ ((q =? p) = true → sem y = v).
Proof.
  intros Hy E (z & Hz & Hv). unfold sem_upd, modify_opt in E. rewrite Hy in E. simplify_eq/=.
  destruct (Z.eqb_spec q p) as [->|].
  - split; [|intros _; congruence]. exists (set_sem_value w y). simpl. by rewrite lookup_insert_eq.
  - split; [|done]. exists z. simpl. by rewrite lookup_insert_ne.
Qed.
Lemma sem_at_inv q y s s1 : sem_at q s = Ret (y, s1) → s1 = s ∧ t_sems s !! q = Some y.
Proof. unfold sem_at, gets_opt. destruct (t_sems s !! q); intros E; by simplify_eq. Qed.

Lemma sem_step self op r p v s s' :
  p ≠ NULL → remade s op ## [p] → run_op snprintf self op s = Ret (r, s') →
  sem_value p v s → 0 ≤ v →
  sem_value p (v + sem_delta p (self, op, r)) s' ∧ 0 ≤ v + sem_delta p (self, op, r).
Proof.
  intros Hp HX E Hv H0. destruct (sem_op op) eqn:Hop.
  2: { assert (sem_delta p (self, op, r) = 0) as -> by (by destruct op). rewrite Z.add_0_r.
       split; [|done].
       eapply (keeps_op (sem_value p v)) with (X := [p]); [..|exact Hop|exact HX|exact E|exact Hv].
       - intros s1 s2 _ E2 _. unfold sem_value. by rewrite E2.
       - intros s1 m x f _ _ _ _ H. exact H.
       - intros s1 m x sf _ _ H. exact H.
       - intros s1 m y _ H. exact H.
       - intros s1 m y _ H. exact H.
       - intros s1 q y Hq (x & Hx & Hxv). exists x. split; [|done]. simpl.
         rewrite lookup_partial_alter_ne; [done|]. set_solver.
       - intros s1 f H. exact H. }
  destruct op as [| | | | | | | | |q|q|q| | | | | | | | | | | |]; try discriminate Hop; clear Hop; simpl in E;
    [unfold mdl_sem_wait in E|unfold mdl_sem_trywait in E|unfold mdl_sem_post in E];
    [destruct (Z.eqb_spec q NULL) as [->|Hq];
       [injection E as <- <-; simpl; rewrite andb_false_r, Z.add_0_r; done|]..|];
    apply bind_inv in E as (st & s1 & E1 & E); injection E as <- <-;
    apply bind_inv in E1 as (x & s2 & E2 & E1); apply sem_at_inv in E2 as [-> Hy].
  - destruct (Z.ltb_spec 0 (sem x)); [|done].
    apply bind_inv in E1 as ([] & s3 & E3 & E1). injection E1 as <- <-.
    destruct (sem_change p q v _ x s _ s3 Hy E3 Hv) as [Hv' Hq']. simpl.
    rewrite andb_true_r. destruct (q =? p); [|by rewrite Z.add_0_r].
    specialize (Hq' eq_refl). subst v. split; [exact Hv'|lia].
  - destruct (Z.ltb_spec 0 (sem x)).
    2: { injection E1 as <- <-. simpl. rewrite andb_false_r, Z.add_0_r. done. }
    apply bind_inv in E1 as ([] & s3 & E3 & E1). injection E1 as <- <-.
    destruct (sem_change p q v _ x s _ s3 Hy E3 Hv) as [Hv' Hq']. simpl.
    rewrite andb_true_r. destruct (q =? p); [|by rewrite Z.add_0_r].
    specialize (Hq' eq_refl). subst v. split; [exact Hv'|lia].
  - destruct (sem x <? SEM_VALUE_MAX).
    2: { injection E1 as <- <-. simpl. rewrite andb_false_r, Z.add_0_r. done. }
    apply bind_inv in E1 as ([] & s3 & E3 & E1). injection E1 as <- <-.
    destruct (sem_change p q v _ x s _ s3 Hy E3 Hv) as [Hv' Hq']. simpl.
    rewrite andb_true_r. destruct (q =? p); [|by rewrite Z.add_0_r].
    specialize (Hq' eq_refl). subst v. split; [exact Hv'|lia].
Qed.

Definition sem_total (p : Z) (tr : list (Z * thr_op * Z)) : Z :=
  foldr (λ c n, sem_delta p c + n) 0 tr.

Lemma sem_run p v s tr s' :
  p ≠ NULL → run snprintf s tr s' → spared snprintf [p] s tr → sem_value p v s → 0 ≤ v →
  sem_value p (v + sem_total p tr) s' ∧ 0 ≤ v + sem_total p tr.
Proof.
  intros Hp Hrun. revert v.
  induction Hrun as [s|s self op r s1 tr s2 E _ IH]; intros v Hsp Hv H0; simpl.
  { by rewrite Z.add_0_r. }
  destruct Hsp as [HX Hsp]. destruct (sem_step _ _ _ _ _ _ _ Hp HX E Hv H0) as [Hv1 H1].
  rewrite Z.add_assoc. apply IH; auto.
Qed.
End sems.

(** C34: whatever the threads do, the value of a semaphore is its first value
    and the posts, less the waits that succeeded, and never negative;
    [mdl_sem_wait] blocks and [mdl_sem_trywait] fails exactly when it is zero.
    Any calls are allowed that do not destroy the semaphore, or make another
    one at its address. *)
Theorem sem_conservation snprintf p v s tr s' :
  p ≠ NULL → sem_value p v s → 0 ≤ v → run snprintf s tr s' → spared snprintf [p] s tr →
  let n := v + sem_total p tr in
  sem_value p n s' ∧ 0 ≤ n ∧ (mdl_sem_wait p s' = Blocked ↔ n = 0) ∧
  (mdl_sem_trywait p s' = Ret (FAILURE, s') ↔ n = 0).
Proof.
  intros Hp Hv H0 Hrun Hsp n. destruct (sem_run snprintf p v s tr s' Hp Hrun Hsp Hv H0) as [Hn Hn0]. fold n in Hn, Hn0.
  split; [done|]. split; [done|]. destruct Hn as (x & Hx & Hxn).
  unfold mdl_sem_wait, mdl_sem_trywait, sem_wait, sem_trywait, sem_at, sem_upd.
  rewrite (proj2 (Z.eqb_neq p NULL) Hp).
  unfold mbind, M_bind, gets_opt, modify_opt. rewrite Hx, Hxn.
  destruct (Z.ltb_spec 0 n); simpl; rewrite ?Hx; simpl.
  - split; (split; [|lia]); [done|]. by intros [=].
  - split; (split; [intros _; lia|done]).
Qed.

(** [mdl_thread_dump] lists the main thread and the threads that started,
    but [mdl_thread_register], called in another thread, makes the list of the
    main thread empty again: all of them are lost, and their nodes stay linked
    to the head. *)
Theorem register_loses_threads snprintf s xs m recs self tid_ name desc x fuel :
  dlist (t_nodes s) main_thread xs → t_threads s !! main_thread = Some m →
  Forall2 (λ p r, t_threads s !! p = Some r) xs recs → (length xs < fuel)%nat →
  desc ∉ main_thread :: xs → t_threads s !! desc = Some x → is_Some (t_nodes s !! desc) →
  let entry r := (tid r, obj_name r) in
  mdl_thread_dump fuel s = Ret (entry m :: (entry <$> recs), s) ∧
  ∃ s', mdl_thread_register snprintf self tid_ 0 name desc s = Ret ((SUCCESS, desc), s') ∧
    mdl_thread_dump fuel s' = Ret ([entry m], s') ∧
    (∀ p, p ∈ xs → t_nodes s' !! p = t_nodes s !! p).
Proof.
  intros Hl Hm Hrecs Hf Hd Hx Hn entry. split.
  - assert (wp (mdl_thread_dump fuel) (λ l s', l = entry m :: (entry <$> recs) ∧ s' = s) s) as Hw.
    2: { apply wp_run in Hw as (l & s' & Hr & -> & ->). done. }
    unfold mdl_thread_dump. apply wp_bind. eapply wp_gets_opt; [exact Hm|].
    apply wp_bind, (wp_list_empty main_thread xs); [exact Hl|].
    destruct xs as [|p xs]; simpl.
    + inversion Hrecs; subst. by apply wp_ret.
    + apply (wp_list_for_each main_thread (p :: xs) (λ pre l s', s' = s ∧
        l = entry m :: (entry <$> take (length pre) recs))); [done|by rewrite take_0| | |].
      * by intros pre l ? [-> _].
      * intros pre q post l ? Exs [-> ->]. rewrite Exs in Hrecs.
        apply Forall2_app_inv_l in Hrecs as (r1 & r2 & H1 & H2 & ->).
        apply Forall2_cons_inv_l in H2 as (r & r3 & Hr & _ & ->).
        apply wp_bind. eapply wp_gets_opt; [exact Hr|]. apply wp_ret. split; [done|].
        rewrite length_app, (Forall2_length _ _ _ H1), take_app_length.
        simpl length. rewrite take_app_add. simpl. by rewrite fmap_app.
      * intros l ? [-> ->]. apply wp_ret. split; [|done].
        by rewrite (Forall2_length _ _ _ Hrecs), firstn_all.
  - assert (wp (mdl_thread_register snprintf self tid_ 0 name desc) (λ r s', r = (SUCCESS, desc) ∧
      dlist (t_nodes s') main_thread [] ∧ t_threads s' !! main_thread = Some m ∧
      (∀ p, p ∈ xs → t_nodes s' !! p = t_nodes s !! p)) s) as Hw.
    2: { apply wp_run in Hw as (r & s' & Hr & -> & Hl' & Hm' & Hsame). exists s'.
         split; [done|]. split; [|done]. unfold mdl_thread_dump.
         erewrite bind_ret by (unfold thread_at, gets_opt; by rewrite Hm').
         assert (wp (list_empty main_thread) (λ b s2, b = true ∧ s2 = s') s') as He
           by (by apply (wp_list_empty main_thread [])).
         apply wp_run in He as (b & s2 & He & -> & ->). by erewrite bind_ret by exact He. }
    apply not_elem_of_cons in Hd as [Hdm Hdx].
    assert (is_Some (t_nodes s !! main_thread)) as Hmn by (eapply dlist_is_Some; [done|apply list_elem_of_here]).
    unfold mdl_thread_register, bzero_thread. apply wp_bind, wp_bind.
    eapply wp_modify_opt; [by rewrite Hx|]. apply wp_bind, wp_set_next; [done|].
    apply wp_set_prev. { simpl. by rewrite is_Some_upd_next. }
    apply wp_bind. eapply wp_modify_opt; [simpl; by rewrite lookup_insert_eq|].
    apply wp_bind. unfold mdl_thread_local_set. simpl. apply wp_bind, wp_modify, wp_ret. simpl.
    apply wp_bind, wp_init_list_head.
    { simpl. by rewrite is_Some_upd_prev, is_Some_upd_next. }
    intros h' Hh' Hsame. apply wp_ret. simpl. split; [done|]. split; [done|]. split.
    + by rewrite !lookup_insert_ne.
    + intros p Hp. assert (p ≠ main_thread) by (eapply dlist_head_ne; [exact Hl|done]).
      rewrite Hsame by set_solver. simpl. rewrite lookup_upd_prev_ne, lookup_upd_next_ne; [done|..];
        by intros ->.
Qed.

(** ** Witnesses *)

Module thread_witness.
(** Thread 1 is the main thread, thread 2 another one; a normal mutex, an
    atomic with its mutex, a semaphore and a record to register. *)
Definition mx : mdl_mutex_s := Mutex (PMutex false true 0 0) "m" 0 NULL "".
Definition s0 : thr_state :=
  TS (list_to_map [(0x300, mx); (0x310, mx)]) {[ 0x400 := Atomic 0x310 7 ]}
    {[ 0x500 := Sem 1 "s" ]}
    (list_to_map [(main_thread, Thread "main" 1 10 0 0 0); (0x200, Thread "two" 2 20 5 0 0);
      (0x600, Thread "" 0 0 0 0 0)])
    (list_to_map [(main_thread, Node 0x200 0x200); (0x200, Node main_thread main_thread);
      (0x600, Node 0 0)])
    (list_to_map [(1, main_thread); (2, 0x200)]) [].
Definition fmt (f : string) (_ : Z) : string := f.
Definition after {A} (m : thrM A) (s : thr_state) : thr_state :=
  match m s with Ret (_, s') => s' | _ => s end.
Definition s1 : thr_state := after (mdl_mutex_lock 1 0x300) s0.

Definition s1' : thr_state := after (mdl_mutex_destroy 2 0x310) s1.

Lemma mutex_never_released_witness :
  mdl_mutex_lock 2 0x300 s1' = Blocked ∧ mdl_mutex_trylock 2 0x300 s1' = Ret (FAILURE, s1').
Proof.
  apply (mutex_never_released fmt s0 1 0x300 s1
    [(2, Trylock 0x300, FAILURE); (2, MutexDestroy 0x310, SUCCESS)] s1' 2).
  - lia.
  - discriminate.
  - by vm_compute.
  - eapply run_cons; [by vm_compute|]. eapply run_cons; [by vm_compute|constructor].
  - split; [set_solver|]. intros s2 _. split; [set_solver|done].
  - lia.
Defined.

Definition s2 : thr_state :=
  after (mdl_thread_create fmt 1 0x700 0x800 3 0 None 5 0 THREAD_SUSPENDED) s0.
Lemma suspended_never_starts_witness : mdl_thread_resume 1 0x700 s2 = Blocked.
Proof.
  apply (suspended_never_starts fmt s0 1 0x700 0x800 3 None 5 0 s2 [] s2).
  - lia.
  - discriminate.
  - by vm_compute.
  - constructor.
  - done.
Defined.

Lemma atomic_ops_never_return_witness : mdl_atomic_inc 1 0x400 s0 = Blocked.
Proof.
  apply (atomic_ops_never_return s0 1 0x400 (Atomic 0x310 7) mx 0).
  - exists main_thread. split; [done|]. by eexists.
  - lia.
  - done.
  - discriminate.
  - done.
  - done.
  - done.
Defined.

Definition s3 : thr_state := after (mdl_sem_wait 0x500) s0.
Lemma sem_conservation_witness : mdl_sem_wait 0x500 s3 = Blocked.
Proof.
  assert (1 + sem_total 0x500 [(2, SemWait 0x500, SUCCESS)] = 0) as E by by vm_compute.
  apply (sem_conservation fmt 0x500 1 s0 [(2, SemWait 0x500, SUCCESS)] s3).
  - discriminate.
  - by eexists.
  - lia.
  - eapply run_cons; [by vm_compute|constructor].
  - split; [|done]. intros ? []%elem_of_nil.
  - exact E.
Defined.

Lemma register_loses_threads_witness :
  mdl_thread_dump 9 s0 = Ret ([(10, "main"); (20, "two")]%string, s0) ∧
  ∃ s', mdl_thread_register fmt 3 30 0 None 0x600 s0 = Ret ((SUCCESS, 0x600), s') ∧
    mdl_thread_dump 9 s' = Ret ([(10, "main")]%string, s').
Proof.
  destruct (register_loses_threads fmt s0 [0x200] (Thread "main" 1 10 0 0 0)
    [Thread "two" 2 20 5 0 0] 3 30 None 0x600 (Thread "" 0 0 0 0 0) 9)
    as (H & s' & H1 & H2 & _).
  - split; [apply (bool_decide_unpack _); by vm_compute|]. repeat split.
  - done.
  - by repeat constructor.
  - simpl. lia.
  - apply (bool_decide_unpack _). by vm_compute.
  - done.
  - by eexists.
  - split; [exact H|]. by exists s'.
Defined.
End thread_witness.
