(* ===== verification/Signal.v ===== *)
(** * Signal: signal/module_sig.h and module_sig.c

    Signals that a thread blocks, a thread that takes them with [sigwait], and
    handlers.  The [sigset_t] of a function lives in its stack frame, as long as
    the function runs.  What [pthread_create] and [sigwait] return is an
    argument.  The log (module_log.h, not in the repository) is the list of the
    signals reported. *)
From stdpp Require Import base tactics list numbers gmap fin_maps sets.
From S2P Require Import Prelude.
Local Open Scope Z_scope.

(** ** Signals of the system *)

Definition SIGKILL : Z := 9.
Definition SIGSTOP : Z := 19.

(** The numbers that the C library knows; it keeps 32 and 33 to itself. *)
Definition sig_valid (sig : Z) : bool :=
  (1 <=? sig) && (sig <=? 64) && negb (sig =? 32) && negb (sig =? 33).
(** Those that can be blocked and caught. *)
Definition sig_maskable (sig : Z) : bool :=
  sig_valid sig && negb (sig =? SIGKILL) && negb (sig =? SIGSTOP).

(** A thread in [handler_sys_syn]: its argument and the signals it blocks. *)
Record sig_thread := SigThread { th_set : Z; th_mask : gset Z }.

Record signals := Signals {
  sg_mask : gset Z;                   (* blocked in the calling thread *)
  sg_handlers : gmap Z Z;             (* installed handlers by signal *)
  sg_pending : gset Z;                (* sent to the process, not yet taken *)
  sg_frames : gmap Z (option (gset Z)); (* the [sigset_t] objects; none: indeterminate *)
  sg_threads : gmap Z sig_thread;
  sg_log : list Z;
}.

Definition set_mask (f : gset Z → gset Z) (s : signals) : signals :=
  Signals (f (sg_mask s)) (sg_handlers s) (sg_pending s) (sg_frames s) (sg_threads s) (sg_log s).
Definition set_handlers (f : gmap Z Z → gmap Z Z) (s : signals) : signals :=
  Signals (sg_mask s) (f (sg_handlers s)) (sg_pending s) (sg_frames s) (sg_threads s) (sg_log s).
Definition set_pending (f : gset Z → gset Z) (s : signals) : signals :=
  Signals (sg_mask s) (sg_handlers s) (f (sg_pending s)) (sg_frames s) (sg_threads s) (sg_log s).
Definition set_frames (f : gmap Z (option (gset Z)) → gmap Z (option (gset Z))) (s : signals) : signals :=
  Signals (sg_mask s) (sg_handlers s) (sg_pending s) (f (sg_frames s)) (sg_threads s) (sg_log s).
Definition set_threads (f : gmap Z sig_thread → gmap Z sig_thread) (s : signals) : signals :=
  Signals (sg_mask s) (sg_handlers s) (sg_pending s) (sg_frames s) (f (sg_threads s)) (sg_log s).
Definition set_log (f : list Z → list Z) (s : signals) : signals :=
  Signals (sg_mask s) (sg_handlers s) (sg_pending s) (sg_frames s) (sg_threads s) (f (sg_log s)).

Abbreviation sigM := (M signals).

(** [sigset_t set;] at the address [set], for the time of a call. *)
Definition frame {A} (set : Z) (body : sigM A) : sigM A :=
  modify (set_frames <[set := None]>);;
  r ← body;
  modify (set_frames (delete set));;
  mret r.

Definition frame_at (set : Z) (s : signals) : option (gset Z) :=
  match sg_frames s !! set with Some (Some v) => Some v | _ => None end.

Definition sigemptyset (set : Z) : sigM unit :=
  modify_opt (λ s, if sg_frames s !! set is Some _ then Some (set_frames <[set := Some ∅]> s) else None).
(** The result ([-1] for an invalid number) is not looked at. *)
Definition sigaddset (set sig : Z) : sigM unit :=
  v ← gets_opt (frame_at set);
  if sig_valid sig then modify (set_frames <[set := Some ({[sig]} ∪ v)]>) else mret tt.
(** [pthread_sigmask(SIG_BLOCK, &set, NULL)] *)
Definition pthread_sigmask (set : Z) : sigM unit :=
  v ← gets_opt (frame_at set);
  modify (set_mask (λ m, m ∪ filter sig_maskable v)).
Definition signal (sig func : Z) : sigM unit :=
  if sig_maskable sig then modify (set_handlers <[sig := func]>) else mret tt.
(** [rc] is the result; the thread gets the number [tid] and the mask of its creator. *)
Definition pthread_create (rc tid set : Z) : sigM Z :=
  (if rc =? 0 then modify (λ s, set_threads <[tid := SigThread set (sg_mask s)]> s) else mret tt);;
  mret rc.
(** [rc] is the result, [sig] the signal that is taken.  The wait goes on while
    it is not there. *)
Definition sigwait (set rc sig : Z) : sigM Z :=
  v ← gets_opt (frame_at set);
  (if rc =? 0 then
     p ← gets sg_pending;
     if bool_decide (sig ∈ v ∩ p) then modify (set_pending (λ p, p ∖ {[sig]})) else blocked
   else mret tt);;
  mret rc.

(** ** The module *)

(** [for (i = 0; i < cnt; ++i) f(sigs[i])] *)
Definition for_sigs (fuel : nat) (sigs : list Z) (cnt : Z) (f : Z → sigM unit) : sigM unit :=
  loop fuel (λ i,
    if i <? cnt then
      sig ← gets_opt (λ _, sigs !! Z.to_nat i);
      f sig;;
      mret (inl (i + 1))
    else mret (inr tt)) 0.

(** The report of a signal; also the handler, at the address [callback]. *)
Definition handler_callback (sig : Z) : sigM unit := modify (set_log (λ l, l ++ [sig])).

Definition module_sig_mask (fuel : nat) (callback set : Z) (sigs : list Z) (cnt : Z) : sigM unit :=
  frame set (
    sigemptyset set;;
    for_sigs fuel sigs cnt (sigaddset set);;
    pthread_sigmask set;;
    for_sigs fuel sigs cnt (λ sig, signal sig callback)).

(** [module_sig_syn] up to its return. *)
Definition sig_syn_body (fuel : nat) (rc tid set : Z) (sigs : list Z) (cnt : Z) : sigM Z :=
  sigemptyset set;;
  for_sigs fuel sigs cnt (sigaddset set);;
  ret ← pthread_create rc tid set;
  if negb (ret =? 0) then mret ret else mret 0.

Definition module_sig_syn (fuel : nat) (rc tid set : Z) (sigs : list Z) (cnt : Z) : sigM Z :=
  frame set (sig_syn_body fuel rc tid set sigs cnt).

(** One round of the loop of [handler_sys_syn] in the thread [tid]. *)
Definition handler_sys_syn_round (tid rc sig : Z) : sigM unit :=
  th ← gets_opt (λ s, sg_threads s !! tid);
  ret ← sigwait (th_set th) rc sig;
  if ret =? 0 then handler_callback sig else mret tt.

(** Rounds in which the thread takes these signals. *)
Fixpoint handler_rounds (tid : Z) (taken : list Z) : sigM unit :=
  match taken with
  | [] => mret tt
  | sig :: taken => handler_sys_syn_round tid 0 sig;; handler_rounds tid taken
  end.

Definition module_sig_asyn (sig func : Z) : sigM unit := signal sig func.

(** ** Loops over the signals *)

Lemma wp_for_sigs fuel sigs f (P : list Z → signals → Prop) Q s : (length sigs < fuel)%nat → P [] s →
  (∀ ready sig rest s, sigs = ready ++ sig :: rest → P ready s → wp (f sig) (λ _, P (ready ++ [sig])) s) →
  (∀ s, P sigs s → Q tt s) → wp (for_sigs fuel sigs (Z.of_nat (length sigs)) f) Q s.
Proof.
  intros Hfuel Hstart Hstep Hend. unfold for_sigs.
  eapply (wp_loop _ (λ n i s, ∃ ready rest, sigs = ready ++ rest ∧ i = Z.of_nat (length ready) ∧ (length rest ≤ n)%nat ∧ P ready s)) with (n := length sigs);
    [|by exists [], sigs|done].
  clear s Hstart. intros n i s (ready & rest & Hsigs & -> & Hn & HP). destruct rest as [|sig rest].
  - rewrite app_nil_r in Hsigs. subst ready. rewrite Z.ltb_irrefl. wp_steps. by apply Hend.
  - rewrite (proj2 (Z.ltb_lt _ _)) by (rewrite Hsigs; len).
    apply wp_bind, (wp_gets_opt _ sig). { rewrite Nat2Z.id, Hsigs. by apply list_lookup_middle. }
    apply wp_bind. eapply wp_mono; [by eapply Hstep|]. intros [] s' HP'. wp_steps.
    destruct n as [|n]; [simpl in Hn; lia|]. exists n. split; [lia|]. exists (ready ++ [sig]), rest.
    split_and!; [by rewrite <- app_assoc|len|simpl in Hn; lia|done].
Qed.

(** The signals of a list that a set can hold, and those that it blocks. *)
Definition sigs_valid (sigs : list Z) : gset Z := list_to_set (filter sig_valid sigs).
Definition sigs_maskable (sigs : list Z) : gset Z := list_to_set (filter sig_maskable sigs).

Lemma elem_of_sigs_valid sigs x : x ∈ sigs_valid sigs ↔ sig_valid x ∧ x ∈ sigs.
Proof. unfold sigs_valid. by rewrite elem_of_list_to_set, list_elem_of_filter. Qed.
Lemma elem_of_sigs_maskable sigs x : x ∈ sigs_maskable sigs ↔ sig_maskable x ∧ x ∈ sigs.
Proof. unfold sigs_maskable. by rewrite elem_of_list_to_set, list_elem_of_filter. Qed.
Lemma maskable_valid x : sig_maskable x → sig_valid x.
Proof. unfold sig_maskable. by destruct (sig_valid x). Qed.
Lemma filter_sigs_valid sigs : filter sig_maskable (sigs_valid sigs) = sigs_maskable sigs.
Proof.
  apply set_eq. intros x. rewrite elem_of_filter, elem_of_sigs_valid, elem_of_sigs_maskable.
  pose proof (maskable_valid x). naive_solver.
Qed.
Lemma sigs_valid_snoc ready sig : sigs_valid (ready ++ [sig]) =
  if sig_valid sig then {[sig]} ∪ sigs_valid ready else sigs_valid ready.
Proof.
  apply set_eq. intros x. rewrite elem_of_sigs_valid, elem_of_app, list_elem_of_singleton.
  destruct (sig_valid sig) eqn:E; [rewrite elem_of_union, elem_of_singleton|]; rewrite elem_of_sigs_valid; [naive_solver|].
  split; [|naive_solver]. intros [Hx [Hin | ->]]; [done|]. by rewrite E in Hx.
Qed.

(** ** The functions *)

(** What [sigemptyset] and the first loop leave in the frame. *)
Definition with_set (set : Z) (v : gset Z) (s : signals) : signals := set_frames <[set := Some v]> s.

Lemma frame_at_with_set set v s : frame_at set (with_set set v s) = Some v.
Proof. unfold frame_at, with_set. simpl. by rewrite lookup_insert_eq. Qed.
Lemma with_set_twice set v w s : with_set set v (with_set set w s) = with_set set v s.
Proof. unfold with_set, set_frames. simpl. by rewrite insert_insert_eq. Qed.

Lemma wp_sigaddset set sig v s Q : Q tt (with_set set (if sig_valid sig then {[sig]} ∪ v else v) s) →
  wp (sigaddset set sig) Q (with_set set v s).
Proof.
  intros HQ. unfold sigaddset. apply wp_bind, (wp_gets_opt _ v); [apply frame_at_with_set|].
  destruct (sig_valid sig); wp_steps; [|done].
  replace (set_frames _ _) with (with_set set ({[sig]} ∪ v) s); [done|by rewrite <- (with_set_twice set _ v s)].
Qed.

(** Both functions fill the set in the same way. *)
Lemma wp_fill_set {A} fuel set sigs (k : sigM A) Q s : (length sigs < fuel)%nat → is_Some (sg_frames s !! set) →
  wp k Q (with_set set (sigs_valid sigs) s) →
  wp (sigemptyset set;; for_sigs fuel sigs (Z.of_nat (length sigs)) (sigaddset set);; k) Q s.
Proof.
  intros Hfuel [w Hset] Hk. unfold sigemptyset. apply wp_bind, (wp_modify_opt _ (with_set set ∅ s)); [by rewrite Hset|].
  apply wp_bind, (wp_for_sigs _ _ _ (λ ready s', s' = with_set set (sigs_valid ready) s)); [done|done| |by intros s' ->].
  intros ready sig rest s' _ ->. apply wp_sigaddset. by rewrite sigs_valid_snoc.
Qed.

(** A frame that is new leaves the other frames as they were. *)
Lemma wp_frame {A} set (body : sigM A) Q s :
  wp body (λ r s', Q r (set_frames (delete set) s')) (set_frames <[set := None]> s) → wp (frame set body) Q s.
Proof. intros H. unfold frame. wp_steps. eapply wp_mono; [exact H|]. intros r s' HQ. by wp_steps. Qed.

(** The handlers after [signal] on each of the signals. *)
Definition installed (callback : Z) (sigs : list Z) (h : gmap Z Z) : gmap Z Z :=
  gset_to_gmap callback (sigs_maskable sigs) ∪ h.

Lemma installed_snoc callback ready sig h : installed callback (ready ++ [sig]) h =
  if sig_maskable sig then <[sig := callback]> (installed callback ready h) else installed callback ready h.
Proof.
  apply map_eq. intros x. unfold installed. destruct (sig_maskable sig) eqn:E.
  - destruct (decide (x = sig)) as [-> |Hx]; [rewrite lookup_insert_eq|rewrite lookup_insert_ne by done].
    + apply lookup_union_Some_l, lookup_gset_to_gmap_Some. split; [|done].
      rewrite elem_of_sigs_maskable, E. set_solver.
    + rewrite !lookup_union, !lookup_gset_to_gmap. f_equal. apply option_guard_iff.
      rewrite !elem_of_sigs_maskable. set_solver.
  - rewrite !lookup_union, !lookup_gset_to_gmap. f_equal. apply option_guard_iff.
    rewrite !elem_of_sigs_maskable, elem_of_app, list_elem_of_singleton.
    split; [|naive_solver]. intros [Hx [Hin | ->]]; [done|]. by rewrite E in Hx.
Qed.

Lemma wp_install fuel callback sigs Q s : (length sigs < fuel)%nat →
  Q tt (set_handlers (installed callback sigs) s) →
  wp (for_sigs fuel sigs (Z.of_nat (length sigs)) (λ sig, signal sig callback)) Q s.
Proof.
  intros Hfuel HQ. apply (wp_for_sigs _ _ _ (λ ready s', s' = set_handlers (installed callback ready) s)); [done| | |].
  - unfold installed, set_handlers, sigs_maskable. simpl. rewrite gset_to_gmap_empty, (left_id_L ∅ (∪)). by destruct s.
  - intros ready sig rest s' _ ->. unfold signal. rewrite installed_snoc || idtac.
    destruct (sig_maskable sig) eqn:E; wp_steps; unfold set_handlers; simpl; by rewrite installed_snoc, E.
  - by intros s' ->.
Qed.

(** [module_sig_syn] up to its return, in a frame of its own. *)
Lemma wp_sig_syn_body fuel rc tid set sigs Q s : (length sigs < fuel)%nat → is_Some (sg_frames s !! set) →
  (rc ≠ 0 → Q rc (with_set set (sigs_valid sigs) s)) →
  (rc = 0 → Q 0 (set_threads <[tid := SigThread set (sg_mask s)]> (with_set set (sigs_valid sigs) s))) →
  wp (sig_syn_body fuel rc tid set sigs (Z.of_nat (length sigs))) Q s.
Proof.
  intros Hfuel Hset Hfail Hok. unfold sig_syn_body. apply wp_fill_set; [done|done|].
  unfold pthread_create. wp_steps. destruct (Z.eqb_spec rc 0) as [-> |Hrc]; wp_steps.
  - by apply Hok.
  - rewrite (proj2 (Z.eqb_neq rc 0)) by done. simpl. wp_steps. by apply Hfail.
Qed.

(** The thread takes signals as long as the set it was given exists. *)
Lemma wp_round tid sig set v mask Q s : sg_threads s !! tid = Some (SigThread set mask) →
  frame_at set s = Some v → sig ∈ v ∩ sg_pending s →
  Q tt (set_log (λ l, l ++ [sig]) (set_pending (λ p, p ∖ {[sig]}) s)) → wp (handler_sys_syn_round tid 0 sig) Q s.
Proof.
  intros Htid Hv Hsig HQ. unfold handler_sys_syn_round, sigwait, handler_callback.
  apply wp_bind. eapply wp_gets_opt; [exact Htid|]. apply wp_bind. apply wp_bind. eapply wp_gets_opt; [exact Hv|].
  simpl. wp_steps. rewrite bool_decide_eq_true_2 by done. wp_steps. simpl. by wp_steps.
Qed.

Lemma wp_rounds tid set v mask taken Q : NoDup taken → ∀ s, sg_threads s !! tid = Some (SigThread set mask) →
  frame_at set s = Some v → Forall (.∈ v ∩ sg_pending s) taken →
  Q tt (set_log (λ l, l ++ taken) (set_pending (λ p, p ∖ list_to_set taken) s)) → wp (handler_rounds tid taken) Q s.
Proof.
  induction 1 as [|sig taken Hnot _ IH]; intros s Htid Hv Hall HQ; simpl.
  - wp_steps. unfold set_log, set_pending in HQ. simpl in HQ. rewrite app_nil_r, difference_empty_L in HQ. by destruct s.
  - apply Forall_cons in Hall as [Hsig Hall]. apply wp_bind. eapply wp_round; [done..|].
    apply IH; [done|done| |].
    + simpl. rewrite Forall_forall in *. set_solver.
    + unfold set_log, set_pending in *. simpl in *. by rewrite <- app_assoc, difference_difference_l_L.
Qed.

(** Without the set each round reads a dead object. *)
Lemma round_dead_frame tid rc sig set mask s : sg_threads s !! tid = Some (SigThread set mask) →
  sg_frames s !! set = None → handler_sys_syn_round tid rc sig s = Fault.
Proof.
  intros Htid Hset. unfold handler_sys_syn_round, sigwait, mbind, M_bind, gets_opt. rewrite Htid. simpl.
  unfold frame_at. by rewrite Hset.
Qed.

(** A set in a frame of its own is gone when the function returns. *)
Lemma delete_frame set v (m : gmap Z (option (gset Z))) : m !! set = None →
  delete set (<[set := v]> (<[set := None]> m)) = m.
Proof. intros Hset. by rewrite insert_insert_eq, delete_insert_id. Qed.

(** C39: blocking signals and taking them in a thread.  [module_sig_mask] blocks
    the given signals and installs the handler for them, other than SIGKILL and
    SIGSTOP and numbers that are not signals, and for nothing else.
    [module_sig_syn] creates a thread that blocks what its creator blocks, or
    returns the error of [pthread_create] and changes nothing.  As long as
    [module_sig_syn] has not returned, the thread takes and reports any of the
    signals that are pending.  Afterwards every round of it reads the set in the
    frame that is gone. *)
Theorem signal_thread_spec fuel callback set sigs rc tid taken s :
  (length sigs < fuel)%nat → sg_frames s !! set = None →
  let cnt := Z.of_nat (length sigs) in
  wp (module_sig_mask fuel callback set sigs cnt) (λ _ s',
    s' = set_handlers (installed callback sigs) (set_mask (λ m, m ∪ sigs_maskable sigs) s)) s ∧
  (rc ≠ 0 → wp (module_sig_syn fuel rc tid set sigs cnt) (λ r s', r = rc ∧ s' = s) s) ∧
  (rc = 0 → wp (module_sig_syn fuel rc tid set sigs cnt) (λ r s',
    r = 0 ∧ s' = set_threads <[tid := SigThread set (sg_mask s)]> s ∧
    ∀ rc' sig, handler_sys_syn_round tid rc' sig s' = Fault) s) ∧
  (rc = 0 → NoDup taken → Forall (.∈ sigs_valid sigs ∩ sg_pending s) taken →
   wp (frame set (r ← sig_syn_body fuel rc tid set sigs cnt; handler_rounds tid taken;; mret r)) (λ r s',
    r = 0 ∧ sg_log s' = sg_log s ++ taken ∧ sg_pending s' = sg_pending s ∖ list_to_set taken ∧
    sg_frames s' = sg_frames s ∧ ∀ rc' sig, handler_sys_syn_round tid rc' sig s' = Fault) s).
Proof.
  intros Hfuel Hset cnt. assert (∀ v, is_Some (sg_frames (set_frames <[set := v]> s) !! set)) as Hin.
  { intros v. simpl. rewrite lookup_insert_eq. by eexists. }
  split_and!.
  - unfold module_sig_mask. apply wp_frame, wp_fill_set; [done|done|]. unfold pthread_sigmask.
    apply wp_bind, wp_bind. eapply wp_gets_opt; [apply frame_at_with_set|]. wp_steps. rewrite filter_sigs_valid.
    apply wp_install; [done|]. unfold set_handlers, set_mask, set_frames. simpl. by rewrite delete_frame.
  - intros Hrc. unfold module_sig_syn. apply wp_frame, wp_sig_syn_body; [done|done| |done]. intros _. split; [done|].
    unfold with_set, set_frames. simpl. rewrite delete_frame by done. by destruct s.
  - intros Hrc. unfold module_sig_syn. apply wp_frame, wp_sig_syn_body; [done|done|done|]. intros _.
    split_and!; [done| |].
    + unfold with_set, set_frames, set_threads. simpl. by rewrite delete_frame.
    + intros rc' sig. eapply round_dead_frame; simpl; [apply lookup_insert_eq|apply lookup_delete_eq].
  - intros Hrc Hnd Htaken. apply wp_frame, wp_bind, wp_sig_syn_body; [done|done|done|]. intros _.
    apply wp_bind. eapply wp_rounds; [done|apply lookup_insert_eq|apply frame_at_with_set|exact Htaken|].
    wp_steps. simpl. rewrite delete_frame by done. split_and!; [done..|].
    intros rc' sig. eapply round_dead_frame; simpl; [apply lookup_insert_eq|].
    by rewrite delete_frame.
Qed.

(** ** Witness *)

Module signal_witness.
(** SIGINT and SIGTERM are pending. *)
Definition start : signals := Signals ∅ ∅ {[2; 15]} ∅ ∅ [].

Example mask_two : (λ r, sg_mask r.2) <$> (match module_sig_mask 9 4096 64 [2; 9; 15] 3 start with Ret r => Some r | _ => None end)
  = Some ({[2; 15]} : gset Z).
Proof. vm_compute. reflexivity. Qed.
Example beyond_the_array : module_sig_mask 9 4096 64 [2; 15] 3 start = Fault.
Proof. vm_compute. reflexivity. Qed.

Lemma signal_thread_spec_witness :
  wp (frame 64 (r ← sig_syn_body 9 0 7 64 [2; 15] 2; handler_rounds 7 [15; 2];; mret r)) (λ r s',
    r = 0 ∧ sg_log s' = sg_log start ++ [15; 2] ∧ sg_pending s' = sg_pending start ∖ list_to_set [15; 2] ∧
    sg_frames s' = sg_frames start ∧ ∀ rc' sig, handler_sys_syn_round 7 rc' sig s' = Fault) start.
Proof.
  apply (signal_thread_spec 9 4096 64 [2; 15] 0 7 [15; 2] start); [vm_compute; lia|done|done| |].
  - by apply (bool_decide_unpack _).
  - by apply (bool_decide_unpack _).
Defined.
End signal_witness.
