(* ===== verification/Idr.v ===== *)
(** * Small ids for pointers: src/datastruct/idr.c, src/datastruct/idr.h

    A radix tree of [struct idr_layer]s, 64 slots each, on a machine with 64-bit
    longs, and the list of spare layers.  The bit operations and the slab
    allocator are those of the kernel: parameters, with their documented
    behaviour as laws.  The abstract state is a finite map from ids to
    pointers. *)
From stdpp Require Import base tactics list numbers gmap fin_maps sets fin_sets.
From S2P Require Import Prelude Lists.
Local Open Scope Z_scope.

(** ** idr.h, with BITS_PER_LONG 64 *)

Definition IDR_BITS : Z := 6.
Definition IDR_FULL : Z := 0xffffffffffffffff.
Definition IDR_SIZE : Z := Z.shiftl 1 IDR_BITS.
Definition IDR_MASK : Z := Z.shiftl 1 IDR_BITS - 1.
Definition MAX_ID_SHIFT : Z := 4 * 8 - 1.
Definition MAX_ID_BIT : Z := Z.shiftl 1 MAX_ID_SHIFT.
Definition MAX_ID_MASK : Z := MAX_ID_BIT - 1.
Definition MAX_LEVEL : Z := (MAX_ID_SHIFT + IDR_BITS - 1) / IDR_BITS.
Definition IDR_FREE_MAX : Z := MAX_LEVEL + MAX_LEVEL.
(** <errno.h> *)
Definition EAGAIN : Z := 11.
Definition ENOSPC : Z := 28.

Record idr_layer := Layer { bitmap : Z; ary : list Z; count : Z }.
Record idr := Idr {
  top : Z;
  id_free : Z;
  layers : Z;
  id_free_cnt : Z;
  idr_lock : bool;
}.

(** The handle, the layers, the objects the slab cache holds, whether
    [idr_layer_cache] has been created, and the ids warned about. *)
Record idr_state := IdrState {
  the_idr : idr;
  layer_at : gmap Z idr_layer;
  slab : gmap Z idr_layer;
  idr_layer_cache : bool;
  warned : list Z;
}.

(** <linux/bitops.h> on one long, and [kmem_cache_alloc]: the address it picks
    when these objects are live, NULL when there is no memory. *)
Class Kernel := {
  find_next_bit : Z → Z → Z → Z;
  __set_bit : Z → Z → Z;
  __clear_bit : Z → Z → Z;
  test_bit : Z → Z → bool;
  kmem_pick : gmap Z idr_layer → Z → Z;
}.
Class KernelLaws `{Kernel} := {
  find_next_bit_spec b size n : 0 ≤ n < size →
    n ≤ find_next_bit b size n ≤ size ∧
    (∀ i, n ≤ i < find_next_bit b size n → Z.testbit b i = false) ∧
    (find_next_bit b size n < size → Z.testbit b (find_next_bit b size n) = true);
  set_bit_spec n b : 0 ≤ n < 64 → __set_bit n b = Z.setbit b n;
  clear_bit_spec n b : 0 ≤ n < 64 → __clear_bit n b = Z.clearbit b n;
  test_bit_spec n b : 0 ≤ n < 64 → test_bit n b = Z.testbit b n;
  kmem_pick_spec h gfp : kmem_pick h gfp ≠ NULL → h !! kmem_pick h gfp = None;
}.

(** ** Access to the state *)

Abbreviation idM := (M idr_state).
Definition upd_idr (f : idr → idr) (s : idr_state) : idr_state :=
  IdrState (f (the_idr s)) (layer_at s) (slab s) (idr_layer_cache s) (warned s).
Definition with_layers (h : gmap Z idr_layer) (s : idr_state) : idr_state :=
  IdrState (the_idr s) h (slab s) (idr_layer_cache s) (warned s).
Definition with_slab (h : gmap Z idr_layer) (s : idr_state) : idr_state :=
  IdrState (the_idr s) (layer_at s) h (idr_layer_cache s) (warned s).

Definition set_top (v : Z) (i : idr) : idr := Idr v (id_free i) (layers i) (id_free_cnt i) (idr_lock i).
Definition set_id_free (v : Z) (i : idr) : idr := Idr (top i) v (layers i) (id_free_cnt i) (idr_lock i).
Definition set_nlayers (v : Z) (i : idr) : idr := Idr (top i) (id_free i) v (id_free_cnt i) (idr_lock i).
Definition set_cnt (v : Z) (i : idr) : idr := Idr (top i) (id_free i) (layers i) v (idr_lock i).
Definition set_lock (v : bool) (i : idr) : idr := Idr (top i) (id_free i) (layers i) (id_free_cnt i) v.

Definition get_idr {A} (f : idr → A) : idM A := gets (λ s, f (the_idr s)).
Definition set_idr (f : idr → idr) : idM unit := modify (upd_idr f).
Definition layer_get (p : Z) : idM idr_layer := gets_opt (λ s, layer_at s !! p).
Definition layer_upd (p : Z) (f : idr_layer → option idr_layer) : idM unit :=
  modify_opt (λ s, x ← layer_at s !! p; y ← f x; Some (with_layers (<[p := y]> (layer_at s)) s)).

Definition get_ary (p n : Z) : idM Z :=
  x ← layer_get p; gets_opt (λ _, if n <? 0 then None else ary x !! Z.to_nat n).
Definition set_ary (p n v : Z) : idM unit :=
  layer_upd p (λ x,
    if (0 <=? n) && (n <? Z.of_nat (length (ary x)))
    then Some (Layer (bitmap x) (<[Z.to_nat n := v]> (ary x)) (count x)) else None).
Definition get_bitmap (p : Z) : idM Z := x ← layer_get p; mret (bitmap x).
Definition set_bitmap (p v : Z) : idM unit := layer_upd p (λ x, Some (Layer v (ary x) (count x))).
Definition get_count (p : Z) : idM Z := x ← layer_get p; mret (count x).
Definition set_count (p v : Z) : idM unit := layer_upd p (λ x, Some (Layer (bitmap x) (ary x) v)).

(** Waiting for a spin lock that is held is waiting for ever here: the
    program is sequential. *)
Definition spin_lock : idM unit :=
  held ← get_idr idr_lock; if (held : bool) then blocked else set_idr (set_lock true).
Definition spin_unlock : idM unit := set_idr (set_lock false).

(** [int] arithmetic that C leaves undefined when it overflows. *)
Definition int_of (x : Z) : idM Z :=
  if (- 2 ^ 31 <=? x) && (x <? 2 ^ 31) then mret x else fault.
Definition one_shl (k : Z) : idM Z :=
  if (0 <=? k) && (k <? 32) then int_of (Z.shiftl 1 k) else fault.

(** A local array of [MAX_LEVEL] elements, not initialised. *)
Definition larray (A : Type) : Type := list (option A).
Definition larray_new {A} : larray A := replicate (Z.to_nat MAX_LEVEL) None.
Definition larray_get {A} (pa : larray A) (i : Z) : idM A :=
  gets_opt (λ _, if i <? 0 then None else mjoin (pa !! Z.to_nat i)).
Definition larray_set {A} (pa : larray A) (i : Z) (v : A) : idM (larray A) :=
  gets_opt (λ _, if (0 <=? i) && (i <? Z.of_nat (length pa))
                 then Some (<[Z.to_nat i := Some v]> pa) else None).

(** ** idr.c *)

(** [idr_cache_ctor] *)
Definition idr_cache_ctor : idr_layer := Layer 0 (replicate (Z.to_nat IDR_SIZE) NULL) 0.

Section program.
Context `{Kernel}.

(** An object is constructed when the cache gets it from the system; what is
    freed keeps its contents. *)
Definition kmem_cache_alloc (gfp_mask : Z) : idM Z :=
  c ← gets idr_layer_cache;
  if negb (c : bool) then fault
  else
    p ← gets (λ s, kmem_pick (layer_at s) gfp_mask);
    if p =? NULL then mret NULL
    else
      modify (λ s, with_slab (delete p (slab s))
                     (with_layers (<[p := default idr_cache_ctor (slab s !! p)]> (layer_at s)) s));;
      mret p.
Definition kmem_cache_free (p : Z) : idM unit :=
  x ← layer_get p;
  modify (λ s, with_slab (<[p := x]> (slab s)) (with_layers (delete p (layer_at s)) s)).

Definition alloc_layer : idM Z :=
  spin_lock;;
  p ← get_idr id_free;
  (if p =? NULL then mret tt
   else
     a ← get_ary p 0;
     set_idr (set_id_free a);;
     set_idr (λ i, set_cnt (id_free_cnt i - 1) i);;
     set_ary p 0 NULL);;
  spin_unlock;;
  mret p.

Definition free_layer (p : Z) : idM unit :=
  spin_lock;;
  f ← get_idr id_free;
  set_ary p 0 f;;
  set_idr (set_id_free p);;
  set_idr (λ i, set_cnt (id_free_cnt i + 1) i);;
  spin_unlock.

Definition idr_pre_get (fuel : nat) (gfp_mask : Z) : idM Z :=
  loop fuel (λ _,
    c ← get_idr id_free_cnt;
    if c <? IDR_FREE_MAX then
      new ← kmem_cache_alloc gfp_mask;
      if new =? NULL then mret (inr 0) else free_layer new;; mret (inl tt)
    else mret (inr 1)) tt.

(** The digit of [id] that selects a slot of a layer at level [l]. *)
Definition digit (id l : Z) : Z := Z.land (Z.shiftr id (IDR_BITS * l)) IDR_MASK.

(** One iteration of the search of [sub_alloc]: to another layer, out of it
    with a result and [*starting_id], or out of it at a leaf. *)
Definition search_step (start : Z) : Z * Z * Z * larray Z →
    idM ((Z * Z * Z * larray Z) + (Z * Z + Z * Z * Z * larray Z)) := λ '(p, l, id, pa),
  let n := digit id l in
  b ← get_bitmap p;
  let bm := u64 (Z.lnot b) in
  let m := find_next_bit bm IDR_SIZE n in
  if m =? IDR_SIZE then
    let l := l + 1 in
    e ← one_shl (IDR_BITS * l);
    id ← int_of (Z.lor id (e - 1) + 1);
    p ← larray_get pa l;
    if p =? NULL then mret (inr (inl (-2, id))) else mret (inl (p, l, id, pa))
  else
    let sh := IDR_BITS * l in
    let id := if m =? n then id
              else s32 (Z.shiftl (Z.lxor (Z.lxor (Z.shiftr id sh) n) m) sh) in
    if (MAX_ID_BIT <=? u32 id) || (id <? 0) then mret (inr (inl (-3, start)))
    else if l =? 0 then mret (inr (inr (p, m, id, pa)))
    else
      c ← get_ary p m;
      ok ← (if c =? NULL then
              new ← alloc_layer;
              if new =? NULL then mret false
              else
                set_ary p m new;;
                k ← get_count p;
                set_count p (k + 1);;
                mret true
            else mret true);
      if (ok : bool) then
        pa ← larray_set pa l p;
        c ← get_ary p m;
        mret (inl (c, l - 1, id, pa))
      else mret (inr (inl (-1, start))).

(** Marks the layers that have become full, from the leaf [p] up. *)
Definition mark_full (fuel : nat) (pa : larray Z) (p id : Z) : idM unit :=
  loop fuel (λ '(p, l, n),
    b ← get_bitmap p;
    if b =? IDR_FULL then
      let l := l + 1 in
      p ← larray_get pa l;
      if p =? NULL then mret (inr tt)
      else
        let n := Z.shiftr n IDR_BITS in
        b ← get_bitmap p;
        set_bitmap p (__set_bit (Z.land n IDR_MASK) b);;
        mret (inl (p, l, n))
    else mret (inr tt)) (p, 0, id).

(** The result and the new [*starting_id]. *)
Definition sub_alloc (fuel : nat) (ptr start : Z) : idM (Z * Z) :=
  p ← get_idr top;
  l ← get_idr layers;
  pa ← larray_set larray_new l NULL;
  r ← loop fuel (search_step start) (p, l - 1, start, pa);
  match r with
  | inl r => mret r
  | inr (p, m, id, pa) =>
      set_ary p m ptr;;
      b ← get_bitmap p;
      set_bitmap p (__set_bit m b);;
      k ← get_count p;
      set_count p (k + 1);;
      mark_full fuel pa p id;;
      mret (id, start)
  end.

(** [for (new = p; p && p != idp->top; new = p) ...] *)
Definition tear_down (fuel : nat) (p : Z) : idM unit :=
  loop fuel (λ '(p, new),
    t ← get_idr top;
    if negb (p =? NULL) && negb (p =? t) then
      p ← get_ary p 0;
      set_ary new 0 NULL;;
      set_count new 0;;
      set_bitmap new 0;;
      free_layer new;;
      mret (inl (p, p))
    else mret (inr tt)) (p, p).

(** Adds layers at the top until [id] fits; no value when there is no layer to add. *)
Definition build_up (fuel : nat) (id p nlayers : Z) : idM (option (Z * Z)) :=
  loop fuel (λ '(p, nlayers),
    if nlayers <? MAX_LEVEL then
      e ← one_shl (nlayers * IDR_BITS);
      if e <=? id then
        let nlayers := nlayers + 1 in
        c ← get_count p;
        if c =? 0 then mret (inl (p, nlayers))
        else
          new ← alloc_layer;
          if new =? NULL then tear_down fuel p;; mret (inr None)
          else
            set_ary new 0 p;;
            set_count new 1;;
            b ← get_bitmap p;
            (if b =? IDR_FULL then
               nb ← get_bitmap new;
               set_bitmap new (__set_bit 0 nb)
             else mret tt);;
            mret (inl (new, nlayers))
      else mret (inr (Some (p, nlayers)))
    else mret (inr (Some (p, nlayers)))) (p, nlayers).

(** From [build_up:] on: the layer and the number of levels to search in. *)
Definition grow_to (fuel : nat) (id : Z) : idM (option (Z * Z)) :=
  p ← get_idr top;
  nlayers ← get_idr layers;
  pl ← (if p =? NULL then p ← alloc_layer; mret (p, 1) else mret (p, nlayers));
  if (fst pl : Z) =? NULL then mret None else build_up fuel id (fst pl) (snd pl).

Definition idr_get_new_above_int (fuel : nat) (ptr starting_id : Z) : idM Z :=
  loop fuel (λ id,
    g ← grow_to fuel id;
    match g with
    | None => mret (inr (-1))
    | Some (p, nlayers) =>
        set_idr (set_top p);;
        set_idr (set_nlayers nlayers);;
        vi ← sub_alloc fuel ptr id;
        if (fst vi : Z) =? -2 then mret (inl (snd vi)) else mret (inr (fst vi))
    end) starting_id.

(** The result and, when it is 0, what is stored in [*id]. *)
Definition idr_get_new_above (fuel : nat) (ptr starting_id : Z) : idM (Z * option Z) :=
  rv ← idr_get_new_above_int fuel ptr starting_id;
  if rv <? 0 then
    if rv =? -1 then mret (- EAGAIN, None) else mret (- ENOSPC, None)
  else mret (0, Some rv).
Definition idr_get_new (fuel : nat) (ptr : Z) : idM (Z * option Z) :=
  idr_get_new_above fuel ptr 0.

Definition idr_remove_warning (id : Z) : idM unit :=
  modify (λ s, IdrState (the_idr s) (layer_at s) (slab s) (idr_layer_cache s) (warned s ++ [id])).

(** The values of [pa] in [sub_remove]: NULL, [&idp->top], [&p->ary[n]]. *)
Inductive cell := CNull | CTop | CAry (p n : Z).
Definition cell_load (c : cell) : idM Z :=
  match c with CNull => fault | CTop => get_idr top | CAry p n => get_ary p n end.
Definition cell_store (c : cell) (v : Z) : idM unit :=
  match c with CNull => fault | CTop => set_idr (set_top v) | CAry p n => set_ary p n v end.
Definition is_cnull (c : cell) : bool := match c with CNull => true | _ => false end.

Definition remove_path (fuel : nat) (shift id : Z) (pa : larray cell) : idM (Z * Z * larray cell) :=
  p ← get_idr top;
  loop fuel (λ '(p, shift, k, pa),
    if (0 <? shift) && negb (p =? NULL) then
      let n := Z.land (Z.shiftr id shift) IDR_MASK in
      b ← get_bitmap p;
      set_bitmap p (__clear_bit n b);;
      pa ← larray_set pa (k + 1) (CAry p n);
      p ← get_ary p n;
      mret (inl (p, shift - IDR_BITS, k + 1, pa))
    else mret (inr (p, k, pa))) (p, shift, 1, pa).

Definition release_path (fuel : nat) (pa : larray cell) (k : Z) : idM Z :=
  loop fuel (λ k,
    c ← larray_get pa k;
    if is_cnull c then mret (inr k)
    else
      q ← cell_load c;
      n ← get_count q;
      set_count q (n - 1);;
      if n - 1 =? 0 then
        free_layer q;;
        cell_store c NULL;;
        mret (inl (k - 1))
      else mret (inr k)) k.

Definition sub_remove (fuel : nat) (shift id : Z) : idM unit :=
  pa ← larray_set larray_new 0 CNull;
  pa ← larray_set pa 1 CTop;
  r ← remove_path fuel shift id pa;
  let '(p, k, pa) := r in
  let n := Z.land id IDR_MASK in
  here ← (if p =? NULL then mret false else b ← get_bitmap p; mret (test_bit n b));
  if (here : bool) then
    b ← get_bitmap p;
    set_bitmap p (__clear_bit n b);;
    set_ary p n NULL;;
    k ← release_path fuel pa k;
    c ← larray_get pa k;
    if is_cnull c then set_idr (set_nlayers 0) else mret tt
  else idr_remove_warning id.

(** [idp->top && idp->top->count == 1 && idp->layers > 1 && idp->top->ary[0]] *)
Definition can_drop : idM bool :=
  t ← get_idr top;
  if t =? NULL then mret false
  else
    c ← get_count t;
    n ← get_idr layers;
    if (c =? 1) && (1 <? n) then a ← get_ary t 0; mret (negb (a =? NULL)) else mret false.

(** The body of that [if]. *)
Definition drop_top : idM unit :=
  d ← can_drop;
  if (d : bool) then
    t ← get_idr top;
    p ← get_ary t 0;
    set_count t 0;;
    set_bitmap t 0;;
    free_layer t;;
    set_idr (set_top p);;
    set_idr (λ i, set_nlayers (layers i - 1) i)
  else mret tt.

Definition idr_remove (fuel : nat) (id : Z) : idM unit :=
  let id := Z.land id MAX_ID_MASK in
  n ← get_idr layers;
  sub_remove fuel ((n - 1) * IDR_BITS) id;;
  drop_top;;
  c ← get_idr id_free_cnt;
  if IDR_FREE_MAX <=? c then p ← alloc_layer; kmem_cache_free p else mret tt.

Definition idr_find (fuel : nat) (id : Z) : idM Z :=
  nl ← get_idr layers;
  p ← get_idr top;
  let id := Z.land id MAX_ID_MASK in
  e ← one_shl (nl * IDR_BITS);
  if e <=? id then mret NULL
  else
    loop fuel (λ '(n, p),
      if (0 <? n) && negb (p =? NULL) then
        let n := n - IDR_BITS in
        c ← get_ary p (Z.land (Z.shiftr id n) IDR_MASK);
        mret (inl (n, c))
      else mret (inr p)) (nl * IDR_BITS, p).

Definition init_id_cache : idM unit :=
  c ← gets idr_layer_cache;
  if (c : bool) then mret tt
  else modify (λ s, IdrState (the_idr s) (layer_at s) (slab s) true (warned s)).
Definition idr_init : idM unit :=
  init_id_cache;;
  set_idr (λ _, Idr NULL NULL 0 0 false).
End program.

(** ** Blocks of ids *)

(** A slot at level [l] covers [w l] ids; slot [k] covers those with [i / w l = k]. *)
Definition w (l : Z) : Z := 2 ^ (6 * l).

Lemma w_pos l : 0 ≤ l → 0 < w l.
Proof. intros. apply Z.pow_pos_nonneg; lia. Qed.
Lemma w_S l : 0 ≤ l → w (l + 1) = 64 * w l.
Proof. intros. unfold w. replace (6 * (l + 1)) with (6 + 6 * l) by lia. rewrite Z.pow_add_r by lia. done. Qed.
Lemma w_add l m : 0 ≤ l → 0 ≤ m → w (l + m) = w l * w m.
Proof. intros. unfold w. rewrite <- Z.pow_add_r by lia. f_equal. lia. Qed.
Lemma div_up i l : 0 ≤ l → i / w (l + 1) = i / w l / 64.
Proof. intros. rewrite w_S, Z.mul_comm by done. rewrite Z.div_div; [done|pose proof (w_pos l); lia|lia]. Qed.
Lemma div_w i l m : 0 ≤ l → 0 ≤ m → i / w l / w m = i / w (l + m).
Proof. intros. rewrite w_add by done. rewrite Z.div_div; [done|pose proof (w_pos l); lia|by apply w_pos]. Qed.
Lemma div_w0 i : i / w 0 = i.
Proof. apply Z.div_1_r. Qed.
Lemma w_mono l m : 0 ≤ l ≤ m → w l ≤ w m.
Proof. intros. apply Z.pow_le_mono_r; lia. Qed.
Lemma block_lt i l : 0 ≤ l → 0 ≤ i → (i / w l = 0 ↔ i < w l).
Proof.
  intros Hl Hi. pose proof (w_pos l Hl). split; [|intros; by apply Z.div_small].
  intros E. pose proof (Z.mod_pos_bound i (w l)). rewrite (Z.div_mod i (w l)) by lia. lia.
Qed.
Lemma block_first k l : 0 ≤ l → k * w l / w l = k.
Proof. intros. apply Z.div_mul. pose proof (w_pos l). lia. Qed.
Lemma digit_eq id l : 0 ≤ l → digit id l = (id / w l) mod 64.
Proof.
  intros. unfold digit, IDR_MASK, IDR_BITS. change (Z.shiftl 1 6 - 1) with (2 ^ 6 - 1).
  rewrite land_pow2_mask by lia. by rewrite Z.shiftr_div_pow2 by lia.
Qed.
Lemma slot_split k : 64 * (k / 64) + k mod 64 = k.
Proof. pose proof (Z.div_mod k 64). lia. Qed.
Lemma slot_div q i : 0 ≤ i < 64 → (64 * q + i) / 64 = q.
Proof. intros. dlia. Qed.
Lemma slot_low q i : 0 ≤ i < 64 → (64 * q + i) mod 64 = i.
Proof. intros. dlia. Qed.
Lemma mod64 k : 0 ≤ k mod 64 < 64.
Proof. by apply Z.mod_pos_bound. Qed.

Definition full (ids : gmap Z Z) (l k : Z) : Prop := ∀ i, i / w l = k → is_Some (ids !! i).

(** A block is full when its 64 parts are. *)
Lemma full_parts ids l q : 0 ≤ l → full ids (l + 1) q ↔ ∀ i, 0 ≤ i < 64 → full ids l (64 * q + i).
Proof.
  intros Hl. split.
  - intros Hf i Hi j Hj. apply Hf. rewrite div_up, Hj by done. by apply slot_div.
  - intros Hf j Hj. rewrite div_up in Hj by done. apply (Hf ((j / w l) mod 64)); [apply mod64|].
    rewrite <- Hj. by rewrite slot_split.
Qed.

(** ** Layers *)

Definition kids (f : Z → option Z) (q : Z) : gset Z :=
  filter (λ i, is_Some (f (64 * q + i))) (list_to_set (seqZ 0 64)).

(** The layer with index [q] of its level has the slots [f], its bits are [b],
    and its count is [d] too high. *)
Record layer_ok (f : Z → option Z) (b : Z → Prop) (d q : Z) (x : idr_layer) : Prop := {
  lk_length : length (ary x) = 64%nat;
  lk_range : 0 ≤ bitmap x < 2 ^ 64;
  lk_ary i : 0 ≤ i < 64 → ary x !! Z.to_nat i = Some (default NULL (f (64 * q + i)));
  lk_bit i : 0 ≤ i < 64 → Z.testbit (bitmap x) i = true ↔ b (64 * q + i);
  lk_count : count x = Z.of_nat (size (kids f q)) + d;
}.

Lemma elem_of_kids f q i : i ∈ kids f q ↔ 0 ≤ i < 64 ∧ is_Some (f (64 * q + i)).
Proof. unfold kids. rewrite elem_of_filter, elem_of_list_to_set, elem_of_seqZ. split; intros []; split; (done || lia). Qed.
Lemma kids_ext f g q : (∀ k, k / 64 = q → is_Some (f k) ↔ is_Some (g k)) → kids f q = kids g q.
Proof.
  intros E. apply set_eq. intros i. rewrite !elem_of_kids.
  split; intros [Hi ?]; (split; [done|]); by apply (E (64 * q + i) (slot_div q i Hi)).
Qed.
Lemma kids_set f g k : f k = None → is_Some (g k) → (∀ j, j ≠ k → g j = f j) →
  size (kids g (k / 64)) = S (size (kids f (k / 64))).
Proof.
  intros Hf Hg E. assert (kids g (k / 64) = {[k mod 64]} ∪ kids f (k / 64)) as ->.
  { apply set_eq. intros i. rewrite elem_of_union, elem_of_singleton, !elem_of_kids. pose proof (mod64 k).
    destruct (decide (i = k mod 64)) as [->|Hi].
    - rewrite slot_split. naive_solver.
    - destruct (decide (0 ≤ i < 64)); [|naive_solver].
      rewrite E; [naive_solver|]. intros E'. apply Hi. rewrite <- E'. by rewrite slot_low. }
  rewrite size_union, size_singleton; [done|]. apply disjoint_singleton_l. rewrite elem_of_kids, slot_split, Hf.
  intros [_ [? [=]]].
Qed.
Lemma kids_empty f q : size (kids f q) = 0%nat ↔ ∀ k, k / 64 = q → f k = None.
Proof.
  rewrite size_empty_iff. unfold_leibniz. split.
  - intros E k <-. apply eq_None_not_Some. intros Hk.
    assert (k mod 64 ∈ kids f (k / 64)) as Hin by (rewrite elem_of_kids, slot_split; auto using mod64).
    set_solver.
  - intros E i. rewrite elem_of_kids. split; [|set_solver]. intros [Hi [? Hk]]. rewrite E in Hk; [done|by apply slot_div].
Qed.
(** The only slot in use is the first. *)
Lemma kids_one f q : size (kids f q) = 1%nat → is_Some (f (64 * q)) → ∀ k, k / 64 = q → k ≠ 64 * q → f k = None.
Proof.
  intros E H0 k <- Hk. apply eq_None_not_Some. intros Hf. apply size_1_elem_of in E as [x E]. unfold_leibniz.
  assert (0 ∈ kids f (k / 64)) as Hin0 by (rewrite elem_of_kids, Z.add_0_r; split; [lia|done]).
  assert (k mod 64 ∈ kids f (k / 64)) as Hink by (rewrite elem_of_kids, slot_split; auto using mod64).
  rewrite E, elem_of_singleton in Hin0, Hink. pose proof (slot_split k). lia.
Qed.

Lemma layer_ok_ext f f' (b b' : Z → Prop) d q x :
  (∀ k, k / 64 = q → f' k = f k) → (∀ k, k / 64 = q → b' k ↔ b k) →
  layer_ok f b d q x → layer_ok f' b' d q x.
Proof.
  intros Ef Eb [? ? Ha Hb Hc]. split; try done.
  - intros i Hi. rewrite Ef by (by apply slot_div). by apply Ha.
  - intros i Hi. rewrite Eb by (by apply slot_div). by apply Hb.
  - rewrite Hc. do 3 f_equal. apply kids_ext. intros k Hk. by rewrite Ef.
Qed.

(** The layer reads as its slots say. *)
Lemma lk_slot f b d k x : layer_ok f b d (k / 64) x →
  ary x !! Z.to_nat (k mod 64) = Some (default NULL (f k)).
Proof. intros Hx. rewrite (lk_ary _ _ _ _ _ Hx _ (mod64 k)). by rewrite slot_split. Qed.
Lemma lk_bit_at f b d k x : layer_ok f b d (k / 64) x → Z.testbit (bitmap x) (k mod 64) = true ↔ b k.
Proof. intros Hx. rewrite (lk_bit _ _ _ _ _ Hx _ (mod64 k)). by rewrite slot_split. Qed.
Lemma lk_full f b d q x : layer_ok f b d q x →
  bitmap x = IDR_FULL ↔ ∀ i, 0 ≤ i < 64 → b (64 * q + i).
Proof.
  intros Hx. pose proof (lk_range _ _ _ _ _ Hx) as Hr. change IDR_FULL with (Z.ones 64). split.
  - intros E i Hi. apply (lk_bit _ _ _ _ _ Hx); [done|]. rewrite E. apply Z.ones_spec_low. lia.
  - intros Hb. apply Z.bits_inj'. intros i Hi. destruct (decide (i < 64)).
    + rewrite Z.ones_spec_low by lia. apply (lk_bit _ _ _ _ _ Hx); [lia|]. apply Hb. lia.
    + rewrite Z.ones_spec_high by lia. rewrite <- (Z.mod_small (bitmap x) (2 ^ 64)) by done.
      apply Z.mod_pow2_bits_high. lia.
Qed.

(** ** The tree *)

(** What the slot [k] of level [l] holds: a pointer or a layer. *)
Definition slot (N : gmap (Z * Z) Z) (ids : gmap Z Z) (l k : Z) : option Z :=
  if l =? 0 then ids !! k else N !! (l - 1, k).
Definition pend (D : option (Z * Z)) (l q : Z) : Z := if decide (D = Some (l, q)) then 1 else 0.

(** The layers of a tree of [L] levels: [N] has the address of the layer [q] of
    level [l].  The bits of level [l] are [B l], the count of the layer [D]
    is one too high. *)
Record tree_ok (L : Z) (N : gmap (Z * Z) Z) (ids : gmap Z Z) (B : Z → Z → Prop)
    (D : option (Z * Z)) (h : gmap Z idr_layer) : Prop := {
  t_L : 0 ≤ L ≤ 6;
  t_layer l q a : N !! (l, q) = Some a →
    ∃ x, h !! a = Some x ∧ layer_ok (slot N ids l) (B l) (pend D l q) q x;
  t_key l q : is_Some (N !! (l, q)) → 0 ≤ l < L ∧ q / w (L - 1 - l) = 0;
  t_par l q : is_Some (N !! (l, q)) → l + 1 < L → is_Some (N !! (l + 1, q / 64));
  t_top : 0 < L → is_Some (N !! (L - 1, 0));
  t_ids i : is_Some (ids !! i) → 0 ≤ i ∧ is_Some (N !! (0, i / 64));
  t_inj k1 k2 a : N !! k1 = Some a → N !! k2 = Some a → k1 = k2;
}.

(** The list of the spare layers. *)
Fixpoint spare (h : gmap Z idr_layer) (p : Z) (F : list Z) : Prop :=
  match F with
  | [] => p = NULL
  | a :: F =>
      p = a ∧ ∃ v, h !! a = Some (Layer 0 (<[0%nat := v]> (ary idr_cache_ctor)) 0) ∧ spare h v F
  end.

(** The layers are those of the tree and those of [F], each once. *)
Record parts (N : gmap (Z * Z) Z) (F : list Z) (h : gmap Z idr_layer) : Prop := {
  p_nodup : NoDup F;
  p_sep k a : N !! k = Some a → a ∉ F;
  p_dom a : is_Some (h !! a) ↔ a ∈ F ∨ ∃ k, N !! k = Some a;
  p_null : h !! NULL = None;
}.

(** [X] are layers that are neither in the tree nor spare, at a point inside an
    operation. *)
Record core (L : Z) (N : gmap (Z * Z) Z) (X F : list Z) (ids : gmap Z Z) (B : Z → Z → Prop)
    (D : option (Z * Z)) (s : idr_state) : Prop := {
  c_tree : tree_ok L N ids B D (layer_at s);
  c_spare : spare (layer_at s) (id_free (the_idr s)) F;
  c_cnt : id_free_cnt (the_idr s) = Z.of_nat (length F);
  c_parts : parts N (X ++ F) (layer_at s);
  c_lock : idr_lock (the_idr s) = false;
  c_cache : idr_layer_cache s = true;
  c_slab a x : slab s !! a = Some x → x = idr_cache_ctor;
}.

(** The handle holds the ids [ids], in a tree of [L] levels. *)
Definition holds (L : Z) (N : gmap (Z * Z) Z) (F : list Z) (ids : gmap Z Z) (s : idr_state) : Prop :=
  core L N [] F ids (full ids) None s ∧ 
  layers (the_idr s) = L ∧ top (the_idr s) = default NULL (N !! (L - 1, 0)).
(** The invariant: [idp] maps [ids] to pointers.  The levels go up to 5 only
    (see [idr_high_ids_overrun]). *)
Definition idr_ok (ids : gmap Z Z) (s : idr_state) : Prop :=
  ∃ L N F, holds L N F ids s ∧ L ≤ 5.

Lemma pend_None l q : pend None l q = 0.
Proof. done. Qed.

Section tree.
Context {L : Z} {N : gmap (Z * Z) Z} {ids : gmap Z Z} {B : Z → Z → Prop} {D : option (Z * Z)}
  {h : gmap Z idr_layer}.
Context (T : tree_ok L N ids B D h).

Lemma tree_path i l : is_Some (ids !! i) → 0 ≤ l < L → is_Some (N !! (l, i / w (l + 1))).
Proof.
  intros Hi [Hl HL]. revert HL. pattern l. apply natlike_ind; [| |done].
  - intros _. by apply (t_ids _ _ _ _ _ _ T).
  - intros m Hm IH HL. unfold Z.succ in *. rewrite (div_up i (m + 1)) by lia.
    apply (t_par _ _ _ _ _ _ T); [apply IH|]; lia.
Qed.
Lemma slot_None_ids l k i : slot N ids l k = None → 0 ≤ l < L → i / w l = k → ids !! i = None.
Proof.
  intros Hs Hl <-. apply eq_None_not_Some. intros Hi. unfold slot in Hs.
  destruct (Z.eqb_spec l 0) as [->|].
  - rewrite div_w0 in Hs. rewrite Hs in Hi. by destruct Hi.
  - destruct (tree_path i (l - 1) Hi) as [a Ha]; [lia|]. replace (l - 1 + 1) with l in Ha by lia. congruence.
Qed.
Lemma ids_range i : is_Some (ids !! i) → 0 ≤ i < w L.
Proof.
  intros Hi. destruct (t_ids _ _ _ _ _ _ T i Hi) as [H0 Hn]. split; [done|].
  destruct (t_key _ _ _ _ _ _ T _ _ Hn) as [? _].
  destruct (t_key _ _ _ _ _ _ T _ _ (tree_path i (L - 1) Hi ltac:(lia))) as [_ E].
  replace (L - 1 - (L - 1)) with 0 in E by lia. replace (L - 1 + 1) with L in E by lia.
  rewrite div_w0 in E. apply block_lt; lia.
Qed.
Lemma slot_free l k : slot N ids l k = None → 0 ≤ l < L → ¬ full ids l k.
Proof.
  intros Hs Hl Hf. pose proof (block_first k l ltac:(lia)) as E.
  pose proof (Hf _ E) as Hx. rewrite (slot_None_ids l k _ Hs Hl E) in Hx. by destruct Hx.
Qed.
Lemma tree_layer l q a : N !! (l, q) = Some a →
  ∃ x, h !! a = Some x ∧ layer_ok (slot N ids l) (B l) (pend D l q) q x.
Proof. apply (t_layer _ _ _ _ _ _ T). Qed.
Lemma tree_nonnull l q a : h !! NULL = None → N !! (l, q) = Some a → a ≠ NULL.
Proof. intros Hn Ha ->. destruct (tree_layer _ _ _ Ha) as (? & ? & _). congruence. Qed.

(** Changing one layer, and what the others are said to be. *)
Lemma tree_upd B' D' l q a x' :
  N !! (l, q) = Some a → layer_ok (slot N ids l) (B' l) (pend D' l q) q x' →
  (∀ l' q', (l', q') ≠ (l, q) → pend D' l' q' = pend D l' q' ∧ ∀ k, k / 64 = q' → B' l' k ↔ B l' k) →
  tree_ok L N ids B' D' (<[a := x']> h).
Proof using T.
  intros Ha Hx' Ho. split; try apply T. intros l' q' b Hb. destruct (decide ((l', q') = (l, q))) as [[= -> ->]|Hne].
  - exists x'. assert (b = a) as -> by congruence. by rewrite lookup_insert_eq.
  - destruct (tree_layer _ _ _ Hb) as (x & Hx & Hok). exists x.
    rewrite lookup_insert_ne by (intros ->; apply Hne; by apply (t_inj _ _ _ _ _ _ T _ _ b)).
    split; [done|]. destruct (Ho _ _ Hne) as [-> Hb']. by apply (layer_ok_ext (slot N ids l') _ (B l')).
Qed.
(** Writing to a layer outside the tree. *)
Lemma tree_other a x : (∀ k, N !! k ≠ Some a) → tree_ok L N ids B D (<[a := x]> h).
Proof using T.
  intros Ha. split; try apply T. intros l q b Hb. rewrite lookup_insert_ne by (intros ->; by apply (Ha _ Hb)).
  by apply tree_layer.
Qed.
Lemma tree_delete a : (∀ k, N !! k ≠ Some a) → tree_ok L N ids B D (delete a h).
Proof using T.
  intros Ha. split; try apply T. intros l q b Hb. rewrite lookup_delete_ne by (intros ->; by apply (Ha _ Hb)).
  by apply tree_layer.
Qed.
Lemma tree_bits B' : (∀ l k, is_Some (N !! (l, k / 64)) → B' l k ↔ B l k) → tree_ok L N ids B' D h.
Proof using T.
  intros E. split; try apply T. intros l q a Ha. destruct (tree_layer _ _ _ Ha) as (x & Hx & Hok).
  exists x. split; [done|]. apply (layer_ok_ext (slot N ids l) _ (B l)); [done| |done].
  intros k <-. apply E. by eexists.
Qed.

(** A node is above all the ids below it: the key of the layer on the path. *)
Lemma key_path i l : 0 ≤ i < w L → 0 ≤ l < L → (i / w (l + 1)) / w (L - 1 - l) = 0.
Proof. intros Hi Hl. rewrite div_w by lia. replace (l + 1 + (L - 1 - l)) with L by lia. by apply Z.div_small. Qed.
End tree.

Lemma spare_other h p F a x : spare h p F → a ∉ F → spare (<[a := x]> h) p F.
Proof.
  revert p. induction F as [|b F IH]; intros p; simpl; [done|].
  intros (-> & v & Hb & Hs) [Ha HaF]%not_elem_of_cons. split; [done|]. exists v.
  rewrite lookup_insert_ne by done. auto.
Qed.
Lemma spare_delete h p F a : spare h p F → a ∉ F → spare (delete a h) p F.
Proof.
  revert p. induction F as [|b F IH]; intros p; simpl; [done|].
  intros (-> & v & Hb & Hs) [Ha HaF]%not_elem_of_cons. split; [done|]. exists v.
  rewrite lookup_delete_ne by done. auto.
Qed.
Lemma parts_upd N F h a x : parts N F h → is_Some (h !! a) → parts N F (<[a := x]> h).
Proof.
  intros [? ? Hd Hn] Ha. split; try done.
  - intros b. rewrite <- Hd. destruct (decide (b = a)) as [->|].
    + rewrite lookup_insert_eq. split; [done|]. by eexists.
    + by rewrite lookup_insert_ne.
  - rewrite lookup_insert_ne; [done|]. intros ->. rewrite Hn in Ha. by destruct Ha.
Qed.

(** ** Steps of the operations *)

Lemma wp_get_idr {A} (f : idr → A) Q s : Q (f (the_idr s)) s → wp (get_idr f) Q s.
Proof. done. Qed.
Lemma wp_set_idr f Q s : Q tt (upd_idr f s) → wp (set_idr f) Q s.
Proof. done. Qed.

Section layer_steps.
Context {s : idr_state} {p : Z} {x : idr_layer} (Hp : layer_at s !! p = Some x).

Definition upd_layer (s : idr_state) (p : Z) (y : idr_layer) : idr_state :=
  with_layers (<[p := y]> (layer_at s)) s.
Lemma wp_layer_upd f y Q : f x = Some y → Q tt (upd_layer s p y) → wp (layer_upd p f) Q s.
Proof using Hp. intros Hf HQ. apply (wp_modify_opt _ (upd_layer s p y)); [|done]. by rewrite Hp; simpl; rewrite Hf. Qed.
Lemma wp_get_ary n v Q : 0 ≤ n → ary x !! Z.to_nat n = Some v → Q v s → wp (get_ary p n) Q s.
Proof using Hp.
  intros Hn Hv HQ. apply wp_bind, (wp_gets_opt _ x); [done|]. apply (wp_gets_opt _ v); [|done].
  by destruct (Z.ltb_spec n 0); [lia|].
Qed.
Lemma wp_set_ary n v Q : 0 ≤ n < Z.of_nat (length (ary x)) →
  Q tt (upd_layer s p (Layer (bitmap x) (<[Z.to_nat n := v]> (ary x)) (count x))) → wp (set_ary p n v) Q s.
Proof using Hp.
  intros Hn. apply wp_layer_upd. destruct (Z.leb_spec 0 n); [|lia].
  by destruct (Z.ltb_spec n (Z.of_nat (length (ary x)))); [|lia].
Qed.
Lemma wp_get_bitmap Q : Q (bitmap x) s → wp (get_bitmap p) Q s.
Proof using Hp. intros HQ. apply wp_bind, (wp_gets_opt _ x); [done|]. by apply wp_ret. Qed.
Lemma wp_set_bitmap v Q : Q tt (upd_layer s p (Layer v (ary x) (count x))) → wp (set_bitmap p v) Q s.
Proof using Hp. by apply wp_layer_upd. Qed.
Lemma wp_get_count Q : Q (count x) s → wp (get_count p) Q s.
Proof using Hp. intros HQ. apply wp_bind, (wp_gets_opt _ x); [done|]. by apply wp_ret. Qed.
Lemma wp_set_count v Q : Q tt (upd_layer s p (Layer (bitmap x) (ary x) v)) → wp (set_count p v) Q s.
Proof using Hp. by apply wp_layer_upd. Qed.
End layer_steps.

Lemma upd_layer_eq s p y : layer_at (upd_layer s p y) !! p = Some y.
Proof. apply lookup_insert_eq. Qed.
Lemma upd_layer_upd s p y z : upd_layer (upd_layer s p y) p z = upd_layer s p z.
Proof. unfold upd_layer, with_layers. simpl. by rewrite insert_insert_eq. Qed.

(** What the steps on layers do not touch. *)
Definition frame (s s' : idr_state) : Prop :=
  top (the_idr s') = top (the_idr s) ∧ layers (the_idr s') = layers (the_idr s) ∧ warned s' = warned s.
#[global] Instance frame_refl : Reflexive frame.
Proof. by intros s. Qed.
#[global] Instance frame_trans : Transitive frame.
Proof. unfold frame. intros s1 s2 s3 (?&?&?) (?&?&?). repeat split; congruence. Qed.
Lemma frame_upd s p y : frame s (upd_layer s p y).
Proof. done. Qed.


Section core.
Context {L : Z} {N : gmap (Z * Z) Z} {ids : gmap Z Z} {B : Z → Z → Prop} {D : option (Z * Z)}.

Lemma core_upd_tree X X' F L' N' ids' B' D' s p x :
  core L N X F ids B D s → tree_ok L' N' ids' B' D' (<[p := x]> (layer_at s)) →
  parts N' (X' ++ F) (<[p := x]> (layer_at s)) → p ∉ F → core L' N' X' F ids' B' D' (upd_layer s p x).
Proof.
  intros [? Hs ? Hp ? ? ?] Ht HP HF. split; try done. by apply spare_other.
Qed.
Lemma core_upd s B' D' F l q p x :
  core L N [] F ids B D s → N !! (l, q) = Some p → layer_ok (slot N ids l) (B' l) (pend D' l q) q x →
  (∀ l' q', (l', q') ≠ (l, q) → pend D' l' q' = pend D l' q' ∧ ∀ k, k / 64 = q' → B' l' k ↔ B l' k) →
  core L N [] F ids B' D' (upd_layer s p x).
Proof.
  intros C Hp Hx Ho. pose proof (tree_layer (c_tree _ _ _ _ _ _ _ _ C) _ _ _ Hp) as (y & Hy & _).
  apply (core_upd_tree _ _ _ L N ids B' D' s p x C).
  - by apply (tree_upd (c_tree _ _ _ _ _ _ _ _ C) B' D' l q).
  - apply parts_upd; [apply C|by eexists].
  - apply (p_sep _ _ _ (c_parts _ _ _ _ _ _ _ _ C) _ _ Hp).
Qed.
(** A layer outside of the tree and of the list can be written. *)
Lemma core_upd_limbo s F p x : core L N [p] F ids B D s → core L N [p] F ids B D (upd_layer s p x).
Proof.
  intros C. destruct (c_parts _ _ _ _ _ _ _ _ C) as [Hnd Hsep Hdom Hnull].
  apply (core_upd_tree _ _ _ L N ids B D s p x C).
  - apply tree_other; [apply C|]. intros k Hk. apply (Hsep _ _ Hk). set_solver.
  - apply parts_upd; [apply C|]. apply Hdom. left. set_solver.
  - by apply NoDup_cons in Hnd as [? _].
Qed.

Lemma wp_alloc_layer F s Q : core L N [] F ids B D s →
  (F = [] → Q NULL s) →
  (∀ a F' s', F = a :: F' → a ≠ NULL → core L N [a] F' ids B D s' →
     layer_at s' !! a = Some idr_cache_ctor → frame s s' → Q a s') →
  wp alloc_layer Q s.
Proof.
  intros [HT HS HC HP Hlock Hcache Hslab] Hnil Hcons.
  unfold alloc_layer. apply wp_bind. unfold spin_lock. apply wp_bind, wp_get_idr. rewrite Hlock.
  apply wp_set_idr, wp_bind, wp_get_idr. simpl.
  destruct F as [|a F]; simpl in HS.
  - rewrite HS. apply wp_bind, wp_ret, wp_bind, wp_set_idr, wp_ret.
    assert (upd_idr (set_lock false) (upd_idr (set_lock true) s) = s) as ->; [|by apply Hnil].
    destruct s as [[]]; simpl in *; subst. done.
  - destruct HS as (Ea & v & Ha & HS). rewrite Ea. destruct HP as [Hnd Hsep Hdom Hnull].
    assert (a ≠ NULL) as Hna by (intros ->; simpl in *; congruence).
    pose proof Hnd as [HaF Hnd']%NoDup_cons.
    destruct (Z.eqb_spec a NULL) as [|_]; [done|].
    apply wp_bind, wp_bind. eapply (wp_get_ary (x := Layer 0 _ 0)); [exact Ha|done|done|].
    apply wp_bind, wp_set_idr, wp_bind, wp_set_idr.
    eapply (wp_set_ary (x := Layer 0 _ 0)); [exact Ha|done|].
    apply wp_bind, wp_set_idr, wp_ret.
    apply (Hcons a F); [done|done| |apply lookup_insert_eq|done].
    assert (tree_ok L N ids B D (<[a := idr_cache_ctor]> (layer_at s))) as HT'.
    { apply tree_other; [done|]. intros k Hk. apply (Hsep _ _ Hk). simpl. set_solver. }
    split; simpl; try done.
    + by apply spare_other.
    + simpl in HC. lia.
    + apply (parts_upd N (a :: F)); [done|by eexists].
Qed.

(** The state after [free_layer(idp, a)], where [a] is [x]. *)
Definition freed (a : Z) (x : idr_layer) (s : idr_state) : idr_state :=
  upd_idr (λ i, Idr (top i) a (layers i) (id_free_cnt i + 1) false)
    (upd_layer s a (Layer (bitmap x) (<[0%nat := id_free (the_idr s)]> (ary x)) (count x))).
Lemma wp_free_raw a x s Q : idr_lock (the_idr s) = false → layer_at s !! a = Some x → (0 < length (ary x))%nat →
  Q tt (freed a x s) → wp (free_layer a) Q s.
Proof.
  intros Hlock Ha Hl HQ. unfold free_layer. apply wp_bind. unfold spin_lock. apply wp_bind, wp_get_idr. rewrite Hlock.
  apply wp_set_idr, wp_bind, wp_get_idr, wp_bind. apply (wp_set_ary (x := x)); [exact Ha|lia|].
  apply wp_bind, wp_set_idr, wp_bind, wp_set_idr, wp_set_idr. exact HQ.
Qed.
Lemma core_freed F a v s : core L N [a] F ids B D s →
  layer_at s !! a = Some (Layer 0 (<[0%nat := v]> (ary idr_cache_ctor)) 0) →
  core L N [] (a :: F) ids B D (freed a (Layer 0 (<[0%nat := v]> (ary idr_cache_ctor)) 0) s).
Proof.
  intros [HT HS HC HP Hlock Hcache Hslab] Ha. destruct HP as [Hnd Hsep Hdom Hnull]. split; simpl; try done.
  - apply tree_other; [done|]. intros k Hk. apply (Hsep _ _ Hk). set_solver.
  - split; [done|]. exists (id_free (the_idr s)). split; [apply lookup_insert_eq|].
    apply spare_other; [done|]. by apply NoDup_cons in Hnd as [? _].
  - lia.
  - apply parts_upd; [done|by eexists].
Qed.
Lemma wp_free_layer F a v s Q : core L N [a] F ids B D s →
  layer_at s !! a = Some (Layer 0 (<[0%nat := v]> (ary idr_cache_ctor)) 0) →
  (∀ s', core L N [] (a :: F) ids B D s' → frame s s' → Q tt s') →
  wp (free_layer a) Q s.
Proof.
  intros C Ha HQ. eapply wp_free_raw; [apply C|exact Ha|simpl; lia|].
  by apply HQ; [apply core_freed|].
Qed.
End core.

(** ** Changing a layer *)

Lemma bits64_range b : 0 ≤ b → (∀ i, 64 ≤ i → Z.testbit b i = false) → 0 ≤ b < 2 ^ 64.
Proof.
  intros Hb Hi. split; [done|]. destruct (decide (b = 0)) as [->|]; [done|].
  apply Z.log2_lt_pow2; [lia|]. apply Z.nle_gt. intros Hl.
  pose proof (Z.bit_log2 b ltac:(lia)) as E. by rewrite Hi in E.
Qed.
Lemma bits64_high b i : 0 ≤ b < 2 ^ 64 → 64 ≤ i → Z.testbit b i = false.
Proof. intros Hb Hi. rewrite <- (Z.mod_small b (2 ^ 64)) by done. apply Z.mod_pow2_bits_high. lia. Qed.
Lemma setbit_range b n : 0 ≤ b < 2 ^ 64 → 0 ≤ n < 64 → 0 ≤ Z.setbit b n < 2 ^ 64.
Proof.
  intros Hb Hn. apply bits64_range.
  - unfold Z.setbit. apply Z.lor_nonneg. split; [lia|]. apply Z.shiftl_nonneg. lia.
  - intros i Hi. rewrite Z.setbit_neq by lia. by apply bits64_high.
Qed.
Lemma clearbit_range b n : 0 ≤ b < 2 ^ 64 → 0 ≤ n < 64 → 0 ≤ Z.clearbit b n < 2 ^ 64.
Proof.
  intros Hb Hn. apply bits64_range.
  - unfold Z.clearbit. apply Z.ldiff_nonneg. lia.
  - intros i Hi. rewrite Z.clearbit_neq by lia. by apply bits64_high.
Qed.

Section layer_upd.
Context {f : Z → option Z} {b : Z → Prop} {d k : Z} {x : idr_layer} (Hx : layer_ok f b d (k / 64) x).
Implicit Types g : Z → option Z.

Lemma lookup_ary v i : 0 ≤ i < 64 →
  <[Z.to_nat (k mod 64) := v]> (ary x) !! Z.to_nat i = if decide (i = k mod 64) then Some v else ary x !! Z.to_nat i.
Proof using Hx.
  intros Hi. pose proof (mod64 k). pose proof (lk_length _ _ _ _ _ Hx). destruct (decide (i = k mod 64)) as [->|].
  - apply list_lookup_insert_eq. lia.
  - apply list_lookup_insert_ne. lia.
Qed.
Lemma slot_other g i : (∀ j, j ≠ k → g j = f j) → 0 ≤ i < 64 → i ≠ k mod 64 → g (64 * (k / 64) + i) = f (64 * (k / 64) + i).
Proof. intros E Hi Hn. apply E. pose proof (slot_split k). lia. Qed.

Lemma layer_set g v : f k = None → g k = Some v → (∀ j, j ≠ k → g j = f j) →
  layer_ok g b d (k / 64) (Layer (bitmap x) (<[Z.to_nat (k mod 64) := v]> (ary x)) (count x + 1)).
Proof using Hx.
  intros Hf Hg E. pose proof Hx as [Hl Hr Ha Hb Hc]. split; simpl; try done.
  - by rewrite length_insert.
  - intros i Hi. rewrite lookup_ary by done. case_decide as Hn; [subst i; by rewrite slot_split, Hg|].
    by rewrite Ha, (slot_other g i) by done.
  - rewrite (kids_set f g k) by (try done; by rewrite Hg). lia.
Qed.
Lemma layer_clear g : is_Some (f k) → g k = None → (∀ j, j ≠ k → g j = f j) →
  layer_ok g b (d + 1) (k / 64) (Layer (bitmap x) (<[Z.to_nat (k mod 64) := NULL]> (ary x)) (count x)).
Proof using Hx.
  intros Hf Hg E. pose proof Hx as [Hl Hr Ha Hb Hc]. split; simpl; try done.
  - by rewrite length_insert.
  - intros i Hi. rewrite lookup_ary by done. case_decide as Hn; [subst i; by rewrite slot_split, Hg|].
    by rewrite Ha, (slot_other g i) by done.
  - rewrite Hc, (kids_set g f k); [lia|done|done|]. intros j Hj. by rewrite E.
Qed.
Lemma layer_bits (b' : Z → Prop) v : 0 ≤ v < 2 ^ 64 →
  (∀ i, 0 ≤ i < 64 → Z.testbit v i = true ↔ b' (64 * (k / 64) + i)) →
  layer_ok f b' d (k / 64) (Layer v (ary x) (count x)).
Proof using Hx. by destruct Hx. Qed.
Lemma layer_setbit (b' : Z → Prop) : b' k → (∀ j, j ≠ k → j / 64 = k / 64 → b' j ↔ b j) →
  layer_ok f b' d (k / 64) (Layer (Z.setbit (bitmap x) (k mod 64)) (ary x) (count x)).
Proof using Hx.
  intros Hk E. pose proof (mod64 k). apply layer_bits; [by apply setbit_range; [apply Hx|]|].
  intros i Hi. destruct (decide (i = k mod 64)) as [->|Hn].
  - rewrite slot_split, Z.setbit_eq by lia. done.
  - rewrite Z.setbit_neq, E by (try apply slot_div; pose proof (slot_split k); lia). by apply Hx.
Qed.
Lemma layer_clearbit (b' : Z → Prop) : ¬ b' k → (∀ j, j ≠ k → j / 64 = k / 64 → b' j ↔ b j) →
  layer_ok f b' d (k / 64) (Layer (Z.clearbit (bitmap x) (k mod 64)) (ary x) (count x)).
Proof using Hx.
  intros Hk E. pose proof (mod64 k). apply layer_bits; [by apply clearbit_range; [apply Hx|]|].
  intros i Hi. destruct (decide (i = k mod 64)) as [->|Hn].
  - rewrite slot_split, Z.clearbit_eq. done.
  - rewrite Z.clearbit_neq, E by (try apply slot_div; pose proof (slot_split k); lia). by apply Hx.
Qed.
Lemma layer_count d' : layer_ok f b d' (k / 64) (Layer (bitmap x) (ary x) (count x - d + d')).
Proof using Hx. destruct Hx. split; simpl; try done. lia. Qed.
End layer_upd.

Lemma layer_empty f (b : Z → Prop) q : (∀ k, k / 64 = q → f k = None ∧ ¬ b k) → layer_ok f b 0 q idr_cache_ctor.
Proof.
  intros E. split; simpl; try done.
  - intros i Hi. destruct (E (64 * q + i)) as [-> _]; [by apply slot_div|].
    apply (lookup_replicate_2 64). lia.
  - intros i Hi. rewrite Z.testbit_0_l. split; [done|]. by destruct (E (64 * q + i) (slot_div q i Hi)).
  - rewrite (proj2 (kids_empty f q)); [done|]. intros k Hk. by apply E.
Qed.

(** ** New layers in the tree *)

Lemma slot_insert N ids l0 k a l j : 0 ≤ l0 → (l, j) ≠ (l0 + 1, k) →
  slot (<[(l0, k) := a]> N) ids l j = slot N ids l j.
Proof.
  intros Hl Hn. unfold slot. destruct (Z.eqb_spec l 0); [done|].
  apply lookup_insert_ne. intros [= E ->]. apply Hn. f_equal. lia.
Qed.
Lemma slot_insert_eq N ids l0 k a : 0 ≤ l0 → slot (<[(l0, k) := a]> N) ids (l0 + 1) k = Some a.
Proof.
  intros Hl. unfold slot. destruct (Z.eqb_spec (l0 + 1) 0); [lia|].
  replace (l0 + 1 - 1) with l0 by lia. apply lookup_insert_eq.
Qed.
Lemma slot_delete N ids l0 k l j : 0 ≤ l0 → (l, j) ≠ (l0 + 1, k) →
  slot (delete (l0, k) N) ids l j = slot N ids l j.
Proof.
  intros Hl Hn. unfold slot. destruct (Z.eqb_spec l 0); [done|].
  apply lookup_delete_ne. intros [= E ->]. apply Hn. f_equal. lia.
Qed.
Lemma slot_delete_eq N ids l0 k : 0 ≤ l0 → slot (delete (l0, k) N) ids (l0 + 1) k = None.
Proof.
  intros Hl. unfold slot. destruct (Z.eqb_spec (l0 + 1) 0); [lia|].
  replace (l0 + 1 - 1) with l0 by lia. apply lookup_delete_eq.
Qed.

Definition injective (N : gmap (Z * Z) Z) : Prop := ∀ k1 k2 a, N !! k1 = Some a → N !! k2 = Some a → k1 = k2.
Lemma injective_insert N k a : injective N → (∀ j, N !! j ≠ Some a) → injective (<[k := a]> N).
Proof.
  intros Hi Ha k1 k2 b. rewrite !lookup_insert_Some. intros [[<- <-]|[_ H1]] [[<- H2]|[_ H2]]; subst; try done.
  - by destruct (Ha k2).
  - by destruct (Ha k1).
  - by apply (Hi _ _ b).
Qed.
Lemma injective_delete N k : injective N → injective (delete k N).
Proof. intros Hi k1 k2 b [_ H1]%lookup_delete_Some [_ H2]%lookup_delete_Some. by apply (Hi _ _ b). Qed.

Lemma parts_limbo N F h a : parts N (a :: F) h → (∀ k, N !! k ≠ Some a) ∧ a ∉ F.
Proof.
  intros [Hnd Hsep _ _]. split; [|by apply NoDup_cons in Hnd as [? _]].
  intros k Hk. apply (Hsep _ _ Hk). left.
Qed.
Lemma parts_insert N F h k a : parts N (a :: F) h → N !! k = None → parts (<[k := a]> N) F h.
Proof.
  intros HP Hk. destruct (parts_limbo _ _ _ _ HP) as [Ha HaF]. destruct HP as [Hnd Hsep Hdom Hnull].
  apply NoDup_cons in Hnd as [_ Hnd]. split; try done.
  - intros j b. rewrite lookup_insert_Some. intros [[_ <-]|[_ Hb]]; [done|].
    intros Hin. apply (Hsep _ _ Hb). by right.
  - intros b. rewrite Hdom, elem_of_cons. split.
    + intros [[->|?]|[j Hj]]; [right; exists k; apply lookup_insert_eq|by left|right].
      exists j. rewrite lookup_insert_ne; [done|]. congruence.
    + intros [?|[j [[_ <-]|[_ Hj]]%lookup_insert_Some]]; [by left; right|by left; left|right; by exists j].
Qed.
Lemma parts_remove N F h k a : injective N → parts N F h → N !! k = Some a → parts (delete k N) (a :: F) h.
Proof.
  intros Hi [Hnd Hsep Hdom Hnull] Hk. split; try done.
  - apply NoDup_cons. split; [by apply (Hsep k)|done].
  - intros j b [Hne Hb]%lookup_delete_Some. rewrite elem_of_cons. intros [->|Hin]; [|by apply (Hsep _ _ Hb)].
    apply Hne. by apply (Hi _ _ a).
  - intros b. rewrite Hdom, elem_of_cons. split.
    + intros [?|[j Hj]]; [by left; right|]. destruct (decide (k = j)) as [<-|]; [left; left; congruence|].
      right. exists j. by rewrite lookup_delete_ne.
    + intros [[->|?]|[j [_ Hj]%lookup_delete_Some]]; [right; by exists k|by left|right; by exists j].
Qed.

(** A new layer below [p]. *)
Lemma tree_attach {L N ids h a l k p x} : tree_ok L N ids (full ids) None h → (∀ j, N !! j ≠ Some a) →
  h !! a = Some idr_cache_ctor → 0 ≤ l → N !! (l + 1, k / 64) = Some p → N !! (l, k) = None → h !! p = Some x →
  tree_ok L (<[(l, k) := a]> N) ids (full ids) None
    (<[p := Layer (bitmap x) (<[Z.to_nat (k mod 64) := a]> (ary x)) (count x + 1)]> h).
Proof.
  intros T HaN Ha Hl Hp Hk Hx. destruct (t_key _ _ _ _ _ _ T (l + 1) (k / 64)) as [HlL Hkey]; [by eexists|].
  assert (slot N ids (l + 1) k = None) as Hslot.
  { unfold slot. destruct (Z.eqb_spec (l + 1) 0); [lia|]. by replace (l + 1 - 1) with l by lia. }
  assert (a ≠ p) as Hap by (intros ->; by apply (HaN _ Hp)).
  split; try apply T.
  - intros l' q b. rewrite lookup_insert_Some. intros [[[= <- <-] <-]|[Hne Hb]].
    + exists idr_cache_ctor. rewrite lookup_insert_ne by done. split; [done|]. apply layer_empty. intros j Hj.
      rewrite slot_insert by (try done; intros [=]; lia).
      assert (slot N ids l j = None) as Hs; [|split; [done|by apply (slot_free T); [|lia]]].
      unfold slot. destruct (Z.eqb_spec l 0) as [->|].
      * apply (slot_None_ids T _ k _ Hslot); [lia|done].
      * apply eq_None_not_Some. intros Hs. destruct (t_par _ _ _ _ _ _ T _ _ Hs) as [? Hc]; [lia|].
        rewrite Hj in Hc. replace (l - 1 + 1) with l in Hc by lia. congruence.
    + destruct (tree_layer T _ _ _ Hb) as (y & Hy & Hok).
      destruct (decide ((l', q) = (l + 1, k / 64))) as [[= -> ->]|Hn].
      * assert (b = p) as -> by congruence. rewrite lookup_insert_eq. eexists. split; [done|].
        assert (y = x) as -> by congruence. apply (layer_set (f := slot N ids (l + 1))); try done.
        -- by apply slot_insert_eq.
        -- intros j Hj. apply slot_insert; [done|]. congruence.
      * exists y. rewrite lookup_insert_ne by (intros ->; apply Hn; by apply (t_inj _ _ _ _ _ _ T _ _ b)).
        split; [done|]. apply (layer_ok_ext (slot N ids l') _ (full ids l')); [|done|done].
        intros j <-. apply slot_insert; [done|]. intros [= -> ->]. done.
  - intros l' q [b [[[= <- <-] _]|[_ Hb]]%lookup_insert_Some].
    + split; [lia|]. change 64 with (w 1) in Hkey. rewrite div_w in Hkey by lia.
      by replace (L - 1 - l) with (1 + (L - 1 - (l + 1))) by lia.
    + apply (t_key _ _ _ _ _ _ T). by eexists.
  - intros l' q [[= <- <-]|[_ Hb]]%lookup_insert_is_Some Hlt; apply lookup_insert_is_Some'; right; [by eexists|].
    by apply (t_par _ _ _ _ _ _ T).
  - intros HL. apply lookup_insert_is_Some'. right. by apply T.
  - intros i Hi. destruct (t_ids _ _ _ _ _ _ T i Hi) as [? Hn]. split; [done|].
    apply lookup_insert_is_Some'. by right.
  - apply injective_insert; [exact (t_inj _ _ _ _ _ _ T)|done].
Qed.

Lemma core_attach {L N F ids s a l k p x} :
  core L N [a] F ids (full ids) None s → layer_at s !! a = Some idr_cache_ctor →
  0 ≤ l → N !! (l + 1, k / 64) = Some p → N !! (l, k) = None → layer_at s !! p = Some x →
  core L (<[(l, k) := a]> N) [] F ids (full ids) None
    (upd_layer s p (Layer (bitmap x) (<[Z.to_nat (k mod 64) := a]> (ary x)) (count x + 1))).
Proof.
  intros C Ha Hl Hp Hk Hx. pose proof (c_parts _ _ _ _ _ _ _ _ C) as HP.
  destruct (parts_limbo _ _ _ _ HP) as [HaN HaF].
  eapply core_upd_tree; [exact C|..].
  - by apply tree_attach; [apply C|..].
  - apply parts_upd; [by apply parts_insert|by eexists].
  - intros Hin. apply (p_sep _ _ _ HP _ _ Hp). by right.
Qed.
