(* ===== verification/IdrAlloc.v ===== *)
(** * Allocation in src/datastruct/idr.c

    The search of [sub_alloc] finds the first free id, planting a pointer keeps
    the bits of the full layers right, [idr_get_new_above_int] makes the tree
    as high as the id needs: with the invariants of Idr.v, on every path. *)
From stdpp Require Import base tactics list numbers gmap fin_maps sets fin_sets.
From S2P Require Import Prelude Lists Idr.
Local Open Scope Z_scope.

(** ** The search of [sub_alloc] *)

Definition none_free (ids : gmap Z Z) (a b : Z) : Prop := ∀ i, a ≤ i < b → is_Some (ids !! i).

Lemma not_full_ex ids l k : 0 ≤ l → ¬ full ids l k → ∃ r, r / w l = k ∧ ids !! r = None.
Proof.
  intros Hl Hf. pose proof (w_pos l Hl).
  destruct (decide (Forall (λ i, is_Some (ids !! i)) (seqZ (k * w l) (w l)))) as [Ha|Ha].
  - destruct Hf. intros i Hi. rewrite Forall_forall in Ha. apply Ha, elem_of_seqZ. subst k. dlia.
  - apply not_Forall_Exists, Exists_exists in Ha as (r & Hr%elem_of_seqZ & Hn); [|apply _].
    exists r. split; [|by apply eq_None_not_Some]. symmetry. apply (Z.div_unique _ _ _ (r - k * w l)); lia.
Qed.
Lemma full_none_free ids l k i : 0 ≤ l → ids !! i = None → i / w l = k → ¬ full ids l k.
Proof. intros Hl Hi Hk Hf. specialize (Hf i Hk). rewrite Hi in Hf. by destruct Hf. Qed.

(** [(id | (2^k - 1)) + 1]: the first id of the next block. *)
Lemma lor_next id l : 0 ≤ l → 0 ≤ id → Z.lor id (w l - 1) + 1 = (id / w l + 1) * w l.
Proof.
  intros Hl Hid. pose proof (Z.add_lor_land id (w l - 1)) as E. unfold w in *.
  rewrite land_pow2_mask in E by lia. pose proof (Z.div_mod id (2 ^ (6 * l))). pose proof (w_pos l Hl). unfold w in *. lia.
Qed.
Lemma land_low q n : 0 ≤ n < 64 → Z.land (64 * q) n = 0.
Proof.
  intros Hn. apply Z.bits_inj'. intros i Hi. rewrite Z.land_spec, Z.bits_0.
  replace (64 * q) with (Z.shiftl q 6) by (rewrite Z.shiftl_mul_pow2; lia).
  destruct (decide (i < 6)).
  - by rewrite Z.shiftl_spec_low.
  - rewrite <- (Z.mod_small n (2 ^ 6)) by done. rewrite (Z.mod_pow2_bits_high n 6 i) by lia. apply andb_false_r.
Qed.
(** [(k ^ n) ^ m], where [n] is the low digit of [k]. *)
Lemma lxor_digit k m : 0 ≤ m < 64 → Z.lxor (Z.lxor k (k mod 64)) m = 64 * (k / 64) + m.
Proof.
  intros Hm. rewrite <- (slot_split k) at 1. rewrite !Z.add_nocarry_lxor by (apply land_low; auto using mod64).
  f_equal. by rewrite Z.lxor_assoc, Z.lxor_nilpotent, Z.lxor_0_r.
Qed.

(** A later id in the same block that lies in an earlier or equal part. *)
Lemma parts_none_free ids l a b : 0 ≤ l → (∀ k, a / w l ≤ k < b → k / 64 = a / w (l + 1) → full ids l k) →
  b ≤ 64 * (a / w (l + 1)) + 64 → none_free ids a (b * w l).
Proof.
  intros Hl Hf Hb i [Hi1 Hi2]. pose proof (w_pos l Hl).
  assert (a / w l ≤ i / w l) by (apply Z.div_le_mono; lia).
  assert (i / w l < b) by (apply Z.div_lt_upper_bound; lia).
  apply (Hf (i / w l)); [lia| |done]. rewrite div_up in * by done. dlia.
Qed.

(** [start] can be searched from: see [idr_carry_misplaces]. *)
Definition carry_free (ids : gmap Z Z) (start : Z) : Prop :=
  ∀ l, 1 ≤ l → (start / w l) mod 64 = 63 →
    full ids l (start / w l) ∨ ∃ r, start ≤ r ∧ r / w l = start / w l ∧ ids !! r = None.

(** The id that the search continues with: in the slot [m] of the layer. *)
Definition next_id (id l m : Z) : Z :=
  if m =? digit id l then id
  else s32 (Z.shiftl (Z.lxor (Z.lxor (Z.shiftr id (IDR_BITS * l)) (digit id l)) m) (IDR_BITS * l)).
Lemma next_id_spec L id l m : 0 ≤ l < L → L ≤ 5 → 0 ≤ id → id / w L = 0 → digit id l ≤ m < 64 →
  let k := 64 * (id / w (l + 1)) + m in
  next_id id l m / w l = k ∧ id ≤ next_id id l m < 2 ^ 30 ∧
  (m = digit id l ∧ next_id id l m = id ∨ next_id id l m = k * w l).
Proof.
  intros Hl HL Hid HidL Hm k. pose proof (w_pos l ltac:(lia)). pose proof (w_mono L 5 ltac:(lia)) as Hw5.
  change (w 5) with (2 ^ 30) in Hw5. apply block_lt in HidL as HidL'; [|lia|lia].
  unfold next_id. rewrite digit_eq in * by lia. pose proof (slot_split (id / w l)) as Hs. rewrite <- div_up in Hs by lia.
  destruct (Z.eqb_spec m ((id / w l) mod 64)) as [Em|Hne]; [split_and!; [unfold k; by rewrite Em|lia|lia|by left]|].
  pose proof (mod64 (id / w l)) as Hd. assert (k / 64 = id / w (l + 1)) as Hk by (apply slot_div; lia).
  assert (k / w (L - l) = 0) as HkL.
  { replace (L - l) with (1 + (L - 1 - l)) by lia. rewrite <- (div_w _ 1) by lia. change (w 1) with 64.
    rewrite Hk, div_w by lia. by replace (l + 1 + (L - 1 - l)) with L by lia. }
  assert (0 ≤ k) as Hk0 by (assert (0 ≤ id / w (l + 1)) by (apply Z.div_pos; [lia|apply w_pos; lia]); lia).
  apply block_lt in HkL; [|lia|done].
  assert (w L = w (L - l) * w l) as EL by (rewrite <- w_add by lia; f_equal; lia).
  assert (Z.lxor (Z.lxor (Z.shiftr id (IDR_BITS * l)) ((id / w l) mod 64)) m = k) as ->.
  { unfold IDR_BITS. rewrite Z.shiftr_div_pow2 by lia. fold (w l). rewrite lxor_digit by (pose proof (mod64 (id / w l)); lia).
    unfold k. by rewrite div_up by lia. }
  unfold IDR_BITS. rewrite Z.shiftl_mul_pow2 by lia. fold (w l).
  rewrite s32_small by (split; nia). rewrite block_first by lia. split_and!; [done| |nia|by right].
  pose proof (Z.div_mod id (w l)). pose proof (Z.mod_pos_bound id (w l)). nia.
Qed.

Definition pa_ok (L : Z) (N : gmap (Z * Z) Z) (id l : Z) (pa : larray Z) : Prop :=
  length pa = 6%nat ∧
  ∀ j, l < j ≤ L → pa !! Z.to_nat j = Some (Some (default NULL (N !! (j, id / w (j + 1))))).

Lemma wp_larray_get {A} (pa : larray A) i v Q s :
  0 ≤ i → pa !! Z.to_nat i = Some (Some v) → Q v s → wp (larray_get pa i) Q s.
Proof.
  intros Hi Hv HQ. apply (wp_gets_opt _ v); [|done]. destruct (Z.ltb_spec i 0); [lia|]. by rewrite Hv.
Qed.
Lemma wp_larray_set {A} (pa : larray A) i v Q s :
  0 ≤ i < Z.of_nat (length pa) → Q (<[Z.to_nat i := Some v]> pa) s → wp (larray_set pa i v) Q s.
Proof.
  intros Hi HQ. eapply wp_gets_opt; [|exact HQ]. cbv beta. destruct (Z.leb_spec 0 i); [|lia].
  by destruct (Z.ltb_spec i (Z.of_nat (length pa))); [|lia].
Qed.
Lemma wp_int_of x Q s : - 2 ^ 31 ≤ x < 2 ^ 31 → Q x s → wp (int_of x) Q s.
Proof.
  intros Hx HQ. unfold int_of. destruct (Z.leb_spec (- 2 ^ 31) x); [|lia].
  by destruct (Z.ltb_spec x (2 ^ 31)); [|lia].
Qed.
Lemma wp_one_shl l Q s : 0 ≤ l ≤ 5 → Q (w l) s → wp (one_shl (6 * l)) Q s.
Proof.
  intros Hl HQ. unfold one_shl. destruct (Z.leb_spec 0 (6 * l)); [|lia]. destruct (Z.ltb_spec (6 * l) 32); [|lia].
  assert (Z.shiftl 1 (6 * l) = w l) as -> by (rewrite Z.shiftl_1_l; done).
  pose proof (w_pos l). pose proof (w_mono l 5). change (w 5) with (2 ^ 30) in *. apply wp_int_of; [lia|done].
Qed.

Section search.
Context {L : Z} {ids : gmap Z Z} {start t0 : Z} {F0 : list Z} {s0 : idr_state}.
Context (HL : 1 ≤ L ≤ 5) (Hstart : 0 ≤ start) (Hcarry : carry_free ids start).

(** Going down from [start]; going up, at the beginning of a later block; or
    going down inside a block that has a free id after [id]. *)
Inductive phase (F : list Z) (l id : Z) : nat → Prop :=
| phase_first : id = start → F = F0 → phase F l id (12 + Z.to_nat l)
| phase_up : id = id / w l * w l → id / w (l + 1) = start / w (l + 1) → F = F0 → 1 ≤ l →
    phase F l id (12 - Z.to_nat l)
| phase_in : (id = id / w (l + 1) * w (l + 1) ∧ ¬ full ids (l + 1) (id / w (l + 1)) ∨
              ∀ i, i / w (l + 1) = id / w (l + 1) → ids !! i = None) →
    Z.of_nat (length F0) ≤ Z.of_nat (length F) + (L - 1 - l) → phase F l id (Z.to_nat l).

Definition search_inv (n : nat) : Z * Z * Z * larray Z → idr_state → Prop := λ '(p, l, id, pa) s,
  ∃ N F, core L N [] F ids (full ids) None s ∧ frame s0 s ∧ N !! (L - 1, 0) = Some t0 ∧
    N !! (l, id / w (l + 1)) = Some p ∧ pa_ok L N id l pa ∧ start ≤ id ∧ none_free ids start id ∧
    (l + 1 < L → ¬ full ids (l + 1) (id / w (l + 1))) ∧ phase F l id n.

Definition search_post (r : Z * Z + Z * Z * Z * larray Z) (s : idr_state) : Prop :=
  ∃ N F, core L N [] F ids (full ids) None s ∧ frame s0 s ∧ N !! (L - 1, 0) = Some t0 ∧
    match r with
    | inl (v, id) =>
        v = -1 ∧ Z.of_nat (length F0) < L ∨
        v = -2 ∧ id = w L ∧ none_free ids start (w L) ∧ F = F0
    | inr (p, m, id, pa) =>
        N !! (0, id / 64) = Some p ∧ m = id mod 64 ∧ pa_ok L N id 0 pa ∧ start ≤ id ∧
        none_free ids start id ∧ ids !! id = None ∧
        Z.of_nat (length F0) ≤ Z.of_nat (length F) + (L - 1)
    end.

Definition step_post (n : nat) (r : Z * Z * Z * larray Z + (Z * Z + Z * Z * Z * larray Z)) (s : idr_state) : Prop :=
  match r with inl l => ∃ n', (n' < n)%nat ∧ search_inv n' l s | inr r => search_post r s end.

(** The search only goes up while it is in the block of [start]. *)
Lemma phase_up_inv F l id n : 0 ≤ l < L → phase F l id n →
  (∀ k, id / w l ≤ k → k / 64 = id / w (l + 1) → full ids l k) →
  id / w (l + 1) = start / w (l + 1) ∧ F = F0 ∧ (12 - Z.to_nat (l + 1) < n)%nat.
Proof using HL.
  intros Hl Hph Hfull. pose proof (w_pos l ltac:(lia)). destruct Hph as [->|? ->|[[Ea Hn]|Hempty]]; [split; [done|split; [done|lia]]..| |].
  - destruct Hn. apply full_parts; [lia|]. intros i Hi. apply Hfull; [|by apply slot_div].
    rewrite Ea at 1. rewrite w_S, Z.mul_assoc, Z.div_mul by lia. lia.
  - destruct (full_none_free ids l (id / w l) id); try (done || lia); [by apply Hempty|].
    apply Hfull; [lia|]. by rewrite div_up by lia.
Qed.

(** The slots from the one of [id] on are full: up to the layer above. *)
Lemma search_up n p l id pa N F s :
  core L N [] F ids (full ids) None s → frame s0 s → N !! (L - 1, 0) = Some t0 →
  N !! (l, id / w (l + 1)) = Some p → pa_ok L N id l pa → start ≤ id → none_free ids start id →
  (l + 1 < L → ¬ full ids (l + 1) (id / w (l + 1))) → phase F l id n →
  (∀ k, id / w l ≤ k → k / 64 = id / w (l + 1) → full ids l k) →
  wp (e ← one_shl (6 * (l + 1)); id ← int_of (Z.lor id (e - 1) + 1); p ← larray_get pa (l + 1);
      if p =? NULL then mret (inr (inl (-2, id))) else mret (inl (p, l + 1, id, pa))) (step_post n) s.
Proof using HL Hstart Hcarry.
  intros C Hfr Ht Hp [Hlen Hpa] Hid Hnf Hpart Hph Hfull. pose proof (c_tree _ _ _ _ _ _ _ _ C) as T.
  destruct (t_key _ _ _ _ _ _ T _ _ (mk_is_Some _ _ Hp)) as [Hl Hq].
  destruct (phase_up_inv F l id n Hl Hph Hfull) as (Est & -> & Hn).
  apply wp_bind, wp_one_shl; [lia|]. rewrite lor_next by lia.
  assert (id / w L = 0) as HidL by (rewrite div_w in Hq by lia; by replace (l + 1 + (L - 1 - l)) with L in Hq by lia).
  set (q := id / w (l + 1)) in *. pose proof (w_pos (l + 1) ltac:(lia)) as Hw.
  assert (0 ≤ q) as Hq0 by (apply Z.div_pos; lia).
  assert (none_free ids start ((q + 1) * w (l + 1))) as Hnf2.
  { intros i Hi. destruct (decide (i < id)); [apply Hnf; lia|]. revert i Hi n0.
    assert (none_free ids id ((q + 1) * w (l + 1))) as Hx; [|intros; apply Hx; lia].
    rewrite w_S by lia. replace ((q + 1) * (64 * w l)) with ((64 * q + 64) * w l) by lia.
    apply parts_none_free; [lia| |unfold q; lia]. intros k Hk. apply Hfull. lia. }
  assert ((q + 1) * w (l + 1) ≤ w L) as Hle.
  { apply block_lt in Hq; [|lia|done]. replace L with (l + 1 + (L - 1 - l)) at 1 by lia. rewrite (w_add (l + 1) (L - 1 - l)) by lia. nia. }
  pose proof (w_mono L 5 ltac:(lia)) as Hw5. change (w 5) with (2 ^ 30) in Hw5.
  apply wp_bind, wp_int_of; [nia|]. apply wp_bind. eapply wp_larray_get; [lia|by apply Hpa; lia|].
  destruct (decide (l + 1 = L)) as [E|E].
  - assert (N !! (l + 1, id / w (l + 1 + 1)) = None) as ->.
    { apply eq_None_not_Some. intros Hs. destruct (t_key _ _ _ _ _ _ T _ _ Hs). lia. }
    apply wp_ret. exists N, F0. assert (q = 0) as Eq0 by (unfold q; by rewrite E). rewrite Eq0, E in *.
    replace ((0 + 1) * w L) with (w L) in * by lia. split_and!; try done. right. by split_and!.
  - assert (q mod 64 ≠ 63) as Hdig.
    { intros E63. destruct (Hcarry (l + 1)) as [Hf|(r & Hr & Er & Hfree)]; [lia|by rewrite <- Est| |].
      - apply Hpart; [lia|]. by rewrite Est.
      - rewrite <- Est in Er. destruct (Hnf2 r) as [? Hs]; [|congruence]. split; [done|]. unfold q in Er |- *.
        rewrite <- Er. pose proof (Z.div_mod r (w (l + 1))). pose proof (Z.mod_pos_bound r (w (l + 1))). lia. }
    assert ((q + 1) / 64 = q / 64) as Eq by dlia.
    assert (∀ j, l + 1 ≤ j → ((q + 1) * w (l + 1)) / w (j + 1) = id / w (j + 1)) as Epath.
    { intros j Hj. replace (j + 1) with (l + 1 + 1 + (j - (l + 1))) by lia. rewrite <- !(div_w _ (l + 1 + 1)) by lia.
      rewrite !(div_up _ (l + 1)) by lia. rewrite block_first by lia. unfold q in Eq |- *. by rewrite Eq. }
    destruct (t_par _ _ _ _ _ _ T _ _ (mk_is_Some _ _ Hp)) as [p' Hp']; [lia|].
    unfold q in Hp'. rewrite <- div_up in Hp' by lia. rewrite Hp'. simpl.
    destruct (Z.eqb_spec p' NULL) as [->|_].
    { by destruct (tree_nonnull T _ _ _ (p_null _ _ _ (c_parts _ _ _ _ _ _ _ _ C)) Hp'). }
    apply wp_ret. exists (12 - Z.to_nat (l + 1))%nat. split; [lia|]. exists N, F0.
    rewrite Epath by lia. split_and!; try done.
    + split; [done|]. intros j Hj. rewrite Epath by lia. apply Hpa. lia.
    + assert (id < (q + 1) * w (l + 1)); [|lia]. unfold q. pose proof (Z.div_mod id (w (l + 1))).
      pose proof (Z.mod_pos_bound id (w (l + 1))). lia.
    + intros Hlt Hf. apply Hpart; [lia|]. rewrite (full_parts _ (l + 1)) in Hf by lia.
      specialize (Hf (q mod 64) (mod64 q)). rewrite (div_up id (l + 1)) in Hf by lia. fold q in Hf. by rewrite slot_split in Hf.
    + apply phase_up; [by rewrite block_first by lia| |done|lia]. rewrite Epath by lia.
      rewrite !(div_up _ (l + 1)) by lia. by rewrite <- Est.
Qed.

(** The next layer is that of the slot [k], which is not full. *)
Lemma phase_next F l id k id1 n : 0 ≤ l → phase F l id n → k / 64 = id / w (l + 1) → ¬ full ids l k → id1 / w l = k →
  (id1 = id ∨ id1 = k * w l) → 1 ≤ l < L → ∃ n', (n' < n)%nat ∧ phase F (l - 1) id1 n'.
Proof using HL.
  intros Hl Hph Hk Hf Hk1 Hid1 HlL. pose proof (w_pos l Hl).
  assert (id1 = k * w l → (12 - Z.to_nat l ≤ n)%nat ∨ n = Z.to_nat l →
    Z.of_nat (length F0) ≤ Z.of_nat (length F) + (L - 1 - l) → ∃ n', (n' < n)%nat ∧ phase F (l - 1) id1 n') as Hin.
  { intros -> Hn Hc. exists (Z.to_nat (l - 1)). split; [lia|]. apply phase_in; [left|lia].
    replace (l - 1 + 1) with l by lia. rewrite block_first by lia. done. }
  destruct Hph as [-> ->|Ea Est -> _|Hin' Hc].
  - destruct Hid1 as [->|E].
    + exists (12 + Z.to_nat (l - 1))%nat. split; [lia|]. by apply phase_first.
    + apply Hin; [done|left; lia|lia].
  - apply Hin; [|left; lia|lia]. destruct Hid1 as [->|]; [|done]. by rewrite <- Hk1.
  - destruct Hid1 as [->|E]; [|apply Hin; [done|by right|lia]].
    destruct Hin' as [[Ea _]|Hempty].
    + apply Hin; [|by right|lia]. rewrite w_S, Z.mul_assoc in Ea by lia.
      rewrite <- Hk1. rewrite Ea at 2. by rewrite Z.div_mul by lia.
    + exists (Z.to_nat (l - 1)). split; [lia|]. apply phase_in; [right|lia]. replace (l - 1 + 1) with l by lia.
      intros i Hi. apply Hempty. rewrite !div_up in * by lia. congruence.
Qed.
End search.

Section search_step.
Context `{KernelLaws}.

Lemma lnot_bit b i : 0 ≤ i < 64 → Z.testbit (u64 (Z.lnot b)) i = negb (Z.testbit b i).
Proof. intros Hi. unfold u64. rewrite Z.mod_pow2_bits_low by lia. apply Z.lnot_spec. lia. Qed.
Lemma find_free f (b : Z → Prop) d q x n : layer_ok f b d q x → 0 ≤ n < 64 →
  let m := find_next_bit (u64 (Z.lnot (bitmap x))) 64 n in
  n ≤ m ≤ 64 ∧ (∀ i, n ≤ i < m → b (64 * q + i)) ∧ (m < 64 → ¬ b (64 * q + m)).
Proof.
  intros Hx Hn m. destruct (find_next_bit_spec (u64 (Z.lnot (bitmap x))) 64 n Hn) as (Hm & Hz & H1). fold m in Hm, Hz, H1.
  split; [done|]. split.
  - intros i Hi. apply (lk_bit _ _ _ _ _ Hx); [lia|]. specialize (Hz i Hi). rewrite lnot_bit in Hz by lia.
    by apply negb_false_iff.
  - intros Hm64 Hb. apply (lk_bit _ _ _ _ _ Hx) in Hb; [|lia]. specialize (H1 Hm64). rewrite lnot_bit, Hb in H1 by lia. done.
Qed.

Context {L : Z} {ids : gmap Z Z} {start t0 : Z} {F0 : list Z} {s0 : idr_state}.
Context (HL : 1 ≤ L ≤ 5) (Hstart : 0 ≤ start) (Hcarry : carry_free ids start).
Abbreviation search_inv := (search_inv (L := L) (ids := ids) (start := start) (t0 := t0) (F0 := F0) (s0 := s0)).
Abbreviation step_post := (step_post (L := L) (ids := ids) (start := start) (t0 := t0) (F0 := F0) (s0 := s0)).

(** Into the layer of the slot [m], making it when it is missing. *)
Lemma search_down n p l id pa m id1 N F s (k := 64 * (id / w (l + 1)) + m) :
  core L N [] F ids (full ids) None s → frame s0 s → N !! (L - 1, 0) = Some t0 →
  N !! (l, id / w (l + 1)) = Some p → pa_ok L N id l pa → start ≤ id1 → none_free ids start id1 →
  phase (L := L) (ids := ids) (start := start) (F0 := F0) F l id n → 0 ≤ m < 64 → ¬ full ids l k →
  id1 / w l = k → (id1 = id ∨ id1 = k * w l) → l ≠ 0 →
  wp (c ← get_ary p m;
      ok ← (if c =? NULL then
              new ← alloc_layer;
              if new =? NULL then mret false
              else set_ary p m new;; k ← get_count p; set_count p (k + 1);; mret true
            else mret true);
      if (ok : bool) then
        pa ← larray_set pa l p;
        c ← get_ary p m;
        mret (inl (c, l - 1, id1, pa))
      else mret (inr (inl (-1, start)))) (step_post n) s.
Proof using HL.
  intros C Hfr Ht Hp [Hlen Hpa] Hid Hnf Hph Hm Hf Hk1 Hid1 Hl0. pose proof (c_tree _ _ _ _ _ _ _ _ C) as T.
  destruct (t_key _ _ _ _ _ _ T _ _ (mk_is_Some _ _ Hp)) as [Hl Hq].
  assert (k / 64 = id / w (l + 1)) as Hk by (by apply slot_div).
  assert (k mod 64 = m) as Hkm by (by apply slot_low).
  assert (∀ j, l ≤ j → id1 / w (j + 1) = id / w (j + 1)) as Epath.
  { intros j Hj. replace (j + 1) with (l + 1 + (j - l)) by lia. rewrite <- !(div_w _ (l + 1) (j - l)) by lia. f_equal.
    rewrite div_up by lia. by rewrite Hk1. }
  (* what remains to be done in the layer [c] *)
  assert (∀ N' F' s' c x n', layer_at s' !! p = Some x → ary x !! Z.to_nat m = Some c → N' !! (l - 1, k) = Some c →
    core L N' [] F' ids (full ids) None s' → frame s0 s' → (∀ j q, l ≤ j → N' !! (j, q) = N !! (j, q)) →
    phase (L := L) (ids := ids) (start := start) (F0 := F0) F' (l - 1) id1 n' → (n' < n)%nat →
    wp (pa ← larray_set pa l p; c ← get_ary p m; mret (inl (c, l - 1, id1, pa))) (step_post n) s') as Hgo.
  { intros N' F' s' c x n' Hx Hc HN C' Hfr' HNN Hph' Hn'. apply wp_bind, wp_larray_set; [lia|].
    apply wp_bind. apply (wp_get_ary Hx m c); [lia|done|]. apply wp_ret. exists n'. split; [done|]. exists N', F'.
    replace (l - 1 + 1) with l by lia. rewrite Hk1. split_and!; try done; [by rewrite HNN by lia|]. split; [by etrans; [apply length_insert|]|].
    intros j Hj. destruct (decide (j = l)) as [->|Hne].
    - etrans; [apply list_lookup_insert_eq; lia|]. by rewrite Epath, HNN, Hp by lia.
    - etrans; [apply list_lookup_insert_ne; lia|]. rewrite HNN, Epath by lia. apply Hpa. lia. }
  destruct (tree_layer T _ _ _ Hp) as (x & Hx & Hok). rewrite <- Hk in Hok.
  pose proof (lk_slot _ _ _ _ _ Hok) as Hc. rewrite Hkm in Hc.
  assert (slot N ids l k = N !! (l - 1, k)) as Es by (unfold slot; by destruct (Z.eqb_spec l 0)). rewrite Es in Hc.
  apply wp_bind. eapply (wp_get_ary Hx m); [lia|done|]. destruct (N !! (l - 1, k)) as [c|] eqn:Ec; simpl.
  - destruct (Z.eqb_spec c NULL) as [->|_].
    { by destruct (tree_nonnull T _ _ _ (p_null _ _ _ (c_parts _ _ _ _ _ _ _ _ C)) Ec). }
    destruct (phase_next (ids := ids) (start := start) (F0 := F0) HL F l id k id1 n) as (n' & Hn' & Hph'); try done; [lia..|].
    apply wp_bind, wp_ret. by apply (Hgo N F s c x n').
  - apply wp_bind, wp_bind. apply (wp_alloc_layer F s _ C).
    + intros ->. apply wp_ret, wp_ret. exists N, []. split_and!; try done. left. split; [done|].
      destruct Hph as [? <-|? ? <- ?|? Hc']; simpl in *; lia.
    + intros a F' s' -> Ha C' Ha' Hfr'. destruct (Z.eqb_spec a NULL) as [|_]; [done|].
      pose proof (c_tree _ _ _ _ _ _ _ _ C') as T'. destruct (tree_layer T' _ _ _ Hp) as (y & Hy & Hoky).
      rewrite <- Hk in Hoky. pose proof (lk_length _ _ _ _ _ Hoky) as Hleny.
      apply wp_bind, (wp_set_ary Hy); [lia|]. apply wp_bind, (wp_get_count (upd_layer_eq _ _ _)).
      apply wp_bind, (wp_set_count (upd_layer_eq _ _ _)), wp_ret. rewrite upd_layer_upd. simpl.
      rewrite <- Hk in Hp. replace l with (l - 1 + 1) in Hp at 1 by lia.
      pose proof (core_attach (l := l - 1) C' Ha' ltac:(lia) Hp Ec Hy) as C''. rewrite Hkm in C''.
      eapply (Hgo _ F' _ a _ (Z.to_nat (l - 1))); [apply upd_layer_eq| | |exact C''|by etrans| | |].
      * simpl. apply list_lookup_insert_eq. lia.
      * apply lookup_insert_eq.
      * intros j q Hj. rewrite lookup_insert_ne; [done|]. intros [=]; lia.
      * apply phase_in; [right|].
        -- replace (l - 1 + 1) with l by lia. intros i Hi. apply (slot_None_ids T l k i); [congruence|lia|congruence].
        -- destruct Hph as [? <-|? ? <- ?|? Hc']; simpl in *; lia.
      * destruct Hph; lia.
Qed.

Lemma search_step_spec n v s : search_inv n v s → wp (search_step start v) (step_post n) s.
Proof using All.
  destruct v as [[[p l] id] pa]. intros (N & F & C & Hfr & Ht & Hp & Hpa & Hid & Hnf & Hpart & Hph).
  pose proof (c_tree _ _ _ _ _ _ _ _ C) as T. destruct (t_key _ _ _ _ _ _ T _ _ (mk_is_Some _ _ Hp)) as [Hl Hq].
  destruct (tree_layer T _ _ _ Hp) as (x & Hx & Hok).
  assert (id / w L = 0) as HidL by (rewrite div_w in Hq by lia; by replace (l + 1 + (L - 1 - l)) with L in Hq by lia).
  unfold search_step; cbv beta iota zeta. apply wp_bind, (wp_get_bitmap Hx).
  pose proof (digit_eq id l ltac:(lia)) as Ed. pose proof (mod64 (id / w l)) as Hd. rewrite <- Ed in Hd.
  destruct (find_free _ _ _ _ _ _ Hok Hd) as (Hm & Hlow & Hfree). change IDR_SIZE with 64.
  set (m := find_next_bit (u64 (Z.lnot (bitmap x))) 64 (digit id l)) in *.
  pose proof (slot_split (id / w l)) as Hsp. rewrite <- div_up, <- Ed in Hsp by lia.
  assert (∀ k, id / w l ≤ k < 64 * (id / w (l + 1)) + m → k / 64 = id / w (l + 1) → full ids l k) as Hfull.
  { intros k Hk Ek. rewrite <- (slot_split k), Ek. apply Hlow. pose proof (slot_split k). lia. }
  destruct (Z.eqb_spec m 64) as [E|E].
  - eapply (search_up HL Hstart Hcarry); try done.
    intros k Hk Ek. apply Hfull; [|done]. pose proof (slot_split k). pose proof (mod64 k). lia.
  - fold (next_id id l m).
    destruct (next_id_spec L id l m) as (Ek & Hge & Hcases); [lia..|].
    set (id1 := next_id id l m) in *. rewrite u32_small by lia. change MAX_ID_BIT with (2 ^ 31).
    destruct (Z.leb_spec (2 ^ 31) id1); [lia|]. destruct (Z.ltb_spec id1 0); [lia|]. simpl.
    assert (none_free ids start id1) as Hnf1.
    { intros i Hi. destruct (decide (i < id)); [apply Hnf; lia|]. destruct Hcases as [[_ ?]|E1]; [lia|].
      assert (none_free ids id (id1)) as Hx'; [|apply Hx'; lia]. rewrite E1.
      apply parts_none_free; [lia| |lia]. intros k Hk. apply Hfull. lia. }
    destruct (Z.eqb_spec l 0) as [->|Hl0].
    + apply wp_ret. exists N, F. rewrite div_w0 in Ek. change (w (0 + 1)) with 64 in *.
      assert (id1 / 64 = id / 64) as E64 by (rewrite Ek; apply slot_div; lia). split_and!; try done.
      * by rewrite E64.
      * rewrite Ek. symmetry. apply slot_low. lia.
      * split; [apply Hpa|]. intros j Hj. replace (j + 1) with (1 + j) by lia.
        rewrite <- (div_w id1 1 j) by lia. change (w 1) with 64. rewrite E64. change 64 with (w 1).
        rewrite div_w by lia. replace (1 + j) with (j + 1) by lia. by apply Hpa.
      * lia.
      * apply eq_None_not_Some. intros Hs. apply Hfree; [lia|]. rewrite <- Ek. intros i Hi. rewrite div_w0 in Hi. by rewrite Hi.
      * destruct Hph as [? <-|? ? <- ?|? ?]; lia.
    + eapply search_down; try done; [lia|lia|apply Hfree; lia|].
      destruct Hcases as [[_ ?]|?]; [by left|by right].
Qed.
End search_step.

(** ** Planting a pointer *)

Lemma full_ext ids ids' l k : (∀ i, i / w l = k → is_Some (ids !! i) ↔ is_Some (ids' !! i)) → full ids l k ↔ full ids' l k.
Proof. intros E. split; intros Hf i Hi; apply (E i Hi); by apply Hf. Qed.
Lemma full_insert_ne ids id v l k : id / w l ≠ k → full (<[id := v]> ids) l k ↔ full ids l k.
Proof. intros Hn. apply full_ext. intros i Hi. rewrite lookup_insert_ne; [done|]. congruence. Qed.
Lemma full_sub ids id l m : 0 ≤ l ≤ m → full ids m (id / w m) → full ids l (id / w l).
Proof.
  intros Hl Hf i Hi. apply Hf. replace m with (l + (m - l)) by lia. rewrite <- !(div_w _ l (m - l)) by lia. by rewrite Hi.
Qed.

(** The bits of the levels up to [lv] are those of [ids'], the others are old. *)
Definition full_upto (ids ids' : gmap Z Z) (lv l k : Z) : Prop :=
  if l <=? lv then full ids' l k else full ids l k.
Lemma full_upto_le ids ids' lv l k : l ≤ lv → full_upto ids ids' lv l k ↔ full ids' l k.
Proof. intros. unfold full_upto. by destruct (Z.leb_spec l lv); [|lia]. Qed.
Lemma full_upto_gt ids ids' lv l k : lv < l → full_upto ids ids' lv l k ↔ full ids l k.
Proof. intros. unfold full_upto. by destruct (Z.leb_spec l lv); [lia|]. Qed.

Lemma tree_plant {L N ids h id p x} v : tree_ok L N ids (full ids) None h → 0 ≤ id → ids !! id = None →
  N !! (0, id / 64) = Some p → h !! p = Some x →
  tree_ok L N (<[id := v]> ids) (full_upto ids (<[id := v]> ids) 0) None
    (<[p := Layer (Z.setbit (bitmap x) (id mod 64)) (<[Z.to_nat (id mod 64) := v]> (ary x)) (count x + 1)]> h).
Proof.
  intros T Hid Hnone Hp Hx. split; try apply T.
  - intros l q a Ha. destruct (tree_layer T _ _ _ Ha) as (y & Hy & Hok).
    destruct (t_key _ _ _ _ _ _ T _ _ (mk_is_Some _ _ Ha)) as [Hl _].
    destruct (decide ((l, q) = (0, id / 64))) as [[= -> ->]|Hne].
    + assert (a = p) as -> by congruence. rewrite lookup_insert_eq. eexists. split; [done|].
      assert (y = x) as -> by congruence.
      pose proof (layer_set Hok (slot N (<[id := v]> ids) 0) v) as Hs.
      assert (layer_ok (slot N (<[id:=v]> ids) 0) (full ids 0) (pend None 0 (id / 64)) (id / 64)
        (Layer (bitmap x) (<[Z.to_nat (id mod 64):=v]> (ary x)) (count x + 1))) as Hs'.
      { apply Hs; [done|by apply lookup_insert_eq|]. intros j Hj. by apply lookup_insert_ne. }
      apply (layer_setbit Hs').
      * rewrite full_upto_le by lia. intros i. rewrite div_w0. intros ->. rewrite lookup_insert_eq. by eexists.
      * intros j Hj _. rewrite full_upto_le by lia. apply full_insert_ne. by rewrite div_w0.
    + rewrite lookup_insert_ne by (intros ->; apply Hne; by apply (t_inj _ _ _ _ _ _ T _ _ a)).
      exists y. split; [done|]. apply (layer_ok_ext (slot N ids l) _ (full ids l)); [| |done].
      * intros k <-. unfold slot. destruct (Z.eqb_spec l 0) as [->|]; [|done]. apply lookup_insert_ne. congruence.
      * intros k <-. destruct (decide (l = 0)) as [->|]; [|apply full_upto_gt; lia].
        rewrite full_upto_le by lia. apply full_insert_ne. rewrite div_w0. congruence.
  - intros i Hi. destruct (decide (i = id)) as [->|Hn].
    + split; [done|]. by eexists.
    + rewrite lookup_insert_ne in Hi by done. by apply (t_ids _ _ _ _ _ _ T).
Qed.

Section plant.
Context `{KernelLaws}.
Context {L : Z} {N : gmap (Z * Z) Z} {F : list Z} {ids : gmap Z Z} {s0 : idr_state} {id v : Z}.
Context (Hid : 0 ≤ id) (Hnone : ids !! id = None).
Abbreviation ids' := (<[id := v]> ids).

Lemma full_old_no m : 0 ≤ m → ¬ full ids m (id / w m).
Proof using Hnone. intros Hm. by apply (full_none_free ids m _ id). Qed.

Lemma mark_full_spec fuel pa p s : core L N [] F ids' (full_upto ids ids' 0) None s → frame s0 s →
  N !! (0, id / 64) = Some p → pa_ok L N id 0 pa → (6 < fuel)%nat →
  wp (mark_full fuel pa p id) (λ _ s', core L N [] F ids' (full ids') None s' ∧ frame s0 s') s.
Proof using All.
  intros C Hfr Hp [Hlen Hpa] Hfuel. pose proof (t_L _ _ _ _ _ _ (c_tree _ _ _ _ _ _ _ _ C)) as HL.
  apply (wp_loop _ (λ n '(p, l, n') s, n = Z.to_nat (L - l) ∧ n' = id / w l ∧ N !! (l, id / w (l + 1)) = Some p ∧
    core L N [] F ids' (full_upto ids ids' l) None s ∧ frame s0 s)) with (n := Z.to_nat L); [|by rewrite Z.sub_0_r, div_w0|lia].
  clear s p C Hfr Hp. intros n [[p l] n'] s (-> & -> & Hp & C & Hfr). pose proof (c_tree _ _ _ _ _ _ _ _ C) as T.
  destruct (t_key _ _ _ _ _ _ T _ _ (mk_is_Some _ _ Hp)) as [Hl _].
  destruct (tree_layer T _ _ _ Hp) as (x & Hx & Hok). apply wp_bind, (wp_get_bitmap Hx).
  assert (bitmap x = IDR_FULL ↔ full ids' (l + 1) (id / w (l + 1))) as Hfull.
  { rewrite (lk_full _ _ _ _ _ Hok), full_parts by lia. split; intros Hf i Hi; apply (full_upto_le ids ids' l); auto; lia. }
  assert (∀ B', (∀ m k, m < L → l < m → B' m k ↔ full ids m k) → (∀ m k, m ≤ l → B' m k ↔ full ids' m k) →
    core L N [] F ids' B' None s) as Hbits.
  { intros B' H1 H2. destruct C. split; try done. apply (tree_bits T). intros m k Hk.
    destruct (t_key _ _ _ _ _ _ T _ _ Hk). destruct (decide (m ≤ l)).
    - rewrite full_upto_le by lia. by apply H2.
    - rewrite full_upto_gt by lia. apply H1; lia. }
  destruct (Z.eqb_spec (bitmap x) IDR_FULL) as [E|E].
  - apply Hfull in E. apply wp_bind. eapply wp_larray_get; [lia|by apply Hpa; lia|].
    destruct (decide (l + 1 = L)) as [EL|EL].
    + assert (N !! (l + 1, id / w (l + 1 + 1)) = None) as ->.
      { apply eq_None_not_Some. intros Hs. destruct (t_key _ _ _ _ _ _ T _ _ Hs). lia. }
      apply wp_ret. split; [|done]. apply Hbits; [lia|done].
    + destruct (t_par _ _ _ _ _ _ T _ _ (mk_is_Some _ _ Hp)) as [p' Hp']; [lia|].
      rewrite <- div_up in Hp' by lia. rewrite Hp'. simpl. destruct (Z.eqb_spec p' NULL) as [->|_].
      { by destruct (tree_nonnull T _ _ _ (p_null _ _ _ (c_parts _ _ _ _ _ _ _ _ C)) Hp'). }
      destruct (tree_layer T _ _ _ Hp') as (y & Hy & Hoky). unfold IDR_BITS. rewrite Z.shiftr_div_pow2 by lia.
      change (2 ^ 6) with 64. rewrite <- div_up by lia. change IDR_MASK with (2 ^ 6 - 1).
      rewrite land_pow2_mask by lia. change (2 ^ 6) with 64. rewrite div_up in Hoky by lia.
      apply wp_bind, (wp_get_bitmap Hy), wp_bind, (wp_set_bitmap Hy), wp_ret. rewrite set_bit_spec by apply mod64.
      exists (Z.to_nat (L - (l + 1))). split; [lia|]. split_and!; try done.
      apply (core_upd s _ None F (l + 1) (id / w (l + 1) / 64) _ _ C); [by rewrite <- div_up by lia|..].
      * apply (layer_setbit Hoky); [by rewrite full_upto_le by lia|]. intros j Hj _.
        rewrite full_upto_le, full_upto_gt by lia. by apply full_insert_ne.
      * intros m q Hne. split; [done|]. intros k <-. destruct (decide (m = l + 1)) as [->|].
        -- rewrite full_upto_le, full_upto_gt by lia. apply full_insert_ne. congruence.
        -- destruct (decide (m ≤ l)); [by rewrite !full_upto_le by lia|by rewrite !full_upto_gt by lia].
  - apply wp_ret. split; [|done]. apply Hbits; [|done]. intros m k _ Hm. destruct (decide (id / w m = k)) as [<-|Hne].
    + split; intros Hf; [|by destruct (full_old_no m ltac:(lia))]. destruct E. apply Hfull. apply (full_sub _ _ _ m); [lia|done].
    + by apply full_insert_ne.
Qed.
End plant.

(** ** Allocation *)

Section alloc.
Context `{KernelLaws}.
Context {ids : gmap Z Z}.

(** The results of [sub_alloc]: a layer is missing; no id is free in the tree
    from [start] on; or [v] is the first that is. *)
Definition sub_alloc_post (L t0 start ptr : Z) (F : list Z) (s : idr_state) (r : Z * Z) (s' : idr_state) : Prop :=
  ∃ N' F', frame s s' ∧ N' !! (L - 1, 0) = Some t0 ∧
    ((fst r = -1 ∧ Z.of_nat (length F) < L ∨
      fst r = -2 ∧ snd r = w L ∧ none_free ids start (w L) ∧ F' = F) ∧
     core L N' [] F' ids (full ids) None s' ∨
     (start ≤ fst r ∧ none_free ids start (fst r) ∧ ids !! fst r = None ∧
      Z.of_nat (length F) ≤ Z.of_nat (length F') + (L - 1)) ∧
     core L N' [] F' (<[fst r := ptr]> ids) (full (<[fst r := ptr]> ids)) None s').

Lemma sub_alloc_spec fuel ptr start L t0 N F s :
  core L N [] F ids (full ids) None s → layers (the_idr s) = L → top (the_idr s) = t0 →
  N !! (L - 1, 0) = Some t0 → 1 ≤ L ≤ 5 → 0 ≤ start → start / w L = 0 → carry_free ids start → (24 < fuel)%nat →
  wp (sub_alloc fuel ptr start) (sub_alloc_post L t0 start ptr F s) s.
Proof using All.
  intros C HLs Hts Ht HL Hst HstL Hcarry Hfuel. pose proof (c_tree _ _ _ _ _ _ _ _ C) as T.
  unfold sub_alloc. apply wp_bind, wp_get_idr, wp_bind, wp_get_idr. rewrite HLs, Hts.
  apply wp_bind, wp_larray_set; [change (0 ≤ L < 6); lia|]. apply wp_bind.
  eapply wp_mono; [apply (wp_loop (search_step start) (search_inv (L := L) (ids := ids) (start := start) (t0 := t0) (F0 := F) (s0 := s))
    (search_post (L := L) (ids := ids) (start := start) (t0 := t0) (F0 := F) (s0 := s))) with (n := (12 + Z.to_nat (L - 1))%nat)|].
  - intros. by apply search_step_spec.
  - exists N, F. replace (L - 1 + 1) with L by lia. rewrite HstL. split_and!; try done.
    + split; [by etrans; [apply length_insert|]|]. intros j Hj. assert (j = L) as -> by lia.
      assert (N !! (L, start / w (L + 1)) = None) as ->.
      { apply eq_None_not_Some. intros Hs. destruct (t_key _ _ _ _ _ _ T _ _ Hs). lia. }
      apply list_lookup_insert_eq. change (length larray_new) with 6%nat. lia.
    + intros i. lia.
    + lia.
    + by apply phase_first.
  - lia.
  - intros [[v st]|[[[p m] id] pa]] s' (N' & F' & C' & Hfr & Ht' & Hr).
    + apply wp_ret. exists N', F'. split_and!; try done. left. split; [|done]. simpl.
      destruct Hr as [?|(-> & -> & ? & ->)]; [by left|by right].
    + destruct Hr as (Hp & -> & Hpa & Hge & Hnf & Hnone & Hlen).
      destruct (tree_layer (c_tree _ _ _ _ _ _ _ _ C') _ _ _ Hp) as (x & Hx & Hok).
      pose proof (mod64 id) as Hm. pose proof (lk_length _ _ _ _ _ Hok).
      apply wp_bind, (wp_set_ary Hx); [lia|]. apply wp_bind, (wp_get_bitmap (upd_layer_eq _ _ _)).
      apply wp_bind, (wp_set_bitmap (upd_layer_eq _ _ _)). rewrite upd_layer_upd. simpl.
      apply wp_bind, (wp_get_count (upd_layer_eq _ _ _)), wp_bind, (wp_set_count (upd_layer_eq _ _ _)).
      rewrite upd_layer_upd. simpl. rewrite set_bit_spec by done.
      apply wp_bind. eapply wp_mono; [apply (mark_full_spec (s0 := s) (L := L) (N := N') (F := F') (ids := ids) (v := ptr)); try done|].
      * lia.
      * eapply core_upd_tree; [exact C'|by apply tree_plant; [apply C'|lia|..]| |].
        -- apply parts_upd; [apply C'|by eexists].
        -- apply (p_sep _ _ _ (c_parts _ _ _ _ _ _ _ _ C') _ _ Hp).
      * lia.
      * simpl. intros _ s2 [C2 Hfr2]. apply wp_ret. exists N', F'. split_and!; try done. right. by split_and!.
Qed.
End alloc.

(** ** The height of the tree *)

Lemma tree_above {L N ids B D h} : tree_ok L N ids B D h → ∀ l q m, is_Some (N !! (l, q)) → l ≤ m < L →
  is_Some (N !! (m, q / w (m - l))).
Proof.
  intros T l q m Hs [Hlm Hm]. destruct (t_key _ _ _ _ _ _ T _ _ Hs) as [Hl _]. revert Hm.
  replace m with (l + (m - l)) by lia. generalize (m - l) (Z.le_0_sub l m). intros d Hd. apply Hd in Hlm. clear Hd.
  replace (l + d - l) with d by lia. pattern d. apply natlike_ind; [| |done].
  - intros _. rewrite div_w0. by replace (l + 0) with l by lia.
  - intros e He IH Hlt. unfold Z.succ in *. rewrite div_up by done. rewrite Z.add_assoc.
    apply (t_par _ _ _ _ _ _ T); [apply IH|]; lia.
Qed.

Lemma full_empty l k : 0 ≤ l → ¬ full ∅ l k.
Proof. intros Hl. apply (full_none_free ∅ l k (k * w l)); [done|apply lookup_empty|by apply block_first]. Qed.

(** A tree that is one empty layer; its height is arbitrary. *)
Abbreviation empty_layer := (layer_ok (λ _, None) (λ _, False) 0 0).
Lemma tree_single L a x h : 1 ≤ L ≤ 6 → h !! a = Some x → empty_layer x →
  tree_ok L {[(L - 1, 0) := a]} ∅ (full ∅) None h.
Proof.
  intros HL Ha Hx. split; [lia|..].
  - intros l q b [[= <- <-] <-]%lookup_singleton_Some. exists x. split; [done|].
    apply (layer_ok_ext (λ _, None) _ (λ _, False)); [| |done].
    + intros k _. unfold slot. destruct (Z.eqb_spec (L - 1) 0); [done|]. apply lookup_singleton_ne. intros [=]; lia.
    + intros k _. split; [|done]. apply full_empty. lia.
  - intros l q [b [[= <- <-] _]%lookup_singleton_Some]. split; [lia|]. apply Z.div_0_l. pose proof (w_pos (L - 1 - (L - 1))). lia.
  - intros l q [b [[= <- <-] _]%lookup_singleton_Some]. lia.
  - intros _. eexists. apply lookup_singleton_eq.
  - intros i [? [=]].
  - intros k1 k2 b [<- <-]%lookup_singleton_Some [<- _]%lookup_singleton_Some. done.
Qed.
Lemma tree_empty_top {L N ids h a x} : tree_ok L N ids (full ids) None h → N !! (L - 1, 0) = Some a → h !! a = Some x →
  count x = 0 → N = {[(L - 1, 0) := a]} ∧ ids = ∅ ∧ empty_layer x.
Proof.
  intros T Ha Hx Hc. destruct (tree_layer T _ _ _ Ha) as (y & Hy & Hok). assert (y = x) as -> by congruence.
  pose proof (lk_count _ _ _ _ _ Hok) as Hk. rewrite Hc, pend_None in Hk.
  assert (∀ k, k / 64 = 0 → slot N ids (L - 1) k = None) as Hnone by (apply kids_empty; lia).
  destruct (t_key _ _ _ _ _ _ T _ _ (mk_is_Some _ _ Ha)) as [HL _].
  assert (∀ l q, is_Some (N !! (l, q)) → l = L - 1) as Hlev.
  { intros l q Hs. destruct (t_key _ _ _ _ _ _ T _ _ Hs) as [Hl Hq]. destruct (decide (l = L - 1)); [done|].
    pose proof (tree_above T l q (L - 2) Hs ltac:(lia)) as [b Hb]. specialize (Hnone (q / w (L - 2 - l))).
    unfold slot in Hnone. destruct (Z.eqb_spec (L - 1) 0); [lia|]. replace (L - 1 - 1) with (L - 2) in Hnone by lia.
    rewrite Hb in Hnone. discriminate Hnone. rewrite <- div_up by lia. by replace (L - 2 - l + 1) with (L - 1 - l) by lia. }
  assert (ids = ∅) as ->.
  { apply map_eq. intros i. rewrite lookup_empty. apply eq_None_not_Some. intros Hi.
    pose proof (ids_range T i Hi). pose proof (tree_path T i 0 Hi ltac:(lia)) as Hp. apply Hlev in Hp.
    replace L with 1 in * by lia. specialize (Hnone i). unfold slot in Hnone. simpl in Hnone.
    destruct Hi as [v Hv]. rewrite Hv in Hnone. discriminate Hnone. apply Z.div_small. change (w 1) with 64 in *. lia. }
  split_and!; [|done|].
  - apply map_eq. intros [l q]. destruct (decide ((l, q) = (L - 1, 0))) as [[= -> ->]|Hne].
    + rewrite Ha. symmetry. apply lookup_singleton_eq.
    + rewrite lookup_singleton_ne by congruence. apply eq_None_not_Some. intros Hs. apply Hne.
      assert (l = L - 1) as -> by by apply (Hlev l q). destruct (t_key _ _ _ _ _ _ T _ _ Hs) as [_ Hq].
      replace (L - 1 - (L - 1)) with 0 in Hq by lia. rewrite div_w0 in Hq. congruence.
  - apply (layer_ok_ext (slot N ∅ (L - 1)) _ (full ∅ (L - 1))); [| |done].
    + intros k Hk0. by rewrite Hnone.
    + intros k _. split; [done|]. apply full_empty. lia.
Qed.

(** A new top layer [a] over the old one. *)
Definition top_layer (b : bool) (p : Z) : idr_layer :=
  Layer (if b then 1 else 0) (<[0%nat := p]> (ary idr_cache_ctor)) 1.
Lemma top_layer_ok (f : Z → option Z) (fb : Z → Prop) b p : f 0 = Some p → (∀ k, k / 64 = 0 → k ≠ 0 → f k = None ∧ ¬ fb k) →
  (b = true ↔ fb 0) → layer_ok f fb 0 0 (top_layer b p).
Proof.
  intros H0 Hk Hb. pose proof (layer_empty (λ _, None) (λ _, False) 0 (λ _ _, conj eq_refl (λ H, H))) as He.
  assert (layer_ok f (λ _, False) 0 0 (Layer 0 (<[0%nat := p]> (ary idr_cache_ctor)) 1)) as Hs.
  { apply (layer_ok_ext (λ k, if decide (k = 0) then Some p else None) _ (λ _, False)); [|done|].
    - intros k Hk0. case_decide as E; [by subst|]. by apply Hk.
    - apply (layer_set (k := 0) He); [done|done|]. intros j Hj. by case_decide. }
  destruct b.
  - apply (layer_setbit (k := 0) Hs); [by apply Hb|]. intros j Hj E. split; [|done]. by apply Hk.
  - apply (layer_ok_ext f _ (λ _, False)); [done| |done]. intros k E. split; [|done].
    destruct (decide (k = 0)) as [->|]; [by intros ?%Hb|]. by apply Hk.
Qed.
Lemma tree_grow {L N ids h a p} b : tree_ok L N ids (full ids) None h → (∀ j, N !! j ≠ Some a) → 1 ≤ L ≤ 5 →
  N !! (L - 1, 0) = Some p → (b = true ↔ full ids L 0) →
  tree_ok (L + 1) (<[(L, 0) := a]> N) ids (full ids) None (<[a := top_layer b p]> h).
Proof.
  intros T HaN HL Hp Hb. pose proof (w_pos L ltac:(lia)). split; [lia|..].
  - intros l q c [[[= <- <-] <-]|[Hne Hc]]%lookup_insert_Some.
    + rewrite lookup_insert_eq. eexists. split; [done|].
      apply top_layer_ok; [| |done].
      * unfold slot. destruct (Z.eqb_spec L 0); [lia|]. rewrite lookup_insert_ne; [done|]. intros [=]; lia.
      * intros k Hk Hk0. split.
        -- unfold slot. destruct (Z.eqb_spec L 0); [lia|]. rewrite lookup_insert_ne by (intros [=]; lia).
           apply eq_None_not_Some. intros Hs. destruct (t_key _ _ _ _ _ _ T _ _ Hs) as [_ Hq].
           replace (L - 1 - (L - 1)) with 0 in Hq by lia. by rewrite div_w0 in Hq.
        -- apply (full_none_free ids L k (k * w L)); [lia| |apply block_first; lia].
           apply eq_None_not_Some. intros Hs. apply (ids_range T) in Hs. assert (0 ≤ k) by dlia. nia.
    + destruct (tree_layer T _ _ _ Hc) as (y & Hy & Hok). exists y.
      rewrite lookup_insert_ne by (intros ->; by apply (HaN _ Hc)). split; [done|].
      destruct (t_key _ _ _ _ _ _ T _ _ (mk_is_Some _ _ Hc)) as [Hl _].
      apply (layer_ok_ext (slot N ids l) _ (full ids l)); [|done|done]. intros k _. apply slot_insert; [lia|]. intros [=]; lia.
  - intros l q [c [[[= <- <-] _]|[_ Hc]]%lookup_insert_Some].
    + split; [lia|]. apply Z.div_0_l. pose proof (w_pos (L + 1 - 1 - L)). lia.
    + destruct (t_key _ _ _ _ _ _ T _ _ (mk_is_Some _ _ Hc)) as [Hl Hq]. split; [lia|].
      replace (L + 1 - 1 - l) with (L - 1 - l + 1) by lia. by rewrite div_up, Hq by lia.
  - intros l q [[= <- <-]|[_ Hs]]%lookup_insert_is_Some Hlt; apply lookup_insert_is_Some'; [lia|].
    destruct (t_key _ _ _ _ _ _ T _ _ Hs) as [Hl Hq]. destruct (decide (l + 1 = L)) as [E|].
    + left. replace (L - 1 - l) with 0 in Hq by lia. rewrite div_w0 in Hq. subst q. by rewrite E.
    + right. apply (t_par _ _ _ _ _ _ T); [done|lia].
  - intros _. replace (L + 1 - 1) with L by lia. rewrite lookup_insert_eq. by eexists.
  - intros i Hi. destruct (t_ids _ _ _ _ _ _ T i Hi). split; [done|]. apply lookup_insert_is_Some'. by right.
  - apply injective_insert; [exact (t_inj _ _ _ _ _ _ T)|done].
Qed.

(** Dropping a top layer that only has its first slot. *)
Lemma tree_drop {L N ids h} : tree_ok (L + 1) N ids (full ids) None h → 1 ≤ L →
  is_Some (N !! (L - 1, 0)) → (∀ q, is_Some (N !! (L - 1, q)) → q = 0) →
  tree_ok L (delete (L, 0) N) ids (full ids) None h.
Proof.
  intros T HL Hp Hq0. pose proof (t_L _ _ _ _ _ _ T).
  assert (∀ l q, is_Some (N !! (l, q)) → (l, q) ≠ (L, 0) → 0 ≤ l < L) as Hlev.
  { intros l q Hs Hne. destruct (t_key _ _ _ _ _ _ T _ _ Hs) as [Hl Hq]. destruct (decide (l = L)) as [->|]; [|lia].
    replace (L + 1 - 1 - L) with 0 in Hq by lia. rewrite div_w0 in Hq. congruence. }
  split; [lia|..].
  - intros l q c [Hne Hc]%lookup_delete_Some. destruct (tree_layer T _ _ _ Hc) as (y & Hy & Hok). exists y. split; [done|].
    destruct (Hlev l q) as [? ?]; [by eexists|done|].
    apply (layer_ok_ext (slot N ids l) _ (full ids l)); [|done|done]. intros k _. apply slot_delete; [lia|]. intros [=]; lia.
  - intros l q [c [Hne Hc]%lookup_delete_Some]. pose proof (mk_is_Some _ _ Hc) as Hs.
    destruct (Hlev l q Hs) as [? ?]; [done|]. split; [lia|]. apply Hq0. by apply (tree_above T); [|lia].
  - intros l q [c [Hne Hc]%lookup_delete_Some] Hlt. rewrite lookup_delete_ne by (intros [=]; lia).
    apply (t_par _ _ _ _ _ _ T); [by eexists|lia].
  - intros _. rewrite lookup_delete_ne; [done|]. intros [=]; lia.
  - intros i Hi. destruct (t_ids _ _ _ _ _ _ T i Hi). split; [done|]. rewrite lookup_delete_ne; [done|]. intros [=]; lia.
  - apply injective_delete. exact (t_inj _ _ _ _ _ _ T).
Qed.
(** Such a layer is spare but for its count and bits. *)
Lemma ary_one f b d q x : layer_ok f b d q x → (∀ k, k / 64 = q → k ≠ 64 * q → f k = None) →
  ary x = <[0%nat := default NULL (f (64 * q))]> (ary idr_cache_ctor).
Proof.
  intros Hx Hf. pose proof (lk_length _ _ _ _ _ Hx) as Hl. apply list_eq. intros i.
  destruct (decide (i < 64)%nat); [|by rewrite !lookup_ge_None_2 by (rewrite ?length_insert; simpl; lia)].
  pose proof (lk_ary _ _ _ _ _ Hx (Z.of_nat i) ltac:(lia)) as E. rewrite Nat2Z.id in E. rewrite E.
  destruct i as [|i]; [rewrite list_lookup_insert_eq by (simpl; lia); by rewrite Z.add_0_r|].
  rewrite list_lookup_insert_ne by done. rewrite Hf by (try apply slot_div; lia).
  symmetry. apply (lookup_replicate_2 64). lia.
Qed.

(** ** [build_up] and [tear_down] *)

(** [N'] is [N] with the new top layers [L .. n - 1]. *)
Definition grown (L : Z) (N : gmap (Z * Z) Z) (n : Z) (N' : gmap (Z * Z) Z) : Prop :=
  L ≤ n ∧ (∀ l q, l < L → N' !! (l, q) = N !! (l, q)) ∧ ∀ l q, L ≤ l → is_Some (N' !! (l, q)) → q = 0.

Lemma top_q0 {L N ids B D h} q : tree_ok L N ids B D h → is_Some (N !! (L - 1, q)) → q = 0.
Proof.
  intros T Hs. destruct (t_key _ _ _ _ _ _ T _ _ Hs) as [_ Hq]. replace (L - 1 - (L - 1)) with 0 in Hq by lia.
  by rewrite div_w0 in Hq.
Qed.
Lemma grown_eq {L N N' ids B D B' D' h h'} : tree_ok L N ids B D h → tree_ok L N' ids B' D' h' → grown L N L N' → N' = N.
Proof.
  intros T T' (_ & E & _). apply map_eq. intros [l q]. destruct (decide (l < L)); [by apply E|].
  transitivity (@None Z); [|symmetry]; apply eq_None_not_Some; intros Hs.
  - destruct (t_key _ _ _ _ _ _ T' _ _ Hs). lia.
  - destruct (t_key _ _ _ _ _ _ T _ _ Hs). lia.
Qed.

Lemma core_drop {L N F ids s a v} :
  core (L + 1) N [] F ids (full ids) None s → 1 ≤ L → N !! (L, 0) = Some a →
  is_Some (N !! (L - 1, 0)) → (∀ q, is_Some (N !! (L - 1, q)) → q = 0) →
  core L (delete (L, 0) N) [a] F ids (full ids) None (upd_layer s a (Layer 0 (<[0%nat := v]> (ary idr_cache_ctor)) 0)).
Proof.
  intros C HL Ha Hp Hq. pose proof (c_tree _ _ _ _ _ _ _ _ C) as T.
  pose proof (p_sep _ _ _ (c_parts _ _ _ _ _ _ _ _ C) _ _ Ha) as HaF.
  destruct (tree_layer T _ _ _ Ha) as (x & Hx & _).
  eapply (core_upd_tree [] [a]); [exact C| | |done].
  - apply tree_other; [by apply tree_drop|]. intros k [Hne Hk]%lookup_delete_Some.
    apply Hne. by apply (t_inj _ _ _ _ _ _ T _ _ a).
  - apply parts_upd; [|by eexists]. apply parts_remove; [exact (t_inj _ _ _ _ _ _ T)|apply C|done].
Qed.

Section growth.
Context `{KernelLaws}.
Context {L : Z} {N : gmap (Z * Z) Z} {ids : gmap Z Z} {s0 : idr_state}.
Context (Htop : top (the_idr s0) = default NULL (N !! (L - 1, 0))).

(** The layers on top of the old top layer go back to the list. *)
Lemma tear_down_spec fuel n N' F p s h : tree_ok L N ids (full ids) None h → 1 ≤ L →
  core n N' [] F ids (full ids) None s → frame s0 s → N' !! (n - 1, 0) = Some p → grown L N n N' → (6 < fuel)%nat →
  wp (tear_down fuel p) (λ _ s', (∃ F', core L N [] F' ids (full ids) None s') ∧ frame s0 s') s.
Proof using Htop.
  intros T0 HL C Hfr Hp Hg Hfuel. pose proof (t_L _ _ _ _ _ _ (c_tree _ _ _ _ _ _ _ _ C)) as Hn.
  apply (wp_loop _ (λ k '(p, new) s, new = p ∧ ∃ n N' F, k = Z.to_nat (n - L) ∧ core n N' [] F ids (full ids) None s ∧
    frame s0 s ∧ N' !! (n - 1, 0) = Some p ∧ grown L N n N')) with (n := Z.to_nat (n - L)); [| |destruct Hg; lia].
  2: { split; [done|]. by exists n, N', F. }
  clear n N' F p s C Hfr Hp Hg Hn. intros k [p new] s (-> & n & N' & F & -> & C & Hfr & Hp & Hg).
  pose proof (c_tree _ _ _ _ _ _ _ _ C) as T. pose proof Hg as (HnL & Hold & Hnew).
  apply wp_bind, wp_get_idr. pose proof Hfr as (Ht & _). rewrite Ht, Htop.
  destruct (t_top _ _ _ _ _ _ T0) as [t Ht0]; [lia|]. rewrite Ht0. simpl.
  pose proof (tree_nonnull T _ _ _ (p_null _ _ _ (c_parts _ _ _ _ _ _ _ _ C)) Hp) as Hpn.
  destruct (Z.eqb_spec p NULL) as [|_]; [done|]. simpl.
  destruct (decide (n = L)) as [->|Hne].
  - destruct (Z.eqb_spec p t) as [_|Hpt].
    + apply wp_ret. split; [|done]. exists F. by rewrite <- (grown_eq T0 T Hg).
    + rewrite Hold in Hp by lia. congruence.
  - destruct (Z.eqb_spec p t) as [->|_].
    { rewrite <- Hold in Ht0 by lia. pose proof (t_inj _ _ _ _ _ _ T _ _ _ Hp Ht0) as [=]. lia. }
    simpl. destruct (tree_layer T _ _ _ Hp) as (x & Hx & Hok).
    assert (is_Some (N' !! (n - 1 - 1, 0))) as [p' Hp'].
    { destruct (decide (n - 1 = L)) as [E|]; [rewrite E, Hold by lia; by eexists|].
      pose proof (tree_above T (L - 1) 0 (n - 1 - 1)) as Hab. rewrite Z.div_0_l in Hab.
      - apply Hab; [|lia]. rewrite Hold by lia. by eexists.
      - pose proof (w_pos (n - 1 - 1 - (L - 1))). lia. }
    assert (∀ q, is_Some (N' !! (n - 1 - 1, q)) → q = 0) as Hq0.
    { intros q Hs. destruct (decide (n - 1 = L)) as [E|]; [|apply (Hnew (n - 1 - 1)); [lia|done]].
      rewrite E, Hold in Hs by lia. by apply (top_q0 q T0). }
    assert (slot N' ids (n - 1) 0 = Some p') as Hs0 by (unfold slot; by destruct (Z.eqb_spec (n - 1) 0); [lia|]).
    pose proof (lk_slot _ _ _ 0 _ Hok) as Ha0. rewrite Hs0 in Ha0. simpl in Ha0.
    pose proof (ary_one _ _ _ _ _ Hok) as Hary. change (64 * 0) with 0 in Hary. rewrite Hs0 in Hary. simpl in Hary.
    apply wp_bind, (wp_get_ary Hx 0 p'); [lia|done|]. apply wp_bind, (wp_set_ary Hx).
    { rewrite (lk_length _ _ _ _ _ Hok). lia. }
    apply wp_bind, (wp_set_count (upd_layer_eq _ _ _)). rewrite upd_layer_upd. simpl.
    apply wp_bind, (wp_set_bitmap (upd_layer_eq _ _ _)). rewrite upd_layer_upd. simpl.
    rewrite Hary.
    2: { intros k Hk Hk0. unfold slot. destruct (Z.eqb_spec (n - 1) 0); [lia|]. apply eq_None_not_Some. intros Hs. by apply Hk0, Hq0. }
    replace n with (n - 1 + 1) in C by lia.
    pose proof (core_drop (v := NULL) C ltac:(lia) Hp (mk_is_Some _ _ Hp') Hq0) as C'.
    apply wp_bind. eapply wp_free_layer; [exact C'|apply upd_layer_eq|]. intros s' C'' Hfr'.
    apply wp_ret. exists (Z.to_nat (n - 1 - L)). split; [lia|]. split; [done|]. exists (n - 1), (delete (n - 1, 0) N'), (p :: F).
    split_and!; try done; [by etrans|by rewrite lookup_delete_ne by (intros [=]; lia)|].
    split; [lia|]. split.
    + intros l q Hlt. rewrite lookup_delete_ne by (intros [=]; lia). by apply Hold.
    + intros l q Hle [c [_ Hc]%lookup_delete_Some]. apply (Hnew l); [done|by eexists].
Qed.

(** [p] can be put under a new top layer, or it is empty and becomes one. *)
Lemma core_grow {n N' a F p s} b : core n N' [a] F ids (full ids) None s → layer_at s !! a = Some idr_cache_ctor → 1 ≤ n ≤ 5 →
  N' !! (n - 1, 0) = Some p → (b = true ↔ full ids n 0) →
  core (n + 1) (<[(n, 0) := a]> N') [] F ids (full ids) None (upd_layer s a (top_layer b p)).
Proof.
  intros C Ha Hn Hp Hb. pose proof (c_tree _ _ _ _ _ _ _ _ C) as T.
  destruct (parts_limbo _ _ _ _ (c_parts _ _ _ _ _ _ _ _ C)) as [HaN HaF].
  eapply core_upd_tree; [exact C|by apply tree_grow| |done].
  apply parts_upd; [|by eexists]. apply parts_insert; [apply C|]. apply eq_None_not_Some. intros Hs.
  destruct (t_key _ _ _ _ _ _ T _ _ Hs). lia.
Qed.
Lemma core_relabel {n n' N' F p s x} : core n N' [] F ids (full ids) None s → N' !! (n - 1, 0) = Some p →
  layer_at s !! p = Some x → count x = 0 → 1 ≤ n' ≤ 6 →
  ids = ∅ ∧ core n' {[(n' - 1, 0) := p]} [] F ids (full ids) None s.
Proof.
  intros C Hp Hx Hc Hn. pose proof (c_tree _ _ _ _ _ _ _ _ C) as T.
  destruct (tree_empty_top T Hp Hx Hc) as (-> & Eids & Hok). split; [done|]. rewrite Eids in *. destruct C as [? ? ? HP ? ? ?]. split; try done.
  - by apply (tree_single n' p x).
  - assert (∀ (k : Z * Z) (b : Z), ({[(n' - 1, 0) := p]} : gmap (Z * Z) Z) !! k = Some b → ({[(n - 1, 0) := p]} : gmap (Z * Z) Z) !! (n - 1, 0) = Some b) as E1.
    { intros k b [_ <-]%lookup_singleton_Some. apply lookup_singleton_eq. }
    destruct HP as [Hnd Hsep Hdom Hnull]. split; try done.
    + intros k b Hk. by apply (Hsep (n - 1, 0)), (E1 k).
    + intros b. rewrite Hdom. split; (intros [?|[k Hk]]; [by left|right]).
      * apply lookup_singleton_Some in Hk as [_ <-]. exists (n' - 1, 0). apply lookup_singleton_eq.
      * exists (n - 1, 0). by apply (E1 k).
Qed.
End growth.

Section build_up.
Context `{KernelLaws}.
Context {L : Z} {N : gmap (Z * Z) Z} {ids : gmap Z Z} {s0 : idr_state} {F0 : list Z} {id : Z}.
Context (Htop : top (the_idr s0) = default NULL (N !! (L - 1, 0))).
Context (T0 : 1 ≤ L → ∃ h, tree_ok L N ids (full ids) None h).

(** A tree of [n] levels below [p]: the old one with new top layers, or empty. *)
Definition building (n : Z) (N' : gmap (Z * Z) Z) (F : list Z) (p : Z) (s : idr_state) : Prop :=
  core n N' [] F ids (full ids) None s ∧ frame s0 s ∧ 1 ≤ n ∧ L ≤ n ∧ N' !! (n - 1, 0) = Some p ∧
  (n ≤ 5 ∨ w 5 ≤ id) ∧ Z.of_nat (length F0) ≤ Z.of_nat (length F) + (n - L) ∧
  (1 ≤ L ∧ grown L N n N' ∨ ∃ x, layer_at s !! p = Some x ∧ count x = 0).

Definition build_up_post (r : option (Z * Z)) (s : idr_state) : Prop :=
  match r with
  | None => (∃ F', core L N [] F' ids (full ids) None s) ∧ frame s0 s ∧ Z.of_nat (length F0) ≤ 5 - L
  | Some (p, n) => ∃ N' F, building n N' F p s ∧ (id < w n ∨ n = 6)
  end.

Lemma build_up_step n N' F p s fuel : building n N' F p s → n < 6 → w n ≤ id → (6 < fuel)%nat →
  wp (let nlayers := n + 1 in
      c ← get_count p;
      if c =? 0 then mret (inl (p, nlayers))
      else
        new ← alloc_layer;
        if new =? NULL then tear_down fuel p;; mret (inr None)
        else
          set_ary new 0 p;;
          set_count new 1;;
          b ← get_bitmap p;
          (if b =? IDR_FULL then nb ← get_bitmap new; set_bitmap new (__set_bit 0 nb) else mret tt);;
          mret (inl (new, nlayers)))
    (λ r s', match r with
             | inl (p', n') => n' = n + 1 ∧ ∃ N'' F', building n' N'' F' p' s'
             | inr r => build_up_post r s'
             end) s.
Proof using All.
  intros (C & Hfr & Hn1 & HLn & Hp & Hn5 & HF & Hcase) Hn6 Hid Hfuel. cbv zeta. pose proof (c_tree _ _ _ _ _ _ _ _ C) as T.
  destruct (tree_layer T _ _ _ Hp) as (x & Hx & Hok). apply wp_bind, (wp_get_count Hx).
  assert (n + 1 ≤ 5 ∨ w 5 ≤ id) as Hn5'.
  { destruct (decide (n = 5)) as [->|]; [by right|]. left. lia. }
  destruct (Z.eqb_spec (count x) 0) as [Ec|Ec].
  - apply wp_ret. split; [done|]. destruct (core_relabel (n' := n + 1) C Hp Hx Ec ltac:(lia)) as [_ C'].
    exists {[(n + 1 - 1, 0) := p]}, F. split_and!; try (done || lia).
    + apply lookup_singleton_eq.
    + right. by exists x.
  - destruct Hcase as [[HL Hg]|(y & Hy & Ey)]; [|congruence].
    apply wp_bind. apply (wp_alloc_layer F s _ C).
    + intros ->. destruct (T0 HL) as [h Ht0]. apply wp_bind.
      eapply wp_mono; [apply (tear_down_spec (ids := ids) Htop fuel n N' [] p s h); try done|].
      intros _ s' [Hc Hfr']. apply wp_ret. split_and!; try done. simpl in *.
      lia.
    + intros a F' s' -> Ha C' Hctor Hfr'. destruct (Z.eqb_spec a NULL) as [|_]; [done|].
      pose proof (c_tree _ _ _ _ _ _ _ _ C') as T'. destruct (tree_layer T' _ _ _ Hp) as (y & Hy & Hoky).
      destruct (parts_limbo _ _ _ _ (c_parts _ _ _ _ _ _ _ _ C')) as [HaN _].
      assert (a ≠ p) as Hap by (intros ->; by apply (HaN _ Hp)).
      apply wp_bind, (wp_set_ary Hctor); [simpl; lia|]. apply wp_bind, (wp_set_count (upd_layer_eq _ _ _)).
      rewrite upd_layer_upd. set (s1 := upd_layer s' a _).
      assert (layer_at s1 !! p = Some y) as Hy1 by (unfold s1; simpl; by rewrite lookup_insert_ne).
      apply wp_bind, (wp_get_bitmap Hy1), wp_bind.
      pose proof (lk_full _ _ _ _ _ Hoky) as Hfull. rewrite <- full_parts in Hfull by lia. replace (n - 1 + 1) with n in Hfull by lia.
      set (b := bool_decide (bitmap y = IDR_FULL)).
      assert (b = true ↔ full ids n 0) as Hb by (unfold b; by rewrite bool_decide_eq_true).
      assert (∀ Q : () → idr_state → Prop, Q tt (upd_layer s' a (top_layer b p)) →
        wp (if bitmap y =? IDR_FULL then nb ← get_bitmap a; set_bitmap a (__set_bit 0 nb) else mret tt) Q s1) as Hset.
      { intros Q HQ. destruct (Z.eqb_spec (bitmap y) IDR_FULL) as [E|E].
        - apply wp_bind, (wp_get_bitmap (upd_layer_eq _ _ _)), (wp_set_bitmap (upd_layer_eq _ _ _)).
          rewrite set_bit_spec by done. unfold s1. rewrite upd_layer_upd. unfold b in HQ. by rewrite bool_decide_eq_true_2 in HQ.
        - apply wp_ret. unfold b in HQ. by rewrite bool_decide_eq_false_2 in HQ. }
      apply Hset, wp_ret. split; [done|]. exists (<[(n, 0) := a]> N'), F'. simpl in HF. destruct Hg as (? & Hold & Hnew).
      split_and!; try (done || lia).
      * apply core_grow; try done. lia.
      * by etrans.
      * replace (n + 1 - 1) with n by lia. apply lookup_insert_eq.
      * left. split; [done|]. split; [lia|]. split.
        -- intros l q Hl. rewrite lookup_insert_ne by (intros [=]; lia). by apply Hold.
        -- intros l q Hl [[= _ <-]|[_ Hs]]%lookup_insert_is_Some; [done|by apply (Hnew l)].
Qed.

Lemma build_up_spec fuel n N' F p s : building n N' F p s → (6 < fuel)%nat →
  wp (build_up fuel id p n) build_up_post s.
Proof using All.
  intros Hb Hfuel. pose proof Hb as (C & _ & Hn & _). pose proof (t_L _ _ _ _ _ _ (c_tree _ _ _ _ _ _ _ _ C)).
  apply (wp_loop _ (λ k '(p, n) s, k = Z.to_nat (6 - n) ∧ ∃ N' F, building n N' F p s)) with (n := Z.to_nat (6 - n)); [| |lia].
  2: { split; [done|]. by exists N', F. }
  clear n N' F p s Hb C Hn H1. intros k [p n] s (-> & N' & F & Hb).
  pose proof Hb as (C & _ & Hn & _). pose proof (t_L _ _ _ _ _ _ (c_tree _ _ _ _ _ _ _ _ C)).
  change MAX_LEVEL with 6. destruct (Z.ltb_spec n 6).
  - apply wp_bind. rewrite Z.mul_comm. apply wp_one_shl; [lia|]. destruct (Z.leb_spec (w n) id).
    + eapply wp_mono; [by apply (build_up_step n N' F)|]. intros [[p' n']|r] s'; [|done].
      intros (-> & N'' & F' & Hb'). exists (Z.to_nat (6 - (n + 1))). split; [lia|]. split; [done|]. by exists N'', F'.
    + apply wp_ret. exists N', F. split; [done|]. by left.
  - apply wp_ret. exists N', F. split; [done|]. right. lia.
Qed.
End build_up.

Section get_new.
Context `{KernelLaws}.
Context {ids : gmap Z Z}.

Lemma core_upd_idr L N F ids' B D s f : core L N [] F ids' B D s →
  (∀ i, id_free (f i) = id_free i ∧ id_free_cnt (f i) = id_free_cnt i ∧ idr_lock (f i) = idr_lock i) →
  core L N [] F ids' B D (upd_idr f s).
Proof.
  intros C Hf. destruct (Hf (the_idr s)) as (E1 & E2 & E3). destruct C. split; try done; simpl; congruence.
Qed.

Lemma tree_nil {N h} : tree_ok 0 N ids (full ids) None h → N = ∅ ∧ ids = ∅.
Proof.
  intros T. assert (∀ k, ¬ is_Some (N !! k)) as HN.
  { intros [l q] Hs. destruct (t_key _ _ _ _ _ _ T _ _ Hs). lia. }
  split; apply map_eq; intros k; rewrite lookup_empty; apply eq_None_not_Some; [apply HN|].
  intros Hs. destruct (t_ids _ _ _ _ _ _ T k Hs) as [_ Hn]. by apply HN in Hn.
Qed.
Lemma core_first {N a F s} : core 0 N [a] F ids (full ids) None s → layer_at s !! a = Some idr_cache_ctor →
  core 1 {[(0, 0) := a]} [] F ids (full ids) None s.
Proof.
  intros C Ha. destruct (tree_nil (c_tree _ _ _ _ _ _ _ _ C)) as [-> Ei]. rewrite Ei in *. destruct C as [? ? ? HP ? ? ?].
  split; try done.
  - apply (tree_single 1 a idr_cache_ctor); [lia|done|]. by apply layer_empty; split; [|intros []].
  - apply (parts_insert ∅ F); [exact HP|apply lookup_empty].
Qed.

Definition grow_to_post (L : Z) (N : gmap (Z * Z) Z) (F0 : list Z) (id : Z) (s0 : idr_state) (r : option (Z * Z)) (s : idr_state) : Prop :=
  match r with
  | None => (∃ F', core L N [] F' ids (full ids) None s) ∧ frame s0 s ∧ Z.of_nat (length F0) ≤ 5
  | Some (p, n) => ∃ N' F, core n N' [] F ids (full ids) None s ∧ frame s0 s ∧ 1 ≤ n ∧ L ≤ n ∧ N' !! (n - 1, 0) = Some p ∧
      (n ≤ 5 ∨ w 5 ≤ id) ∧ Z.of_nat (length F0) ≤ Z.of_nat (length F) + (n - L) ∧ (id < w n ∨ n = 6)
  end.

Lemma grow_to_spec fuel id L N F s : holds L N F ids s → L ≤ 5 → (6 < fuel)%nat →
  wp (grow_to fuel id) (grow_to_post L N F id s) s.
Proof using All.
  intros (C & HLs & Hts) HL5 Hfuel. pose proof (c_tree _ _ _ _ _ _ _ _ C) as T. pose proof (t_L _ _ _ _ _ _ T).
  assert (∀ p n N' F' s', building (L := L) (N := N) (ids := ids) (s0 := s) (F0 := F) (id := id) n N' F' p s' →
    wp (build_up fuel id p n) (grow_to_post L N F id s) s') as Hgo.
  { intros p n N' F' s' Hb. eapply wp_mono; [apply (build_up_spec (ids := ids) (F0 := F) Hts) with (N' := N') (F := F'); [by exists (layer_at s)|done|done]|].
    intros [[p' n']|] s'' Hr; simpl in *.
    - destruct Hr as (N'' & F'' & (? & ? & ? & ? & ? & ? & ? & _) & ?). by exists N'', F''.
    - destruct Hr as (? & ? & ?). split_and!; try done. lia. }
  unfold grow_to. apply wp_bind, wp_get_idr, wp_bind, wp_get_idr, wp_bind. rewrite HLs, Hts.
  destruct (decide (L = 0)) as [->|HL0].
  - destruct (tree_nil T) as [EN _]. assert (default NULL (N !! (0 - 1, 0)) = NULL) as -> by by rewrite EN.
    simpl. apply wp_bind. apply (wp_alloc_layer F s _ C).
    + intros ->. apply wp_ret. simpl. apply wp_ret. split_and!; [by exists []|done|simpl; lia].
    + intros a F' s' -> Ha C' Hctor Hfr. apply wp_ret. simpl. destruct (Z.eqb_spec a NULL) as [|_]; [done|].
      apply (Hgo a 1 {[(0, 0) := a]} F'). split_and!; try (done || lia).
      * by apply (core_first C').
      * simpl. lia.
      * right. by exists idr_cache_ctor.
  - destruct (t_top _ _ _ _ _ _ T) as [p Hp]; [lia|]. rewrite Hp. simpl.
    pose proof (tree_nonnull T _ _ _ (p_null _ _ _ (c_parts _ _ _ _ _ _ _ _ C)) Hp) as Hpn.
    destruct (Z.eqb_spec p NULL) as [|_]; [done|]. apply wp_ret. simpl. destruct (Z.eqb_spec p NULL) as [|_]; [done|].
    apply (Hgo p L N F). split_and!; try (done || lia). left. split; [lia|]. split; [lia|]. split; [done|].
    intros l q Hl Hs. destruct (t_key _ _ _ _ _ _ T _ _ Hs). lia.
Qed.

(** What an allocation does: [r] is the first free id from the start on. *)
Definition get_new_post (ptr r : Z) (s : idr_state) (v : Z) (s' : idr_state) : Prop :=
  warned s' = warned s ∧
  (v = r ∧ idr_ok (<[r := ptr]> ids) s' ∨ v = -1 ∧ idr_ok ids s' ∧ id_free_cnt (the_idr s) < IDR_FREE_MAX).

Definition get_new_inv (s0 : idr_state) (start r : Z) (k : nat) (id : Z) (s : idr_state) : Prop :=
  ∃ L N F, holds L N F ids s ∧ L ≤ 5 ∧ warned s = warned s0 ∧ start ≤ id ≤ r ∧ carry_free ids id ∧
    id_free_cnt (the_idr s0) ≤ Z.of_nat (length F) + L ∧ (k = 1%nat ∨ k = 0%nat ∧ id = w L).

Lemma none_free_le a b r : none_free ids a b → a ≤ r → ids !! r = None → b ≤ r.
Proof. intros Hnf Ha Hr. apply Z.nlt_ge. intros Hb. destruct (Hnf r ltac:(lia)) as [? Hs]. congruence. Qed.
Lemma next_not_in {L N h} : tree_ok L N ids (full ids) None h → ids !! w L = None.
Proof. intros T. apply eq_None_not_Some. intros Hs. apply (ids_range T) in Hs. lia. Qed.

Lemma get_new_step fuel ptr s0 start r k id s : get_new_inv s0 start r k id s → 0 ≤ start →
  none_free ids start r → ids !! r = None → r < 2 ^ 30 → (24 < fuel)%nat →
  wp (g ← grow_to fuel id;
      match g with
      | None => mret (inr (-1))
      | Some (p, nlayers) =>
          set_idr (set_top p);;
          set_idr (set_nlayers nlayers);;
          vi ← sub_alloc fuel ptr id;
          if (fst vi : Z) =? -2 then mret (inl (snd vi)) else mret (inr (fst vi))
      end)
    (λ v s', match v with
             | inl id' => ∃ k', (k' < k)%nat ∧ get_new_inv s0 start r k' id' s'
             | inr v => get_new_post ptr r s0 v s'
             end) s.
Proof using All.
  intros (L & N & F & Hh & HL & Hw & Hid & Hcf & Hcnt & Hk) Hst Hnf Hr Hr30 Hfuel. change (2 ^ 30) with (w 5) in Hr30.
  apply wp_bind. eapply wp_mono; [apply (grow_to_spec fuel id L N F s); try done; lia|].
  intros [[p n]|] s1; simpl.
  2: { intros ([F' C'] & (Ht & Hl & Hw1) & HF). apply wp_ret. split; [congruence|]. right. split; [done|].
       split; [|change IDR_FREE_MAX with 12; lia]. exists L, N, F'. split; [|done]. split; [done|]. rewrite Ht, Hl. apply Hh. }
  intros (N1 & F1 & C1 & (_ & _ & Hw1) & Hn1 & HLn & Hp & Hn5 & HF & Hn).
  assert (n ≤ 5 ∧ id < w n) as [Hn5' Hidn] by lia.
  apply wp_bind, wp_set_idr, wp_bind, wp_set_idr, wp_bind.
  set (s2 := upd_idr (set_nlayers n) (upd_idr (set_top p) s1)).
  assert (core n N1 [] F1 ids (full ids) None s2) as C2 by (by apply core_upd_idr; [apply core_upd_idr|]).
  eapply wp_mono; [apply (sub_alloc_spec (ids := ids) fuel ptr id n p N1 F1 s2 C2); try (done || lia); apply Z.div_small; lia|].
  intros [v id'] s3 (N3 & F3 & (Ht3 & Hl3 & Hw3) & Hp3 & Hcases). simpl in *.
  assert (∀ ids', core n N3 [] F3 ids' (full ids') None s3 → holds n N3 F3 ids' s3) as Hholds.
  { intros ids' C3. split; [done|]. rewrite Ht3, Hl3, Hp3. done. }
  destruct Hcases as [[[[-> HF1]|(-> & -> & Hnf' & ->)] C3]|[(Hge & Hnf' & Hv & HF3) C3]]; simpl.
  - apply wp_ret. split; [congruence|]. right. split; [done|]. split; [|change IDR_FREE_MAX with 12; lia].
    exists n, N3, F3. auto.
  - assert (w n ≤ r) as Hwr by (apply (none_free_le id); [done|lia|done]).
    apply wp_ret. exists 0%nat. destruct Hk as [->|[-> ->]].
    + split; [lia|]. exists n, N3, F1. split_and!; try (done || lia); [by apply Hholds|congruence|].
      intros l Hl _. right. exists (w n). split_and!; try done. exact (next_not_in (c_tree _ _ _ _ _ _ _ _ C3)).
    + destruct Hh as (C & _). pose proof (none_free_le (w L) (w n) (w L) Hnf' ltac:(lia) (next_not_in (c_tree _ _ _ _ _ _ _ _ C))). lia.
  - destruct (Z.eqb_spec v (-2)) as [|_]; [lia|]. apply wp_ret. split; [congruence|]. left.
    assert (v = r) as ->; [|split; [done|]; exists n, N3, F3; auto].
    pose proof (none_free_le id v r Hnf' ltac:(lia) Hr).
    pose proof (none_free_le start r v Hnf ltac:(lia) Hv). lia.
Qed.

Lemma get_new_int_spec fuel ptr start r s : idr_ok ids s → 0 ≤ start ≤ r → carry_free ids start →
  none_free ids start r → ids !! r = None → r < 2 ^ 30 → (24 < fuel)%nat →
  wp (idr_get_new_above_int fuel ptr start) (get_new_post ptr r s) s.
Proof using All.
  intros (L & N & F & Hh & HL) Hst Hcf Hnf Hr Hr30 Hfuel.
  apply (wp_loop _ (get_new_inv s start r)) with (n := 1%nat); [| |lia].
  - intros k id s' Hinv. apply (get_new_step fuel ptr s start r k id s' Hinv); (done || lia).
  - exists L, N, F. pose proof Hh as (C & _). split_and!; try (done || lia).
    rewrite (c_cnt _ _ _ _ _ _ _ _ C). pose proof (t_L _ _ _ _ _ _ (c_tree _ _ _ _ _ _ _ _ C)). lia.
Qed.
End get_new.
