(* ===== verification/IdrMap.v ===== *)
(** * The interface of src/datastruct/idr.c

    Lookup, reservation and removal, and the theorems on the exported functions:
    they implement a finite map from ids to pointers, within the limits that
    the last theorems show. *)
From stdpp Require Import base tactics list numbers gmap fin_maps sets fin_sets.
From S2P Require Import Prelude Lists Idr IdrAlloc.
Local Open Scope Z_scope.

(** ** Lookup and reservation *)

Section find.
Context `{KernelLaws}.
Context {ids : gmap Z Z}.

Lemma mask_id id : Z.land id MAX_ID_MASK = id mod 2 ^ 31.
Proof. change MAX_ID_MASK with (2 ^ 31 - 1). by apply land_pow2_mask. Qed.

Lemma find_loop fuel L N F id s : core L N [] F ids (full ids) None s → 1 ≤ L → 0 ≤ id → id / w L = 0 → (6 < fuel)%nat →
  wp (loop fuel (λ '(n, p),
        if (0 <? n) && negb (p =? NULL) then
          let n := n - IDR_BITS in
          c ← get_ary p (Z.land (Z.shiftr id n) IDR_MASK);
          mret (inl (n, c))
        else mret (inr p)) (6 * L, default NULL (N !! (L - 1, 0))))
    (λ p s', s' = s ∧ p = default NULL (ids !! id)) s.
Proof using All.
  intros C HL Hid HidL Hfuel. pose proof (c_tree _ _ _ _ _ _ _ _ C) as T. pose proof (t_L _ _ _ _ _ _ T) as HL6.
  apply (wp_loop _ (λ k '(n, p) s', s' = s ∧ ∃ l, k = Z.to_nat l ∧ n = 6 * l ∧ 0 ≤ l ≤ L ∧ p = default NULL (slot N ids l (id / w l))))
    with (n := Z.to_nat L); [| |lia].
  - intros k [n p] s' (-> & l & -> & -> & Hl & ->). destruct (decide (l = 0)) as [->|Hl0].
    + apply wp_ret. split; [done|]. unfold slot. simpl. by rewrite div_w0.
    + destruct (Z.ltb_spec 0 (6 * l)); [|lia]. unfold slot at 1. destruct (Z.eqb_spec l 0); [lia|].
      destruct (N !! (l - 1, id / w l)) as [q|] eqn:Hq; simpl.
      * pose proof (tree_nonnull T _ _ _ (p_null _ _ _ (c_parts _ _ _ _ _ _ _ _ C)) Hq) as Hqn.
        unfold slot. destruct (Z.eqb_spec l 0); [lia|]. rewrite Hq. simpl.
        destruct (Z.eqb_spec q NULL) as [|_]; [done|]. simpl. apply wp_bind.
        destruct (tree_layer T _ _ _ Hq) as (x & Hx & Hok).
        replace (6 * l - IDR_BITS) with (IDR_BITS * (l - 1)) by (unfold IDR_BITS; lia).
        change (Z.land (Z.shiftr id (IDR_BITS * (l - 1))) IDR_MASK) with (digit id (l - 1)). rewrite digit_eq by lia.
        replace (id / w l) with (id / w (l - 1) / 64) in Hok by (rewrite <- div_up by lia; f_equal; f_equal; lia).
        eapply (wp_get_ary Hx); [apply mod64|by apply (lk_slot _ _ _ _ _ Hok)|].
        apply wp_ret. exists (Z.to_nat (l - 1)). split; [lia|]. split; [done|]. exists (l - 1). unfold IDR_BITS. split_and!; (done || lia).
      * assert (slot N ids l (id / w l) = None) as Hs by (unfold slot; by destruct (Z.eqb_spec l 0)). rewrite Hs. simpl.
        apply wp_ret. split; [done|]. destruct (decide (l = L)) as [->|].
        -- rewrite HidL in Hq. pose proof (t_top _ _ _ _ _ _ T ltac:(lia)) as [? ?]. congruence.
        -- by rewrite (slot_None_ids T l _ id Hs) by (done || lia).
  - split; [done|]. exists L. split_and!; try (done || lia). rewrite HidL. unfold slot. by destruct (Z.eqb_spec L 0); [lia|].
Qed.

(** C35: [idr_find] returns the pointer of an id that is allocated, and NULL for
    every other id, whatever its size; the handle does not change.  Of a
    negative id the low 31 bits count. *)
Theorem idr_find_spec fuel id s : idr_ok ids s → (6 < fuel)%nat →
  idr_find fuel id s = Ret (default NULL (ids !! (id mod 2 ^ 31)), s).
Proof using All.
  intros (L & N & F & (C & HLs & Hts) & HL5) Hfuel. pose proof (c_tree _ _ _ _ _ _ _ _ C) as T.
  pose proof (t_L _ _ _ _ _ _ T) as HL. set (i := id mod 2 ^ 31).
  assert (0 ≤ i) as Hi by (by apply Z.mod_pos_bound).
  assert (wp (idr_find fuel id) (λ p s', s' = s ∧ p = default NULL (ids !! i)) s) as (p & s' & E & -> & ->)%wp_run; [|exact E].
  unfold idr_find. apply wp_bind, wp_get_idr, wp_bind, wp_get_idr. rewrite mask_id, HLs, Hts. fold i.
  unfold IDR_BITS at 1 2. rewrite !(Z.mul_comm L). apply wp_bind, wp_one_shl; [lia|]. destruct (Z.leb_spec (w L) i).
  - apply wp_ret. split; [done|]. destruct (ids !! i) eqn:E; [|done].
    pose proof (ids_range T i (mk_is_Some _ _ E)). lia.
  - destruct (decide (L = 0)) as [->|].
    + destruct (tree_nil T) as [-> Ei]. rewrite Ei. destruct fuel; [lia|]. by apply wp_ret.
    + apply (find_loop fuel L N F); try (done || lia). apply Z.div_small. lia.
Qed.

Lemma wp_kmem_cache_alloc L N F gfp s Q : core L N [] F ids (full ids) None s →
  Q NULL s →
  (∀ a s', a ≠ NULL → core L N [a] F ids (full ids) None s' → layer_at s' !! a = Some idr_cache_ctor → frame s s' → Q a s') →
  wp (kmem_cache_alloc gfp) Q s.
Proof using All.
  intros [HT HS HC HP Hlock Hcache Hslab] HQ0 HQ. apply wp_bind, wp_gets. rewrite Hcache. apply wp_bind, wp_gets.
  pose proof (kmem_pick_spec (layer_at s) gfp) as Hfresh. set (a := kmem_pick (layer_at s) gfp) in *.
  destruct (Z.eqb_spec a NULL) as [->|Ha]; [by apply wp_ret|]. specialize (Hfresh Ha).
  assert (default idr_cache_ctor (slab s !! a) = idr_cache_ctor) as E by (destruct (slab s !! a) eqn:Es; [by apply (Hslab a)|done]).
  apply wp_bind, wp_modify, wp_ret. destruct HP as [Hnd Hsep Hdom Hnull].
  assert (∀ k, N !! k ≠ Some a) as HaN.
  { intros k Hk. assert (is_Some (layer_at s !! a)) as [? ?]; [|congruence]. apply Hdom. right. by exists k. }
  assert (a ∉ F) as HaF.
  { intros Hin. assert (is_Some (layer_at s !! a)) as [? ?]; [|congruence]. apply Hdom. by left. }
  apply HQ; [done| |simpl; rewrite E; apply lookup_insert_eq|done]. split; simpl; try done.
  - by apply tree_other.
  - by apply spare_other.
  - split.
    + by apply NoDup_cons.
    + intros k b Hk. rewrite elem_of_cons. intros [->|Hin]; [by apply (HaN k)|by apply (Hsep k b)].
    + intros b. rewrite lookup_insert_is_Some', elem_of_cons, Hdom. simpl. naive_solver.
    + by rewrite lookup_insert_ne.
  - intros b x [_ Hb]%lookup_delete_Some. by apply (Hslab b).
Qed.

(** [idr_pre_get] fills the list of spare layers up to IDR_FREE_MAX, or
    returns 0 when there is no memory; it leaves the ids alone either way. *)
Lemma idr_pre_get_spec fuel gfp s : idr_ok ids s → (12 < fuel)%nat →
  wp (idr_pre_get fuel gfp) (λ rc s', idr_ok ids s' ∧ frame s s' ∧
    (rc = 1 ∧ IDR_FREE_MAX ≤ id_free_cnt (the_idr s') ∨ rc = 0 ∧ id_free_cnt (the_idr s') < IDR_FREE_MAX)) s.
Proof using All.
  intros (L & N & F & (C & HLs & Hts) & HL5) Hfuel. change IDR_FREE_MAX with 12.
  assert (∀ F' s', core L N [] F' ids (full ids) None s' → frame s s' → idr_ok ids s') as Hok.
  { intros F' s' C' (Ht & Hl & _). exists L, N, F'. split; [|done]. split; [done|]. by rewrite Ht, Hl. }
  apply (wp_loop _ (λ k _ s', ∃ F', core L N [] F' ids (full ids) None s' ∧ frame s s' ∧ k = (12 - length F')%nat))
    with (n := (12 - length F)%nat); [|by exists F|lia].
  clear F C. intros k _ s' (F & C & Hfr & ->). pose proof (c_cnt _ _ _ _ _ _ _ _ C) as Hc.
  apply wp_bind, wp_get_idr. rewrite Hc. change IDR_FREE_MAX with 12. destruct (Z.ltb_spec (Z.of_nat (length F)) 12).
  - apply wp_bind, (wp_kmem_cache_alloc L N F); [done| |].
    + simpl. apply wp_ret. split_and!; [by apply (Hok F)|done|]. right. split; [done|lia].
    + intros a s1 Ha C1 Hctor Hfr1. destruct (Z.eqb_spec a NULL) as [|_]; [done|].
      apply wp_bind. eapply (wp_free_layer F a NULL); [exact C1|done|]. intros s2 C2 Hfr2. apply wp_ret.
      exists (12 - length (a :: F))%nat. simpl. split; [lia|]. exists (a :: F). split_and!; [done|by do 2 (etrans; [done|])|done].
  - apply wp_ret. split_and!; [by apply (Hok F)|done|]. left. split; [done|lia].
Qed.
End find.

(** ** Removal *)

Lemma pend_eq l q : pend (Some (l, q)) l q = 1.
Proof. unfold pend. by rewrite decide_True. Qed.
Lemma pend_ne l q l' q' : (l', q') ≠ (l, q) → pend (Some (l, q)) l' q' = 0.
Proof. intros. unfold pend. rewrite decide_False; congruence. Qed.

(** A layer without slots in use is as the cache constructs it. *)
Lemma layer_is_ctor f (b : Z → Prop) q x : layer_ok f b 0 q x → (∀ k, k / 64 = q → f k = None ∧ ¬ b k) → x = idr_cache_ctor.
Proof.
  intros Hx He. assert (∀ k, k / 64 = q → f k = None) as Hf by (intros; by apply He).
  pose proof (ary_one _ _ _ _ _ Hx) as Ha. rewrite Hf in Ha by (rewrite <- (Z.add_0_r (64 * q)); by apply slot_div).
  pose proof (lk_count _ _ _ _ _ Hx) as Hc. rewrite (proj2 (kids_empty f q) Hf) in Hc.
  assert (bitmap x = 0) as Hb.
  { apply Z.bits_inj'. intros i Hi. rewrite Z.testbit_0_l. destruct (decide (i < 64)).
    - apply not_true_iff_false. intros E. apply (lk_bit _ _ _ _ _ Hx) in E; [|lia].
      by destruct (He (64 * q + i) (slot_div q i ltac:(lia))).
    - apply bits64_high; [apply Hx|lia]. }
  destruct x as [bm ar ct]. simpl in *. rewrite Hb, Hc, Ha; [done|]. intros k Hk _. by apply Hf.
Qed.

(** Taking an empty layer out of the tree. *)
Lemma tree_detach {L N ids h l k q p x} : tree_ok L N ids (full ids) None h → 0 ≤ l →
  N !! (l, k) = Some q → N !! (l + 1, k / 64) = Some p → h !! p = Some x → (∀ j, j / 64 = k → slot N ids l j = None) →
  tree_ok L (delete (l, k) N) ids (full ids) (Some (l + 1, k / 64))
    (<[p := Layer (bitmap x) (<[Z.to_nat (k mod 64) := NULL]> (ary x)) (count x)]> h).
Proof.
  intros T Hl Hq Hp Hx Hs. destruct (t_key _ _ _ _ _ _ T _ _ (mk_is_Some _ _ Hp)) as [HlL _]. split; try apply T.
  - intros l' q' b [Hne Hb]%lookup_delete_Some. destruct (tree_layer T _ _ _ Hb) as (y & Hy & Hok).
    destruct (decide ((l', q') = (l + 1, k / 64))) as [[= -> ->]|Hn].
    + assert (b = p) as -> by congruence. rewrite lookup_insert_eq. eexists. split; [done|].
      assert (y = x) as -> by congruence. rewrite pend_eq. apply (layer_clear Hok).
      * unfold slot. destruct (Z.eqb_spec (l + 1) 0); [lia|]. replace (l + 1 - 1) with l by lia. by eexists.
      * by apply slot_delete_eq.
      * intros j Hj. apply slot_delete; [done|]. congruence.
    + exists y. rewrite lookup_insert_ne by (intros ->; apply Hn; by apply (t_inj _ _ _ _ _ _ T _ _ b)).
      split; [done|]. rewrite pend_ne by done. apply (layer_ok_ext (slot N ids l') _ (full ids l')); [|done|done].
      intros j <-. apply slot_delete; [done|]. intros [= -> ->]. done.
  - intros l' q' [b [_ Hb]%lookup_delete_Some]. apply (t_key _ _ _ _ _ _ T). by eexists.
  - intros l' q' [b [Hne Hb]%lookup_delete_Some] Hlt. rewrite lookup_delete_ne; [apply (t_par _ _ _ _ _ _ T); [by eexists|done]|].
    intros [= E1 E2]. specialize (Hs q' (eq_sym E2)). unfold slot in Hs.
    destruct (t_key _ _ _ _ _ _ T _ _ (mk_is_Some _ _ Hb)) as [Hl' _]. destruct (Z.eqb_spec l 0); [lia|].
    replace (l - 1) with l' in Hs by lia. congruence.
  - intros HL. rewrite lookup_delete_ne by (intros [=]; lia). by apply T.
  - intros i Hi. destruct (t_ids _ _ _ _ _ _ T i Hi) as [Hi0 Hn]. split; [done|]. rewrite lookup_delete_ne; [done|].
    intros [= -> E]. specialize (Hs i (eq_sym E)). unfold slot in Hs. simpl in Hs. rewrite Hs in Hi. by destruct Hi.
  - apply injective_delete. exact (t_inj _ _ _ _ _ _ T).
Qed.
Lemma core_detach {L N F ids s l k q p x} : core L N [] F ids (full ids) None s → 0 ≤ l →
  N !! (l, k) = Some q → N !! (l + 1, k / 64) = Some p → layer_at s !! p = Some x → (∀ j, j / 64 = k → slot N ids l j = None) →
  core L (delete (l, k) N) [q] F ids (full ids) (Some (l + 1, k / 64))
    (upd_layer s p (Layer (bitmap x) (<[Z.to_nat (k mod 64) := NULL]> (ary x)) (count x))).
Proof.
  intros C Hl Hq Hp Hx Hs. pose proof (c_tree _ _ _ _ _ _ _ _ C) as T.
  eapply core_upd_tree; [exact C|by apply (tree_detach (q := q))| |].
  - apply parts_upd; [|by eexists]. apply parts_remove; [exact (t_inj _ _ _ _ _ _ T)|apply C|done].
  - apply (p_sep _ _ _ (c_parts _ _ _ _ _ _ _ _ C) _ _ Hp).
Qed.
Lemma core_last {L q F s f} : core L {[(L - 1, 0) := q]} [] F ∅ (full ∅) None s →
  (∀ i, id_free (f i) = id_free i ∧ id_free_cnt (f i) = id_free_cnt i ∧ idr_lock (f i) = idr_lock i) →
  core 0 ∅ [q] F ∅ (full ∅) None (upd_idr f s).
Proof.
  intros [HT HS HC HP Hlock Hcache Hslab] Hf. destruct (Hf (the_idr s)) as (E1 & E2 & E3). split; simpl; try congruence; [| |done].
  - split; [lia|intros ??? [=]|intros ?? [? [=]]|intros ?? [? [=]]|lia|intros ? [? [=]]|intros ??? [=]].
  - apply (parts_remove _ _ _ (L - 1, 0) q) in HP; [by rewrite delete_singleton_eq in HP| |apply lookup_singleton_eq].
    exact (t_inj _ _ _ _ _ _ HT).
Qed.

(** Taking an id out of its leaf. *)
Definition cleared (ids : gmap Z Z) (e lv l k : Z) : Prop := full ids l k ∧ ¬ (lv < l ∧ k = e / w l).

Lemma full_delete ids e l k : full (delete e ids) l k ↔ full ids l k ∧ k ≠ e / w l.
Proof.
  split.
  - intros Hf. split.
    + intros i Hi. destruct (Hf i Hi) as [v [_ Hv]%lookup_delete_Some]. by eexists.
    + intros ->. destruct (Hf e eq_refl) as [v [? _]%lookup_delete_Some]. done.
  - intros [Hf Hn] i Hi. rewrite lookup_delete_ne; [by apply Hf|congruence].
Qed.
Lemma tree_unplant {L N ids h e p x} : tree_ok L N ids (cleared ids e 0) None h → is_Some (ids !! e) →
  N !! (0, e / 64) = Some p → h !! p = Some x →
  tree_ok L N (delete e ids) (full (delete e ids)) (Some (0, e / 64))
    (<[p := Layer (Z.clearbit (bitmap x) (e mod 64)) (<[Z.to_nat (e mod 64) := NULL]> (ary x)) (count x)]> h).
Proof.
  intros T He Hp Hx. split; try apply T.
  - intros l q a Ha. destruct (tree_layer T _ _ _ Ha) as (y & Hy & Hok).
    destruct (t_key _ _ _ _ _ _ T _ _ (mk_is_Some _ _ Ha)) as [Hl _].
    destruct (decide ((l, q) = (0, e / 64))) as [[= -> ->]|Hne].
    + assert (a = p) as -> by congruence. rewrite lookup_insert_eq. eexists. split; [done|].
      assert (y = x) as -> by congruence. rewrite pend_eq.
      pose proof (layer_clear Hok (slot N (delete e ids) 0)) as Hs. rewrite pend_None in Hs.
      specialize (Hs He (lookup_delete_eq _ _) (λ j Hj, lookup_delete_ne _ _ _ (not_eq_sym Hj))). apply (layer_clearbit Hs).
      * rewrite full_delete, div_w0. tauto.
      * intros j Hj _. rewrite full_delete, div_w0. unfold cleared. naive_solver lia.
    + rewrite lookup_insert_ne by (intros ->; apply Hne; by apply (t_inj _ _ _ _ _ _ T _ _ a)).
      exists y. split; [done|]. rewrite pend_ne by done. apply (layer_ok_ext (slot N ids l) _ (cleared ids e 0 l)); [| |done].
      * intros k <-. unfold slot. destruct (Z.eqb_spec l 0) as [->|]; [|done]. apply lookup_delete_ne. congruence.
      * intros k <-. rewrite full_delete. unfold cleared. destruct (decide (l = 0)) as [->|].
        -- rewrite div_w0. split; [intros []; split; [done|lia]|intros [? _]; split; [done|congruence]].
        -- split; (intros [? Hn]; split; [done|]); [tauto|intros ->; apply Hn; split; [lia|done]].
  - intros i [v [_ Hi]%lookup_delete_Some]. apply (t_ids _ _ _ _ _ _ T). by eexists.
Qed.

Section remove.
Context `{KernelLaws}.
Context {L : Z} {N0 : gmap (Z * Z) Z} {ids : gmap Z Z} {e : Z} {s0 : idr_state} {t0 : Z}.
Context (HL : 1 ≤ L ≤ 5) (He : 0 ≤ e) (HeL : e / w L = 0).

(** Where the pointer to the layer of level [l] on the path is stored. *)
Definition cell_at (l : Z) : cell :=
  if l =? L - 1 then CTop else CAry (default NULL (N0 !! (l + 1, e / w (l + 1 + 1)))) ((e / w (l + 1)) mod 64).
Definition cells_ok (l : Z) (pa : larray cell) : Prop :=
  length pa = 6%nat ∧ pa !! 0%nat = Some (Some CNull) ∧
  ∀ m, l ≤ m < L → pa !! Z.to_nat (L - m) = Some (Some (cell_at m)).

Definition path_inv (l : Z) (p k : Z) (pa : larray cell) (F : list Z) (s : idr_state) : Prop :=
  0 ≤ l < L ∧ p = default NULL (N0 !! (l, e / w (l + 1))) ∧ k = L - l ∧ cells_ok l pa ∧
  core L N0 [] F ids (cleared ids e l) None s ∧ frame s0 s.

Lemma remove_path_spec fuel id F pa s : core L N0 [] F ids (full ids) None s → frame s0 s →
  top (the_idr s) = default NULL (N0 !! (L - 1, 0)) → cells_ok (L - 1) pa → (∀ l, 0 ≤ l < L → digit id l = digit e l) →
  (6 < fuel)%nat →
  wp (remove_path fuel ((L - 1) * IDR_BITS) id pa)
    (λ '(p, k, pa) s', ∃ l, path_inv l p k pa F s' ∧ (l = 0 ∨ p = NULL)) s.
Proof.
  intros C Hfr Ht Hpa Hdig Hfuel. unfold remove_path. apply wp_bind, wp_get_idr. rewrite Ht.
  apply (wp_loop _ (λ j '(p, shift, k, pa) s', ∃ l, j = Z.to_nat l ∧ shift = IDR_BITS * l ∧ path_inv l p k pa F s'))
    with (n := Z.to_nat (L - 1)); [| |lia].
  - clear s C Hfr Ht pa Hpa. intros j [[[p shift] k] pa] s (l & -> & -> & Hl & -> & -> & Hcells & C & Hfr).
    pose proof Hcells as (Hlen & Hnull & Hpa).
    pose proof (c_tree _ _ _ _ _ _ _ _ C) as T. unfold IDR_BITS at 1.
    destruct (N0 !! (l, e / w (l + 1))) as [p|] eqn:Hp; simpl.
    2: { rewrite andb_false_r. apply wp_ret. exists l. unfold path_inv. rewrite Hp. split; [split_and!; (done || lia)|by right]. }
    pose proof (tree_nonnull T _ _ _ (p_null _ _ _ (c_parts _ _ _ _ _ _ _ _ C)) Hp) as Hpn.
    destruct (Z.eqb_spec p NULL) as [|_]; [done|]. simpl. rewrite andb_true_r.
    destruct (Z.ltb_spec 0 (6 * l)).
    2: { apply wp_ret. exists l. unfold path_inv. rewrite Hp. split; [split_and!; (done || lia)|]. left. lia. }
    destruct (tree_layer T _ _ _ Hp) as (x & Hx & Hok).
    change (Z.land (Z.shiftr id (IDR_BITS * l)) IDR_MASK) with (digit id l). rewrite Hdig, digit_eq by lia.
    rewrite div_up in Hok by lia. apply wp_bind, (wp_get_bitmap Hx), wp_bind, (wp_set_bitmap Hx).
    rewrite clear_bit_spec by apply mod64. apply wp_bind, wp_larray_set; [lia|].
    apply wp_bind. eapply (wp_get_ary (upd_layer_eq _ _ _)); [apply mod64|simpl; by apply (lk_slot _ _ _ _ _ Hok)|].
    apply wp_ret. exists (Z.to_nat (l - 1)). split; [lia|]. exists (l - 1). split; [done|]. split; [unfold IDR_BITS; lia|].
    replace (l - 1 + 1) with l by lia. unfold path_inv. split_and!; try (done || lia).
    + unfold slot. replace (l - 1 + 1) with l by lia. by destruct (Z.eqb_spec l 0); [lia|].
    + split; [by etrans; [apply length_insert|]|]. split; [etrans; [apply list_lookup_insert_ne; lia|done]|].
      intros m Hm. destruct (decide (m = l - 1)) as [->|].
      * replace (L - (l - 1)) with (L - l + 1) by lia. etrans; [apply list_lookup_insert_eq; lia|].
        unfold cell_at. destruct (Z.eqb_spec (l - 1) (L - 1)); [lia|]. replace (l - 1 + 1) with l by lia. by rewrite Hp.
      * etrans; [apply list_lookup_insert_ne; lia|]. apply Hpa. lia.
    + apply (core_upd s _ None F l (e / w (l + 1)) _ _ C Hp).
      * rewrite div_up by lia. apply (layer_clearbit Hok); unfold cleared.
        -- intros [_ Hn]. apply Hn. split; [lia|done].
        -- intros j Hj _. split; (intros [? Hn]; split; [done|naive_solver lia]).
      * intros l' q' Hne. split; [done|]. intros k' <-. unfold cleared. split; (intros [? Hn]; split; [done|]).
        -- intros [? ->]. apply Hn. split; [lia|done].
        -- intros [Hlt ->]. destruct (decide (l' = l)) as [->|]; [by rewrite <- div_up in Hne by lia|]. apply Hn. split; [lia|done].
  - exists (L - 1). split; [done|]. split; [unfold IDR_BITS; lia|].
    unfold path_inv. replace (L - 1 + 1) with L in * by lia. rewrite HeL. split_and!; try (done || lia).
    destruct C as [CT ? ? ? ? ? ?]. split; try done. apply (tree_bits CT). intros l k Hk. destruct (t_key _ _ _ _ _ _ CT _ _ Hk).
    unfold cleared. split; [by intros []|]. intros ?. split; [done|lia].
Qed.

(** The layers of the path that have become empty go to the list. *)
Definition release_inv (j : nat) (k : Z) (s : idr_state) : Prop :=
  warned s = warned s0 ∧ layers (the_idr s) = L ∧
  ((∃ l N F q, j = Z.to_nat (L - l) ∧ k = L - l ∧ 0 ≤ l < L ∧ core L N [] F ids (full ids) (Some (l, e / w (l + 1))) s ∧
     N !! (l, e / w (l + 1)) = Some q ∧ (∀ m q, l ≤ m → N !! (m, q) = N0 !! (m, q)) ∧ top (the_idr s) = t0) ∨
   (j = 0%nat ∧ k = 0 ∧ ids = ∅ ∧ top (the_idr s) = NULL ∧ ∃ F, core 0 ∅ [] F ids (full ids) None s)).

Definition release_post (k : Z) (s : idr_state) : Prop :=
  warned s = warned s0 ∧ layers (the_idr s) = L ∧
  (0 < k ≤ L ∧ (∃ N F, core L N [] F ids (full ids) None s ∧ N !! (L - 1, 0) = Some t0) ∧ top (the_idr s) = t0 ∨
   k = 0 ∧ top (the_idr s) = NULL ∧ ∃ F, core 0 ∅ [] F ids (full ids) None s).

Lemma count_down {N F s l q x} : core L N [] F ids (full ids) (Some (l, e / w (l + 1))) s → 0 ≤ l →
  N !! (l, e / w (l + 1)) = Some q → layer_at s !! q = Some x →
  core L N [] F ids (full ids) None (upd_layer s q (Layer (bitmap x) (ary x) (count x - 1))).
Proof.
  intros C Hl Hq Hx. destruct (tree_layer (c_tree _ _ _ _ _ _ _ _ C) _ _ _ Hq) as (y & Hy & Hok).
  assert (y = x) as -> by congruence. rewrite pend_eq in Hok.
  apply (core_upd s _ None F l (e / w (l + 1)) q _ C); [done| |].
  - rewrite div_up in * by lia. pose proof (layer_count Hok 0) as Hc. by rewrite Z.add_0_r in Hc.
  - intros l' q' Hne. split; [|done]. by rewrite pend_ne.
Qed.

(** The empty layer [q] is freed and its cell is cleared. *)
Lemma release_one j l N F q s : core L N [] F ids (full ids) None s → 0 ≤ l < L → N !! (l, e / w (l + 1)) = Some q →
  layer_at s !! q = Some idr_cache_ctor → (∀ m q, l ≤ m → N !! (m, q) = N0 !! (m, q)) → top (the_idr s) = t0 →
  warned s = warned s0 → layers (the_idr s) = L →
  (Z.to_nat (L - l - 1) < j)%nat →
  wp (free_layer q;; cell_store (cell_at l) NULL;; mret (inl (L - l - 1) : Z + Z))
    (λ r s', match r with inl k => ∃ j', (j' < j)%nat ∧ release_inv j' k s' | inr k => release_post k s' end) s.
Proof using All.
  intros C Hl Hq Hx HN Ht Hw Hls Hj. pose proof (c_tree _ _ _ _ _ _ _ _ C) as T.
  destruct (tree_layer T _ _ _ Hq) as (y & Hy & Hok). assert (y = idr_cache_ctor) as -> by congruence.
  pose proof (lk_count _ _ _ _ _ Hok) as Hc. rewrite pend_None in Hc. simpl in Hc.
  assert (∀ k, k / 64 = e / w (l + 1) → slot N ids l k = None) as Hnone by (apply kids_empty; lia).
  apply wp_bind. eapply wp_free_raw; [apply C|exact Hx|simpl; lia|]. apply wp_bind. unfold cell_at.
  destruct (Z.eqb_spec l (L - 1)) as [->|HlL].
  - apply wp_set_idr, wp_ret. exists 0%nat. split; [lia|]. replace (L - 1 + 1) with L in * by lia. rewrite HeL in *.
    destruct (tree_empty_top T Hq Hx eq_refl) as (EN & Ei & _). split_and!; [done|done|]. right.
    split_and!; [done|lia|done|done|]. exists (q :: F). revert C. rewrite EN, Ei. intros C.
    pose proof (core_last (f := set_top NULL) C ltac:(done)) as C'. exact (core_freed F q NULL _ C' Hx).
  - destruct (t_par _ _ _ _ _ _ T _ _ (mk_is_Some _ _ Hq)) as [p Hp]; [lia|]. pose proof Hp as Hp'.
    rewrite <- div_up in Hp' by lia. rewrite HN in Hp' by lia. rewrite Hp'. simpl.
    destruct (tree_layer T _ _ _ Hp) as (x & Hxp & Hokp).
    assert (q ≠ p) as Hqp by (intros ->; pose proof (t_inj _ _ _ _ _ _ T _ _ _ Hp Hq) as [=]; lia).
    pose proof (core_detach (l := l) C ltac:(lia) Hq Hp Hxp Hnone) as C'.
    eapply (wp_set_ary (x := x)); [simpl; by rewrite lookup_insert_ne|rewrite (lk_length _ _ _ _ _ Hokp); apply mod64|].
    apply wp_ret. exists (Z.to_nat (L - l - 1)). split; [done|]. split_and!; [done|done|]. left.
    exists (l + 1), (delete (l, e / w (l + 1)) N), (q :: F), p. rewrite (div_up e (l + 1)) by lia.
    split_and!; try (done || lia).
    + set (y := Layer _ _ _) in C' |- *.
      assert (upd_layer (freed q idr_cache_ctor s) p y = freed q idr_cache_ctor (upd_layer s p y)) as ->.
      { unfold freed, upd_layer, upd_idr, with_layers. simpl. by rewrite insert_insert_ne. }
      apply (core_freed F q NULL _ C'). simpl. by rewrite lookup_insert_ne.
    + rewrite lookup_delete_ne; [done|]. intros [=]; lia.
    + intros m q' Hm. rewrite lookup_delete_ne by (intros [=]; lia). apply HN. lia.
Qed.

Lemma release_path_spec fuel N F pa s : core L N [] F ids (full ids) (Some (0, e / 64)) s → is_Some (N !! (0, e / 64)) →
  N = N0 → top (the_idr s) = t0 → N0 !! (L - 1, 0) = Some t0 → warned s = warned s0 → layers (the_idr s) = L →
  cells_ok 0 pa → (6 < fuel)%nat → wp (release_path fuel pa L) release_post s.
Proof using All.
  intros C [q Hq] -> Ht HN0 Hw Hls (Hlen & Hnull & Hpa) Hfuel. apply (wp_loop _ release_inv) with (n := Z.to_nat L); [| |lia].
  2: { split_and!; [done|done|]. left. exists 0, N0, F, q. change (w (0 + 1)) with 64. split_and!; (done || lia || f_equal; lia). }
  clear s C q Hq Ht Hw Hls F. intros j k s (Hw & Hls & [(l & N & F & q & -> & -> & Hl & C & Hq & HN & Ht)|(-> & -> & Ei & Ht & F & C)]).
  2: { apply wp_bind, (wp_larray_get _ _ CNull); [done|done|]. simpl. apply wp_ret. split_and!; [done|done|]. right. by eauto. }
  apply wp_bind, (wp_larray_get _ _ (cell_at l)); [lia|by apply Hpa|].
  assert (is_cnull (cell_at l) = false) as -> by (unfold cell_at; by destruct (Z.eqb_spec l (L - 1))).
  pose proof (c_tree _ _ _ _ _ _ _ _ C) as T. destruct (tree_layer T _ _ _ Hq) as (x & Hx & Hok).
  assert (∀ Q : Z → idr_state → Prop, Q q s → wp (cell_load (cell_at l)) Q s) as Hload.
  { intros Q HQ. unfold cell_at. destruct (Z.eqb_spec l (L - 1)) as [->|].
    - apply wp_get_idr. rewrite Ht. replace (L - 1 + 1) with L in Hq by lia. rewrite HeL in Hq. rewrite HN in Hq by lia. congruence.
    - destruct (t_par _ _ _ _ _ _ T _ _ (mk_is_Some _ _ Hq)) as [p Hp]; [lia|]. pose proof Hp as Hp'.
      rewrite <- div_up in Hp' by lia. rewrite HN in Hp' by lia. rewrite Hp'. simpl.
      destruct (tree_layer T _ _ _ Hp) as (y & Hy & Hoky). eapply (wp_get_ary Hy); [apply mod64|by apply (lk_slot _ _ _ _ _ Hoky)|].
      unfold slot. destruct (Z.eqb_spec (l + 1) 0); [lia|]. replace (l + 1 - 1) with l by lia. by rewrite Hq. }
  apply wp_bind, Hload, wp_bind, (wp_get_count Hx), wp_bind, (wp_set_count Hx).
  pose proof (count_down (l := l) C ltac:(lia) Hq Hx) as C1. destruct (Z.eqb_spec (count x - 1) 0) as [Ec|Ec].
  - eapply (release_one _ l N F q); try (done || lia). rewrite upd_layer_eq. f_equal.
    destruct (tree_layer (c_tree _ _ _ _ _ _ _ _ C1) _ _ _ Hq) as (y & Hy & Hoky). rewrite upd_layer_eq in Hy. injection Hy as <-.
    apply (layer_is_ctor _ _ _ _ Hoky). pose proof (lk_count _ _ _ _ _ Hoky) as Hc. rewrite pend_None in Hc. simpl in Hc.
    intros k Hk. assert (slot N ids l k = None) as Hs by (apply (kids_empty (slot N ids l) (e / w (l + 1))); [lia|done]).
    split; [done|]. apply (slot_free (c_tree _ _ _ _ _ _ _ _ C1)); [done|lia].
  - apply wp_ret. split_and!; [done|done|]. left. split; [lia|]. split; [|done]. exists N, F. split; [done|]. rewrite HN; [done|lia].
Qed.
End remove.

Section sub_remove.
Context `{KernelLaws}.
Context {ids : gmap Z Z}.

Lemma digit_mod L id l : 0 ≤ l < L → 0 ≤ id → digit id l = digit (id mod w L) l.
Proof.
  intros Hl Hid. rewrite !digit_eq by lia. pose proof (w_pos L ltac:(lia)) as HwL. pose proof (w_pos l ltac:(lia)) as Hwl.
  assert (w L = 64 * w (L - l - 1) * w l) as EL.
  { transitivity (w (1 + (L - l - 1) + l)); [f_equal; lia|]. rewrite !w_add by lia. done. }
  rewrite (Z.div_mod id (w L)) at 1 by lia. rewrite EL at 1.
  replace (64 * w (L - l - 1) * w l * (id / w L) + id mod w L) with (id mod w L + (64 * w (L - l - 1) * (id / w L)) * w l) by lia.
  rewrite Z.div_add by lia. replace (64 * w (L - l - 1) * (id / w L)) with ((w (L - l - 1) * (id / w L)) * 64) by lia.
  by rewrite Z.mod_add.
Qed.

(** The warning about an id that is not there. *)
Definition warning (id e : Z) : list Z := if decide (is_Some (ids !! e)) then [] else [id].

Definition sub_remove_post (L id e : Z) (s : idr_state) (s' : idr_state) : Prop :=
  (∃ L' N' F', holds L' N' F' (delete e ids) s' ∧ L' ≤ L) ∧ warned s' = warned s ++ warning id e.

Lemma not_there {L N F e s l} : core L N [] F ids (cleared ids e l) None s → ids !! e = None →
  core L N [] F ids (full ids) None s.
Proof.
  intros C Hn. destruct C as [CT ? ? ? ? ? ?]. split; try done. apply (tree_bits CT). intros m k Hk.
  destruct (t_key _ _ _ _ _ _ CT _ _ Hk). unfold cleared. split; [|by intros []].
  intros Hf. split; [done|]. intros [_ ->]. by apply (full_none_free ids m (e / w m) e) in Hf; [|lia|..].
Qed.
Lemma warn_spec L N F id e s s0 : core L N [] F ids (full ids) None s → frame s0 s → layers (the_idr s0) = L →
  top (the_idr s0) = default NULL (N !! (L - 1, 0)) → ids !! e = None → wp (idr_remove_warning id) (λ _, sub_remove_post L id e s0) s.
Proof.
  intros C (Ht & Hl & Hw) HLs Hts Hn. apply wp_modify. split.
  - exists L, N, F. split; [|done]. rewrite delete_id by done. split; [by destruct C; split|]. simpl. split; congruence.
  - simpl. rewrite Hw. unfold warning. rewrite decide_False; [done|]. rewrite Hn. by intros [? [=]].
Qed.

(** The id is in the leaf [p]. *)
Lemma sub_remove_there fuel L N F id e p x pa s0 s :
  1 ≤ L ≤ 5 → 0 ≤ e → e / w L = 0 → core L N [] F ids (cleared ids e 0) None s → frame s0 s → layers (the_idr s0) = L →
  top (the_idr s0) = default NULL (N !! (L - 1, 0)) → is_Some (ids !! e) → N !! (0, e / 64) = Some p →
  layer_at s !! p = Some x → cells_ok (L := L) (N0 := N) (e := e) 0 pa → (6 < fuel)%nat →
  wp (b ← get_bitmap p;
      set_bitmap p (__clear_bit (e mod 64) b);;
      set_ary p (e mod 64) NULL;;
      k ← release_path fuel pa L;
      c ← larray_get pa k;
      if is_cnull c then set_idr (set_nlayers 0) else mret tt) (λ _, sub_remove_post L id e s0) s.
Proof using All.
  intros HL He HeL C (Ht & Hls & Hw) HLs Hts Hin Hp Hx Hcells Hfuel. pose proof (c_tree _ _ _ _ _ _ _ _ C) as T.
  destruct (tree_layer T _ _ _ Hp) as (y & Hy & Hok). assert (y = x) as -> by congruence.
  apply wp_bind, (wp_get_bitmap Hx), wp_bind, (wp_set_bitmap Hx). rewrite clear_bit_spec by apply mod64.
  apply wp_bind, (wp_set_ary (upd_layer_eq _ _ _)); [simpl; rewrite (lk_length _ _ _ _ _ Hok); apply mod64|].
  rewrite upd_layer_upd. simpl. apply wp_bind.
  destruct (t_top _ _ _ _ _ _ T) as [t Htop]; [lia|]. rewrite Htop in Hts. simpl in Hts.
  eapply wp_mono; [apply (release_path_spec (L := L) (N0 := N) (ids := delete e ids) (e := e) (s0 := s0) (t0 := t) HL He HeL fuel N F);
    try (done || (simpl; congruence))|].
  - eapply core_upd_tree; [exact C|by apply (tree_unplant T)| |].
    + apply parts_upd; [apply C|by eexists].
    + apply (p_sep _ _ _ (c_parts _ _ _ _ _ _ _ _ C) _ _ Hp).
  - simpl. intros k s' (Hw' & Hl' & Hcases). destruct Hcells as (Hlen & Hnull & Hpa).
    assert (warned s' = warned s0 ++ warning id e) as Hww.
    { rewrite Hw'. unfold warning. by rewrite decide_True, app_nil_r. }
    destruct Hcases as [(Hk & (N' & F' & C' & HN') & Ht')|(-> & Ht' & F' & C')].
    + apply wp_bind, (wp_larray_get _ _ (cell_at (L := L) (N0 := N) (e := e) (L - k))); [lia| |].
      { rewrite <- Hpa by lia. do 2 f_equal. lia. }
      assert (is_cnull (cell_at (L := L) (N0 := N) (e := e) (L - k)) = false) as -> by (unfold cell_at; by destruct (Z.eqb_spec (L - k) (L - 1))).
      apply wp_ret. split; [|done]. exists L, N', F'. split; [|done]. split; [done|]. by rewrite HN', Ht'.
    + apply wp_bind, (wp_larray_get _ _ CNull); [done|done|]. simpl. apply wp_set_idr. split; [|done].
      exists 0, ∅, F'. split; [|lia]. split; [by apply core_upd_idr|]. done.
Qed.

Lemma sub_remove_spec fuel L N F id s : holds L N F ids s → L ≤ 5 → 0 ≤ id → (6 < fuel)%nat →
  wp (sub_remove fuel ((L - 1) * IDR_BITS) id) (λ _, sub_remove_post L id (id mod w L) s) s.
Proof using All.
  intros (C & HLs & Hts) HL5 Hid Hfuel. pose proof (c_tree _ _ _ _ _ _ _ _ C) as T. pose proof (t_L _ _ _ _ _ _ T).
  unfold sub_remove. apply wp_bind, wp_larray_set; [change (0 ≤ 0 < 6); lia|].
  apply wp_bind, wp_larray_set; [change (0 ≤ 1 < 6); lia|]. set (pa := <[Z.to_nat 1 := _]> _). apply wp_bind.
  destruct (decide (L = 0)) as [->|HL0].
  - destruct (tree_nil T) as [EN Ei]. unfold remove_path. apply wp_bind, wp_get_idr. rewrite Hts, EN.
    destruct fuel; [lia|]. apply wp_bind, wp_ret, wp_ret, wp_bind, wp_ret.
    apply (warn_spec 0 N F); try done. by rewrite Ei.
  - set (e := id mod w L). assert (0 ≤ e < w L) as He by (apply Z.mod_pos_bound, w_pos; lia).
    assert (e / w L = 0) as HeL by (apply Z.div_small; lia).
    assert (Z.land id IDR_MASK = e mod 64) as ->.
    { pose proof (digit_mod L id 0 ltac:(lia) Hid) as E. rewrite (digit_eq (id mod w L)), div_w0 in E by lia.
      unfold digit in E. change (IDR_BITS * 0) with 0 in E. by rewrite Z.shiftr_0_r in E. }
    eapply wp_mono; [apply (remove_path_spec (L := L) (N0 := N) (ids := ids) (e := e) (s0 := s)) with (F := F); try (done || lia)|].
    + split; [done|]. split; [done|]. intros m Hm. assert (m = L - 1) as -> by lia. replace (L - (L - 1)) with 1 by lia.
      unfold cell_at. by destruct (Z.eqb_spec (L - 1) (L - 1)).
    + intros l Hl. by apply digit_mod.
    + intros [[p k] pa'] s' (l & (Hl & -> & -> & Hcells & C' & Hfr) & Hcase). pose proof (c_tree _ _ _ _ _ _ _ _ C') as T'.
      destruct (N !! (l, e / w (l + 1))) as [q|] eqn:Hq; simpl.
      * pose proof (tree_nonnull T' _ _ _ (p_null _ _ _ (c_parts _ _ _ _ _ _ _ _ C')) Hq) as Hqn.
        destruct Hcase as [->|]; [|done]. destruct (Z.eqb_spec q NULL) as [|_]; [done|].
        change (w (0 + 1)) with 64 in *. destruct (tree_layer T' _ _ _ Hq) as (x & Hx & Hok).
        apply wp_bind, wp_bind, (wp_get_bitmap Hx), wp_ret. rewrite test_bit_spec by apply mod64.
        pose proof (lk_bit_at _ _ _ _ _ Hok) as Hbit. destruct (Z.testbit (bitmap x) (e mod 64)).
        -- replace (L - 0) with L by lia. apply (sub_remove_there fuel L N F id e q x); try (done || lia).
           apply Hbit; [done|]. apply div_w0.
        -- assert (ids !! e = None) as Hn.
           { apply eq_None_not_Some. intros He'. assert (false = true); [|done]. apply Hbit. split; [|lia].
             intros i Hi. rewrite div_w0 in Hi. by subst i. }
           apply (warn_spec L N F); try done. by apply (not_there C').
      * apply wp_bind, wp_ret. assert (ids !! e = None) as Hn.
        { destruct (decide (l = L - 1)) as [->|].
          - replace (L - 1 + 1) with L in Hq by lia. rewrite HeL in Hq. pose proof (t_top _ _ _ _ _ _ T ltac:(lia)) as [? ?]. congruence.
          - apply (slot_None_ids T (l + 1) (e / w (l + 1))); [|lia|done]. unfold slot. destruct (Z.eqb_spec (l + 1) 0); [lia|].
            by replace (l + 1 - 1) with l by lia. }
        apply (warn_spec L N F); try done. by apply (not_there C').
Qed.
End sub_remove.

(** ** The interface *)

Section interface.
Context `{KernelLaws}.
Context {ids : gmap Z Z}.

Lemma idr_init_ok s : layer_at s = ∅ → (∀ a x, slab s !! a = Some x → x = idr_cache_ctor) →
  wp idr_init (λ _ s', idr_ok ∅ s' ∧ warned s' = warned s) s.
Proof.
  intros Hh Hslab.
  assert (∀ s1, layer_at s1 = ∅ → slab s1 = slab s → idr_layer_cache s1 = true →
    idr_ok ∅ (upd_idr (λ _, Idr NULL NULL 0 0 false) s1)) as Hok.
  { intros s1 Eh Es Ec. exists 0, ∅, []. split; [|lia]. split; [|done]. split; simpl; try done.
    - split; [lia|intros ??? [=]|intros ?? [? [=]]|intros ?? [? [=]]|lia|intros ? [? [=]]|intros ??? [=]].
    - rewrite Eh. split; [constructor|intros ?? [=]| |done]. intros a. rewrite lookup_empty. split; [intros [? [=]]|].
      intros [Ha|[? [=]]]. by apply not_elem_of_nil in Ha.
    - by rewrite Es. }
  unfold idr_init, init_id_cache. apply wp_bind, wp_bind, wp_gets. destruct (idr_layer_cache s) eqn:Ec.
  - apply wp_ret, wp_set_idr. split; [by apply Hok|done].
  - apply wp_modify, wp_set_idr. split; [by apply Hok|done].
Qed.

Lemma carry_free_0 : carry_free ids 0.
Proof. intros l Hl. rewrite Z.div_0_l; [done|]. pose proof (w_pos l). lia. Qed.

(** C11: [idr_get_new_above] stores the pointer under the first id from
    [starting_id] on that is free, and only that id changes; or, with fewer
    than IDR_FREE_MAX spare layers, it may return -EAGAIN and change no id.
    The search must not carry out of a block (see [idr_carry_misplaces]) and
    the id must be below 2^30 (see [idr_high_ids_overrun]). *)
Theorem idr_get_new_above_spec fuel ptr start r s : idr_ok ids s → 0 ≤ start ≤ r → carry_free ids start →
  none_free ids start r → ids !! r = None → r < 2 ^ 30 → (24 < fuel)%nat →
  wp (idr_get_new_above fuel ptr start)
    (λ '(rc, out) s', warned s' = warned s ∧
      (rc = 0 ∧ out = Some r ∧ idr_ok (<[r := ptr]> ids) s' ∨
       rc = - EAGAIN ∧ out = None ∧ idr_ok ids s' ∧ id_free_cnt (the_idr s) < IDR_FREE_MAX)) s.
Proof using All.
  intros Hok Hst Hcf Hnf Hr Hr30 Hfuel. apply wp_bind. eapply wp_mono; [by apply (get_new_int_spec fuel ptr start r s Hok)|].
  intros v s' [Hw [[-> Hok']|(-> & Hok' & Hc)]].
  - destruct (Z.ltb_spec r 0); [lia|]. apply wp_ret. split; [done|]. by left.
  - apply wp_ret. split; [done|]. by right.
Qed.

(** C36: after an [idr_pre_get] that returned 1, [idr_get_new] never returns
    -EAGAIN: it stores the pointer under the smallest free id. *)
Theorem idr_reserved_get_new fuel gfp ptr r s s1 : idr_ok ids s → (24 < fuel)%nat →
  idr_pre_get fuel gfp s = Ret (1, s1) → 0 ≤ r < 2 ^ 30 → none_free ids 0 r → ids !! r = None →
  ∃ s2, idr_get_new fuel ptr s1 = Ret ((0, Some r), s2) ∧ idr_ok (<[r := ptr]> ids) s2.
Proof using All.
  intros Hok Hfuel Hpre Hr Hnf Hfree. pose proof (idr_pre_get_spec fuel gfp s Hok ltac:(lia)) as Hw. unfold wp in Hw.
  rewrite Hpre in Hw. destruct Hw as (Hok1 & _ & [[_ Hc]|[[=] _]]).
  pose proof (get_new_int_spec fuel ptr 0 r s1 Hok1 ltac:(lia) carry_free_0 Hnf Hfree ltac:(lia) Hfuel) as Hg.
  apply wp_run in Hg as (v & s2 & E & _ & [(-> & Hok2)|(_ & _ & Hlt)]); [|lia]. exists s2. split; [|done].
  unfold idr_get_new, idr_get_new_above. rewrite (bind_ret _ _ _ _ _ E). by destruct (Z.ltb_spec r 0); [lia|].
Qed.

Lemma drop_spec L N F s : holds L N F ids s → L ≤ 5 →
  wp drop_top
    (λ _ s', warned s' = warned s ∧ ∃ L N F, holds L N F ids s' ∧ L ≤ 5) s.
Proof using All.
  intros Hh HL5. pose proof Hh as (C & HLs & Hts). pose proof (c_tree _ _ _ _ _ _ _ _ C) as T.
  pose proof (t_L _ _ _ _ _ _ T) as HL. unfold drop_top. apply wp_bind. unfold can_drop. apply wp_bind, wp_get_idr. rewrite Hts.
  assert (∀ s', s' = s → warned s' = warned s ∧ ∃ L N F, holds L N F ids s' ∧ L ≤ 5) as Hsame.
  { intros s' ->. split; [done|]. by exists L, N, F. }
  destruct (decide (L = 0)) as [->|HL0].
  { destruct (tree_nil T) as [-> _]. apply wp_ret, wp_ret. by apply Hsame. }
  destruct (t_top _ _ _ _ _ _ T) as [t Ht]; [lia|]. rewrite Ht. simpl.
  pose proof (tree_nonnull T _ _ _ (p_null _ _ _ (c_parts _ _ _ _ _ _ _ _ C)) Ht) as Htn.
  destruct (Z.eqb_spec t NULL) as [|_]; [done|]. destruct (tree_layer T _ _ _ Ht) as (x & Hx & Hok).
  apply wp_bind, (wp_get_count Hx), wp_bind, wp_get_idr. rewrite HLs.
  destruct (Z.eqb_spec (count x) 1) as [Hc|]; [|by apply wp_ret, wp_ret, Hsame].
  destruct (Z.ltb_spec 1 L) as [HL1|]; [|by apply wp_ret, wp_ret, Hsame]. simpl.
  pose proof (lk_slot _ _ _ 0 _ Hok) as Ha. apply wp_bind. eapply (wp_get_ary Hx 0); [lia|exact Ha|]. apply wp_ret.
  assert (∀ k, slot N ids (L - 1) k = N !! (L - 2, k)) as Es.
  { intros k. unfold slot. destruct (Z.eqb_spec (L - 1) 0); [lia|]. by replace (L - 1 - 1) with (L - 2) by lia. }
  rewrite Es in *. destruct (N !! (L - 2, 0)) as [p|] eqn:Hp; simpl in *; [|by apply wp_ret, Hsame].
  destruct (Z.eqb_spec p NULL) as [->|_]; [by apply wp_ret, Hsame|]. simpl.
  pose proof (lk_count _ _ _ _ _ Hok) as Hk. rewrite pend_None in Hk.
  assert (∀ k, k / 64 = 0 → k ≠ 64 * 0 → slot N ids (L - 1) k = None) as Hone.
  { apply kids_one; [lia|]. rewrite Es. change (64 * 0) with 0. rewrite Hp. by eexists. }
  pose proof (ary_one _ _ _ _ _ Hok Hone) as Hary. change (64 * 0) with 0 in Hary. rewrite Es, Hp in Hary. simpl in Hary.
  apply wp_bind, wp_get_idr. rewrite Hts, Ht. simpl. apply wp_bind, (wp_get_ary Hx 0 p); [lia|done|].
  apply wp_bind, (wp_set_count Hx), wp_bind, (wp_set_bitmap (upd_layer_eq _ _ _)). rewrite upd_layer_upd. simpl. rewrite Hary.
  replace L with (L - 1 + 1) in C by lia. 
  assert (∀ q, is_Some (N !! (L - 1 - 1, q)) → q = 0) as Hq0.
  { intros q Hs. replace (L - 1 - 1) with (L - 2) in Hs by lia. destruct (decide (q = 0)) as [|Hq]; [done|].
    assert (0 ≤ q < 64) as Hq64.
    { pose proof (t_key _ _ _ _ _ _ T _ _ Hs) as [_ E]. replace (L - 1 - (L - 2)) with 1 in E by lia. change (w 1) with 64 in E. dlia. }
    rewrite <- Es, Hone in Hs by (try (apply Z.div_small); lia). by destruct Hs. }
  pose proof (core_drop (v := p) C ltac:(lia) Ht) as C'. replace (L - 1 - 1) with (L - 2) in * by lia.
  specialize (C' (mk_is_Some _ _ Hp) Hq0).
  apply wp_bind. eapply wp_free_layer; [exact C'|apply upd_layer_eq|]. intros s' C'' (Ht' & Hl' & Hw').
  apply wp_bind, wp_set_idr, wp_set_idr. split; [done|]. exists (L - 1), (delete (L - 1, 0) N), (t :: F). split; [|lia].
  split; [by do 2 (apply core_upd_idr; [|done])|]. simpl. rewrite Hl'. simpl. split; [by rewrite HLs|].
  replace (L - 1 - 1) with (L - 2) by lia. rewrite lookup_delete_ne by (intros [=]; lia). by rewrite Hp.
Qed.

Lemma trim_spec L N F s : holds L N F ids s → L ≤ 5 →
  wp (c ← get_idr id_free_cnt; if IDR_FREE_MAX <=? c then p ← alloc_layer; kmem_cache_free p else mret tt)
    (λ _ s', warned s' = warned s ∧ idr_ok ids s') s.
Proof using All.
  intros Hh HL5. pose proof Hh as (C & HLs & Hts). apply wp_bind, wp_get_idr. rewrite (c_cnt _ _ _ _ _ _ _ _ C).
  destruct (Z.leb_spec IDR_FREE_MAX (Z.of_nat (length F))) as [Hc|_]; [|apply wp_ret; split; [done|by exists L, N, F]].
  apply wp_bind. apply (wp_alloc_layer F s _ C); [intros ->; by destruct Hc|].
  intros a F' s' -> Ha C' Hctor (Ht & Hl & Hw). unfold kmem_cache_free. apply wp_bind, (wp_gets_opt _ idr_cache_ctor); [done|].
  apply wp_modify. split; [done|]. exists L, N, F'. split; [|done]. split; [|simpl; split; congruence].
  destruct (parts_limbo _ _ _ _ (c_parts _ _ _ _ _ _ _ _ C')) as [HaN HaF]. destruct C' as [T' S' Hc' [Hnd Hsep Hdom Hnull] ? ? Hs].
  split; simpl; try done.
  - by apply tree_delete.
  - by apply spare_delete.
  - split.
    + by apply NoDup_cons in Hnd as [_ ?].
    + intros k b Hk Hin. apply (Hsep k b Hk). by right.
    + intros b. destruct (decide (b = a)) as [->|Hne].
      * rewrite lookup_delete_eq. split; [intros [? [=]]|]. intros [?|[k Hk]]; [done|by destruct (HaN k)].
      * rewrite lookup_delete_ne by done. rewrite Hdom. simpl. rewrite elem_of_cons. naive_solver.
    + apply lookup_delete_None. by right.
  - intros b x [[_ <-]|[_ Hb]]%lookup_insert_Some; [done|by apply (Hs b)].
Qed.

End interface.

(** C12: [idr_remove] takes out the id and keeps the others; for an id that is
    not there it only prints the warning.  But an id that is too large for the
    tree is cut down to its low digits, and the id they make is removed. *)
Theorem idr_remove_spec `{KernelLaws} fuel id ids s : idr_ok ids s → (6 < fuel)%nat →
  let i := id mod 2 ^ 31 in let e := i mod w (layers (the_idr s)) in
  wp (idr_remove fuel id)
    (λ _ s', idr_ok (delete e ids) s' ∧ warned s' = warned s ++ (if decide (is_Some (ids !! e)) then [] else [i])) s.
Proof.
  intros (L & N & F & Hh & HL5) Hfuel i e. pose proof Hh as (C & HLs & _). unfold idr_remove. rewrite mask_id. fold i.
  apply wp_bind, wp_get_idr. subst e. rewrite HLs. apply wp_bind.
  eapply wp_mono; [apply (sub_remove_spec fuel L N F i s Hh HL5); [by apply Z.mod_pos_bound|done]|].
  intros _ s1 [(L1 & N1 & F1 & Hh1 & HL1) Hw1]. apply wp_bind.
  eapply wp_mono; [apply (drop_spec L1 N1 F1 s1 Hh1); lia|]. intros _ s2 [Hw2 (L2 & N2 & F2 & Hh2 & HL2)].
  eapply wp_mono; [apply (trim_spec L2 N2 F2 s2 Hh2); lia|]. intros _ s3 [Hw3 Hok]. split; [done|].
  rewrite Hw3, Hw2, Hw1. done.
Qed.

(** C37: Ids from 2^30 on cannot be allocated, although they are within the
    range the documentation promises: with enough spare layers the tree gets
    six levels and [sub_alloc] writes past the end of [pa]. *)
Theorem idr_high_ids_overrun `{KernelLaws} fuel ptr start ids s : idr_ok ids s → 2 ^ 30 ≤ start ≤ INT_MAX →
  IDR_FREE_MAX ≤ id_free_cnt (the_idr s) → (6 < fuel)%nat → idr_get_new_above fuel ptr start s = Fault.
Proof.
  intros (L & N & F & Hh & HL5) Hst Hc Hfuel. pose proof Hh as (C & _). rewrite (c_cnt _ _ _ _ _ _ _ _ C) in Hc.
  change IDR_FREE_MAX with 12 in Hc. change (2 ^ 30) with (w 5) in Hst.
  apply bind_fault. unfold idr_get_new_above_int. destruct fuel as [|fuel]; [lia|]. apply bind_fault, bind_outcome.
  eapply wp_mono; [by apply (grow_to_spec (ids := ids) (S fuel) start L N F s)|]. intros [[p n]|] s1; [|intros (_ & _ & ?); lia].
  intros (N1 & F1 & C1 & _ & Hn1 & _ & _ & _ & _ & Hn). assert (n = 6) as ->.
  { destruct Hn as [Hn|]; [|done]. pose proof (t_L _ _ _ _ _ _ (c_tree _ _ _ _ _ _ _ _ C1)).
    destruct (decide (n = 6)) as [|]; [done|]. pose proof (w_mono n 5). lia. }
  done.
Qed.

(** ** Examples *)

(** A kernel for the witnesses: memory while [gfp_mask] is not 0. *)
Fixpoint ex_find (fuel : nat) (b size n : Z) : Z :=
  match fuel with
  | O => size
  | S fuel => if size <=? n then size else if Z.testbit b n then n else ex_find fuel b size (n + 1)
  end.
Definition ex_pick (h : gmap Z idr_layer) (gfp : Z) : Z :=
  if gfp =? 0 then NULL else 1 + map_fold (λ k _ m, Z.max k m) 0 h.
Definition ex_kernel : Kernel := {|
  find_next_bit b size n := ex_find (Z.to_nat (size - n)) b size n;
  __set_bit n b := Z.setbit b n;
  __clear_bit n b := Z.clearbit b n;
  test_bit n b := Z.testbit b n;
  kmem_pick := ex_pick;
|}.

Definition ex0 : idr_state := IdrState (Idr 5 6 7 8 true) ∅ ∅ false [].

Lemma ex_find_spec fuel b size n : 0 ≤ n ≤ size → fuel = Z.to_nat (size - n) →
  n ≤ ex_find fuel b size n ≤ size ∧
  (∀ i, n ≤ i < ex_find fuel b size n → Z.testbit b i = false) ∧
  (ex_find fuel b size n < size → Z.testbit b (ex_find fuel b size n) = true).
Proof.
  revert n. induction fuel as [|fuel IH]; intros n Hn Hf; simpl; [split_and!; lia|].
  destruct (Z.leb_spec size n); [lia|]. destruct (Z.testbit b n) eqn:E; [split_and!; [lia|lia|lia|done]|].
  destruct (IH (n + 1)) as (? & Hz & ?); [lia|lia|]. split_and!; [lia|lia| |done]. intros i Hi.
  destruct (decide (i = n)) as [->|]; [done|]. apply Hz. lia.
Qed.
Lemma ex_pick_bound (h : gmap Z idr_layer) k : is_Some (h !! k) → k ≤ map_fold (λ k _ m, Z.max k m) 0 h.
Proof.
  revert k. apply (map_fold_weak_ind (λ m h, ∀ k, is_Some (h !! k) → k ≤ m)); [intros k [? [=]]|].
  intros j x h' m Hj IH k [[= ->]|[_ Hk]]%lookup_insert_is_Some; [lia|]. specialize (IH k Hk). lia.
Qed.
#[local] Existing Instance ex_kernel.
Lemma ex_kernel_laws : KernelLaws.
Proof.
  split; simpl; try done.
  - intros b size n Hn. apply ex_find_spec; lia.
  - intros h gfp. unfold ex_pick. destruct (Z.eqb_spec gfp 0); [done|]. intros _. apply eq_None_not_Some.
    intros Hs%ex_pick_bound. lia.
Qed.
#[local] Existing Instance ex_kernel_laws.

Definition ex_run {A} (m : idM A) (s : idr_state) : idr_state := match m s with Ret (_, s') => s' | _ => s end.
Lemma ex_run_ok {A} (m : idM A) (P : idr_state → Prop) s : wp m (λ _ s', P s') s → P (ex_run m s).
Proof. unfold wp, ex_run. by destruct (m s) as [[]| | | | |]. Qed.
Definition ex1 : idr_state := ex_run (idr_init;; idr_pre_get 32 1) ex0.
Lemma ex1_ok : idr_ok ∅ ex1.
Proof.
  unfold ex1. apply (ex_run_ok _ (idr_ok ∅)), wp_bind. eapply wp_mono; [by apply idr_init_ok|]. intros _ s1 [Hok _].
  eapply wp_mono; [apply (idr_pre_get_spec (ids := ∅) 32 1 s1 Hok); lia|]. by intros ? ? (? & _).
Qed.
(** 100 under the id 7. *)
Definition ex2 : idr_state := ex_run (idr_get_new_above_int 32 100 7) ex1.
Lemma ex_none_free a : none_free ∅ a a.
Proof. intros i. lia. Qed.
Lemma ex_carry_free : carry_free ∅ 7.
Proof. intros l Hl. rewrite Z.div_small; [done|]. pose proof (w_mono 1 l). change (w 1) with 64 in *. lia. Qed.
Lemma ex2_ok : idr_ok {[7 := 100]} ex2.
Proof.
  unfold ex2. apply (ex_run_ok _ (idr_ok {[7 := 100]})).
  eapply wp_mono; [apply (get_new_int_spec (ids := ∅) 32 100 7 7 ex1 ex1_ok); [lia|exact ex_carry_free|apply ex_none_free|done|lia|lia]|].
  intros v s' [_ [(_ & Hok)|(_ & _ & Hc)]]; [done|]. exfalso. revert Hc. by vm_compute.
Qed.

Lemma idr_get_new_above_spec_witness : wp (idr_get_new_above 32 100 7)
    (λ '(rc, out) s', warned s' = warned ex1 ∧
      (rc = 0 ∧ out = Some 7 ∧ idr_ok (<[7 := 100]> ∅) s' ∨
       rc = - EAGAIN ∧ out = None ∧ idr_ok ∅ s' ∧ id_free_cnt (the_idr ex1) < IDR_FREE_MAX)) ex1.
Proof.
  apply (idr_get_new_above_spec 32 100 7 7 ex1 ex1_ok); [lia|exact ex_carry_free|apply ex_none_free|done|lia|lia].
Defined.
Lemma idr_find_spec_witness : idr_find 32 7 ex2 = Ret (100, ex2).
Proof. exact (idr_find_spec 32 7 ex2 ex2_ok ltac:(lia)). Defined.
Lemma idr_reserved_get_new_witness :
  ∃ s1 s2, idr_pre_get 32 1 ex2 = Ret (1, s1) ∧ idr_get_new 32 200 s1 = Ret ((0, Some 0), s2) ∧ idr_ok (<[0 := 200]> {[7 := 100]}) s2.
Proof.
  assert (∃ s1, idr_pre_get 32 1 ex2 = Ret (1, s1)) as [s1 E] by (eexists; by vm_compute).
  exists s1. destruct (idr_reserved_get_new 32 1 200 0 ex2 s1 ex2_ok ltac:(lia) E) as (s2 & E2 & Hok); [lia|intros i; lia|done|].
  exists s2. split; [exact E|split; [exact E2|exact Hok]].
Defined.
(** 71 is cut down to 7 in a tree of one level. *)
Lemma idr_remove_spec_witness : layers (the_idr ex2) = 1 ∧
  wp (idr_remove 32 71) (λ _ s', idr_ok (delete 7 {[7 := 100]}) s' ∧ warned s' = warned ex2 ++ []) ex2.
Proof.
  assert (layers (the_idr ex2) = 1) as E by (by vm_compute). split; [exact E|].
  pose proof (idr_remove_spec 32 71 {[7 := 100]} ex2 ex2_ok ltac:(lia)) as Hw. cbv zeta in Hw. rewrite E in Hw. exact Hw.
Defined.
Lemma idr_high_ids_overrun_witness : idr_get_new_above 32 100 (2 ^ 30) ex1 = Fault.
Proof.
  apply (idr_high_ids_overrun 32 100 (2 ^ 30) ∅ ex1 ex1_ok); [by vm_compute|by vm_compute|lia].
Defined.

(** What [carry_free] excludes, on one run: asked twice for an id from 4095 on,
    [idr_get_new_above] returns 4095 and then 4096, but the second pointer is
    where the id 0 belongs: 4096 is not found and 0, which nobody was given, is. *)
Example idr_carry_misplaces : ∃ s,
  (idr_init;; idr_pre_get 32 1;;
   a ← idr_get_new_above 32 100 4095;
   b ← idr_get_new_above 32 200 4095;
   x ← idr_find 32 4096; y ← idr_find 32 0; mret (a, b, x, y)) ex0 =
  Ret ((0, Some 4095), (0, Some 4096), NULL, 200, s).
Proof. eexists. by vm_compute. Qed.
