(* ===== verification/Log.v ===== *)
(** * Logging: src/log/log.c, src/log/log.h

    One call formats a line in a buffer on the stack and hands it to the
    writer.  HAS_THREADS is defined nowhere, so the parts under it are not
    compiled: the keys of the thread-local variables keep the value -1.  What
    the C library formats is written out ([snprintf] with the formats the file
    uses); what the caller's format makes of its arguments is an argument.
    [localtime], the path the compiler is called with ([__FILE__]) and the value
    of a key that was never created are parameters.  A writer that is not
    [log_write] only receives its arguments. *)
From Stdlib Require Import Ascii String.
From stdpp Require Import base tactics list numbers strings.
From S2P Require Import Prelude Lists.
Local Open Scope Z_scope.

(** ** log.h *)

Definition LOG_MAX_SIZE : Z := 4000.
Definition LOG_MAX_INDENT : Z := 80.
Definition MDL_LOG_INDENT_SIZE : Z := 1.
Definition MDL_LOG_INDENT_CHAR : Z := 46.
Definition MDL_LOG_MAX_LEVEL : Z := 6.

Definition LOG_HAS_DAY_NAME : Z := 0x0001.
Definition LOG_HAS_YEAR : Z := 0x0002.
Definition LOG_HAS_MONTH : Z := 0x0004.
Definition LOG_HAS_DAY_OF_MON : Z := 0x0008.
Definition LOG_HAS_TIME : Z := 0x0010.
Definition LOG_HAS_MICRO_SEC : Z := 0x0020.
Definition LOG_HAS_SENDER : Z := 0x0040.
Definition LOG_HAS_NEWLINE : Z := 0x0080.
Definition LOG_HAS_PROCESS_ID : Z := 0x0100.
Definition LOG_HAS_SPACE : Z := 0x0200.
Definition LOG_HAS_COLOR : Z := 0x0400.
Definition LOG_HAS_LEVEL_TEXT : Z := 0x0800.
Definition LOG_HAS_THREAD_ID : Z := 0x1000.
Definition LOG_HAS_THREAD_SWC : Z := 0x2000.
Definition LOG_HAS_INDENT : Z := 0x4000.

Definition TERM_COLOR_B : Z := 1.
Definition TERM_COLOR_R : Z := 2.
Definition TERM_COLOR_G : Z := 4.
Definition TERM_COLOR_BRIGHT : Z := 8.

(** ** The state *)

(** A call of a writer that the program has set. *)
Record writer_call := Call { w_func : Z; w_level : Z; w_data : list Z; w_len : Z }.

(** The static variables of log.c ([LOG_COLORS] are LOG_COLOR_0 to LOG_COLOR_6),
    the output and the calls of other writers. *)
Record log_state := LogState {
  log_max_level : Z;
  log_decor : Z;
  LOG_COLORS : list Z;
  LOG_COLOR_77 : Z;
  log_writer : Z;
  g_last_thread : Z;
  stdout : list Z;
  calls : list writer_call;
}.

(** The address of [log_write]. *)
Definition LOG_WRITE : Z := 1.
Definition bits (l : list Z) : Z := foldr Z.lor 0 l.

(** The initial values. *)
Definition log_start : log_state := LogState MDL_LOG_MAX_LEVEL
  (bits [LOG_HAS_TIME; LOG_HAS_MICRO_SEC; LOG_HAS_NEWLINE; LOG_HAS_SPACE; LOG_HAS_THREAD_ID; LOG_HAS_INDENT; LOG_HAS_PROCESS_ID])
  [bits [TERM_COLOR_BRIGHT; TERM_COLOR_R]; bits [TERM_COLOR_BRIGHT; TERM_COLOR_R];
   bits [TERM_COLOR_BRIGHT; TERM_COLOR_R; TERM_COLOR_G]; bits [TERM_COLOR_BRIGHT; TERM_COLOR_R; TERM_COLOR_G; TERM_COLOR_B];
   bits [TERM_COLOR_R; TERM_COLOR_G; TERM_COLOR_B]; bits [TERM_COLOR_R; TERM_COLOR_G; TERM_COLOR_B];
   bits [TERM_COLOR_R; TERM_COLOR_G; TERM_COLOR_B]]
  (bits [TERM_COLOR_R; TERM_COLOR_G; TERM_COLOR_B]) LOG_WRITE NULL [] [].

Abbreviation logM := (M log_state).
Definition set_level (v : Z) (s : log_state) : log_state :=
  LogState v (log_decor s) (LOG_COLORS s) (LOG_COLOR_77 s) (log_writer s) (g_last_thread s) (stdout s) (calls s).
Definition set_decor (v : Z) (s : log_state) : log_state :=
  LogState (log_max_level s) v (LOG_COLORS s) (LOG_COLOR_77 s) (log_writer s) (g_last_thread s) (stdout s) (calls s).
Definition set_colors (l : list Z) (c : Z) (s : log_state) : log_state :=
  LogState (log_max_level s) (log_decor s) l c (log_writer s) (g_last_thread s) (stdout s) (calls s).
Definition set_writer (v : Z) (s : log_state) : log_state :=
  LogState (log_max_level s) (log_decor s) (LOG_COLORS s) (LOG_COLOR_77 s) v (g_last_thread s) (stdout s) (calls s).
Definition set_last_thread (v : Z) (s : log_state) : log_state :=
  LogState (log_max_level s) (log_decor s) (LOG_COLORS s) (LOG_COLOR_77 s) (log_writer s) v (stdout s) (calls s).
Definition set_out (l : list Z) (c : list writer_call) (s : log_state) : log_state :=
  LogState (log_max_level s) (log_decor s) (LOG_COLORS s) (LOG_COLOR_77 s) (log_writer s) (g_last_thread s) l c.
Definition print (l : list Z) : logM unit := modify (λ s, set_out (stdout s ++ l) (calls s) s).

(** ** The C library *)

Definition bytes (s : string) : list Z := (λ c, Z.of_nat (nat_of_ascii c)) <$> list_ascii_of_string s.

(** The decimal digits of [n]. *)
Fixpoint digits (fuel : nat) (n : Z) : list Z :=
  match fuel with
  | O => []
  | S fuel => if n <? 10 then [48 + n] else digits fuel (n / 10) ++ [48 + n mod 10]
  end.
Definition pad (c width : Z) (l : list Z) : list Z :=
  replicate (Z.to_nat (width - Z.of_nat (length l))) c ++ l.
(** [%<width>d], [%<width>ld]: padded with blanks *)
Definition fmt_d (width x : Z) : list Z :=
  pad 32 width (if x <? 0 then 45 :: digits 20 (- x) else digits 20 x).
(** [%0<width>d]: padded with zeros, after the sign *)
Definition fmt_0d (width x : Z) : list Z :=
  if x <? 0 then 45 :: pad 48 (width - 1) (digits 20 (- x)) else pad 48 width (digits 20 x).
(** [%<width>s] *)
Definition fmt_s (width : Z) (l : list Z) : list Z := pad 32 width l.

(** What [snprintf(buf + off, n, ...)] leaves in [buf], [text] being the whole
    output: at most [n - 1] bytes and a NUL, inside [buf]. *)
Definition put_text (buf : list Z) (off n : Z) (text : list Z) : option (list Z) :=
  if n =? 0 then Some buf
  else
    let t := take (Z.to_nat (Z.min (n - 1) (Z.of_nat (length text)))) text ++ [0] in
    if (0 <=? off) && (off + Z.of_nat (length t) <=? Z.of_nat (length buf))
    then Some (take (Z.to_nat off) buf ++ t ++ drop (Z.to_nat off + length t) buf) else None.
(** [memset(buf + off, c, n)] *)
Definition put_set (buf : list Z) (off c n : Z) : option (list Z) :=
  if (0 <=? off) && (0 <=? n) && (off + n <=? Z.of_nat (length buf))
  then Some (take (Z.to_nat off) buf ++ replicate (Z.to_nat n) c ++ drop (Z.to_nat (off + n)) buf) else None.
Definition put_byte (buf : list Z) (i c : Z) : option (list Z) := put_set buf i c 1.

(** The string at the start of a buffer. *)
Fixpoint cstr (buf : list Z) : option (list Z) :=
  match buf with
  | [] => None
  | c :: buf => if c =? 0 then Some [] else (c ::.) <$> cstr buf
  end.

(** ** log.c *)

Record tm := Tm { tm_sec : Z; tm_min : Z; tm_hour : Z; tm_mday : Z; tm_mon : Z; tm_year : Z; tm_wday : Z }.

Record parsed_time_s := Parsed {
  wday : Z;
  day : Z;
  mon : Z;
  year : Z;
  sec : Z;
  min : Z;
  hour : Z;
  msec : Z;
}.

Class LogEnv := {
  localtime : Z → tm;
  FILE_ : list Z;
  (* the value of a key that was never created: POSIX leaves it undefined *)
  bad_key : option Z;
}.

Definition mdl_log_set_level (level : Z) : logM unit := modify (set_level level).
Definition mdl_log_get_level : logM Z := gets log_max_level.
Definition mdl_log_set_decor (decor : Z) : logM unit := modify (set_decor decor).
Definition mdl_log_get_decor : logM Z := gets log_decor.

Definition mdl_log_set_color (level color : Z) : logM unit :=
  modify (λ s,
    if (0 <=? level) && (level <=? 6) then set_colors (<[Z.to_nat level := color]> (LOG_COLORS s)) (LOG_COLOR_77 s) s
    else if level =? 77 then set_colors (LOG_COLORS s) color s
    else s).
Definition mdl_log_get_color (level : Z) : logM Z :=
  gets (λ s, if (0 <=? level) && (level <=? 6) then default 0 (LOG_COLORS s !! Z.to_nat level) else LOG_COLOR_77 s).

Definition mdl_log_set_log_func (func : Z) : logM unit := modify (set_writer func).
Definition mdl_log_get_log_func : logM Z := gets log_writer.

Definition term_set_color (color : Z) : logM Z :=
  let bright := negb (Z.land color TERM_COLOR_BRIGHT =? 0) in
  let ansi_color := 27 :: bytes (if bright then "[01;3" else "[00;3") in
  let color := if bright then Z.lxor color TERM_COLOR_BRIGHT else color in
  print (
    if color =? 0 then ansi_color ++ bytes "0m"
    else if color =? TERM_COLOR_R then ansi_color ++ bytes "1m"
    else if color =? TERM_COLOR_G then ansi_color ++ bytes "2m"
    else if color =? TERM_COLOR_B then ansi_color ++ bytes "4m"
    else if color =? Z.lor TERM_COLOR_R TERM_COLOR_G then ansi_color ++ bytes "3m"
    else if color =? Z.lor TERM_COLOR_R TERM_COLOR_B then ansi_color ++ bytes "5m"
    else if color =? Z.lor TERM_COLOR_G TERM_COLOR_B then ansi_color ++ bytes "6m"
    else if color =? Z.lor TERM_COLOR_R (Z.lor TERM_COLOR_G TERM_COLOR_B) then ansi_color ++ bytes "7m"
    else 27 :: bytes "[00m");;
  mret 0.

Definition log_term_set_color (level : Z) : logM unit :=
  c ← mdl_log_get_color level; term_set_color c;; mret tt.
Definition log_term_restore_color : logM unit :=
  c ← mdl_log_get_color 77; term_set_color c;; mret tt.

(** [printf("%s", buffer)] *)
Definition print_string (buffer : list Z) : logM unit :=
  l ← gets_opt (λ _, cstr buffer); print l.

Definition log_write (level : Z) (buffer : list Z) (len : Z) : logM unit :=
  d ← mdl_log_get_decor;
  if negb (Z.land d LOG_HAS_COLOR =? 0) then
    log_term_set_color level;;
    print_string buffer;;
    log_term_restore_color
  else print_string buffer.

(** The call through [log_writer], unless it is NULL. *)
Definition call_writer (level : Z) (buffer : list Z) (len : Z) : logM unit :=
  f ← gets log_writer;
  if f =? NULL then mret tt
  else if f =? LOG_WRITE then log_write level buffer len
  else modify (λ s, set_out (stdout s) (calls s ++ [Call f level buffer len]) s).

Definition mdl_log_init : logM Z := modify (set_last_thread NULL);; mret 0.

Definition suspend_logging : logM Z :=
  saved ← gets log_max_level; modify (set_level 0);; mret saved.
Definition resume_logging (saved_level : Z) : logM unit :=
  l ← gets log_max_level;
  if (l =? 0) && negb (saved_level =? 0) then modify (set_level saved_level) else mret tt.
Definition is_logging_suspended : logM bool :=
  l ← gets log_max_level; mret (l =? 0).

Section log.
Context `{LogEnv}.

Definition time_decode (tv : timeval) : parsed_time_s :=
  let local_time := localtime (tv_sec tv) in
  Parsed (tm_wday local_time) (tm_mday local_time) (tm_mon local_time + 1) (tm_year local_time + 1900)
    (tm_sec local_time) (tm_min local_time) (tm_hour local_time) (tv_usec tv ÷ 1000).

(** [mdl_thread_local_get] and [mdl_thread_local_set] of the key -1: the second
    stores nothing, there is no such key. *)
Definition key_get : logM Z := gets_opt (λ _, bad_key).
Definition key_set (v : Z) : logM unit := gets_opt (λ _, (λ _, tt) <$> bad_key).

Definition log_set_indent (indent : Z) : logM unit :=
  let indent := if indent <? 0 then 0 else indent in key_set indent.
Definition log_get_raw_indent : logM Z := v ← key_get; mret (s32 v).
Definition log_get_indent : logM Z :=
  indent ← log_get_raw_indent; mret (if LOG_MAX_INDENT <? indent then LOG_MAX_INDENT else indent).
Definition mdl_log_add_indent (indent : Z) : logM unit :=
  i ← log_get_raw_indent; log_set_indent (i + indent).
Definition mdl_log_push_indent : logM unit := mdl_log_add_indent MDL_LOG_INDENT_SIZE.
Definition mdl_log_pop_indent : logM unit := mdl_log_add_indent (- MDL_LOG_INDENT_SIZE).

(** [log_buffer] and [len]. *)
Abbreviation line := (list Z * Z)%type.
Definition max : Z := LOG_MAX_SIZE - 1.

(** [len += snprintf(log_buffer + len, max - len, ...)], where [len] is an
    [int]: undefined when the sum overflows.  The result of [snprintf] is an
    [int] too: with an output of more than INT_MAX bytes the call fails and
    leaves the buffer unspecified, which is the same here. *)
Definition emit (text : list Z) (bl : line) : logM line :=
  let n := Z.of_nat (length text) in
  buf ← gets_opt (λ _, put_text (fst bl) (snd bl) (u64 (max - snd bl)) text);
  if (INT_MAX <? n) || (INT_MAX <? snd bl + n) then fault else mret (buf, snd bl + n).
Definition has (flag : Z) : logM bool := d ← gets log_decor; mret (negb (Z.land d flag =? 0)).
(** [if (log_decor & flag) len += snprintf(...)] *)
Definition emit_if (flag : Z) (text : list Z) (bl : line) : logM line :=
  b ← has flag; if (b : bool) then emit text bl else mret bl.

Definition ltexts : list (list Z) :=
  bytes <$> ["FATAL:"; "ERROR:"; " WARN:"; " INFO:"; "DEBUG:"; "TRACE:"; "DETRC:"]%string.
Definition wdays : list (list Z) :=
  bytes <$> ["Sun"; "Mon"; "Tue"; "Wed"; "Thu"; "Fri"; "Sat"]%string.
Definition text_at (l : list (list Z)) (i : Z) : logM (list Z) :=
  gets_opt (λ _, if i <? 0 then None else l !! Z.to_nat i).

(** The decorations up to the day. *)
Definition emit_date (level : Z) (ptime : parsed_time_s) (bl : line) : logM line :=
  b ← has LOG_HAS_LEVEL_TEXT;
  bl ← (if (b : bool) then t ← text_at ltexts level; emit t bl else mret bl);
  b ← has LOG_HAS_DAY_NAME;
  bl ← (if (b : bool) then t ← text_at wdays (wday ptime); emit t bl else mret bl);
  bl ← emit_if LOG_HAS_YEAR ((if snd bl =? 0 then [] else [32]) ++ fmt_d 0 (year ptime)) bl;
  bl ← emit_if LOG_HAS_MONTH (45 :: fmt_0d 2 (mon ptime)) bl;
  emit_if LOG_HAS_DAY_OF_MON (45 :: fmt_0d 2 (day ptime)) bl.

Definition LINE_ : Z := 544.
(** The decorations from the time of day on, and the blanks. *)
Definition emit_rest (tid pid : Z) (ptime : parsed_time_s) (bl : line) : logM line :=
  bl ← emit_if LOG_HAS_TIME
         (32 :: fmt_0d 2 (hour ptime) ++ 58 :: fmt_0d 2 (min ptime) ++ 58 :: fmt_0d 2 (sec ptime)) bl;
  bl ← emit_if LOG_HAS_MICRO_SEC (46 :: fmt_0d 3 (msec ptime) ++ [32]) bl;
  bl ← emit_if LOG_HAS_SENDER
         (bytes " [" ++ fmt_s 14 FILE_ ++ 58 :: fmt_s 16 (bytes "log_core") ++ 35 :: fmt_0d 3 LINE_ ++ [93]) bl;
  bl ← emit_if LOG_HAS_THREAD_ID (bytes " [" ++ fmt_d 8 tid ++ [93]) bl;
  bl ← emit_if LOG_HAS_PROCESS_ID (bytes "#[" ++ fmt_d 8 pid ++ [93]) bl;
  d ← gets log_decor;
  bl ← (if negb (d =? 0) && negb (d =? LOG_HAS_NEWLINE) then emit [32] bl else mret bl);
  b ← has LOG_HAS_THREAD_SWC;
  if (b : bool) then mret bl else emit_if LOG_HAS_SPACE [32] bl.

Definition emit_indent (bl : line) : logM line :=
  b ← has LOG_HAS_INDENT;
  if (b : bool) then
    indent ← log_get_indent;
    if 0 <? indent then
      buf ← gets_opt (λ _, put_set (fst bl) (snd bl) MDL_LOG_INDENT_CHAR indent);
      mret (buf, snd bl + indent)
    else mret bl
  else mret bl.

(** The message and what is after it. *)
Definition emit_line (msg : list Z) (bl : line) : logM line :=
  bl ← emit msg bl;
  b ← has LOG_HAS_NEWLINE;
  bl ← (if negb (max <=? snd bl) && (b : bool) then
          buf ← gets_opt (λ _, put_byte (fst bl) (snd bl) 10); mret (buf, snd bl + 1)
        else mret bl);
  buf ← gets_opt (λ _, put_byte (fst bl) (LOG_MAX_SIZE - 1) 0);
  mret (buf, snd bl).

(** The whole line, in a buffer of zeros. *)
Definition log_line (ptime : parsed_time_s) (tid pid level : Z) (msg : list Z) : logM line :=
  bl ← emit_date level ptime (replicate (Z.to_nat LOG_MAX_SIZE) 0, 0);
  bl ← emit_rest tid pid ptime bl;
  bl ← emit_indent bl;
  emit_line msg bl.

(** [now] is what [gettimeofday] gives, [msg] what the format makes of the arguments. *)
Definition log_core (now : timeval) (tid pid level : Z) (msg : list Z) : logM unit :=
  l ← gets log_max_level;
  if l <? level then mret tt
  else
    suspended ← is_logging_suspended;
    if (suspended : bool) then mret tt
    else
      saved_level ← suspend_logging;
      bl ← log_line (time_decode now) tid pid level msg;
      resume_logging saved_level;;
      call_writer level (fst bl) (snd bl).

(** The macro [log]. *)
Definition log (now : timeval) (tid pid level : Z) (msg : list Z) : logM unit :=
  l ← gets log_max_level;
  if level <=? l then log_core now tid pid level msg else mret tt.
End log.

(** ** Texts without NUL, and their lengths *)

Definition good (l : list Z) : Prop := Forall (λ c, c ≠ 0) l.

Lemma good_app l l' : good l → good l' → good (l ++ l').
Proof. intros. by apply Forall_app. Qed.
Lemma good_cons c l : c ≠ 0 → good l → good (c :: l).
Proof. by constructor. Qed.
Lemma good_nil : good [].
Proof. constructor. Qed.
Lemma good_digits fuel n : 0 ≤ n → good (digits fuel n).
Proof.
  revert n. induction fuel as [|fuel IH]; intros n Hn; simpl; [apply good_nil|].
  destruct (Z.ltb_spec n 10); [apply good_cons; [lia|apply good_nil]|].
  apply good_app; [apply IH; by apply Z.div_pos|]. apply good_cons; [|apply good_nil].
  pose proof (Z.mod_pos_bound n 10). lia.
Qed.
Lemma good_pad c w l : c ≠ 0 → good l → good (pad c w l).
Proof. intros Hc Hl. apply good_app; [|done]. by apply Forall_replicate. Qed.
Lemma good_fmt_d w x : good (fmt_d w x).
Proof.
  apply good_pad; [done|]. destruct (Z.ltb_spec x 0); [apply good_cons; [done|]|]; apply good_digits; lia.
Qed.
Lemma good_fmt_0d w x : good (fmt_0d w x).
Proof.
  unfold fmt_0d. destruct (Z.ltb_spec x 0); [apply good_cons; [done|]|]; apply good_pad; try done; apply good_digits; lia.
Qed.

Lemma length_digits fuel n : (length (digits fuel n) ≤ fuel)%nat.
Proof.
  revert n. induction fuel as [|fuel IH]; intros n; simpl; [done|]. destruct (n <? 10); [simpl; lia|].
  rewrite length_app. specialize (IH (n / 10)). simpl. lia.
Qed.
Lemma length_pad c w l : (length (pad c w l) ≤ Nat.max (Z.to_nat w) (length l))%nat.
Proof. unfold pad. rewrite length_app, length_replicate. lia. Qed.
Lemma length_fmt_d w x : (length (fmt_d w x) ≤ Nat.max (Z.to_nat w) 21)%nat.
Proof.
  unfold fmt_d. etrans; [apply length_pad|]. apply Nat.max_le_compat_l.
  destruct (x <? 0); rewrite ?length_cons; [pose proof (length_digits 20 (- x))|pose proof (length_digits 20 x)]; lia.
Qed.
Lemma length_fmt_0d w x : (length (fmt_0d w x) ≤ Nat.max (Z.to_nat w) 21)%nat.
Proof.
  unfold fmt_0d. destruct (x <? 0); rewrite ?length_cons.
  - pose proof (length_pad 48 (w - 1) (digits 20 (- x))). pose proof (length_digits 20 (- x)). lia.
  - pose proof (length_pad 48 w (digits 20 x)). pose proof (length_digits 20 x). lia.
Qed.

Create HintDb text.
#[local] Hint Resolve good_app good_cons good_nil good_fmt_d good_fmt_0d good_pad : text.

Lemma cstr_good T l : good T → cstr (T ++ 0 :: l) = Some T.
Proof.
  intros HT. induction HT as [|c T Hc _ IH]; [done|]. simpl. destruct (Z.eqb_spec c 0); [done|]. by rewrite IH.
Qed.

(** ** The buffer *)

(** The buffer starts with [T] and is zero from there on. *)
Definition filled (T : list Z) (bl : list Z * Z) : Prop :=
  snd bl = Z.of_nat (length T) ∧ (length T < 4000)%nat ∧ fst bl = T ++ replicate (4000 - length T) 0.

Lemma put_text_filled T t k : (length T + k < 3999)%nat → (k ≤ length t)%nat →
  take (length T) (T ++ replicate (4000 - length T) 0) ++ (take k t ++ [0]) ++
    drop (length T + length (take k t ++ [0])) (T ++ replicate (4000 - length T) 0) =
  (T ++ take k t) ++ replicate (4000 - (length T + k)) 0.
Proof.
  intros Hk Ht. rewrite take_app_length, <- !app_assoc. do 2 f_equal.
  rewrite length_app, length_take_le by done. simpl. rewrite drop_app_add, drop_replicate.
  replace (4000 - (length T + k))%nat with (S (4000 - length T - (k + 1))) by lia. done.
Qed.
Lemma put_text_eq T t : (length T < 3999)%nat →
  put_text (T ++ replicate (4000 - length T) 0) (Z.of_nat (length T)) (u64 (max - Z.of_nat (length T))) t =
  Some ((T ++ take (3998 - length T) t) ++ replicate (4000 - (length T + Nat.min (3998 - length T) (length t))) 0).
Proof.
  intros HT. unfold put_text, max, LOG_MAX_SIZE. rewrite u64_small by lia. destruct (Z.eqb_spec (4000 - 1 - Z.of_nat (length T)) 0); [lia|].
  assert (Z.to_nat (Z.min (4000 - 1 - Z.of_nat (length T) - 1) (Z.of_nat (length t))) = Nat.min (3998 - length T) (length t)) as -> by lia.
  set (k := Nat.min (3998 - length T) (length t)).
  assert (take k t = take (3998 - length T) t) as <-.
  { unfold k. destruct (decide (length t ≤ 3998 - length T)%nat).
    - rewrite Nat.min_r by lia. by rewrite !take_ge by lia.
    - by rewrite Nat.min_l by lia. }
  assert (length (take k t ++ [0]) = (k + 1)%nat) as Hl by (rewrite length_app, length_take_le by (unfold k; lia); done).
  destruct (Z.leb_spec 0 (Z.of_nat (length T))); [|lia].
  destruct (Z.leb_spec (Z.of_nat (length T) + Z.of_nat (length (take k t ++ [0])))
    (Z.of_nat (length (T ++ replicate (4000 - length T) 0)))) as [|Hb].
  2: { rewrite Hl, length_app, length_replicate in Hb. lia. }
  simpl. f_equal. rewrite Nat2Z.id. apply put_text_filled; lia.
Qed.
Lemma put_byte_filled T c : (length T < 3999)%nat →
  put_byte (T ++ replicate (4000 - length T) 0) (Z.of_nat (length T)) c =
  Some ((T ++ [c]) ++ replicate (4000 - (length T + 1)) 0).
Proof.
  intros HT. unfold put_byte, put_set. rewrite length_app, length_replicate.
  destruct (Z.leb_spec 0 (Z.of_nat (length T))); [|lia].
  destruct (Z.leb_spec (Z.of_nat (length T) + 1) (Z.of_nat (length T + (4000 - length T)))); [|lia].
  simpl. f_equal. rewrite Nat2Z.id, take_app_length, <- app_assoc. f_equal.
  replace (Z.to_nat (Z.of_nat (length T) + 1)) with (length T + 1)%nat by lia. rewrite drop_app_add, drop_replicate.
  change (Z.to_nat 1) with 1%nat. simpl. do 2 f_equal. lia.
Qed.
Lemma put_last T : (length T ≤ 3999)%nat →
  put_byte (T ++ replicate (4000 - length T) 0) (LOG_MAX_SIZE - 1) 0 = Some (T ++ replicate (4000 - length T) 0).
Proof.
  intros HT. unfold put_byte, put_set, LOG_MAX_SIZE. change (Z.to_nat (4000 - 1)) with 3999%nat. rewrite length_app, length_replicate.
  destruct (Z.leb_spec (4000 - 1 + 1) (Z.of_nat (length T + (4000 - length T)))); [|lia]. simpl. f_equal.
  change (Z.to_nat (4000 - 1 + 1)) with 4000%nat. rewrite drop_ge by (rewrite length_app, length_replicate; lia).
  change (Z.to_nat 1) with 1%nat. rewrite take_app_ge, take_replicate, <- app_assoc by lia. f_equal. simpl.
  rewrite <- replicate_S_end. f_equal. lia.
Qed.

Section spec.
Context `{LogEnv}.

(** At most [n] bytes, none of them NUL, are in the buffer. *)
Definition built (n : nat) (bl : list Z * Z) : Prop := ∃ T, filled T bl ∧ good T ∧ (length T ≤ n)%nat.

Lemma built_mono n n' bl : built n bl → (n ≤ n')%nat → built n' bl.
Proof. intros (T & ? & ? & ?) ?. exists T. split_and!; [done|done|lia]. Qed.

Lemma emit_filled T t bl s : filled T bl → (length T + length t < 3999)%nat →
  ∃ bl', emit t bl s = Ret (bl', s) ∧ filled (T ++ t) bl'.
Proof.
  destruct bl as [buf len]. intros (Hl & HT & Hb) Ht. simpl in *. subst. unfold emit, gets_opt, mbind, M_bind. simpl.
  rewrite put_text_eq by lia. rewrite take_ge, Nat.min_r by lia. unfold INT_MAX.
  rewrite !(proj2 (Z.ltb_ge _ _)) by lia. eexists. split; [done|].
  unfold filled. simpl. rewrite length_app. split_and!; [lia|lia|done].
Qed.
Lemma wp_emit n k t bl s : built n bl → good t → (length t ≤ k)%nat → (n + k < 3999)%nat →
  wp (emit t bl) (λ bl' s', s' = s ∧ built (n + k) bl') s.
Proof.
  intros (T & HT & Hg & Hl) Ht Hk Hn. destruct (emit_filled T t bl s HT) as (bl' & E & HT'); [lia|].
  apply wp_run. exists bl', s. split_and!; [done|done|]. exists (T ++ t). split_and!; [done|by apply good_app|].
  rewrite length_app. lia.
Qed.
Lemma wp_has flag Q s : (∀ b, b = negb (Z.land (log_decor s) flag =? 0) → Q b s) → wp (has flag) Q s.
Proof. intros HQ. apply wp_bind, wp_gets, wp_ret. by apply HQ. Qed.
Lemma wp_emit_if n k flag t bl s : built n bl → good t → (length t ≤ k)%nat → (n + k < 3999)%nat →
  wp (emit_if flag t bl) (λ bl' s', s' = s ∧ built (n + k) bl') s.
Proof.
  intros Hb Ht Hk Hn. apply wp_bind, wp_has. intros [] _; [by apply wp_emit|]. apply wp_ret. split; [done|].
  apply (built_mono n); [done|lia].
Qed.
(** The next piece of the line, of at most [k] bytes. *)
Lemma wp_piece n k flag t bl s (f : list Z * Z → M log_state (list Z * Z)) Q : built n bl → good t → (length t ≤ k)%nat →
  (n + k < 3999)%nat → (∀ bl', built (n + k) bl' → wp (f bl') Q s) → wp (emit_if flag t bl ≫= f) Q s.
Proof.
  intros Hb Ht Hk Hn Hf. apply wp_bind. eapply wp_mono; [by apply (wp_emit_if n k)|]. intros bl' s' [-> Hb']. by apply Hf.
Qed.

Definition level_ok (level : Z) (s : log_state) : Prop :=
  Z.land (log_decor s) LOG_HAS_LEVEL_TEXT ≠ 0 → 0 ≤ level ≤ 6.

Lemma wp_text_at (l : list (list Z)) i Q s : 0 ≤ i < Z.of_nat (length l) →
  (∀ t, t ∈ l → Q t s) → wp (text_at l i) Q s.
Proof.
  intros Hi HQ. destruct (lookup_lt_is_Some_2 l (Z.to_nat i)) as [t Ht]; [lia|].
  eapply wp_gets_opt; [|apply HQ; by eapply list_elem_of_lookup_2]. cbv beta. by destruct (Z.ltb_spec i 0); [lia|].
Qed.
Lemma ltexts_ok t : t ∈ ltexts → good t ∧ length t = 6%nat.
Proof.
  revert t. apply (Forall_forall (λ t, good t ∧ length t = 6%nat)). repeat (constructor; [split; [repeat (constructor; [done|]); constructor|done]|]). constructor.
Qed.
Lemma wdays_ok t : t ∈ wdays → good t ∧ length t = 3%nat.
Proof.
  revert t. apply (Forall_forall (λ t, good t ∧ length t = 3%nat)). repeat (constructor; [split; [repeat (constructor; [done|]); constructor|done]|]). constructor.
Qed.

Lemma emit_date_spec level p bl s : built 0 bl → level_ok level s → 0 ≤ wday p ≤ 6 →
  wp (emit_date level p bl) (λ bl' s', s' = s ∧ built 80 bl') s.
Proof.
  intros Hb Hlev Hw. unfold emit_date. apply wp_bind, wp_has. intros b Eb. apply wp_bind.
  eapply (wp_mono _ (λ bl' s', s' = s ∧ built 6 bl')).
  { destruct b; [|apply wp_ret; split; [done|by apply (built_mono 0); [|lia]]].
    apply wp_bind, wp_text_at.
    - change (length ltexts) with 7%nat. assert (0 ≤ level ≤ 6); [|lia]. apply Hlev. intros E. by rewrite E in Eb.
    - intros t [Ht Hl]%ltexts_ok. apply (wp_emit 0 6); [done|done|lia|lia]. }
  clear bl Hb. intros bl s' [-> Hb]. apply wp_bind, wp_has. intros b' Eb'. apply wp_bind.
  eapply (wp_mono _ (λ bl' s', s' = s ∧ built 9 bl')).
  { destruct b'; [|apply wp_ret; split; [done|by apply (built_mono 6); [|lia]]].
    apply wp_bind, wp_text_at; [change (length wdays) with 7%nat; lia|].
    intros t [Ht Hl]%wdays_ok. apply (wp_emit 6 3); [done|done|lia|lia]. }
  clear bl Hb. intros bl s' [-> Hb].
  eapply (wp_piece 9 22); [done| | |lia|].
  { apply good_app; [destruct (snd bl =? 0); auto with text|apply good_fmt_d]. }
  { rewrite length_app. pose proof (length_fmt_d 0 (year p)). destruct (snd bl =? 0); simpl; lia. }
  clear bl Hb. intros bl Hb. eapply (wp_piece _ 22); [done|auto with text| |lia|].
  { rewrite length_cons. pose proof (length_fmt_0d 2 (mon p)). lia. }
  clear bl Hb. intros bl Hb. eapply wp_mono; [apply (wp_emit_if _ 22 _ _ _ _ Hb); [auto with text| |lia]|].
  { rewrite length_cons. pose proof (length_fmt_0d 2 (day p)). lia. }
  intros bl' s' [-> Hb']. split; [done|]. apply (built_mono _ 80 _ Hb'). lia.
Qed.

(** Messages that are filtered out, and the others. *)
Lemma log_core_off now tid pid level msg s : log_max_level s < level ∨ log_max_level s = 0 →
  log_core now tid pid level msg s = Ret (tt, s).
Proof.
  intros Hs. unfold log_core, is_logging_suspended, gets, mbind, M_bind, mret, M_ret.
  destruct (Z.ltb_spec (log_max_level s) level); [done|]. by destruct (Z.eqb_spec (log_max_level s) 0); [|lia].
Qed.
Lemma log_core_runs now tid pid level msg s : level ≤ log_max_level s → log_max_level s ≠ 0 →
  log_core now tid pid level msg s =
  (bl ← log_line (time_decode now) tid pid level msg;
   resume_logging (log_max_level s);;
   call_writer level (fst bl) (snd bl)) (set_level 0 s).
Proof.
  intros Hle H0. unfold log_core, is_logging_suspended, suspend_logging, gets, modify, mbind, M_bind, mret, M_ret.
  destruct (Z.ltb_spec (log_max_level s) level); [lia|]. by destruct (Z.eqb_spec (log_max_level s) 0).
Qed.

Context (HFILE : good FILE_) (HFILEn : (length FILE_ ≤ 255)%nat).

Lemma emit_rest_spec tid pid p bl s : built 80 bl →
  wp (emit_rest tid pid p bl) (λ bl' s', s' = s ∧ built 600 bl') s.
Proof using All.
  intros Hb. unfold emit_rest.
  assert (good (bytes " [") ∧ good (bytes "#[") ∧ good (bytes "log_core")) as (G1 & G2 & G3)
    by (split_and!; repeat (constructor; [done|]); constructor).
  eapply (wp_piece 80 66); [done| | |lia|].
  { apply good_cons; [done|]. apply good_app; [apply good_fmt_0d|]. apply good_cons; [done|].
    apply good_app; [apply good_fmt_0d|]. apply good_cons; [done|]. apply good_fmt_0d. }
  { repeat (rewrite length_cons || rewrite length_app). pose proof (length_fmt_0d 2 (hour p)).
    pose proof (length_fmt_0d 2 (min p)). pose proof (length_fmt_0d 2 (sec p)). lia. }
  clear bl Hb. intros bl Hb. eapply (wp_piece _ 23); [done| | |lia|].
  { apply good_cons; [done|]. apply good_app; [apply good_fmt_0d|auto with text]. }
  { rewrite length_cons, length_app. pose proof (length_fmt_0d 3 (msec p)). simpl. lia. }
  clear bl Hb. intros bl Hb. eapply (wp_piece _ 300); [done| | |lia|].
  { apply good_app; [done|]. apply good_app; [by apply good_pad|]. apply good_cons; [done|].
    apply good_app; [by apply good_pad|]. apply good_cons; [done|]. apply good_app; [apply good_fmt_0d|auto with text]. }
  { rewrite !length_app, length_cons, length_app, length_cons, length_app. pose proof (length_pad 32 14 FILE_).
    pose proof (length_pad 32 16 (bytes "log_core")). pose proof (length_fmt_0d 3 LINE_).
    change (length (bytes " [")) with 2%nat. change (length (bytes "log_core")) with 8%nat in *. unfold fmt_s. simpl (length [93]). lia. }
  clear bl Hb. intros bl Hb. eapply (wp_piece _ 24); [done| | |lia|].
  { apply good_app; [done|]. apply good_app; [apply good_fmt_d|auto with text]. }
  { rewrite !length_app. pose proof (length_fmt_d 8 tid). change (length (bytes " [")) with 2%nat. simpl (length [93]). lia. }
  clear bl Hb. intros bl Hb. eapply (wp_piece _ 24); [done| | |lia|].
  { apply good_app; [done|]. apply good_app; [apply good_fmt_d|auto with text]. }
  { rewrite !length_app. pose proof (length_fmt_d 8 pid). change (length (bytes "#[")) with 2%nat. simpl (length [93]). lia. }
  clear bl Hb. intros bl Hb. apply wp_bind, wp_gets, wp_bind.
  eapply (wp_mono _ (λ bl' s', s' = s ∧ built 518 bl')).
  { destruct (_ && _); [|apply wp_ret; split; [done|by apply (built_mono 517); [|lia]]].
    apply (wp_emit 517 1); [done|auto with text|done|lia]. }
  clear bl Hb. intros bl s' [-> Hb]. apply wp_bind, wp_has. intros b _.
  destruct b; [apply wp_ret; split; [done|by apply (built_mono 518); [|lia]]|].
  eapply wp_mono; [apply (wp_emit_if 518 1); [done|auto with text|done|lia]|]. intros bl' s' [-> Hb']. split; [done|].
  apply (built_mono 519); [done|lia].
Qed.

(** A key that was never created reads as NULL with the C library of Linux:
    then nothing is ever indented. *)
Context (Hkey : bad_key = Some NULL).

Lemma emit_indent_spec bl s : emit_indent bl s = Ret (bl, s).
Proof using Hkey.
  unfold emit_indent, has, log_get_indent, log_get_raw_indent, key_get, gets_opt, gets, mbind, M_bind. rewrite Hkey. simpl.
  by destruct (negb _).
Qed.
Lemma add_indent_nop n s : mdl_log_add_indent n s = Ret (tt, s).
Proof using Hkey.
  unfold mdl_log_add_indent, log_set_indent, key_set, log_get_raw_indent, key_get, gets_opt, mbind, M_bind. by rewrite Hkey.
Qed.

(** The end of the line: the message, cut to what fits, the newline and the NUL. *)
Definition fits (l : list Z) : bool := bool_decide (length l < 3999)%nat.
Definition newline (s : log_state) : list Z := if Z.land (log_decor s) LOG_HAS_NEWLINE =? 0 then [] else [10].
Definition line_text (l : list Z) (s : log_state) : list Z := if fits l then l ++ newline s else take 3998 l.
Definition line_len (l : list Z) (s : log_state) : Z :=
  Z.of_nat (length l + if fits l then length (newline s) else 0%nat).

(** [T] in the buffer, of which the terminator is inside it. *)
Lemma cstr_filled T : (length T < 4000)%nat → good T → cstr (T ++ replicate (4000 - length T) 0) = Some T.
Proof.
  intros HT Hg. replace (4000 - length T)%nat with (S (3999 - length T)) by lia. by apply cstr_good.
Qed.
Lemma wp_terminate T len (Q : list Z * Z → log_state → Prop) s : (length T ≤ 3999)%nat →
  Q (T ++ replicate (4000 - length T) 0, len) s →
  wp (buf ← gets_opt (λ _, put_byte (T ++ replicate (4000 - length T) 0) (LOG_MAX_SIZE - 1) 0); mret (buf, len)) Q s.
Proof. intros HT HQ. apply wp_bind. eapply wp_gets_opt; [by apply put_last|]. by apply wp_ret. Qed.

(** A line that is longer than an [int] counts. *)
Lemma emit_message_long T bl msg s : filled T bl → INT_MAX < Z.of_nat (length (T ++ msg)) →
  emit_line msg bl s = Fault.
Proof.
  intros (Hl & _ & _) Hlong. apply bind_fault. unfold emit, gets_opt, mbind, M_bind.
  destruct (put_text _ _ _ _); [|done]. rewrite length_app in Hlong.
  rewrite (proj2 (Z.ltb_lt INT_MAX (snd bl + _))) by lia. by rewrite orb_true_r.
Qed.

Lemma emit_message T bl msg s : filled T bl → good T → (length T ≤ 600)%nat → good msg →
  Z.of_nat (length (T ++ msg)) ≤ INT_MAX →
  wp (emit_line msg bl)
    (λ '(buf, len) s', s' = s ∧ length buf = 4000%nat ∧
       cstr buf = Some (line_text (T ++ msg) s) ∧ len = line_len (T ++ msg) s) s.
Proof.
  destruct bl as [buf0 len0]. intros (El & HT & Eb) Hg Hl Hm Hint. simpl in El, Eb. subst buf0 len0.
  assert (∀ X, (length X ≤ 3999)%nat → length (X ++ replicate (4000 - length X) 0) = 4000%nat) as Hlen
    by (intros; rewrite length_app, length_replicate; lia).
  assert (good (T ++ msg)) as Hgm by (by apply good_app). unfold line_text, line_len, newline, fits.
  unfold emit_line. apply wp_bind. unfold emit at 1. apply wp_bind. eapply wp_gets_opt; [apply put_text_eq; simpl; lia|].
  simpl snd. rewrite <- Nat2Z.inj_add, <- length_app, (proj2 (Z.ltb_ge INT_MAX (Z.of_nat (length (T ++ msg))))) by done.
  rewrite (proj2 (Z.ltb_ge INT_MAX _)) by (rewrite length_app in Hint; lia). apply wp_ret.
  apply wp_bind, wp_has. intros b ->. simpl snd. simpl fst.
  destruct (decide (length (T ++ msg) < 3999)%nat) as [Hfit|Hfit].
  - rewrite length_app in Hfit. rewrite take_ge, Nat.min_r by lia. rewrite <- !length_app in *.
    destruct (Z.leb_spec max (Z.of_nat (length (T ++ msg)))) as [Hb|_]; [unfold max, LOG_MAX_SIZE in Hb; lia|].
    apply wp_bind. destruct (Z.eqb_spec (Z.land (log_decor s) LOG_HAS_NEWLINE) 0); simpl.
    + apply wp_ret, wp_terminate; [lia|]. split; [done|]. rewrite bool_decide_eq_true_2 by lia.
      rewrite Nat.add_0_r, app_nil_r. split_and!; [apply Hlen; lia|apply cstr_filled; [lia|done]|done].
    + apply wp_bind. eapply wp_gets_opt; [apply put_byte_filled; lia|]. apply wp_ret.
      replace (length (T ++ msg) + 1)%nat with (length ((T ++ msg) ++ [10%Z])) by (rewrite (length_app (T ++ msg)); simpl; lia).
      assert (length ((T ++ msg) ++ [10%Z]) < 4000)%nat by (rewrite (length_app (T ++ msg)); simpl; lia).
      apply wp_terminate; [lia|]. split; [done|]. rewrite bool_decide_eq_true_2 by lia.
      split_and!; [apply Hlen; lia|apply cstr_filled; [lia|auto with text]|simpl; lia].
  - rewrite length_app in Hfit.
    destruct (Z.leb_spec max (Z.of_nat (length (T ++ msg)))) as [_|Hb]; [|rewrite length_app in Hb; unfold max, LOG_MAX_SIZE in Hb; lia].
    apply wp_bind, wp_ret. rewrite Nat.min_l by lia.
    assert (length (T ++ take (3998 - length T) msg) = 3998%nat) as E by (rewrite length_app, length_take_le; lia).
    replace (length T + (3998 - length T))%nat with (length (T ++ take (3998 - length T) msg)) by lia.
    apply wp_terminate; [lia|]. split; [done|]. rewrite bool_decide_eq_false_2 by (rewrite length_app; lia).
    split_and!; [apply Hlen; lia| |by rewrite Nat.add_0_r].
    rewrite cstr_filled by (lia || (apply good_app; [done|by apply Forall_take])). by rewrite (take_app_ge T msg 3998) by lia.
Qed.


Context (Hwday : ∀ t, 0 ≤ tm_wday (localtime t) ≤ 6).

(** C38: a message that is not filtered out reaches the writer once, after at
    most 600 bytes of decoration, cut to what fits into the buffer, which is
    never written outside, and with the newline if it all fits; the length
    that is passed is that of the whole line, even when it was cut.  The level
    is what it was before when the writer runs.  Only a line of more than
    INT_MAX bytes, which the [int] that counts them cannot hold, is undefined. *)
Theorem log_core_spec now tid pid level msg s : level ≤ log_max_level s → log_max_level s ≠ 0 → level_ok level s → good msg →
  ∃ pre, (length pre ≤ 600)%nat ∧
    (INT_MAX < Z.of_nat (length (pre ++ msg)) → log_core now tid pid level msg s = Fault) ∧
    (Z.of_nat (length (pre ++ msg)) ≤ INT_MAX → ∃ buf,
      length buf = 4000%nat ∧ cstr buf = Some (line_text (pre ++ msg) s) ∧
      log_core now tid pid level msg s = call_writer level buf (line_len (pre ++ msg) s) s).
Proof using All.
  intros Hle Hmax Hlev Hm. set (s0 := set_level 0 s). set (p := time_decode now).
  assert (wp (bl ← emit_date level p (replicate (Z.to_nat LOG_MAX_SIZE) 0, 0); bl ← emit_rest tid pid p bl; emit_indent bl)
    (λ bl s', s' = s0 ∧ built 600 bl) s0) as Hw.
  { apply wp_bind. eapply wp_mono; [apply emit_date_spec; [|done|apply Hwday]|].
    - exists []. split_and!; [split_and!; [done|simpl; lia|done]|constructor|done].
    - intros bl s1 [-> Hb]. apply wp_bind. eapply wp_mono; [by apply emit_rest_spec|]. intros bl2 s2 [-> Hb2].
      apply wp_run. exists bl2, s0. by split; [apply emit_indent_spec|]. }
  apply wp_run in Hw as (bl & s1 & E & -> & T & HT & Hg & Hl).
  assert (log_line p tid pid level msg s0 = emit_line msg bl s0) as El.
  { revert E. unfold log_line, mbind, M_bind. destruct (emit_date _ _ _ _) as [[b1 s1]| | | | |]; try done.
    destruct (emit_rest _ _ _ _ _) as [[b2 s2]| | | | |]; try done. intros ->. done. }
  exists T. split; [done|]. rewrite log_core_runs by done. fold s0 p. split.
  - intros Hlong. apply bind_fault. rewrite El. by apply (emit_message_long T).
  - intros Hint. pose proof (emit_message T bl msg s0 HT Hg Hl Hm Hint) as Hw.
    apply wp_run in Hw as ([buf len] & s1 & E2 & -> & Hbuf & Hstr & ->). rewrite <- El in E2.
    exists buf. split_and!; [done..|]. rewrite (bind_ret _ _ _ _ _ E2).
    assert (resume_logging (log_max_level s) s0 = Ret (tt, s)) as Er.
    { unfold resume_logging, gets, modify, mbind, M_bind. simpl. destruct (Z.eqb_spec (log_max_level s) 0); [done|]. by destruct s. }
    by rewrite (bind_ret _ _ _ _ _ Er).
Qed.
End spec.

(** With the level set to MDL_LOG_FATAL nothing is written, not even a
    fatal message: level 0 is also how logging is suspended. *)
Theorem log_fatal_silent `{LogEnv} now tid pid level msg s :
  (mdl_log_set_level 0;; log now tid pid level msg) s = Ret (tt, set_level 0 s).
Proof.
  assert (log now tid pid level msg (set_level 0 s) = Ret (tt, set_level 0 s)) as E; [|exact E].
  unfold log. apply bind_outcome, wp_gets. destruct (_ <=? _); [|done]. apply log_core_off. by right.
Qed.

(** With the level text among the decorations, a level outside 0 to 6
    that the maximum lets through reads outside the table of texts; every
    negative level is let through. *)
Theorem log_level_overread `{LogEnv} now tid pid level msg s : level ≤ log_max_level s → log_max_level s ≠ 0 →
  Z.land (log_decor s) LOG_HAS_LEVEL_TEXT ≠ 0 → level < 0 ∨ 6 < level → log_core now tid pid level msg s = Fault.
Proof.
  intros Hle Hmax Hflag Hlev. rewrite log_core_runs by done. apply bind_fault. unfold log_line. apply bind_fault.
  unfold emit_date. apply bind_outcome, wp_has. intros b ->. simpl (log_decor _).
  destruct (Z.eqb_spec (Z.land (log_decor s) LOG_HAS_LEVEL_TEXT) 0) as [|_]; [done|]. apply bind_fault, bind_fault.
  unfold text_at, gets_opt. destruct (Z.ltb_spec level 0); [done|]. by rewrite lookup_ge_None_2 by (change (length ltexts) with 7%nat; lia).
Qed.

(** ** Examples *)

Definition ex_env : LogEnv := {|
  localtime _ := Tm 7 8 9 10 10 124 0;
  FILE_ := bytes "log.c";
  bad_key := Some NULL;
|}.
#[local] Existing Instance ex_env.

(** The line of the default decorations, and one with all of them. *)
Example ex_log_default :
  (log (TV 0 123456) 77 42 3 (bytes "hello");; gets stdout) log_start =
  Ret (bytes " 09:08:07.123  [      77]#[      42]  hello" ++ [10],
       set_out (bytes " 09:08:07.123  [      77]#[      42]  hello" ++ [10]) [] log_start).
Proof. by vm_compute. Qed.
Example ex_log_all : ∃ s,
  (mdl_log_set_decor 0x3fff;; log (TV 0 123456) 77 42 3 (bytes "hello");; gets stdout) log_start =
  Ret (27 :: bytes "[01;37m INFO:Sun 2024-11-10 09:08:07.123  [         log.c:        log_core#544] [      77]#[      42] hello"
       ++ 10 :: 27 :: bytes "[00;37m", s).
Proof. eexists. by vm_compute. Qed.
Lemma ex_good s : forallb (λ c, negb (c =? 0)) (bytes s) = true → good (bytes s).
Proof.
  intros E. apply Forall_forall. intros c Hc. rewrite forallb_forall in E. apply list_elem_of_In, E in Hc.
  destruct (Z.eqb_spec c 0); [done|lia].
Qed.
Lemma log_core_spec_witness : ∃ pre buf, (length pre ≤ 600)%nat ∧ length buf = 4000%nat ∧
  cstr buf = Some (line_text (pre ++ bytes "hello") log_start) ∧
  log_core (TV 0 0) 1 2 3 (bytes "hello") log_start = call_writer 3 buf (line_len (pre ++ bytes "hello") log_start) log_start.
Proof.
  destruct (@log_core_spec ex_env (ex_good "log.c" eq_refl) ltac:(simpl; lia) eq_refl ltac:(simpl; lia) (TV 0 0) 1 2 3 (bytes "hello") log_start)
    as (pre & Hpre & _ & Hs); [by vm_compute|by vm_compute|intros E; by destruct E|by apply ex_good|].
  destruct Hs as (buf & Hs).
  - rewrite length_app. change (length (bytes "hello")) with 5%nat. unfold INT_MAX. lia.
  - exists pre, buf. split; [exact Hpre|exact Hs].
Defined.
Lemma log_level_overread_witness : log_core (TV 0 0) 1 2 (-1) [] (set_decor LOG_HAS_LEVEL_TEXT log_start) = Fault.
Proof. apply log_level_overread; [by vm_compute|by vm_compute|by vm_compute|by left]. Defined.
